(* ===== verification/_CoqProject ===== *)
-Q . S2P
Prelude.v
GoText.v
Message.v
RingBuffer.v
RingWait.v
TimingWheel.v
DeadLetter.v
ConsumerGroup.v
Topic.v
Custody.v
TopicSafety.v
Broker.v
BrokerSafety.v
Journal.v
Encoding.v
Json.v
GoFloat.v
MessageJson.v
Checksum.v
Wal.v
WalDurable.v
WalWindow.v
Recovery.v
Resp.v
BufReader.v
Server.v
ServerSafety.v
CommandSafety.v
Session.v
Api.v
ApiSafety.v
ApiSpec.v
ApiJson.v
Daemon.v
System.v
Cli.v
