(* ===== verification/Prelude.v ===== *)
(** * VortexMQ: verification development

    VortexMQ is a message broker: clients speak the Redis protocol over TCP or
    JSON over HTTP, messages live in memory in one ring buffer per topic, with
    consumer groups, delayed delivery, retries and dead letters, and an optional
    write-ahead log makes publications durable.  This library models its Go code
    under [src/] and proves what makes the parts, and their composition, correct.

    ** The parts and how they interact

    A connection ([network/server.go]) reads commands with the RESP codec
    ([protocol/resp.go]) and calls the broker ([queue/broker.go]); so do the
    handlers of the HTTP API ([api/server.go]), whose requests and answers are
    JSON.  The broker owns the topics by name, logs a publication before
    enqueuing it ([wal/wal.go], through the interface [BrokerWAL]) and sweeps
    expired leases.  A topic ([queue/topic.go]) owns a ring ([queue/ring.go]), a
    timing wheel for delayed messages and retries ([queue/timingwheel.go]),
    consumer groups with their pending lists ([queue/consumer_group.go]) and a
    dead letter queue ([queue/dlq.go]); wheel and groups call back into the
    topic.  At startup [cmd/vortexmq/main.go] opens the log, replays it into a
    new broker and starts the two servers; on a signal it stops them and closes
    the broker.  [cmd/vortexmq-cli/main.go] is a client of the TCP protocol.

    ** Files

    - [Prelude] (this file): machine integers with their wrap-around, the monad
      [prog] of stateful calls that return, park or panic, lenses for components
      inside a state, Go slices, tactics and hints.
    - [GoText]: bytes, strings, decimal and hexadecimal formatting and parsing.
    - [Message]: [message.go].  Messages live in a store, because the code shares
      them by pointer; a pointer is a [loc].
    - [RingBuffer]: [ring.go], each method with its 64-bit counters.
      [RingWait]: the blocking protocol of the same file, [sync.Cond] included,
      as a step relation over the goroutines that use one ring.
    - [TimingWheel]: [timingwheel.go].  [DeadLetter]: [dlq.go], with the reader
      count of its lock.  [ConsumerGroup]: [consumer_group.go], its callbacks as
      arguments.
    - [Topic]: [topic.go], composed of the four through lenses; [Custody]: the
      invariant that relates them (every live ID is in exactly one place);
      [TopicSafety]: the theorems about topics.
    - [Broker]: [broker.go], over any log that implements the class [BrokerWAL];
      [BrokerSafety]: its invariant and theorems; [Journal]: which calls touch the
      channels and the log, and what the log is given.
    - [Encoding]: base64 and UTF-8 as [encoding/json] uses them.  [Json]: JSON
      values, the printer and the parser.  [GoFloat]: the [float64] that a JSON
      number becomes, rounding and shortest decimal form included.
      [MessageJson]: the JSON form of the structs, by their field tags.
    - [Checksum]: CRC-32 and big-endian integers.  [Wal]: [wal.go] over a disk
      that keeps what a process crash and what a machine crash leave, and whose
      calls may fail; [wal_contract] makes it an instance of [BrokerWAL], whose calls
      may return an error or panic, which then is a panic of the broker's call.
      [WalDurable]: its representation invariant and theorems; [WalWindow]: the
      goroutine that syncs once a second and what it guarantees.
    - [Recovery]: the callback of [main.go] and the round trip from publication
      through the log to a new broker.
    - [Resp]: [resp.go], its reader over the stream of bytes.  [BufReader]: the
      same reader over the buffer of [bufio.Reader] and the packets of the
      network, with its results as slices of memory.
    - [Server]: [network/server.go], one definition per case
      of the command switch, the authentication, the flushes, the connections.
      [ServerSafety] and [CommandSafety]: its theorems.  [Session]: the command
      loop over the buffered reader, with messages that keep slices of the buffer.
    - [Api]: [api/server.go], one definition per handler behind the router of
      its [ServeMux].  [ApiSafety]: that handlers
      return and what they answer; [ApiSpec]: what they do; [ApiJson]: JSON values
      as payloads, and that the two front ends are the same publication.
    - [Daemon]: [cmd/vortexmq/main.go], from the flags through startup to
      shutdown.  [System]: the whole running process, as steps of its goroutines.
      [Cli]: [cmd/vortexmq-cli/main.go], all of its [main], over the buffered writer
      and a connection that is a list of packets.

    A method of the source is a definition of the same name in the file of its
    component, a program over the state of that component; a loop is a
    [Fixpoint]; the clock, the random bytes and the iteration order of maps are
    arguments, so that a theorem for all arguments is a theorem for all
    behaviours of the environment.  Operations of different goroutines that the
    code serialises with a mutex are single steps; sequences of steps in any
    order are the relations [topic_step], [broker_step], [wstep],
    [server_step] and [sys_step].  The loops [for { select ... }] of the background
    goroutines are [ticker_loop] over the events they select.

    ** What is shown

    - Nothing is lost or duplicated below the bounds: from a new topic or broker, over
      every interleaving of calls on it while it is open, ticks, purges and sweeps, with
      new IDs and at most 50000 messages in a topic, the IDs that came in are those that
      went out (consumed, acknowledged or purged) and those still held, each held in one
      place ([topic_conserves_messages], [broker_conserves_messages]); no topic operation
      panics, and only the two that wait for a message can wait
      ([topic_operations_return]).  The same for the running daemon with its
      connections, requests and goroutines ([system_safe]).
    - The ring is a bounded deque ([ring_refines_deque]), no wakeup is lost and
      concurrent consumers get each message once ([no_lost_wakeup],
      [concurrent_exactly_once]); the wheel is a set of countdown timers
      ([wheel_refines_countdown]) that dispatches each message once, within a tick of
      its time ([delayed_message_on_time]); leases, retries,
      backoff, dead letters and their replay behave as intended.
    - Publications are logged first ([publish_write_ahead]); the log is durable
      as its policy says ([wal_durability]), detects damage and tolerates torn
      tails; a message accepted under [FsyncAlways] by a log that was opened in an empty
      directory is in its topic after a machine crash and the next startup
      ([accepted_message_restored]); startup recovers what the segments hold, consumed
      messages included ([startup_recovers]); a shutdown with idle connections leaves
      nothing in a buffer ([shutdown_durable]), and a client that waits in a pop keeps
      it waiting as long as its topic stays empty ([shutdown_waits]).  After a tick of
      the fsync goroutine a machine crash loses only what was written since
      ([periodic_window]); for a daemon started in an empty directory, a restart after a
      crash finds a prefix of all messages published, all of them under [FsyncAlways]
      ([system_crash]).
    - Messages survive their JSON form ([message_json_roundtrip]).
    - Commands survive the wire ([commands_roundtrip]) within the limits
      ([ReadCommand_bounded]), in whatever packets they arrive
      ([buffered_reader_refines]); no command whose records the log answers crashes the
      server ([command_safe]),
      an unauthenticated client changes nothing ([unauthenticated_inert]), the
      list commands are a queue ([list_commands_queue]).  From packets to replies,
      a session of array commands is these commands served in order
      ([wire_session]), and what is pushed is what is popped, byte for byte
      ([wire_queue]); inline commands lose this ([inline_args_overwritten],
      [inline_session_corrupts]).
    - The same for HTTP requests ([http_request_safe]); every successful answer but that
      of a preflight is JSON ([http_answers_json]), a refused request changes nothing
      ([http_refusal_inert]); what is published is what is consumed
      ([http_publish_consume]), and a JSON value, decoded and printed again, over
      either front end with the same effect ([json_front_ends_agree]).
    - The client never sends its first command ([cli_hangs]); given replies it would
      show them ([cli_session]).
    - Theorems that state defects are listed as findings of the manifest; among
      them: the dead letter [Get] that always panics, batches that ignore the
      log, acknowledgements that replay ignores, torn tails that hide later
      records, usage errors that are not flushed, a client that never flushes
      its command, payloads of inline commands that later reads overwrite,
      broadcasts that nobody can receive ([broadcast_unheard]).

    ** Bounds and fuel

    [round_up] runs 64 doublings, enough for every 64-bit capacity that
    terminates; [buf_loop] runs the writer's loop twice, which is its maximum;
    [scan_loop] and [read_chunks] have the length of their input as fuel, since
    each round consumes input ([scan_loop_fuel], [readLine_total]).
    The reader's [slice_loop], [full_loop] and [read_chunks] have the bytes to
    come as fuel, for the same reason ([slice_loop_spec], [full_loop_agree]); so has
    the client's [string_loop].
    [parse_json] has twice the length of its text and one more: a value is a call
    of [parse_value], then of [parse_elements] or [parse_members], and each pair
    consumes a byte ([parse_print] shows it enough for what is printed); the
    loops over the bytes of a string have their length.  [shortest] tries 17
    digits, which always identify a [float64], and [strip_zeros] removes at most
    the zeros of such a number.
    Theorems
    about custody assume what keeps a topic below the capacity of its ring and
    of its dead letter queue (50000), since both drop their oldest entry beyond
    it; message IDs are assumed fresh where a publication is made, and
    [NewMessage_ids_distinct] says when they are.  The log is assumed to answer the
    records it is given ([answered]), which it does, also on a disk that fails, unless
    the length of a record wraps around 32 bits ([fitting_answered],
    [oversized_record_panics]).  Theorems about what is recovered assume a log that was
    opened in an empty directory ([log_rep]): on a reopened one the findings about torn
    tails and the order of segments apply.  A crash ([crashed]) leaves of every segment
    what was synced and any part of the bytes written after it; the entries of the
    directory are assumed to survive.

    ** What is not modelled

    The web studio's file server and the redirection of unclean paths appear as
    parameters of the HTTP router, the Unicode tables behind [bytes.ToUpper],
    [bytes.Fields] and [strings.TrimSpace] as parameters used only outside ASCII.
    Left out are the embedded web assets, the benchmarks, log lines and the banner,
    socket options and the sockets themselves.  [Server] and [System] take the
    arguments of a command by value, which [wire_session] justifies for commands in
    array form; [Session] has the aliasing of inline commands for one connection, but
    not the payloads of broadcasts.  Memory is unbounded: [make] of a ring never fails,
    although Go refuses slices beyond its address space; a [nil] map of headers is the
    empty map; a partial read at the end of the stream is the same error as none, since
    the loop treats them alike.  [System] takes a command or a request as one
    step, and leaves out the memory model of Go below the mutexes.

    Planned next: that [float_text] keeps the value of every double, several
    sessions with their buffers in one state, broker calls of different rounds
    interleaved in [System]. *)

From Stdlib Require Export ssreflect Strings.Byte ZArith Lia.
From stdpp Require Export numbers prelude gmap strings list.
Global Open Scope general_if_scope.
Global Open Scope Z_scope.
Global Set Default Goal Selector "!".

(** ** Machine integers

    Go's [uint64], [uint32] and [int]/[int64] are kept as [Z] with the
    wrap-around written out at every operation that can leave the range. *)

Definition u64 (z : Z) : Z := z mod 2 ^ 64.

Definition u32 (z : Z) : Z := z mod 2 ^ 32.

Definition i64 (z : Z) : Z := (z + 2 ^ 63) mod 2 ^ 64 - 2 ^ 63.

(** The range of [int64], as a predicate with a decision procedure. *)
Definition is_i64 (z : Z) : Prop := - 2 ^ 63 ≤ z < 2 ^ 63.

Global Instance is_i64_dec z : Decision (is_i64 z) := _.

(** ** Outcomes of a Go call

    A call returns a value, parks its goroutine on a condition variable
    ([Block]), or panics.  A parked call has already performed the state
    changes it made before parking, so [Block] carries the state; a panic in
    a goroutine of this program is never recovered and ends the process. *)

Inductive result (S A : Type) : Type :=
| Ret (a : A) (s : S)
| Block (s : S)
| Panic.
Arguments Ret {S A} a s.
Arguments Block {S A} s.
Arguments Panic {S A}.

(** A statement of the program: a function of the state it runs in. *)
Definition prog (S A : Type) : Type := S → result S A.

Global Instance prog_ret S : MRet (prog S) := λ A a s, Ret a s.

Global Instance prog_bind S : MBind (prog S) := λ A B k m s,
  match m s with
  | Ret a s' => k a s'
  | Block s' => Block s'
  | Panic => Panic
  end.

(** Reads the whole state, writes it, and the two failures. *)
Definition get {S} : prog S S := λ s, Ret s s.

Definition put {S} (s : S) : prog S unit := λ _, Ret tt s.

Definition panic {S A} : prog S A := λ _, Panic.

Definition park {S A} : prog S A := λ s, Block s.

(** A checked access: [None] is Go's run-time panic. *)
Definition must {S A} (o : option A) : prog S A :=
  match o with Some a => mret a | None => panic end.

(** [for _, x := range l { body }] *)
Fixpoint forM {S A} (l : list A) (body : A → prog S unit) : prog S unit :=
  match l with
  | [] => mret tt
  | x :: l' => body x ≫= λ _, forM l' body
  end.

(** [for { select { case <-ticker.C: body(); case <-quit: return } }], for the
    events that the select picks: [Some] is a tick, with what the world supplies
    to the body, [None] is [quit]; the result says whether the loop returned. *)
Fixpoint ticker_loop {S E} (body : E → prog S unit) (events : list (option E)) : prog S bool :=
  match events with
  | [] => mret false
  | Some e :: events' => body e ≫= λ _, ticker_loop body events'
  | None :: _ => mret true
  end.

(** ** Components inside a larger state

    A lens is how an operation of one component is run inside the state of
    the component that owns it ([t.ring.Push(msg)] inside a topic). *)

Record Lens (S T : Type) : Type := mkLens {
  view : S → T;
  over : T → S → S
}.
Arguments mkLens {S T} _ _.
Arguments view {S T} _ _.
Arguments over {S T} _ _ _.

Class LensLaws {S T} (L : Lens S T) : Prop := {
  view_over : ∀ t s, view L (over L t s) = t;
  over_view : ∀ s, over L (view L s) s = s;
  over_over : ∀ t t' s, over L t (over L t' s) = over L t s
}.

Definition lens_fst {A B} : Lens (A * B) A := mkLens fst (λ a s, (a, s.2)).

Definition lens_snd {A B} : Lens (A * B) B := mkLens snd (λ b s, (s.1, b)).

Definition zoom {S T A} (L : Lens S T) (m : prog T A) : prog S A := λ s,
  match m (view L s) with
  | Ret a t => Ret a (over L t s)
  | Block t => Block (over L t s)
  | Panic => Panic
  end.

Definition modify {S T} (L : Lens S T) (f : T → T) : prog S unit := λ s,
  Ret tt (over L (f (view L s)) s).

Definition gets {S T A} (L : Lens S T) (f : T → A) : prog S A := λ s,
  Ret (f (view L s)) s.

(** Running a program whose first part returns, or parks. *)
Lemma bind_ret {S A B} (m : prog S A) (f : A → prog S B) s a s' :
  m s = Ret a s' → (m ≫= f) s = f a s'.
Proof. intros E. unfold mbind, prog_bind. by rewrite E. Qed.

Lemma bind_block {S A B} (m : prog S A) (f : A → prog S B) s s' :
  m s = Block s' → (m ≫= f) s = Block s'.
Proof. intros E. unfold mbind, prog_bind. by rewrite E. Qed.

Lemma zoom_ret {S T A} (L : Lens S T) (m : prog T A) s a t :
  m (view L s) = Ret a t → zoom L m s = Ret a (over L t s).
Proof. intros E. unfold zoom. by rewrite E. Qed.

(** ** Programs that stay within a relation

    [within R m]: whatever [m] does, the state it leaves, returning or parked, is
    related by [R] to the state it began in.  With a preorder such facts compose
    along the program. *)

Definition within {S A} (R : relation S) (m : prog S A) : Prop := ∀ s,
  match m s with Ret _ s' => R s s' | Block s' => R s s' | Panic => True end.

(** A relation on what a function sees of the state. *)
Definition on {S X} (f : S → X) (R : relation X) : relation S := λ s s', R (f s) (f s').

Global Instance on_preorder {S X} (f : S → X) (R : relation X) `{!PreOrder R} : PreOrder (on f R).
Proof. split; [intros s; apply (reflexivity (R := R))|intros s1 s2 s3; apply (transitivity (R := R))]. Qed.

Section within.
Context {S : Type} (R : relation S) `{HR : !PreOrder R}.

Lemma within_ret {A} (a : A) : within R (mret a).
Proof. intros s. apply (reflexivity (R := R)). Qed.

Lemma within_park {A} : within R (park (A := A)).
Proof. intros s. apply (reflexivity (R := R)). Qed.

Lemma within_panic {A} : within R (panic (A := A)).
Proof. done. Qed.

Lemma within_must {A} (o : option A) : within R (must o).
Proof. destruct o; [apply within_ret|apply within_panic]. Qed.

Lemma within_gets {T A} (L : Lens S T) (f : T → A) : within R (gets L f).
Proof. intros s. apply (reflexivity (R := R)). Qed.

Lemma within_bind {A B} (m : prog S A) (f : A → prog S B) :
  within R m → (∀ a, within R (f a)) → within R (m ≫= f).
Proof using HR.
  intros Hm Hf s. specialize (Hm s). unfold mbind, prog_bind. destruct (m s) as [a s1|s1|]; [|done|done].
  specialize (Hf a s1). destruct (f a s1); [by etrans|by etrans|done].
Qed.

Lemma within_forM {A} (l : list A) (body : A → prog S unit) :
  (∀ x, within R (body x)) → within R (forM l body).
Proof using HR. intros Hb. induction l as [|x l IH]; [apply within_ret|by apply within_bind]. Qed.

Lemma within_ticker {E} (body : E → prog S unit) events :
  (∀ e, within R (body e)) → within R (ticker_loop body events).
Proof using HR.
  intros Hb. induction events as [|[e|] events IH]; [apply within_ret|by apply within_bind|apply within_ret].
Qed.

Lemma within_modify {T} (L : Lens S T) (f : T → T) :
  (∀ s, R s (over L (f (view L s)) s)) → within R (modify L f).
Proof. intros Hf s. apply Hf. Qed.

Lemma within_zoom {T A} (L : Lens S T) (RT : relation T) (m : prog T A) :
  (∀ s t, RT (view L s) t → R s (over L t s)) → within RT m → within R (zoom L m).
Proof. intros HL Hm s. specialize (Hm (view L s)). unfold zoom. destruct (m (view L s)); [by apply HL|by apply HL|done]. Qed.
End within.

Lemma within_returned {S A} (R : relation S) (m : prog S A) s a s' : within R m → m s = Ret a s' → R s s'.
Proof. intros Hm E. specialize (Hm s). by rewrite E in Hm. Qed.

Lemma within_parked {S A} (R : relation S) (m : prog S A) s s' : within R m → m s = Block s' → R s s'.
Proof. intros Hm E. specialize (Hm s). by rewrite E in Hm. Qed.

Lemma within_true {S A} (m : prog S A) : within (λ _ _, True) m.
Proof. intros s. by destruct (m s). Qed.

Create HintDb within.
#[export] Hint Resolve within_ret within_park within_panic within_must within_gets : within.

(** One step along a program: a known part, a sequence, a loop, a case. *)
Ltac within_step :=
  first [solve [eauto 3 with within typeclass_instances]|apply within_bind; [exact _| |intros]
        |apply within_forM; [exact _|intros]|case_match].

(** A program that returns whatever the state. *)
Definition total {S A} (m : prog S A) : Prop := ∀ s, ∃ a s', m s = Ret a s'.

Lemma total_ret {S A} (a : A) : total (S := S) (mret a).
Proof. intros s. by eexists _, _. Qed.

Lemma total_gets {S T A} (L : Lens S T) (f : T → A) : total (gets L f).
Proof. intros s. by eexists _, _. Qed.

Lemma total_modify {S T} (L : Lens S T) (f : T → T) : total (modify L f).
Proof. intros s. by eexists _, _. Qed.

Lemma total_zoom {S T A} (L : Lens S T) (m : prog T A) : total m → total (zoom L m).
Proof. intros Hm s. destruct (Hm (view L s)) as (a & t & E). unfold zoom. rewrite E. by eexists _, _. Qed.

Lemma total_bind {S A B} (m : prog S A) (f : A → prog S B) : total m → (∀ a, total (f a)) → total (m ≫= f).
Proof.
  intros Hm Hf s. destruct (Hm s) as (a & s1 & E). destruct (Hf a s1) as (b & s2 & E2).
  exists b, s2. by rewrite (bind_ret _ _ _ _ _ E).
Qed.

Create HintDb total.
#[export] Hint Resolve total_ret total_gets total_modify total_zoom : total.

Ltac total_step := first [solve [eauto 3 with total]|apply total_bind; [|intros]|case_match].

(** ** Go slices of a fixed length

    [make([]T, n)] is a length and the cells written since; a cell that was
    never written holds the zero value of [T].  Reading or writing outside
    [0, n) panics. *)

Class GoZero (A : Type) : Type := zero : A.

Global Instance zero_ptr A : GoZero (option A) := None.

Global Instance zero_chain A : GoZero (list A) := [].

Record slice (A : Type) : Type := mkSlice { slen : Z; cells : gmap Z A }.
Arguments mkSlice {A} _ _.
Arguments slen {A} _.
Arguments cells {A} _.

Definition make_slice {A} (n : Z) : slice A := mkSlice n ∅.

Definition cell {A} `{GoZero A} (s : slice A) (i : Z) : A := default zero (cells s !! i).

Definition slice_get {A} `{GoZero A} (s : slice A) (i : Z) : option A :=
  if decide (0 ≤ i < slen s) then Some (cell s i) else None.

Definition slice_set {A} (s : slice A) (i : Z) (x : A) : option (slice A) :=
  if decide (0 ≤ i < slen s) then Some (mkSlice (slen s) (<[i := x]> (cells s))) else None.

(** ** Automation *)

Create HintDb go.

(** Splits every boolean test of a goal or hypothesis into its two cases with
    the arithmetic fact it decides. *)
Ltac ztest :=
  repeat match goal with
  | |- context [Z.ltb ?a ?b] => destruct (Z.ltb_spec a b)
  | |- context [Z.leb ?a ?b] => destruct (Z.leb_spec a b)
  | |- context [Z.eqb ?a ?b] => destruct (Z.eqb_spec a b)
  | H : context [Z.ltb ?a ?b] |- _ => destruct (Z.ltb_spec a b)
  | H : context [Z.leb ?a ?b] |- _ => destruct (Z.leb_spec a b)
  | H : context [Z.eqb ?a ?b] |- _ => destruct (Z.eqb_spec a b)
  end.

(** Runs the monadic glue of a program applied to a state. *)
Ltac run :=
  cbv [mret mbind prog_ret prog_bind get put panic park must modify gets zoom];
  cbn [view over lens_fst lens_snd fst snd].

(** ** Shared lemmas *)

Lemma u64_range z : 0 ≤ u64 z < 2 ^ 64.
Proof. apply Z.mod_pos_bound. lia. Qed.

Lemma u64_small z : 0 ≤ z < 2 ^ 64 → u64 z = z.
Proof. apply Z.mod_small. Qed.

Lemma i64_range z : is_i64 (i64 z).
Proof.
  unfold is_i64, i64. pose proof (Z.mod_pos_bound (z + 2 ^ 63) (2 ^ 64)). lia.
Qed.

Lemma i64_small z : is_i64 z → i64 z = z.
Proof. unfold is_i64, i64. intros ?. rewrite Z.mod_small; lia. Qed.

Lemma slen_make {A} n : slen (make_slice n : slice A) = n.
Proof. done. Qed.

Lemma cell_make `{GoZero A} n i : cell (make_slice n) i = zero.
Proof. unfold cell, make_slice. simpl. by rewrite lookup_empty. Qed.

Lemma cell_insert `{GoZero A} n (m : gmap Z A) i j x :
  cell (mkSlice n (<[i := x]> m)) j = if decide (i = j) then x else cell (mkSlice n m) j.
Proof. unfold cell. simpl. rewrite lookup_insert. by case_decide. Qed.

Lemma slice_get_in `{GoZero A} (s : slice A) i :
  0 ≤ i < slen s → slice_get s i = Some (cell s i).
Proof. intros. unfold slice_get. by rewrite decide_True. Qed.

Lemma slice_set_in {A} (s : slice A) i x :
  0 ≤ i < slen s → slice_set s i x = Some (mkSlice (slen s) (<[i := x]> (cells s))).
Proof. intros. unfold slice_set. by rewrite decide_True. Qed.

Lemma take_min_length {A} n (l : list A) : take (Nat.min n (length l)) l = take n l.
Proof.
  destruct (Nat.min_spec n (length l)) as [[_ ->]|[? ->]]; [done|].
  by rewrite !take_ge.
Qed.

Lemma drop_min_length {A} n (l : list A) : drop (Nat.min n (length l)) l = drop n l.
Proof.
  destruct (Nat.min_spec n (length l)) as [[_ ->]|[? ->]]; [done|].
  by rewrite !drop_ge.
Qed.

#[export] Hint Resolve u64_range i64_range : go.
#[export] Hint Rewrite @slen_make @cell_make : go.
