(* ===== verification/GoText.v ===== *)
(** * Bytes and text of the Go standard library

    What the sources use of [strconv], [encoding/hex] and [fmt]: decimal and
    hexadecimal formatting of integers, and the conversions between
    [string] and [[]byte].  A Go string is a [String.string] (a sequence of
    bytes), a byte sequence is a [list byte], and a [[]byte] value is an
    [option] of it, because [nil] and the empty slice are told apart by the
    RESP writer. *)

From S2P Require Import Prelude.

Abbreviation bytes := (list byte).

Abbreviation byte_slice := (option (list byte)).

Global Instance byte_eq_dec : EqDecision byte := Byte.byte_eq_dec.

(** The value of a byte and the byte of a value (taken modulo 256, as in
    Go's [byte(x)] conversion). *)
Definition byteZ (b : byte) : Z := Z.of_N (Byte.to_N b).

Definition byte_of_Z (z : Z) : byte := default x00 (Byte.of_N (Z.to_N (z mod 256))).

Definition str (s : string) : bytes := String.list_byte_of_string s.

Definition gostring (b : bytes) : string := String.string_of_list_byte b.

(** [len(b)] and [string(b)] of a possibly [nil] slice. *)
Definition len_slice (b : byte_slice) : Z := Z.of_nat (length (default [] b)).

Definition string_of_slice (b : byte_slice) : string := gostring (default [] b).

(** ** Decimal formatting: [strconv.FormatInt(n, 10)], [%d] *)

Definition digit (d : Z) : byte := byte_of_Z (48 + d).

Fixpoint dec_go (fuel : nat) (n : Z) (acc : bytes) : bytes :=
  match fuel with
  | O => acc
  | S f => let acc' := digit (n mod 10) :: acc in
           if n / 10 =? 0 then acc' else dec_go f (n / 10) acc'
  end.

Definition FormatUint (n : Z) : bytes := dec_go (S (Z.to_nat (Z.log2 n))) n [].

Definition FormatInt (n : Z) : bytes :=
  if n <? 0 then "-"%byte :: FormatUint (- n) else FormatUint n.

(** ** Hexadecimal formatting: [hex.EncodeToString] *)

Definition hex_digit (d : Z) : byte :=
  if d <? 10 then byte_of_Z (48 + d) else byte_of_Z (87 + d).

Definition EncodeToString (b : bytes) : bytes :=
  concat (map (λ c, [hex_digit (byteZ c / 16); hex_digit (byteZ c mod 16)]) b).

(** ** Reading decimal digits back *)

Definition is_digit (c : byte) : Prop := 48 ≤ byteZ c ≤ 57.

Global Instance is_digit_dec c : Decision (is_digit c) := _.

Definition dec_value (l : bytes) : Z := fold_left (λ a c, a * 10 + (byteZ c - 48)) l 0.

(** ** [strconv.Atoi] *)

(** The value and whether the error is [nil]: 0 on a syntax error, the nearest
    bound on a range error. *)
Definition Atoi (s : bytes) : Z * bool :=
  let '(neg, digits) :=
    match s with
    | c :: s' => if decide (c = "-"%byte) then (true, s')
                 else if decide (c = "+"%byte) then (false, s') else (false, s)
    | [] => (false, s)
    end in
  match digits with
  | [] => (0, false)
  | _ =>
      if decide (Forall is_digit digits) then
        let v := dec_value digits in
        if neg then if 2 ^ 63 <? v then (- 2 ^ 63, false) else (- v, true)
        else if 2 ^ 63 <=? v then (2 ^ 63 - 1, false) else (v, true)
      else (0, false)
  end.

(** ** Lemmas *)

Lemma byteZ_range b : 0 ≤ byteZ b < 256.
Proof. unfold byteZ. pose proof (Byte.to_N_bounded b). lia. Qed.

Lemma byteZ_byte_of_Z z : byteZ (byte_of_Z z) = z mod 256.
Proof.
  unfold byteZ, byte_of_Z.
  pose proof (Z.mod_pos_bound z 256 ltac:(lia)) as Hz.
  destruct (Byte.of_N (Z.to_N (z mod 256))) as [b|] eqn:E; simpl.
  - apply Byte.to_of_N in E. rewrite E. lia.
  - apply Byte.of_N_None_iff in E. lia.
Qed.

Lemma byteZ_inj b1 b2 : byteZ b1 = byteZ b2 → b1 = b2.
Proof.
  unfold byteZ. intros H%N2Z.inj.
  pose proof (Byte.of_to_N b1) as H1. rewrite H Byte.of_to_N in H1. by injection H1.
Qed.

Lemma byte_of_Z_byteZ b : byte_of_Z (byteZ b) = b.
Proof.
  apply byteZ_inj. rewrite byteZ_byte_of_Z. apply Z.mod_small, byteZ_range.
Qed.

Lemma byteZ_digit d : 0 ≤ d < 10 → byteZ (digit d) = 48 + d.
Proof. intros. unfold digit. rewrite byteZ_byte_of_Z. apply Z.mod_small. lia. Qed.

Lemma gostring_str s : gostring (str s) = s.
Proof. apply String.string_of_list_byte_of_string. Qed.

Lemma str_gostring b : str (gostring b) = b.
Proof. apply String.list_byte_of_string_of_list_byte. Qed.

Lemma gostring_inj b1 b2 : gostring b1 = gostring b2 → b1 = b2.
Proof. intros H%(f_equal str). by rewrite !str_gostring in H. Qed.

(** The decimal loop: its fuel is enough, it emits digits only, at least one,
    and they denote [n]. *)
Lemma dec_go_spec fuel n acc :
  0 ≤ n → n < 2 ^ Z.of_nat fuel →
  ∃ ds, dec_go fuel n acc = ds ++ acc ∧ Forall is_digit ds ∧
        (fuel ≠ O → ds ≠ []) ∧
        ∀ a, fold_left (λ a c, a * 10 + (byteZ c - 48)) ds a = a * 10 ^ Z.of_nat (length ds) + n.
Proof.
  revert n acc. induction fuel as [|f IH]; intros n acc H0 Hn.
  { exists []. rewrite Z.pow_0_r in Hn. split_and!; try done. intros a. simpl. lia. }
  simpl. pose proof (Z.mod_pos_bound n 10 ltac:(lia)) as Hm.
  pose proof (Z.div_mod n 10 ltac:(lia)) as Hd.
  assert (is_digit (digit (n mod 10))) as Hdig by (unfold is_digit; rewrite byteZ_digit; lia).
  destruct (Z.eqb_spec (n / 10) 0) as [Hz|Hz].
  - exists [digit (n mod 10)]. split_and!; try done; [by constructor|].
    intros a. simpl. rewrite byteZ_digit; lia.
  - destruct (IH (n / 10) (digit (n mod 10) :: acc)) as (ds & -> & Hds & _ & Hv).
    + apply Z.div_pos; lia.
    + rewrite Nat2Z.inj_succ Z.pow_succ_r in Hn; [lia|]. apply Z.div_lt_upper_bound; lia.
    + exists (ds ++ [digit (n mod 10)]). split_and!.
      * by rewrite -app_assoc.
      * apply Forall_app; split; [done|by constructor].
      * intros _. by destruct ds.
      * intros a. rewrite fold_left_app Hv /= byteZ_digit; [lia|].
        rewrite length_app /= Nat2Z.inj_add Z.pow_add_r; [lia|lia|]. lia.
Qed.

Lemma FormatUint_spec n :
  0 ≤ n →
  Forall is_digit (FormatUint n) ∧ FormatUint n ≠ [] ∧ dec_value (FormatUint n) = n.
Proof.
  intros Hn. unfold FormatUint, dec_value.
  destruct (dec_go_spec (S (Z.to_nat (Z.log2 n))) n []) as (ds & E & Hds & Hne & Hv); [done| |].
  - destruct (decide (n = 0)) as [->|]; [done|].
    rewrite Nat2Z.inj_succ Z2Nat.id; [apply Z.log2_nonneg|]. by apply Z.log2_spec; lia.
  - rewrite app_nil_r in E. rewrite E. split_and!; [done|by apply Hne|]. rewrite Hv. lia.
Qed.

Lemma FormatUint_inj n m : 0 ≤ n → 0 ≤ m → FormatUint n = FormatUint m → n = m.
Proof.
  intros Hn Hm E. destruct (FormatUint_spec n Hn) as (_ & _ & <-).
  destruct (FormatUint_spec m Hm) as (_ & _ & <-). by rewrite E.
Qed.

(** Two sequences that end at the same separator, none of which occurs
    before it, agree on both sides of it. *)
Lemma split_at_sep (sep : byte) l1 l2 r1 r2 :
  sep ∉ l1 → sep ∉ l2 → l1 ++ sep :: r1 = l2 ++ sep :: r2 → l1 = l2 ∧ r1 = r2.
Proof.
  revert l2. induction l1 as [|x l1 IH]; intros [|y l2] H1 H2 E; simpl in *.
  - by injection E.
  - injection E as -> _. exfalso. apply H2. by left.
  - injection E as -> _. exfalso. apply H1. by left.
  - injection E as -> E. apply not_elem_of_cons in H1 as [_ H1].
    apply not_elem_of_cons in H2 as [_ H2].
    destruct (IH l2 H1 H2 E) as [-> ->]. done.
Qed.

Lemma digits_no_sep (sep : byte) l : ¬ is_digit sep → Forall is_digit l → sep ∉ l.
Proof. intros Hs Hl Hin. apply Hs. rewrite Forall_forall in Hl. by apply Hl. Qed.

#[export] Hint Resolve byteZ_range : go.
#[export] Hint Rewrite byte_of_Z_byteZ gostring_str str_gostring : go.
