(* ===== verification/Message.v ===== *)
(** * Messages and the store they live in

    Models [src/internal/queue/message.go].  Every part of the broker passes
    messages around as [*Message] and several of them write through the
    pointer ([Checkout], [Nack], [SweepTimeouts], [ReplayDeadLetter]), so a
    message is a cell of a shared store and the components hold locations. *)

From S2P Require Import Prelude GoText.

(** A [*Message] that is not [nil]; a possibly-[nil] pointer is an [option]. *)
Abbreviation loc := positive.

Record Message : Type := mkMessage {
  msg_ID : string;
  msg_Topic : string;
  msg_Payload : byte_slice;
  msg_Headers : gmap string string;
  msg_Priority : Z;
  msg_Timestamp : Z;
  msg_DeliverAt : Z;
  msg_RetryCount : Z;
  msg_MaxRetries : Z;
  msg_ConsumerID : string;
  msg_AckDeadline : Z;
  msg_FailureCause : string
}.

(** The memory the goroutines share: the message cells and the counter
    [globalSeq]. *)
Record Store : Type := mkStore {
  heap : gmap loc Message;
  globalSeq : Z
}.

(** The assignments to message fields that occur in the sources. *)
Definition set_DeliverAt (t : Z) (m : Message) : Message :=
  mkMessage (msg_ID m) (msg_Topic m) (msg_Payload m) (msg_Headers m) (msg_Priority m)
    (msg_Timestamp m) t (msg_RetryCount m) (msg_MaxRetries m) (msg_ConsumerID m)
    (msg_AckDeadline m) (msg_FailureCause m).

Definition set_RetryCount (n : Z) (m : Message) : Message :=
  mkMessage (msg_ID m) (msg_Topic m) (msg_Payload m) (msg_Headers m) (msg_Priority m)
    (msg_Timestamp m) (msg_DeliverAt m) n (msg_MaxRetries m) (msg_ConsumerID m)
    (msg_AckDeadline m) (msg_FailureCause m).

Definition set_FailureCause (c : string) (m : Message) : Message :=
  mkMessage (msg_ID m) (msg_Topic m) (msg_Payload m) (msg_Headers m) (msg_Priority m)
    (msg_Timestamp m) (msg_DeliverAt m) (msg_RetryCount m) (msg_MaxRetries m)
    (msg_ConsumerID m) (msg_AckDeadline m) c.

Definition set_Lease (consumer : string) (deadline : Z) (m : Message) : Message :=
  mkMessage (msg_ID m) (msg_Topic m) (msg_Payload m) (msg_Headers m) (msg_Priority m)
    (msg_Timestamp m) (msg_DeliverAt m) (msg_RetryCount m) (msg_MaxRetries m)
    consumer deadline (msg_FailureCause m).

(** Reading and writing through a pointer, and [&Message{...}]. *)
Definition load (l : loc) : prog Store Message := λ σ, must (heap σ !! l) σ.

Definition store (l : loc) (m : Message) : prog Store unit := λ σ,
  Ret tt (mkStore (<[l := m]> (heap σ)) (globalSeq σ)).

Definition alloc (m : Message) : prog Store loc := λ σ,
  let l := fresh (dom (heap σ)) in
  Ret l (mkStore (<[l := m]> (heap σ)) (globalSeq σ)).

(** [fmt.Sprintf("%d-%d-%s", now/int64(time.Millisecond), seq%100000, randSuffix)] *)
Definition message_id (now seq : Z) (randBuf : bytes) : string :=
  gostring (FormatInt (now `quot` 1000000) ++ "-"%byte ::
            FormatInt (seq mod 100000) ++ "-"%byte :: EncodeToString randBuf).

(** [NewMessage]; the clock reading and the random bytes are inputs. *)
Definition NewMessage (topic : string) (payload : byte_slice) (now : Z) (randBuf : bytes)
  : prog Store loc := λ σ,
  let seq := u64 (globalSeq σ + 1) in
  alloc (mkMessage (message_id now seq randBuf) topic payload ∅ 0 now now 0 3 "" 0 "")
    (mkStore (heap σ) seq).

(** [Clone]: a new cell with the same fields; the header map is copied entry
    by entry into a fresh map. *)
Definition Clone (l : loc) : prog Store loc :=
  m ← load l;
  let headersCopy := map_fold (λ k v h, <[k := v]> h) (∅ : gmap string string) (msg_Headers m) in
  alloc (mkMessage (msg_ID m) (msg_Topic m) (msg_Payload m) headersCopy (msg_Priority m)
    (msg_Timestamp m) (msg_DeliverAt m) (msg_RetryCount m) (msg_MaxRetries m)
    (msg_ConsumerID m) (msg_AckDeadline m) (msg_FailureCause m)).

(** ** Lemmas *)

Lemma alloc_fresh (σ : Store) : heap σ !! fresh (dom (heap σ)) = None.
Proof. apply not_elem_of_dom, is_fresh. Qed.

Lemma copy_headers (h : gmap string string) :
  map_fold (λ k v m, <[k := v]> m) (∅ : gmap string string) h = h.
Proof.
  apply (map_fold_weak_ind (λ m0 m1, m0 = m1)); [done|]. by intros i x m r _ ->.
Qed.

Lemma Clone_run (σ : Store) l m :
  heap σ !! l = Some m →
  Clone l σ = Ret (fresh (dom (heap σ)))
                  (mkStore (<[fresh (dom (heap σ)) := m]> (heap σ)) (globalSeq σ)).
Proof.
  intros Hl. unfold Clone, load, alloc. run. rewrite Hl copy_headers. by destruct m.
Qed.

Lemma NewMessage_run topic payload now r (σ : Store) :
  let seq := u64 (globalSeq σ + 1) in
  NewMessage topic payload now r σ =
    Ret (fresh (dom (heap σ)))
        (mkStore (<[fresh (dom (heap σ)) :=
           mkMessage (message_id now seq r) topic payload ∅ 0 now now 0 3 "" 0 ""]> (heap σ)) seq).
Proof. done. Qed.

(** The two decimal fields of an ID can be read back from it. *)
Lemma message_id_fields now1 seq1 r1 now2 seq2 r2 :
  0 ≤ now1 → 0 ≤ now2 →
  message_id now1 seq1 r1 = message_id now2 seq2 r2 →
  now1 / 1000000 = now2 / 1000000 ∧ seq1 mod 100000 = seq2 mod 100000.
Proof.
  intros H1 H2 E%gostring_inj.
  assert (∀ n, 0 ≤ n → FormatInt n = FormatUint n) as Hpos.
  { intros n Hn. unfold FormatInt. by destruct (Z.ltb_spec n 0); [lia|]. }
  pose proof (Z.mod_pos_bound seq1 100000 ltac:(lia)).
  pose proof (Z.mod_pos_bound seq2 100000 ltac:(lia)).
  rewrite !Z.quot_div_nonneg in E; [lia..|].
  assert (0 ≤ now1 / 1000000 ∧ 0 ≤ now2 / 1000000) as [? ?].
  { split; apply Z.div_pos; lia. }
  rewrite !Hpos in E; [lia..|].
  assert (∀ n, 0 ≤ n → "-"%byte ∉ FormatUint n) as Hsep.
  { intros n Hn. apply digits_no_sep; [|by apply FormatUint_spec].
    by apply (bool_decide_unpack (¬ is_digit _)). }
  apply split_at_sep in E as [E1 E]; [|by apply Hsep..].
  apply split_at_sep in E as [E2 _]; [|by apply Hsep; lia..].
  split; (apply FormatUint_inj; [lia..|done]).
Qed.

(** ** Properties *)

(** Message IDs.  Two messages created less than 100000 sequence numbers
    apart never get the same ID, whatever the clock and the random suffix:
    [seq%100000] separates them. *)
Theorem NewMessage_ids_distinct topic1 topic2 p1 p2 now1 now2 r1 r2 σ1 σ2 l1 l2 σ1' σ2' m1 m2
  (Hnow : 0 ≤ now1 ∧ 0 ≤ now2)
  (Hseq : 0 ≤ globalSeq σ1 < globalSeq σ2 ∧ globalSeq σ2 < globalSeq σ1 + 100000
          ∧ globalSeq σ2 < 2 ^ 64 - 1)
  (H1 : NewMessage topic1 p1 now1 r1 σ1 = Ret l1 σ1') (Hm1 : heap σ1' !! l1 = Some m1)
  (H2 : NewMessage topic2 p2 now2 r2 σ2 = Ret l2 σ2') (Hm2 : heap σ2' !! l2 = Some m2) :
  msg_ID m1 ≠ msg_ID m2.
Proof.
  rewrite NewMessage_run in H1. rewrite NewMessage_run in H2.
  injection H1 as <- <-. injection H2 as <- <-.
  simpl in Hm1, Hm2. rewrite lookup_insert_eq in Hm1. rewrite lookup_insert_eq in Hm2.
  simplify_eq. simpl. intros E. apply message_id_fields in E as [_ E]; [|lia..].
  rewrite !u64_small in E; [lia..|].
  pose proof (Z.div_mod (globalSeq σ1 + 1) 100000 ltac:(lia)).
  pose proof (Z.div_mod (globalSeq σ2 + 1) 100000 ltac:(lia)).
  assert (globalSeq σ2 + 1 - (globalSeq σ1 + 1) =
          100000 * ((globalSeq σ2 + 1) / 100000 - (globalSeq σ1 + 1) / 100000)) by lia.
  lia.
Qed.

(** [Clone] returns a pointer to a new cell that holds the same message;
    every other cell, the original included, is left as it was. *)
Theorem Clone_copies σ l m (Hl : heap σ !! l = Some m) :
  ∃ l' σ', Clone l σ = Ret l' σ' ∧ heap σ !! l' = None ∧ heap σ' !! l' = Some m ∧
           (∀ k, k ≠ l' → heap σ' !! k = heap σ !! k) ∧ globalSeq σ' = globalSeq σ.
Proof.
  eexists _, _. split; [by apply Clone_run|]. simpl.
  split_and!; [apply alloc_fresh|apply lookup_insert_eq| |done].
  intros k Hk. by rewrite lookup_insert_ne.
Qed.

(** ** Witnesses *)

Definition demo_msg : Message :=
  mkMessage "7-1-00ff" "orders" (Some (str "x")) {["k" := "v"]} 0 7 7 0 3 "" 0 "".

Lemma NewMessage_ids_distinct_witness :
  message_id 5000000 4 [x00; xff] = "5-4-00ff" ∧
  message_id 5000000 4 [x00; xff] ≠ message_id 5999999 100003 [x00; xff].
Proof.
  split; [by vm_compute|].
  set (σ1 := mkStore ∅ 3). set (σ2 := mkStore ∅ 100002).
  eapply (NewMessage_ids_distinct "a" "b" None None 5000000 5999999 [x00; xff] [x00; xff] σ1 σ2)
    with (m1 := mkMessage (message_id 5000000 4 [x00; xff]) "a" None ∅ 0 5000000 5000000 0 3 "" 0 "")
         (m2 := mkMessage (message_id 5999999 100003 [x00; xff]) "b" None ∅ 0 5999999 5999999 0 3 "" 0 "");
    [lia|simpl; lia|reflexivity|reflexivity|reflexivity|reflexivity].
Defined.

Lemma Clone_copies_witness :
  ∃ l' σ', Clone 1 (mkStore {[1%positive := demo_msg]} 9) = Ret l' σ' ∧
           heap σ' !! l' = Some demo_msg.
Proof.
  destruct (Clone_copies (mkStore {[1%positive := demo_msg]} 9) 1 demo_msg)
    as (l' & σ' & H & _ & Hm & _); [by vm_compute|].
  by exists l', σ'.
Defined.
