(* ===== verification/RingBuffer.v ===== *)
(** * The circular queue of a topic

    Models [src/internal/queue/ring.go]: a power-of-two ring of message
    pointers with free-running 64-bit head and tail counters, grown by
    doubling up to 2^24 slots and overwriting past that.  The mutex makes
    every operation atomic; [PopWait] is given here as the check its loop
    performs each time it holds the lock, and [RingWait] composes those
    checks with the condition variable.

    [ring_rep] relates a ring to the list of messages it holds, oldest first;
    [deque_spec] is the queue the component promises, and [ring_refines_deque]
    says that a ring behaves like it on every sequence of calls. *)

From S2P Require Import Prelude Message.

Record RingBuffer : Type := mkRing {
  rb_nodes : slice (option loc);
  rb_head : Z;
  rb_tail : Z;
  rb_mask : Z;
  rb_capacity : Z;
  rb_closed : bool
}.

(** [for capacity < cap { capacity <<= 1 }]; [None] when the fuel runs out. *)
Fixpoint round_up (fuel : nat) (capacity cap : Z) : option Z :=
  match fuel with
  | O => None
  | S f => if capacity <? cap then round_up f (u64 (Z.shiftl capacity 1)) cap else Some capacity
  end.

(** [NewRingBuffer]; [None] is a call that never returns. *)
Definition NewRingBuffer (cap : Z) : option RingBuffer :=
  capacity ← round_up 64 1 cap;
  let capacity := if capacity <? 1024 then 1024 else capacity in
  Some (mkRing (make_slice capacity) 0 0 (capacity - 1) capacity false).

Definition Len : prog RingBuffer Z := λ rb, Ret (i64 (u64 (rb_tail rb - rb_head rb))) rb.

Definition Cap : prog RingBuffer Z := λ rb, Ret (i64 (rb_capacity rb)) rb.

(** The copy loop of [grow]: [newNodes[i] = rb.nodes[(rb.head+i)&rb.mask]]. *)
Fixpoint grow_copy (n : nat) (i : Z) (rb : RingBuffer) (dst : slice (option loc))
  : option (slice (option loc)) :=
  match n with
  | O => Some dst
  | S n' => x ← slice_get (rb_nodes rb) (Z.land (u64 (rb_head rb + i)) (rb_mask rb));
            dst' ← slice_set dst i x;
            grow_copy n' (i + 1) rb dst'
  end.

Definition grow : prog RingBuffer unit :=
  rb ← get;
  let newCap := u64 (rb_capacity rb * 2) in
  let count := u64 (rb_tail rb - rb_head rb) in
  newNodes ← must (grow_copy (Z.to_nat count) 0 rb (make_slice newCap));
  put (mkRing newNodes 0 count (newCap - 1) newCap (rb_closed rb)).

Definition Push (msg : loc) : prog RingBuffer bool :=
  rb ← get;
  if rb_closed rb then mret false else
  (if rb_capacity rb <=? u64 (rb_tail rb - rb_head rb) then
     if 16777216 <=? rb_capacity rb then
       put (mkRing (rb_nodes rb) (u64 (rb_head rb + 1)) (rb_tail rb) (rb_mask rb)
              (rb_capacity rb) (rb_closed rb))
     else grow
   else mret tt);;
  rb ← get;
  nodes ← must (slice_set (rb_nodes rb) (Z.land (rb_tail rb) (rb_mask rb)) (Some msg));
  put (mkRing nodes (rb_head rb) (u64 (rb_tail rb + 1)) (rb_mask rb)
         (rb_capacity rb) (rb_closed rb));;
  mret true.

Definition PushFront (msg : loc) : prog RingBuffer bool :=
  rb ← get;
  if rb_closed rb then mret false else
  (if rb_capacity rb <=? u64 (rb_tail rb - rb_head rb) then
     if 16777216 <=? rb_capacity rb then
       put (mkRing (rb_nodes rb) (rb_head rb) (u64 (rb_tail rb - 1)) (rb_mask rb)
              (rb_capacity rb) (rb_closed rb))
     else grow
   else mret tt);;
  rb ← get;
  let head := u64 (rb_head rb - 1) in
  nodes ← must (slice_set (rb_nodes rb) (Z.land head (rb_mask rb)) (Some msg));
  put (mkRing nodes head (rb_tail rb) (rb_mask rb) (rb_capacity rb) (rb_closed rb));;
  mret true.

(** [idx := rb.head & rb.mask; msg := rb.nodes[idx]; rb.nodes[idx] = nil; rb.head++],
    shared by [Pop], [PopWait] and [PopBatch]. *)
Definition take_head : prog RingBuffer (option loc) :=
  rb ← get;
  let idx := Z.land (rb_head rb) (rb_mask rb) in
  msg ← must (slice_get (rb_nodes rb) idx);
  nodes ← must (slice_set (rb_nodes rb) idx None);
  put (mkRing nodes (u64 (rb_head rb + 1)) (rb_tail rb) (rb_mask rb)
         (rb_capacity rb) (rb_closed rb));;
  mret msg.

(** [Pop] returns [(msg, ok)]. *)
Definition Pop : prog RingBuffer (option loc * bool) :=
  rb ← get;
  if rb_head rb =? rb_tail rb then mret (None, false) else
  msg ← take_head; mret (msg, true).

(** The critical section of [PopWait] each time the goroutine holds the lock:
    it parks on the condition variable, gives up, or takes the head.
    [deadline] is [None] for [timeout == 0]. *)
Definition PopWait_check (deadline : option Z) (now : Z) : prog RingBuffer (option loc * bool) :=
  rb ← get;
  if (rb_head rb =? rb_tail rb) && negb (rb_closed rb) then
    match deadline with
    | None => park
    | Some d => if d - now <=? 0 then mret (None, false) else park
    end
  else if rb_head rb =? rb_tail rb then mret (None, false) else
  msg ← take_head; mret (msg, true).

(** [PopWait] up to the first time it parks; [t0] and [t1] are the readings of
    the clock for the deadline and for the first test of it. *)
Definition PopWait (timeout t0 t1 : Z) : prog RingBuffer (option loc * bool) :=
  if timeout =? 0 then PopWait_check None t1 else PopWait_check (Some (t0 + timeout)) t1.

(** [PopBatch]; the result is [None] for Go's [nil] slice. *)
Fixpoint batch_loop (n : nat) : prog RingBuffer (list (option loc)) :=
  match n with
  | O => mret []
  | S n' => x ← take_head; rest ← batch_loop n'; mret (x :: rest)
  end.

Definition PopBatch (max : Z) : prog RingBuffer (option (list (option loc))) :=
  if max <=? 0 then mret None else
  rb ← get;
  let avail := i64 (u64 (rb_tail rb - rb_head rb)) in
  if avail =? 0 then mret None else
  let count := if avail <? max then avail else max in
  batch ← batch_loop (Z.to_nat count);
  mret (Some batch).

Definition Close : prog RingBuffer unit := λ rb,
  Ret tt (mkRing (rb_nodes rb) (rb_head rb) (rb_tail rb) (rb_mask rb) (rb_capacity rb) true).

(** ** The promised queue: a bounded double-ended list *)

Record deque : Type := mkDeque { dq_items : list loc; dq_closed : bool }.

Definition dq_push (bound : Z) (m : loc) (d : deque) : bool * deque :=
  if dq_closed d then (false, d) else
  let q := if bound <=? Z.of_nat (length (dq_items d)) then list.tail (dq_items d) else dq_items d in
  (true, mkDeque (q ++ [m]) false).

Definition dq_push_front (bound : Z) (m : loc) (d : deque) : bool * deque :=
  if dq_closed d then (false, d) else
  let q := if bound <=? Z.of_nat (length (dq_items d))
           then take (length (dq_items d) - 1) (dq_items d) else dq_items d in
  (true, mkDeque (m :: q) false).

Definition dq_pop (d : deque) : option loc * bool * deque :=
  match dq_items d with
  | [] => (None, false, d)
  | m :: q => (Some m, true, mkDeque q (dq_closed d))
  end.

Definition dq_batch (max : Z) (d : deque) : option (list (option loc)) * deque :=
  if max <=? 0 then (None, d) else
  match dq_items d with
  | [] => (None, d)
  | _ => (Some (Some <$> take (Z.to_nat max) (dq_items d)),
          mkDeque (drop (Z.to_nat max) (dq_items d)) (dq_closed d))
  end.

Inductive ring_op : Type :=
| OpPush (m : loc)
| OpPushFront (m : loc)
| OpPop
| OpPopBatch (max : Z)
| OpLen
| OpClose.

Inductive ring_out : Type :=
| OutBool (b : bool)
| OutMsg (m : option loc) (ok : bool)
| OutBatch (l : option (list (option loc)))
| OutLen (n : Z)
| OutUnit.

Definition ring_step (o : ring_op) : prog RingBuffer ring_out :=
  match o with
  | OpPush m => b ← Push m; mret (OutBool b)
  | OpPushFront m => b ← PushFront m; mret (OutBool b)
  | OpPop => r ← Pop; mret (OutMsg r.1 r.2)
  | OpPopBatch n => l ← PopBatch n; mret (OutBatch l)
  | OpLen => n ← Len; mret (OutLen n)
  | OpClose => _ ← Close; mret OutUnit
  end.

Definition deque_step (bound : Z) (o : ring_op) (d : deque) : ring_out * deque :=
  match o with
  | OpPush m => let '(b, d') := dq_push bound m d in (OutBool b, d')
  | OpPushFront m => let '(b, d') := dq_push_front bound m d in (OutBool b, d')
  | OpPop => let '(m, ok, d') := dq_pop d in (OutMsg m ok, d')
  | OpPopBatch n => let '(l, d') := dq_batch n d in (OutBatch l, d')
  | OpLen => (OutLen (Z.of_nat (length (dq_items d))), d)
  | OpClose => (OutUnit, mkDeque (dq_items d) true)
  end.

Fixpoint ring_run (os : list ring_op) : prog RingBuffer (list ring_out) :=
  match os with
  | [] => mret []
  | o :: os' => x ← ring_step o; xs ← ring_run os'; mret (x :: xs)
  end.

Fixpoint deque_run (bound : Z) (os : list ring_op) (d : deque) : list ring_out * deque :=
  match os with
  | [] => ([], d)
  | o :: os' => let '(x, d1) := deque_step bound o d in
                let '(xs, d2) := deque_run bound os' d1 in (x :: xs, d2)
  end.

(** The number of messages a ring created with [cap] can hold: it grows to
    2^24 slots, or keeps its initial size if that is larger. *)
Definition ring_limit (rb : RingBuffer) : Z := Z.max 16777216 (rb_capacity rb).

(** ** The representation invariant *)

Record ring_rep (rb : RingBuffer) (q : list loc) : Prop := mkRingRep {
  rep_cap : ∃ k, 10 ≤ k ≤ 62 ∧ rb_capacity rb = 2 ^ k;
  rep_mask : rb_mask rb = rb_capacity rb - 1;
  rep_len : slen (rb_nodes rb) = rb_capacity rb;
  rep_head : 0 ≤ rb_head rb < 2 ^ 64;
  rep_tail : rb_tail rb = u64 (rb_head rb + Z.of_nat (length q));
  rep_fits : Z.of_nat (length q) ≤ rb_capacity rb;
  rep_cells : ∀ i m, q !! i = Some m →
    cell (rb_nodes rb) ((rb_head rb + Z.of_nat i) mod rb_capacity rb) = Some m
}.

(** ** Index arithmetic *)

Lemma mod_pow_pow a j k : 0 ≤ j ≤ k → (a mod 2 ^ k) mod 2 ^ j = a mod 2 ^ j.
Proof.
  intros. replace k with (j + (k - j)) by lia. rewrite Z.pow_add_r; [lia..|].
  rewrite Z.rem_mul_r; [lia..|].
  rewrite Z.mul_comm Z_mod_plus_full. apply Z.mod_mod. lia.
Qed.

Lemma mask_index a k : 0 ≤ k ≤ 64 → Z.land (u64 a) (2 ^ k - 1) = a mod 2 ^ k.
Proof.
  intros. replace (2 ^ k - 1) with (Z.ones k) by (rewrite Z.ones_equiv; lia).
  rewrite Z.land_ones; [lia|]. by apply mod_pow_pow.
Qed.

Lemma mod_separate a b n : 0 < n → 0 < b - a < n → a mod n ≠ b mod n.
Proof.
  intros Hn Hab E. assert ((b - a) mod n = 0) as Hz.
  { rewrite Zminus_mod E Z.sub_diag. apply Z.mod_0_l. lia. }
  rewrite Z.mod_small in Hz; lia.
Qed.

Lemma u64_add_sub a n : 0 ≤ n < 2 ^ 64 → u64 (u64 (a + n) - a) = n.
Proof.
  intros. unfold u64. rewrite Zminus_mod_idemp_l.
  replace (a + n - a) with n by lia. by apply Z.mod_small.
Qed.

Lemma u64_add_l a b : u64 (u64 a + b) = u64 (a + b).
Proof. apply Zplus_mod_idemp_l. Qed.

Section rep.
Context (rb : RingBuffer) (q : list loc) (Hrep : ring_rep rb q).

Lemma rep_bounds : 1024 ≤ rb_capacity rb ≤ 2 ^ 62.
Proof.
  destruct Hrep as [(k & Hk & ->) _ _ _ _ _ _]. split.
  - change 1024 with (2 ^ 10). apply Z.pow_le_mono_r; lia.
  - apply Z.pow_le_mono_r; lia.
Qed.

Lemma rep_count : u64 (rb_tail rb - rb_head rb) = Z.of_nat (length q).
Proof.
  pose proof rep_bounds. pose proof (rep_fits _ _ Hrep).
  rewrite (rep_tail _ _ Hrep). apply u64_add_sub. lia.
Qed.

Lemma rep_index a : Z.land (u64 a) (rb_mask rb) = a mod rb_capacity rb.
Proof.
  rewrite (rep_mask _ _ Hrep). destruct (rep_cap _ _ Hrep) as (k & Hk & ->).
  apply mask_index. lia.
Qed.

Lemma rep_index_head : Z.land (rb_head rb) (rb_mask rb) = rb_head rb mod rb_capacity rb.
Proof. rewrite -rep_index. f_equal. symmetry. apply u64_small, (rep_head _ _ Hrep). Qed.

Lemma rep_index_in a : 0 ≤ a mod rb_capacity rb < slen (rb_nodes rb).
Proof.
  rewrite (rep_len _ _ Hrep). pose proof rep_bounds. apply Z.mod_pos_bound. lia.
Qed.

Lemma rep_empty_iff : (rb_head rb =? rb_tail rb) = bool_decide (q = []).
Proof.
  pose proof rep_bounds. pose proof (rep_fits _ _ Hrep). pose proof (rep_head _ _ Hrep).
  rewrite (rep_tail _ _ Hrep). case_bool_decide as Hq.
  - subst q. rewrite /= Z.add_0_r u64_small; [lia|]. apply Z.eqb_refl.
  - apply Z.eqb_neq. intros E. rewrite -[rb_head rb]u64_small in E; [lia|].
    unfold u64 in E. rewrite Zplus_mod_idemp_l in E. revert E.
    apply (mod_separate (rb_head rb)); [lia|]. destruct q; [done|]. simpl in *. lia.
Qed.
End rep.

(** ** The pieces the operations are made of *)

Lemma rep_drop_oldest rb m q :
  ring_rep rb (m :: q) →
  ring_rep (mkRing (rb_nodes rb) (u64 (rb_head rb + 1)) (rb_tail rb) (rb_mask rb)
              (rb_capacity rb) (rb_closed rb)) q.
Proof.
  intros H. pose proof (rep_bounds _ _ H) as Hb. destruct H as [Hcap Hmask Hlen Hh Ht Hf Hc].
  split; simpl in *; try done.
  - apply u64_range.
  - rewrite Ht u64_add_l. f_equal. lia.
  - lia.
  - intros i x Hi. rewrite -(Hc (S i) x Hi). f_equal.
    destruct Hcap as (k & Hk & ->). unfold u64.
    rewrite -(mod_pow_pow (_ + Z.of_nat i) k 64); [lia|].
    rewrite Zplus_mod_idemp_l mod_pow_pow; [lia|]. f_equal. lia.
Qed.

Lemma rep_drop_newest rb m q :
  ring_rep rb (q ++ [m]) →
  ring_rep (mkRing (rb_nodes rb) (rb_head rb) (u64 (rb_tail rb - 1)) (rb_mask rb)
              (rb_capacity rb) (rb_closed rb)) q.
Proof.
  intros [Hcap Hmask Hlen Hh Ht Hf Hc]. rewrite length_app /= in Ht, Hf.
  split; simpl in *; try done.
  - rewrite Ht -Z.add_opp_r u64_add_l. f_equal. lia.
  - lia.
  - intros i x Hi. apply Hc. by apply lookup_app_l_Some.
Qed.

(** The slot after the last message, and the slot before the first, are free
    when the ring is not full: writing them extends the queue at either end. *)
Lemma rep_store_back rb q m :
  ring_rep rb q → Z.of_nat (length q) < rb_capacity rb →
  ∃ nodes, slice_set (rb_nodes rb) (Z.land (rb_tail rb) (rb_mask rb)) (Some m) = Some nodes ∧
    ring_rep (mkRing nodes (rb_head rb) (u64 (rb_tail rb + 1)) (rb_mask rb)
                (rb_capacity rb) (rb_closed rb)) (q ++ [m]).
Proof.
  intros H Hlt. pose proof (rep_bounds _ _ H) as Hb.
  rewrite (rep_tail _ _ H) (rep_index _ _ H) slice_set_in; [apply (rep_index_in _ _ H)|].
  eexists. split; [done|]. destruct H as [Hcap Hmask Hlen Hh Ht Hf Hc].
  split; simpl; rewrite ?length_app /=; try done; [|lia|].
  - rewrite u64_add_l. f_equal. lia.
  - intros i x Hi. rewrite cell_insert. apply lookup_app_Some in Hi as [Hi|[Hge Hi]].
    + apply lookup_lt_Some in Hi as Hlt'. rewrite decide_False.
      * apply not_eq_sym, mod_separate; lia.
      * destruct (rb_nodes rb). by apply Hc.
    + apply list_lookup_singleton_Some in Hi as [Hi <-]. rewrite decide_True; [|done].
      f_equal. lia.
Qed.

Lemma rep_store_front rb q m :
  ring_rep rb q → Z.of_nat (length q) < rb_capacity rb →
  ∃ nodes, slice_set (rb_nodes rb) (Z.land (u64 (rb_head rb - 1)) (rb_mask rb)) (Some m)
             = Some nodes ∧
    ring_rep (mkRing nodes (u64 (rb_head rb - 1)) (rb_tail rb) (rb_mask rb)
                (rb_capacity rb) (rb_closed rb)) (m :: q).
Proof.
  intros H Hlt. pose proof (rep_bounds _ _ H) as Hb.
  rewrite (rep_index _ _ H) slice_set_in; [apply (rep_index_in _ _ H)|].
  eexists. split; [done|]. destruct H as [Hcap Hmask Hlen Hh Ht Hf Hc].
  assert (∀ i, (u64 (rb_head rb - 1) + i) mod rb_capacity rb =
               (rb_head rb - 1 + i) mod rb_capacity rb) as Hu.
  { intros i. destruct Hcap as (k & Hk & ->). rewrite -(mod_pow_pow (_ + i) k 64); [lia|].
    unfold u64. rewrite Zplus_mod_idemp_l mod_pow_pow; lia. }
  split; simpl; try done; [apply u64_range| |lia|].
  - rewrite Ht u64_add_l. f_equal. lia.
  - intros i x Hi. rewrite cell_insert Hu. destruct i as [|i]; simpl in Hi.
    + injection Hi as ->. rewrite decide_True; [|done]. by rewrite Z.add_0_r.
    + apply lookup_lt_Some in Hi as Hlt'. rewrite decide_False.
      * apply mod_separate; lia.
      * destruct (rb_nodes rb). rewrite -(Hc i x Hi). do 2 f_equal. lia.
Qed.

Lemma take_head_run rb m q :
  ring_rep rb (m :: q) →
  ∃ rb', take_head rb = Ret (Some m) rb' ∧ ring_rep rb' q ∧
         rb_capacity rb' = rb_capacity rb ∧ rb_closed rb' = rb_closed rb.
Proof.
  intros H. pose proof (rep_bounds _ _ H) as Hb. unfold take_head. run.
  rewrite (rep_index_head _ _ H) slice_get_in; [apply (rep_index_in _ _ H)|].
  rewrite slice_set_in; [apply (rep_index_in _ _ H)|].
  pose proof (rep_cells _ _ H 0 m eq_refl) as Hm. rewrite /= Z.add_0_r in Hm. rewrite Hm.
  eexists. split; [done|]. split; [|done].
  apply rep_drop_oldest in H as H'. destruct H' as [Hcap Hmask Hlen Hh Ht Hf Hc].
  split; simpl in *; try done. intros i x Hi. rewrite cell_insert decide_False.
  - apply lookup_lt_Some in Hi as Hlt. pose proof (rep_fits _ _ H) as Hfit. simpl in Hfit.
    destruct Hcap as (k & Hk & Hcap). rewrite Hcap.
    rewrite -(mod_pow_pow (u64 _ + _) k 64); [lia|]. unfold u64.
    rewrite Zplus_mod_idemp_l mod_pow_pow; [lia|]. apply mod_separate; lia.
  - destruct (rb_nodes rb). by apply Hc.
Qed.

Lemma grow_copy_run rb q n i dst :
  ring_rep rb q → Z.of_nat n + i ≤ slen dst → 0 ≤ i →
  ∃ dst', grow_copy n i rb dst = Some dst' ∧ slen dst' = slen dst ∧
    ∀ j, cell dst' j = if decide (i ≤ j < i + Z.of_nat n)
                       then cell (rb_nodes rb) ((rb_head rb + j) mod rb_capacity rb)
                       else cell dst j.
Proof.
  intros H. revert i dst. induction n as [|n IH]; intros i dst Hle Hi.
  { exists dst. split_and!; try done. intros j. rewrite decide_False; [lia|done]. }
  cbn [grow_copy]. rewrite (rep_index _ _ H) slice_get_in; [apply (rep_index_in _ _ H)|].
  cbn [mbind option_bind]. rewrite slice_set_in; [lia|]. cbn [mbind option_bind].
  destruct (IH (i + 1) (mkSlice (slen dst) (<[i := cell (rb_nodes rb)
             ((rb_head rb + i) mod rb_capacity rb)]> (cells dst)))) as (dst' & -> & Hlen & Hc);
    [simpl; lia|lia|].
  exists dst'. split_and!; try done. intros j. rewrite Hc cell_insert.
  destruct (decide (i = j)) as [->|].
  - rewrite decide_False; [lia|]. rewrite decide_True; [lia|done].
  - destruct dst. repeat case_decide; done || lia.
Qed.

Lemma grow_run rb q :
  ring_rep rb q → rb_capacity rb < 2 ^ 61 →
  ∃ rb', grow rb = Ret tt rb' ∧ ring_rep rb' q ∧
         rb_capacity rb' = 2 * rb_capacity rb ∧ rb_closed rb' = rb_closed rb.
Proof.
  intros H Hlt. pose proof (rep_bounds _ _ H) as Hb. pose proof (rep_fits _ _ H) as Hf.
  unfold grow. run. rewrite (rep_count _ _ H) Nat2Z.id.
  rewrite (u64_small (rb_capacity rb * 2)); [lia|].
  destruct (grow_copy_run rb q (length q) 0 (make_slice (rb_capacity rb * 2)) H)
    as (dst & -> & Hlen & Hc); [simpl; lia|lia|].
  eexists. split; [done|]. split; [|simpl; split; [lia|done]].
  destruct H as [(k & Hk & Hcap) Hmask Hslen Hh Ht _ Hcells].
  split; simpl; [|done|done|lia| |lia|].
  - exists (k + 1). rewrite Z.pow_add_r; [lia..|]. rewrite -Hcap.
    assert (k < 61) by (apply (Z.pow_lt_mono_r_iff 2); lia). split; lia.
  - rewrite u64_small; lia.
  - intros i m Hi. apply lookup_lt_Some in Hi as Hil.
    rewrite Z.mod_small; [lia|]. rewrite Hc decide_True; [lia|]. by apply Hcells.
Qed.

(** Doubling a capacity below 2^24 does not pass it. *)
Lemma rep_double rb q :
  ring_rep rb q → rb_capacity rb < 16777216 → 2 * rb_capacity rb ≤ 16777216.
Proof.
  intros [(k & Hk & ->) _ _ _ _ _ _] Hlt. rewrite -Z.pow_succ_r; [lia|].
  change 16777216 with (2 ^ 24). apply Z.pow_le_mono_r; [lia|].
  assert (k < 24); [|lia]. by apply (Z.pow_lt_mono_r_iff 2); lia.
Qed.

(** Pushing at either end of a ring with a free slot or a full one. *)
Lemma Push_run rb q m :
  ring_rep rb q → rb_closed rb = false →
  ∃ rb', Push m rb = Ret true rb' ∧
    ring_rep rb' ((if ring_limit rb <=? Z.of_nat (length q) then list.tail q else q) ++ [m]) ∧
    ring_limit rb' = ring_limit rb ∧ rb_closed rb' = false.
Proof.
  intros H Ho. pose proof (rep_bounds _ _ H) as Hb. pose proof (rep_fits _ _ H) as Hf.
  unfold Push, ring_limit. run. rewrite Ho (rep_count _ _ H).
  destruct (Z.leb_spec (rb_capacity rb) (Z.of_nat (length q))) as [Hfull|Hfree].
  - destruct (Z.leb_spec 16777216 (rb_capacity rb)) as [Hmax|Hsmall].
    + rewrite (proj2 (Z.leb_le _ _)); [lia|].
      destruct q as [|x q]; [simpl in *; lia|]. simpl.
      destruct (rep_store_back _ q m (rep_drop_oldest _ _ _ H)) as (nodes & Hs & Hr);
        [simpl in *; lia|]. simpl in Hs. rewrite Hs. simpl in Hr. rewrite ?Ho in Hr |- *. eexists. by split_and!.
    + rewrite (proj2 (Z.leb_gt _ _)); [lia|].
      destruct (grow_run _ _ H) as (rb1 & -> & H1 & Hc1 & Hcl); [lia|].
      destruct (rep_store_back _ q m H1) as (nodes & Hs & Hr); [lia|].
      rewrite Hs. eexists. split; [done|]. split; [done|]. simpl. rewrite Hc1 Hcl Ho.
      split; [|done]. pose proof (rep_double _ _ H). lia.
  - rewrite (proj2 (Z.leb_gt _ _)); [lia|].
    destruct (rep_store_back _ q m H) as (nodes & Hs & Hr); [lia|].
    rewrite Hs. simpl in Hr. rewrite ?Ho in Hr |- *. eexists. by split_and!.
Qed.

Lemma PushFront_run rb q m :
  ring_rep rb q → rb_closed rb = false →
  ∃ rb', PushFront m rb = Ret true rb' ∧
    ring_rep rb' (m :: (if ring_limit rb <=? Z.of_nat (length q)
                        then take (length q - 1) q else q)) ∧
    ring_limit rb' = ring_limit rb ∧ rb_closed rb' = false.
Proof.
  intros H Ho. pose proof (rep_bounds _ _ H) as Hb. pose proof (rep_fits _ _ H) as Hf.
  unfold PushFront, ring_limit. run. rewrite Ho (rep_count _ _ H).
  destruct (Z.leb_spec (rb_capacity rb) (Z.of_nat (length q))) as [Hfull|Hfree].
  - destruct (Z.leb_spec 16777216 (rb_capacity rb)) as [Hmax|Hsmall].
    + rewrite (proj2 (Z.leb_le _ _)); [lia|].
      destruct q as [|x q _] using rev_ind; [simpl in *; lia|].
      rewrite length_app /= in Hfull Hf |- *.
      rewrite (_ : (length q + 1 - 1)%nat = length q); [lia|]. rewrite take_app_length.
      destruct (rep_store_front _ q m (rep_drop_newest _ _ _ H)) as (nodes & Hs & Hr);
        [simpl in *; lia|]. simpl in Hs. rewrite Hs. simpl in Hr. rewrite ?Ho in Hr |- *. eexists. by split_and!.
    + rewrite (proj2 (Z.leb_gt _ _)); [lia|].
      destruct (grow_run _ _ H) as (rb1 & -> & H1 & Hc1 & Hcl); [lia|].
      destruct (rep_store_front _ q m H1) as (nodes & Hs & Hr); [lia|].
      rewrite Hs. eexists. split; [done|]. split; [done|]. simpl. rewrite Hc1 Hcl Ho.
      split; [|done]. pose proof (rep_double _ _ H). lia.
  - rewrite (proj2 (Z.leb_gt _ _)); [lia|].
    destruct (rep_store_front _ q m H) as (nodes & Hs & Hr); [lia|].
    rewrite Hs. simpl in Hr. rewrite ?Ho in Hr |- *. eexists. by split_and!.
Qed.

Lemma Push_closed rb m : rb_closed rb = true → Push m rb = Ret false rb.
Proof. intros Ho. unfold Push. run. by rewrite Ho. Qed.

Lemma PushFront_closed rb m : rb_closed rb = true → PushFront m rb = Ret false rb.
Proof. intros Ho. unfold PushFront. run. by rewrite Ho. Qed.

Lemma Pop_run rb q :
  ring_rep rb q →
  ∃ rb', Pop rb = Ret (head q, bool_decide (q ≠ [])) rb' ∧ ring_rep rb' (list.tail q) ∧
         rb_capacity rb' = rb_capacity rb ∧ rb_closed rb' = rb_closed rb.
Proof.
  intros H. unfold Pop. run. rewrite (rep_empty_iff _ _ H).
  destruct q as [|m q].
  - rewrite bool_decide_true; [done|]. by exists rb.
  - rewrite bool_decide_false; [done|].
    destruct (take_head_run _ _ _ H) as (rb' & -> & ?). by exists rb'.
Qed.

Lemma batch_loop_run rb q n :
  ring_rep rb q → (n ≤ length q)%nat →
  ∃ rb', batch_loop n rb = Ret (Some <$> take n q) rb' ∧ ring_rep rb' (drop n q) ∧
         rb_capacity rb' = rb_capacity rb ∧ rb_closed rb' = rb_closed rb.
Proof.
  revert rb q. induction n as [|n IH]; intros rb q H Hn; [by exists rb|].
  destruct q as [|m q]; simpl in Hn; [lia|].
  destruct (take_head_run _ _ _ H) as (rb1 & E1 & H1 & Hc1 & Hcl1).
  destruct (IH rb1 q H1 ltac:(lia)) as (rb2 & E2 & H2 & Hc2 & Hcl2).
  exists rb2. cbn [batch_loop]. run. rewrite E1 E2. split_and!; [done|done|congruence..].
Qed.

Lemma PopBatch_run rb q max :
  ring_rep rb q →
  ∃ rb', PopBatch max rb = Ret (dq_batch max (mkDeque q (rb_closed rb))).1 rb' ∧
         ring_rep rb' (dq_items (dq_batch max (mkDeque q (rb_closed rb))).2) ∧
         rb_capacity rb' = rb_capacity rb ∧ rb_closed rb' = rb_closed rb.
Proof.
  intros H. pose proof (rep_bounds _ _ H). pose proof (rep_fits _ _ H) as Hf.
  unfold PopBatch, dq_batch. destruct (Z.leb_spec max 0); [by exists rb|]. run.
  rewrite (rep_count _ _ H). destruct q as [|m q]; [by exists rb|].
  rewrite i64_small; [unfold is_i64; lia|].
  rewrite (proj2 (Z.eqb_neq _ _)); [simpl; lia|].
  set (n := Z.to_nat (if _ <? max then _ else _)).
  assert (n = Nat.min (Z.to_nat max) (length (m :: q))) as Hn.
  { subst n. destruct (Z.ltb_spec (Z.of_nat (length (m :: q))) max); lia. }
  destruct (batch_loop_run rb (m :: q) n H) as (rb' & -> & Hr & Hc); [lia|].
  rewrite Hn drop_min_length in Hr. rewrite Hn take_min_length. by exists rb'.
Qed.

Lemma Len_run rb q : ring_rep rb q → Len rb = Ret (Z.of_nat (length q)) rb.
Proof.
  intros H. pose proof (rep_bounds _ _ H). pose proof (rep_fits _ _ H).
  unfold Len. rewrite (rep_count _ _ H) i64_small; [unfold is_i64; lia|done].
Qed.

Lemma Cap_run rb q : ring_rep rb q → Cap rb = Ret (rb_capacity rb) rb.
Proof.
  intros H. pose proof (rep_bounds _ _ H). unfold Cap.
  rewrite i64_small; [unfold is_i64; lia|done].
Qed.

Lemma Close_run rb q :
  ring_rep rb q →
  ∃ rb', Close rb = Ret tt rb' ∧ ring_rep rb' q ∧ rb_capacity rb' = rb_capacity rb ∧
         rb_closed rb' = true.
Proof. intros []. eexists. by split_and!. Qed.

(** ** Creation *)

Lemma round_up_spec fuel j cap :
  0 ≤ j → j + Z.of_nat fuel = 64 → 0 ≤ cap ≤ 2 ^ 63 → (j = 0 ∨ 2 ^ (j - 1) < cap) →
  ∃ k, j ≤ k ≤ 63 ∧ round_up fuel (2 ^ j) cap = Some (2 ^ k) ∧
       cap ≤ 2 ^ k ∧ (k = 0 ∨ 2 ^ (k - 1) < cap).
Proof.
  revert j. induction fuel as [|f IH]; intros j Hj Hf Hc Hlow.
  { exfalso. replace j with 64 in Hlow by lia. simpl in Hlow. lia. }
  simpl. destruct (Z.ltb_spec (2 ^ j) cap) as [Hlt|Hge].
  - assert (j < 63) by (apply (Z.pow_lt_mono_r_iff 2); lia).
    assert (2 ^ (j + 1) ≤ 2 ^ 63) by (apply Z.pow_le_mono_r; lia).
    rewrite Z.shiftl_mul_pow2; [lia|]. rewrite -Z.pow_add_r; [lia..|].
    rewrite u64_small; [split; [apply Z.pow_nonneg|]; lia|].
    destruct (IH (j + 1)) as (k & ? & E & ?); [lia..| |].
    { right. by replace (j + 1 - 1) with j by lia. }
    exists k. split; [lia|done].
  - exists j. split_and!; try done; lia.
Qed.

Lemma NewRingBuffer_run cap :
  0 ≤ cap ≤ 2 ^ 62 →
  ∃ rb, NewRingBuffer cap = Some rb ∧ ring_rep rb [] ∧ rb_closed rb = false ∧
        cap ≤ rb_capacity rb ∧ (rb_capacity rb = 1024 ∨ rb_capacity rb < 2 * cap).
Proof.
  intros Hcap. destruct (round_up_spec 64 0 cap) as (k & Hk & E & Hle & Hmin); [lia..|by left|].
  unfold NewRingBuffer. rewrite -[1](Z.pow_0_r 2) E. simpl.
  assert (k ≤ 62) as Hk62.
  { destruct Hmin as [->|Hmin]; [lia|].
    assert (k - 1 < 62); [|lia]. apply (Z.pow_lt_mono_r_iff 2); lia. }
  eexists. split; [done|]. destruct (Z.ltb_spec (2 ^ k) 1024) as [Hlt|Hge].
  - simpl. split_and!; [|done|lia|by left].
    split; simpl; try done. by exists 10.
  - assert (10 ≤ k). { apply (Z.pow_le_mono_r_iff 2); lia. }
    assert (2 ^ k = 2 * 2 ^ (k - 1)) as Hp by (rewrite -Z.pow_succ_r; [lia|f_equal; lia]).
    simpl. split_and!; [|done|lia|right; lia].
    split; simpl; try done; [by exists k|lia].
Qed.

Lemma round_up_zero fuel cap : 0 < cap → round_up fuel 0 cap = None.
Proof.
  intros. induction fuel as [|f IH]; [done|]. simpl.
  rewrite (proj2 (Z.ltb_lt _ _)); [done|]. apply IH.
Qed.

Lemma round_up_diverges fuel j cap :
  0 ≤ j ≤ 63 → 2 ^ 63 < cap → round_up fuel (2 ^ j) cap = None.
Proof.
  revert j. induction fuel as [|f IH]; intros j Hj Hc; [done|]. simpl.
  assert (2 ^ j ≤ 2 ^ 63) by (apply Z.pow_le_mono_r; lia).
  rewrite (proj2 (Z.ltb_lt _ _)); [lia|].
  rewrite Z.shiftl_mul_pow2; [lia|]. rewrite -Z.pow_add_r; [lia..|].
  destruct (decide (j = 63)) as [->|].
  - change (u64 (2 ^ (63 + 1))) with 0. apply round_up_zero. lia.
  - assert (2 ^ (j + 1) ≤ 2 ^ 63) by (apply Z.pow_le_mono_r; lia).
    rewrite u64_small; [split; [apply Z.pow_nonneg|]; lia|]. apply IH; lia.
Qed.

(** ** Refinement *)

Definition ring_sim (bound : Z) (rb : RingBuffer) (d : deque) : Prop :=
  ring_rep rb (dq_items d) ∧ rb_closed rb = dq_closed d ∧ ring_limit rb = bound.

Lemma ring_step_sim bound rb d o :
  ring_sim bound rb d →
  ∃ rb', ring_step o rb = Ret (deque_step bound o d).1 rb' ∧
         ring_sim bound rb' (deque_step bound o d).2.
Proof.
  destruct d as [q cl]. intros (H & Hcl & Hb). simpl in H, Hcl. unfold ring_sim.
  assert (∀ rb', rb_capacity rb' = rb_capacity rb → ring_limit rb' = bound) as Hlim.
  { intros rb' E. rewrite -Hb. unfold ring_limit. by rewrite E. }
  destruct o as [m|m| |n| |]; unfold ring_step, deque_step; run.
  - unfold dq_push. destruct cl; simpl.
    + rewrite Push_closed; [done|]. by exists rb.
    + destruct (Push_run rb q m H Hcl) as (rb' & -> & Hr & Hl & ?). rewrite Hb in Hr Hl.
      by exists rb'.
  - unfold dq_push_front. destruct cl; simpl.
    + rewrite PushFront_closed; [done|]. by exists rb.
    + destruct (PushFront_run rb q m H Hcl) as (rb' & -> & Hr & Hl & ?). rewrite Hb in Hr Hl.
      by exists rb'.
  - destruct (Pop_run rb q H) as (rb' & -> & Hr & Hc & Hcl').
    exists rb'. rewrite Hcl' Hcl. destruct q as [|m q]; simpl; auto.
  - destruct (PopBatch_run rb q n H) as (rb' & -> & Hr & Hc & Hcl'). rewrite Hcl in Hr |- *.
    exists rb'. rewrite Hcl' Hcl. unfold dq_batch in *. simpl in *.
    destruct (n <=? 0); [auto|]. destruct q; simpl in *; auto.
  - rewrite (Len_run _ _ H). by exists rb.
  - destruct (Close_run _ _ H) as (rb' & -> & ? & ? & ?). exists rb'. auto.
Qed.

Lemma ring_run_sim bound os rb d :
  ring_sim bound rb d →
  ∃ rb', ring_run os rb = Ret (deque_run bound os d).1 rb' ∧
         ring_sim bound rb' (deque_run bound os d).2.
Proof.
  revert rb d. induction os as [|o os IH]; intros rb d H; [by exists rb|].
  destruct (ring_step_sim bound rb d o H) as (rb1 & E1 & H1).
  cbn [ring_run deque_run]. run. rewrite E1.
  destruct (deque_step bound o d) as [x d1]. simpl in *.
  destruct (IH rb1 d1 H1) as (rb2 & -> & H2). exists rb2.
  by destruct (deque_run bound os d1).
Qed.

Lemma deque_run_pushes bound ms q os :
  Z.of_nat (length q + length ms) ≤ bound →
  deque_run bound ((OpPush <$> ms) ++ os) (mkDeque q false) =
    let '(outs, d) := deque_run bound os (mkDeque (q ++ ms) false) in
    (replicate (length ms) (OutBool true) ++ outs, d).
Proof.
  revert q. induction ms as [|m ms IH]; intros q Hb; simpl.
  - rewrite app_nil_r. by destruct (deque_run _ _ _).
  - simpl in Hb. rewrite (proj2 (Z.leb_gt _ _)); [lia|]. simpl.
    rewrite IH; [rewrite length_app /=; lia|]. rewrite -app_assoc /=.
    by destruct (deque_run _ _ _).
Qed.

Lemma deque_run_pops bound ms :
  deque_run bound (replicate (length ms) OpPop) (mkDeque ms false) =
    ((λ m, OutMsg (Some m) true) <$> ms, mkDeque [] false).
Proof. induction ms as [|m ms IH]; simpl; [done|]. by rewrite IH. Qed.

Lemma PopWait_check_run rb q d now :
  ring_rep rb q →
  match q with
  | [] => PopWait_check d now rb =
            if rb_closed rb then Ret (None, false) rb else
            match d with
            | Some d => if d <=? now then Ret (None, false) rb else Block rb
            | None => Block rb
            end
  | m :: q' => ∃ rb', PopWait_check d now rb = Ret (Some m, true) rb' ∧ ring_rep rb' q' ∧
                      rb_capacity rb' = rb_capacity rb ∧ rb_closed rb' = rb_closed rb
  end.
Proof.
  intros H. unfold PopWait_check. run. rewrite (rep_empty_iff _ _ H). destruct q as [|m q].
  - rewrite bool_decide_true; [done|]. simpl. destruct (rb_closed rb); simpl; [done|].
    destruct d as [d|]; [|done]. by ztest; try lia.
  - rewrite bool_decide_false; [done|]. simpl.
    destruct (take_head_run _ _ _ H) as (rb' & -> & ?). by exists rb'.
Qed.

(** ** Properties *)

(** C10: the ring buffer is a bounded double-ended queue.  From any creation
    with a capacity of at most 2^62, every sequence of [Push], [PushFront],
    [Pop], [PopBatch], [Len] and [Close] calls runs without a panic (no index
    leaves the slice, whatever the wrap-around of the 64-bit counters and the
    reallocations of [grow]) and returns what the list [deque_run] returns:
    first in first out, nothing dropped below [ring_limit], the oldest (for
    [Push]) or the newest (for [PushFront]) message dropped above it, and
    nothing accepted after [Close]. *)
Theorem ring_refines_deque cap os (Hcap : 0 ≤ cap ≤ 2 ^ 62) :
  ∃ rb rb', NewRingBuffer cap = Some rb ∧
    ring_run os rb = Ret (deque_run (ring_limit rb) os (mkDeque [] false)).1 rb' ∧
    ring_rep rb' (dq_items (deque_run (ring_limit rb) os (mkDeque [] false)).2).
Proof.
  destruct (NewRingBuffer_run cap Hcap) as (rb & E & Hr & Ho & _).
  destruct (ring_run_sim (ring_limit rb) os rb (mkDeque [] false)) as (rb' & Hrun & Hsim & _);
    [by split_and!|].
  by exists rb, rb'.
Qed.

(** First in, first out.  Any batch of up to 2^24 messages pushed into a
    new ring, however often it has to grow, is popped in the order it was
    pushed, complete and without duplicates. *)
Theorem ring_fifo cap ms (Hcap : 0 ≤ cap ≤ 2 ^ 62) (Hms : Z.of_nat (length ms) ≤ 16777216) :
  ∃ rb rb', NewRingBuffer cap = Some rb ∧
    ring_run ((OpPush <$> ms) ++ replicate (length ms) OpPop) rb =
      Ret (replicate (length ms) (OutBool true) ++ ((λ m, OutMsg (Some m) true) <$> ms)) rb'.
Proof.
  destruct (NewRingBuffer_run cap Hcap) as (rb & E & Hr & Ho & _).
  destruct (ring_run_sim (ring_limit rb) ((OpPush <$> ms) ++ replicate (length ms) OpPop)
              rb (mkDeque [] false)) as (rb' & Hrun & _); [by split_and!|].
  exists rb, rb'. split; [done|]. rewrite Hrun.
  rewrite deque_run_pushes; [unfold ring_limit; simpl; lia|]. by rewrite deque_run_pops.
Qed.

(** Creation.  For a requested capacity of at most 2^62 the rounding loop
    ends, and the ring has the smallest power of two that is at least the
    request, but never less than 1024 slots. *)
Theorem NewRingBuffer_capacity cap (Hcap : 0 ≤ cap ≤ 2 ^ 62) :
  ∃ rb k, NewRingBuffer cap = Some rb ∧ 10 ≤ k ∧ rb_capacity rb = 2 ^ k ∧
          cap ≤ rb_capacity rb ∧ (rb_capacity rb = 1024 ∨ 2 ^ (k - 1) < cap).
Proof.
  destruct (NewRingBuffer_run cap Hcap) as (rb & E & Hr & _ & Hle & Hmin).
  destruct (rep_cap _ _ Hr) as (k & Hk & Hcapk). exists rb, k. split_and!; try done; [lia|].
  destruct Hmin as [|Hmin]; [by left|right].
  rewrite Hcapk in Hmin. rewrite (_ : k = Z.succ (k - 1)) in Hmin; [lia|].
  rewrite Z.pow_succ_r in Hmin; lia.
Qed.

(** A requested capacity above 2^63 makes [NewRingBuffer] loop forever:
    the doubled capacity overflows to zero, and no number of iterations ends
    the loop. *)
Theorem NewRingBuffer_overflow_diverges cap fuel (Hcap : 2 ^ 63 < cap) :
  round_up fuel 1 cap = None.
Proof. rewrite -[1](Z.pow_0_r 2). by apply round_up_diverges. Qed.

(** [PopWait] when it holds the lock.  It takes the oldest message when
    there is one, whatever the timeout and even after [Close]; on an empty
    ring it returns nothing if the ring is closed or the timeout has elapsed
    and parks otherwise, which for [timeout == 0] is always. *)
Theorem PopWait_outcome rb q timeout t0 t1 (Hrep : ring_rep rb q) :
  match q with
  | m :: q' => ∃ rb', PopWait timeout t0 t1 rb = Ret (Some m, true) rb' ∧ ring_rep rb' q'
  | [] => PopWait timeout t0 t1 rb =
            if rb_closed rb then Ret (None, false) rb
            else if bool_decide (timeout ≠ 0 ∧ t0 + timeout ≤ t1) then Ret (None, false) rb
            else Block rb
  end.
Proof.
  unfold PopWait. set (d := if timeout =? 0 then None else Some (t0 + timeout)).
  replace (if timeout =? 0 then PopWait_check None t1 else PopWait_check (Some (t0 + timeout)) t1)
    with (PopWait_check d t1) by (subst d; by destruct (timeout =? 0)).
  pose proof (PopWait_check_run rb q d t1 Hrep) as H. destruct q as [|m q].
  - rewrite H. subst d. destruct (rb_closed rb); [done|].
    destruct (Z.eqb_spec timeout 0) as [->|Ht].
    + by rewrite bool_decide_false; [intros [? _]|].
    + destruct (Z.leb_spec (t0 + timeout) t1); case_bool_decide; done || (exfalso; lia).
  - destruct H as (rb' & ? & ? & _). by exists rb'.
Qed.

(** ** Witnesses *)

Lemma ring_refines_deque_witness :
  ∃ rb rb', NewRingBuffer 5 = Some rb ∧
    ring_run [OpPush 1; OpPushFront 2; OpLen; OpPopBatch 7; OpPop; OpClose; OpPush 3] rb =
      Ret [OutBool true; OutBool true; OutLen 2; OutBatch (Some [Some 2; Some 1]);
           OutMsg None false; OutUnit; OutBool false]%positive rb'.
Proof.
  destruct (ring_refines_deque 5
    [OpPush 1; OpPushFront 2; OpLen; OpPopBatch 7; OpPop; OpClose; OpPush 3])
    as (rb & rb' & E & Hrun & _); [lia|].
  exists rb, rb'. split; [done|]. rewrite Hrun. f_equal.
  vm_compute in E. injection E as <-. by vm_compute.
Defined.

Lemma ring_fifo_witness :
  ∃ rb rb', NewRingBuffer 0 = Some rb ∧
    ring_run [OpPush 4; OpPush 9; OpPop; OpPop] rb =
      Ret [OutBool true; OutBool true; OutMsg (Some 4) true; OutMsg (Some 9) true]%positive rb'.
Proof. apply (ring_fifo 0 [4; 9]%positive); simpl; lia. Defined.

Lemma NewRingBuffer_capacity_witness :
  ∃ rb k, NewRingBuffer 131073 = Some rb ∧ 10 ≤ k ∧ rb_capacity rb = 2 ^ k ∧
          131073 ≤ rb_capacity rb ∧ (rb_capacity rb = 1024 ∨ 2 ^ (k - 1) < 131073).
Proof. apply (NewRingBuffer_capacity 131073). lia. Defined.

Lemma NewRingBuffer_overflow_diverges_witness :
  round_up 1000 1 (2 ^ 63 + 1) = None.
Proof. apply (NewRingBuffer_overflow_diverges (2 ^ 63 + 1) 1000). lia. Defined.

Lemma PopWait_outcome_witness :
  ∃ rb, NewRingBuffer 1024 = Some rb ∧ PopWait 0 10 10 rb = Block rb ∧
        PopWait 5 10 15 rb = Ret (None, false) rb.
Proof.
  destruct (NewRingBuffer_run 1024 ltac:(lia)) as (rb & E & Hr & Ho & _).
  exists rb. split; [done|].
  split; [rewrite (PopWait_outcome rb [] 0 10 10 Hr)|rewrite (PopWait_outcome rb [] 5 10 15 Hr)];
    by rewrite Ho.
Defined.
