(* ===== verification/RingWait.v ===== *)
(** * Blocking consumers of a ring buffer

    [src/internal/queue/ring.go] lets any number of goroutines block in
    [PopWait] on one condition variable while others push, pop and close.
    A configuration holds the ring, the notify list of the condition variable
    (goroutines parked in [cond.Wait], longest waiting first) and the
    goroutines that are inside [PopWait] and about to take the lock, because
    they have just called it or have been woken.  Each step is one critical
    section of the mutex: [cond.Signal] moves the first parked goroutine to
    the runnable ones, [cond.Broadcast] moves all of them.  The scheduler may
    interleave the steps in any order.

    Two histories are kept to state what is delivered: the messages accepted
    by [Push] and [PushFront], and the messages handed to a consumer. *)

From S2P Require Import Prelude Message RingBuffer.

(** A goroutine inside [PopWait]: its deadline, [None] for [timeout == 0]. *)
Record waiter : Type := mkWaiter { w_id : nat; w_deadline : option Z }.

Record config : Type := mkConfig {
  c_ring : RingBuffer;
  c_parked : list waiter;
  c_runnable : list waiter;
  c_accepted : list loc;
  c_taken : list loc
}.

(** [cond.Signal()] and [cond.Broadcast()] on (parked, runnable). *)
Definition signal (parked runnable : list waiter) : list waiter * list waiter :=
  match parked with
  | [] => ([], runnable)
  | w :: parked' => (parked', runnable ++ [w])
  end.

Definition broadcast (parked runnable : list waiter) : list waiter * list waiter :=
  ([], runnable ++ parked).

(** The messages a result hands to its caller. *)
Definition got (m : option loc) : list loc := match m with Some l => [l] | None => [] end.

Definition got_batch (b : option (list (option loc))) : list loc :=
  match b with Some l => concat (got <$> l) | None => [] end.

Inductive wstep : config → config → Prop :=
| step_call rb p r acc tk w :
    wstep (mkConfig rb p r acc tk) (mkConfig rb p (r ++ [w]) acc tk)
| step_take rb rb' p r1 r2 w acc tk now m ok :
    PopWait_check (w_deadline w) now rb = Ret (m, ok) rb' →
    wstep (mkConfig rb p (r1 ++ w :: r2) acc tk) (mkConfig rb' p (r1 ++ r2) acc (tk ++ got m))
| step_park rb rb' p r1 r2 w acc tk now :
    PopWait_check (w_deadline w) now rb = Block rb' →
    wstep (mkConfig rb p (r1 ++ w :: r2) acc tk) (mkConfig rb' (p ++ [w]) (r1 ++ r2) acc tk)
| step_push rb rb' p r acc tk m :
    Push m rb = Ret true rb' →
    wstep (mkConfig rb p r acc tk)
          (mkConfig rb' (signal p r).1 (signal p r).2 (acc ++ [m]) tk)
| step_push_front rb rb' p r acc tk m :
    PushFront m rb = Ret true rb' →
    wstep (mkConfig rb p r acc tk)
          (mkConfig rb' (signal p r).1 (signal p r).2 (acc ++ [m]) tk)
| step_push_refused rb p r acc tk m :
    Push m rb = Ret false rb →
    wstep (mkConfig rb p r acc tk) (mkConfig rb p r acc tk)
| step_pop rb rb' p r acc tk m ok :
    Pop rb = Ret (m, ok) rb' →
    wstep (mkConfig rb p r acc tk) (mkConfig rb' p r acc (tk ++ got m))
| step_batch rb rb' p r acc tk max b :
    PopBatch max rb = Ret b rb' →
    wstep (mkConfig rb p r acc tk) (mkConfig rb' p r acc (tk ++ got_batch b))
| step_timer rb p r acc tk :
    wstep (mkConfig rb p r acc tk)
          (mkConfig rb (broadcast p r).1 (broadcast p r).2 acc tk)
| step_close rb rb' p r acc tk :
    Close rb = Ret tt rb' →
    wstep (mkConfig rb p r acc tk)
          (mkConfig rb' (broadcast p r).1 (broadcast p r).2 acc tk).

Definition initial (rb : RingBuffer) : config := mkConfig rb [] [] [] [].

(** The invariant: while a goroutine is parked there are at least as many
    runnable ones as messages, a closed ring has nobody parked, and what was
    handed out plus what is queued is what was accepted, up to the messages
    dropped by a saturated ring. *)
Record winv (c : config) (q : list loc) : Prop := mkWinv {
  wi_rep : ring_rep (c_ring c) q;
  wi_wake : c_parked c ≠ [] → (length q ≤ length (c_runnable c))%nat;
  wi_closed : rb_closed (c_ring c) = true → c_parked c = [];
  wi_sub : c_taken c ++ q ⊆+ c_accepted c;
  wi_all : Z.of_nat (length (c_accepted c)) ≤ ring_limit (c_ring c) →
           c_taken c ++ q ≡ₚ c_accepted c
}.

(** ** Lemmas *)

Lemma signal_wakes p r n :
  (p ≠ [] → (n ≤ length r)%nat) →
  (signal p r).1 ≠ [] → (S n ≤ length (signal p r).2)%nat.
Proof.
  intros H. destruct p as [|w p]; simpl; [done|]. intros _.
  rewrite length_app /=. specialize (H ltac:(done)). lia.
Qed.

Lemma concat_got (q : list loc) : concat (got <$> (Some <$> q)) = q.
Proof. induction q as [|m q IH]; simpl; [done|]. by rewrite IH. Qed.

Lemma ring_limit_eq rb rb' : rb_capacity rb' = rb_capacity rb → ring_limit rb' = ring_limit rb.
Proof. unfold ring_limit. by intros ->. Qed.

(** Accepting one more message, at either end, keeps the accounting: [q1] is
    the queue after a saturated ring made room. *)
Lemma accept_accounting (taken q q1 q2 accepted : list loc) m limit :
  q1 ⊆+ q → (Z.of_nat (length q) < limit → q1 = q) → q2 ≡ₚ m :: q1 →
  taken ++ q ⊆+ accepted →
  (Z.of_nat (length accepted) ≤ limit → taken ++ q ≡ₚ accepted) →
  taken ++ q2 ⊆+ accepted ++ [m] ∧
  (Z.of_nat (length (accepted ++ [m])) ≤ limit → taken ++ q2 ≡ₚ accepted ++ [m]).
Proof.
  intros Hsub Heq Hp Ht Ha. split.
  - rewrite Hp -Permutation_middle -Permutation_cons_append.
    apply submseteq_skip. etrans; [by apply submseteq_skips_l|done].
  - rewrite length_app /=. intros Hl.
    assert (length (taken ++ q) ≤ length accepted)%nat as Hlen by by apply submseteq_length.
    rewrite length_app in Hlen. rewrite (Heq ltac:(lia)) in Hp.
    by rewrite Hp -Permutation_middle -Permutation_cons_append Ha; [lia|].
Qed.

Lemma drop_sub {A} (q : list A) (b : bool) : (if b then list.tail q else q) ⊆+ q.
Proof. destruct b; [|done]. destruct q; [done|]. by apply submseteq_cons. Qed.

Lemma trim_sub {A} (q : list A) (b : bool) : (if b then take (length q - 1) q else q) ⊆+ q.
Proof.
  destruct b; [|done].
  rewrite -{3}(take_drop (length q - 1) q). apply submseteq_inserts_r, reflexivity.
Qed.

(** Taking messages from the front of the queue moves them to the history. *)
Lemma take_accounting (taken q1 q2 accepted : list loc) limit :
  taken ++ (q1 ++ q2) ⊆+ accepted →
  (Z.of_nat (length accepted) ≤ limit → taken ++ (q1 ++ q2) ≡ₚ accepted) →
  (taken ++ q1) ++ q2 ⊆+ accepted ∧
  (Z.of_nat (length accepted) ≤ limit → (taken ++ q1) ++ q2 ≡ₚ accepted).
Proof. by rewrite app_assoc. Qed.

(** One lemma per kind of critical section. *)
Section steps.
Context (rb rb' : RingBuffer) (p r : list waiter) (acc tk : list loc) (q : list loc).

(** Messages leave the front of the queue; the runnable goroutines may lose
    the one that took the message. *)
Lemma winv_taken (r' : list waiter) (q1 q2 : list loc) :
  winv (mkConfig rb p r acc tk) (q1 ++ q2) →
  ring_rep rb' q2 → rb_capacity rb' = rb_capacity rb → rb_closed rb' = rb_closed rb →
  (length r ≤ length r' + length q1)%nat →
  winv (mkConfig rb' p r' acc (tk ++ q1)) q2.
Proof.
  intros [Hr Hw Hc Hs Ha] Hr' Hcap Hcl Hlen. simpl in *.
  destruct (take_accounting _ _ _ _ _ Hs Ha) as [Hs' Ha'].
  split; simpl; [done| |by rewrite Hcl|done|by rewrite (ring_limit_eq _ _ Hcap)].
  intros Hp. specialize (Hw Hp). rewrite length_app in Hw. lia.
Qed.

(** A message enters at either end and one parked goroutine is signalled. *)
Lemma winv_accepted m q1 q2 :
  winv (mkConfig rb p r acc tk) q →
  ring_rep rb' q2 → ring_limit rb' = ring_limit rb → rb_closed rb' = false →
  q1 ⊆+ q → (Z.of_nat (length q) < ring_limit rb → q1 = q) → q2 ≡ₚ m :: q1 →
  winv (mkConfig rb' (signal p r).1 (signal p r).2 (acc ++ [m]) tk) q2.
Proof.
  intros [Hr Hw Hc Hs Ha] Hr' Hlim Hcl Hsub Heq Hp. simpl in *.
  destruct (accept_accounting _ _ _ _ _ m _ Hsub Heq Hp Hs Ha) as [Hs' Ha'].
  split; simpl; [done| |by rewrite Hcl|done|by rewrite Hlim].
  intros Hne. rewrite Hp /=. apply submseteq_length in Hsub.
  pose proof (signal_wakes p r _ Hw Hne). lia.
Qed.

(** A broadcast wakes everybody. *)
Lemma winv_broadcast :
  winv (mkConfig rb p r acc tk) q →
  ring_rep rb' q → rb_capacity rb' = rb_capacity rb →
  winv (mkConfig rb' (broadcast p r).1 (broadcast p r).2 acc tk) q.
Proof.
  intros [Hr Hw Hc Hs Ha] Hr' Hcap. split; simpl in *; try done.
  by rewrite (ring_limit_eq _ _ Hcap).
Qed.
End steps.

Lemma winv_popwait rb rb' p r1 r2 w acc tk now m ok q :
  winv (mkConfig rb p (r1 ++ w :: r2) acc tk) q →
  PopWait_check (w_deadline w) now rb = Ret (m, ok) rb' →
  ∃ q', winv (mkConfig rb' p (r1 ++ r2) acc (tk ++ got m)) q' ∧ q = got m ++ q'.
Proof.
  intros Hinv E. pose proof (wi_rep _ _ Hinv) as Hr. simpl in Hr.
  pose proof (PopWait_check_run rb q (w_deadline w) now Hr) as Hrun.
  destruct q as [|l q].
  - assert (m = None ∧ rb' = rb) as [-> ->].
    { rewrite E in Hrun. repeat case_match; simplify_eq; done. }
    exists []. split; [|done]. simpl. rewrite app_nil_r.
    destruct Hinv as [_ _ Hc Hs Ha]. split; simpl in *; auto with lia.
  - destruct Hrun as (rb1 & E1 & Hr1 & Hcap & Hcl). rewrite E in E1. simplify_eq.
    exists q. split; [|done]. eapply (winv_taken _ _ _ _ _ _ _ [l] q); try done.
    rewrite !length_app /=. lia.
Qed.

Lemma winv_parks rb rb' p r1 r2 w acc tk now q :
  winv (mkConfig rb p (r1 ++ w :: r2) acc tk) q →
  PopWait_check (w_deadline w) now rb = Block rb' →
  winv (mkConfig rb' (p ++ [w]) (r1 ++ r2) acc tk) q ∧ q = [].
Proof.
  intros Hinv E. pose proof (wi_rep _ _ Hinv) as Hr. simpl in Hr.
  pose proof (PopWait_check_run rb q (w_deadline w) now Hr) as Hrun.
  destruct q as [|l q].
  - assert (rb_closed rb = false ∧ rb' = rb) as [Ho ->].
    { rewrite E in Hrun. repeat case_match; simplify_eq; done. }
    destruct Hinv as [_ _ Hc Hs Ha]. split; [|done].
    split; simpl in *; [done|lia|by rewrite Ho|done..].
  - destruct Hrun as (rb1 & E1 & _). by rewrite E in E1.
Qed.

Lemma winv_push rb rb' p r acc tk m q :
  winv (mkConfig rb p r acc tk) q → Push m rb = Ret true rb' →
  ∃ q', winv (mkConfig rb' (signal p r).1 (signal p r).2 (acc ++ [m]) tk) q'.
Proof.
  intros Hinv E. pose proof (wi_rep _ _ Hinv) as Hr. simpl in Hr.
  destruct (rb_closed rb) eqn:Ho; [by rewrite Push_closed in E|].
  destruct (Push_run rb q m Hr Ho) as (rb1 & E1 & Hr1 & Hl & Hcl). rewrite E in E1. simplify_eq.
  eexists. eapply (winv_accepted _ _ _ _ _ _ _ _
    (if ring_limit rb <=? Z.of_nat (length q) then list.tail q else q));
    [done..|apply drop_sub| |].
  - intros Hlt. by rewrite (proj2 (Z.leb_gt _ _)).
  - by rewrite Permutation_app_comm.
Qed.

Lemma winv_push_front rb rb' p r acc tk m q :
  winv (mkConfig rb p r acc tk) q → PushFront m rb = Ret true rb' →
  ∃ q', winv (mkConfig rb' (signal p r).1 (signal p r).2 (acc ++ [m]) tk) q'.
Proof.
  intros Hinv E. pose proof (wi_rep _ _ Hinv) as Hr. simpl in Hr.
  destruct (rb_closed rb) eqn:Ho; [by rewrite PushFront_closed in E|].
  destruct (PushFront_run rb q m Hr Ho) as (rb1 & E1 & Hr1 & Hl & Hcl).
  rewrite E in E1. simplify_eq.
  eexists. eapply (winv_accepted _ _ _ _ _ _ _ _
    (if ring_limit rb <=? Z.of_nat (length q) then take (length q - 1) q else q));
    [done..|apply trim_sub| |done].
  intros Hlt. by rewrite (proj2 (Z.leb_gt _ _)).
Qed.

Lemma winv_pop rb rb' p r acc tk m ok q :
  winv (mkConfig rb p r acc tk) q → Pop rb = Ret (m, ok) rb' →
  ∃ q', winv (mkConfig rb' p r acc (tk ++ got m)) q'.
Proof.
  intros Hinv E. pose proof (wi_rep _ _ Hinv) as Hr. simpl in Hr.
  destruct (Pop_run rb q Hr) as (rb1 & E1 & Hr1 & Hcap & Hcl). rewrite E in E1. simplify_eq.
  exists (list.tail q). eapply (winv_taken rb _ _ r); [|done..|lia]. by destruct q.
Qed.

Lemma winv_batch rb rb' p r acc tk max b q :
  winv (mkConfig rb p r acc tk) q → PopBatch max rb = Ret b rb' →
  ∃ q', winv (mkConfig rb' p r acc (tk ++ got_batch b)) q'.
Proof.
  intros Hinv E. pose proof (wi_rep _ _ Hinv) as Hr. simpl in Hr.
  destruct (PopBatch_run rb q max Hr) as (rb1 & E1 & Hr1 & Hcap & Hcl).
  rewrite E in E1. simplify_eq. eexists. eapply (winv_taken rb _ _ r); [|done..|lia].
  unfold dq_batch. simpl. destruct (max <=? 0); [done|]. destruct q as [|m q]; [done|].
  simpl. by rewrite -/(Some <$> _) -/(fmap _ _) concat_got take_drop.
Qed.

Lemma wstep_inv c c' q : winv c q → wstep c c' → ∃ q', winv c' q'.
Proof.
  intros Hinv. destruct 1.
  - exists q. destruct Hinv as [Hr Hw Hc Hs Ha]. split; simpl in *; try done.
    rewrite length_app /=. intros Hp. specialize (Hw Hp). lia.
  - edestruct winv_popwait as (? & ? & _); eauto.
  - eexists. by eapply winv_parks.
  - by eapply winv_push.
  - by eapply winv_push_front.
  - by exists q.
  - by eapply winv_pop.
  - by eapply winv_batch.
  - exists q. eapply winv_broadcast; [done|apply Hinv|done].
  - edestruct Close_run as (? & E & ? & ? & _); [apply Hinv|]. simpl in E.
    match goal with H : Close _ = _ |- _ => rewrite H in E end. simplify_eq.
    exists q. by eapply winv_broadcast.
Qed.

Lemma winv_initial rb : ring_rep rb [] → winv (initial rb) [].
Proof. intros H. by split. Qed.

Lemma reachable_inv c c' q : winv c q → rtc wstep c c' → ∃ q', winv c' q'.
Proof.
  intros Hinv Hrtc. revert q Hinv. induction Hrtc as [c|c1 c2 c3 Hs _ IH]; [eauto|].
  intros q Hinv. destruct (wstep_inv _ _ _ Hinv Hs) as [q' Hq']. by eapply IH.
Qed.

(** ** Properties *)

(** C11: no lost wake-up.  In every state the goroutines can reach, under any
    interleaving of callers of [PopWait], [Push], [PushFront], [Pop],
    [PopBatch], expiring timers and [Close]: if a goroutine is parked while
    messages are queued, then a goroutine inside [PopWait] is runnable, and
    whenever it gets the lock it leaves with the oldest message; and no
    goroutine stays parked on a closed ring. *)
Theorem no_lost_wakeup cap rb c (Hcap : 0 ≤ cap ≤ 2 ^ 62) (Hnew : NewRingBuffer cap = Some rb)
  (Hreach : rtc wstep (initial rb) c) :
  ∃ q, ring_rep (c_ring c) q ∧
    (rb_closed (c_ring c) = true → c_parked c = []) ∧
    (c_parked c ≠ [] → q ≠ [] →
     ∃ r1 w r2 m q', c_runnable c = r1 ++ w :: r2 ∧ q = m :: q' ∧
       ∀ now, ∃ rb', PopWait_check (w_deadline w) now (c_ring c) = Ret (Some m, true) rb' ∧
         wstep c (mkConfig rb' (c_parked c) (r1 ++ r2) (c_accepted c) (c_taken c ++ [m]))).
Proof.
  destruct (NewRingBuffer_run cap Hcap) as (rb0 & E & Hr & _). simplify_eq.
  destruct (reachable_inv _ _ _ (winv_initial _ Hr) Hreach) as [q Hinv].
  exists q. split_and!; [apply Hinv..|]. intros Hp Hq.
  pose proof (wi_wake _ _ Hinv Hp) as Hlen. pose proof (wi_rep _ _ Hinv) as Hrep.
  destruct q as [|m q]; [done|]. destruct c as [rbc p r acc tk]. simpl in *.
  destruct r as [|w r]; [simpl in Hlen; lia|].
  exists [], w, r, m, q. split_and!; [done..|]. intros now.
  destruct (PopWait_check_run rbc (m :: q) (w_deadline w) now Hrep) as (rb' & Erun & _).
  exists rb'. split; [done|]. by apply (step_take rbc rb' p [] r w acc tk now (Some m) true).
Qed.

(** C12: concurrent consumers never get a message twice and never get one that
    was not pushed; as long as no more than [ring_limit] (2^24) messages have
    been pushed, every accepted message has been handed to exactly one
    consumer or is still queued. *)
Theorem concurrent_exactly_once cap rb c (Hcap : 0 ≤ cap ≤ 2 ^ 62)
  (Hnew : NewRingBuffer cap = Some rb) (Hreach : rtc wstep (initial rb) c) :
  ∃ q, ring_rep (c_ring c) q ∧ c_taken c ++ q ⊆+ c_accepted c ∧
    (Z.of_nat (length (c_accepted c)) ≤ 16777216 → c_taken c ++ q ≡ₚ c_accepted c).
Proof.
  destruct (NewRingBuffer_run cap Hcap) as (rb0 & E & Hr & _). simplify_eq.
  destruct (reachable_inv _ _ _ (winv_initial _ Hr) Hreach) as [q Hinv].
  exists q. split_and!; [apply Hinv..|]. intros Hle. apply Hinv. unfold ring_limit. lia.
Qed.

(** ** Witnesses *)

Definition demo_ring : RingBuffer := mkRing (make_slice 1024) 0 0 1023 1024 false.

(** Two consumers call [PopWait(0)], both park, and one message is pushed. *)
Definition demo_config : config :=
  mkConfig (mkRing (mkSlice 1024 {[0 := Some 7%positive]}) 0 1 1023 1024 false)
    [mkWaiter 2 None] [mkWaiter 1 None] [7%positive] [].

Lemma demo_reachable : rtc wstep (initial demo_ring) demo_config.
Proof.
  eapply rtc_l; [apply (step_call demo_ring _ _ _ _ (mkWaiter 1 None))|].
  eapply rtc_l; [apply (step_park demo_ring demo_ring _ [] [] (mkWaiter 1 None) _ _ 0); by vm_compute|].
  eapply rtc_l; [apply (step_call demo_ring _ _ _ _ (mkWaiter 2 None))|].
  eapply rtc_l; [apply (step_park demo_ring demo_ring _ [] [] (mkWaiter 2 None) _ _ 0); by vm_compute|].
  apply rtc_once.
  apply (step_push demo_ring (c_ring demo_config) [mkWaiter 1 None; mkWaiter 2 None] [] [] [] 7).
  by vm_compute.
Qed.

Lemma no_lost_wakeup_witness :
  ∃ q, ring_rep (c_ring demo_config) q ∧ q ≠ [] ∧ c_parked demo_config ≠ [] ∧
       ∃ rb', PopWait_check None 0 (c_ring demo_config) = Ret (Some 7%positive, true) rb'.
Proof.
  destruct (no_lost_wakeup 0 demo_ring demo_config) as (q & Hr & _ & H);
    [lia|by vm_compute|apply demo_reachable|].
  assert (q ≠ []) as Hq. { intros ->. by pose proof (rep_count _ _ Hr). }
  exists q. split_and!; [done..|].
  destruct (H ltac:(done) Hq) as (r1 & w & r2 & m & q' & Er & -> & Hrun).
  destruct (Hrun 0) as (rb' & E & _).
  assert (w_deadline w = None) as Hd.
  { destruct r1 as [|w1 r1]; simplify_eq/=; [done|]. by destruct r1. }
  rewrite Hd in E. exists rb'. rewrite E. do 2 f_equal. vm_compute in E. congruence.
Defined.

Lemma concurrent_exactly_once_witness :
  ∃ q, ring_rep (c_ring demo_config) q ∧ c_taken demo_config ++ q ≡ₚ [7%positive].
Proof.
  destruct (concurrent_exactly_once 0 demo_ring demo_config) as (q & Hr & _ & H);
    [lia|by vm_compute|apply demo_reachable|].
  exists q. split; [done|]. apply H. simpl. lia.
Defined.
