(* ===== verification/TimingWheel.v ===== *)
(** * The timing wheel

    Models [src/internal/queue/timingwheel.go]: a circular array of buckets,
    each a linked list of (message, rounds) entries, that a ticker advances by
    one slot per interval.  A bucket is the list of its entries, head first;
    the [prev] links are written by the code and never read, and are not kept.

    The wheel calls [onExpire] for the messages that are due; the callback and
    the larger state it works on are parameters of this file ([Section wheel]),
    supplied by the topic that owns the wheel.

    [timers] reads off a wheel how many further calls of [advance] each message
    has to wait; [countdown_run] is the set of countdown timers the component
    promises, and [wheel_refines_countdown] says that the wheel implements it. *)

From S2P Require Import Prelude Message.

Record timerEntry : Type := mkEntry { te_msg : loc; te_rounds : Z }.

Record TimingWheel : Type := mkWheel {
  tw_interval : Z;
  tw_slots : Z;
  tw_buckets : slice (list timerEntry);
  tw_currentSlot : Z;
  tw_closed : bool
}.

Definition NewTimingWheel (interval slots : Z) : TimingWheel :=
  let slots := if slots <=? 0 then 3600 else slots in
  let interval := if interval <=? 0 then 50 * 1000000 else interval in
  mkWheel interval slots (make_slice slots) 0 false.

(** [ticks := int(delay / tw.interval); if ticks == 0 { ticks = 1 }] *)
Definition delay_ticks (delay interval : Z) : Z :=
  let ticks := delay `quot` interval in if ticks =? 0 then 1 else ticks.

(** The critical section of [Add]. *)
Definition schedule (msg : loc) (delay : Z) : prog TimingWheel unit :=
  tw ← get;
  if tw_closed tw then mret tt else
  let ticks := delay_ticks delay (tw_interval tw) in
  let rounds := ticks `quot` tw_slots tw in
  let targetSlot := i64 (tw_currentSlot tw + ticks `rem` tw_slots tw) `rem` tw_slots tw in
  bucket ← must (slice_get (tw_buckets tw) targetSlot);
  buckets ← must (slice_set (tw_buckets tw) targetSlot (mkEntry msg rounds :: bucket));
  put (mkWheel (tw_interval tw) (tw_slots tw) buckets (tw_currentSlot tw) (tw_closed tw)).

(** The loop of [advance] over one bucket: the messages to dispatch, in order,
    and the entries kept, each re-linked in front of the previous one. *)
Fixpoint scan_bucket (l : list timerEntry) (expired : list loc) (remaining : list timerEntry)
  : list loc * list timerEntry :=
  match l with
  | [] => (expired, remaining)
  | e :: l' => if te_rounds e <=? 0 then scan_bucket l' (expired ++ [te_msg e]) remaining
               else scan_bucket l' expired (mkEntry (te_msg e) (te_rounds e - 1) :: remaining)
  end.

(** The critical section of [advance]. *)
Definition tick : prog TimingWheel (list loc) :=
  tw ← get;
  let slot := tw_currentSlot tw in
  let currentSlot := i64 (slot + 1) `rem` tw_slots tw in
  bucket ← must (slice_get (tw_buckets tw) slot);
  let '(expired, remaining) := scan_bucket bucket [] [] in
  buckets ← must (slice_set (tw_buckets tw) slot remaining);
  put (mkWheel (tw_interval tw) (tw_slots tw) buckets currentSlot (tw_closed tw));;
  mret expired.

Definition Stop : prog TimingWheel unit := λ tw,
  if tw_closed tw then Ret tt tw
  else Ret tt (mkWheel (tw_interval tw) (tw_slots tw) (tw_buckets tw) (tw_currentSlot tw) true).

Section wheel.
Context {S : Type} (L : Lens S TimingWheel) (onExpire : option (loc → prog S unit)).

Definition fire (msg : loc) : prog S unit :=
  match onExpire with Some f => f msg | None => mret tt end.

Definition Add (msg : loc) (delay : Z) : prog S unit :=
  if delay <=? 0 then fire msg else zoom L (schedule msg delay).

Definition advance : prog S unit :=
  expired ← zoom L tick;
  forM expired fire.

(** The goroutine of the wheel, for the events it selects. *)
Definition run (events : list (option unit)) : prog S bool := ticker_loop (λ _, advance) events.
End wheel.

(** ** The promised timers *)

(** A message and the number of further [advance] calls before the one that
    dispatches it. *)
Abbreviation timer := (loc * Z)%type.

Definition due_now (t : timer) : bool := t.2 =? 0.

Definition cd_fires (ts : list timer) : list loc := fst <$> filter (λ t, due_now t = true) ts.

Definition cd_rest (ts : list timer) : list timer :=
  (λ t, (t.1, t.2 - 1)) <$> filter (λ t, due_now t = false) ts.

Inductive wheel_op : Type :=
| WAdd (msg : loc) (delay : Z)
| WTick.

(** Outputs: the messages dispatched by each tick. *)
Fixpoint countdown_run (interval : Z) (os : list wheel_op) (ts : list timer)
  : list (list loc) * list timer :=
  match os with
  | [] => ([], ts)
  | WAdd m d :: os' => countdown_run interval os' ((m, delay_ticks d interval) :: ts)
  | WTick :: os' => let '(outs, ts') := countdown_run interval os' (cd_rest ts) in
                    (cd_fires ts :: outs, ts')
  end.

Fixpoint wheel_run (os : list wheel_op) : prog TimingWheel (list (list loc)) :=
  match os with
  | [] => mret []
  | WAdd m d :: os' => schedule m d ≫= λ _, wheel_run os'
  | WTick :: os' => x ← tick; xs ← wheel_run os'; mret (x :: xs)
  end.

(** ** The invariant and the abstraction *)

Definition bucket (tw : TimingWheel) (s : Z) : list timerEntry := cell (tw_buckets tw) s.

Record wheel_ok (tw : TimingWheel) : Prop := mkWheelOk {
  ok_interval : 0 < tw_interval tw;
  ok_slots : 0 < tw_slots tw ≤ 2 ^ 62;
  ok_len : slen (tw_buckets tw) = tw_slots tw;
  ok_current : 0 ≤ tw_currentSlot tw < tw_slots tw;
  ok_rounds : ∀ s e, e ∈ bucket tw s → 0 ≤ te_rounds e
}.

Definition due (tw : TimingWheel) (s : Z) (e : timerEntry) : Z :=
  (s - tw_currentSlot tw) mod tw_slots tw + te_rounds e * tw_slots tw.

Definition timers (tw : TimingWheel) : list timer :=
  s ← seqZ 0 (tw_slots tw); (λ e, (te_msg e, due tw s e)) <$> bucket tw s.

(** ** Lists indexed by slots *)

Lemma bind_perm_pointwise {A B} (f g : A → list B) l :
  (∀ s, s ∈ l → f s ≡ₚ g s) → l ≫= f ≡ₚ l ≫= g.
Proof.
  induction l as [|s l IH]; intros H; [done|]. rewrite !bind_cons.
  rewrite H; [by left|]. apply Permutation_app_head, IH. intros s' Hs. apply H. by right.
Qed.

Lemma bind_nil {A B} (f : A → list B) l : (∀ s, s ∈ l → f s = []) → l ≫= f = [].
Proof.
  induction l as [|s l IH]; intros H; [done|]. rewrite !bind_cons.
  rewrite (H s); [by left|]. apply IH. intros s' Hs. apply H. by right.
Qed.

(** Only one slot contributes. *)
Lemma bind_single {A B} (f : A → list B) l t :
  NoDup l → t ∈ l → (∀ s, s ∈ l → s ≠ t → f s = []) → l ≫= f = f t.
Proof.
  intros Hnd Hin H. induction Hnd as [|s l Hs Hnd IH]; [by apply elem_of_nil in Hin|].
  rewrite !bind_cons. apply elem_of_cons in Hin as [->|Hin].
  - rewrite bind_nil; [|by rewrite app_nil_r].
    intros s' Hs'. apply H; [by right|]. by intros ->.
  - rewrite (H s); [by left|by intros ->|]. apply IH; [done|].
    intros s' ??. apply H; [by right|done].
Qed.

(** One slot gets one more element. *)
Lemma bind_insert {A B} (f g : A → list B) l t x :
  NoDup l → t ∈ l → (∀ s, s ∈ l → s ≠ t → g s = f s) → g t = x :: f t →
  l ≫= g ≡ₚ x :: (l ≫= f).
Proof.
  intros Hnd Hin Hne Ht. induction Hnd as [|s l Hs Hnd IH]; [by apply elem_of_nil in Hin|].
  rewrite !bind_cons. apply elem_of_cons in Hin as [->|Hin].
  - rewrite Ht /=. constructor. apply Permutation_app_head, bind_perm_pointwise.
    intros s' Hs'. rewrite Hne; [by right|by intros ->|done].
  - rewrite (Hne s); [by left|by intros ->|]. rewrite IH; [done| |].
    + intros s' ??. apply Hne; [by right|done].
    + by rewrite Permutation_middle.
Qed.

(** ** The specification is insensitive to the order of the timers *)

Global Instance cd_fires_proper : Proper ((≡ₚ) ==> (≡ₚ)) cd_fires.
Proof. intros ts ts' H. unfold cd_fires. by rewrite H. Qed.

Global Instance cd_rest_proper : Proper ((≡ₚ) ==> (≡ₚ)) cd_rest.
Proof. intros ts ts' H. unfold cd_rest. by rewrite H. Qed.

Lemma cd_fires_bind {A} (f : A → list timer) l :
  cd_fires (l ≫= f) = l ≫= (λ s, cd_fires (f s)).
Proof.
  unfold cd_fires. induction l as [|s l IH]; [done|].
  by rewrite !bind_cons filter_app fmap_app IH.
Qed.

Lemma cd_rest_bind {A} (f : A → list timer) l :
  cd_rest (l ≫= f) = l ≫= (λ s, cd_rest (f s)).
Proof.
  unfold cd_rest. induction l as [|s l IH]; [done|].
  by rewrite !bind_cons filter_app fmap_app IH.
Qed.

(** ** Slot arithmetic *)

Section slots.
Context (tw : TimingWheel) (Hok : wheel_ok tw).

Lemma seq_slot s : s ∈ seqZ 0 (tw_slots tw) ↔ 0 ≤ s < tw_slots tw.
Proof. rewrite elem_of_seqZ. lia. Qed.

Lemma current_in : 0 ≤ tw_currentSlot tw < slen (tw_buckets tw).
Proof. rewrite (ok_len _ Hok). apply Hok. Qed.

Lemma offset_zero s :
  0 ≤ s < tw_slots tw → (s - tw_currentSlot tw) mod tw_slots tw = 0 ↔ s = tw_currentSlot tw.
Proof.
  intros Hs. pose proof (ok_current _ Hok) as Hc. split.
  - intros E%Z.mod_divide; [|lia]. destruct E as [k E].
    assert (k = 0) by nia. lia.
  - intros ->. rewrite Z.sub_diag. apply Z.mod_0_l. lia.
Qed.

(** Moving the current slot forward brings every other slot one tick nearer. *)
Lemma offset_step s :
  0 ≤ s < tw_slots tw → s ≠ tw_currentSlot tw →
  (s - (tw_currentSlot tw + 1) mod tw_slots tw) mod tw_slots tw =
  (s - tw_currentSlot tw) mod tw_slots tw - 1.
Proof.
  intros Hs Hne. pose proof (ok_current _ Hok) as Hc.
  rewrite Zminus_mod_idemp_r.
  pose proof (Z.mod_pos_bound (s - tw_currentSlot tw) (tw_slots tw) ltac:(lia)) as Hb.
  assert ((s - tw_currentSlot tw) mod tw_slots tw ≠ 0) as Hnz.
  { by intros ?%offset_zero. }
  rewrite -(Z.mod_small ((s - tw_currentSlot tw) mod tw_slots tw - 1) (tw_slots tw)); [lia|].
  rewrite Zminus_mod_idemp_l. f_equal. lia.
Qed.

Lemma offset_wrap :
  (tw_currentSlot tw - (tw_currentSlot tw + 1) mod tw_slots tw) mod tw_slots tw = tw_slots tw - 1.
Proof.
  pose proof (ok_slots _ Hok). rewrite Zminus_mod_idemp_r.
  replace (tw_currentSlot tw - (tw_currentSlot tw + 1)) with (- 1) by lia.
  symmetry. apply (Z.mod_unique _ _ (- 1)); lia.
Qed.

Lemma next_slot :
  i64 (tw_currentSlot tw + 1) `rem` tw_slots tw = (tw_currentSlot tw + 1) mod tw_slots tw.
Proof.
  pose proof (ok_slots _ Hok). pose proof (ok_current _ Hok).
  rewrite i64_small; [unfold is_i64; lia|]. apply Z.rem_mod_nonneg; lia.
Qed.

Lemma target_slot ticks :
  0 < ticks →
  i64 (tw_currentSlot tw + ticks `rem` tw_slots tw) `rem` tw_slots tw =
  (tw_currentSlot tw + ticks) mod tw_slots tw.
Proof.
  intros Ht. pose proof (ok_slots _ Hok). pose proof (ok_current _ Hok).
  rewrite (Z.rem_mod_nonneg ticks); [lia..|].
  pose proof (Z.mod_pos_bound ticks (tw_slots tw) ltac:(lia)).
  rewrite i64_small; [unfold is_i64; lia|]. rewrite Z.rem_mod_nonneg; [lia..|].
  by rewrite Zplus_mod_idemp_r.
Qed.

Lemma target_due ticks msg :
  0 < ticks →
  due tw ((tw_currentSlot tw + ticks) mod tw_slots tw) (mkEntry msg (ticks `quot` tw_slots tw))
  = ticks.
Proof.
  intros Ht. pose proof (ok_slots _ Hok). unfold due. simpl.
  rewrite Zminus_mod_idemp_l.
  replace (tw_currentSlot tw + ticks - tw_currentSlot tw) with ticks by lia.
  rewrite Z.quot_div_nonneg; [lia..|]. pose proof (Z.div_mod ticks (tw_slots tw)). lia.
Qed.
End slots.

Lemma delay_ticks_pos delay interval : 0 < delay → 0 < interval → 0 < delay_ticks delay interval.
Proof.
  intros. unfold delay_ticks. rewrite Z.quot_div_nonneg; [lia..|].
  pose proof (Z.div_pos delay interval ltac:(lia) ltac:(lia)). ztest; lia.
Qed.

(** ** The operations on the abstract timers *)

Lemma schedule_run tw msg delay :
  wheel_ok tw → tw_closed tw = false → 0 < delay →
  ∃ tw', schedule msg delay tw = Ret tt tw' ∧ wheel_ok tw' ∧ tw_closed tw' = false ∧
         tw_interval tw' = tw_interval tw ∧
         timers tw' ≡ₚ (msg, delay_ticks delay (tw_interval tw)) :: timers tw.
Proof.
  intros Hok Ho Hd. pose proof (ok_slots _ Hok) as Hs.
  pose proof (delay_ticks_pos delay (tw_interval tw) Hd (ok_interval _ Hok)) as Ht.
  set (ticks := delay_ticks delay (tw_interval tw)) in *.
  set (t := (tw_currentSlot tw + ticks) mod tw_slots tw).
  assert (0 ≤ t < tw_slots tw) as Htr by (apply Z.mod_pos_bound; lia).
  unfold schedule. run. rewrite Ho. fold ticks. rewrite (target_slot tw Hok) // -/t.
  rewrite slice_get_in; [by rewrite (ok_len _ Hok)|].
  rewrite slice_set_in; [by rewrite (ok_len _ Hok)|].
  eexists. split; [done|].
  assert (∀ s, bucket (mkWheel (tw_interval tw) (tw_slots tw)
     (mkSlice (slen (tw_buckets tw)) (<[t := mkEntry msg (ticks `quot` tw_slots tw) ::
        cell (tw_buckets tw) t]> (cells (tw_buckets tw)))) (tw_currentSlot tw) false) s =
     if decide (t = s) then mkEntry msg (ticks `quot` tw_slots tw) :: bucket tw s
     else bucket tw s) as Hb.
  { intros s. unfold bucket. simpl. rewrite cell_insert. destruct (tw_buckets tw).
    by destruct (decide (t = s)) as [<-|]. }
  split; [|split_and!; [done..|]].
  - split; simpl; try apply Hok. intros s e. rewrite Hb. case_decide; [|apply Hok].
    rewrite elem_of_cons. intros [->|He]; [|by eapply ok_rounds].
    apply Z.quot_pos; lia.
  - unfold timers. cbn [tw_slots]. apply (bind_insert _ _ _ t).
    + apply NoDup_seqZ.
    + by apply seq_slot.
    + intros s _ Hne. by rewrite Hb decide_False.
    + rewrite Hb decide_True //=. do 2 f_equal. exact (target_due tw Hok ticks msg Ht).
Qed.

Lemma schedule_closed tw msg delay : tw_closed tw = true → schedule msg delay tw = Ret tt tw.
Proof. intros Ho. unfold schedule. run. by rewrite Ho. Qed.

(** What the bucket loop computes, on an accumulator. *)
Lemma scan_bucket_spec l exp rem :
  scan_bucket l exp rem =
    (exp ++ (te_msg <$> filter (λ e, te_rounds e ≤ 0) l),
     reverse ((λ e, mkEntry (te_msg e) (te_rounds e - 1)) <$> filter (λ e, ¬ te_rounds e ≤ 0) l)
       ++ rem).
Proof.
  revert exp rem. induction l as [|e l IH]; intros exp rem; simpl.
  { by rewrite app_nil_r. }
  destruct (Z.leb_spec (te_rounds e) 0) as [Hle|Hgt]; rewrite IH.
  - rewrite !filter_cons decide_True // decide_False; [lia|].
    by rewrite fmap_cons -app_assoc.
  - rewrite !filter_cons decide_False; [lia|]. rewrite decide_True; [lia|].
    by rewrite fmap_cons reverse_cons -app_assoc.
Qed.

(** The entries of one slot, seen as timers before and after a tick. *)
Section tick_slot.
Context (tw : TimingWheel) (Hok : wheel_ok tw).

Lemma slot_fires s l :
  0 ≤ s < tw_slots tw → (∀ e, e ∈ l → 0 ≤ te_rounds e) →
  cd_fires ((λ e, (te_msg e, due tw s e)) <$> l) =
    if decide (s = tw_currentSlot tw) then te_msg <$> filter (λ e, te_rounds e ≤ 0) l else [].
Proof.
  intros Hs Hl. pose proof (ok_slots _ Hok) as Hsl. pose proof (offset_zero tw Hok s Hs) as Hz.
  pose proof (Z.mod_pos_bound (s - tw_currentSlot tw) (tw_slots tw) ltac:(lia)) as Hb.
  unfold cd_fires. induction l as [|e l IH]; [by case_decide|].
  assert (0 ≤ te_rounds e) as He by (apply Hl; left).
  rewrite fmap_cons !filter_cons.
  assert (∀ e', e' ∈ l → 0 ≤ te_rounds e') as Hl' by (intros e' H; apply Hl; by right).
  specialize (IH Hl'). destruct (decide (s = tw_currentSlot tw)) as [E|E].
  - destruct (decide (te_rounds e ≤ 0)).
    + rewrite decide_True; [apply Z.eqb_eq; unfold due; rewrite /= (proj2 Hz E); nia|].
      by rewrite !fmap_cons IH.
    + rewrite decide_False; [|done].
      unfold due_now, due. rewrite Z.eqb_eq /= (proj2 Hz E). nia.
  - rewrite decide_False; [|done]. unfold due_now, due. rewrite Z.eqb_eq /=.
    intros ?. apply E, Hz. nia.
Qed.

Lemma slot_rest_other s l :
  0 ≤ s < tw_slots tw → s ≠ tw_currentSlot tw → (∀ e, e ∈ l → 0 ≤ te_rounds e) →
  cd_rest ((λ e, (te_msg e, due tw s e)) <$> l) =
    (λ e, (te_msg e, due tw s e - 1)) <$> l.
Proof.
  intros Hs Hne Hl. pose proof (ok_slots _ Hok) as Hsl.
  pose proof (offset_zero tw Hok s Hs) as Hz.
  pose proof (Z.mod_pos_bound (s - tw_currentSlot tw) (tw_slots tw) ltac:(lia)) as Hb.
  unfold cd_rest. induction l as [|e l IH]; [done|].
  assert (0 ≤ te_rounds e) as He by (apply Hl; left).
  rewrite !fmap_cons filter_cons.
  rewrite decide_True; [apply Z.eqb_neq; unfold due; simpl; intros ?; apply Hne, Hz; nia|].
  rewrite fmap_cons. f_equal. apply IH. intros e' H. apply Hl. by right.
Qed.

Lemma slot_rest_current l :
  (∀ e, e ∈ l → 0 ≤ te_rounds e) →
  cd_rest ((λ e, (te_msg e, due tw (tw_currentSlot tw) e)) <$> l) =
    (λ e, (te_msg e, te_rounds e * tw_slots tw - 1)) <$> filter (λ e, ¬ te_rounds e ≤ 0) l.
Proof.
  intros Hl. pose proof (ok_slots _ Hok) as Hsl.
  unfold cd_rest. induction l as [|e l IH]; [done|].
  assert (0 ≤ te_rounds e) as He by (apply Hl; left).
  rewrite !fmap_cons !filter_cons.
  assert (due tw (tw_currentSlot tw) e = te_rounds e * tw_slots tw) as Hd.
  { unfold due. rewrite Z.sub_diag Z.mod_0_l; lia. }
  assert (∀ e', e' ∈ l → 0 ≤ te_rounds e') as Hl' by (intros e' H; apply Hl; by right).
  destruct (decide (te_rounds e ≤ 0)).
  - rewrite decide_False; [rewrite Hd Z.eqb_neq /=; nia|].
    rewrite decide_False; [tauto|]. by apply IH.
  - rewrite decide_True; [apply Z.eqb_neq; rewrite Hd /=; nia|]. rewrite decide_True; [done|].
    rewrite !fmap_cons Hd. f_equal. by apply IH.
Qed.
End tick_slot.

Lemma tick_run tw :
  wheel_ok tw →
  ∃ tw', tick tw = Ret (cd_fires (timers tw)) tw' ∧ wheel_ok tw' ∧
         tw_closed tw' = tw_closed tw ∧ tw_interval tw' = tw_interval tw ∧
         timers tw' ≡ₚ cd_rest (timers tw).
Proof.
  intros Hok. pose proof (ok_slots _ Hok) as Hsl. pose proof (ok_current _ Hok) as Hcur.
  unfold tick. run. rewrite slice_get_in; [by apply current_in|].
  rewrite -/(bucket tw _) scan_bucket_spec app_nil_l app_nil_r.
  rewrite slice_set_in; [by apply current_in|]. rewrite next_slot //.
  set (kept := reverse _).
  set (tw' := mkWheel _ _ _ _ _).
  assert (∀ s, bucket tw' s = if decide (tw_currentSlot tw = s) then kept else bucket tw s) as Hb.
  { intros s. unfold bucket. simpl. rewrite cell_insert. by destruct (tw_buckets tw). }
  exists tw'. split_and!; try done.
  - f_equal. unfold timers. rewrite cd_fires_bind.
    rewrite (bind_single _ _ (tw_currentSlot tw)).
    + apply NoDup_seqZ.
    + by apply seq_slot.
    + intros s Hs%seq_slot Hne. rewrite slot_fires //; [by apply ok_rounds|]. by rewrite decide_False.
    + rewrite slot_fires //; [by apply ok_rounds|]. by rewrite decide_True.
  - split; simpl; try apply Hok; [by apply Z.mod_pos_bound; lia|].
    intros s e. rewrite Hb. case_decide; [|by apply ok_rounds].
    unfold kept. rewrite elem_of_reverse. intros (e0 & -> & [Hr _]%list_elem_of_filter)%list_elem_of_fmap.
    simpl. lia.
  - unfold timers. rewrite cd_rest_bind. apply bind_perm_pointwise.
    intros s Hs%seq_slot. rewrite Hb. destruct (decide (tw_currentSlot tw = s)) as [<-|Hne].
    + rewrite slot_rest_current //; [by apply ok_rounds|]. unfold kept.
      rewrite fmap_reverse reverse_Permutation -list_fmap_compose.
      apply (reflexive_eq (R := (≡ₚ))), list_fmap_ext. intros i e _. simpl. f_equal.
      unfold due. simpl. rewrite (offset_wrap tw Hok). lia.
    + rewrite slot_rest_other //; [by apply ok_rounds|].
      apply (reflexive_eq (R := (≡ₚ))), list_fmap_ext. intros i e _. f_equal.
      unfold due. simpl. rewrite (offset_step tw Hok) //. lia.
Qed.

(** ** Sequences of operations *)

Definition op_ok (o : wheel_op) : Prop := match o with WAdd _ d => 0 < d | WTick => True end.

Global Instance op_ok_dec o : Decision (op_ok o).
Proof. destruct o; simpl; apply _. Defined.

Lemma wheel_run_sim os tw ts :
  wheel_ok tw → tw_closed tw = false → Forall op_ok os → timers tw ≡ₚ ts →
  ∃ outs tw', wheel_run os tw = Ret outs tw' ∧ wheel_ok tw' ∧ tw_closed tw' = false ∧
    Forall2 (≡ₚ) outs (countdown_run (tw_interval tw) os ts).1 ∧
    timers tw' ≡ₚ (countdown_run (tw_interval tw) os ts).2.
Proof.
  intros Hok Ho Hos. revert tw ts Hok Ho. induction Hos as [|o os Hpos Hos IH]; intros tw ts Hok Ho Hts.
  { exists [], tw. by split_and!. }
  destruct o as [m d|]; cbn [wheel_run countdown_run]; run.
  - destruct (schedule_run tw m d Hok Ho Hpos) as (tw1 & -> & Hok1 & Ho1 & Hi1 & Ht1).
    rewrite -Hi1. apply IH; [done..|]. by rewrite Ht1 Hts Hi1.
  - destruct (tick_run tw Hok) as (tw1 & -> & Hok1 & Ho1 & Hi1 & Ht1).
    destruct (IH tw1 (cd_rest ts) Hok1) as (outs & tw2 & -> & Hok2 & Ho2 & Hout & Ht2);
      [by rewrite Ho1|by rewrite Ht1 Hts|]. rewrite Hi1 in Hout Ht2.
    exists (cd_fires (timers tw) :: outs), tw2.
    destruct (countdown_run (tw_interval tw) os (cd_rest ts)). simpl in *.
    split_and!; try done. constructor; [by rewrite Hts|done].
Qed.

(** How often a tick dispatches a message. *)
Definition times (m : loc) (out : list loc) : nat := length (filter (λ x, x = m) out).

(** The number of timers of a message that have [x] further ticks to wait. *)
Definition waiting (m : loc) (x : Z) (ts : list timer) : nat := length (filter (λ t, t = (m, x)) ts).

Lemma cd_fires_times m ts : times m (cd_fires ts) = waiting m 0 ts.
Proof.
  unfold times, waiting, cd_fires, due_now. induction ts as [|[l x] ts IH]; [done|]. rewrite !filter_cons. cbn [snd].
  destruct (decide ((x =? 0) = true)) as [->%Z.eqb_eq|Hx].
  - rewrite fmap_cons filter_cons. cbn [fst]. destruct (decide (l = m)) as [->|Hl].
    + destruct (decide _) as [_|[]]; [|done]. cbn [length]. by rewrite IH.
    + destruct (decide _) as [[= ?]|_]; [done|exact IH].
  - destruct (decide _) as [[= _ ->]|_]; [done|exact IH].
Qed.

Lemma cd_rest_waiting m x ts : 0 ≤ x → waiting m x (cd_rest ts) = waiting m (x + 1) ts.
Proof.
  intros Hx. unfold waiting, cd_rest, due_now. induction ts as [|[l y] ts IH]; [done|]. rewrite !filter_cons. cbn [snd].
  destruct (decide ((y =? 0) = false)) as [Hy%Z.eqb_neq|Hy].
  - rewrite fmap_cons filter_cons. cbn [fst snd]. destruct (decide ((l, y) = (m, x + 1))) as [[= -> ->]|E].
    + destruct (decide _) as [_|[]]; [|f_equal; lia]. cbn [length]. by rewrite IH.
    + destruct (decide _) as [[= -> ?]|_]; [|exact IH]. destruct E. f_equal. lia.
  - destruct (decide _) as [[= _ ->]|_]; [|exact IH]. destruct Hy. apply Z.eqb_neq. lia.
Qed.

(** The [i]-th tick dispatches [m] as often as [m] had a countdown of [i]. *)
Lemma countdown_out_times interval os ts m i out :
  (∀ d, WAdd m d ∉ os) → (countdown_run interval os ts).1 !! i = Some out →
  times m out = waiting m (Z.of_nat i) ts.
Proof.
  revert ts i. induction os as [|o os IH]; intros ts i Hno Hi; [done|].
  assert (∀ d, WAdd m d ∉ os) as Hno' by (intros d Hd; apply (Hno d); by right).
  destruct o as [m' d'|]; simpl in Hi.
  - rewrite (IH _ _ Hno' Hi). unfold waiting. rewrite filter_cons decide_False //.
    intros [= -> _]. apply (Hno d'). by left.
  - destruct (countdown_run interval os (cd_rest ts)) as [outs ts'] eqn:E. simpl in Hi.
    destruct i as [|i]; simplify_eq/=.
    + apply cd_fires_times.
    + rewrite (IH (cd_rest ts) i Hno'); [by rewrite E|]. rewrite cd_rest_waiting; [lia|].
      by replace (Z.of_nat i + 1) with (Z.of_nat (S i)) by lia.
Qed.

Lemma waiting_none m x ts : (∀ y, (m, y) ∉ ts) → waiting m x ts = 0%nat.
Proof.
  intros Hno. unfold waiting. induction ts as [|t ts IH]; [done|]. rewrite filter_cons decide_False.
  - intros ->. apply (Hno x). by left.
  - apply IH. intros y Hy. apply (Hno y). by right.
Qed.

(** The number of ticks of a sequence of operations. *)
Fixpoint tick_count (os : list wheel_op) : nat :=
  match os with [] => 0 | WAdd _ _ :: os' => tick_count os' | WTick :: os' => S (tick_count os') end.

Lemma countdown_run_length interval os : ∀ ts, length (countdown_run interval os ts).1 = tick_count os.
Proof.
  induction os as [|[m d|] os IH]; intros ts; [done|apply IH|]. cbn [countdown_run tick_count].
  rewrite -(IH (cd_rest ts)). by destruct (countdown_run interval os (cd_rest ts)).
Qed.

Lemma NewTimingWheel_ok interval slots :
  slots ≤ 2 ^ 62 →
  let tw := NewTimingWheel interval slots in
  wheel_ok tw ∧ tw_closed tw = false ∧ timers tw = [].
Proof.
  intros Hs tw. unfold tw, NewTimingWheel. split_and!; [split; simpl|done|].
  - ztest; lia.
  - ztest; lia.
  - done.
  - ztest; lia.
  - intros s e. unfold bucket. simpl. rewrite cell_make. by intros ?%elem_of_nil.
  - unfold timers. simpl. apply bind_nil. intros s _. unfold bucket. simpl. by rewrite cell_make.
Qed.

(** The message is dispatched once, by the tick its delay asks for. *)
Lemma schedule_dispatch tw msg delay os :
  wheel_ok tw → tw_closed tw = false → 0 < delay → Forall op_ok os →
  (∀ x, (msg, x) ∉ timers tw) → (∀ d, WAdd msg d ∉ os) →
  ∃ tw1 outs tw2, schedule msg delay tw = Ret tt tw1 ∧ wheel_run os tw1 = Ret outs tw2 ∧
    length outs = tick_count os ∧
    ∀ i out, outs !! i = Some out →
      times msg out = if decide (Z.of_nat i = delay_ticks delay (tw_interval tw)) then 1%nat else 0%nat.
Proof.
  intros Hok Ho Hd Hos Hnew Hno.
  destruct (schedule_run tw msg delay Hok Ho Hd) as (tw1 & E1 & Hok1 & Ho1 & Hi1 & Ht1).
  destruct (wheel_run_sim os tw1 _ Hok1 Ho1 Hos Ht1) as (outs & tw2 & E2 & _ & _ & Hout & _).
  rewrite Hi1 in Hout. exists tw1, outs, tw2. split_and!; [done..| |].
  - by rewrite (Forall2_length _ _ _ Hout) countdown_run_length.
  - intros i out Hi. destruct (Forall2_lookup_l _ _ _ _ _ Hout Hi) as (out' & Hi' & Hp).
    unfold times. rewrite Hp. rewrite -/(times msg out') (countdown_out_times _ _ _ _ _ _ Hno Hi').
    pose proof (waiting_none msg (Z.of_nat i) _ Hnew) as Hw. unfold waiting in Hw |- *. rewrite filter_cons.
    destruct (decide (Z.of_nat i = _)) as [E|Hne].
    + rewrite -E. destruct (decide _) as [_|[]]; [|done]. cbn [length]. by rewrite Hw.
    + destruct (decide _) as [[= ?]|_]; [by destruct Hne|done].
Qed.

(** ** Properties *)

(** C15: the wheel is a set of countdown timers.  Any sequence of scheduling
    calls and ticks on a well-formed wheel runs without a panic, keeps the
    wheel well formed, and each tick dispatches (in some order) exactly the
    messages whose countdown has reached zero: no message is lost, dispatched
    twice, or dispatched in another round of the wheel. *)
Theorem wheel_refines_countdown os tw (Hok : wheel_ok tw) (Ho : tw_closed tw = false)
  (Hos : Forall op_ok os) :
  ∃ outs tw', wheel_run os tw = Ret outs tw' ∧ wheel_ok tw' ∧
    Forall2 (≡ₚ) outs (countdown_run (tw_interval tw) os (timers tw)).1 ∧
    timers tw' ≡ₚ (countdown_run (tw_interval tw) os (timers tw)).2.
Proof.
  destruct (wheel_run_sim os tw (timers tw) Hok Ho Hos) as (outs & tw' & ? & ? & _ & ? & ?); [done|].
  by exists outs, tw'.
Qed.


(** The delay is not a lower bound.  A message added with a delay of
    99 ms to a new 50 ms wheel just before a tick is dispatched 50.000001 ms
    later, 49 ms before its delay has elapsed. *)
Theorem delayed_message_early :
  let ms := 1000000 in
  let tw := NewTimingWheel (50 * ms) 3600 in
  let a := 50 * ms - 1 in
  ∃ tw1 tw2, schedule 1 (99 * ms) tw = Ret tt tw1 ∧
    wheel_run [WTick; WTick] tw1 = Ret [[]; [1%positive]] tw2 ∧
    (0 + (0 + 1 + 1) * (50 * ms)) - a = 50 * ms + 1 ∧ 50 * ms + 1 < 99 * ms.
Proof. eexists _, _. split_and!; [vm_compute; reflexivity|vm_compute; reflexivity|done|done]. Qed.

(** ** Witnesses *)

Definition demo_wheel : TimingWheel := NewTimingWheel (50 * 1000000) 3.

Lemma demo_wheel_fresh m x : (m, x) ∉ timers demo_wheel.
Proof.
  destruct (NewTimingWheel_ok (50 * 1000000) 3 ltac:(lia)) as (_ & _ & E).
  unfold demo_wheel. rewrite E. apply not_elem_of_nil.
Qed.

(** A 3-slot wheel: a delay of 4 ticks needs one full round. *)
Lemma wheel_refines_countdown_witness :
  ∃ tw', wheel_run [WAdd 1 (200 * 1000000); WTick; WAdd 2 1; WTick; WTick; WTick; WTick] demo_wheel
         = Ret [[]; []; [2]; []; [1]]%positive tw' ∧ wheel_ok tw'.
Proof.
  destruct (NewTimingWheel_ok (50 * 1000000) 3 ltac:(lia)) as (Hok & Ho & _).
  destruct (wheel_refines_countdown
    [WAdd 1 (200 * 1000000); WTick; WAdd 2 1; WTick; WTick; WTick; WTick] demo_wheel Hok Ho)
    as (outs & tw' & E & Hok' & _); [by apply (bool_decide_unpack (Forall op_ok _))|].
  exists tw'. split; [|done]. rewrite E. f_equal. vm_compute in E. congruence.
Defined.

