(* ===== verification/DeadLetter.v ===== *)
(** * The dead letter queue

    Models [src/internal/queue/dlq.go]: a bounded map from message IDs to
    failed messages, with their insertion order.  [Add] clones the message, so
    it also changes the store.  The reader count of the [sync.RWMutex] is kept
    because [Get] does not use it correctly: releasing a read lock that is not
    held is a fatal error of the Go runtime.

    [dlq_view] reads the queue as an association list in insertion order, the
    structure the operations are specified on. *)

From S2P Require Import Prelude Message.

Record DeadLetterEntry : Type := mkDLE {
  dle_Message : loc;
  dle_FailedAt : Z;
  dle_FailureCause : string;
  dle_Attempts : Z
}.

Record DeadLetterQueue : Type := mkDLQ {
  dlq_entries : gmap string DeadLetterEntry;
  dlq_order : list string;
  dlq_maxSize : Z;
  dlq_readers : Z
}.

Definition NewDeadLetterQueue (maxSize : Z) : DeadLetterQueue :=
  mkDLQ ∅ [] (if maxSize <=? 0 then 50000 else maxSize) 0.

Definition RLock : prog DeadLetterQueue unit := λ d,
  Ret tt (mkDLQ (dlq_entries d) (dlq_order d) (dlq_maxSize d) (dlq_readers d + 1)).

Definition RUnlock : prog DeadLetterQueue unit := λ d,
  if dlq_readers d <=? 0 then Panic
  else Ret tt (mkDLQ (dlq_entries d) (dlq_order d) (dlq_maxSize d) (dlq_readers d - 1)).

(** "If at capacity, evict oldest" *)
Definition evict (d : DeadLetterQueue) : DeadLetterQueue :=
  match dlq_order d with
  | oldestID :: order' =>
      if dlq_maxSize d <=? Z.of_nat (size (dlq_entries d))
      then mkDLQ (delete oldestID (dlq_entries d)) order' (dlq_maxSize d) (dlq_readers d)
      else d
  | [] => d
  end.

Definition insert_entry (id : string) (entry : DeadLetterEntry) (d : DeadLetterQueue)
  : DeadLetterQueue :=
  let order := match dlq_entries d !! id with
               | Some _ => dlq_order d
               | None => dlq_order d ++ [id]
               end in
  mkDLQ (<[id := entry]> (dlq_entries d)) order (dlq_maxSize d) (dlq_readers d).

Definition Add (msg : loc) (cause : string) (now : Z) : prog (Store * DeadLetterQueue) unit :=
  modify lens_snd evict;;
  clone ← zoom lens_fst (Clone msg);
  m ← zoom lens_fst (load msg);
  modify lens_snd (insert_entry (msg_ID m) (mkDLE clone now cause (msg_RetryCount m))).

(** [Get] starts with [dlq.mu.RUnlock()] where [RLock] is meant. *)
Definition Get (id : string) : prog DeadLetterQueue (option DeadLetterEntry) :=
  RUnlock;;
  d ← get;
  let entry := dlq_entries d !! id in
  RUnlock;;
  mret entry.

(** [for i := offset; i < end; i++ { ... }], [n] iterations. *)
Fixpoint list_loop (n : nat) (i : Z) (d : DeadLetterQueue) : option (list DeadLetterEntry) :=
  match n with
  | O => Some []
  | S n' =>
      if decide (0 ≤ i) then
        id ← dlq_order d !! Z.to_nat i;
        rest ← list_loop n' (i + 1) d;
        Some (match dlq_entries d !! id with Some entry => entry :: rest | None => rest end)
      else None
  end.

(** [List]; the result is [None] for Go's [nil] slice. *)
Definition List_ (offset limit : Z) : prog DeadLetterQueue (option (list DeadLetterEntry)) :=
  RLock;;
  d ← get;
  let total := Z.of_nat (length (dlq_order d)) in
  if total <=? offset then RUnlock;; mret None else
  let end_ := i64 (offset + limit) in
  let end_ := if total <? end_ then total else end_ in
  if i64 (end_ - offset) <? 0 then panic (* make: cap out of range *) else
  result ← must (list_loop (Z.to_nat (end_ - offset)) offset d);
  RUnlock;; mret (Some result).

(** The loop of [Remove] that deletes the first occurrence of [id]. *)
Fixpoint remove_first (id : string) (order : list string) : list string :=
  match order with
  | [] => []
  | oid :: order' => if decide (oid = id) then order' else oid :: remove_first id order'
  end.

Definition Remove (id : string) : prog DeadLetterQueue (option loc * bool) :=
  d ← get;
  match dlq_entries d !! id with
  | None => mret (None, false)
  | Some entry =>
      put (mkDLQ (delete id (dlq_entries d)) (remove_first id (dlq_order d)) (dlq_maxSize d)
             (dlq_readers d));;
      mret (Some (dle_Message entry), true)
  end.

Definition dlq_Len : prog DeadLetterQueue Z :=
  RLock;; d ← get; RUnlock;; mret (Z.of_nat (size (dlq_entries d))).

Definition Purge : prog DeadLetterQueue Z :=
  d ← get;
  put (mkDLQ ∅ [] (dlq_maxSize d) (dlq_readers d));;
  mret (Z.of_nat (size (dlq_entries d))).

(** ** The invariant and the abstract view *)

Record dlq_ok (d : DeadLetterQueue) : Prop := mkDlqOk {
  dok_nodup : NoDup (dlq_order d);
  dok_dom : ∀ id, id ∈ dlq_order d ↔ is_Some (dlq_entries d !! id);
  dok_max : 0 < dlq_maxSize d;
  dok_bound : Z.of_nat (length (dlq_order d)) ≤ dlq_maxSize d;
  dok_readers : dlq_readers d = 0
}.

Definition dlq_view (d : DeadLetterQueue) : list (string * DeadLetterEntry) :=
  omap (λ id, pair id <$> dlq_entries d !! id) (dlq_order d).

(** The specification: an association list in insertion order. *)
Definition assoc_trim (maxSize : Z) (l : list (string * DeadLetterEntry)) :=
  if maxSize <=? Z.of_nat (length l) then list.tail l else l.

Definition assoc_put (id : string) (e : DeadLetterEntry) (l : list (string * DeadLetterEntry)) :=
  if decide (id ∈ l.*1) then (λ p, if decide (p.1 = id) then (id, e) else p) <$> l
  else l ++ [(id, e)].

(** ** Lemmas *)

Section view.
Context (d : DeadLetterQueue) (Hok : dlq_ok d).

Lemma view_keys : (dlq_view d).*1 = dlq_order d.
Proof.
  unfold dlq_view. pose proof (dok_dom _ Hok) as Hdom.
  assert (∀ id, id ∈ dlq_order d → is_Some (dlq_entries d !! id)) as H by (intros; by apply Hdom).
  clear Hdom. induction (dlq_order d) as [|id o IH]; [done|]. simpl.
  destruct (H id) as [e ->]; [by left|]. simpl. f_equal. apply IH. intros id' ?. apply H. by right.
Qed.

Lemma view_length : length (dlq_view d) = length (dlq_order d).
Proof. by rewrite -view_keys length_fmap. Qed.

Lemma view_elem id e : (id, e) ∈ dlq_view d ↔ dlq_entries d !! id = Some e.
Proof.
  unfold dlq_view. rewrite list_elem_of_omap. split.
  - intros (id' & _ & E). destruct (dlq_entries d !! id') eqn:H; simplify_eq/=. done.
  - intros H. exists id. rewrite H. split; [|done]. apply (dok_dom _ Hok). eauto.
Qed.

Lemma entries_size : size (dlq_entries d) = length (dlq_order d).
Proof.
  rewrite -size_dom.
  assert (dom (dlq_entries d) = list_to_set (dlq_order d)) as ->.
  { apply set_eq. intros id. by rewrite elem_of_dom elem_of_list_to_set (dok_dom _ Hok). }
  apply size_list_to_set, Hok.
Qed.
End view.

(** The view only depends on the entries named in the order. *)
Lemma view_ext (o : list string) (m1 m2 : gmap string DeadLetterEntry) :
  (∀ id, id ∈ o → m1 !! id = m2 !! id) →
  omap (λ id, pair id <$> m1 !! id) o = omap (λ id, pair id <$> m2 !! id) o.
Proof.
  intros H. induction o as [|id o IH]; [done|]. csimpl. rewrite (H id); [by left|].
  by destruct (m2 !! id); simpl; rewrite IH //; intros id' ?; apply H; right.
Qed.

Lemma evict_spec d :
  dlq_ok d →
  dlq_ok (evict d) ∧ dlq_maxSize (evict d) = dlq_maxSize d ∧
  Z.of_nat (length (dlq_order (evict d))) < dlq_maxSize d ∧
  dlq_view (evict d) = assoc_trim (dlq_maxSize d) (dlq_view d).
Proof.
  intros Hok. unfold evict, assoc_trim. rewrite (view_length _ Hok) (entries_size _ Hok).
  pose proof Hok as [Hnd Hdom Hmax Hb Hr]. destruct (dlq_order d) as [|id o] eqn:Ho.
  { rewrite Ho /= (proj2 (Z.leb_gt _ _)); [simpl; lia|]. by split_and!. }
  destruct (Z.leb_spec (dlq_maxSize d) (Z.of_nat (length (id :: o)))) as [Hge|Hlt].
  2: { rewrite Ho. split_and!; [done|done|done|done]. }
  apply NoDup_cons in Hnd as [Hni Hnd]. simpl in Hb, Hge. split_and!; [split; simpl| | |].
  - done.
  - intros id'. destruct (decide (id = id')) as [<-|Hne].
    + rewrite lookup_delete_eq. split; [done|]. by intros [? ?].
    + rewrite lookup_delete_ne // -Hdom elem_of_cons.
      split; [by right|]. by intros [->|].
  - done.
  - lia.
  - done.
  - done.
  - simpl. lia.
  - unfold dlq_view. rewrite Ho /=. destruct (proj1 (Hdom id)) as [e He]; [by left|].
    rewrite He /=. apply view_ext. intros id' Hin. apply lookup_delete_ne. by intros <-.
Qed.

Lemma insert_entry_spec d id e :
  dlq_ok d → Z.of_nat (length (dlq_order d)) < dlq_maxSize d →
  dlq_ok (insert_entry id e d) ∧ dlq_view (insert_entry id e d) = assoc_put id e (dlq_view d).
Proof.
  intros Hok Hlt. pose proof Hok as [Hnd Hdom Hmax Hb Hr].
  unfold insert_entry, assoc_put. rewrite (view_keys _ Hok).
  destruct (dlq_entries d !! id) as [e0|] eqn:Hid.
  - assert (id ∈ dlq_order d) as Hin by (apply Hdom; eauto). rewrite decide_True //.
    split; [split; simpl; try done|].
    + intros id'. rewrite lookup_insert. case_decide as E; [subst|done]. naive_solver.
    + unfold dlq_view. simpl. clear -Hdom.
      assert (∀ id', id' ∈ dlq_order d → is_Some (dlq_entries d !! id')) as H
        by (intros; by apply Hdom).
      clear Hdom. induction (dlq_order d) as [|id' o IH]; [done|]. csimpl.
      destruct (H id') as [e' He']; [by left|].
      assert (∀ id', id' ∈ o → is_Some (dlq_entries d !! id')) as H' by (intros; apply H; by right).
      rewrite lookup_insert. destruct (decide (id = id')) as [<-|Hne].
      * rewrite He' /= decide_True // (IH H'). done.
      * rewrite He' /= decide_False // (IH H'). done.
  - assert (id ∉ dlq_order d) as Hni by (rewrite Hdom Hid; by intros [? ?]).
    rewrite decide_False //. split; [split; simpl; try done|].
    + apply NoDup_app. split_and!; [done| |apply NoDup_singleton].
      intros id' Hin ->%list_elem_of_singleton. done.
    + intros id'. rewrite elem_of_app list_elem_of_singleton Hdom lookup_insert.
      case_decide as E; [subst; naive_solver|]. naive_solver.
    + rewrite length_app /=. lia.
    + unfold dlq_view. simpl. rewrite omap_app /= lookup_insert_eq /=. f_equal.
      apply view_ext. intros id' Hin. apply lookup_insert_ne. by intros ->.
Qed.

Lemma Add_run σ d msg m cause now :
  dlq_ok d → heap σ !! msg = Some m →
  let clone := fresh (dom (heap σ)) in
  let e := mkDLE clone now cause (msg_RetryCount m) in
  ∃ d', Add msg cause now (σ, d) =
          Ret tt (mkStore (<[clone := m]> (heap σ)) (globalSeq σ), d') ∧
        dlq_ok d' ∧ dlq_maxSize d' = dlq_maxSize d ∧
        dlq_view d' = assoc_put (msg_ID m) e (assoc_trim (dlq_maxSize d) (dlq_view d)).
Proof.
  intros Hok Hm clone e. unfold Add. run. rewrite (Clone_run σ msg m Hm). unfold load. run.
  cbn [heap]. fold clone. rewrite lookup_insert_ne.
  { intros E. pose proof (alloc_fresh σ) as Hf. fold clone in Hf. rewrite E Hm in Hf. done. }
  rewrite Hm. destruct (evict_spec d Hok) as (Hok1 & Hmx & Hlt & Hv).
  destruct (insert_entry_spec (evict d) (msg_ID m) e Hok1) as [Hok2 Hv2]; [by rewrite Hmx|].
  eexists. split; [done|]. rewrite -Hv. split_and!; done.
Qed.

Lemma remove_first_spec id o : NoDup o → remove_first id o = filter (λ x, x ≠ id) o.
Proof.
  intros Hnd. induction Hnd as [|x o Hx Hnd IH]; [done|]. simpl. rewrite filter_cons.
  destruct (decide (x = id)) as [->|Hne].
  - rewrite decide_False; [tauto|]. symmetry. clear -Hx. induction o as [|y o IH]; [done|].
    rewrite filter_cons decide_True; [intros ->; apply Hx; by left|].
    f_equal. apply IH. intros ?. apply Hx. by right.
  - by rewrite decide_True // IH.
Qed.

Lemma Remove_run d id :
  dlq_ok d →
  match dlq_entries d !! id with
  | None => Remove id d = Ret (None, false) d
  | Some e => ∃ d', Remove id d = Ret (Some (dle_Message e), true) d' ∧ dlq_ok d' ∧
                dlq_maxSize d' = dlq_maxSize d ∧ dlq_entries d' = delete id (dlq_entries d) ∧
                dlq_view d' = filter (λ p, p.1 ≠ id) (dlq_view d)
  end.
Proof.
  intros Hok. pose proof Hok as [Hnd Hdom Hmax Hb Hr]. unfold Remove. run.
  destruct (dlq_entries d !! id) as [e|] eqn:Hid; [|done].
  rewrite remove_first_spec //. eexists. split; [done|]. split_and!; [split; simpl|done..|].
  - by apply NoDup_filter.
  - intros id'. rewrite list_elem_of_filter Hdom. destruct (decide (id = id')) as [<-|Hne].
    + rewrite lookup_delete_eq. split; [tauto|]. by intros [? ?].
    + rewrite lookup_delete_ne //. split; [tauto|]. by intros ?.
  - done.
  - pose proof (length_filter (λ x, x ≠ id) (dlq_order d)). lia.
  - done.
  - unfold dlq_view. simpl. clear. induction (dlq_order d) as [|x o IH]; [done|]. csimpl.
    rewrite filter_cons. destruct (decide (x = id)) as [->|Hne].
    + rewrite decide_False; [tauto|]. rewrite IH.
      destruct (dlq_entries d !! id); [|done]. rewrite filter_cons decide_False //. tauto.
    + rewrite decide_True //. csimpl. rewrite lookup_delete_ne // IH.
      destruct (dlq_entries d !! x); simpl; [|done]. by rewrite filter_cons decide_True.
Qed.

Lemma view_lookup d i id :
  dlq_ok d → dlq_order d !! i = Some id →
  ∃ e, dlq_entries d !! id = Some e ∧ dlq_view d !! i = Some (id, e).
Proof.
  intros Hok Hi. rewrite -(view_keys _ Hok) list_lookup_fmap in Hi.
  destruct (dlq_view d !! i) as [[id' e]|] eqn:E; simplify_eq/=. exists e.
  split; [|done]. apply (view_elem _ Hok). by eapply list_elem_of_lookup_2.
Qed.

Lemma list_loop_run d n i :
  dlq_ok d → 0 ≤ i → i + Z.of_nat n ≤ Z.of_nat (length (dlq_order d)) →
  list_loop n i d = Some (take n (drop (Z.to_nat i) (dlq_view d))).*2.
Proof.
  intros Hok. revert i. induction n as [|n IH]; intros i Hi Hle; [done|].
  cbn [list_loop]. rewrite decide_True //.
  destruct (lookup_lt_is_Some_2 (dlq_order d) (Z.to_nat i)) as [id Hid]; [lia|].
  destruct (view_lookup d _ _ Hok Hid) as (e & He & Hv).
  rewrite Hid. cbn [mbind option_bind]. rewrite IH; [lia..|]. cbn [mbind option_bind].
  rewrite He (drop_S _ _ _ Hv). by replace (Z.to_nat (i + 1)) with (S (Z.to_nat i)) by lia.
Qed.

Lemma List_run d offset limit :
  dlq_ok d → 0 ≤ offset → 0 ≤ limit → is_i64 (offset + limit) →
  List_ offset limit d =
    Ret (if Z.of_nat (length (dlq_view d)) <=? offset then None
         else Some (take (Z.to_nat limit) (drop (Z.to_nat offset) (dlq_view d))).*2) d.
Proof.
  intros Hok Ho Hl Hi. unfold List_, RLock, RUnlock. run. cbn [dlq_order dlq_readers].
  rewrite (view_length _ Hok) (dok_readers _ Hok).
  assert (d = mkDLQ (dlq_entries d) (dlq_order d) (dlq_maxSize d) 0) as Ed.
  { destruct d. f_equal. apply Hok. }
  destruct (Z.leb_spec (Z.of_nat (length (dlq_order d))) offset) as [Hge|Hlt].
  { simpl. by rewrite -Ed. }
  rewrite (i64_small (offset + limit)); [done|]. 
  set (e := if Z.of_nat (length (dlq_order d)) <? offset + limit then _ else _).
  assert (offset ≤ e ≤ Z.of_nat (length (dlq_order d)) ∧
          e = Z.min (offset + limit) (Z.of_nat (length (dlq_order d)))) as [He Hmin].
  { subst e. destruct (Z.ltb_spec (Z.of_nat (length (dlq_order d))) (offset + limit)); lia. }
  assert (is_i64 (e - offset)) as He64 by (unfold is_i64 in *; lia).
  rewrite (i64_small (e - offset)); [done|]. rewrite (proj2 (Z.ltb_ge _ _)); [lia|].
  set (d1 := mkDLQ _ _ _ _).
  assert (list_loop (Z.to_nat (e - offset)) offset d1 =
          list_loop (Z.to_nat (e - offset)) offset d) as ->.
  { generalize (Z.to_nat (e - offset)) as n. generalize offset as i. clear.
    intros i n. revert i. induction n as [|n IH]; intros i; [done|]. simpl.
    case_decide; [|done]. destruct (dlq_order d !! Z.to_nat i); simpl; [|done]. by rewrite IH. }
  rewrite list_loop_run //; [lia|]. simpl. rewrite -Ed.
  do 3 f_equal. rewrite Hmin.
  rewrite -(take_min_length (Z.to_nat limit)) length_drop (view_length _ Hok). f_equal. lia.
Qed.

Lemma Purge_run d :
  dlq_ok d →
  ∃ d', Purge d = Ret (Z.of_nat (length (dlq_view d))) d' ∧ dlq_ok d' ∧ dlq_view d' = [] ∧
        dlq_maxSize d' = dlq_maxSize d.
Proof.
  intros Hok. unfold Purge. run. rewrite (entries_size _ Hok) (view_length _ Hok).
  eexists. split; [done|]. split_and!; [split; simpl| |done]; try apply Hok; [apply NoDup_nil_2| | |done].
  - intros id. rewrite lookup_empty. split; [by intros ?%elem_of_nil|by intros [? ?]].
  - pose proof (dok_max _ Hok). lia.
Qed.

Lemma NewDeadLetterQueue_ok maxSize :
  dlq_ok (NewDeadLetterQueue maxSize) ∧ dlq_view (NewDeadLetterQueue maxSize) = [].
Proof.
  split; [|done]. split; simpl; [apply NoDup_nil_2| |ztest; lia..|done].
  intros id. rewrite lookup_empty. split; [by intros ?%elem_of_nil|by intros [? ?]].
Qed.

(** Any sequence of completed calls, on any messages of the store. *)
Inductive dlq_step : Store * DeadLetterQueue → Store * DeadLetterQueue → Prop :=
| dlq_step_add σ d s' msg cause now :
    is_Some (heap σ !! msg) → Add msg cause now (σ, d) = Ret tt s' → dlq_step (σ, d) s'
| dlq_step_remove σ d d' id r : Remove id d = Ret r d' → dlq_step (σ, d) (σ, d')
| dlq_step_purge σ d d' n : Purge d = Ret n d' → dlq_step (σ, d) (σ, d')
| dlq_step_list σ d d' offset limit r :
    0 ≤ offset → 0 ≤ limit → is_i64 (offset + limit) →
    List_ offset limit d = Ret r d' → dlq_step (σ, d) (σ, d').

Lemma dlq_step_ok s s' :
  dlq_step s s' → dlq_ok s.2 → dlq_ok s'.2 ∧ dlq_maxSize s'.2 = dlq_maxSize s.2.
Proof.
  destruct 1 as [σ d s' msg cause now [m Hm] E|σ d d' id r E|σ d d' n E|σ d d' o l r ??? E];
    simpl; intros Hok.
  - destruct (Add_run σ d msg m cause now Hok Hm) as (d1 & E1 & ? & ? & _).
    rewrite E in E1. by simplify_eq.
  - pose proof (Remove_run d id Hok) as H. destruct (dlq_entries d !! id).
    + destruct H as (d1 & E1 & ? & ? & _). rewrite E in E1. by simplify_eq.
    + rewrite E in H. by simplify_eq.
  - destruct (Purge_run d Hok) as (d1 & E1 & ? & _ & ?). rewrite E in E1. by simplify_eq.
  - rewrite List_run // in E. by simplify_eq.
Qed.

(** ** Properties *)

(** [Add].  The queue keeps its invariant and its bound; if it was full
    the oldest entry is evicted; the new entry, which records the cause, the
    time and the attempts, replaces an entry of the same ID in place and is
    otherwise the last one.  The entry holds a private copy of the message:
    its cell is new, so later writes through the caller's pointer cannot
    change it. *)
Theorem dlq_add_spec σ d msg m cause now (Hok : dlq_ok d) (Hm : heap σ !! msg = Some m) :
  ∃ σ' d' e, Add msg cause now (σ, d) = Ret tt (σ', d') ∧ dlq_ok d' ∧
    dlq_view d' = assoc_put (msg_ID m) e (assoc_trim (dlq_maxSize d) (dlq_view d)) ∧
    dle_FailureCause e = cause ∧ dle_FailedAt e = now ∧ dle_Attempts e = msg_RetryCount m ∧
    heap σ !! dle_Message e = None ∧ heap σ' = <[dle_Message e := m]> (heap σ).
Proof.
  destruct (Add_run σ d msg m cause now Hok Hm) as (d' & E & Hok' & _ & Hv).
  eexists _, d', (mkDLE (fresh (dom (heap σ))) now cause (msg_RetryCount m)).
  split_and!; [exact E|done|exact Hv|done|done|done|apply alloc_fresh|done].
Qed.

(** What is added can be removed again.  After [Add], [Remove] of the
    message's ID returns a pointer to a message equal to the one added, and
    once removed the ID is unknown. *)
Theorem dlq_add_remove σ d msg m cause now (Hok : dlq_ok d) (Hm : heap σ !! msg = Some m) :
  ∃ σ' d1 l d2, Add msg cause now (σ, d) = Ret tt (σ', d1) ∧
    Remove (msg_ID m) d1 = Ret (Some l, true) d2 ∧ heap σ' !! l = Some m ∧ l ≠ msg ∧
    Remove (msg_ID m) d2 = Ret (None, false) d2.
Proof.
  pose proof (alloc_fresh σ) as Hf.
  destruct (Add_run σ d msg m cause now Hok Hm) as (d1 & E & Hok1 & _ & Hv).
  set (l := fresh (dom (heap σ))) in *.
  set (e := mkDLE l now cause (msg_RetryCount m)) in *.
  assert (dlq_entries d1 !! msg_ID m = Some e) as He.
  { apply (view_elem _ Hok1). rewrite Hv. unfold assoc_put. case_decide as Hin.
    - apply list_elem_of_fmap in Hin as (p & Hp & Hin). apply list_elem_of_fmap.
      exists p. split; [|done]. by rewrite decide_True.
    - apply elem_of_app. right. by apply list_elem_of_singleton. }
  pose proof (Remove_run d1 (msg_ID m) Hok1) as Hrem. rewrite He in Hrem.
  destruct Hrem as (d2 & E2 & Hok2 & _ & Hdel & _).
  eexists _, d1, l, d2. split_and!; [done|done| | |].
  - apply lookup_insert_eq.
  - intros ->. by rewrite Hm in Hf.
  - pose proof (Remove_run d2 (msg_ID m) Hok2) as Hr2. by rewrite Hdel lookup_delete_eq in Hr2.
Qed.

(** Pagination.  For non-negative arguments [List] never panics, leaves
    the queue as it is, and returns entries [offset .. offset+limit) in
    insertion order ([nil] past the end). *)
Theorem dlq_list_page d offset limit (Hok : dlq_ok d) (Ho : 0 ≤ offset) (Hl : 0 ≤ limit)
  (Hi : is_i64 (offset + limit)) :
  List_ offset limit d =
    Ret (if Z.of_nat (length (dlq_view d)) <=? offset then None
         else Some (take (Z.to_nat limit) (drop (Z.to_nat offset) (dlq_view d))).*2) d.
Proof. by apply List_run. Qed.

(** C38: the bound.  Whatever sequence of [Add], [Remove], [Purge] and [List]
    calls a new queue receives, it never holds more than [maxSize] entries
    (50000 for a non-positive argument), every listed ID has exactly one
    entry, and no ID is listed twice. *)
Theorem dlq_reachable_ok σ maxSize s
  (Hreach : rtc dlq_step (σ, NewDeadLetterQueue maxSize) s) :
  dlq_ok s.2 ∧ Z.of_nat (size (dlq_entries s.2)) ≤ (if maxSize <=? 0 then 50000 else maxSize).
Proof.
  assert (dlq_ok s.2 ∧ dlq_maxSize s.2 = if maxSize <=? 0 then 50000 else maxSize) as [Hok Hmx].
  { remember (σ, NewDeadLetterQueue maxSize) as s0 eqn:E0.
    assert (dlq_ok s0.2 ∧ dlq_maxSize s0.2 = if maxSize <=? 0 then 50000 else maxSize) as H0.
    { subst s0. split; [apply NewDeadLetterQueue_ok|done]. }
    clear E0. induction Hreach as [|s0 s1 s2 Hs _ IH]; [done|]. apply IH.
    destruct (dlq_step_ok _ _ Hs (proj1 H0)) as [? ->]. split; [done|apply H0]. }
  split; [done|]. rewrite (entries_size _ Hok) -Hmx. apply Hok.
Qed.

(** [Get] crashes the process.  It releases a read lock it never took:
    whenever no other goroutine is inside a read section, every call panics,
    whatever the ID. *)
Theorem dlq_get_panics d id (Hr : dlq_readers d ≤ 0) : Get id d = Panic.
Proof. unfold Get, RUnlock. run. by rewrite (proj2 (Z.leb_le _ _)). Qed.

(** ** Witnesses *)

Definition demo_store : Store :=
  mkStore (<[2%positive := set_RetryCount 3 (mkMessage "b" "t" None ∅ 0 0 0 0 3 "" 0 "")]>
           {[1%positive := set_RetryCount 3 demo_msg]}) 2.

Lemma dlq_add_spec_witness :
  ∃ σ' d' e, Add 1 "boom" 99 (demo_store, NewDeadLetterQueue 2) = Ret tt (σ', d') ∧
    dlq_view d' = [("7-1-00ff", e)] ∧ dle_Attempts e = 3.
Proof.
  destruct (dlq_add_spec demo_store (NewDeadLetterQueue 2) 1 (set_RetryCount 3 demo_msg) "boom" 99)
    as (σ' & d' & e & E & _ & Hv & _ & _ & Ha & _);
    [apply NewDeadLetterQueue_ok|by vm_compute|].
  exists σ', d', e. split_and!; [done|by rewrite Hv|by rewrite Ha].
Defined.

Lemma dlq_add_remove_witness :
  ∃ σ' d1 l d2, Add 1 "boom" 99 (demo_store, NewDeadLetterQueue 2) = Ret tt (σ', d1) ∧
    Remove "7-1-00ff" d1 = Ret (Some l, true) d2 ∧ l ≠ 1%positive.
Proof.
  destruct (dlq_add_remove demo_store (NewDeadLetterQueue 2) 1 (set_RetryCount 3 demo_msg) "boom" 99)
    as (σ' & d1 & l & d2 & E1 & E2 & _ & Hne & _);
    [apply NewDeadLetterQueue_ok|by vm_compute|].
  by exists σ', d1, l, d2.
Defined.

Lemma dlq_list_page_witness :
  List_ 0 100 (NewDeadLetterQueue 7) = Ret None (NewDeadLetterQueue 7).
Proof.
  apply (dlq_list_page (NewDeadLetterQueue 7) 0 100 (proj1 (NewDeadLetterQueue_ok 7)));
    [lia|lia|unfold is_i64; lia].
Defined.

(** A queue of size 1 that receives two messages keeps the second. *)
Lemma dlq_reachable_ok_witness :
  ∃ s, rtc dlq_step (demo_store, NewDeadLetterQueue 1) s ∧ dlq_order s.2 = ["b"] ∧
       Z.of_nat (size (dlq_entries s.2)) ≤ 1.
Proof.
  assert (∃ s, rtc dlq_step (demo_store, NewDeadLetterQueue 1) s ∧ dlq_order s.2 = ["b"])
    as (s & H & Ho).
  { eexists. split.
    - eapply rtc_l; [eapply (dlq_step_add _ _ _ 1 "x" 5); [by eexists; vm_compute|reflexivity]|].
      apply rtc_once. eapply (dlq_step_add _ _ _ 2 "y" 6); [by eexists; vm_compute|reflexivity].
    - by vm_compute. }
  exists s. split_and!; [done..|]. apply (dlq_reachable_ok demo_store 1 s H).
Defined.

Lemma dlq_get_panics_witness : Get "7-1-00ff" (NewDeadLetterQueue 10) = Panic.
Proof. apply (dlq_get_panics (NewDeadLetterQueue 10)). done. Defined.
