(* ===== verification/ConsumerGroup.v ===== *)
(** * Consumer groups

    Models [src/internal/queue/consumer_group.go]: the pending entries list of
    a group, with leases that expire, retries with exponential backoff and
    dead-lettering.  The two callbacks [onRetry] and [onDeadLetter] belong to
    the topic that created the group; they and the state they work on are
    parameters ([Section group]).

    Go visits the entries of a map in an unspecified order.  The operations
    that range over the pending list take that order as an argument, and the
    theorems hold for every permutation of the keys. *)

From S2P Require Import Prelude Message.

Record PendingMessage : Type := mkPending {
  pm_Message : loc;
  pm_ConsumerID : string;
  pm_DeliveryTime : Z;
  pm_AckDeadline : Z
}.

Record ConsumerGroup : Type := mkGroup {
  cg_name : string;
  cg_topicName : string;
  cg_pel : gmap string PendingMessage;
  cg_consumers : gmap string Z;
  cg_defaultTimeout : Z
}.

Definition second : Z := 1000000000.

Definition millisecond : Z := 1000000.

Definition NewConsumerGroup (name topicName : string) (defaultTimeout : Z) : ConsumerGroup :=
  mkGroup name topicName ∅ ∅ (if defaultTimeout <=? 0 then 30 * second else defaultTimeout).

Definition set_pel (pel : gmap string PendingMessage) (g : ConsumerGroup) : ConsumerGroup :=
  mkGroup (cg_name g) (cg_topicName g) pel (cg_consumers g) (cg_defaultTimeout g).

(** [time.Duration(100*(1<<(msg.RetryCount-1))) * time.Millisecond], capped at
    ten seconds; a negative shift count panics. *)
Definition backoff (retryCount : Z) : option Z :=
  let n := i64 (retryCount - 1) in
  if n <? 0 then None else
  let d := i64 (i64 (100 * i64 (Z.shiftl 1 n)) * millisecond) in
  Some (if 10 * second <? d then 10 * second else d).

Definition Ack (msgID : string) : prog ConsumerGroup bool :=
  g ← get;
  match cg_pel g !! msgID with
  | Some _ => put (set_pel (delete msgID (cg_pel g)) g);; mret true
  | None => mret false
  end.

(** The locked part of [SweepTimeouts]: visits the keys in [order], collects
    the messages whose deadline has passed and deletes their entries. *)
Fixpoint sweep_collect (order : list string) (now : Z) (pel : gmap string PendingMessage)
  : list loc * gmap string PendingMessage :=
  match order with
  | [] => ([], pel)
  | id :: order' =>
      match pel !! id with
      | Some pending =>
          if pm_AckDeadline pending <=? now then
            let '(timedOut, pel') := sweep_collect order' now (delete id pel) in
            (pm_Message pending :: timedOut, pel')
          else sweep_collect order' now pel
      | None => sweep_collect order' now pel
      end
  end.

Definition PendingCount : prog ConsumerGroup Z := λ g, Ret (Z.of_nat (size (cg_pel g))) g.

Definition ActiveConsumers : prog ConsumerGroup Z := λ g,
  Ret (Z.of_nat (size (cg_consumers g))) g.

Definition timeout_cause : string := "Ack deadline expired (worker timeout/crash)".

Section group.
Context {S : Type} (LS : Lens S Store) (LG : Lens S ConsumerGroup).
Context (onRetry : option (loc → Z → prog S unit)) (onDeadLetter : option (loc → string → prog S unit)).

Definition Checkout (msg : loc) (consumerID : string) (customTimeout now : Z) : prog S unit :=
  timeout ← gets LG (λ g, if 0 <? customTimeout then customTimeout else cg_defaultTimeout g);
  m ← zoom LS (load msg);
  let deadline := i64 (now + timeout) in
  zoom LS (store msg (set_Lease consumerID deadline m));;
  modify LG (λ g, mkGroup (cg_name g) (cg_topicName g)
    (<[msg_ID m := mkPending msg consumerID now deadline]> (cg_pel g))
    (<[consumerID := now]> (cg_consumers g)) (cg_defaultTimeout g)).

Definition call_retry (msg : loc) (delay : Z) : prog S unit :=
  match onRetry with Some f => f msg delay | None => mret tt end.

Definition call_dead_letter (msg : loc) (cause : string) : prog S unit :=
  match onDeadLetter with Some f => f msg cause | None => mret tt end.

(** [msg.RetryCount++; msg.FailureCause = cause], returning the new message. *)
Definition record_failure (msg : loc) (cause : string) : prog S Message :=
  m ← zoom LS (load msg);
  let m' := set_FailureCause cause (set_RetryCount (i64 (msg_RetryCount m + 1)) m) in
  zoom LS (store msg m');;
  mret m'.

Definition Nack (msgID reason : string) : prog S bool :=
  g ← gets LG id;
  match cg_pel g !! msgID with
  | None => mret false
  | Some pending =>
      modify LG (set_pel (delete msgID (cg_pel g)));;
      m ← record_failure (pm_Message pending) reason;
      (if msg_MaxRetries m <=? msg_RetryCount m then
         call_dead_letter (pm_Message pending) reason
       else
         delay ← must (backoff (msg_RetryCount m));
         call_retry (pm_Message pending) delay);;
      mret true
  end.

(** One iteration of the second loop of [SweepTimeouts]. *)
Definition expire (msg : loc) : prog S unit :=
  m ← record_failure msg timeout_cause;
  if msg_MaxRetries m <=? msg_RetryCount m then call_dead_letter msg (msg_FailureCause m)
  else call_retry msg (500 * millisecond).

Definition SweepTimeouts (order : list string) (now : Z) : prog S Z :=
  g ← gets LG id;
  let '(timedOut, pel') := sweep_collect order now (cg_pel g) in
  modify LG (set_pel pel');;
  forM timedOut expire;;
  mret (Z.of_nat (length timedOut)).

(** [ListPending]: clones of the first [limit] entries visited ([limit <= 0]
    for all of them). *)
Fixpoint list_pending (order : list string) (limit : Z) (pel : gmap string PendingMessage)
  (result : list PendingMessage) : prog S (list PendingMessage) :=
  match order with
  | [] => mret result
  | id :: order' =>
      match pel !! id with
      | Some p =>
          clone ← zoom LS (Clone (pm_Message p));
          let result := result ++ [mkPending clone (pm_ConsumerID p) (pm_DeliveryTime p)
                                     (pm_AckDeadline p)] in
          if (0 <? limit) && (limit <=? Z.of_nat (length result)) then mret result
          else list_pending order' limit pel result
      | None => list_pending order' limit pel result
      end
  end.

Definition ListPending (order : list string) (limit : Z) : prog S (list PendingMessage) :=
  g ← gets LG id;
  list_pending order limit (cg_pel g) [].
End group.

(** The entries whose lease has run out. *)
Definition is_expired (now : Z) (pel : gmap string PendingMessage) (id : string) : bool :=
  match pel !! id with Some p => pm_AckDeadline p <=? now | None => false end.

(** ** Lemmas *)

Lemma is_expired_delete now pel id id' :
  id ≠ id' → is_expired now (delete id pel) id' = is_expired now pel id'.
Proof. intros. unfold is_expired. by rewrite lookup_delete_ne. Qed.

(** What the locked part of the sweep collects and keeps, for any order. *)
Lemma sweep_collect_spec order now pel :
  NoDup order →
  (sweep_collect order now pel).1 =
    omap (λ id, pm_Message <$> pel !! id) (filter (λ id, is_expired now pel id = true) order) ∧
  ∀ id, (sweep_collect order now pel).2 !! id =
    if decide (id ∈ order ∧ is_expired now pel id = true) then None else pel !! id.
Proof.
  intros Hnd. revert pel. induction Hnd as [|k order Hk Hnd IH]; intros pel.
  { split; [done|]. intros id. case_decide as Hc; [by destruct Hc as [?%elem_of_nil _]|done]. }
  simpl. rewrite filter_cons. destruct (pel !! k) as [p|] eqn:Hp; simpl.
  - destruct (Z.leb_spec (pm_AckDeadline p) now) as [Hle|Hgt].
    + assert (is_expired now pel k = true) as Hx.
      { unfold is_expired. rewrite Hp. by apply Z.leb_le. }
      destruct (IH (delete k pel)) as [IH1 IH2]. destruct (sweep_collect _ _ _) as [out pel'].
      simpl in *. rewrite decide_True //. csimpl. rewrite Hp /=. split.
      * f_equal. rewrite IH1. clear -Hk. induction order as [|x o IH]; [done|].
        apply not_elem_of_cons in Hk as [Hne Hk]. rewrite !filter_cons is_expired_delete //.
        case_decide; csimpl; rewrite IH //. by rewrite lookup_delete_ne.
      * intros id. rewrite IH2. destruct (decide (k = id)) as [<-|Hne].
        -- rewrite lookup_delete_eq. rewrite (decide_True (P := k ∈ k :: order ∧ _));
             [split; [by left|done]|]. by case_decide.
        -- rewrite is_expired_delete // lookup_delete_ne //.
           apply decide_ext. rewrite elem_of_cons. naive_solver.
    + assert (is_expired now pel k = false) as Hx.
      { unfold is_expired. rewrite Hp. by apply Z.leb_gt. }
      destruct (IH pel) as [IH1 IH2]. rewrite decide_False; [by rewrite Hx|]. split; [done|].
      intros id. rewrite IH2. apply decide_ext. rewrite elem_of_cons. naive_solver congruence.
  - assert (is_expired now pel k = false) as Hx by (unfold is_expired; by rewrite Hp).
    destruct (IH pel) as [IH1 IH2]. rewrite decide_False; [by rewrite Hx|]. split; [done|].
    intros id. rewrite IH2. apply decide_ext. rewrite elem_of_cons. naive_solver congruence.
Qed.

(** The backoff below the overflow: 100 ms doubled at each retry, at most ten
    seconds. *)
Lemma backoff_value n :
  1 ≤ n ≤ 37 → backoff n = Some (Z.min (100 * 2 ^ (n - 1) * millisecond) (10 * second)).
Proof.
  intros Hn. unfold backoff, millisecond, second.
  assert (1 ≤ 2 ^ (n - 1) ≤ 2 ^ 36) as Hp.
  { split; [|apply Z.pow_le_mono_r; lia]. change 1 with (2 ^ 0) at 1. apply Z.pow_le_mono_r; lia. }
  rewrite (i64_small (n - 1)); [unfold is_i64; lia|].
  rewrite (proj2 (Z.ltb_ge _ _)); [lia|]. rewrite Z.shiftl_1_l.
  rewrite (i64_small (2 ^ (n - 1))); [unfold is_i64; lia|].
  rewrite (i64_small (100 * _)); [unfold is_i64; lia|].
  rewrite (i64_small (100 * _ * _)); [unfold is_i64; lia|].
  f_equal. ztest; lia.
Qed.

(** ** Properties *)

(** Exponential backoff.  For the retries a message can make (up to 37),
    the delay is 100 ms * 2^(retries-1) capped at ten seconds, computed without
    overflow; it is between 100 ms and 10 s. *)
Theorem backoff_exponential n (Hn : 1 ≤ n ≤ 37) :
  ∃ d, backoff n = Some d ∧ d = Z.min (100 * 2 ^ (n - 1) * millisecond) (10 * second) ∧
       100 * millisecond ≤ d ≤ 10 * second.
Proof.
  exists (Z.min (100 * 2 ^ (n - 1) * millisecond) (10 * second)). split; [by apply backoff_value|].
  split; [done|]. assert (1 ≤ 2 ^ (n - 1)).
  { change 1 with (2 ^ 0) at 1. apply Z.pow_le_mono_r; lia. }
  unfold millisecond, second. lia.
Qed.

(** Past 37 retries the multiplication overflows [int64]: the 38th backoff
    is negative, so the cap does not apply and the wheel dispatches the message
    at once; a negative retry count makes the shift panic. *)
Theorem backoff_overflow :
  (∃ d, backoff 38 = Some d ∧ d < 0) ∧ backoff 0 = None.
Proof. split; [eexists; split; [vm_compute; reflexivity|done]|by vm_compute]. Qed.

(** The sweep is exact and independent of the map iteration order.  For
    every order in which Go may visit the pending entries, the messages
    collected are those whose deadline has passed, each once, the entries kept
    are the others, unchanged, and two different orders keep the same entries
    and collect the same messages up to order. *)
Theorem sweep_exact order order' now pel
  (Hord : order ≡ₚ (map_to_list pel).*1) (Hord' : order' ≡ₚ (map_to_list pel).*1) :
  (∀ id, (sweep_collect order now pel).2 !! id =
         if is_expired now pel id then None else pel !! id) ∧
  (sweep_collect order now pel).1 ≡ₚ
    omap (λ id, pm_Message <$> pel !! id)
         (filter (λ id, is_expired now pel id = true) (map_to_list pel).*1) ∧
  (sweep_collect order' now pel).2 = (sweep_collect order now pel).2 ∧
  (sweep_collect order' now pel).1 ≡ₚ (sweep_collect order now pel).1.
Proof.
  assert (∀ o, o ≡ₚ (map_to_list pel).*1 →
    (∀ id, (sweep_collect o now pel).2 !! id = if is_expired now pel id then None else pel !! id) ∧
    (sweep_collect o now pel).1 ≡ₚ omap (λ id, pm_Message <$> pel !! id)
         (filter (λ id, is_expired now pel id = true) (map_to_list pel).*1)) as H.
  { intros o Ho. assert (NoDup o) as Hnd by (rewrite Ho; apply NoDup_fst_map_to_list).
    destruct (sweep_collect_spec o now pel Hnd) as [H1 H2]. split; [|by rewrite H1 Ho].
    intros id. rewrite H2. destruct (is_expired now pel id) eqn:Hx.
    - rewrite decide_True //. split; [|done]. rewrite Ho. unfold is_expired in Hx.
      destruct (pel !! id) as [p|] eqn:Hp; [|done].
      apply list_elem_of_fmap. exists (id, p). split; [done|]. by apply elem_of_map_to_list.
    - rewrite decide_False //. by intros [_ ?]. }
  destruct (H order Hord) as [H1 H2], (H order' Hord') as [H1' H2'].
  split_and!; [done|done| |by rewrite H2'].
  apply map_eq. intros id. by rewrite H1 H1'.
Qed.

(** ** Witnesses *)

Lemma backoff_exponential_witness :
  ∃ d, backoff 8 = Some d ∧ d = Z.min (100 * 2 ^ (8 - 1) * millisecond) (10 * second) ∧
       100 * millisecond ≤ d ≤ 10 * second.
Proof. apply (backoff_exponential 8). lia. Defined.

Definition demo_pel : gmap string PendingMessage :=
  <["a" := mkPending 1 "w1" 0 10]> {["b" := mkPending 2 "w2" 0 30]}.

Lemma sweep_exact_witness :
  (sweep_collect ["b"; "a"] 20 demo_pel).1 = [1%positive] ∧
  (sweep_collect ["b"; "a"] 20 demo_pel).2 !! "a" = None ∧
  (sweep_collect ["b"; "a"] 20 demo_pel).2 !! "b" = Some (mkPending 2 "w2" 0 30).
Proof.
  split; [by vm_compute|].
  assert (["b"; "a"] ≡ₚ (map_to_list demo_pel).*1) as Hp.
  { apply (bool_decide_unpack (_ ≡ₚ _)). by vm_compute. }
  destruct (sweep_exact ["b"; "a"] ["b"; "a"] 20 demo_pel Hp Hp) as (H & _).
  split; rewrite H; by vm_compute.
Defined.
