(* ===== verification/Topic.v ===== *)
(** * Topics

    Models [src/internal/queue/topic.go]: a topic owns a ring buffer, a dead
    letter queue, a timing wheel and its consumer groups, and wires their
    callbacks together: the wheel pushes expired messages into the ring, a
    group's retry goes back to the wheel, a group's dead letter to the DLQ.

    The operations run on the store of messages and the topic.  Clock readings
    are arguments; so are the map iteration orders of the sweep. *)

From S2P Require Import Prelude GoText Message RingBuffer TimingWheel DeadLetter ConsumerGroup.

Record Topic : Type := mkTopic {
  t_name : string;
  t_ring : RingBuffer;
  t_groups : gmap string ConsumerGroup;
  t_dlq : DeadLetterQueue;
  t_tw : TimingWheel;
  t_closed : bool;
  t_published : Z;
  t_consumed : Z;
  t_acked : Z;
  t_nacked : Z;
  t_deadLettered : Z;
  t_bytesPub : Z;
  t_bytesSub : Z
}.

Record TopicStats : Type := mkTopicStats {
  ts_Name : string;
  ts_Length : Z;
  ts_Capacity : Z;
  ts_Published : Z;
  ts_Consumed : Z;
  ts_Acked : Z;
  ts_Nacked : Z;
  ts_DeadLettered : Z;
  ts_BytesPublished : Z;
  ts_BytesConsumed : Z;
  ts_ConsumerGroups : Z;
  ts_DeadLetterCount : Z
}.

(** The state of an operation on a topic. *)
Abbreviation TS := (Store * Topic)%type.

Definition set_ring (r : RingBuffer) (t : Topic) : Topic :=
  mkTopic (t_name t) r (t_groups t) (t_dlq t) (t_tw t) (t_closed t) (t_published t)
    (t_consumed t) (t_acked t) (t_nacked t) (t_deadLettered t) (t_bytesPub t) (t_bytesSub t).

Definition set_groups (g : gmap string ConsumerGroup) (t : Topic) : Topic :=
  mkTopic (t_name t) (t_ring t) g (t_dlq t) (t_tw t) (t_closed t) (t_published t)
    (t_consumed t) (t_acked t) (t_nacked t) (t_deadLettered t) (t_bytesPub t) (t_bytesSub t).

Definition set_dlq (d : DeadLetterQueue) (t : Topic) : Topic :=
  mkTopic (t_name t) (t_ring t) (t_groups t) d (t_tw t) (t_closed t) (t_published t)
    (t_consumed t) (t_acked t) (t_nacked t) (t_deadLettered t) (t_bytesPub t) (t_bytesSub t).

Definition set_tw (w : TimingWheel) (t : Topic) : Topic :=
  mkTopic (t_name t) (t_ring t) (t_groups t) (t_dlq t) w (t_closed t) (t_published t)
    (t_consumed t) (t_acked t) (t_nacked t) (t_deadLettered t) (t_bytesPub t) (t_bytesSub t).

Definition set_closed (t : Topic) : Topic :=
  mkTopic (t_name t) (t_ring t) (t_groups t) (t_dlq t) (t_tw t) true (t_published t)
    (t_consumed t) (t_acked t) (t_nacked t) (t_deadLettered t) (t_bytesPub t) (t_bytesSub t).

(** The atomic counter updates. *)
Definition add_published (bytes : Z) (t : Topic) : Topic :=
  mkTopic (t_name t) (t_ring t) (t_groups t) (t_dlq t) (t_tw t) (t_closed t)
    (u64 (t_published t + 1)) (t_consumed t) (t_acked t) (t_nacked t) (t_deadLettered t)
    (u64 (t_bytesPub t + bytes)) (t_bytesSub t).

Definition add_consumed (bytes : Z) (t : Topic) : Topic :=
  mkTopic (t_name t) (t_ring t) (t_groups t) (t_dlq t) (t_tw t) (t_closed t)
    (t_published t) (u64 (t_consumed t + 1)) (t_acked t) (t_nacked t) (t_deadLettered t)
    (t_bytesPub t) (u64 (t_bytesSub t + bytes)).

Definition add_acked (t : Topic) : Topic :=
  mkTopic (t_name t) (t_ring t) (t_groups t) (t_dlq t) (t_tw t) (t_closed t) (t_published t)
    (t_consumed t) (u64 (t_acked t + 1)) (t_nacked t) (t_deadLettered t) (t_bytesPub t)
    (t_bytesSub t).

Definition add_nacked (t : Topic) : Topic :=
  mkTopic (t_name t) (t_ring t) (t_groups t) (t_dlq t) (t_tw t) (t_closed t) (t_published t)
    (t_consumed t) (t_acked t) (u64 (t_nacked t + 1)) (t_deadLettered t) (t_bytesPub t)
    (t_bytesSub t).

Definition add_deadLettered (t : Topic) : Topic :=
  mkTopic (t_name t) (t_ring t) (t_groups t) (t_dlq t) (t_tw t) (t_closed t) (t_published t)
    (t_consumed t) (t_acked t) (t_nacked t) (u64 (t_deadLettered t + 1)) (t_bytesPub t)
    (t_bytesSub t).

(** Where the components live in the state of a topic operation.  The lens of a
    group is used only under the check that the group exists. *)
Definition lens_ring : Lens TS RingBuffer :=
  mkLens (λ s, t_ring s.2) (λ r s, (s.1, set_ring r s.2)).

Definition lens_tw : Lens TS TimingWheel :=
  mkLens (λ s, t_tw s.2) (λ w s, (s.1, set_tw w s.2)).

Definition lens_dlq : Lens TS DeadLetterQueue :=
  mkLens (λ s, t_dlq s.2) (λ d s, (s.1, set_dlq d s.2)).

Definition lens_store_dlq : Lens TS (Store * DeadLetterQueue) :=
  mkLens (λ s, (s.1, t_dlq s.2)) (λ d s, (d.1, set_dlq d.2 s.2)).

Definition lens_group (name : string) : Lens TS ConsumerGroup :=
  mkLens (λ s, default (NewConsumerGroup name "" 0) (t_groups s.2 !! name))
         (λ g s, (s.1, set_groups (<[name := g]> (t_groups s.2)) s.2)).

(** [NewTopic]; [None] if the ring's creation does not return. *)
Definition NewTopic (name : string) (capacity : Z) : option Topic :=
  ring ← NewRingBuffer capacity;
  Some (mkTopic name ring ∅ (NewDeadLetterQueue 50000) (NewTimingWheel (50 * millisecond) 3600)
          false 0 0 0 0 0 0 0).

(** The callback of the wheel: [func(msg *Message) { t.ring.Push(msg) }]. *)
Definition onExpire (msg : loc) : prog TS unit := zoom lens_ring (Push msg);; mret tt.

(** [uint64(len(msg.Payload))] of a message that is not [nil]. *)
Definition payload_len (msg : loc) : prog TS Z :=
  m ← zoom lens_fst (load msg); mret (len_slice (msg_Payload m)).

Definition Publish (msg : loc) : prog TS bool :=
  closed ← gets lens_snd t_closed;
  if (closed : bool) then mret false else
  ok ← zoom lens_ring (Push msg);
  if (ok : bool) then
    n ← payload_len msg; modify lens_snd (add_published n);; mret true
  else mret false.

Definition PublishFront (msg : loc) : prog TS bool :=
  closed ← gets lens_snd t_closed;
  if (closed : bool) then mret false else
  ok ← zoom lens_ring (PushFront msg);
  if (ok : bool) then
    n ← payload_len msg; modify lens_snd (add_published n);; mret true
  else mret false.

Definition PublishDelayed (msg : loc) (delay now : Z) : prog TS unit :=
  m ← zoom lens_fst (load msg);
  zoom lens_fst (store msg (set_DeliverAt (i64 (now + delay)) m));;
  n ← payload_len msg;
  modify lens_snd (add_published n);;
  TimingWheel.Add lens_tw (Some onExpire) msg delay.

(** [if ok { consumed++; bytesSub += len(msg.Payload) }; return msg, ok] *)
Definition count_consumed (r : option loc * bool) : prog TS (option loc * bool) :=
  let '(msg, ok) := r in
  if (ok : bool) then
    l ← must msg; n ← payload_len l; modify lens_snd (add_consumed n);; mret (msg, ok)
  else mret (msg, ok).

Definition Consume : prog TS (option loc * bool) :=
  r ← zoom lens_ring Pop; count_consumed r.

Definition ConsumeWait (timeout t0 t1 : Z) : prog TS (option loc * bool) :=
  r ← zoom lens_ring (PopWait timeout t0 t1); count_consumed r.

Definition GetOrCreateGroup (groupName : string) (defaultTimeout : Z) : prog TS unit :=
  t ← gets lens_snd id;
  match t_groups t !! groupName with
  | Some _ => mret tt
  | None => modify lens_snd (set_groups
              (<[groupName := NewConsumerGroup groupName (t_name t) defaultTimeout]> (t_groups t)))
  end.

(** The callbacks given to every group of the topic; [failedAt] is the clock
    reading of [dlq.Add]. *)
Definition onRetry (msg : loc) (delay : Z) : prog TS unit :=
  TimingWheel.Add lens_tw (Some onExpire) msg delay.

Definition onDeadLetter (failedAt : Z) (msg : loc) (cause : string) : prog TS unit :=
  zoom lens_store_dlq (DeadLetter.Add msg cause failedAt);;
  modify lens_snd add_deadLettered.

Definition ConsumeGroup (groupName consumerID : string) (timeout t0 t1 now : Z)
  : prog TS (option loc * bool) :=
  GetOrCreateGroup groupName (30 * second);;
  r ← zoom lens_ring (PopWait timeout t0 t1);
  let '(msg, ok) := r in
  if negb ok then mret (None, false) else
  l ← must msg;
  Checkout lens_fst (lens_group groupName) l consumerID (30 * second) now;;
  n ← payload_len l;
  modify lens_snd (add_consumed n);;
  mret (msg, true).

Definition Ack (groupName msgID : string) : prog TS bool :=
  t ← gets lens_snd id;
  match t_groups t !! groupName with
  | None => mret false
  | Some _ =>
      ok ← zoom (lens_group groupName) (ConsumerGroup.Ack msgID);
      if (ok : bool) then modify lens_snd add_acked;; mret true else mret false
  end.

Definition Nack (groupName msgID reason : string) (failedAt : Z) : prog TS bool :=
  t ← gets lens_snd id;
  match t_groups t !! groupName with
  | None => mret false
  | Some _ =>
      ok ← ConsumerGroup.Nack lens_fst (lens_group groupName) (Some onRetry)
             (Some (onDeadLetter failedAt)) msgID reason;
      if (ok : bool) then modify lens_snd add_nacked;; mret true else mret false
  end.

(** [t.DLQ()] followed by a call on the queue it returns. *)
Definition DLQ {A} (call : prog DeadLetterQueue A) : prog TS A := zoom lens_dlq call.

Definition ReplayDeadLetter (msgID : string) (now : Z) : prog TS (option loc * bool) :=
  r ← zoom lens_dlq (Remove msgID);
  let '(msg, ok) := r in
  if negb ok then mret (None, false) else
  l ← must msg;
  m ← zoom lens_fst (load l);
  zoom lens_fst (store l (set_DeliverAt now (set_FailureCause "" (set_RetryCount 0 m))));;
  zoom lens_ring (Push l);;
  mret (msg, true).

Definition Stats : prog TS TopicStats :=
  t ← gets lens_snd id;
  len ← zoom lens_ring Len;
  cap ← zoom lens_ring Cap;
  dead ← zoom lens_dlq dlq_Len;
  mret (mkTopicStats (t_name t) len cap (t_published t) (t_consumed t) (t_acked t) (t_nacked t)
          (t_deadLettered t) (t_bytesPub t) (t_bytesSub t) (Z.of_nat (size (t_groups t))) dead).

(** [SweepConsumerTimeouts]: the groups in [order], each with the order its
    pending entries are visited in.  Each group reads the clock when it is swept
    ([now]), and [dlq.Add] reads it for each message it is given ([failedAt]). *)
Fixpoint sweep_groups (order : list (string * list string)) (now : string → Z) (failedAt : loc → Z)
  : prog TS Z :=
  match order with
  | [] => mret 0
  | (g, pelOrder) :: order' =>
      n ← SweepTimeouts lens_fst (lens_group g) (Some onRetry) (Some (λ msg, onDeadLetter (failedAt msg) msg))
            pelOrder (now g);
      total ← sweep_groups order' now failedAt;
      mret (n + total)
  end.

Definition SweepConsumerTimeouts (order : list (string * list string)) (now : string → Z) (failedAt : loc → Z)
  : prog TS Z := sweep_groups order now failedAt.

Definition Close : prog TS unit :=
  closed ← gets lens_snd t_closed;
  if (closed : bool) then mret tt else
  modify lens_snd set_closed;;
  zoom lens_ring RingBuffer.Close;;
  zoom lens_tw Stop.

(** The ticker of the wheel. *)
Definition advance_wheel : prog TS unit := advance lens_tw (Some onExpire).
