(* ===== verification/Custody.v ===== *)
(** * Custody of messages

    A topic holds a message in one of four places: its ring buffer, its timing
    wheel, the pending list of a consumer group, or its dead letter queue.
    This file defines the IDs in custody and the invariant [core] that ties
    the four places to the shared store, and proves one lemma for each
    elementary move (into or out of a place, or a write through a message
    pointer).  [TopicSafety] composes them into the operations of a topic. *)

From S2P Require Import Prelude Message RingBuffer TimingWheel DeadLetter ConsumerGroup.

(** A message that can still be retried: the counters [Nack] works on are in
    the range where the backoff does not overflow. *)
Definition retryable (m : Message) : Prop :=
  0 ≤ msg_RetryCount m < msg_MaxRetries m ∧ msg_MaxRetries m ≤ 37.

(** A message that can be retried once its counter is reset. *)
Definition replayable (m : Message) : Prop := 0 < msg_MaxRetries m ≤ 37.

Global Instance retryable_dec m : Decision (retryable m) := _.

Global Instance replayable_dec m : Decision (replayable m) := _.

Definition msg_ids (σ : Store) (ls : list loc) : list string :=
  (λ l, default "" (msg_ID <$> heap σ !! l)) <$> ls.

Global Arguments msg_ids : simpl never.

Definition pel_keys (g : ConsumerGroup) : list string := (map_to_list (cg_pel g)).*1.

Definition pel_ids (gs : gmap string ConsumerGroup) : list string :=
  map_to_list gs ≫= λ kg, pel_keys kg.2.

(** The messages between the head and the tail of a ring. *)
Definition ring_contents (rb : RingBuffer) : list loc :=
  omap (λ i, cell (rb_nodes rb) (Z.land (u64 (rb_head rb + i)) (rb_mask rb)))
       (seqZ 0 (u64 (rb_tail rb - rb_head rb))).

(** The IDs in custody; [q] is the content of the ring. *)
Definition custody (σ : Store) (gs : gmap string ConsumerGroup) (d : DeadLetterQueue)
  (w : TimingWheel) (q : list loc) : list string :=
  msg_ids σ q ++ msg_ids σ (timers w).*1 ++ pel_ids gs ++ dlq_order d.

Record core (σ : Store) (rb : RingBuffer) (gs : gmap string ConsumerGroup)
  (d : DeadLetterQueue) (w : TimingWheel) (q : list loc) : Prop := mkCore {
  core_ring : ring_rep rb q;
  core_wheel : wheel_ok w;
  core_dlq : dlq_ok d;
  core_open : rb_closed rb = false ∧ tw_closed w = false;
  core_queued : ∀ l, l ∈ q ++ (timers w).*1 → ∃ m, heap σ !! l = Some m ∧ retryable m;
  core_pending : ∀ g cg id pm, gs !! g = Some cg → cg_pel cg !! id = Some pm →
    ∃ m, heap σ !! pm_Message pm = Some m ∧ msg_ID m = id ∧ retryable m;
  core_dead : ∀ id e, dlq_entries d !! id = Some e →
    ∃ m, heap σ !! dle_Message e = Some m ∧ msg_ID m = id ∧ replayable m;
  core_nodup : NoDup (custody σ gs d w q)
}.

(** ** The contents of a ring *)

Lemma omap_seqZ {A} (f : Z → option A) (q : list A) : ∀ m,
  (∀ i x, q !! i = Some x → f (m + Z.of_nat i) = Some x) →
  omap f (seqZ m (Z.of_nat (length q))) = q.
Proof.
  induction q as [|x q IH]; intros m Hf; [done|].
  rewrite seqZ_cons; [simpl; lia|]. cbn [omap list_omap]. rewrite (_ : f m = Some x).
  { specialize (Hf 0%nat x eq_refl). by rewrite Z.add_0_r in Hf. }
  f_equal. rewrite (_ : Z.pred (Z.of_nat (length (x :: q))) = Z.of_nat (length q)); [simpl; lia|].
  apply IH. intros i y Hi. rewrite (_ : Z.succ m + Z.of_nat i = m + Z.of_nat (S i)); [lia|]. by apply Hf.
Qed.

Lemma ring_contents_rep rb q : ring_rep rb q → ring_contents rb = q.
Proof.
  intros H. unfold ring_contents. rewrite (rep_count _ _ H). apply omap_seqZ. intros i x Hi.
  rewrite (rep_index _ _ H). rewrite Z.add_0_l. by apply (rep_cells _ _ H).
Qed.

Lemma ring_rep_unique rb q q' : ring_rep rb q → ring_rep rb q' → q = q'.
Proof. by intros <-%ring_contents_rep <-%ring_contents_rep. Qed.

(** ** Lists of IDs *)

Lemma msg_ids_cons σ l ls m :
  heap σ !! l = Some m → msg_ids σ (l :: ls) = msg_ID m :: msg_ids σ ls.
Proof. intros H. unfold msg_ids. by rewrite fmap_cons H. Qed.

Lemma msg_ids_app σ l1 l2 : msg_ids σ (l1 ++ l2) = msg_ids σ l1 ++ msg_ids σ l2.
Proof. apply fmap_app. Qed.

Global Instance msg_ids_proper σ : Proper ((≡ₚ) ==> (≡ₚ)) (msg_ids σ).
Proof. intros l1 l2 H. unfold msg_ids. by rewrite H. Qed.

Lemma msg_ids_elem σ l ls m : heap σ !! l = Some m → l ∈ ls → msg_ID m ∈ msg_ids σ ls.
Proof.
  intros Hm Hl. unfold msg_ids. apply list_elem_of_fmap. exists l. by rewrite Hm.
Qed.

Lemma pel_ids_split gs g cg :
  gs !! g = Some cg → pel_ids gs ≡ₚ pel_keys cg ++ pel_ids (delete g gs).
Proof.
  intros Hg. unfold pel_ids. rewrite -{1}(insert_delete_id gs g cg Hg).
  rewrite map_to_list_insert; [apply lookup_delete_eq|]. done.
Qed.

Lemma pel_ids_insert gs g cg :
  pel_ids (<[g := cg]> gs) ≡ₚ pel_keys cg ++ pel_ids (delete g gs).
Proof. rewrite (pel_ids_split _ g cg); [apply lookup_insert_eq|]. by rewrite delete_insert_eq. Qed.

Lemma pel_keys_insert g id pm :
  cg_pel g !! id = None → pel_keys (set_pel (<[id := pm]> (cg_pel g)) g) ≡ₚ id :: pel_keys g.
Proof. intros H. unfold pel_keys. simpl. by rewrite map_to_list_insert. Qed.

Lemma pel_keys_delete g id pm :
  cg_pel g !! id = Some pm → pel_keys g ≡ₚ id :: pel_keys (set_pel (delete id (cg_pel g)) g).
Proof. intros H. unfold pel_keys. simpl. by rewrite -(map_to_list_delete _ _ _ H). Qed.

Lemma pel_ids_elem gs g cg id pm :
  gs !! g = Some cg → cg_pel cg !! id = Some pm → id ∈ pel_ids gs.
Proof.
  intros Hg Hp. rewrite (pel_ids_split gs g cg Hg). apply elem_of_app. left.
  rewrite (pel_keys_delete cg id pm Hp). by left.
Qed.

(** ** Writes to the store *)

(** The store after writes that keep the identity and the retry limit of every
    message, and allocations of new cells. *)
Definition evolves (σ σ' : Store) : Prop := ∀ l m, heap σ !! l = Some m →
  ∃ m', heap σ' !! l = Some m' ∧ msg_ID m' = msg_ID m ∧ msg_MaxRetries m' = msg_MaxRetries m.

Lemma evolves_write σ l m m' :
  heap σ !! l = Some m → msg_ID m' = msg_ID m → msg_MaxRetries m' = msg_MaxRetries m →
  evolves σ (mkStore (<[l := m']> (heap σ)) (globalSeq σ)).
Proof.
  intros Hl Hid Hmx k mk Hk. simpl. destruct (decide (l = k)) as [<-|Hne].
  - rewrite lookup_insert_eq. simplify_eq. by exists m'.
  - rewrite lookup_insert_ne //. by exists mk.
Qed.

Lemma evolves_alloc σ m n :
  evolves σ (mkStore (<[fresh (dom (heap σ)) := m]> (heap σ)) n).
Proof.
  intros k mk Hk. simpl. exists mk. rewrite lookup_insert_ne //.
  intros E. pose proof (alloc_fresh σ) as Hf. by rewrite E Hk in Hf.
Qed.

Lemma evolves_ids σ σ' ls :
  evolves σ σ' → (∀ l, l ∈ ls → is_Some (heap σ !! l)) → msg_ids σ' ls = msg_ids σ ls.
Proof.
  intros He Hin. unfold msg_ids. apply list_fmap_ext. intros i l Hl.
  destruct (Hin l) as [m Hm]; [by eapply list_elem_of_lookup_2|].
  destruct (He l m Hm) as (m' & Hm' & Hid & _). by rewrite Hm Hm' /= Hid.
Qed.

(** Only messages with one of the given IDs were written. *)
Definition keeps (ids : list string) (σ σ' : Store) : Prop := ∀ l m,
  heap σ !! l = Some m → msg_ID m ∉ ids → heap σ' !! l = Some m.

Lemma keeps_refl ids σ : keeps ids σ σ.
Proof. by intros l m ? ?. Qed.

Lemma keeps_trans ids σ1 σ2 σ3 : keeps ids σ1 σ2 → keeps ids σ2 σ3 → keeps ids σ1 σ3.
Proof. intros H1 H2 l m Hl Hn. by apply H2; [apply H1|]. Qed.

Lemma keeps_mono ids ids' σ σ' : keeps ids σ σ' → (∀ x, x ∈ ids → x ∈ ids') → keeps ids' σ σ'.
Proof. intros H Hs l m Hl Hn. apply H; auto. Qed.

(** A write to one message, other cells being kept. *)
Lemma keeps_other ids σ σ' l m :
  heap σ !! l = Some m → msg_ID m ∈ ids →
  (∀ l' m', l' ≠ l → heap σ !! l' = Some m' → heap σ' !! l' = Some m') → keeps ids σ σ'.
Proof.
  intros Hl Hin H l' m' Hl' Hn. apply H; [|done]. intros ->. by simplify_eq.
Qed.

Lemma keeps_write ids σ l m m' :
  heap σ !! l = Some m → msg_ID m ∈ ids →
  keeps ids σ (mkStore (<[l := m']> (heap σ)) (globalSeq σ)).
Proof.
  intros Hl Hin. apply (keeps_other ids _ _ l m Hl Hin). intros l' m0 Hne Hl'. simpl.
  by rewrite lookup_insert_ne.
Qed.

Section core.
Context (σ : Store) (rb : RingBuffer) (gs : gmap string ConsumerGroup)
        (d : DeadLetterQueue) (w : TimingWheel) (q : list loc)
        (Hc : core σ rb gs d w q).

Lemma core_live l : l ∈ q ++ (timers w).*1 → is_Some (heap σ !! l).
Proof. intros H. destruct (core_queued _ _ _ _ _ _ Hc l H) as (m & ? & _). eauto. Qed.

Lemma custody_evolves σ' : evolves σ σ' → custody σ' gs d w q = custody σ gs d w q.
Proof.
  intros He. unfold custody. rewrite !(evolves_ids σ σ') //;
    intros l Hl; apply core_live, elem_of_app; auto.
Qed.

(** A write, provided the queued and pending messages stay retryable. *)
Lemma core_write σ' :
  evolves σ σ' →
  (∀ l m, l ∈ q ++ (timers w).*1 → heap σ' !! l = Some m → retryable m) →
  (∀ g cg id pm m, gs !! g = Some cg → cg_pel cg !! id = Some pm →
     heap σ' !! pm_Message pm = Some m → retryable m) →
  core σ' rb gs d w q.
Proof.
  intros He Hq Hp. pose proof Hc as [Hr Hw Hd Ho Hcq Hcp Hcd Hnd]. split; try done.
  - intros l Hl. destruct (Hcq l Hl) as (m & Hm & _). destruct (He l m Hm) as (m' & Hm' & _).
    exists m'. eauto.
  - intros g cg id pm Hg Hpm. destruct (Hcp g cg id pm Hg Hpm) as (m & Hm & Hid & _).
    destruct (He _ m Hm) as (m' & Hm' & Hid' & _). exists m'. rewrite Hid'. eauto.
  - intros id e Hen. destruct (Hcd id e Hen) as (m & Hm & Hid & Hrep).
    destruct (He _ m Hm) as (m' & Hm' & Hid' & Hmx'). exists m'. rewrite Hid'.
    split_and!; [done|done|]. unfold replayable in *. by rewrite Hmx'.
  - by rewrite custody_evolves.
Qed.

(** Writes to messages that are not in custody here. *)
Lemma core_keeps ids σ' :
  keeps ids σ σ' → (∀ x, x ∈ ids → x ∉ custody σ gs d w q) →
  core σ' rb gs d w q ∧ custody σ' gs d w q = custody σ gs d w q.
Proof.
  intros Hk Hdis. pose proof Hc as [Hr Hw Hd Ho Hcq Hcp Hcd Hnd].
  assert (∀ l m, heap σ !! l = Some m → msg_ID m ∈ custody σ gs d w q → heap σ' !! l = Some m) as Hsame.
  { intros l m Hl Hin. apply Hk; [done|]. intros Hx. by apply (Hdis _ Hx). }
  assert (∀ l, l ∈ q ++ (timers w).*1 → ∃ m, heap σ !! l = Some m ∧ heap σ' !! l = Some m ∧ retryable m) as Hq.
  { intros l Hl. destruct (Hcq l Hl) as (m & Hm & Hret). exists m. split_and!; [done| |done].
    apply Hsame; [done|]. unfold custody. rewrite app_assoc -msg_ids_app elem_of_app. left.
    by eapply msg_ids_elem. }
  assert (custody σ' gs d w q = custody σ gs d w q) as Hcu.
  { unfold custody. rewrite !app_assoc -!msg_ids_app. do 2 f_equal.
    unfold msg_ids. apply list_fmap_ext. intros i l Hl%list_elem_of_lookup_2.
    destruct (Hq l Hl) as (m & Hm & Hm' & _). by rewrite Hm Hm'. }
  split; [|done]. split; try done.
  - intros l Hl. destruct (Hq l Hl) as (m & _ & Hm' & Hret). by exists m.
  - intros g cg id pm Hg Hpm. destruct (Hcp g cg id pm Hg Hpm) as (m & Hm & Hid & Hret).
    exists m. split_and!; [|done|done]. apply Hsame; [done|]. unfold custody.
    rewrite !elem_of_app Hid. right; right; left. by eapply pel_ids_elem.
  - intros id e He. destruct (Hcd id e He) as (m & Hm & Hid & Hrep).
    exists m. split_and!; [|done|done]. apply Hsame; [done|]. unfold custody.
    rewrite !elem_of_app Hid. right; right; right. apply Hd. by eexists.
  - by rewrite Hcu.
Qed.

(** A write of a message that is not in custody of the ring, the wheel or a
    group. *)
Lemma core_write_unowned l m m' :
  heap σ !! l = Some m → msg_ID m' = msg_ID m → msg_MaxRetries m' = msg_MaxRetries m →
  msg_ID m ∉ custody σ gs d w q →
  core (mkStore (<[l := m']> (heap σ)) (globalSeq σ)) rb gs d w q.
Proof.
  intros Hl Hid Hmx Hno. pose proof Hc as [Hr Hw Hd Ho Hcq Hcp Hcd Hnd].
  unfold custody in Hno. rewrite !not_elem_of_app in Hno. destruct Hno as (Hn1 & Hn2 & Hn3 & _).
  apply core_write; [by eapply evolves_write|..]; simpl.
  - intros k mk Hk. rewrite lookup_insert. case_decide as E.
    + subst k. exfalso. apply elem_of_app in Hk as [Hk|Hk].
      * apply Hn1. by eapply msg_ids_elem.
      * apply Hn2. by eapply msg_ids_elem.
    + intros Hmk. destruct (Hcq k Hk) as (? & ? & ?). by simplify_eq.
  - intros g cg id pm mk Hg Hpm. destruct (Hcp g cg id pm Hg Hpm) as (m0 & Hm0 & Hid0 & Hret).
    rewrite lookup_insert. case_decide as E; [|intros ?; by simplify_eq].
    exfalso. apply Hn3. rewrite -E Hl in Hm0. simplify_eq. by eapply pel_ids_elem.
Qed.

(** ** Moves into and out of the ring *)

Lemma core_push l m :
  heap σ !! l = Some m → retryable m → msg_ID m ∉ custody σ gs d w q →
  Z.of_nat (length q) < ring_limit rb →
  ∃ rb', Push l rb = Ret true rb' ∧ core σ rb' gs d w (q ++ [l]) ∧
    ring_limit rb' = ring_limit rb ∧
    custody σ gs d w (q ++ [l]) ≡ₚ msg_ID m :: custody σ gs d w q.
Proof.
  intros Hl Hret Hno Hroom. pose proof Hc as [Hr Hw Hd [Ho1 Ho2] Hcq Hcp Hcd Hnd].
  destruct (Push_run rb q l Hr Ho1) as (rb' & E & Hr' & Hlim & Hcl).
  rewrite (proj2 (Z.leb_gt _ _)) // in Hr'.
  assert (custody σ gs d w (q ++ [l]) ≡ₚ msg_ID m :: custody σ gs d w q) as Hp.
  { unfold custody. rewrite msg_ids_app (msg_ids_cons σ l [] m) //=. by rewrite -app_assoc -Permutation_middle. }
  exists rb'. split_and!; [done| |done|done]. split; try done.
  - intros k. rewrite -app_assoc !elem_of_app list_elem_of_singleton.
    intros [?|[->|?]]; [|by exists m|]; apply Hcq, elem_of_app; auto.
  - rewrite Hp. by apply NoDup_cons.
Qed.

Lemma core_push_front l m :
  heap σ !! l = Some m → retryable m → msg_ID m ∉ custody σ gs d w q →
  Z.of_nat (length q) < ring_limit rb →
  ∃ rb', PushFront l rb = Ret true rb' ∧ core σ rb' gs d w (l :: q) ∧
    ring_limit rb' = ring_limit rb ∧
    custody σ gs d w (l :: q) = msg_ID m :: custody σ gs d w q.
Proof.
  intros Hl Hret Hno Hroom. pose proof Hc as [Hr Hw Hd [Ho1 Ho2] Hcq Hcp Hcd Hnd].
  destruct (PushFront_run rb q l Hr Ho1) as (rb' & E & Hr' & Hlim & Hcl).
  rewrite (proj2 (Z.leb_gt _ _)) // in Hr'.
  assert (custody σ gs d w (l :: q) = msg_ID m :: custody σ gs d w q) as Hp.
  { unfold custody. by rewrite (msg_ids_cons σ l q m). }
  exists rb'. split_and!; [done| |done|done]. split; try done.
  - intros k. simpl. rewrite elem_of_cons. intros [->|?]; [by exists m|by apply Hcq].
  - rewrite Hp. by apply NoDup_cons.
Qed.

Lemma core_pop rb' l q' :
  q = l :: q' → ring_rep rb' q' → rb_closed rb' = rb_closed rb →
  core σ rb' gs d w q' ∧
  ∃ m, heap σ !! l = Some m ∧ retryable m ∧
       custody σ gs d w q = msg_ID m :: custody σ gs d w q' ∧
       msg_ID m ∉ custody σ gs d w q'.
Proof.
  intros -> Hr' Hcl. pose proof Hc as [Hr Hw Hd [Ho1 Ho2] Hcq Hcp Hcd Hnd].
  destruct (Hcq l ltac:(by left)) as (m & Hm & Hret).
  assert (custody σ gs d w (l :: q') = msg_ID m :: custody σ gs d w q') as Hp.
  { unfold custody. by rewrite (msg_ids_cons σ l q' m). }
  rewrite Hp in Hnd. apply NoDup_cons in Hnd as [Hni Hnd]. split; [|by exists m].
  split; try done; [by rewrite Hcl|]. intros k Hk. apply Hcq. by right.
Qed.

(** ** Moves into and out of the wheel *)

Lemma core_schedule l m delay :
  heap σ !! l = Some m → retryable m → msg_ID m ∉ custody σ gs d w q → 0 < delay →
  ∃ w', schedule l delay w = Ret tt w' ∧ core σ rb gs d w' q ∧
    timers w' ≡ₚ (l, delay_ticks delay (tw_interval w)) :: timers w ∧
    tw_interval w' = tw_interval w ∧
    custody σ gs d w' q ≡ₚ msg_ID m :: custody σ gs d w q.
Proof.
  intros Hl Hret Hno Hdel. pose proof Hc as [Hr Hw Hd [Ho1 Ho2] Hcq Hcp Hcd Hnd].
  destruct (schedule_run w l delay Hw Ho2 Hdel) as (w' & E & Hw' & Hcl & Hi & Ht).
  assert (custody σ gs d w' q ≡ₚ msg_ID m :: custody σ gs d w q) as Hp.
  { unfold custody. rewrite Ht fmap_cons (msg_ids_cons σ l _ m) //=. by rewrite -Permutation_middle. }
  exists w'. split_and!; [done| |done|done|done]. split; try done.
  - intros k. rewrite elem_of_app Ht fmap_cons elem_of_cons.
    intros [?|[->|?]]; [|by exists m|]; apply Hcq, elem_of_app; auto.
  - rewrite Hp. by apply NoDup_cons.
Qed.

Lemma cd_split ts : ts.*1 ≡ₚ cd_fires ts ++ (cd_rest ts).*1.
Proof.
  induction ts as [|[l x] ts IH]; [done|]. unfold cd_fires, cd_rest in *.
  rewrite fmap_cons !filter_cons. unfold due_now in *. simpl.
  destruct (Z.eqb_spec x 0); simpl; rewrite IH //. by rewrite Permutation_middle.
Qed.

Lemma core_tick :
  ∃ w', tick w = Ret (cd_fires (timers w)) w' ∧ core σ rb gs d w' q ∧
    timers w' ≡ₚ cd_rest (timers w) ∧ tw_interval w' = tw_interval w ∧
    (∀ l, l ∈ cd_fires (timers w) → ∃ m, heap σ !! l = Some m ∧ retryable m) ∧
    msg_ids σ (cd_fires (timers w)) ++ custody σ gs d w' q ≡ₚ custody σ gs d w q.
Proof.
  pose proof Hc as [Hr Hw Hd [Ho1 Ho2] Hcq Hcp Hcd Hnd].
  destruct (tick_run w Hw) as (w' & E & Hw' & Hcl & Hi & Ht).
  assert (msg_ids σ (cd_fires (timers w)) ++ custody σ gs d w' q ≡ₚ custody σ gs d w q) as Hp.
  { unfold custody. rewrite Ht (cd_split (timers w)) msg_ids_app.
    rewrite -(app_assoc _ _ (pel_ids gs ++ _)). by rewrite Permutation_app_swap_app. }
  exists w'. split_and!; [done| |done|done| |done].
  - split; try done; [by rewrite Hcl| |].
    + intros k Hk. apply Hcq. rewrite elem_of_app Ht in Hk. rewrite elem_of_app (cd_split (timers w)).
      rewrite elem_of_app. tauto.
    + rewrite -Hp in Hnd. by apply NoDup_app in Hnd as (_ & _ & ?).
  - intros l Hl. apply Hcq. rewrite elem_of_app (cd_split (timers w)) elem_of_app. auto.
Qed.

(** ** Moves into and out of a pending list *)

Lemma core_pel_add g cg l m pm consumers :
  gs !! g = Some cg → heap σ !! l = Some m → retryable m → pm_Message pm = l →
  msg_ID m ∉ custody σ gs d w q →
  let cg' := mkGroup (cg_name cg) (cg_topicName cg) (<[msg_ID m := pm]> (cg_pel cg)) consumers
               (cg_defaultTimeout cg) in
  core σ rb (<[g := cg']> gs) d w q ∧
  custody σ (<[g := cg']> gs) d w q ≡ₚ msg_ID m :: custody σ gs d w q.
Proof.
  intros Hg Hl Hret Hpm Hno cg'. pose proof Hc as [Hr Hw Hd Ho Hcq Hcp Hcd Hnd].
  assert (cg_pel cg !! msg_ID m = None) as Hfree.
  { destruct (cg_pel cg !! msg_ID m) eqn:E; [|done]. exfalso. apply Hno.
    unfold custody. rewrite !elem_of_app. right; right; left. by eapply pel_ids_elem. }
  assert (custody σ (<[g := cg']> gs) d w q ≡ₚ msg_ID m :: custody σ gs d w q) as Hp.
  { unfold custody. rewrite pel_ids_insert (pel_ids_split gs g cg Hg).
    change (pel_keys cg') with (pel_keys (set_pel (<[msg_ID m := pm]> (cg_pel cg)) cg)).
    rewrite (pel_keys_insert cg _ pm Hfree) /=. by rewrite !Permutation_middle. }
  split; [|done]. split; try done; [|by rewrite Hp; apply NoDup_cons].
  intros g' cg0 id pm0. rewrite lookup_insert. case_decide; [intros [= <-]|apply Hcp].
  simpl. rewrite lookup_insert. case_decide; [intros [= <-]|by apply (Hcp g)].
  exists m. by rewrite Hpm.
Qed.

Lemma core_pel_remove g cg id pm :
  gs !! g = Some cg → cg_pel cg !! id = Some pm →
  let gs' := <[g := set_pel (delete id (cg_pel cg)) cg]> gs in
  core σ rb gs' d w q ∧ custody σ gs d w q ≡ₚ id :: custody σ gs' d w q ∧
  id ∉ custody σ gs' d w q ∧
  ∃ m, heap σ !! pm_Message pm = Some m ∧ msg_ID m = id ∧ retryable m.
Proof.
  intros Hg Hpm gs'. pose proof Hc as [Hr Hw Hd Ho Hcq Hcp Hcd Hnd].
  assert (custody σ gs d w q ≡ₚ id :: custody σ gs' d w q) as Hp.
  { unfold custody, gs'. rewrite pel_ids_insert (pel_ids_split gs g cg Hg).
    rewrite (pel_keys_delete cg id pm Hpm) /=. by rewrite !Permutation_middle. }
  rewrite Hp in Hnd. apply NoDup_cons in Hnd as [Hni Hnd].
  split_and!; [|done|done|by eapply Hcp]. split; try done.
  intros g' cg0 id' pm'. unfold gs'. rewrite lookup_insert. case_decide; [intros [= <-]|apply Hcp].
  simpl. intros [_ ?]%lookup_delete_Some. by eapply (Hcp g).
Qed.

(** A new, empty group. *)
Lemma core_new_group g cg :
  gs !! g = None → cg_pel cg = ∅ →
  core σ rb (<[g := cg]> gs) d w q ∧ custody σ (<[g := cg]> gs) d w q ≡ₚ custody σ gs d w q.
Proof.
  intros Hg He. pose proof Hc as [Hr Hw Hd Ho Hcq Hcp Hcd Hnd].
  assert (custody σ (<[g := cg]> gs) d w q ≡ₚ custody σ gs d w q) as Hp.
  { unfold custody. rewrite pel_ids_insert delete_id //. unfold pel_keys. by rewrite He map_to_list_empty. }
  split; [|done]. split; try done; [|by rewrite Hp].
  intros g' cg0 id pm. rewrite lookup_insert. case_decide; [intros [= <-]|apply Hcp].
  by rewrite He lookup_empty.
Qed.

(** ** Moves into and out of the dead letter queue *)

Lemma core_dead_letter l m cause now :
  heap σ !! l = Some m → replayable m → msg_ID m ∉ custody σ gs d w q →
  Z.of_nat (length (dlq_order d)) < dlq_maxSize d →
  ∃ σ' d', DeadLetter.Add l cause now (σ, d) = Ret tt (σ', d') ∧ core σ' rb gs d' w q ∧
    heap σ ⊆ heap σ' ∧ evolves σ σ' ∧ dlq_maxSize d' = dlq_maxSize d ∧
    dlq_order d' = dlq_order d ++ [msg_ID m] ∧
    custody σ' gs d' w q ≡ₚ msg_ID m :: custody σ gs d w q.
Proof.
  intros Hl Hrep Hno Hroom. pose proof Hc as [Hr Hw Hd Ho Hcq Hcp Hcd Hnd].
  destruct (Add_run σ d l m cause now Hd Hl) as (d' & E & Hd' & Hmx & Hv).
  set (σ' := mkStore _ _) in E. set (e := mkDLE _ _ _ _) in Hv.
  assert (evolves σ σ') as Hev by apply evolves_alloc.
  assert (msg_ID m ∉ (dlq_view d).*1) as Hnk.
  { rewrite (view_keys _ Hd). unfold custody in Hno. rewrite !not_elem_of_app in Hno. tauto. }
  assert (dlq_view d' = dlq_view d ++ [(msg_ID m, e)]) as Hv'.
  { rewrite Hv. unfold assoc_trim, assoc_put. rewrite (view_length _ Hd) (proj2 (Z.leb_gt _ _)) //.
    by rewrite decide_False. }
  assert (dlq_order d' = dlq_order d ++ [msg_ID m]) as Hord.
  { by rewrite -(view_keys _ Hd') Hv' fmap_app (view_keys _ Hd). }
  assert (core σ' rb gs d w q) as Hc'.
  { apply core_write; [done|..].
    - intros k mk Hk. destruct (Hcq k Hk) as (m0 & Hm0 & Hret). unfold σ'. simpl.
      rewrite lookup_insert_ne; [|intros ?; by simplify_eq].
      intros Ek. pose proof (alloc_fresh σ) as Hf. by rewrite Ek Hm0 in Hf.
    - intros g cg id pm mk Hg Hpm. destruct (Hcp g cg id pm Hg Hpm) as (m0 & Hm0 & _ & Hret).
      unfold σ'. simpl. rewrite lookup_insert_ne; [|intros ?; by simplify_eq].
      intros Ek. pose proof (alloc_fresh σ) as Hf. by rewrite Ek Hm0 in Hf. }
  assert (custody σ' gs d' w q ≡ₚ msg_ID m :: custody σ gs d w q) as Hp.
  { rewrite -(custody_evolves σ' Hev). unfold custody. rewrite Hord. rewrite !app_assoc.
    by rewrite -Permutation_cons_append. }
  exists σ', d'. split_and!; [done| | |done|done|done|done]; [|by apply insert_subseteq, alloc_fresh].
  destruct Hc' as [Hr2 Hw2 Hd2 Ho2 Hcq2 Hcp2 Hcd2 Hnd2]. split; try done.
  - intros id e0. rewrite -(view_elem _ Hd') Hv' elem_of_app list_elem_of_singleton.
    intros [?|[= -> ->]]; [by apply Hcd2, (view_elem _ Hd)|].
    exists m. split_and!; [|done|done]. apply lookup_insert_eq.
  - rewrite Hp. by apply NoDup_cons.
Qed.

(** The dead letter queue is emptied. *)
Lemma core_purge d' :
  dlq_ok d' → dlq_order d' = [] → core σ rb gs d' w q ∧
  custody σ gs d w q ≡ₚ dlq_order d ++ custody σ gs d' w q.
Proof.
  intros Hok Ho. assert (custody σ gs d w q ≡ₚ dlq_order d ++ custody σ gs d' w q) as Hp.
  { unfold custody. rewrite Ho app_nil_r (Permutation_app_comm (dlq_order d)). by rewrite -!app_assoc. }
  split; [|done]. destruct Hc as [H1 H2 H3 H4 H5 H6 H7 H8]. split; try done.
  - intros id e He. exfalso. pose proof (proj2 (dok_dom _ Hok id) (ex_intro _ _ He)) as Hin.
    rewrite Ho in Hin. by apply elem_of_nil in Hin.
  - rewrite Hp in H8. by apply NoDup_app in H8 as (_ & _ & ?).
Qed.

Lemma core_dead_remove id e d' :
  dlq_entries d !! id = Some e → dlq_ok d' → dlq_entries d' = delete id (dlq_entries d) →
  dlq_view d' = filter (λ p, p.1 ≠ id) (dlq_view d) →
  core σ rb gs d' w q ∧ custody σ gs d w q ≡ₚ id :: custody σ gs d' w q ∧
  id ∉ custody σ gs d' w q ∧
  ∃ m, heap σ !! dle_Message e = Some m ∧ msg_ID m = id ∧ replayable m.
Proof.
  intros He Hd' Hent Hv. pose proof Hc as [Hr Hw Hd Ho Hcq Hcp Hcd Hnd].
  assert (dlq_order d ≡ₚ id :: dlq_order d') as Hord.
  { apply NoDup_Permutation; [apply Hd| |].
    - apply NoDup_cons. split; [|apply Hd']. rewrite (dok_dom _ Hd') Hent lookup_delete_eq.
      by intros [? ?].
    - intros k. rewrite elem_of_cons (dok_dom _ Hd) (dok_dom _ Hd') Hent lookup_delete.
      case_decide as Ek; [subst; naive_solver|]. naive_solver. }
  assert (custody σ gs d w q ≡ₚ id :: custody σ gs d' w q) as Hp.
  { unfold custody. rewrite Hord. by rewrite !Permutation_middle. }
  rewrite Hp in Hnd. apply NoDup_cons in Hnd as [Hni Hnd].
  split_and!; [|done|done|by apply Hcd]. split; try done.
  intros id' e'. rewrite Hent. intros [_ ?]%lookup_delete_Some. by apply Hcd.
Qed.
End core.

(** The locked part of a sweep, in whatever order it visits the entries. *)
Lemma core_sweep σ rb d w q order now g : ∀ gs cg,
  core σ rb gs d w q → gs !! g = Some cg →
  let r := sweep_collect order now (cg_pel cg) in
  core σ rb (<[g := set_pel r.2 cg]> gs) d w q ∧
  (∀ l, l ∈ r.1 → ∃ m, heap σ !! l = Some m ∧ retryable m) ∧
  msg_ids σ r.1 ++ custody σ (<[g := set_pel r.2 cg]> gs) d w q ≡ₚ custody σ gs d w q.
Proof.
  induction order as [|id order IH]; intros gs cg Hc Hg.
  { simpl. replace (set_pel (cg_pel cg) cg) with cg by by destruct cg. rewrite insert_id //.
    split_and!; [done| |done]. by intros l ?%elem_of_nil. }
  simpl. destruct (cg_pel cg !! id) as [p|] eqn:Hp; [|by apply IH].
  destruct (pm_AckDeadline p <=? now); [|by apply IH].
  destruct (core_pel_remove _ _ _ _ _ _ Hc g cg id p Hg Hp) as (Hc1 & Hcu & Hni & m & Hm & Hid & Hret).
  destruct (IH _ (set_pel (delete id (cg_pel cg)) cg) Hc1 (lookup_insert_eq _ _ _)) as (Hc2 & Hls & Hcu2).
  simpl in Hc2, Hls, Hcu2. destruct (sweep_collect _ _ _) as [out pel']. simpl in *.
  rewrite insert_insert_eq in Hc2 Hcu2. split_and!; [done| |].
  - intros l [->|?]%elem_of_cons; [by exists m|by apply Hls].
  - rewrite Hm Hcu -Hcu2 /= Hid. done.
Qed.
