(* ===== verification/TopicSafety.v ===== *)
(** * What a topic promises

    The theorems about [Topic]: no operation loses or duplicates a message.
    The invariant [topic_inv k s q] says that the topic is open, its ring holds
    [q], its components satisfy [Custody.core], and there is room for the
    messages in custody and [k] more.  Every operation is run once, in a lemma
    that gives its result and its effect on the IDs in custody; the theorems
    compose these lemmas over arbitrary sequences of calls. *)

From S2P Require Import Prelude GoText Message RingBuffer TimingWheel DeadLetter ConsumerGroup.
From S2P Require Import Topic Custody.

Definition held (s : TS) (q : list loc) : list string :=
  custody s.1 (t_groups s.2) (t_dlq s.2) (t_tw s.2) q.

(** The IDs a topic answers for. *)
Definition holds (s : TS) : list string := held s (ring_contents (t_ring s.2)).

(** The number of messages the ring and the dead letter queue can both hold. *)
Definition topic_room (t : Topic) : Z := Z.min (ring_limit (t_ring t)) (dlq_maxSize (t_dlq t)).

Record topic_inv (k : nat) (s : TS) (q : list loc) : Prop := mkTopicInv {
  ti_core : core s.1 (t_ring s.2) (t_groups s.2) (t_dlq s.2) (t_tw s.2) q;
  ti_open : t_closed s.2 = false;
  ti_room : Z.of_nat (length (held s q) + k) ≤ topic_room s.2
}.

(** ** Running programs *)

(** Runs the glue but leaves the calls into components folded, so that their
    lemmas apply. *)
Ltac glue :=
  cbv [mret mbind prog_ret prog_bind get put must modify gets];
  cbn [view over lens_fst lens_snd fst snd].

(** ** Moves *)

Lemma held_length_ring k s q : topic_inv k s q →
  Z.of_nat (length q + length (dlq_order (t_dlq s.2)) + k) ≤ topic_room s.2.
Proof.
  intros [_ _ H]. unfold held, custody, msg_ids in H.
  rewrite !length_app !length_fmap in H. lia.
Qed.

Lemma holds_inv k s q : topic_inv k s q → holds s = held s q.
Proof. intros Hi. unfold holds. by rewrite (ring_contents_rep _ _ (core_ring _ _ _ _ _ _ (ti_core _ _ _ Hi))). Qed.

(** Writes to messages of other topics. *)
Lemma inv_keeps k σ σ' t q ids :
  topic_inv k (σ, t) q → keeps ids σ σ' → (∀ x, x ∈ ids → x ∉ held (σ, t) q) →
  topic_inv k (σ', t) q ∧ held (σ', t) q = held (σ, t) q.
Proof.
  intros Hi Hk Hd. destruct (core_keeps _ _ _ _ _ _ (ti_core _ _ _ Hi) ids σ' Hk Hd) as [Hc Hh].
  split; [|exact Hh]. split; [done|apply Hi|]. change (held (σ', t) q = held (σ, t) q) in Hh.
  rewrite Hh. apply Hi.
Qed.

(** Counters are not part of the invariant. *)
Lemma inv_counters k σ t t' q :
  topic_inv k (σ, t) q →
  t_ring t' = t_ring t → t_groups t' = t_groups t → t_dlq t' = t_dlq t → t_tw t' = t_tw t →
  t_closed t' = t_closed t → topic_inv k (σ, t') q.
Proof.
  intros [Hc Ho Hr] E1 E2 E3 E4 E5. split; unfold held, topic_room in *; simpl in *;
    by rewrite ?E1 ?E2 ?E3 ?E4 ?E5.
Qed.

Lemma inv_weaken k k' s q : topic_inv k s q → (k' ≤ k)%nat → topic_inv k' s q.
Proof. intros [Hc Ho Hr] ?. split; [done|done|]. lia. Qed.

Lemma room_perm k k' s q s' q' ids :
  topic_inv k s q → (length ids + k' = k)%nat →
  held s' q' ≡ₚ ids ++ held s q → topic_room s'.2 = topic_room s.2 →
  Z.of_nat (length (held s' q') + k') ≤ topic_room s'.2.
Proof. intros [_ _ Hr] Hk -> ->. rewrite length_app. lia. Qed.

Lemma move_push k s q l m :
  topic_inv (S k) s q → heap s.1 !! l = Some m → retryable m → msg_ID m ∉ held s q →
  ∃ rb', zoom lens_ring (Push l) s = Ret true (s.1, set_ring rb' s.2) ∧
    topic_inv k (s.1, set_ring rb' s.2) (q ++ [l]) ∧
    held (s.1, set_ring rb' s.2) (q ++ [l]) ≡ₚ msg_ID m :: held s q ∧
    ring_limit rb' = ring_limit (t_ring s.2).
Proof.
  intros Hi Hl Hret Hno. pose proof (held_length_ring _ _ _ Hi) as Hlen.
  destruct (core_push _ _ _ _ _ _ (ti_core _ _ _ Hi) l m Hl Hret Hno) as (rb' & E & Hc & Hlim & Hp).
  { unfold topic_room in Hlen. lia. }
  exists rb'. split_and!; [by apply (zoom_ret lens_ring)| |done|done].
  split; [done|apply Hi|]. eapply (room_perm (S k) k s q _ _ [msg_ID m] Hi); [done|done|].
  unfold topic_room. simpl. by rewrite Hlim.
Qed.

Lemma move_push_front k s q l m :
  topic_inv (S k) s q → heap s.1 !! l = Some m → retryable m → msg_ID m ∉ held s q →
  ∃ rb', zoom lens_ring (PushFront l) s = Ret true (s.1, set_ring rb' s.2) ∧
    topic_inv k (s.1, set_ring rb' s.2) (l :: q) ∧
    held (s.1, set_ring rb' s.2) (l :: q) = msg_ID m :: held s q ∧
    ring_limit rb' = ring_limit (t_ring s.2).
Proof.
  intros Hi Hl Hret Hno. pose proof (held_length_ring _ _ _ Hi) as Hlen.
  destruct (core_push_front _ _ _ _ _ _ (ti_core _ _ _ Hi) l m Hl Hret Hno) as (rb' & E & Hc & Hlim & Hp).
  { unfold topic_room in Hlen. lia. }
  exists rb'. split_and!; [by apply (zoom_ret lens_ring)| |done|done].
  split; [done|apply Hi|]. eapply (room_perm (S k) k s q _ _ [msg_ID m] Hi); [done|unfold held; simpl; by rewrite Hp|].
  unfold topic_room. simpl. by rewrite Hlim.
Qed.

(** The ring after its head [l] was taken. *)
Lemma move_pop k s q l rb' :
  topic_inv k s (l :: q) → ring_rep rb' q → rb_capacity rb' = rb_capacity (t_ring s.2) →
  rb_closed rb' = rb_closed (t_ring s.2) →
  topic_inv (S k) (s.1, set_ring rb' s.2) q ∧
  ∃ m, heap s.1 !! l = Some m ∧ retryable m ∧ msg_ID m ∉ held (s.1, set_ring rb' s.2) q ∧
    held s (l :: q) = msg_ID m :: held (s.1, set_ring rb' s.2) q.
Proof.
  intros Hi Hrep Hcap Hcl.
  destruct (core_pop _ _ _ _ _ _ (ti_core _ _ _ Hi) rb' l q eq_refl Hrep Hcl)
    as (Hc & m & Hm & Hret & Hp & Hni).
  split; [|by exists m]. split; [done|apply Hi|]. pose proof (ti_room _ _ _ Hi) as Hr.
  change (held s (l :: q)) with (custody s.1 (t_groups s.2) (t_dlq s.2) (t_tw s.2) (l :: q)) in Hr.
  rewrite Hp in Hr. unfold topic_room, ring_limit in *. simpl in *. rewrite Hcap.
  unfold held. simpl. lia.
Qed.

Lemma move_schedule k s q l m delay :
  topic_inv (S k) s q → heap s.1 !! l = Some m → retryable m → msg_ID m ∉ held s q → 0 < delay →
  ∃ w', TimingWheel.Add lens_tw (Some onExpire) l delay s = Ret tt (s.1, set_tw w' s.2) ∧
    topic_inv k (s.1, set_tw w' s.2) q ∧
    timers w' ≡ₚ (l, delay_ticks delay (tw_interval (t_tw s.2))) :: timers (t_tw s.2) ∧
    tw_interval w' = tw_interval (t_tw s.2) ∧
    held (s.1, set_tw w' s.2) q ≡ₚ msg_ID m :: held s q.
Proof.
  intros Hi Hl Hret Hno Hd.
  destruct (core_schedule _ _ _ _ _ _ (ti_core _ _ _ Hi) l m delay Hl Hret Hno Hd)
    as (w' & E & Hc & Ht & Hiv & Hp).
  exists w'. split_and!; [| |done|done|done].
  { unfold TimingWheel.Add. rewrite (proj2 (Z.leb_gt _ _)) //. by apply (zoom_ret lens_tw). }
  split; [done|apply Hi|]. by eapply (room_perm (S k) k s q _ _ [msg_ID m] Hi).
Qed.

Lemma move_dead_letter k s q l m cause now :
  topic_inv (S k) s q → heap s.1 !! l = Some m → replayable m → msg_ID m ∉ held s q →
  ∃ σ' d', onDeadLetter now l cause s = Ret tt (σ', add_deadLettered (set_dlq d' s.2)) ∧
    topic_inv k (σ', add_deadLettered (set_dlq d' s.2)) q ∧ heap s.1 ⊆ heap σ' ∧
    evolves s.1 σ' ∧
    dlq_order d' = dlq_order (t_dlq s.2) ++ [msg_ID m] ∧
    held (σ', add_deadLettered (set_dlq d' s.2)) q ≡ₚ msg_ID m :: held s q.
Proof.
  intros Hi Hl Hrep Hno. pose proof (held_length_ring _ _ _ Hi) as Hlen.
  destruct (core_dead_letter _ _ _ _ _ _ (ti_core _ _ _ Hi) l m cause now Hl Hrep Hno)
    as (σ' & d' & E & Hc & Hsub & Hev & Hmx & Hord & Hp).
  { unfold topic_room in Hlen. lia. }
  exists σ', d'. split_and!; [| |done|done|done|done].
  { unfold onDeadLetter. by rewrite (bind_ret _ _ _ _ _ (zoom_ret lens_store_dlq _ s _ _ E)). }
  split; [done|apply Hi|]. eapply (room_perm (S k) k s q _ _ [msg_ID m] Hi); [done|done|].
  unfold topic_room. simpl. by rewrite Hmx.
Qed.

(** ** Writes to a message in flight *)

Lemma move_write k s q l m m' :
  topic_inv k s q → heap s.1 !! l = Some m → msg_ID m' = msg_ID m →
  msg_MaxRetries m' = msg_MaxRetries m → msg_ID m ∉ held s q →
  let s' := (mkStore (<[l := m']> (heap s.1)) (globalSeq s.1), s.2) in
  zoom lens_fst (store l m') s = Ret tt s' ∧ topic_inv k s' q ∧ held s' q = held s q.
Proof.
  intros Hi Hl Hid Hmx Hno s'.
  pose proof (core_write_unowned _ _ _ _ _ _ (ti_core _ _ _ Hi) l m m' Hl Hid Hmx Hno) as Hc.
  assert (held s' q = held s q) as Hh.
  { apply (custody_evolves _ _ _ _ _ _ (ti_core _ _ _ Hi)). by eapply evolves_write. }
  split_and!; [|split; [done|apply Hi|rewrite Hh; apply Hi]|done].
  by apply (zoom_ret lens_fst).
Qed.

Lemma load_run (s : TS) l m :
  heap s.1 !! l = Some m → zoom lens_fst (load l) s = Ret m s.
Proof. intros Hl. unfold zoom, load. simpl. rewrite Hl. by destruct s. Qed.

Lemma payload_run (s : TS) l m :
  heap s.1 !! l = Some m → payload_len l s = Ret (len_slice (msg_Payload m)) s.
Proof. intros Hl. unfold payload_len. by rewrite (bind_ret _ _ _ _ _ (load_run s l m Hl)). Qed.

(** ** Publishing *)

Lemma Publish_run k s q l m :
  topic_inv (S k) s q → heap s.1 !! l = Some m → retryable m → msg_ID m ∉ held s q →
  ∃ rb', let s' := (s.1, add_published (len_slice (msg_Payload m)) (set_ring rb' s.2)) in
    Publish l s = Ret true s' ∧ topic_inv k s' (q ++ [l]) ∧
    held s' (q ++ [l]) ≡ₚ msg_ID m :: held s q ∧ topic_room s'.2 = topic_room s.2.
Proof.
  intros Hi Hl Hret Hno. destruct (move_push k s q l m Hi Hl Hret Hno) as (rb' & E & Hi' & Hp & Hlim).
  exists rb'. split_and!; [|by eapply inv_counters|done|unfold topic_room; simpl; by rewrite Hlim].
  unfold Publish. glue. rewrite (ti_open _ _ _ Hi) E. by rewrite (payload_run _ l m).
Qed.

Lemma PublishFront_run k s q l m :
  topic_inv (S k) s q → heap s.1 !! l = Some m → retryable m → msg_ID m ∉ held s q →
  ∃ rb', let s' := (s.1, add_published (len_slice (msg_Payload m)) (set_ring rb' s.2)) in
    PublishFront l s = Ret true s' ∧ topic_inv k s' (l :: q) ∧
    held s' (l :: q) ≡ₚ msg_ID m :: held s q ∧ topic_room s'.2 = topic_room s.2.
Proof.
  intros Hi Hl Hret Hno. destruct (move_push_front k s q l m Hi Hl Hret Hno) as (rb' & E & Hi' & Hp & Hlim).
  exists rb'. split_and!; [|by eapply inv_counters|by rewrite -Hp|unfold topic_room; simpl; by rewrite Hlim].
  unfold PublishFront. glue. rewrite (ti_open _ _ _ Hi) E. by rewrite (payload_run _ l m).
Qed.

(** A delayed publication goes to the wheel, or to the ring at once when the
    delay is not positive. *)
Lemma PublishDelayed_run k s q l m delay now :
  topic_inv (S k) s q → heap s.1 !! l = Some m → retryable m → msg_ID m ∉ held s q →
  ∃ s', PublishDelayed l delay now s = Ret tt s' ∧
    topic_inv k s' (if delay <=? 0 then q ++ [l] else q) ∧
    held s' (if delay <=? 0 then q ++ [l] else q) ≡ₚ msg_ID m :: held s q ∧
    heap s'.1 !! l = Some (set_DeliverAt (i64 (now + delay)) m) ∧
    keeps [msg_ID m] s.1 s'.1.
Proof.
  intros Hi Hl Hret Hno. set (m' := set_DeliverAt (i64 (now + delay)) m).
  destruct (move_write (S k) s q l m m' Hi Hl) as (E & Hi1 & Hh1); [done|done|done|].
  set (s1 := (mkStore _ _, _)) in *.
  assert (heap s1.1 !! l = Some m') as Hl1 by apply lookup_insert_eq.
  set (s2 := (s1.1, add_published (len_slice (msg_Payload m')) s1.2)).
  assert (topic_inv (S k) s2 q) as Hi2 by (by eapply inv_counters).
  assert (PublishDelayed l delay now s = TimingWheel.Add lens_tw (Some onExpire) l delay s2) as Er.
  { unfold PublishDelayed. rewrite (bind_ret _ _ _ _ _ (load_run s l m Hl)).
    rewrite (bind_ret _ _ _ _ _ E). by rewrite (bind_ret _ _ _ _ _ (payload_run s1 l m' Hl1)). }
  assert (keeps [msg_ID m] s.1 s1.1) as Hk by (by eapply keeps_write; [|left]).
  assert (msg_ID m' ∉ held s2 q) as Hno2 by (change (held s2 q) with (held s1 q); by rewrite Hh1).
  rewrite Er. destruct (Z.leb_spec delay 0) as [Hle|Hgt].
  - destruct (move_push k s2 q l m' Hi2 Hl1 Hret Hno2) as (rb' & E3 & Hi3 & Hp3 & _).
    eexists. split_and!; [|exact Hi3|by rewrite Hp3 -Hh1|exact Hl1|exact Hk].
    unfold TimingWheel.Add, fire, onExpire. rewrite (proj2 (Z.leb_le _ _)) //.
    by rewrite (bind_ret _ _ _ _ _ E3).
  - destruct (move_schedule k s2 q l m' delay Hi2 Hl1 Hret Hno2 Hgt) as (w' & E3 & Hi3 & _ & _ & Hp3).
    eexists. split_and!; [exact E3|exact Hi3|by rewrite Hp3 -Hh1|exact Hl1|exact Hk].
Qed.

(** ** The ticker *)

Lemma forM_expire ls : ∀ k s q,
  topic_inv (length ls + k) s q →
  (∀ l, l ∈ ls → ∃ m, heap s.1 !! l = Some m ∧ retryable m) →
  NoDup (msg_ids s.1 ls ++ held s q) →
  ∃ rb', forM ls onExpire s = Ret tt (s.1, set_ring rb' s.2) ∧
    topic_inv k (s.1, set_ring rb' s.2) (q ++ ls) ∧
    held (s.1, set_ring rb' s.2) (q ++ ls) ≡ₚ msg_ids s.1 ls ++ held s q.
Proof.
  induction ls as [|l ls IH]; intros k s q Hi Hls Hnd.
  { exists (t_ring s.2). destruct s as [σ []]. rewrite app_nil_r. by split_and!. }
  destruct (Hls l ltac:(by left)) as (m & Hm & Hret).
  rewrite (msg_ids_cons _ _ _ m Hm) -app_comm_cons in Hnd |- *.
  apply NoDup_cons in Hnd as [Hni Hnd]. apply not_elem_of_app in Hni as [Hni1 Hni2].
  destruct (move_push (length ls + k) s q l m Hi Hm Hret Hni2) as (rb1 & E1 & Hi1 & Hp1 & _).
  destruct (IH k _ _ Hi1) as (rb2 & E2 & Hi2 & Hp2); [|simpl|].
  { intros x Hx. apply Hls. by right. }
  { rewrite Hp1 -Permutation_middle. apply NoDup_cons. split; [|done]. by rewrite not_elem_of_app. }
  exists rb2. rewrite -app_assoc in Hi2 Hp2. split_and!; [|done|].
  - cbn [forM]. rewrite (bind_ret (onExpire l) _ s tt (s.1, set_ring rb1 s.2)); [|exact E2].
    unfold onExpire. by rewrite (bind_ret _ _ _ _ _ E1).
  - rewrite Hp2 Hp1 /=. by rewrite Permutation_middle.
Qed.

Lemma advance_run k s q :
  topic_inv k s q →
  ∃ s', advance_wheel s = Ret tt s' ∧ s'.1 = s.1 ∧
    topic_inv k s' (q ++ cd_fires (timers (t_tw s.2))) ∧
    timers (t_tw s'.2) ≡ₚ cd_rest (timers (t_tw s.2)) ∧
    tw_interval (t_tw s'.2) = tw_interval (t_tw s.2) ∧
    held s' (q ++ cd_fires (timers (t_tw s.2))) ≡ₚ held s q.
Proof.
  intros Hi. pose proof (ti_core _ _ _ Hi) as Hc.
  destruct (core_tick _ _ _ _ _ _ Hc) as (w' & E & Hc' & Ht & Hiv & Hls & Hp).
  set (ls := cd_fires (timers (t_tw s.2))) in *. set (s1 := (s.1, set_tw w' s.2)).
  assert (topic_inv (length ls + k) s1 q) as Hi1.
  { split; [done|apply Hi|]. pose proof (ti_room _ _ _ Hi) as Hr. unfold held in Hr.
    rewrite -Hp length_app in Hr. unfold msg_ids in Hr at 1. rewrite length_fmap in Hr.
    unfold held, topic_room in *. simpl in *. lia. }
  destruct (forM_expire ls k s1 q Hi1 Hls) as (rb' & E2 & Hi2 & Hp2).
  { rewrite Hp. apply Hc. }
  exists (s1.1, set_ring rb' s1.2).
  split_and!; [|done|exact Hi2|exact Ht|exact Hiv|by rewrite Hp2 Hp].
  unfold advance_wheel, advance. by rewrite (bind_ret _ _ _ _ _ (zoom_ret lens_tw _ s _ _ E)).
Qed.

(** ** Consuming *)

Lemma Consume_run k s q :
  topic_inv k s q →
  match q with
  | [] => Consume s = Ret (None, false) s
  | l :: q' => ∃ s' m, Consume s = Ret (Some l, true) s' ∧ s'.1 = s.1 ∧
      heap s.1 !! l = Some m ∧ topic_inv (S k) s' q' ∧
      msg_ID m ∉ held s' q' ∧ held s q = msg_ID m :: held s' q'
  end.
Proof.
  intros Hi. pose proof (core_ring _ _ _ _ _ _ (ti_core _ _ _ Hi)) as Hr. destruct q as [|l q].
  - assert (Pop (t_ring s.2) = Ret (None, false) (t_ring s.2)) as E.
    { unfold Pop. run. by rewrite (rep_empty_iff _ _ Hr). }
    unfold Consume. rewrite (bind_ret _ _ _ _ _ (zoom_ret lens_ring _ s _ _ E)). by destruct s as [? []].
  - destruct (Pop_run _ _ Hr) as (rb' & E & Hr' & Hcap & Hcl).
    destruct (move_pop k s q l rb' Hi Hr' Hcap Hcl) as (Hi' & m & Hm & _ & Hni & Hp).
    rewrite bool_decide_true in E; [done|]. simpl in E.
    exists (s.1, add_consumed (len_slice (msg_Payload m)) (set_ring rb' s.2)), m.
    split_and!; [|done|done|by eapply inv_counters|done|done].
    unfold Consume. rewrite (bind_ret _ _ _ _ _ (zoom_ret lens_ring _ s _ _ E)).
    unfold count_consumed. glue. by rewrite (payload_run _ l m).
Qed.

(** The blocking pop of a topic with a message, and without. *)
Lemma PopWait_some k s l q timeout t0 t1 :
  topic_inv k s (l :: q) →
  ∃ rb', PopWait timeout t0 t1 (t_ring s.2) = Ret (Some l, true) rb' ∧ ring_rep rb' q ∧
    rb_capacity rb' = rb_capacity (t_ring s.2) ∧ rb_closed rb' = rb_closed (t_ring s.2).
Proof.
  intros Hi. pose proof (core_ring _ _ _ _ _ _ (ti_core _ _ _ Hi)) as Hr.
  unfold PopWait. destruct (timeout =? 0); apply (PopWait_check_run _ _ _ _ Hr).
Qed.

(** Whether a wait for a message ends at once on an empty ring. *)
Definition gives_up (timeout t0 t1 : Z) : bool := bool_decide (timeout ≠ 0 ∧ t0 + timeout ≤ t1).

Lemma PopWait_empty k s timeout t0 t1 :
  topic_inv k s [] →
  zoom lens_ring (PopWait timeout t0 t1) s =
    if gives_up timeout t0 t1 then Ret (None, false) s else Block s.
Proof.
  intros Hi. pose proof (PopWait_outcome _ _ timeout t0 t1 (core_ring _ _ _ _ _ _ (ti_core _ _ _ Hi))) as E.
  rewrite (proj1 (core_open _ _ _ _ _ _ (ti_core _ _ _ Hi))) in E.
  assert (over lens_ring (t_ring s.2) s = s) as Es by (by destruct s as [? []]).
  unfold zoom, gives_up. cbn [view lens_ring]. rewrite E. destruct (bool_decide _); by rewrite Es.
Qed.

Lemma PopWait_none k s timeout t0 t1 :
  topic_inv k s [] →
  zoom lens_ring (PopWait timeout t0 t1) s = Ret (None, false) s ∨
  zoom lens_ring (PopWait timeout t0 t1) s = Block s.
Proof. intros Hi. rewrite (PopWait_empty k) //. destruct (gives_up _ _ _); auto. Qed.

(** Without a timeout the wait has no end of its own. *)
Lemma ConsumeWait_forever k s t0 t1 : topic_inv k s [] → ConsumeWait 0 t0 t1 s = Block s.
Proof.
  intros Hi. pose proof (core_ring _ _ _ _ _ _ (ti_core _ _ _ Hi)) as Hr.
  pose proof (PopWait_check_run _ _ None t1 Hr) as H. simpl in H.
  rewrite (proj1 (core_open _ _ _ _ _ _ (ti_core _ _ _ Hi))) in H.
  unfold ConsumeWait, mbind, prog_bind, zoom. cbn [view lens_ring]. unfold PopWait. simpl. rewrite H.
  by destruct s as [? []].
Qed.

Lemma ConsumeWait_run k s q timeout t0 t1 :
  topic_inv k s q →
  match q with
  | [] => ConsumeWait timeout t0 t1 s = Ret (None, false) s ∨ ConsumeWait timeout t0 t1 s = Block s
  | l :: q' => ∃ s' m, ConsumeWait timeout t0 t1 s = Ret (Some l, true) s' ∧ s'.1 = s.1 ∧
      heap s.1 !! l = Some m ∧ topic_inv (S k) s' q' ∧
      msg_ID m ∉ held s' q' ∧ held s q = msg_ID m :: held s' q'
  end.
Proof.
  intros Hi. unfold ConsumeWait. destruct q as [|l q].
  - destruct (PopWait_none k s timeout t0 t1 Hi) as [E|E]; [left|right].
    + by rewrite (bind_ret _ _ _ _ _ E).
    + unfold mbind, prog_bind. by rewrite E.
  - destruct (PopWait_some k s l q timeout t0 t1 Hi) as (rb' & E & Hr' & Hcap & Hcl).
    destruct (move_pop k s q l rb' Hi Hr' Hcap Hcl) as (Hi' & m & Hm & _ & Hni & Hp).
    exists (s.1, add_consumed (len_slice (msg_Payload m)) (set_ring rb' s.2)), m.
    split_and!; [|done|done|by eapply inv_counters|done|done].
    rewrite (bind_ret _ _ _ _ _ (zoom_ret lens_ring _ s _ _ E)).
    unfold count_consumed. glue. by rewrite (payload_run _ l m).
Qed.

Lemma GetOrCreateGroup_run k s q g timeout :
  topic_inv k s q →
  ∃ gs cg, GetOrCreateGroup g timeout s = Ret tt (s.1, set_groups gs s.2) ∧ gs !! g = Some cg ∧
    topic_inv k (s.1, set_groups gs s.2) q ∧ held (s.1, set_groups gs s.2) q ≡ₚ held s q.
Proof.
  intros Hi. unfold GetOrCreateGroup. glue. destruct s as [σ t]. simpl.
  destruct (t_groups t !! g) as [cg|] eqn:Hg.
  - exists (t_groups t), cg. split_and!; [by destruct t|done|by eapply inv_counters|done].
  - set (cg := NewConsumerGroup g (t_name t) timeout).
    destruct (core_new_group _ _ _ _ _ _ (ti_core _ _ _ Hi) g cg Hg eq_refl) as [Hc Hp].
    exists (<[g := cg]> (t_groups t)), cg. split_and!; [done|apply lookup_insert_eq| |done].
    split; [done|apply Hi|]. by eapply (room_perm k k (σ, t) q _ _ [] Hi).
Qed.

(** A message in flight is checked out to a consumer of a group. *)
Lemma Checkout_run k s q g cg l m c now :
  topic_inv (S k) s q → t_groups s.2 !! g = Some cg → heap s.1 !! l = Some m → retryable m →
  msg_ID m ∉ held s q →
  ∃ s', Checkout lens_fst (lens_group g) l c (30 * second) now s = Ret tt s' ∧
    topic_inv k s' q ∧ held s' q ≡ₚ msg_ID m :: held s q ∧
    heap s'.1 !! l = Some (set_Lease c (i64 (now + 30 * second)) m) ∧
    keeps [msg_ID m] s.1 s'.1 ∧
    ∃ cg', t_groups s'.2 !! g = Some cg' ∧
      cg_pel cg' !! msg_ID m = Some (mkPending l c now (i64 (now + 30 * second))).
Proof.
  intros Hi Hg Hm Hret Hno. set (deadline := i64 (now + 30 * second)).
  destruct (move_write (S k) s q l m (set_Lease c deadline m) Hi Hm) as (E & Hi1 & Hh1); [done..|].
  set (s1 := (mkStore _ _, _)) in *.
  assert (heap s1.1 !! l = Some (set_Lease c deadline m)) as Hl1 by apply lookup_insert_eq.
  destruct (core_pel_add _ _ _ _ _ _ (ti_core _ _ _ Hi1) g cg l (set_Lease c deadline m)
    (mkPending l c now deadline) (<[c := now]> (cg_consumers cg)) Hg Hl1 Hret eq_refl) as [Hc Hp].
  { change (msg_ID m ∉ held s1 q). by rewrite Hh1. }
  set (cg' := mkGroup _ _ _ _ _) in *.
  exists (s1.1, set_groups (<[g := cg']> (t_groups s.2)) s.2). split_and!.
  - unfold Checkout. glue. rewrite (load_run s l m Hm). change (0 <? 30 * second) with true.
    cbv iota. fold deadline. rewrite E. simpl. by rewrite Hg.
  - split; [done|apply Hi|]. eapply (room_perm (S k) k s1 q _ _ [msg_ID m] Hi1); done.
  - rewrite -Hh1. exact Hp.
  - done.
  - by eapply keeps_write; [|left].
  - exists cg'. split; [apply lookup_insert_eq|]. apply lookup_insert_eq.
Qed.

Lemma ConsumeGroup_run k s l q g c timeout t0 t1 now :
  topic_inv k s (l :: q) →
  ∃ s' m, ConsumeGroup g c timeout t0 t1 now s = Ret (Some l, true) s' ∧
    topic_inv k s' q ∧ heap s.1 !! l = Some m ∧ held s' q ≡ₚ held s (l :: q) ∧
    keeps (held s (l :: q)) s.1 s'.1 ∧
    ∃ cg', t_groups s'.2 !! g = Some cg' ∧
      cg_pel cg' !! msg_ID m = Some (mkPending l c now (i64 (now + 30 * second))).
Proof.
  intros Hi. destruct (GetOrCreateGroup_run k s _ g (30 * second) Hi) as (gs & cg & E1 & Hg & Hi1 & Hp1).
  set (s1 := (s.1, set_groups gs s.2)) in *.
  destruct (PopWait_some k s1 l q timeout t0 t1 Hi1) as (rb' & E2 & Hr' & Hcap & Hcl).
  destruct (move_pop k s1 q l rb' Hi1 Hr' Hcap Hcl) as (Hi2 & m & Hm & Hret & Hni & Hp2).
  set (s2 := (s1.1, set_ring rb' s1.2)) in *.
  destruct (Checkout_run k s2 q g cg l m c now Hi2 Hg Hm Hret Hni) as (s3 & E3 & Hi3 & Hp3 & Hl3 & Hk3 & Hpel).
  exists (s3.1, add_consumed (len_slice (msg_Payload m)) s3.2), m.
  split_and!; [|by destruct s3; eapply inv_counters|done| | |done].
  - unfold ConsumeGroup. rewrite (bind_ret _ _ _ _ _ E1).
    rewrite (bind_ret _ _ _ _ _ (zoom_ret lens_ring _ s1 _ _ E2)).
    simpl. glue. rewrite E3. by rewrite (payload_run _ _ _ Hl3).
  - rewrite -Hp1 Hp2 -Hp3. done.
  - eapply keeps_mono; [exact Hk3|]. intros x ->%list_elem_of_singleton. rewrite -Hp1 Hp2. by left.
Qed.

(** With nothing to deliver the call parks or gives up; nothing moves. *)
Lemma ConsumeGroup_empty k s g c timeout t0 t1 now :
  topic_inv k s [] →
  ∃ s', (ConsumeGroup g c timeout t0 t1 now s = Ret (None, false) s' ∨
         ConsumeGroup g c timeout t0 t1 now s = Block s') ∧
    topic_inv k s' [] ∧ held s' [] ≡ₚ held s [] ∧ s'.1 = s.1.
Proof.
  intros Hi. destruct (GetOrCreateGroup_run k s _ g (30 * second) Hi) as (gs & cg & E1 & Hg & Hi1 & Hp1).
  set (s1 := (s.1, set_groups gs s.2)) in *. exists s1. split_and!; [|done|done|done].
  unfold ConsumeGroup. rewrite (bind_ret _ _ _ _ _ E1).
  destruct (PopWait_none k s1 timeout t0 t1 Hi1) as [E2|E2]; [left|right].
  - by rewrite (bind_ret _ _ _ _ _ E2).
  - unfold mbind, prog_bind. by rewrite E2.
Qed.

(** ** Acknowledging *)

Lemma move_pel_remove k s q g cg mid pm :
  topic_inv k s q → t_groups s.2 !! g = Some cg → cg_pel cg !! mid = Some pm →
  let s' := (s.1, set_groups (<[g := set_pel (delete mid (cg_pel cg)) cg]> (t_groups s.2)) s.2) in
  topic_inv (S k) s' q ∧ mid ∉ held s' q ∧ held s q ≡ₚ mid :: held s' q ∧
  ∃ m, heap s.1 !! pm_Message pm = Some m ∧ msg_ID m = mid ∧ retryable m.
Proof.
  intros Hi Hg Hpm s'.
  destruct (core_pel_remove _ _ _ _ _ _ (ti_core _ _ _ Hi) g cg mid pm Hg Hpm) as (Hc & Hp & Hni & Hm).
  split_and!; [|exact Hni|exact Hp|exact Hm].
  split; [done|apply Hi|]. pose proof (ti_room _ _ _ Hi) as Hr. unfold held, topic_room in *.
  rewrite Hp /= in Hr. simpl. lia.
Qed.

Lemma Ack_run k s q g mid :
  topic_inv k s q →
  match t_groups s.2 !! g ≫= λ cg, cg_pel cg !! mid with
  | None => Topic.Ack g mid s = Ret false s
  | Some pm => ∃ s', Topic.Ack g mid s = Ret true s' ∧ s'.1 = s.1 ∧ topic_inv (S k) s' q ∧
      mid ∉ held s' q ∧ held s q ≡ₚ mid :: held s' q
  end.
Proof.
  intros Hi. unfold Topic.Ack. glue. unfold id. destruct (t_groups s.2 !! g) as [cg|] eqn:Hg; [|done].
  simpl. destruct (cg_pel cg !! mid) as [pm|] eqn:Hpm.
  - destruct (move_pel_remove k s q g cg mid pm Hi Hg Hpm) as (Hi' & Hni & Hp & _).
    exists (s.1, add_acked (set_groups (<[g := set_pel (delete mid (cg_pel cg)) cg]> (t_groups s.2)) s.2)).
    split_and!; [|done|by eapply inv_counters|exact Hni|exact Hp].
    unfold zoom, ConsumerGroup.Ack. run. cbn [view lens_group]. by rewrite Hg /= Hpm.
  - unfold zoom, ConsumerGroup.Ack. run. cbn [view lens_group]. rewrite Hg /= Hpm.
    by rewrite insert_id //; destruct s as [? []].
Qed.

(** ** Failures *)

(** The message after one more failed delivery. *)
Definition failed (cause : string) (m : Message) : Message :=
  set_FailureCause cause (set_RetryCount (msg_RetryCount m + 1) m).

(** Where a failed message goes: back to the wheel after [delay], or to the
    dead letter queue once its retries are used up. *)
Definition routed (s s' : TS) (l : loc) (m : Message) (delay : Z) : Prop :=
  if msg_MaxRetries m <=? msg_RetryCount m + 1 then
    dlq_order (t_dlq s'.2) = dlq_order (t_dlq s.2) ++ [msg_ID m] ∧ t_tw s'.2 = t_tw s.2
  else
    timers (t_tw s'.2) ≡ₚ (l, delay_ticks delay (tw_interval (t_tw s.2))) :: timers (t_tw s.2) ∧
    t_dlq s'.2 = t_dlq s.2.

Lemma record_failure_run k s q l m cause :
  topic_inv k s q → heap s.1 !! l = Some m → retryable m → msg_ID m ∉ held s q →
  let s' := (mkStore (<[l := failed cause m]> (heap s.1)) (globalSeq s.1), s.2) in
  record_failure lens_fst l cause s = Ret (failed cause m) s' ∧ topic_inv k s' q ∧
  held s' q = held s q.
Proof.
  intros Hi Hm Hret Hno s'.
  destruct (move_write k s q l m (failed cause m) Hi Hm) as (E & Hi1 & Hh); [done..|].
  split_and!; [|done|done]. unfold record_failure. rewrite (bind_ret _ _ _ _ _ (load_run s l m Hm)).
  rewrite i64_small; [unfold is_i64, retryable in *; lia|]. by rewrite (bind_ret _ _ _ _ _ E).
Qed.

(** One failed delivery, as [Nack] and the sweep perform it: [delay] is the
    delay of the retry, a positive number. *)
Lemma fail_run k s q l m cause now delay :
  topic_inv (S k) s q → heap s.1 !! l = Some m → retryable m → msg_ID m ∉ held s q → 0 < delay →
  ∃ s1 s', record_failure lens_fst l cause s = Ret (failed cause m) s1 ∧
    (if msg_MaxRetries m <=? msg_RetryCount m + 1 then onDeadLetter now l cause
     else onRetry l delay) s1 = Ret tt s' ∧
    topic_inv k s' q ∧ held s' q ≡ₚ msg_ID m :: held s q ∧ routed s s' l m delay ∧
    t_groups s'.2 = t_groups s.2 ∧ tw_interval (t_tw s'.2) = tw_interval (t_tw s.2) ∧
    heap s'.1 !! l = Some (failed cause m) ∧
    (∀ l' m', l' ≠ l → heap s.1 !! l' = Some m' → heap s'.1 !! l' = Some m').
Proof.
  intros Hi Hm Hret Hno Hd.
  destruct (record_failure_run (S k) s q l m cause Hi Hm Hret Hno) as (E1 & Hi1 & Hh).
  set (s1 := (mkStore _ _, _)) in *. set (m' := failed cause m) in *.
  assert (heap s1.1 !! l = Some m') as Hm1 by apply lookup_insert_eq.
  assert (msg_ID m' ∉ held s1 q) as Hno1 by by rewrite Hh.
  assert (∀ l' m0, l' ≠ l → heap s.1 !! l' = Some m0 → heap s1.1 !! l' = Some m0) as Hoth.
  { intros l' m0 Hne Hl'. simpl. by rewrite lookup_insert_ne. }
  exists s1. unfold routed, retryable in *. destruct (Z.leb_spec (msg_MaxRetries m) (msg_RetryCount m + 1)).
  - destruct (move_dead_letter k s1 q l m' cause now Hi1 Hm1) as (σ' & d' & E2 & Hi2 & Hsub & _ & Hord & Hp);
      [unfold replayable; simpl; lia|done|].
    eexists. split_and!; [done|exact E2|exact Hi2|by rewrite Hp Hh|by simpl; rewrite Hord|done|done|done| |].
    + by eapply lookup_weaken.
    + intros l' m0 Hne Hl'. eapply lookup_weaken; [|exact Hsub]. by apply Hoth.
  - destruct (move_schedule k s1 q l m' delay Hi1 Hm1) as (w' & E2 & Hi2 & Ht & Hiv & Hp);
      [unfold retryable; simpl; lia|done|done|].
    eexists. split_and!; [done|exact E2|exact Hi2|by rewrite Hp Hh|exact Ht|done|done|exact Hiv|exact Hm1|exact Hoth].
Qed.

Lemma Nack_run k s q g cg mid pm reason now :
  topic_inv k s q → t_groups s.2 !! g = Some cg → cg_pel cg !! mid = Some pm →
  ∃ s' m delay, Topic.Nack g mid reason now s = Ret true s' ∧ topic_inv k s' q ∧
    held s' q ≡ₚ held s q ∧ heap s.1 !! pm_Message pm = Some m ∧ msg_ID m = mid ∧
    tw_interval (t_tw s'.2) = tw_interval (t_tw s.2) ∧ keeps (held s q) s.1 s'.1 ∧
    heap s'.1 !! pm_Message pm = Some (failed reason m) ∧
    delay = Z.min (100 * 2 ^ msg_RetryCount m * millisecond) (10 * second) ∧
    routed s s' (pm_Message pm) m delay ∧
    (t_groups s'.2 !! g ≫= λ cg, cg_pel cg !! mid) = None.
Proof.
  intros Hi Hg Hpm. destruct (move_pel_remove k s q g cg mid pm Hi Hg Hpm) as (Hi1 & Hni & Hp & m & Hm & Hid & Hret).
  set (s1 := (s.1, _)) in *. set (delay := Z.min (100 * 2 ^ msg_RetryCount m * millisecond) (10 * second)).
  pose proof Hret as Hrc. unfold retryable in Hrc.
  assert (backoff (msg_RetryCount m + 1) = Some delay) as Hb.
  { rewrite backoff_value; [lia|]. by replace (msg_RetryCount m + 1 - 1) with (msg_RetryCount m) by lia. }
  assert (0 < delay) as Hd.
  { unfold delay, millisecond, second. pose proof (Z.pow_pos_nonneg 2 (msg_RetryCount m)). lia. }
  destruct (fail_run k s1 q (pm_Message pm) m reason now delay Hi1 Hm Hret) as
    (s2 & s3 & E1 & E2 & Hi3 & Hh3 & Hrt & Hgs & Hiv & Hl3 & Hoth); [by rewrite Hid|done|].
  exists (s3.1, add_nacked s3.2), m, delay.
  split_and!; [|by destruct s3; eapply inv_counters|by rewrite Hp -Hid -Hh3|done|done|done| |done|done|done|].
  - unfold Topic.Nack, ConsumerGroup.Nack. glue. unfold id. rewrite Hg. cbn [view over lens_group]. rewrite Hg.
    change (default _ (Some cg)) with cg. rewrite Hpm Hg. fold s1. rewrite E1. cbn [msg_MaxRetries msg_RetryCount failed set_FailureCause set_RetryCount].
    destruct (_ <=? _); [by rewrite /call_dead_letter E2|].
    by rewrite Hb /call_retry E2.
  - eapply keeps_other; [exact Hm| |exact Hoth]. rewrite Hp Hid. by left.
  - simpl. rewrite Hgs /= lookup_insert_eq /=. apply lookup_delete_eq.
Qed.

(** ** The sweep *)

(** A failure never disturbs the timers already set. *)
Lemma routed_keeps s s' l m delay x :
  routed s s' l m delay → x ∈ timers (t_tw s.2) → x ∈ timers (t_tw s'.2).
Proof.
  unfold routed. destruct (_ <=? _); intros [H1 H2] Hx.
  - by rewrite H2.
  - rewrite H1. by right.
Qed.

(** A failure with retries left sets a timer. *)
Lemma routed_retry s s' l m delay :
  routed s s' l m delay → msg_RetryCount m + 1 < msg_MaxRetries m →
  (l, delay_ticks delay (tw_interval (t_tw s.2))) ∈ timers (t_tw s'.2).
Proof.
  unfold routed. intros Hr ?. rewrite (proj2 (Z.leb_gt _ _)) // in Hr.
  destruct Hr as [-> _]. by left.
Qed.

Lemma expire_run k s q l m now :
  topic_inv (S k) s q → heap s.1 !! l = Some m → retryable m → msg_ID m ∉ held s q →
  ∃ s', expire lens_fst (Some onRetry) (Some (λ x, onDeadLetter (now x) x)) l s = Ret tt s' ∧
    topic_inv k s' q ∧ held s' q ≡ₚ msg_ID m :: held s q ∧ t_groups s'.2 = t_groups s.2 ∧
    routed s s' l m (500 * millisecond) ∧ tw_interval (t_tw s'.2) = tw_interval (t_tw s.2) ∧
    (∀ l' m', l' ≠ l → heap s.1 !! l' = Some m' → heap s'.1 !! l' = Some m').
Proof.
  intros Hi Hm Hret Hno.
  destruct (fail_run k s q l m timeout_cause (now l) (500 * millisecond) Hi Hm Hret Hno) as
    (s2 & s3 & E1 & E2 & Hi3 & Hh3 & Hrt & Hgs & Hiv & Hl3 & Hoth); [done|].
  exists s3. split_and!; try done. unfold expire. rewrite (bind_ret _ _ _ _ _ E1).
  cbn [msg_MaxRetries msg_RetryCount msg_FailureCause failed set_FailureCause set_RetryCount].
  unfold call_dead_letter, call_retry. by destruct (_ <=? _).
Qed.

Lemma msg_ids_same σ σ' ls :
  (∀ l m, l ∈ ls → heap σ !! l = Some m → heap σ' !! l = Some m) →
  (∀ l, l ∈ ls → is_Some (heap σ !! l)) → msg_ids σ' ls = msg_ids σ ls.
Proof.
  intros H Hs. unfold msg_ids. apply list_fmap_ext. intros i l Hl%list_elem_of_lookup_2.
  destruct (Hs l Hl) as [m Hm]. by rewrite Hm (H l m Hl Hm).
Qed.

Lemma msg_ids_write σ l m m' ls n :
  heap σ !! l = Some m → msg_ID m' = msg_ID m → msg_ids (mkStore (<[l := m']> (heap σ)) n) ls = msg_ids σ ls.
Proof.
  intros Hl Hid. unfold msg_ids. apply list_fmap_ext. intros i k _. simpl.
  rewrite lookup_insert. case_decide as E; [|done]. by rewrite -E Hl /= Hid.
Qed.

Lemma forM_fail ls now : ∀ k s q,
  topic_inv (length ls + k) s q →
  (∀ l, l ∈ ls → ∃ m, heap s.1 !! l = Some m ∧ retryable m) →
  NoDup (msg_ids s.1 ls ++ held s q) →
  ∃ s', forM ls (expire lens_fst (Some onRetry) (Some (λ x, onDeadLetter (now x) x))) s = Ret tt s' ∧
    topic_inv k s' q ∧ held s' q ≡ₚ msg_ids s.1 ls ++ held s q ∧ t_groups s'.2 = t_groups s.2 ∧
    tw_interval (t_tw s'.2) = tw_interval (t_tw s.2) ∧ keeps (msg_ids s.1 ls) s.1 s'.1 ∧
    (∀ x, x ∈ timers (t_tw s.2) → x ∈ timers (t_tw s'.2)) ∧
    (∀ l m, l ∈ ls → heap s.1 !! l = Some m → msg_RetryCount m + 1 < msg_MaxRetries m →
       (l, delay_ticks (500 * millisecond) (tw_interval (t_tw s.2))) ∈ timers (t_tw s'.2)).
Proof.
  induction ls as [|l ls IH]; intros k s q Hi Hls Hnd.
  { exists s. split_and!; [done..|apply keeps_refl|done|]. by intros l m ?%elem_of_nil. }
  destruct (Hls l ltac:(by left)) as (m & Hm & Hret).
  rewrite (msg_ids_cons _ _ _ m Hm) -app_comm_cons in Hnd |- *.
  apply NoDup_cons in Hnd as [Hni Hnd]. apply not_elem_of_app in Hni as [Hni1 Hni2].
  destruct (expire_run (length ls + k) s q l m now Hi Hm Hret Hni2) as (s1 & E1 & Hi1 & Hp1 & Hg1 & Hrt & Hiv1 & Hoth).
  assert (∀ x, x ∈ ls → x ≠ l) as Hne.
  { intros x Hx ->. apply Hni1. by eapply msg_ids_elem. }
  assert (∀ x, x ∈ ls → ∃ m, heap s1.1 !! x = Some m ∧ retryable m) as Hls1.
  { intros x Hx. destruct (Hls x ltac:(by right)) as (mx & Hmx & ?). exists mx.
    split; [|done]. apply Hoth; [by apply Hne|done]. }
  assert (msg_ids s1.1 ls = msg_ids s.1 ls) as Hids.
  { apply msg_ids_same; [by eauto|]. intros x Hx. destruct (Hls x ltac:(by right)) as (? & ? & _). eauto. }
  destruct (IH k s1 q Hi1 Hls1) as (s2 & E2 & Hi2 & Hp2 & Hg2 & Hiv2 & Hkp2 & Hk2 & Hr2).
  { rewrite Hids Hp1 -Permutation_middle. apply NoDup_cons. split; [|done]. by rewrite not_elem_of_app. }
  exists s2. split_and!; [cbn [forM]; by rewrite (bind_ret _ _ _ _ _ E1)|done| |by rewrite Hg2|by rewrite Hiv2| | |].
  - by rewrite Hp2 Hids Hp1 Permutation_middle.
  - eapply keeps_trans; [eapply keeps_other; [exact Hm|by left|exact Hoth]|].
    eapply keeps_mono; [exact Hkp2|]. rewrite Hids. intros x ?. by right.
  - intros x Hx. by eapply Hk2, routed_keeps.
  - intros x mx Hx Hmx Hlt. apply elem_of_cons in Hx as [->|Hx].
    + apply Hk2. simplify_eq. by eapply routed_retry.
    + rewrite -Hiv1. apply (Hr2 x mx); [done| |done]. apply Hoth; [by apply Hne|done].
Qed.

Lemma SweepTimeouts_run k s q g order now failedAt :
  topic_inv k s q → is_Some (t_groups s.2 !! g) →
  ∃ n s', SweepTimeouts lens_fst (lens_group g) (Some onRetry) (Some (λ x, onDeadLetter (failedAt x) x))
            order now s = Ret n s' ∧
    topic_inv k s' q ∧ held s' q ≡ₚ held s q ∧
    (∀ g', is_Some (t_groups s.2 !! g') → is_Some (t_groups s'.2 !! g')) ∧
    (∀ g' cg' mid pm m, g' ≠ g → t_groups s.2 !! g' = Some cg' → cg_pel cg' !! mid = Some pm →
       heap s.1 !! pm_Message pm = Some m →
       t_groups s'.2 !! g' = Some cg' ∧ heap s'.1 !! pm_Message pm = Some m) ∧
    tw_interval (t_tw s'.2) = tw_interval (t_tw s.2) ∧ keeps (held s q) s.1 s'.1 ∧
    (∀ x, x ∈ timers (t_tw s.2) → x ∈ timers (t_tw s'.2)) ∧
    (∀ cg l m, t_groups s.2 !! g = Some cg → l ∈ (sweep_collect order now (cg_pel cg)).1 →
       heap s.1 !! l = Some m → msg_RetryCount m + 1 < msg_MaxRetries m →
       (l, delay_ticks (500 * millisecond) (tw_interval (t_tw s.2))) ∈ timers (t_tw s'.2)).
Proof.
  intros Hi [cg Hg]. pose proof (ti_core _ _ _ Hi) as Hc.
  destruct (core_sweep _ _ _ _ _ order now g _ cg Hc Hg) as (Hc1 & Hls & Hp1).
  set (ls := (sweep_collect order now (cg_pel cg)).1) in *.
  set (pel' := (sweep_collect order now (cg_pel cg)).2) in *.
  set (s1 := (s.1, set_groups (<[g := set_pel pel' cg]> (t_groups s.2)) s.2)).
  assert (topic_inv (length ls + k) s1 q) as Hi1.
  { split; [done|apply Hi|]. pose proof (ti_room _ _ _ Hi) as Hr. unfold held in Hr.
    rewrite -Hp1 length_app in Hr. unfold msg_ids in Hr at 1. rewrite length_fmap in Hr.
    unfold held, topic_room in *. simpl in *. lia. }
  destruct (forM_fail ls failedAt k s1 q Hi1 Hls) as (s2 & E2 & Hi2 & Hp2 & Hg2 & Hiv2 & Hkp2 & Hk2 & Hr2).
  { rewrite Hp1. apply Hc. }
  exists (Z.of_nat (length ls)), s2. split_and!; [|done|by rewrite Hp2 Hp1| | |done| |done|by intros; simplify_eq; eapply Hr2].
  - unfold SweepTimeouts. glue. cbn [view over lens_group]. rewrite Hg. change (id _) with cg.
    subst ls pel'. destruct (sweep_collect _ _ _) as [ls pel']. rewrite Hg. simpl in *.
    fold s1. by rewrite E2.
  - intros g' Hg'. rewrite Hg2 /= lookup_insert. by case_decide.
  - intros g' cg' mid pm m Hne Hg' Hpm Hm. rewrite Hg2 /= lookup_insert_ne //. split; [done|]. apply Hkp2; [done|].
    destruct (core_pending _ _ _ _ _ _ Hc g' cg' mid pm Hg' Hpm) as (m0 & Hm0 & Hid & _).
    rewrite Hm in Hm0. injection Hm0 as <-. rewrite Hid. intros Hin.
    assert (NoDup (msg_ids s.1 ls ++ held s1 q)) as Hnd by (rewrite Hp1; apply Hc).
    apply NoDup_app in Hnd as (_ & Hnd & _). apply (Hnd mid Hin). unfold held, custody. rewrite !elem_of_app.
    right; right; left. eapply pel_ids_elem; [|exact Hpm]. simpl. by rewrite lookup_insert_ne.
  - eapply keeps_mono; [exact Hkp2|]. intros x Hx. unfold held. rewrite -Hp1 elem_of_app. by left.
Qed.

Lemma sweep_run order now failedAt : ∀ k s q,
  topic_inv k s q → (∀ g, g ∈ order.*1 → is_Some (t_groups s.2 !! g)) →
  ∃ n s', SweepConsumerTimeouts order now failedAt s = Ret n s' ∧
    topic_inv k s' q ∧ held s' q ≡ₚ held s q ∧ keeps (held s q) s.1 s'.1 ∧
    (∀ x, x ∈ timers (t_tw s.2) → x ∈ timers (t_tw s'.2)).
Proof.
  unfold SweepConsumerTimeouts. induction order as [|[g o] order IH]; intros k s q Hi Hex.
  { exists 0, s. split_and!; [done|done|done|apply keeps_refl|done]. }
  destruct (SweepTimeouts_run k s q g o (now g) failedAt Hi) as (n & s1 & E1 & Hi1 & Hp1 & Hg1 & _ & _ & Hk1 & Ht1 & _).
  { apply Hex. by left. }
  destruct (IH k s1 q Hi1) as (n' & s2 & E2 & Hi2 & Hp2 & Hk2 & Ht2).
  { intros g' Hg'. apply Hg1, Hex. by right. }
  exists (n + n'), s2. split_and!; [|done|by rewrite Hp2| |by auto].
  2:{ eapply keeps_trans; [exact Hk1|]. eapply keeps_mono; [exact Hk2|]. intros x. by rewrite Hp1. }
  cbn [sweep_groups]. rewrite (bind_ret _ _ _ _ _ E1). by rewrite (bind_ret _ _ _ _ _ E2).
Qed.

(** What a sweep does for a message whose lease has run out: after the groups before
    its own, its own group and those after it, a timer is set for it. *)
Lemma sweep_expired order now failedAt g cg mid pm m : ∀ k s q porder,
  topic_inv k s q → (∀ g, g ∈ order.*1 → is_Some (t_groups s.2 !! g)) → NoDup order.*1 →
  (g, porder) ∈ order → NoDup porder → mid ∈ porder →
  t_groups s.2 !! g = Some cg → cg_pel cg !! mid = Some pm → heap s.1 !! pm_Message pm = Some m →
  msg_RetryCount m + 1 < msg_MaxRetries m → pm_AckDeadline pm ≤ now g →
  ∃ n s', SweepConsumerTimeouts order now failedAt s = Ret n s' ∧ topic_inv k s' q ∧ held s' q ≡ₚ held s q ∧
    (pm_Message pm, delay_ticks (500 * millisecond) (tw_interval (t_tw s.2))) ∈ timers (t_tw s'.2).
Proof.
  unfold SweepConsumerTimeouts.
  induction order as [|[g' o] order IH]; intros k s q porder Hi Hex Hnd Hin Hndp Hmid Hg Hpm Hm Hleft Hexp;
    [by apply elem_of_nil in Hin|].
  destruct (SweepTimeouts_run k s q g' o (now g') failedAt Hi) as (n & s1 & E1 & Hi1 & Hp1 & Hg1 & Hoth & Hiv & _ & Hk1 & Hr).
  { apply Hex. by left. }
  assert (∀ x, x ∈ order.*1 → is_Some (t_groups s1.2 !! x)) as Hex1 by (intros x Hx; apply Hg1, Hex; by right).
  apply NoDup_cons in Hnd as [Hni Hnd]. cbn [sweep_groups]. rewrite (bind_ret _ _ _ _ _ E1).
  apply elem_of_cons in Hin as [[= <- <-]|Hin].
  - destruct (sweep_run order now failedAt k s1 q Hi1 Hex1) as (n' & s2 & E2 & Hi2 & Hp2 & _ & Ht2).
    exists (n + n'), s2. unfold SweepConsumerTimeouts in E2. rewrite (bind_ret _ _ _ _ _ E2).
    split_and!; [done|done|by rewrite Hp2|]. apply Ht2, (Hr cg _ m Hg); [|done|done].
    rewrite (proj1 (sweep_collect_spec porder (now g) (cg_pel cg) Hndp)). apply list_elem_of_omap.
    exists mid. rewrite Hpm. split; [|done]. apply list_elem_of_filter. split; [|done].
    unfold is_expired. rewrite Hpm. by apply Z.leb_le.
  - assert (g ≠ g') as Hne by (intros ->; apply Hni, list_elem_of_fmap; by exists (g', porder)).
    destruct (Hoth g cg mid pm m Hne Hg Hpm Hm) as [Hg2 Hm2].
    destruct (IH k s1 q porder Hi1 Hex1 Hnd Hin Hndp Hmid Hg2 Hpm Hm2 Hleft Hexp) as (n' & s2 & E2 & Hi2 & Hp2 & Ht2).
    exists (n + n'), s2. rewrite (bind_ret _ _ _ _ _ E2). split_and!; [done|done|by rewrite Hp2|by rewrite -Hiv].
Qed.

(** ** Replaying *)

(** The message as [ReplayDeadLetter] puts it back. *)
Definition revived (now : Z) (m : Message) : Message :=
  set_DeliverAt now (set_FailureCause "" (set_RetryCount 0 m)).

Lemma Replay_run k s q mid e now :
  topic_inv k s q → dlq_entries (t_dlq s.2) !! mid = Some e →
  ∃ s' m, ReplayDeadLetter mid now s = Ret (Some (dle_Message e), true) s' ∧
    topic_inv k s' (q ++ [dle_Message e]) ∧ held s' (q ++ [dle_Message e]) ≡ₚ held s q ∧
    heap s.1 !! dle_Message e = Some m ∧ msg_ID m = mid ∧
    heap s'.1 !! dle_Message e = Some (revived now m) ∧ keeps (held s q) s.1 s'.1 ∧
    dlq_entries (t_dlq s'.2) = delete mid (dlq_entries (t_dlq s.2)).
Proof.
  intros Hi He. pose proof (ti_core _ _ _ Hi) as Hc. set (l := dle_Message e).
  pose proof (Remove_run _ mid (core_dlq _ _ _ _ _ _ Hc)) as Hrem. rewrite He in Hrem.
  destruct Hrem as (d' & E1 & Hok & Hmx & Hent & Hv). fold l in E1.
  destruct (core_dead_remove _ _ _ _ _ _ Hc mid e d' He Hok Hent Hv) as (Hc1 & Hp1 & Hni & m & Hm & Hid & Hrep).
  set (s1 := (s.1, set_dlq d' s.2)).
  assert (topic_inv (S k) s1 q) as Hi1.
  { split; [done|apply Hi|]. pose proof (ti_room _ _ _ Hi) as Hr. unfold held in Hr.
    rewrite Hp1 /= in Hr. unfold held, topic_room in *. simpl in *. rewrite Hmx. lia. }
  destruct (move_write (S k) s1 q l m (revived now m) Hi1 Hm) as (E2 & Hi2 & Hh2); [done|done|by rewrite Hid|].
  set (s2 := (mkStore _ _, _)) in *.
  assert (heap s2.1 !! l = Some (revived now m)) as Hl2 by apply lookup_insert_eq.
  destruct (move_push k s2 q l (revived now m) Hi2 Hl2) as (rb' & E3 & Hi3 & Hp3 & _).
  { unfold retryable, replayable in *. simpl. lia. }
  { rewrite Hh2 /= Hid. exact Hni. }
  exists (s2.1, set_ring rb' s2.2), m. split_and!; [|done| |done|done|exact Hl2| |done].
  - unfold ReplayDeadLetter. rewrite (bind_ret _ _ _ _ _ (zoom_ret lens_dlq _ s _ _ E1)).
    cbv iota beta. cbn [negb]. rewrite (bind_ret (must _) _ _ l s1); [done|].
    rewrite (bind_ret _ _ _ _ _ (load_run s1 l m Hm)). rewrite (bind_ret _ _ _ _ _ E2).
    by rewrite (bind_ret _ _ _ _ _ E3).
  - rewrite Hp3 Hh2 /= Hid. by rewrite -Hp1.
  - eapply keeps_write; [exact Hm|]. unfold held. rewrite Hp1 Hid. by left.
Qed.

(** ** Purging *)

Lemma Purge_topic_run k s q :
  topic_inv k s q →
  ∃ d', DLQ Purge s = Ret (Z.of_nat (length (dlq_order (t_dlq s.2)))) (s.1, set_dlq d' s.2) ∧
    topic_inv k (s.1, set_dlq d' s.2) q ∧
    held s q ≡ₚ dlq_order (t_dlq s.2) ++ held (s.1, set_dlq d' s.2) q ∧ dlq_order d' = [].
Proof.
  intros Hi. pose proof (ti_core _ _ _ Hi) as Hc. pose proof (core_dlq _ _ _ _ _ _ Hc) as Hd.
  destruct (Purge_run _ Hd) as (d' & E & Hd' & Hv & Hmx). rewrite (view_length _ Hd) in E.
  assert (dlq_order d' = []) as Ho by by rewrite -(view_keys _ Hd') Hv.
  destruct (core_purge _ _ _ _ _ _ Hc d' Hd' Ho) as [Hc' Hp].
  exists d'. split_and!; [|split; [done|apply Hi|]|exact Hp|done].
  - exact (zoom_ret lens_dlq _ s _ d' E).
  - pose proof (ti_room _ _ _ Hi) as Hr. pose proof (Permutation_length Hp) as Hl. rewrite length_app in Hl.
    unfold held, topic_room in *. simpl in *. rewrite Hmx. lia.
Qed.

(** ** Sequences of calls *)

(** What a completed call does to the set of messages the topic answers for. *)
Inductive event : Type :=
| Enter (mid : string)
| Leave (mid : string)
| Discard (mids : list string)
| Internal.

Definition entered (ev : event) : list string :=
  match ev with Enter mid => [mid] | _ => [] end.

Definition departed (ev : event) : list string :=
  match ev with Leave mid => [mid] | Discard mids => mids | _ => [] end.

(** The messages a publisher may hand over: a new ID, retry counters below the
    overflow of the backoff, and a topic that is not full. *)
Definition publishable (s : TS) (l : loc) (m : Message) : Prop :=
  heap s.1 !! l = Some m ∧ retryable m ∧ msg_ID m ∉ holds s ∧
  Z.of_nat (length (holds s)) < topic_room s.2.

Definition accepted (l : loc) (s s' : TS) (delay now : Z) : Prop :=
  Publish l s = Ret true s' ∨ PublishFront l s = Ret true s' ∨
  PublishDelayed l delay now s = Ret tt s'.

(** The completed calls on an open topic, in any interleaving; the ticker of
    the wheel and the sweeper of the broker are among them. *)
Inductive topic_step : TS → event → TS → Prop :=
| step_new s topic payload now r l s' :
    zoom lens_fst (NewMessage topic payload now r) s = Ret l s' → topic_step s Internal s'
| step_publish s l m s' delay now :
    publishable s l m → accepted l s s' delay now → topic_step s (Enter (msg_ID m)) s'
| step_consume s l m s' :
    Consume s = Ret (Some l, true) s' → heap s.1 !! l = Some m → topic_step s (Leave (msg_ID m)) s'
| step_consume_empty s s' : Consume s = Ret (None, false) s' → topic_step s Internal s'
| step_consume_wait s timeout t0 t1 l m s' :
    ConsumeWait timeout t0 t1 s = Ret (Some l, true) s' → heap s.1 !! l = Some m →
    topic_step s (Leave (msg_ID m)) s'
| step_consume_wait_empty s timeout t0 t1 s' :
    ConsumeWait timeout t0 t1 s = Ret (None, false) s' ∨ ConsumeWait timeout t0 t1 s = Block s' →
    topic_step s Internal s'
| step_consume_group s g c timeout t0 t1 now r s' :
    ConsumeGroup g c timeout t0 t1 now s = Ret r s' → topic_step s Internal s'
| step_consume_park s g c timeout t0 t1 now s' :
    ConsumeGroup g c timeout t0 t1 now s = Block s' → topic_step s Internal s'
| step_ack s g mid s' : Topic.Ack g mid s = Ret true s' → topic_step s (Leave mid) s'
| step_ack_unknown s g mid s' : Topic.Ack g mid s = Ret false s' → topic_step s Internal s'
| step_nack s g mid reason now b s' :
    Topic.Nack g mid reason now s = Ret b s' → topic_step s Internal s'
| step_replay s mid now r s' : ReplayDeadLetter mid now s = Ret r s' → topic_step s Internal s'
| step_purge s n s' :
    DLQ Purge s = Ret n s' → topic_step s (Discard (dlq_order (t_dlq s.2))) s'
| step_tick s s' : advance_wheel s = Ret tt s' → topic_step s Internal s'
| step_sweep s order now failedAt n s' :
    (∀ g, g ∈ order.*1 → is_Some (t_groups s.2 !! g)) →
    SweepConsumerTimeouts order now failedAt s = Ret n s' → topic_step s Internal s'.

Inductive trace : TS → list event → TS → Prop :=
| trace_nil s : trace s [] s
| trace_cons s ev s1 evs s2 : topic_step s ev s1 → trace s1 evs s2 → trace s (ev :: evs) s2.

Lemma publishable_inv s q l m :
  topic_inv 0 s q → publishable s l m →
  topic_inv 1 s q ∧ heap s.1 !! l = Some m ∧ retryable m ∧ msg_ID m ∉ held s q.
Proof.
  intros Hi (Hm & Hret & Hno & Hlt). rewrite (holds_inv _ _ _ Hi) in Hno Hlt.
  split_and!; [|done..]. split; [apply Hi|apply Hi|]. lia.
Qed.

Lemma new_step s q topic payload now r l s' :
  topic_inv 0 s q → zoom lens_fst (NewMessage topic payload now r) s = Ret l s' →
  topic_inv 0 s' q ∧ held s' q = held s q.
Proof.
  intros Hi E. unfold zoom in E. cbn [view over lens_fst] in E. rewrite NewMessage_run in E.
  simplify_eq. set (m := mkMessage _ _ _ _ _ _ _ _ _ _ _ _). set (σ' := mkStore _ _).
  pose proof (ti_core _ _ _ Hi) as Hc.
  assert (evolves s.1 σ') as Hev by apply evolves_alloc.
  assert (∀ k mk, heap s.1 !! k = Some mk → heap σ' !! k = Some mk) as Hsame.
  { intros k mk Hk. unfold σ'. simpl. rewrite lookup_insert_ne //.
    intros Ek. pose proof (alloc_fresh s.1) as Hf. by rewrite Ek Hk in Hf. }
  assert (held (σ', s.2) q = held s q) as Hh by by apply (custody_evolves _ _ _ _ _ _ Hc).
  split; [|done]. split; [|apply Hi|rewrite Hh; apply Hi].
  apply (core_write _ _ _ _ _ _ Hc σ' Hev).
  - intros k mk Hk Hmk. destruct (core_queued _ _ _ _ _ _ Hc k Hk) as (m0 & Hm0 & ?).
    rewrite (Hsame _ _ Hm0) in Hmk. by simplify_eq.
  - intros g cg mid pm mk Hg Hpm Hmk.
    destruct (core_pending _ _ _ _ _ _ Hc g cg mid pm Hg Hpm) as (m0 & Hm0 & _ & ?).
    rewrite (Hsame _ _ Hm0) in Hmk. by simplify_eq.
Qed.

Lemma publish_step s q l m s' delay now :
  topic_inv 0 s q → publishable s l m → accepted l s s' delay now →
  ∃ q', topic_inv 0 s' q' ∧ held s' q' ≡ₚ msg_ID m :: held s q ∧ keeps [msg_ID m] s.1 s'.1.
Proof.
  intros Hi Hpub Hacc. destruct (publishable_inv s q l m Hi Hpub) as (Hi1 & Hm & Hret & Hno).
  destruct Hacc as [E|[E|E]].
  - destruct (Publish_run 0 s q l m Hi1 Hm Hret Hno) as (rb' & E' & Hi' & Hp & _).
    rewrite E in E'. simplify_eq. eauto using keeps_refl.
  - destruct (PublishFront_run 0 s q l m Hi1 Hm Hret Hno) as (rb' & E' & Hi' & Hp & _).
    rewrite E in E'. simplify_eq. eauto using keeps_refl.
  - destruct (PublishDelayed_run 0 s q l m delay now Hi1 Hm Hret Hno) as (s2 & E' & Hi' & Hp & _ & Hk).
    rewrite E in E'. simplify_eq. eauto.
Qed.

(** An open topic refuses nothing. *)
Lemma publish_accepts k s q l m :
  topic_inv k s q → heap s.1 !! l = Some m →
  (∃ s', Publish l s = Ret true s') ∧ (∃ s', PublishFront l s = Ret true s').
Proof.
  intros Hi Hm. pose proof (ti_core _ _ _ Hi) as Hc. destruct (core_open _ _ _ _ _ _ Hc) as [Ho _].
  destruct (Push_run _ _ l (core_ring _ _ _ _ _ _ Hc) Ho) as (r1 & E1 & _).
  destruct (PushFront_run _ _ l (core_ring _ _ _ _ _ _ Hc) Ho) as (r2 & E2 & _).
  split; eexists; [unfold Publish|unfold PublishFront]; glue; rewrite (ti_open _ _ _ Hi).
  - rewrite (zoom_ret lens_ring _ s _ _ E1). by rewrite (payload_run _ l m).
  - rewrite (zoom_ret lens_ring _ s _ _ E2). by rewrite (payload_run _ l m).
Qed.

Lemma nack_returns s q g mid reason now :
  topic_inv 0 s q →
  ∃ b s', Topic.Nack g mid reason now s = Ret b s' ∧ topic_inv 0 s' q ∧ held s' q ≡ₚ held s q ∧
    keeps (held s q) s.1 s'.1.
Proof.
  intros Hi. destruct (t_groups s.2 !! g) as [cg|] eqn:Hg.
  - destruct (cg_pel cg !! mid) as [pm|] eqn:Hpm.
    + destruct (Nack_run 0 s q g cg mid pm reason now Hi Hg Hpm) as (s2 & m & d & E' & Hi' & Hp & _ & _ & _ & Hk & _).
      eauto 10.
    + exists false, s. split_and!; [|done..|apply keeps_refl]. unfold Topic.Nack, ConsumerGroup.Nack. glue. unfold id.
      rewrite Hg. cbn [view lens_group]. rewrite Hg. change (default _ (Some cg)) with cg. by rewrite Hpm.
  - exists false, s. split_and!; [|done..|apply keeps_refl]. unfold Topic.Nack. glue. unfold id. by rewrite Hg.
Qed.

Lemma replay_returns s q mid now :
  topic_inv 0 s q →
  ∃ r s' q', ReplayDeadLetter mid now s = Ret r s' ∧ topic_inv 0 s' q' ∧ held s' q' ≡ₚ held s q ∧
    keeps (held s q) s.1 s'.1.
Proof.
  intros Hi. destruct (dlq_entries (t_dlq s.2) !! mid) as [e|] eqn:He.
  - destruct (Replay_run 0 s q mid e now Hi He) as (s2 & m & E' & Hi' & Hp & _ & _ & _ & Hk & _).
    eauto 10.
  - pose proof (Remove_run _ mid (core_dlq _ _ _ _ _ _ (ti_core _ _ _ Hi))) as Hr. rewrite He in Hr.
    exists (None, false), s, q. split_and!; [|done..|apply keeps_refl]. unfold ReplayDeadLetter.
    rewrite (bind_ret _ _ _ _ _ (zoom_ret lens_dlq _ s _ _ Hr)). by destruct s as [? []].
Qed.

Lemma group_step s q g c timeout t0 t1 now s' :
  topic_inv 0 s q →
  (∃ r, ConsumeGroup g c timeout t0 t1 now s = Ret r s') ∨
    ConsumeGroup g c timeout t0 t1 now s = Block s' →
  ∃ q', topic_inv 0 s' q' ∧ held s' q' ≡ₚ held s q ∧ keeps (held s q) s.1 s'.1.
Proof.
  intros Hi E. destruct q as [|l q].
  - destruct (ConsumeGroup_empty 0 s g c timeout t0 t1 now Hi) as (s2 & E' & Hi' & Hp & Hs).
    assert (keeps (held s []) s.1 s2.1) as Hk by (rewrite Hs; apply keeps_refl).
    exists []. destruct E as [[r E]|E], E' as [E'|E']; rewrite E in E'; by simplify_eq.
  - destruct (ConsumeGroup_run 0 s l q g c timeout t0 t1 now Hi) as (s2 & m & E' & Hi' & _ & Hp & Hk & _).
    exists q. destruct E as [[r E]|E]; rewrite E in E'; by simplify_eq.
Qed.

(** One call: the IDs that were there or came in are the IDs that are there or
    went out, with their multiplicities. *)
Lemma step_conserves s q ev s' :
  topic_inv 0 s q → topic_step s ev s' →
  ∃ q', topic_inv 0 s' q' ∧ departed ev ++ held s' q' ≡ₚ entered ev ++ held s q.
Proof.
  intros Hi Hs. destruct Hs; simpl.
  - destruct (new_step _ _ _ _ _ _ _ _ Hi H) as [? Hh]. exists q. by rewrite Hh.
  - destruct (publish_step s q l m s' delay now Hi) as (q' & ? & ? & _); eauto.
  - pose proof (Consume_run 0 s q Hi) as Hr. destruct q as [|l' q]; [congruence|].
    destruct Hr as (s2 & m2 & E & _ & Hm2 & Hi2 & _ & Hp). rewrite H in E. simplify_eq.
    exists q. split; [by eapply inv_weaken, Nat.le_0_l|]. by rewrite Hp.
  - pose proof (Consume_run 0 s q Hi) as Hr. destruct q as [|l' q].
    + rewrite Hr in H. simplify_eq. by exists [].
    + destruct Hr as (s2 & m2 & E & _). congruence.
  - pose proof (ConsumeWait_run 0 s q timeout t0 t1 Hi) as Hr. destruct q as [|l' q].
    { destruct Hr as [E|E]; congruence. }
    destruct Hr as (s2 & m2 & E & _ & Hm2 & Hi2 & _ & Hp). rewrite H in E. simplify_eq.
    exists q. split; [by eapply inv_weaken, Nat.le_0_l|]. by rewrite Hp.
  - pose proof (ConsumeWait_run 0 s q timeout t0 t1 Hi) as Hr. destruct q as [|l' q].
    + exists []. destruct H as [H|H], Hr as [Hr|Hr]; rewrite Hr in H; by simplify_eq.
    + destruct Hr as (s2 & m2 & E & _). destruct H; congruence.
  - destruct (group_step s q g c timeout t0 t1 now s' Hi) as (q' & ? & ? & _); eauto.
  - destruct (group_step s q g c timeout t0 t1 now s' Hi) as (q' & ? & ? & _); eauto.
  - pose proof (Ack_run 0 s q g mid Hi) as Hr. destruct (_ ≫= _); [|congruence].
    destruct Hr as (s2 & E & _ & Hi2 & _ & Hp). rewrite H in E. simplify_eq.
    exists q. split; [by eapply inv_weaken, Nat.le_0_l|]. by rewrite Hp.
  - pose proof (Ack_run 0 s q g mid Hi) as Hr. exists q. destruct (_ ≫= _).
    + destruct Hr as (s2 & E & _). congruence.
    + rewrite Hr in H. by simplify_eq.
  - exists q. destruct (nack_returns s q g mid reason now Hi) as (b' & s2 & E & Hi2 & Hp2 & _).
    rewrite H in E. by simplify_eq.
  - destruct (replay_returns s q mid now Hi) as (r' & s2 & q2 & E & Hi2 & Hp2 & _).
    rewrite H in E. simplify_eq. eauto.
  - destruct (Purge_topic_run 0 s q Hi) as (d' & E & Hi2 & Hp & _). rewrite H in E. simplify_eq.
    exists q. split; [done|]. by rewrite Hp.
  - destruct (advance_run 0 s q Hi) as (s2 & E & _ & Hi2 & _ & _ & Hp). rewrite H in E. simplify_eq. eauto.
  - destruct (sweep_run order now failedAt 0 s q Hi) as (n2 & s2 & E & Hi2 & Hp & _); [done|].
    rewrite H0 in E. simplify_eq. eauto.
Qed.

Lemma trace_conserves s evs s' :
  trace s evs s' → ∀ q, topic_inv 0 s q →
  ∃ q', topic_inv 0 s' q' ∧ (evs ≫= departed) ++ held s' q' ≡ₚ (evs ≫= entered) ++ held s q.
Proof.
  induction 1 as [s|s ev s1 evs s2 Hs _ IH]; intros q Hi; [by exists q|].
  destruct (step_conserves s q ev s1 Hi Hs) as (q1 & Hi1 & Hp1).
  destruct (IH q1 Hi1) as (q2 & Hi2 & Hp2). exists q2. split; [done|].
  rewrite !bind_cons -!app_assoc Hp2 (Permutation_app_swap_app (departed ev)) Hp1.
  by rewrite Permutation_app_swap_app.
Qed.

(** A new topic. *)
Lemma NewTopic_inv name capacity σ :
  0 ≤ capacity ≤ 2 ^ 62 →
  ∃ t, NewTopic name capacity = Some t ∧ topic_inv 0 (σ, t) [] ∧ held (σ, t) [] = [] ∧
       tw_interval (t_tw t) = 50 * millisecond ∧ t_groups t = ∅ ∧ topic_room t = 50000.
Proof.
  intros Hcap. destruct (NewRingBuffer_run capacity Hcap) as (rb & E & Hr & Hcl & _).
  unfold NewTopic. rewrite E. simpl. eexists. split; [reflexivity|].
  destruct (NewTimingWheel_ok (50 * millisecond) 3600) as (Hw & Hwc & Ht); [lia|].
  assert (tw_interval (NewTimingWheel (50 * millisecond) 3600) = 50 * millisecond) as Hiv by done.
  set (w := NewTimingWheel (50 * millisecond) 3600) in *. clearbody w.
  destruct (NewDeadLetterQueue_ok 50000) as [Hd _].
  assert (topic_room (mkTopic name rb ∅ (NewDeadLetterQueue 50000) w false 0 0 0 0 0 0 0) = 50000) as Hr5.
  { unfold topic_room, ring_limit. simpl. lia. }
  assert (held (σ, mkTopic name rb ∅ (NewDeadLetterQueue 50000) w false 0 0 0 0 0 0 0) [] = []) as Hh.
  { unfold held, custody. simpl. by rewrite Ht. }
  split_and!; [|done|done|done|done]. split; [|done|by rewrite Hh Hr5].
  split; simpl; try done.
  - rewrite Ht. by intros l ?%elem_of_nil.
  - unfold custody. simpl. rewrite Ht. apply NoDup_nil_2.
Qed.

(** ** Ticks *)

(** [n] ticks of the wheel. *)
Fixpoint ticks (n : nat) : prog TS unit :=
  match n with
  | O => mret tt
  | S n' => advance_wheel;; ticks n'
  end.

Lemma ticks_deliver n : ∀ k s q l,
  topic_inv k s q → (l, Z.of_nat n) ∈ timers (t_tw s.2) →
  ∃ s' q', ticks (S n) s = Ret tt s' ∧ topic_inv k s' q' ∧ l ∈ q' ∧ held s' q' ≡ₚ held s q.
Proof.
  induction n as [|n IH]; intros k s q l Hi Hl;
    destruct (advance_run k s q Hi) as (s1 & E & _ & Hi1 & Ht1 & _ & Hp1).
  - exists s1, (q ++ cd_fires (timers (t_tw s.2))). split_and!; [|done| |done].
    + cbn [ticks]. by rewrite (bind_ret _ _ _ _ _ E).
    + apply elem_of_app. right. apply list_elem_of_fmap. exists (l, Z.of_nat 0). split; [done|].
      by apply list_elem_of_filter.
  - destruct (IH k s1 _ l Hi1) as (s2 & q2 & E2 & Hi2 & Hl2 & Hp2).
    { rewrite Ht1. apply list_elem_of_fmap. exists (l, Z.of_nat (S n)).
      split; [simpl; f_equal; lia|]. apply list_elem_of_filter. by split. }
    exists s2, q2. split_and!; [|done|done|by rewrite Hp2].
    change (ticks (S (S n))) with (advance_wheel;; ticks (S n)).
    by rewrite (bind_ret _ _ _ _ _ E).
Qed.

(** ** Closing *)

Lemma Stop_run w : ∃ w', Stop w = Ret tt w' ∧ tw_closed w' = true.
Proof. unfold Stop. destruct (tw_closed w) eqn:Hc; eexists; by split. Qed.

Lemma Close_returns (s : TS) : ∃ s', Topic.Close s = Ret tt s'.
Proof.
  destruct (Stop_run (t_tw s.2)) as (w & E & _). unfold Topic.Close. glue. destruct (t_closed s.2); [by eexists|].
  unfold zoom. cbn. rewrite E. by eexists.
Qed.

(** ** Reading off *)

Lemma Stats_topic_run k (s : TS) q :
  topic_inv k s q → ∃ st, Topic.Stats s = Ret st s ∧ ts_Length st = Z.of_nat (length q).
Proof.
  intros Hi. pose proof (ti_core _ _ _ Hi) as Hc. destruct s as [σ t]. cbn [fst snd] in Hc.
  pose proof (core_ring _ _ _ _ _ _ Hc) as Hr.
  assert (over lens_ring (t_ring t) (σ, t) = (σ, t)) as Hov by by destruct t.
  pose proof (zoom_ret lens_ring Len (σ, t) _ _ (Len_run _ _ Hr)) as E1.
  pose proof (zoom_ret lens_ring Cap (σ, t) _ _ (Cap_run _ _ Hr)) as E2.
  cbn [view lens_ring snd] in E1, E2. fold (@lens_ring) in E1, E2. rewrite Hov in E1, E2.
  assert (∃ k, zoom lens_dlq dlq_Len (σ, t) = Ret k (σ, t)) as [dead E3].
  { unfold zoom, dlq_Len, RLock, RUnlock. run. cbn [dlq_readers].
    assert (dlq_readers (t_dlq t) = 0) as Hrd by apply (core_dlq _ _ _ _ _ _ Hc).
    rewrite Hrd. cbn. eexists. f_equal. destruct t as [? ? ? [? ? ? rd]]. simpl in *. by subst rd. }
  eexists. unfold Topic.Stats. rewrite (bind_ret (gets lens_snd id) _ (σ, t) t (σ, t) eq_refl).
  rewrite (bind_ret _ _ _ _ _ E1) (bind_ret _ _ _ _ _ E2) (bind_ret _ _ _ _ _ E3). done.
Qed.

(** ** What each call returns *)

Lemma publications_return s q l m delay now :
  topic_inv 0 s q → publishable s l m →
  (∃ s', Publish l s = Ret true s') ∧ (∃ s', PublishFront l s = Ret true s') ∧
  (∃ s', PublishDelayed l delay now s = Ret tt s').
Proof.
  intros Hi Hpub. destruct (publishable_inv s q l m Hi Hpub) as (Hi1 & Hm & Hret & Hno). split_and!.
  - destruct (Publish_run 0 s q l m Hi1 Hm Hret Hno) as (? & ? & _). eauto.
  - destruct (PublishFront_run 0 s q l m Hi1 Hm Hret Hno) as (? & ? & _). eauto.
  - destruct (PublishDelayed_run 0 s q l m delay now Hi1 Hm Hret Hno) as (? & ? & _). eauto.
Qed.

Lemma ConsumeWait_exact k s q timeout t0 t1 :
  topic_inv k s q →
  if head q is Some l then ∃ s', ConsumeWait timeout t0 t1 s = Ret (Some l, true) s'
  else ConsumeWait timeout t0 t1 s = if gives_up timeout t0 t1 then Ret (None, false) s else Block s.
Proof.
  intros Hi. destruct q as [|l q]; cbn [head].
  - unfold ConsumeWait, mbind, prog_bind. rewrite (PopWait_empty k) //. by destruct (gives_up _ _ _).
  - destruct (ConsumeWait_run k s (l :: q) timeout t0 t1 Hi) as (s' & m & E & _). by exists s'.
Qed.

Lemma ConsumeGroup_exact k s q g c timeout t0 t1 now :
  topic_inv k s q →
  ∃ s', ConsumeGroup g c timeout t0 t1 now s =
    if head q is Some l then Ret (Some l, true) s' else
    if gives_up timeout t0 t1 then Ret (None, false) s' else Block s'.
Proof.
  intros Hi. destruct q as [|l q]; cbn [head].
  - destruct (GetOrCreateGroup_run k s _ g (30 * second) Hi) as (gs & cg & E1 & Hg & Hi1 & Hp1).
    eexists. unfold ConsumeGroup. rewrite (bind_ret _ _ _ _ _ E1). unfold mbind, prog_bind.
    rewrite (PopWait_empty k) //. by destruct (gives_up _ _ _).
  - destruct (ConsumeGroup_run k s l q g c timeout t0 t1 now Hi) as (s' & m & E & _). by exists s'.
Qed.

(** ** Properties *)

(** C3: no message is lost or duplicated.  Take a new topic and any sequence of
    completed calls on it while it is open: publications, also delayed and at the front,
    of messages whose ID the topic does not hold and for which it has room (it holds
    fewer than 50000, the capacity of its dead letter queue), consumption, group
    checkouts, acknowledgements, rejections, replays, purges, wheel ticks and sweeps, in
    any interleaving and for any map iteration order.  The IDs published are exactly,
    with multiplicity, the IDs consumed, acknowledged or purged together with the IDs
    the topic still holds in its ring, its wheel, its pending lists or its dead letter
    queue; and no ID is held twice.  (Beyond 50000 the dead letter queue evicts, and a
    closed topic drops delayed messages.) *)
Theorem topic_conserves_messages name capacity σ t evs s'
  (Hcap : 0 ≤ capacity ≤ 2 ^ 62) (Hnew : NewTopic name capacity = Some t)
  (Htr : trace (σ, t) evs s') :
  (evs ≫= entered) ≡ₚ (evs ≫= departed) ++ holds s' ∧ NoDup (holds s').
Proof.
  destruct (NewTopic_inv name capacity σ Hcap) as (t' & E & Hi & Hh & _).
  rewrite Hnew in E. injection E as <-.
  destruct (trace_conserves _ _ _ Htr [] Hi) as (q' & Hi' & Hp).
  rewrite Hh app_nil_r in Hp. rewrite (holds_inv _ _ _ Hi'). split; [done|apply Hi'].
Qed.

(** C19: every call on a topic returns or waits for a message, none panics.  After any
    sequence of calls on a new topic (as in the theorem above), with queue [q]: a
    publication of a new message that the topic has room for is accepted; [ConsumeWait]
    and [ConsumeGroup] return the head of the queue if there is one and otherwise give up
    if their timeout is not zero and has passed, and wait if not (with a timeout of zero
    without end): these are the only calls that wait; consuming, acknowledging,
    rejecting, replaying, purging, sweeping (in any order over existing groups), the
    ticker, the statistics and closing the topic all return. *)
Theorem topic_operations_return name capacity σ t evs s
  (Hcap : 0 ≤ capacity ≤ 2 ^ 62) (Hnew : NewTopic name capacity = Some t)
  (Htr : trace (σ, t) evs s) :
  ∃ q, ring_rep (t_ring s.2) q ∧
  (∀ l m delay now, publishable s l m → (∃ s', Publish l s = Ret true s') ∧
     (∃ s', PublishFront l s = Ret true s') ∧ (∃ s', PublishDelayed l delay now s = Ret tt s')) ∧
  (∀ timeout t0 t1, if head q is Some l then ∃ s', ConsumeWait timeout t0 t1 s = Ret (Some l, true) s'
     else ConsumeWait timeout t0 t1 s = if gives_up timeout t0 t1 then Ret (None, false) s else Block s) ∧
  (∀ g c timeout t0 t1 now, ∃ s', ConsumeGroup g c timeout t0 t1 now s =
     if head q is Some l then Ret (Some l, true) s' else
     if gives_up timeout t0 t1 then Ret (None, false) s' else Block s') ∧
  (∃ s', Consume s = Ret (head q, bool_decide (q ≠ [])) s') ∧
  (∀ g mid, ∃ b s', Topic.Ack g mid s = Ret b s') ∧
  (∀ g mid reason now, ∃ b s', Topic.Nack g mid reason now s = Ret b s') ∧
  (∀ mid now, ∃ r s', ReplayDeadLetter mid now s = Ret r s') ∧
  (∀ order now failedAt, (∀ g, g ∈ order.*1 → is_Some (t_groups s.2 !! g)) →
     ∃ n s', SweepConsumerTimeouts order now failedAt s = Ret n s') ∧
  (∃ s', advance_wheel s = Ret tt s') ∧ (∃ n s', DLQ Purge s = Ret n s') ∧
  (∃ st, Stats s = Ret st s ∧ ts_Length st = Z.of_nat (length q)) ∧ (∃ s', Topic.Close s = Ret tt s').
Proof.
  destruct (NewTopic_inv name capacity σ Hcap) as (t' & E & Hi0 & _).
  rewrite Hnew in E. injection E as <-.
  destruct (trace_conserves _ _ _ Htr [] Hi0) as (q & Hi & _). exists q. split_and!.
  - apply Hi.
  - intros l m delay now Hpub. by eapply publications_return.
  - intros. by apply (ConsumeWait_exact 0).
  - intros. by apply (ConsumeGroup_exact 0).
  - pose proof (Consume_run 0 s q Hi) as Hr. destruct q; [eauto|]. destruct Hr as (? & ? & ? & _). eauto.
  - intros g mid. pose proof (Ack_run 0 s q g mid Hi) as Hr. destruct (_ ≫= _); [|eauto].
    destruct Hr as (? & ? & _). eauto.
  - intros g mid reason now. destruct (nack_returns s q g mid reason now Hi) as (? & ? & ? & _). eauto.
  - intros mid now. destruct (replay_returns s q mid now Hi) as (? & ? & ? & ? & _). eauto.
  - intros order now failedAt Hex. destruct (sweep_run order now failedAt 0 s q Hi Hex) as (? & ? & ? & _). eauto.
  - destruct (advance_run 0 s q Hi) as (? & ? & _). eauto.
  - destruct (Purge_topic_run 0 s q Hi) as (? & ? & _). eauto.
  - by apply (Stats_topic_run 0).
  - apply Close_returns.
Qed.

(** C35: checkout and acknowledgement.  A group's consumer gets the head of the
    queue under a lease of 30 seconds; until then nobody else can be given the
    message.  The first acknowledgement of its ID by that group succeeds and
    takes it out of the topic for good; a second one is refused and changes
    nothing. *)
Theorem group_checkout_then_ack s l q g c timeout t0 t1 now (Hi : topic_inv 0 s (l :: q)) :
  ∃ s1 s2 m cg, ConsumeGroup g c timeout t0 t1 now s = Ret (Some l, true) s1 ∧
    heap s.1 !! l = Some m ∧ ring_rep (t_ring s1.2) q ∧ t_groups s1.2 !! g = Some cg ∧
    cg_pel cg !! msg_ID m = Some (mkPending l c now (i64 (now + 30 * second))) ∧
    Topic.Ack g (msg_ID m) s1 = Ret true s2 ∧ msg_ID m ∉ held s2 q ∧
    held s (l :: q) ≡ₚ msg_ID m :: held s2 q ∧
    Topic.Ack g (msg_ID m) s2 = Ret false s2.
Proof.
  destruct (ConsumeGroup_run 0 s l q g c timeout t0 t1 now Hi)
    as (s1 & m & E1 & Hi1 & Hm & Hp1 & _ & cg & Hg & Hpm).
  pose proof (Ack_run 0 s1 q g (msg_ID m) Hi1) as H2. rewrite Hg /= Hpm in H2.
  destruct H2 as (s2 & E2 & _ & Hi2 & Hni & Hp2).
  exists s1, s2, m, cg. split_and!; [done|done|apply Hi1|done|done|done|done|by rewrite -Hp1|].
  pose proof (Ack_run 1 s2 q g (msg_ID m) Hi2) as H3.
  destruct (t_groups s2.2 !! g) as [cg2|] eqn:Hg2; [|done]. simpl in H3.
  destruct (cg_pel cg2 !! msg_ID m) eqn:Hpm2; [|done]. exfalso. apply Hni.
  unfold held, custody. rewrite !elem_of_app. right; right; left. by eapply pel_ids_elem.
Qed.

(** C36: a rejection routes by the retry counter.  [Nack] of a pending message
    returns true, takes it out of the pending list, counts the attempt and
    records the reason; if attempts are left the message is in the wheel with
    the exponential backoff as its delay, otherwise it is the newest entry of
    the dead letter queue; in both cases the topic still answers for the same
    messages. *)
Theorem nack_routes s q g cg mid pm reason now
  (Hi : topic_inv 0 s q) (Hg : t_groups s.2 !! g = Some cg) (Hpm : cg_pel cg !! mid = Some pm) :
  ∃ s' m, Topic.Nack g mid reason now s = Ret true s' ∧ held s' q ≡ₚ held s q ∧
    heap s.1 !! pm_Message pm = Some m ∧
    heap s'.1 !! pm_Message pm = Some (failed reason m) ∧
    (t_groups s'.2 !! g ≫= λ cg, cg_pel cg !! mid) = None ∧
    if msg_MaxRetries m <=? msg_RetryCount m + 1 then
      dlq_order (t_dlq s'.2) = dlq_order (t_dlq s.2) ++ [mid] ∧ t_tw s'.2 = t_tw s.2
    else
      timers (t_tw s'.2) ≡ₚ
        (pm_Message pm, delay_ticks (Z.min (100 * 2 ^ msg_RetryCount m * millisecond) (10 * second))
                          (tw_interval (t_tw s.2))) :: timers (t_tw s.2) ∧
      t_dlq s'.2 = t_dlq s.2.
Proof.
  destruct (Nack_run 0 s q g cg mid pm reason now Hi Hg Hpm)
    as (s' & m & delay & E & _ & Hp & Hm & Hid & _ & _ & Hm' & Hd & Hr & Hnone).
  exists s', m. split_and!; try done. unfold routed in Hr. rewrite Hid Hd in Hr. done.
Qed.

(** A rejected message with attempts left comes back.  After [Nack] and as
    many ticks as its backoff asks for, plus the one that dispatches it, the
    message is in the ring again. *)
Theorem nack_redelivers s q g cg mid pm m reason now
  (Hi : topic_inv 0 s q) (Hg : t_groups s.2 !! g = Some cg) (Hpm : cg_pel cg !! mid = Some pm)
  (Hm : heap s.1 !! pm_Message pm = Some m) (Hleft : msg_RetryCount m + 1 < msg_MaxRetries m) :
  let delay := Z.min (100 * 2 ^ msg_RetryCount m * millisecond) (10 * second) in
  let n := Z.to_nat (delay_ticks delay (tw_interval (t_tw s.2))) in
  ∃ s1 s2 q2, Topic.Nack g mid reason now s = Ret true s1 ∧ ticks (S n) s1 = Ret tt s2 ∧
    ring_rep (t_ring s2.2) q2 ∧ pm_Message pm ∈ q2 ∧ held s2 q2 ≡ₚ held s q.
Proof.
  intros delay n. destruct (Nack_run 0 s q g cg mid pm reason now Hi Hg Hpm)
    as (s1 & m1 & d & E & Hi1 & Hp1 & Hm1 & Hid & Hiv & _ & _ & Hd & Hr & _).
  rewrite Hm in Hm1. injection Hm1 as <-. subst d. fold delay in Hr.
  pose proof (core_wheel _ _ _ _ _ _ (ti_core _ _ _ Hi)) as Hw.
  assert (0 < delay) as Hpos.
  { destruct (core_pending _ _ _ _ _ _ (ti_core _ _ _ Hi) g cg mid pm Hg Hpm) as (m' & Hm' & _ & Hret).
    rewrite Hm in Hm'. injection Hm' as <-. unfold retryable in Hret.
    unfold delay, millisecond, second. pose proof (Z.pow_pos_nonneg 2 (msg_RetryCount m)). lia. }
  pose proof (delay_ticks_pos delay _ Hpos (ok_interval _ Hw)) as Ht.
  destruct (ticks_deliver n 0 s1 q (pm_Message pm) Hi1) as (s2 & q2 & E2 & Hi2 & Hl & Hp2).
  { unfold n. rewrite Z2Nat.id; [lia|]. by eapply routed_retry. }
  exists s1, s2, q2. split_and!; [done|done|apply Hi2|done|by rewrite Hp2].
Qed.

(** C37: a crashed consumer does not keep its messages.  When the lease of a pending
    message has run out at the moment its group is swept and the message has attempts
    left, a sweep of the topic (over its groups and their entries in any order that
    includes the group and the message, each group with its own reading of the clock)
    followed by the ticks of the 500 ms redelivery delay puts the message back in the
    ring; the topic still answers for the same messages.  (Without attempts left the
    sweep dead-letters it.) *)
Theorem abandoned_redelivered s q g cg mid pm m order porder now failedAt
  (Hi : topic_inv 0 s q) (Hg : t_groups s.2 !! g = Some cg) (Hpm : cg_pel cg !! mid = Some pm)
  (Hm : heap s.1 !! pm_Message pm = Some m) (Hleft : msg_RetryCount m + 1 < msg_MaxRetries m)
  (Hexp : pm_AckDeadline pm ≤ now g)
  (Hex : ∀ g, g ∈ order.*1 → is_Some (t_groups s.2 !! g)) (Hnd : NoDup order.*1)
  (Hin : (g, porder) ∈ order) (Hndp : NoDup porder) (Hmid : mid ∈ porder) :
  let n := Z.to_nat (delay_ticks (500 * millisecond) (tw_interval (t_tw s.2))) in
  ∃ count s1 s2 q2, SweepConsumerTimeouts order now failedAt s = Ret count s1 ∧
    ticks (S n) s1 = Ret tt s2 ∧
    ring_rep (t_ring s2.2) q2 ∧ pm_Message pm ∈ q2 ∧ held s2 q2 ≡ₚ held s q.
Proof.
  intros n. destruct (sweep_expired order now failedAt g cg mid pm m 0 s q porder) as (count & s1 & E1 & Hi1 & Hp1 & Ht1);
    [done..|].
  pose proof (core_wheel _ _ _ _ _ _ (ti_core _ _ _ Hi)) as Hw.
  pose proof (delay_ticks_pos (500 * millisecond) _ ltac:(done) (ok_interval _ Hw)) as Ht.
  destruct (ticks_deliver n 0 s1 q (pm_Message pm) Hi1) as (s2 & q2 & E2 & Hi2 & Hl & Hp2).
  { unfold n. rewrite Z2Nat.id; [lia|done]. }
  exists count, s1, s2, q2. split_and!; [done|done|apply Hi2|done|by rewrite Hp2].
Qed.

(** A dead letter can be replayed.  [ReplayDeadLetter] of a dead-lettered
    ID returns the message, with its retry counter and failure cause reset and
    its delivery time set to now, appends it to the ring and forgets the dead
    letter; a second replay of the same ID finds nothing. *)
Theorem replay_restores s q mid e now now'
  (Hi : topic_inv 0 s q) (He : dlq_entries (t_dlq s.2) !! mid = Some e) :
  ∃ s' m, ReplayDeadLetter mid now s = Ret (Some (dle_Message e), true) s' ∧
    ring_rep (t_ring s'.2) (q ++ [dle_Message e]) ∧
    heap s.1 !! dle_Message e = Some m ∧ msg_ID m = mid ∧
    heap s'.1 !! dle_Message e = Some (revived now m) ∧
    held s' (q ++ [dle_Message e]) ≡ₚ held s q ∧
    ReplayDeadLetter mid now' s' = Ret (None, false) s'.
Proof.
  destruct (Replay_run 0 s q mid e now Hi He) as (s' & m & E & Hi' & Hp & Hm & Hid & Hm' & _ & Hent).
  exists s', m. split_and!; [done|apply Hi'|done|done|done|done|].
  pose proof (Remove_run _ mid (core_dlq _ _ _ _ _ _ (ti_core _ _ _ Hi'))) as Hr.
  rewrite Hent lookup_delete_eq in Hr. unfold ReplayDeadLetter.
  rewrite (bind_ret _ _ _ _ _ (zoom_ret lens_dlq _ s' _ _ Hr)). by destruct s' as [? []].
Qed.

(** A closed topic.  After [Close] publications are refused without any
    effect, but a delayed publication with a positive delay still returns
    normally and is counted as published, while the message goes nowhere: the
    ring, the wheel and the IDs the topic answers for are unchanged. *)
Theorem closed_topic_drops_delayed s s' l m delay now
  (Hopen : t_closed s.2 = false) (Hclose : Topic.Close s = Ret tt s')
  (Hm : heap s.1 !! l = Some m) (Hd : 0 < delay) :
  Publish l s' = Ret false s' ∧ PublishFront l s' = Ret false s' ∧
  ∃ s2, PublishDelayed l delay now s' = Ret tt s2 ∧
    t_published s2.2 = u64 (t_published s'.2 + 1) ∧
    t_ring s2.2 = t_ring s'.2 ∧ t_tw s2.2 = t_tw s'.2 ∧ holds s2 = holds s'.
Proof.
  assert (∃ w rb t, s' = (s.1, set_tw w (set_ring rb t)) ∧ tw_closed w = true ∧ t_closed t = true)
    as (w & rb & t & -> & Hw & Ht).
  { destruct (Stop_run (t_tw s.2)) as (w & E & Hw). revert Hclose. unfold Topic.Close. glue.
    rewrite Hopen. unfold zoom. cbn. rewrite E. intros [= <-]. do 3 eexists. by split_and!. }
  split; [unfold Publish; glue; cbn; by rewrite Ht|].
  split; [unfold PublishFront; glue; cbn; by rewrite Ht|].
  set (s1 := (s.1, set_tw w (set_ring rb t))). assert (heap s1.1 !! l = Some m) as Hm1 by done.
  eexists. split_and!.
  - unfold PublishDelayed. rewrite (bind_ret _ _ _ _ _ (load_run s1 l m Hm1)).
    rewrite (bind_ret (zoom lens_fst (store _ _)) _ _ _ _ eq_refl).
    rewrite (bind_ret _ _ _ _ _ (payload_run _ l (set_DeliverAt (i64 (now + delay)) m) _));
      [apply lookup_insert_eq|].
    rewrite (bind_ret (modify _ _) _ _ _ _ eq_refl). unfold TimingWheel.Add.
    rewrite (proj2 (Z.leb_gt _ _)) //. apply (zoom_ret lens_tw). by apply schedule_closed.
  - done.
  - done.
  - done.
  - unfold holds, held, custody. cbn. by rewrite !(msg_ids_write s.1 l m).
Qed.

(** ** Witnesses

    One message with [n] failed attempts out of three, published to a new
    topic, checked out by worker [w] of group [g] at time 5, and rejected. *)

Definition after {A} (p : prog TS A) (s : TS) : TS :=
  match p s with Ret _ s' => s' | Block s' => s' | Panic => s end.

Definition demo_topic : Topic :=
  mkTopic "orders" (mkRing (make_slice 1024) 0 0 1023 1024 false) ∅ (NewDeadLetterQueue 50000)
    (NewTimingWheel (50 * millisecond) 3600) false 0 0 0 0 0 0 0.

Definition demo_start (n : Z) : TS :=
  (mkStore {[1%positive := set_RetryCount n demo_msg]} 9, demo_topic).

Definition demo_queued (n : Z) : TS := after (Publish 1) (demo_start n).

Definition demo_leased (n : Z) : TS :=
  after (ConsumeGroup "g" "w" 0 0 0 5) (demo_queued n).

Definition demo_dead : TS := after (Topic.Nack "g" "7-1-00ff" "boom" 8) (demo_leased 2).

Lemma demo_new : NewTopic "orders" 16 = Some demo_topic.
Proof. by vm_compute. Qed.

Lemma demo_start_inv n : topic_inv 1 (demo_start n) [].
Proof.
  destruct (NewTopic_inv "orders" 16 (demo_start n).1) as (t & E & Hi & Hh & _ & _ & Hr); [lia|].
  rewrite demo_new in E. injection E as <-. split; [apply Hi|done|].
  change (demo_start n) with ((demo_start n).1, demo_topic). by rewrite Hh Hr.
Qed.

Lemma demo_publishable n : 0 ≤ n < 3 → publishable (demo_start n) 1 (set_RetryCount n demo_msg).
Proof.
  intros Hn. destruct (NewTopic_inv "orders" 16 (demo_start n).1) as (t & E & _ & Hh & _ & _ & Hr); [lia|].
  rewrite demo_new in E. injection E as <-. unfold publishable.
  rewrite (holds_inv _ _ _ (demo_start_inv n)).
  change (demo_start n) with ((demo_start n).1, demo_topic). rewrite Hh Hr.
  split_and!; [done|unfold retryable; simpl; lia|apply not_elem_of_nil|done].
Qed.

Lemma demo_publish n : 0 ≤ n < 3 → Publish 1 (demo_start n) = Ret true (demo_queued n) ∧
  topic_inv 0 (demo_queued n) [1%positive].
Proof.
  intros Hn. destruct (demo_publishable n Hn) as (Hm & Hret & Hno & _).
  rewrite (holds_inv _ _ _ (demo_start_inv n)) in Hno.
  destruct (Publish_run 0 _ [] 1 _ (demo_start_inv n) Hm Hret Hno) as (rb' & E & Hi & _).
  unfold demo_queued, after. by rewrite E.
Qed.

Lemma demo_lease n : 0 ≤ n < 3 →
  ConsumeGroup "g" "w" 0 0 0 5 (demo_queued n) = Ret (Some 1%positive, true) (demo_leased n) ∧
  topic_inv 0 (demo_leased n) [].
Proof.
  intros Hn. destruct (demo_publish n Hn) as [_ Hi].
  destruct (ConsumeGroup_run 0 _ 1 [] "g" "w" 0 0 0 5 Hi) as (s' & m & E & Hi' & _).
  unfold demo_leased, after. by rewrite E.
Qed.

Lemma demo_trace : trace (demo_start 0) [Enter "7-1-00ff"; Internal] (demo_leased 0).
Proof.
  eapply trace_cons.
  { apply (step_publish (demo_start 0) 1 (set_RetryCount 0 demo_msg) (demo_queued 0) 0 0).
    - by apply demo_publishable.
    - left. by apply demo_publish. }
  eapply trace_cons; [|apply trace_nil].
  eapply step_consume_group. by apply demo_lease.
Qed.

Lemma topic_conserves_messages_witness :
  ([Enter "7-1-00ff"; Internal] ≫= entered) ≡ₚ
    ([Enter "7-1-00ff"; Internal] ≫= departed) ++ holds (demo_leased 0).
Proof.
  destruct (topic_conserves_messages "orders" 16 (demo_start 0).1 demo_topic
    [Enter "7-1-00ff"; Internal] (demo_leased 0)) as [Hp _].
  - lia.
  - apply demo_new.
  - apply demo_trace.
  - exact Hp.
Defined.

(** After a publication and a checkout: nothing is queued, the message is pending. *)
Lemma topic_operations_return_witness :
  ConsumeWait 0 0 0 (demo_leased 0) = Block (demo_leased 0) ∧
  ConsumeWait 5 0 5 (demo_leased 0) = Ret (None, false) (demo_leased 0) ∧
  ∃ s', Topic.Close (demo_leased 0) = Ret tt s'.
Proof.
  destruct (topic_operations_return "orders" 16 (demo_start 0).1 demo_topic [Enter "7-1-00ff"; Internal] (demo_leased 0))
    as (q & Hr & _ & Hw & _ & _ & _ & _ & _ & _ & _ & _ & _ & Hcl).
  - lia.
  - apply demo_new.
  - apply demo_trace.
  - destruct (demo_lease 0 ltac:(lia)) as [_ Hi].
    assert (q = []) as -> by (eapply ring_rep_unique; [exact Hr|apply Hi]).
    split_and!; [exact (Hw 0 0 0)|exact (Hw 5 0 5)|exact Hcl].
Defined.

Lemma group_checkout_then_ack_witness :
  ∃ s1 s2, ConsumeGroup "g" "w" 0 0 0 5 (demo_queued 0) = Ret (Some 1%positive, true) s1 ∧
    Topic.Ack "g" "7-1-00ff" s1 = Ret true s2 ∧ Topic.Ack "g" "7-1-00ff" s2 = Ret false s2.
Proof.
  destruct (group_checkout_then_ack (demo_queued 0) 1 [] "g" "w" 0 0 0 5) as
    (s1 & s2 & m & cg & E1 & Hm & _ & _ & _ & E2 & _ & _ & E3); [by apply demo_publish|].
  assert (msg_ID m = "7-1-00ff") as Hid by (vm_compute in Hm; by injection Hm as <-).
  rewrite Hid in E2, E3. by exists s1, s2.
Defined.

(** The pending entry of the leased message. *)
Definition demo_group : ConsumerGroup :=
  mkGroup "g" "orders" {["7-1-00ff" := mkPending 1 "w" 5 30000000005]} {["w" := 5]} (30 * second).

Lemma nack_routes_witness :
  ∃ s', Topic.Nack "g" "7-1-00ff" "boom" 8 (demo_leased 2) = Ret true s' ∧
        dlq_order (t_dlq s'.2) = ["7-1-00ff"].
Proof.
  destruct (nack_routes (demo_leased 2) [] "g" demo_group "7-1-00ff" (mkPending 1 "w" 5 30000000005)
    "boom" 8) as (s' & m & E & _ & Hm & _ & _ & Hr).
  - by apply demo_lease.
  - by vm_compute.
  - by vm_compute.
  - exists s'. split; [done|]. vm_compute in Hm. injection Hm as <-. apply Hr.
Defined.

Lemma nack_redelivers_witness :
  ∃ s1 s2 q2, Topic.Nack "g" "7-1-00ff" "boom" 8 (demo_leased 0) = Ret true s1 ∧
    ticks 3 s1 = Ret tt s2 ∧ ring_rep (t_ring s2.2) q2 ∧ 1%positive ∈ q2.
Proof.
  destruct (nack_redelivers (demo_leased 0) [] "g" demo_group "7-1-00ff" (mkPending 1 "w" 5 30000000005)
    (set_Lease "w" 30000000005 (set_RetryCount 0 demo_msg)) "boom" 8) as (s1 & s2 & q2 & E1 & E2 & Hr & Hl & _).
  - by apply demo_lease.
  - by vm_compute.
  - by vm_compute.
  - by vm_compute.
  - by vm_compute.
  - exists s1, s2, q2. split_and!; [done| |done|done].
    rewrite -E2. f_equal.
Defined.

Lemma abandoned_redelivered_witness :
  ∃ count s1 s2 q2,
    SweepConsumerTimeouts [("g", ["7-1-00ff"])] (λ _, 30000000006) (λ _, 0) (demo_leased 0) = Ret count s1 ∧
    ticks 11 s1 = Ret tt s2 ∧ ring_rep (t_ring s2.2) q2 ∧ 1%positive ∈ q2.
Proof.
  destruct (abandoned_redelivered (demo_leased 0) [] "g" demo_group "7-1-00ff"
    (mkPending 1 "w" 5 30000000005) (set_Lease "w" 30000000005 (set_RetryCount 0 demo_msg))
    [("g", ["7-1-00ff"])] ["7-1-00ff"] (λ _, 30000000006) (λ _, 0)) as (count & s1 & s2 & q2 & E1 & E2 & Hr & Hl & _).
  - by apply demo_lease.
  - by vm_compute.
  - by vm_compute.
  - by vm_compute.
  - by vm_compute.
  - by vm_compute.
  - intros g Hg. apply list_elem_of_singleton in Hg as ->. eexists. by vm_compute.
  - apply NoDup_singleton.
  - by left.
  - apply NoDup_singleton.
  - by left.
  - exists count, s1, s2, q2. split_and!; [done| |done|done].
    rewrite -E2. f_equal.
Defined.

Lemma replay_restores_witness :
  ∃ l s', ReplayDeadLetter "7-1-00ff" 20 demo_dead = Ret (Some l, true) s' ∧
          ReplayDeadLetter "7-1-00ff" 30 s' = Ret (None, false) s'.
Proof.
  destruct (replay_restores demo_dead [] "7-1-00ff"
    (mkDLE 2 8 "boom" 3) 20 30) as (s' & m & E & _ & _ & _ & _ & _ & E2).
  - destruct (Nack_run 0 (demo_leased 2) [] "g" demo_group "7-1-00ff" (mkPending 1 "w" 5 30000000005) "boom" 8)
      as (s' & _ & _ & E & Hi & _); [by apply demo_lease|by vm_compute|by vm_compute|].
    unfold demo_dead, after. by rewrite E.
  - by vm_compute.
  - exists 2%positive, s'. split; [exact E|exact E2].
Defined.

Lemma closed_topic_drops_delayed_witness :
  ∃ s', Topic.Close (demo_start 0) = Ret tt s' ∧ Publish 1 s' = Ret false s'.
Proof.
  exists (after Topic.Close (demo_start 0)).
  assert (Topic.Close (demo_start 0) = Ret tt (after Topic.Close (demo_start 0))) as E by done.
  split; [done|].
  apply (closed_topic_drops_delayed (demo_start 0) (after Topic.Close (demo_start 0)) 1
    (set_RetryCount 0 demo_msg) 1 0 eq_refl E eq_refl). lia.
Defined.
