(* ===== verification/Broker.v ===== *)
(** * The broker

    Models [src/internal/queue/broker.go]: the map of topics, the persistence
    contract [BrokerWAL] (an interface of the source, a class here, implemented
    by the write-ahead log), and the ephemeral publish/subscribe channels.

    The state of an operation is the store of messages and the broker; the
    state of the log is a field of the broker and its type is a parameter. *)

From S2P Require Import Prelude GoText Message RingBuffer TimingWheel DeadLetter ConsumerGroup.
From S2P Require Import Topic Custody TopicSafety.

(** An error of the source, by its text; [None] is [nil]. *)
Abbreviation error := (option string).

(** The calls of a log return an error value, and may panic. *)
Class BrokerWAL (W : Type) : Type := {
  WritePublish : Message → prog W error;
  WriteAck : string → string → string → prog W error;
  wal_Close : prog W error
}.

(** [if b.wal != nil { err = b.wal.p() }] *)
Definition on_wal {W} (p : prog W error) : prog (option W) error := λ wal,
  match wal with
  | None => Ret None None
  | Some w =>
      match p w with
      | Ret err w' => Ret err (Some w')
      | Block w' => Block (Some w')
      | Panic => Panic
      end
  end.

(** A channel of byte slices with its buffer, as [make(chan []byte, 1024)]. *)
Record gochan : Type := mkChan {
  ch_buf : list bytes;
  ch_closed : bool
}.

Definition chan_cap : Z := 1024.

Abbreviation chan_id := positive.

Record Broker (W : Type) : Type := mkBroker {
  b_topics : gmap string Topic;
  b_channels : gmap string (gset chan_id);
  b_chans : gmap chan_id gochan;
  b_wal : option W;
  b_closed : bool;
  b_quitSweep : bool;
  b_totalPublished : Z;
  b_totalConsumed : Z;
  b_totalAcked : Z;
  b_totalNacked : Z
}.
Arguments mkBroker {W} _ _ _ _ _ _ _ _ _ _.
Arguments b_topics {W} _.
Arguments b_channels {W} _.
Arguments b_chans {W} _.
Arguments b_wal {W} _.
Arguments b_closed {W} _.
Arguments b_quitSweep {W} _.
Arguments b_totalPublished {W} _.
Arguments b_totalConsumed {W} _.
Arguments b_totalAcked {W} _.
Arguments b_totalNacked {W} _.

Record BrokerStats : Type := mkBrokerStats {
  bs_UptimeSeconds : Z;
  bs_TotalTopics : Z;
  bs_TotalPublished : Z;
  bs_TotalConsumed : Z;
  bs_TotalAcked : Z;
  bs_TotalNacked : Z;
  bs_TotalDLQ : Z;
  bs_Topics : list TopicStats;
  bs_AllocatedMemory : Z
}.

(** The view of a topic that does not exist; never used, since every access
    follows a check that the topic is in the map. *)
Definition no_topic : Topic :=
  mkTopic "" (mkRing (make_slice 0) 0 0 0 0 true) ∅ (NewDeadLetterQueue 0) (NewTimingWheel 0 0)
    true 0 0 0 0 0 0 0.

Definition rejected : string := "topic queue rejected message (closed)".

Section broker.
Context {W : Type} `{BrokerWAL W}.

Abbreviation BS := (Store * Broker W)%type.

Definition set_topics (ts : gmap string Topic) (b : Broker W) : Broker W :=
  mkBroker ts (b_channels b) (b_chans b) (b_wal b) (b_closed b) (b_quitSweep b)
    (b_totalPublished b) (b_totalConsumed b) (b_totalAcked b) (b_totalNacked b).

Definition with_wal (wal : option W) (b : Broker W) : Broker W :=
  mkBroker (b_topics b) (b_channels b) (b_chans b) wal (b_closed b) (b_quitSweep b)
    (b_totalPublished b) (b_totalConsumed b) (b_totalAcked b) (b_totalNacked b).

Definition lens_wal : Lens BS (option W) := mkLens (λ s, b_wal s.2) (λ wal s, (s.1, with_wal wal s.2)).

Definition set_chans (subs : gmap string (gset chan_id)) (cs : gmap chan_id gochan) (b : Broker W)
  : Broker W :=
  mkBroker (b_topics b) subs cs (b_wal b) (b_closed b) (b_quitSweep b)
    (b_totalPublished b) (b_totalConsumed b) (b_totalAcked b) (b_totalNacked b).

Definition set_stopped (b : Broker W) : Broker W :=
  mkBroker (b_topics b) (b_channels b) (b_chans b) (b_wal b) true true
    (b_totalPublished b) (b_totalConsumed b) (b_totalAcked b) (b_totalNacked b).

(** The atomic counters: published, consumed, acked, nacked. *)
Definition count (p c a n : Z) (b : Broker W) : Broker W :=
  mkBroker (b_topics b) (b_channels b) (b_chans b) (b_wal b) (b_closed b) (b_quitSweep b)
    (u64 (b_totalPublished b + p)) (u64 (b_totalConsumed b + c)) (u64 (b_totalAcked b + a))
    (u64 (b_totalNacked b + n)).

Definition lens_topic (name : string) : Lens BS TS :=
  mkLens (λ s, (s.1, default no_topic (b_topics s.2 !! name)))
         (λ t s, (t.1, set_topics (<[name := t.2]> (b_topics s.2)) s.2)).

Definition NewBroker (wal : option W) : Broker W :=
  mkBroker ∅ ∅ ∅ wal false false 0 0 0 0.

(** [sweepAllTimeouts]: the topics in the order the map gives, each with the
    order of its groups and of their entries; [now] and [failedAt] are the readings
    of the clock for a group of a topic and for a message that is dead-lettered. *)
Fixpoint sweepAllTimeouts (order : list (string * list (string * list string)))
  (now : string → string → Z) (failedAt : loc → Z)
  : prog BS unit :=
  match order with
  | [] => mret tt
  | (name, groups) :: order' =>
      zoom (lens_topic name) (SweepConsumerTimeouts groups (now name) failedAt);;
      sweepAllTimeouts order' now failedAt
  end.

(** The goroutine of the sweeper, for the events it selects: a tick comes with the
    order of the maps and the clock readings of its sweep. *)
Definition runSweepLoop
  (events : list (option (list (string * list (string * list string)) * (string → string → Z) * (loc → Z))))
  : prog BS bool :=
  ticker_loop (λ e, sweepAllTimeouts e.1.1 e.1.2 e.2) events.

(** [GetOrCreateTopic]; parks for ever if the creation does not return. *)
Definition GetOrCreateTopic (name : string) : prog BS unit :=
  b ← gets lens_snd id;
  match b_topics b !! name with
  | Some _ => mret tt
  | None =>
      match NewTopic name 131072 with
      | Some t => modify lens_snd (set_topics (<[name := t]> (b_topics b)))
      | None => park
      end
  end.

Definition GetTopic (name : string) : prog BS bool :=
  gets lens_snd (λ b, bool_decide (is_Some (b_topics b !! name))).

(** [if b.wal != nil { err = b.wal.WritePublish(msg) }] *)
Definition log_publish (msg : loc) : prog BS error :=
  b ← gets lens_snd id;
  match b_wal b with
  | None => mret None
  | Some _ => m ← zoom lens_fst (load msg); zoom lens_wal (on_wal (WritePublish m))
  end.

(** A publication; [now] and [rnd] are the clock and random bytes of
    [NewMessage].  The result is the error or the message. *)
Definition Publish (topicName : string) (payload : byte_slice) (now : Z) (rnd : bytes)
  : prog BS (string + loc) :=
  GetOrCreateTopic topicName;;
  msg ← zoom lens_fst (NewMessage topicName payload now rnd);
  err ← log_publish msg;
  match err with
  | Some e => mret (inl e)
  | None =>
      ok ← zoom (lens_topic topicName) (Topic.Publish msg);
      if negb ok then mret (inl rejected) else
      modify lens_snd (count 1 0 0 0);; mret (inr msg)
  end.

Definition PublishFront (topicName : string) (payload : byte_slice) (now : Z) (rnd : bytes)
  : prog BS (string + loc) :=
  GetOrCreateTopic topicName;;
  msg ← zoom lens_fst (NewMessage topicName payload now rnd);
  err ← log_publish msg;
  match err with
  | Some e => mret (inl e)
  | None =>
      ok ← zoom (lens_topic topicName) (Topic.PublishFront msg);
      if negb ok then mret (inl rejected) else
      modify lens_snd (count 1 0 0 0);; mret (inr msg)
  end.

(** [later] is the clock reading of the topic's [PublishDelayed]. *)
Definition PublishDelayed (topicName : string) (payload : byte_slice) (delay now later : Z)
  (rnd : bytes) : prog BS (string + loc) :=
  GetOrCreateTopic topicName;;
  msg ← zoom lens_fst (NewMessage topicName payload now rnd);
  err ← log_publish msg;
  match err with
  | Some e => mret (inl e)
  | None =>
      zoom (lens_topic topicName) (Topic.PublishDelayed msg delay later);;
      modify lens_snd (count 1 0 0 0);; mret (inr msg)
  end.

(** The loop of [PublishBatch]: each payload with the clock and random bytes of
    its message.  The error of the log is discarded. *)
Fixpoint publish_batch (topicName : string) (payloads : list (byte_slice * Z * bytes)) (n : Z)
  : prog BS Z :=
  match payloads with
  | [] => mret n
  | (payload, now, rnd) :: payloads' =>
      msg ← zoom lens_fst (NewMessage topicName payload now rnd);
      log_publish msg;;
      ok ← zoom (lens_topic topicName) (Topic.Publish msg);
      publish_batch topicName payloads' (if (ok : bool) then i64 (n + 1) else n)
  end.

Definition PublishBatch (topicName : string) (payloads : list (byte_slice * Z * bytes))
  : prog BS Z :=
  if Z.of_nat (length payloads) =? 0 then mret 0 else
  GetOrCreateTopic topicName;;
  n ← publish_batch topicName payloads 0;
  modify lens_snd (count (u64 n) 0 0 0);;
  mret n.

(** ** Channels *)

(** The loop of [Broadcast] over the subscribers in map order: a send that
    would block is dropped, a send on a closed channel panics. *)
Fixpoint broadcast_loop (order : list chan_id) (payload : bytes) (cs : gmap chan_id gochan) (n : Z)
  : option (Z * gmap chan_id gochan) :=
  match order with
  | [] => Some (n, cs)
  | ch :: order' =>
      c ← cs !! ch;
      if ch_closed c then None else
      if Z.of_nat (length (ch_buf c)) <? chan_cap then
        broadcast_loop order' payload (<[ch := mkChan (ch_buf c ++ [payload]) false]> cs) (n + 1)
      else broadcast_loop order' payload cs n
  end.

Definition Broadcast (channel : string) (payload : bytes) (order : list chan_id) : prog BS Z :=
  b ← gets lens_snd id;
  match b_channels b !! channel with
  | None => mret 0
  | Some subs =>
      if bool_decide (subs = ∅) then mret 0 else
      r ← must (broadcast_loop order payload (b_chans b) 0);
      modify lens_snd (set_chans (b_channels b) r.2);;
      mret r.1
  end.

Definition SubscribeChannel (channel : string) : prog BS chan_id :=
  b ← gets lens_snd id;
  let ch := fresh (dom (b_chans b)) in
  modify lens_snd (set_chans
    (<[channel := {[ch]} ∪ default ∅ (b_channels b !! channel)]> (b_channels b))
    (<[ch := mkChan [] false]> (b_chans b)));;
  mret ch.

(** [close(ch)] of a closed channel panics. *)
Definition UnsubscribeChannel (channel : string) (ch : chan_id) : prog BS unit :=
  b ← gets lens_snd id;
  match b_channels b !! channel with
  | None => mret tt
  | Some subs =>
      let subs' := subs ∖ {[ch]} in
      c ← must (b_chans b !! ch);
      if ch_closed c then panic else
      modify lens_snd (set_chans
        (if bool_decide (subs' = ∅) then delete channel (b_channels b)
         else <[channel := subs']> (b_channels b))
        (<[ch := mkChan (ch_buf c) true]> (b_chans b)))
  end.

(** A subscriber's receive from its channel. *)
Definition Receive (ch : chan_id) : prog BS (option bytes) :=
  b ← gets lens_snd id;
  c ← must (b_chans b !! ch);
  match ch_buf c with
  | x :: buf =>
      modify lens_snd (set_chans (b_channels b) (<[ch := mkChan buf (ch_closed c)]> (b_chans b)));;
      mret (Some x)
  | [] => if ch_closed c then mret None else park
  end.

(** ** Consuming *)

Definition Consume (topicName : string) (timeout t0 t1 : Z) : prog BS (option loc * bool) :=
  found ← GetTopic topicName;
  if negb found then mret (None, false) else
  r ← zoom (lens_topic topicName) (ConsumeWait timeout t0 t1);
  (if (r.2 : bool) then modify lens_snd (count 0 1 0 0) else mret tt);;
  mret r.

Definition ConsumeGroup (topicName groupName consumerID : string) (timeout t0 t1 now : Z)
  : prog BS (option loc * bool) :=
  GetOrCreateTopic topicName;;
  r ← zoom (lens_topic topicName) (Topic.ConsumeGroup groupName consumerID timeout t0 t1 now);
  (if (r.2 : bool) then modify lens_snd (count 0 1 0 0) else mret tt);;
  mret r.

Definition Ack (topicName groupName msgID : string) : prog BS bool :=
  found ← GetTopic topicName;
  if negb found then mret false else
  acked ← zoom (lens_topic topicName) (Topic.Ack groupName msgID);
  if (acked : bool) then
    modify lens_snd (count 0 0 1 0);;
    zoom lens_wal (on_wal (WriteAck topicName groupName msgID));;
    mret true
  else mret false.

Definition Nack (topicName groupName msgID reason : string) (failedAt : Z) : prog BS bool :=
  found ← GetTopic topicName;
  if negb found then mret false else
  nacked ← zoom (lens_topic topicName) (Topic.Nack groupName msgID reason failedAt);
  (if (nacked : bool) then modify lens_snd (count 0 0 0 1) else mret tt);;
  mret nacked.

Definition ReplayDLQ (topicName msgID : string) (now : Z) : prog BS (option loc * bool) :=
  found ← GetTopic topicName;
  if negb found then mret (None, false) else
  zoom (lens_topic topicName) (ReplayDeadLetter msgID now).

(** [TopicsList], in the order the map gives. *)
Definition TopicsList (order : list string) : prog BS (list string) :=
  gets lens_snd (λ b, filter (λ name, is_Some (b_topics b !! name)) order).

(** The loop of [Stats] over the topics. *)
Fixpoint stats_loop (order : list string) (acc : list TopicStats) (dlqTotal : Z)
  : prog BS (list TopicStats * Z) :=
  match order with
  | [] => mret (acc, dlqTotal)
  | name :: order' =>
      st ← zoom (lens_topic name) Topic.Stats;
      stats_loop order' (acc ++ [st]) (u64 (dlqTotal + ts_DeadLettered st))
  end.

Definition Stats (order : list string) (uptime : Z) : prog BS BrokerStats :=
  r ← stats_loop order [] 0;
  b ← gets lens_snd id;
  mret (mkBrokerStats uptime (Z.of_nat (size (b_topics b))) (b_totalPublished b)
          (b_totalConsumed b) (b_totalAcked b) (b_totalNacked b) r.2 r.1 0).

(** [Close], over the topics in the order the map gives. *)
Definition Close (order : list string) : prog BS error :=
  closed ← gets lens_snd b_closed;
  if (closed : bool) then mret None else
  modify lens_snd set_stopped;;
  forM order (λ name, zoom (lens_topic name) Topic.Close);;
  zoom lens_wal (on_wal wal_Close).
End broker.
