(* ===== verification/BrokerSafety.v ===== *)
(** * What the broker promises

    Topics share one store of messages.  The invariant [broker_inv] says that
    every topic satisfies its own invariant and that no ID is held by two
    topics; [replace_topic] lifts an operation of one topic to the broker, the
    other topics being untouched.  The theorems: per-topic conservation over
    any sequence of calls, write-ahead ordering, isolation, delivery to the
    subscribers of a channel. *)

From S2P Require Import Prelude GoText Message RingBuffer TimingWheel DeadLetter ConsumerGroup.
From S2P Require Import Topic Custody TopicSafety Broker.

Section broker.
Context {W : Type} `{BrokerWAL W}.

Abbreviation BS := (Store * Broker W)%type.

(** The IDs held under a topic name. *)
Definition owned (s : BS) (name : string) : list string :=
  match b_topics s.2 !! name with Some t => holds (s.1, t) | None => [] end.

Record broker_inv (s : BS) : Prop := mkBrokerInv {
  bi_topics : ∀ n t, b_topics s.2 !! n = Some t →
    topic_inv 0 (s.1, t) (ring_contents (t_ring t));
  bi_disjoint : ∀ n1 n2 x, n1 ≠ n2 → x ∈ owned s n1 → x ∉ owned s n2
}.

Lemma owned_some s n t : b_topics s.2 !! n = Some t → owned s n = holds (s.1, t).
Proof. unfold owned. by intros ->. Qed.

(** Fields of the broker other than its topics do not matter. *)
Lemma broker_inv_same σ (b b' : Broker W) :
  b_topics b' = b_topics b → broker_inv (σ, b) → broker_inv (σ, b').
Proof.
  intros E [Ht Hd]. split; simpl in *; [by rewrite E|]. unfold owned in *. simpl in *. by rewrite E.
Qed.

(** The result of running an operation on topic [n]: the state, with the topic
    and the store replaced. *)
Definition replaced (s : BS) (n : string) (s' : TS) : BS := over (lens_topic n) s' s.

Lemma replaced_other s n s' n' :
  n' ≠ n → b_topics (replaced s n s').2 !! n' = b_topics s.2 !! n'.
Proof. intros Hne. unfold replaced. simpl. by rewrite lookup_insert_ne. Qed.

(** An operation of topic [n] that wrote only messages it held or that are new
    ([news]), and holds nothing else afterwards. *)
Lemma replace_topic s n t s' q' news :
  broker_inv s → b_topics s.2 !! n = Some t → topic_inv 0 s' q' →
  keeps (holds (s.1, t) ++ news) s.1 s'.1 →
  (∀ x, x ∈ held s' q' → x ∈ holds (s.1, t) ∨ x ∈ news) →
  (∀ n' x, x ∈ news → x ∉ owned s n') →
  broker_inv (replaced s n s') ∧ owned (replaced s n s') n = held s' q' ∧
  ∀ n', n' ≠ n → owned (replaced s n s') n' = owned s n'.
Proof.
  intros Hb Ht Hi Hk Hsub Hnew.
  assert (∀ n' t', n' ≠ n → b_topics s.2 !! n' = Some t' →
    topic_inv 0 (s'.1, t') (ring_contents (t_ring t')) ∧ holds (s'.1, t') = holds (s.1, t')) as Hfr.
  { intros n' t' Hne Ht'. pose proof (bi_topics _ Hb n' t' Ht') as Hi'.
    apply (inv_keeps 0 s.1 s'.1 t' _ _ Hi' Hk). intros x Hx. change (x ∉ holds (s.1, t')).
    rewrite -(owned_some s n' t' Ht'). apply elem_of_app in Hx as [Hx|Hx]; [|by apply Hnew].
    rewrite -(owned_some s n t Ht) in Hx. by apply (bi_disjoint _ Hb n n'). }
  assert (owned (replaced s n s') n = held s' q') as Hown.
  { unfold owned, replaced. simpl. rewrite lookup_insert_eq. destruct s'. by apply (holds_inv 0). }
  assert (∀ n', n' ≠ n → owned (replaced s n s') n' = owned s n') as Hoth.
  { intros n' Hne. unfold owned at 1. rewrite replaced_other // /owned.
    destruct (b_topics s.2 !! n') as [t'|] eqn:Ht'; [|done]. by apply (Hfr n'). }
  assert (∀ n' x, n' ≠ n → x ∈ held s' q' → x ∉ owned s n') as Hdis.
  { intros n' x Hne Hx. destruct (Hsub x Hx) as [Hx'|Hx']; [|by apply Hnew].
    rewrite -(owned_some s n t Ht) in Hx'. by apply (bi_disjoint _ Hb n n'). }
  split_and!; [|done|done]. split.
  - intros n' t'. unfold replaced. simpl. rewrite lookup_insert. case_decide as E.
    + intros [= <-]. destruct s' as [σ' t']. simpl.
      by rewrite (ring_contents_rep _ q'); [apply Hi|].
    + intros Ht'. by apply (Hfr n').
  - intros n1 n2 x Hne. destruct (decide (n1 = n)) as [->|H1], (decide (n2 = n)) as [->|H2].
    + done.
    + rewrite Hown (Hoth n2 H2). by apply Hdis.
    + rewrite Hown (Hoth n1 H1). intros Hx Hx'. by apply (Hdis n1 x H1 Hx').
    + rewrite (Hoth n1 H1) (Hoth n2 H2). by apply (bi_disjoint _ Hb).
Qed.

(** The store grew by a message of no topic. *)
Lemma broker_alloc s m n :
  broker_inv s →
  let σ' := mkStore (<[fresh (dom (heap s.1)) := m]> (heap s.1)) n in
  broker_inv (σ', s.2) ∧ ∀ n', owned (σ', s.2) n' = owned s n'.
Proof.
  intros Hb σ'.
  assert (keeps [] s.1 σ') as Hk.
  { intros l m' Hl _. simpl. rewrite lookup_insert_ne //. intros E.
    pose proof (alloc_fresh s.1) as Hf. by rewrite E Hl in Hf. }
  assert (∀ n' t', b_topics s.2 !! n' = Some t' →
    topic_inv 0 (σ', t') (ring_contents (t_ring t')) ∧ holds (σ', t') = holds (s.1, t')) as Hfr.
  { intros n' t' Ht'. apply (inv_keeps 0 s.1 σ' t' _ [] (bi_topics _ Hb n' t' Ht') Hk).
    by intros x ?%elem_of_nil. }
  assert (∀ n', owned (σ', s.2) n' = owned s n') as Hown.
  { intros n'. unfold owned. simpl. destruct (b_topics s.2 !! n') as [t'|] eqn:Ht'; [|done].
    by apply (Hfr n'). }
  split; [|done]. split.
  - intros n' t' Ht'. by apply (Hfr n').
  - intros n1 n2 x. rewrite !Hown. apply (bi_disjoint _ Hb).
Qed.

Lemma NewBroker_inv σ wal : broker_inv (σ, NewBroker wal).
Proof.
  split; simpl; [done|]. intros n1 n2 x _. unfold owned. simpl. by intros ?%elem_of_nil.
Qed.

(** ** Parts of the operations *)

Lemma GetOrCreateTopic_run s n :
  broker_inv s →
  ∃ ts t, GetOrCreateTopic n s = Ret tt (s.1, set_topics ts s.2) ∧ ts !! n = Some t ∧
    broker_inv (s.1, set_topics ts s.2) ∧
    (b_topics s.2 !! n = Some t ∨ b_topics s.2 !! n = None ∧ NewTopic n 131072 = Some t) ∧
    (∀ n', n' ≠ n → ts !! n' = b_topics s.2 !! n') ∧
    ∀ n', owned (s.1, set_topics ts s.2) n' = owned s n'.
Proof.
  intros Hb. unfold GetOrCreateTopic. glue. unfold id.
  destruct (b_topics s.2 !! n) as [t|] eqn:Ht.
  { exists (b_topics s.2), t. assert (s = (s.1, set_topics (b_topics s.2) s.2)) as <- by by destruct s as [? []].
    split_and!; try done. by left. }
  destruct (NewTopic_inv n 131072 s.1) as (t & E & Hi & Hh & _); [lia|]. rewrite E.
  assert (holds (s.1, t) = []) as Hn by by rewrite (holds_inv _ _ _ Hi).
  exists (<[n := t]> (b_topics s.2)), t.
  assert (∀ n', owned (s.1, set_topics (<[n := t]> (b_topics s.2)) s.2) n' = owned s n') as Hown.
  { intros n'. unfold owned. simpl. rewrite lookup_insert. case_decide as En; [|done].
    by rewrite -En Ht. }
  split_and!; [done|apply lookup_insert_eq| |by right|by intros; apply lookup_insert_ne|done].
  split.
  - intros n' t'. simpl. rewrite lookup_insert. case_decide; [|apply (bi_topics _ Hb)].
    intros [= <-]. by rewrite (ring_contents_rep _ [] (core_ring _ _ _ _ _ _ (ti_core _ _ _ Hi))).
  - intros n1 n2 x. rewrite !Hown. apply (bi_disjoint _ Hb).
Qed.

(** The message a publication creates. *)
Definition created (n : string) (payload : byte_slice) (now : Z) (rnd : bytes) (σ : Store) : Message :=
  mkMessage (message_id now (u64 (globalSeq σ + 1)) rnd) n payload ∅ 0 now now 0 3 "" 0 "".

(** A call on the log. *)
Inductive log_call : Type :=
| LogPublish (m : Message)
| LogAck (topic group msgID : string).

(** What the log answers to a call, and its state afterwards. *)
Definition run_call (c : log_call) : prog (option W) error :=
  on_wal (match c with LogPublish m => WritePublish m | LogAck t g mid => WriteAck t g mid end).

Abbreviation logged m := (run_call (LogPublish m)).

(** The calls in order, with the error of each. *)
Fixpoint run_log (calls : list log_call) : prog (option W) (list error) :=
  match calls with
  | [] => mret []
  | c :: calls' => err ← run_call c; errs ← run_log calls'; mret (err :: errs)
  end.

(** A call that the log answers, with an error or not, whatever its state. *)
Definition answered (c : log_call) : Prop := ∀ wal, ∃ err wal', run_call c wal = Ret err wal'.

Lemma run_log_answered calls : Forall answered calls → ∀ wal, ∃ errs wal', run_log calls wal = Ret errs wal'.
Proof.
  induction 1 as [|c calls Hc _ IH]; intros wal; [by eexists _, _|].
  destruct (Hc wal) as (err & wal1 & E). destruct (IH wal1) as (errs & wal2 & E2).
  exists (err :: errs), wal2. cbn [run_log]. by rewrite (bind_ret _ _ _ _ _ E) (bind_ret _ _ _ _ _ E2).
Qed.

Lemma log_publish_run (s : BS) l m :
  heap s.1 !! l = Some m →
  log_publish l s = match logged m (b_wal s.2) with
                    | Ret err wal => Ret err (s.1, with_wal wal s.2)
                    | Block wal => Block (s.1, with_wal wal s.2)
                    | Panic => Panic
                    end.
Proof.
  intros Hl. destruct s as [σ b]. simpl in *. unfold log_publish, zoom, load, mbind, prog_bind, gets. cbn. unfold id.
  destruct (b_wal b) as [w|] eqn:Hw; cbn.
  - rewrite Hl. cbn. rewrite Hw. cbn. by destruct (WritePublish m w).
  - destruct b. simpl in *. by subst.
Qed.

(** A publication up to the call of the topic: the topic exists, the message is
    allocated, the log has answered. *)
Lemma prepare_eq s n payload now rnd :
  broker_inv s →
  let m := created n payload now rnd s.1 in
  let l := fresh (dom (heap s.1)) in
  let σ' := mkStore (<[l := m]> (heap s.1)) (u64 (globalSeq s.1 + 1)) in
  ∃ ts t, let prepared wal := (σ', with_wal wal (set_topics ts s.2)) in
    (∀ A (k : loc → error → prog BS A),
       (GetOrCreateTopic n;; msg ← zoom lens_fst (NewMessage n payload now rnd);
        err ← log_publish msg; k msg err) s =
       match logged m (b_wal s.2) with
       | Ret err wal => k l err (prepared wal)
       | Block wal => Block (prepared wal)
       | Panic => Panic
       end) ∧
    ∀ wal, let s' := prepared wal in
    b_topics s'.2 !! n = Some t ∧ heap s'.1 !! l = Some m ∧ broker_inv s' ∧
    (b_topics s.2 !! n = Some t ∨ b_topics s.2 !! n = None ∧ NewTopic n 131072 = Some t) ∧
    (∀ n', n' ≠ n → b_topics s'.2 !! n' = b_topics s.2 !! n') ∧
    ∀ n', owned s' n' = owned s n'.
Proof.
  intros Hb m l σ'. destruct (GetOrCreateTopic_run s n Hb) as (ts & t & E & Ht & Hb1 & Hor & Hoth & Hown).
  destruct (broker_alloc (s.1, set_topics ts s.2) m (u64 (globalSeq s.1 + 1)) Hb1) as [Hb2 Hown2].
  exists ts, t. split.
  { intros A k. rewrite (bind_ret _ _ _ _ _ E).
    rewrite (bind_ret _ _ _ _ _ (zoom_ret lens_fst _ _ _ _ (NewMessage_run n payload now rnd _))).
    pose proof (log_publish_run (σ', set_topics ts s.2) l m (lookup_insert_eq _ _ _)) as El.
    unfold mbind, prog_bind. etrans; [by rewrite El|]. cbn [snd b_wal set_topics].
    by destruct (logged m (b_wal s.2)). }
  intros wal. split_and!; [done|apply lookup_insert_eq| |done|done|].
  - apply (broker_inv_same σ' (set_topics ts s.2)); [done|exact Hb2].
  - intros n'. rewrite -Hown -Hown2. done.
Qed.

Lemma prepare_run s n payload now rnd err wal :
  broker_inv s →
  let m := created n payload now rnd s.1 in
  logged m (b_wal s.2) = Ret err wal →
  let l := fresh (dom (heap s.1)) in
  let σ' := mkStore (<[l := m]> (heap s.1)) (u64 (globalSeq s.1 + 1)) in
  ∃ ts t, let s' := (σ', with_wal wal (set_topics ts s.2)) in
    (∀ A (k : loc → error → prog BS A),
       (GetOrCreateTopic n;; msg ← zoom lens_fst (NewMessage n payload now rnd);
        err ← log_publish msg; k msg err) s = k l err s') ∧
    b_topics s'.2 !! n = Some t ∧ heap s'.1 !! l = Some m ∧ broker_inv s' ∧
    (b_topics s.2 !! n = Some t ∨ b_topics s.2 !! n = None ∧ NewTopic n 131072 = Some t) ∧
    (∀ n', n' ≠ n → b_topics s'.2 !! n' = b_topics s.2 !! n') ∧
    ∀ n', owned s' n' = owned s n'.
Proof.
  intros Hb m E l σ'. destruct (prepare_eq s n payload now rnd Hb) as (ts & t & Hk & Hf). exists ts, t.
  split; [|apply Hf]. intros A k. rewrite Hk. fold m. by rewrite E.
Qed.

(** ** Publishing *)

(** IDs that a publication to topic [n] may introduce. *)
Definition fresh_for (s : BS) (n : string) (ids : list string) : Prop :=
  NoDup ids ∧ (∀ n' x, x ∈ ids → x ∉ owned s n') ∧
  Z.of_nat (length ids + length (owned s n)) ≤
    match b_topics s.2 !! n with Some t => topic_room t | None => 50000 end.

Lemma fresh_for_room s n ids s' t :
  fresh_for s n ids → owned s' n = owned s n →
  (b_topics s.2 !! n = Some t ∨ b_topics s.2 !! n = None ∧ NewTopic n 131072 = Some t) →
  Z.of_nat (length ids + length (owned s' n)) ≤ topic_room t.
Proof.
  intros (_ & _ & Hr) -> [Ht|[Ht E]]; rewrite Ht in Hr; [done|].
  destruct (NewTopic_inv n 131072 s.1) as (t' & E' & _ & _ & _ & _ & Hr'); [lia|].
  rewrite E in E'. injection E' as <-. by rewrite Hr'.
Qed.

(** A fresh message may enter the topic it was prepared for. *)
Lemma fresh_publishable s s0 n t l m :
  broker_inv s0 → b_topics s0.2 !! n = Some t → heap s0.1 !! l = Some m → retryable m →
  fresh_for s n [msg_ID m] → (∀ n', owned s0 n' = owned s n') →
  (b_topics s.2 !! n = Some t ∨ b_topics s.2 !! n = None ∧ NewTopic n 131072 = Some t) →
  (∀ n', msg_ID m ∉ owned s0 n') ∧ Z.of_nat (length (owned s0 n)) < topic_room t ∧
  topic_inv 1 (s0.1, t) (ring_contents (t_ring t)) ∧ msg_ID m ∉ held (s0.1, t) (ring_contents (t_ring t)).
Proof.
  intros Hb Ht Hl Hret Hf Hown Hor.
  assert (∀ n', msg_ID m ∉ owned s0 n') as Hno.
  { intros n'. rewrite Hown. destruct Hf as (_ & Hno & _). apply Hno. by left. }
  assert (Z.of_nat (length (owned s0 n)) < topic_room t) as Hlt.
  { pose proof (fresh_for_room s n _ s0 t Hf (Hown n) Hor). simpl in *. lia. }
  pose proof (owned_some s0 n t Ht) as Ho.
  destruct (publishable_inv (s0.1, t) _ l m (bi_topics _ Hb n t Ht)) as (Hi1 & _ & _ & Hno1).
  { split_and!; [done|done|rewrite -Ho; apply Hno|by rewrite -Ho]. }
  done.
Qed.

Lemma accept_topic s n t l m s1 delay now :
  broker_inv s → b_topics s.2 !! n = Some t → heap s.1 !! l = Some m → retryable m →
  (∀ n', msg_ID m ∉ owned s n') → Z.of_nat (length (owned s n)) < topic_room t →
  accepted l (s.1, t) s1 delay now →
  broker_inv (replaced s n s1) ∧ owned (replaced s n s1) n ≡ₚ msg_ID m :: owned s n ∧
  ∀ n', n' ≠ n → owned (replaced s n s1) n' = owned s n'.
Proof.
  intros Hb Ht Hm Hret Hno Hroom Hacc. pose proof (bi_topics _ Hb n t Ht) as Hi.
  pose proof (owned_some s n t Ht) as Ho.
  destruct (publish_step (s.1, t) _ l m s1 delay now Hi) as (q' & Hi' & Hp & Hk); [|done|].
  { split_and!; [done|done|rewrite -Ho; apply Hno|by rewrite -Ho]. }
  change (held (s.1, t) (ring_contents (t_ring t))) with (holds (s.1, t)) in Hp.
  destruct (replace_topic s n t s1 q' [msg_ID m] Hb Ht Hi') as (Hb' & Hown & Hoth).
  - eapply keeps_mono; [exact Hk|]. intros x ?. apply elem_of_app. by right.
  - intros x. rewrite Hp elem_of_cons list_elem_of_singleton. tauto.
  - intros n' x ->%list_elem_of_singleton. apply Hno.
  - split_and!; [done|by rewrite Hown Hp Ho|done].
Qed.

(** A call that publishes one message: the three of the broker. *)
Definition publishes (n : string) (payload : byte_slice) (now : Z) (rnd : bytes) (delay later : Z)
  (s : BS) (r : string + loc) (s' : BS) : Prop :=
  Broker.Publish n payload now rnd s = Ret r s' ∨
  Broker.PublishFront n payload now rnd s = Ret r s' ∨
  Broker.PublishDelayed n payload delay now later rnd s = Ret r s'.

(** The topic's part of a publication, when it succeeds. *)
Lemma enqueue_run s n t l m delay later :
  broker_inv s → b_topics s.2 !! n = Some t → heap s.1 !! l = Some m → retryable m →
  (∀ n', msg_ID m ∉ owned s n') → Z.of_nat (length (owned s n)) < topic_room t →
  (∃ s1, zoom (lens_topic n) (Topic.Publish l) s = Ret true (replaced s n s1) ∧
         accepted l (s.1, t) s1 delay later) ∧
  (∃ s1, zoom (lens_topic n) (Topic.PublishFront l) s = Ret true (replaced s n s1) ∧
         accepted l (s.1, t) s1 delay later) ∧
  (∃ s1, zoom (lens_topic n) (Topic.PublishDelayed l delay later) s = Ret tt (replaced s n s1) ∧
         accepted l (s.1, t) s1 delay later).
Proof.
  intros Hb Ht Hm Hret Hno Hroom. pose proof (bi_topics _ Hb n t Ht) as Hi.
  pose proof (owned_some s n t Ht) as Ho.
  assert (view (lens_topic n) s = (s.1, t)) as Hv by (simpl; by rewrite Ht).
  destruct (publishable_inv (s.1, t) _ l m Hi) as (Hi1 & _ & _ & Hno1).
  { split_and!; [done|done|rewrite -Ho; apply Hno|by rewrite -Ho]. }
  destruct (publish_accepts 0 (s.1, t) _ l m Hi Hm) as [[s1 E1] [s2 E2]].
  destruct (PublishDelayed_run 0 (s.1, t) _ l m delay later Hi1 Hm Hret Hno1) as (s3 & E3 & _).
  split_and!; [exists s1|exists s2|exists s3]; (split; [apply (zoom_ret (lens_topic n)); by rewrite Hv|]);
    unfold accepted; auto.
Qed.

Lemma counted s' c1 c2 c3 c4 :
  broker_inv s' → broker_inv (s'.1, count c1 c2 c3 c4 s'.2) ∧
  ∀ n, owned (s'.1, count c1 c2 c3 c4 s'.2) n = owned s' n.
Proof. intros Hb. split; [|done]. destruct s' as [σ b]. by apply (broker_inv_same σ b). Qed.

(** The effect of a successful publication of message [m] to topic [n]. *)
Definition published (s s' : BS) (n : string) (m : Message) : Prop :=
  broker_inv s' ∧ owned s' n ≡ₚ msg_ID m :: owned s n ∧
  (∀ n', n' ≠ n → owned s' n' = owned s n') ∧
  (∀ n', n' ≠ n → b_topics s'.2 !! n' = b_topics s.2 !! n') ∧
  logged m (b_wal s.2) = Ret None (b_wal s'.2) ∧
  b_totalPublished s'.2 = u64 (b_totalPublished s.2 + 1).

(** The effect of one the log refused with error [e]. *)
Definition refused (s s' : BS) (n : string) (m : Message) (e : string) : Prop :=
  broker_inv s' ∧ (∀ n', owned s' n' = owned s n') ∧
  (∀ n', n' ≠ n → b_topics s'.2 !! n' = b_topics s.2 !! n') ∧
  logged m (b_wal s.2) = Ret (Some e) (b_wal s'.2) ∧ b_totalPublished s'.2 = b_totalPublished s.2.

Lemma publish_refused s n payload now rnd delay later e wal :
  broker_inv s →
  let m := created n payload now rnd s.1 in
  logged m (b_wal s.2) = Ret (Some e) wal →
  ∃ s', Broker.Publish n payload now rnd s = Ret (inl e) s' ∧
    Broker.PublishFront n payload now rnd s = Ret (inl e) s' ∧
    Broker.PublishDelayed n payload delay now later rnd s = Ret (inl e) s' ∧ refused s s' n m e.
Proof.
  intros Hb m He. destruct (prepare_run s n payload now rnd _ _ Hb He) as (ts & t & Hk & Ht & Hl & Hb' & _ & Hot & Hown).
  fold m in Hk, Hl, Hb', Hot, Hown. eexists.
  split_and!; [..|split_and!; [exact Hb'|exact Hown|exact Hot|exact He|done]]; (etrans; [apply Hk|done]).
Qed.

(** A log that panics takes the process with it; one that parks keeps the call. *)
Lemma publish_fails s n payload now rnd delay later :
  broker_inv s →
  let m := created n payload now rnd s.1 in
  (∀ err wal, logged m (b_wal s.2) ≠ Ret err wal) →
  ∀ r s', Broker.Publish n payload now rnd s ≠ Ret r s' ∧ Broker.PublishFront n payload now rnd s ≠ Ret r s' ∧
    Broker.PublishDelayed n payload delay now later rnd s ≠ Ret r s'.
Proof.
  intros Hb m He r s'. destruct (prepare_eq s n payload now rnd Hb) as (ts & t & Hk & _). fold m in Hk.
  assert (∀ A (k : loc → error → prog BS A) a s1,
    (GetOrCreateTopic n;; msg ← zoom lens_fst (NewMessage n payload now rnd);
     err ← log_publish msg; k msg err) s ≠ Ret a s1) as Hno.
  { intros A k a s1. rewrite Hk. destruct (logged m (b_wal s.2)) as [err wal|wal|] eqn:E; [by destruct (He err wal)|done|done]. }
  split_and!; apply Hno.
Qed.

Lemma publish_done s n payload now rnd delay later :
  broker_inv s →
  let m := created n payload now rnd s.1 in
  fresh_for s n [msg_ID m] → ∀ wal, logged m (b_wal s.2) = Ret None wal →
  (∃ l s', Broker.Publish n payload now rnd s = Ret (inr l) s' ∧ published s s' n m) ∧
  (∃ l s', Broker.PublishFront n payload now rnd s = Ret (inr l) s' ∧ published s s' n m) ∧
  (∃ l s', Broker.PublishDelayed n payload delay now later rnd s = Ret (inr l) s' ∧ published s s' n m).
Proof.
  intros Hb m Hf wal He.
  destruct (prepare_run s n payload now rnd _ _ Hb He) as (ts & t & Hk & Ht & Hl & Hb' & Hor & Hot & Hown).
  fold m in Hk, Ht, Hl, Hb', Hot, Hown. set (s0 := (mkStore _ _, _)) in *. set (l := fresh _) in *.
  assert (retryable m) as Hret by (unfold retryable; simpl; lia).
  destruct (fresh_publishable s s0 n t l m Hb' Ht Hl Hret Hf Hown Hor) as (Hno & Hroom & _).
  assert (∀ s1, accepted l (s0.1, t) s1 delay later →
    published s ((replaced s0 n s1).1, count 1 0 0 0 (replaced s0 n s1).2) n m) as Hpub.
  { intros s1 Hacc. destruct (accept_topic s0 n t l m s1 delay later Hb' Ht Hl Hret Hno Hroom Hacc) as (Hb2 & Ho2 & Ho3).
    destruct (counted _ 1 0 0 0 Hb2) as [Hb3 Ho4]. split_and!; [exact Hb3| | | |exact He|done].
    - rewrite Ho4 Ho2. by rewrite Hown.
    - intros n' Hne. rewrite Ho4 Ho3 //.
    - intros n' Hne. change (b_topics (replaced s0 n s1).2 !! n' = b_topics s.2 !! n').
      rewrite replaced_other //. by apply Hot. }
  destruct (enqueue_run s0 n t l m delay later Hb' Ht Hl Hret Hno Hroom)
    as ((s1 & E1 & A1) & (s2 & E2 & A2) & (s3 & E3 & A3)).
  split_and!.
  - exists l. eexists. split; [|exact (Hpub s1 A1)]. etrans; [apply Hk|]. cbv beta iota.
    by rewrite (bind_ret _ _ _ _ _ E1).
  - exists l. eexists. split; [|exact (Hpub s2 A2)]. etrans; [apply Hk|]. cbv beta iota.
    by rewrite (bind_ret _ _ _ _ _ E2).
  - exists l. eexists. split; [|exact (Hpub s3 A3)]. etrans; [apply Hk|]. cbv beta iota.
    by rewrite (bind_ret _ _ _ _ _ E3).
Qed.

(** ** Batches *)

(** The messages a batch creates. *)
Fixpoint batch_messages (n : string) (payloads : list (byte_slice * Z * bytes)) (σ : Store) : list Message :=
  match payloads with
  | [] => []
  | (payload, now, rnd) :: payloads' =>
      created n payload now rnd σ :: batch_messages n payloads' (mkStore (heap σ) (u64 (globalSeq σ + 1)))
  end.

(** The IDs a batch creates. *)
Fixpoint batch_ids (payloads : list (byte_slice * Z * bytes)) (seq : Z) : list string :=
  match payloads with
  | [] => []
  | (_, now, rnd) :: payloads' =>
      message_id now (u64 (seq + 1)) rnd :: batch_ids payloads' (u64 (seq + 1))
  end.

Lemma batch_ids_length payloads seq : length (batch_ids payloads seq) = length payloads.
Proof. revert seq. induction payloads as [|[[? ?] ?] ps IH]; intros seq; simpl; auto. Qed.

(** They depend on the counter of the store only. *)
Lemma batch_messages_seq n payloads : ∀ σ σ',
  globalSeq σ = globalSeq σ' → batch_messages n payloads σ = batch_messages n payloads σ'.
Proof.
  induction payloads as [|[[payload now] rnd] ps IH]; intros σ σ' E; [done|]. cbn [batch_messages].
  rewrite /created E. f_equal. by apply IH.
Qed.

Lemma batch_messages_ids n payloads : ∀ σ, msg_ID <$> batch_messages n payloads σ = batch_ids payloads (globalSeq σ).
Proof.
  induction payloads as [|[[payload now] rnd] ps IH]; intros σ; [done|]. cbn [batch_messages batch_ids].
  by rewrite fmap_cons IH.
Qed.

Lemma fresh_for_tail s s' n t' x ids :
  fresh_for s n (x :: ids) → (∃ t, b_topics s.2 !! n = Some t ∧ topic_room t' = topic_room t) →
  b_topics s'.2 !! n = Some t' →
  owned s' n ≡ₚ x :: owned s n → (∀ n', n' ≠ n → owned s' n' = owned s n') → fresh_for s' n ids.
Proof.
  intros (Hnd & Hno & Hr) (t & Ht & Hroom) Ht' Ho Hoth. apply NoDup_cons in Hnd as [Hx Hnd].
  split_and!; [done| |].
  - intros n' y Hy. destruct (decide (n' = n)) as [->|Hne].
    + rewrite Ho elem_of_cons. intros [->|Hin]; [done|]. by apply (Hno n y); [right|].
    + rewrite Hoth //. apply Hno. by right.
  - rewrite Ht in Hr. rewrite Ht' Ho Hroom. simpl in *. lia.
Qed.

(** Whether the batch returns is up to the log; what it returns is not. *)
Definition batch_outcome (n : string) (payloads : list (byte_slice * Z * bytes)) (s : BS) (k : Z) (r : result BS Z)
  : Prop :=
  match run_log (LogPublish <$> batch_messages n payloads s.1) (b_wal s.2) with
  | Ret _ wal => ∃ s', r = Ret k s' ∧ broker_inv s' ∧
      owned s' n ≡ₚ batch_ids payloads (globalSeq s.1) ++ owned s n ∧
      (∀ n', n' ≠ n → owned s' n' = owned s n') ∧ b_wal s'.2 = wal
  | _ => ∀ a s', r ≠ Ret a s'
  end.

Lemma publish_batch_run n payloads : ∀ s t c,
  broker_inv s → b_topics s.2 !! n = Some t → fresh_for s n (batch_ids payloads (globalSeq s.1)) →
  0 ≤ c → c + Z.of_nat (length payloads) < 2 ^ 63 →
  batch_outcome n payloads s (c + Z.of_nat (length payloads)) (publish_batch n payloads c s).
Proof.
  induction payloads as [|[[payload now] rnd] ps IH]; intros s t c Hb Ht Hf Hc0 Hc.
  { exists s. split_and!; [simpl; by rewrite Z.add_0_r|done..]. }
  set (m := created n payload now rnd s.1). set (l := fresh (dom (heap s.1))).
  set (σ' := mkStore (<[l := m]> (heap s.1)) (u64 (globalSeq s.1 + 1))).
  destruct (broker_alloc s m (u64 (globalSeq s.1 + 1)) Hb) as [Hb1 Hown1].
  assert (heap σ' !! l = Some m) as Hlm by apply lookup_insert_eq.
  unfold batch_outcome. cbn [batch_messages]. rewrite fmap_cons. cbn [run_log publish_batch]. fold m.
  rewrite (bind_ret _ _ _ _ _ (zoom_ret lens_fst _ _ _ _ (NewMessage_run n payload now rnd _))).
  change (over lens_fst _ s) with (σ', s.2). change (fresh (dom (heap (view lens_fst s)))) with l.
  pose proof (log_publish_run (σ', s.2) l m Hlm) as El. cbn [snd] in El.
  destruct (logged m (b_wal s.2)) as [err wal|wal|] eqn:Elog.
  2:{ by rewrite (bind_block _ _ _ _ Elog) (bind_block _ _ _ _ El). }
  2:{ unfold mbind, prog_bind. by rewrite Elog El. }
  rewrite (bind_ret _ _ _ _ _ Elog) (bind_ret _ _ _ _ _ El).
  set (s1 := (σ', with_wal wal s.2)).
  assert (broker_inv s1) as Hb2 by (apply (broker_inv_same σ' s.2); [done|exact Hb1]).
  assert (∀ n', owned s1 n' = owned s n') as Hown2 by exact Hown1.
  assert (heap s1.1 !! l = Some m) as Hl by apply lookup_insert_eq.
  assert (retryable m) as Hret by (unfold retryable; simpl; lia).
  cbn [batch_ids] in Hf |- *. change (message_id _ _ _) with (msg_ID m) in Hf |- *.
  pose proof Hf as (_ & Hno & Hr). rewrite Ht in Hr. cbn [length] in Hr.
  pose proof (bi_topics _ Hb2 n t Ht) as Hi. pose proof (owned_some s1 n t Ht) as Ho1.
  assert (msg_ID m ∉ owned s n) as Hno' by (apply Hno; by left).
  destruct (publishable_inv (σ', t) _ l m Hi) as (Hi1 & _ & _ & Hno1).
  { split_and!; [done|done|by rewrite -Ho1 Hown2|]. rewrite -Ho1 Hown2. simpl. lia. }
  destruct (Publish_run 0 (σ', t) _ l m Hi1 Hl Hret Hno1) as (rb' & E & _ & _ & Hroom).
  set (t' := ((σ', t).1, add_published _ _)) in E, Hroom.
  destruct (accept_topic s1 n t l m t' 0 0 Hb2 Ht Hl Hret) as (Hb3 & Ho3 & Hoth3).
  { intros n'. rewrite Hown2. apply Hno. by left. }
  { rewrite Hown2. lia. }
  { left. exact E. }
  rewrite Hown2 in Ho3.
  assert (∀ n', n' ≠ n → owned (replaced s1 n t') n' = owned s n') as Hoth by (intros; rewrite Hoth3 //).
  assert (batch_outcome n ps (replaced s1 n t') (c + 1 + Z.of_nat (length ps)) (publish_batch n ps (c + 1) (replaced s1 n t')))
    as Hrest; [apply (IH _ t'.2 _ Hb3)|].
  { apply lookup_insert_eq. }
  { eapply (fresh_for_tail s _ n t'.2 (msg_ID m)); [exact Hf|by exists t|apply lookup_insert_eq|done|done]. }
  { lia. }
  { simpl in Hc. lia. }
  rewrite (bind_ret (zoom (lens_topic n) (Topic.Publish l)) _ s1 true (replaced s1 n t')).
  { apply (zoom_ret (lens_topic n)). simpl. by rewrite Ht. }
  rewrite i64_small; [unfold is_i64; simpl in Hc; lia|]. unfold batch_outcome in Hrest.
  rewrite (batch_messages_seq n ps (replaced s1 n t').1 (mkStore (heap s.1) (u64 (globalSeq s.1 + 1)))) // in Hrest.
  change (b_wal (replaced s1 n t').2) with wal in Hrest. unfold mbind, prog_bind.
  destruct (run_log _ wal) as [errs wal'|wal'|]; [|exact Hrest|exact Hrest].
  destruct Hrest as (s' & E' & Hb' & Ho' & Hoth' & Hw').
  exists s'. split_and!; [|done| |intros; rewrite Hoth' // Hoth //|done].
  - rewrite E'. f_equal. cbn [length]. lia.
  - rewrite Ho' Ho3. change (globalSeq (replaced s1 n t').1) with (u64 (globalSeq s.1 + 1)).
    by rewrite -Permutation_middle.
Qed.

Lemma PublishBatch_run s n payloads :
  broker_inv s → fresh_for s n (batch_ids payloads (globalSeq s.1)) →
  Z.of_nat (length payloads) < 2 ^ 63 →
  batch_outcome n payloads s (Z.of_nat (length payloads)) (PublishBatch n payloads s).
Proof.
  intros Hb Hf Hlen. unfold PublishBatch. destruct (Z.eqb_spec (Z.of_nat (length payloads)) 0) as [E0|_].
  { assert (payloads = []) as -> by (destruct payloads; [done|simpl in E0; lia]). by exists s. }
  destruct (GetOrCreateTopic_run s n Hb) as (ts & t & E & Ht & Hb1 & Hor & _ & Hown).
  assert (batch_outcome n payloads (s.1, set_topics ts s.2) (0 + Z.of_nat (length payloads))
    (publish_batch n payloads 0 (s.1, set_topics ts s.2))) as Hrest; [apply (publish_batch_run n payloads _ t 0 Hb1 Ht)|].
  { pose proof Hf as (Hnd & Hno & Hr). split_and!; [done|intros n' x; rewrite Hown; apply Hno|].
    change (b_topics (s.1, set_topics ts s.2).2) with ts. rewrite Ht. by eapply fresh_for_room. }
  { lia. }
  { lia. }
  unfold batch_outcome in *. rewrite (bind_ret _ _ _ _ _ E). cbn [fst snd b_wal set_topics] in Hrest.
  unfold mbind, prog_bind. destruct (run_log _ _) as [errs wal|wal|].
  - destruct Hrest as (s' & E' & Hb' & Ho & Hoth & Hw'). rewrite E'.
    destruct (counted s' (u64 (Z.of_nat (length payloads))) 0 0 0 Hb') as [Hb2 Hown2].
    eexists. split_and!; [done|exact Hb2|by rewrite Hown2 Ho Hown|intros; rewrite Hown2 Hoth //|exact Hw'].
  - intros a s'. destruct (publish_batch _ _ _ _) as [k s1|s1|]; [by destruct (Hrest k s1)|done|done].
  - intros a s'. destruct (publish_batch _ _ _ _) as [k s1|s1|]; [by destruct (Hrest k s1)|done|done].
Qed.

(** A batch that returned. *)
Lemma PublishBatch_returned s n payloads k s' :
  broker_inv s → fresh_for s n (batch_ids payloads (globalSeq s.1)) → Z.of_nat (length payloads) < 2 ^ 63 →
  PublishBatch n payloads s = Ret k s' →
  k = Z.of_nat (length payloads) ∧ broker_inv s' ∧ owned s' n ≡ₚ batch_ids payloads (globalSeq s.1) ++ owned s n ∧
  (∀ n', n' ≠ n → owned s' n' = owned s n') ∧
  ∃ errs, run_log (LogPublish <$> batch_messages n payloads s.1) (b_wal s.2) = Ret errs (b_wal s'.2).
Proof.
  intros Hb Hf Hlen E. pose proof (PublishBatch_run s n payloads Hb Hf Hlen) as Ho. unfold batch_outcome in Ho.
  destruct (run_log _ _) as [errs wal|wal|]; [|by destruct (Ho _ _ E)|by destruct (Ho _ _ E)].
  destruct Ho as (s2 & E' & Hb2 & Hp & Hoth & <-). rewrite E in E'. injection E' as -> ->. eauto 8.
Qed.

(** ** Calls on one topic *)

(** The effect of a call on the IDs: [ins] came into topic [n], [outs] left it,
    nothing else changed hands. *)
Definition moved (s s' : BS) (n : string) (ins outs : list string) : Prop :=
  broker_inv s' ∧ outs ++ owned s' n ≡ₚ ins ++ owned s n ∧
  ∀ n', n' ≠ n → owned s' n' = owned s n'.

Lemma moved_none s s' n :
  broker_inv s' → (∀ n', owned s' n' = owned s n') → moved s s' n [] [].
Proof. intros Hb Ho. split_and!; [done|by rewrite Ho|done]. Qed.

Lemma moved_refl s n : broker_inv s → moved s s n [] [].
Proof. intros. by apply moved_none. Qed.

Lemma moved_count s s' n ins outs c1 c2 c3 c4 :
  moved s s' n ins outs → moved s (s'.1, count c1 c2 c3 c4 s'.2) n ins outs.
Proof.
  intros (Hb & Hp & Ho). destruct (counted s' c1 c2 c3 c4 Hb) as [Hb' Ho'].
  split_and!; [done|by rewrite Ho'|]. intros n' Hne. rewrite Ho'. by apply Ho.
Qed.

Lemma moved_trans s s1 s2 n ins outs :
  moved s s1 n [] [] → moved s1 s2 n ins outs → moved s s2 n ins outs.
Proof.
  intros (_ & Hp & Ho) (Hb' & Hp' & Ho'). simpl in Hp. split_and!; [done|by rewrite Hp' Hp|].
  intros n' Hne. rewrite Ho' // Ho //.
Qed.

(** A call that completed on the topic. *)
Lemma topic_call {A} s n t (op : prog TS A) r s1 q' outs :
  broker_inv s → b_topics s.2 !! n = Some t → op (s.1, t) = Ret r s1 →
  topic_inv 0 s1 q' → keeps (holds (s.1, t)) s.1 s1.1 → outs ++ held s1 q' ≡ₚ holds (s.1, t) →
  zoom (lens_topic n) op s = Ret r (replaced s n s1) ∧ moved s (replaced s n s1) n [] outs.
Proof.
  intros Hb Ht E Hi Hk Hp. split.
  { apply (zoom_ret (lens_topic n)). simpl. by rewrite Ht. }
  destruct (replace_topic s n t s1 q' [] Hb Ht Hi) as (Hb' & Ho & Hoth).
  - by rewrite app_nil_r.
  - intros x Hx. left. rewrite -Hp. apply elem_of_app. by right.
  - by intros n' x ?%elem_of_nil.
  - split_and!; [done|by rewrite Ho Hp (owned_some s n t Ht)|done].
Qed.

(** The same for a call that parked. *)
Lemma topic_park {A} s n t (op : prog TS A) s1 q' :
  broker_inv s → b_topics s.2 !! n = Some t → op (s.1, t) = Block s1 →
  topic_inv 0 s1 q' → keeps (holds (s.1, t)) s.1 s1.1 → held s1 q' ≡ₚ holds (s.1, t) →
  zoom (lens_topic n) op s = Block (replaced s n s1) ∧ moved s (replaced s n s1) n [] [].
Proof.
  intros Hb Ht E Hi Hk Hp. split.
  { unfold zoom, replaced. simpl. rewrite Ht. simpl. by rewrite E. }
  by apply (topic_call s n t (λ _, Ret tt s1) tt s1 q' [] Hb Ht eq_refl Hi Hk Hp).
Qed.

Lemma GetTopic_run (s : BS) n : GetTopic n s = Ret (bool_decide (is_Some (b_topics s.2 !! n))) s.
Proof. done. Qed.

(** [Consume] of the broker: the head of the topic, nothing, or a wait. *)
Lemma Consume_outcome s n timeout t0 t1 :
  broker_inv s →
  (∃ s', (Broker.Consume n timeout t0 t1 s = Ret (None, false) s' ∨
          Broker.Consume n timeout t0 t1 s = Block s') ∧ moved s s' n [] []) ∨
  (∃ l m s', Broker.Consume n timeout t0 t1 s = Ret (Some l, true) s' ∧ heap s.1 !! l = Some m ∧
     moved s s' n [] [msg_ID m]).
Proof.
  intros Hb. unfold Broker.Consume. rewrite (bind_ret _ _ _ _ _ (GetTopic_run s n)).
  destruct (b_topics s.2 !! n) as [t|] eqn:Ht.
  2:{ left. exists s. split; [by left|by apply moved_refl]. }
  rewrite bool_decide_true; [by eexists|]. cbn [negb].
  pose proof (bi_topics _ Hb n t Ht) as Hi.
  pose proof (ConsumeWait_run 0 (s.1, t) _ timeout t0 t1 Hi) as Hr.
  assert (holds (s.1, t) = held (s.1, t) (ring_contents (t_ring t))) as Hh by done.
  destruct (ring_contents (t_ring t)) as [|l q].
  - left. destruct Hr as [E|E].
    + destruct (topic_call s n t _ _ _ [] [] Hb Ht E Hi) as [E' Hm]; [apply keeps_refl|by rewrite Hh|].
      eexists. split; [|exact Hm]. left. by rewrite (bind_ret _ _ _ _ _ E').
    + destruct (topic_park s n t _ _ [] Hb Ht E Hi) as [E' Hm]; [apply keeps_refl|by rewrite Hh|].
      eexists. split; [|exact Hm]. right. by apply bind_block.
  - right. destruct Hr as (s1 & m & E & Hs1 & Hm & Hi1 & _ & Hp).
    destruct (topic_call s n t _ _ _ q [msg_ID m] Hb Ht E (inv_weaken _ 0 _ _ Hi1 ltac:(lia))) as [E' Hmv];
      [rewrite Hs1; apply keeps_refl|by rewrite Hh Hp|].
    exists l, m. eexists. split_and!; [|done|exact (moved_count _ _ _ _ _ 0 1 0 0 Hmv)].
    by rewrite (bind_ret _ _ _ _ _ E').
Qed.

Lemma GetOrCreate_moved s n :
  broker_inv s →
  ∃ s' t, GetOrCreateTopic n s = Ret tt s' ∧ s'.1 = s.1 ∧ b_topics s'.2 !! n = Some t ∧ broker_inv s' ∧
    moved s s' n [] [] ∧ ∀ n', owned s' n' = owned s n'.
Proof.
  intros Hb. destruct (GetOrCreateTopic_run s n Hb) as (ts & t & E & Ht & Hb1 & _ & _ & Hown).
  exists (s.1, set_topics ts s.2), t. split_and!; try done. by apply moved_none.
Qed.

Lemma ConsumeGroup_outcome s n g c timeout t0 t1 now :
  broker_inv s →
  ∃ s', ((∃ r, Broker.ConsumeGroup n g c timeout t0 t1 now s = Ret r s') ∨
         Broker.ConsumeGroup n g c timeout t0 t1 now s = Block s') ∧ moved s s' n [] [].
Proof.
  intros Hb. destruct (GetOrCreate_moved s n Hb) as (s0 & t & E0 & _ & Ht & Hb0 & Hm0 & _).
  unfold Broker.ConsumeGroup. rewrite (bind_ret _ _ _ _ _ E0).
  pose proof (bi_topics _ Hb0 n t Ht) as Hi.
  assert (holds (s0.1, t) = held (s0.1, t) (ring_contents (t_ring t))) as Hh by done.
  assert ((∃ r s1, Topic.ConsumeGroup g c timeout t0 t1 now (s0.1, t) = Ret r s1) ∨
          (∃ s1, Topic.ConsumeGroup g c timeout t0 t1 now (s0.1, t) = Block s1)) as [(r & s1 & E)|(s1 & E)].
  { clear Hh. destruct (ring_contents (t_ring t)) as [|l q].
    - destruct (ConsumeGroup_empty 0 _ g c timeout t0 t1 now Hi) as (s1 & [E|E] & _); eauto.
    - destruct (ConsumeGroup_run 0 _ l q g c timeout t0 t1 now Hi) as (s1 & m & E & _). eauto. }
  - destruct (group_step _ _ g c timeout t0 t1 now s1 Hi) as (q' & Hi1 & Hp & Hk); [eauto|].
    destruct (topic_call s0 n t _ _ _ q' [] Hb0 Ht E Hi1 Hk) as [E' Hm]; [by rewrite Hh Hp|].
    rewrite (bind_ret _ _ _ _ _ E'). destruct (r.2).
    + eexists. split; [left; by eexists|].
      exact (moved_trans _ _ _ _ _ _ Hm0 (moved_count _ _ _ _ _ 0 1 0 0 Hm)).
    + eexists. split; [left; by eexists|]. by eapply moved_trans.
  - destruct (group_step _ _ g c timeout t0 t1 now s1 Hi) as (q' & Hi1 & Hp & Hk); [eauto|].
    destruct (topic_park s0 n t _ _ q' Hb0 Ht E Hi1 Hk) as [E' Hm]; [by rewrite Hh Hp|].
    eexists. split; [right; by apply bind_block|]. by eapply moved_trans.
Qed.

Lemma moved_same s s' n ins outs (b' : Broker W) :
  moved s s' n ins outs → b_topics b' = b_topics s'.2 → moved s (s'.1, b') n ins outs.
Proof.
  intros (Hb & Hp & Ho) E. destruct s' as [σ' b]. simpl in *.
  assert (∀ n', owned (σ', b') n' = owned (σ', b) n') as Hown by (intros n'; unfold owned; simpl; by rewrite E).
  split_and!; [by apply (broker_inv_same σ' b)|by rewrite Hown|]. intros n' Hne. rewrite Hown. by apply Ho.
Qed.

(** [Ack] refuses, or takes the message out and tells the log. *)
Lemma Ack_outcome s n g mid :
  broker_inv s →
  (∃ s', Broker.Ack n g mid s = Ret false s' ∧ moved s s' n [] []) ∨
  (∃ s1, moved s s1 n [] [mid] ∧ Broker.Ack n g mid s =
     match run_call (LogAck n g mid) (b_wal s.2) with
     | Ret _ wal => Ret true (s1.1, with_wal wal s1.2)
     | Block wal => Block (s1.1, with_wal wal s1.2)
     | Panic => Panic
     end).
Proof.
  intros Hb. unfold Broker.Ack. rewrite (bind_ret _ _ _ _ _ (GetTopic_run s n)).
  destruct (b_topics s.2 !! n) as [t|] eqn:Ht.
  2:{ left. exists s. split; [done|by apply moved_refl]. }
  rewrite bool_decide_true; [by eexists|]. cbn [negb].
  pose proof (bi_topics _ Hb n t Ht) as Hi.
  assert (holds (s.1, t) = held (s.1, t) (ring_contents (t_ring t))) as Hh by done.
  pose proof (Ack_run 0 (s.1, t) _ g mid Hi) as Hr. destruct (_ ≫= _).
  - destruct Hr as (s1 & E & Hs1 & Hi1 & _ & Hp).
    destruct (topic_call s n t _ _ _ _ [mid] Hb Ht E (inv_weaken _ 0 _ _ Hi1 ltac:(lia))) as [E' Hmv];
      [rewrite Hs1; apply keeps_refl|by rewrite Hh Hp|].
    right. exists ((replaced s n s1).1, count 0 0 1 0 (replaced s n s1).2).
    split; [exact (moved_count _ _ _ _ _ 0 0 1 0 Hmv)|]. rewrite (bind_ret _ _ _ _ _ E').
    unfold modify, zoom, mbind, prog_bind. cbn. unfold run_call. by destruct (on_wal _ _).
  - left. destruct (topic_call s n t _ _ _ _ [] Hb Ht Hr Hi) as [E' Hmv]; [apply keeps_refl|by rewrite Hh|].
    rewrite (bind_ret _ _ _ _ _ E'). by eexists _.
Qed.

Lemma Ack_returned s n g mid b s' :
  broker_inv s → Broker.Ack n g mid s = Ret b s' →
  moved s s' n [] (if b then [mid] else []) .
Proof.
  intros Hb E. destruct (Ack_outcome s n g mid Hb) as [(s1 & E1 & Hmv)|(s1 & Hmv & E1)]; rewrite E in E1.
  - by injection E1 as -> ->.
  - destruct (run_call _ _) as [e wal|wal|]; [|done|done]. injection E1 as -> ->. by apply (moved_same s s1 n).
Qed.

Lemma Ack_answered s n g mid : broker_inv s → answered (LogAck n g mid) → ∃ b s', Broker.Ack n g mid s = Ret b s'.
Proof.
  intros Hb Ha. destruct (Ack_outcome s n g mid Hb) as [(s1 & E1 & _)|(s1 & _ & E1)]; [by eexists _, _|].
  destruct (Ha (b_wal s.2)) as (e & wal & E). rewrite E in E1. by eexists _, _.
Qed.

Lemma Nack_outcome s n g mid reason now :
  broker_inv s → ∃ b s', Broker.Nack n g mid reason now s = Ret b s' ∧ moved s s' n [] [].
Proof.
  intros Hb. unfold Broker.Nack. rewrite (bind_ret _ _ _ _ _ (GetTopic_run s n)).
  destruct (b_topics s.2 !! n) as [t|] eqn:Ht.
  2:{ exists false, s. split; [done|by apply moved_refl]. }
  rewrite bool_decide_true; [by eexists|]. cbn [negb].
  destruct (nack_returns (s.1, t) _ g mid reason now (bi_topics _ Hb n t Ht)) as (b & s1 & E & Hi1 & Hp & Hk).
  destruct (topic_call s n t _ _ _ _ [] Hb Ht E Hi1 Hk Hp) as [E' Hmv].
  rewrite (bind_ret _ _ _ _ _ E'). destruct b.
  - eexists true, _. split; [done|]. exact (moved_count _ _ _ _ _ 0 0 0 1 Hmv).
  - by eexists false, _.
Qed.

Lemma ReplayDLQ_outcome s n mid now :
  broker_inv s → ∃ r s', ReplayDLQ n mid now s = Ret r s' ∧ moved s s' n [] [].
Proof.
  intros Hb. unfold ReplayDLQ. rewrite (bind_ret _ _ _ _ _ (GetTopic_run s n)).
  destruct (b_topics s.2 !! n) as [t|] eqn:Ht.
  2:{ exists (None, false), s. split; [done|by apply moved_refl]. }
  rewrite bool_decide_true; [by eexists|]. cbn [negb].
  destruct (replay_returns (s.1, t) _ mid now (bi_topics _ Hb n t Ht)) as (r & s1 & q1 & E & Hi1 & Hp & Hk).
  destruct (topic_call s n t _ _ _ _ [] Hb Ht E Hi1 Hk Hp) as [E' Hmv]. eauto.
Qed.

(** The IDs in the dead letter queue of a topic, oldest first. *)
Definition dead_ids (s : BS) (n : string) : list string :=
  match b_topics s.2 !! n with Some t => dlq_order (t_dlq t) | None => [] end.

(** Emptying the dead letter queue of one topic. *)
Lemma purge_outcome s n t :
  broker_inv s → b_topics s.2 !! n = Some t →
  ∃ s', zoom (lens_topic n) (DLQ Purge) s = Ret (Z.of_nat (length (dead_ids s n))) s' ∧
    moved s s' n [] (dead_ids s n) ∧ dead_ids s' n = [] ∧ is_Some (b_topics s'.2 !! n) ∧
    ∀ n', n' ≠ n → b_topics s'.2 !! n' = b_topics s.2 !! n'.
Proof.
  intros Hb Ht. destruct (Purge_topic_run 0 (s.1, t) _ (bi_topics _ Hb n t Ht)) as (d' & E & Hi & Hp & Ho).
  unfold dead_ids at 1 2. rewrite Ht.
  destruct (topic_call s n t _ _ _ _ (dlq_order (t_dlq t)) Hb Ht E Hi) as [E' Hmv];
    [apply keeps_refl|by rewrite -Hp|]. eexists. split_and!; [exact E'|exact Hmv| | |].
  - unfold dead_ids, replaced. simpl. by rewrite lookup_insert_eq.
  - unfold replaced. simpl. by rewrite lookup_insert_eq.
  - intros n' Hne. by apply replaced_other.
Qed.

(** The ticker of one topic. *)
Lemma tick_outcome s n t :
  broker_inv s → b_topics s.2 !! n = Some t →
  ∃ s', zoom (lens_topic n) advance_wheel s = Ret tt s' ∧ moved s s' n [] [].
Proof.
  intros Hb Ht. destruct (advance_run 0 (s.1, t) _ (bi_topics _ Hb n t Ht)) as (s1 & E & Hs1 & Hi1 & _ & _ & Hp).
  destruct (topic_call s n t _ _ _ _ [] Hb Ht E Hi1) as [E' Hmv]; [rewrite Hs1; apply keeps_refl|done|]. eauto.
Qed.

Lemma create_group_outcome s n t g timeout :
  broker_inv s → b_topics s.2 !! n = Some t →
  ∃ s', zoom (lens_topic n) (GetOrCreateGroup g timeout) s = Ret tt s' ∧ moved s s' n [] [].
Proof.
  intros Hb Ht. destruct (GetOrCreateGroup_run 0 (s.1, t) _ g timeout (bi_topics _ Hb n t Ht)) as (gs & cg & E & _ & Hi & Hp).
  destruct (topic_call s n t _ _ _ _ [] Hb Ht E Hi) as [E' Hmv]; [apply keeps_refl|exact Hp|]. eauto.
Qed.

(** The sweeper, over existing topics and groups in any order. *)
Lemma sweepAll_outcome order now failedAt : ∀ s,
  broker_inv s →
  (∀ n gs, (n, gs) ∈ order → ∃ t, b_topics s.2 !! n = Some t ∧
     ∀ g, g ∈ gs.*1 → is_Some (t_groups t !! g)) → NoDup order.*1 →
  ∃ s', sweepAllTimeouts order now failedAt s = Ret tt s' ∧ broker_inv s' ∧
    ∀ n, owned s' n ≡ₚ owned s n.
Proof.
  induction order as [|[n gs] order IH]; intros s Hb Hex Hnd; [by exists s|].
  apply NoDup_cons in Hnd as [Hni Hnd].
  destruct (Hex n gs ltac:(by left)) as (t & Ht & Hg).
  destruct (sweep_run gs (now n) failedAt 0 (s.1, t) _ (bi_topics _ Hb n t Ht) Hg) as (k & s1 & E & Hi1 & Hp & Hk & _).
  destruct (topic_call s n t _ _ _ _ [] Hb Ht E Hi1 Hk Hp) as [E' (Hb1 & Hp1 & Ho1)].
  destruct (IH (replaced s n s1) Hb1) as (s2 & E2 & Hb2 & Ho2); [|done|].
  { intros n' gs' Hin. assert (n' ≠ n) as Hne.
    { intros ->. apply Hni. apply list_elem_of_fmap. by exists (n, gs'). }
    rewrite replaced_other //. apply (Hex n' gs'). by right. }
  exists s2. split_and!; [|done|].
  - cbn [sweepAllTimeouts]. by rewrite (bind_ret _ _ _ _ _ E').
  - intros n'. rewrite Ho2. destruct (decide (n' = n)) as [->|Hne]; [exact Hp1|by rewrite Ho1].
Qed.

(** ** Sequences of calls *)

(** A label: the topic, the IDs that came in, the IDs that went out, and the calls
    made on the log. *)
Record label : Type := mkLabel {
  lb_topic : string;
  lb_in : list string;
  lb_out : list string;
  lb_log : list log_call
}.

Definition quiet : label := mkLabel "" [] [] [].

(** The completed calls on an open broker, with the tickers of its topics and
    its sweeper. *)
Inductive broker_step : BS → label → BS → Prop :=
| bs_publish s n payload now rnd delay later l s' :
    publishes n payload now rnd delay later s (inr l) s' →
    fresh_for s n [msg_ID (created n payload now rnd s.1)] →
    broker_step s (mkLabel n [msg_ID (created n payload now rnd s.1)] []
                     [LogPublish (created n payload now rnd s.1)]) s'
| bs_publish_error s n payload now rnd delay later e wal s' :
    publishes n payload now rnd delay later s (inl e) s' →
    logged (created n payload now rnd s.1) (b_wal s.2) = Ret (Some e) wal →
    broker_step s (mkLabel n [] [] [LogPublish (created n payload now rnd s.1)]) s'
| bs_batch s n payloads k s' :
    PublishBatch n payloads s = Ret k s' → Z.of_nat (length payloads) < 2 ^ 63 →
    fresh_for s n (batch_ids payloads (globalSeq s.1)) →
    broker_step s (mkLabel n (batch_ids payloads (globalSeq s.1)) []
                     (LogPublish <$> batch_messages n payloads s.1)) s'
| bs_consume s n timeout t0 t1 l m s' :
    Broker.Consume n timeout t0 t1 s = Ret (Some l, true) s' → heap s.1 !! l = Some m →
    broker_step s (mkLabel n [] [msg_ID m] []) s'
| bs_consume_none s n timeout t0 t1 s' :
    Broker.Consume n timeout t0 t1 s = Ret (None, false) s' ∨
      Broker.Consume n timeout t0 t1 s = Block s' →
    broker_step s quiet s'
| bs_consume_group s n g c timeout t0 t1 now s' :
    (∃ r, Broker.ConsumeGroup n g c timeout t0 t1 now s = Ret r s') ∨
      Broker.ConsumeGroup n g c timeout t0 t1 now s = Block s' →
    broker_step s quiet s'
| bs_ack s n g mid b s' :
    Broker.Ack n g mid s = Ret b s' →
    broker_step s (mkLabel n [] (if b then [mid] else []) (if b then [LogAck n g mid] else [])) s'
| bs_nack s n g mid reason now b s' :
    Broker.Nack n g mid reason now s = Ret b s' → broker_step s quiet s'
| bs_replay s n mid now r s' : ReplayDLQ n mid now s = Ret r s' → broker_step s quiet s'
| bs_purge s n t k s' :
    b_topics s.2 !! n = Some t → zoom (lens_topic n) (DLQ Purge) s = Ret k s' →
    broker_step s (mkLabel n [] (dead_ids s n) []) s'
| bs_tick s n t s' :
    b_topics s.2 !! n = Some t → zoom (lens_topic n) advance_wheel s = Ret tt s' →
    broker_step s quiet s'
| bs_sweep s order now failedAt s' :
    (∀ n gs, (n, gs) ∈ order → ∃ t, b_topics s.2 !! n = Some t ∧
       ∀ g, g ∈ gs.*1 → is_Some (t_groups t !! g)) → NoDup order.*1 →
    sweepAllTimeouts order now failedAt s = Ret tt s' → broker_step s quiet s'
| bs_create_topic s n s' : GetOrCreateTopic n s = Ret tt s' → broker_step s quiet s'
| bs_create_group s n t g timeout s' :
    b_topics s.2 !! n = Some t → zoom (lens_topic n) (GetOrCreateGroup g timeout) s = Ret tt s' →
    broker_step s quiet s'
| bs_broadcast s ch payload order k s' : Broadcast ch payload order s = Ret k s' → broker_step s quiet s'
| bs_subscribe s ch c s' : SubscribeChannel ch s = Ret c s' → broker_step s quiet s'
| bs_unsubscribe s ch c s' : UnsubscribeChannel ch c s = Ret tt s' → broker_step s quiet s'
| bs_receive s c x s' : Receive c s = Ret x s' → broker_step s quiet s'.

Inductive broker_trace : BS → list label → BS → Prop :=
| bt_nil s : broker_trace s [] s
| bt_cons s lb s1 lbs s2 :
    broker_step s lb s1 → broker_trace s1 lbs s2 → broker_trace s (lb :: lbs) s2.

(** What the labels say of one topic. *)
Definition came_in (n : string) (lbs : list label) : list string :=
  lbs ≫= λ lb, if decide (lb_topic lb = n) then lb_in lb else [].

Definition went_out (n : string) (lbs : list label) : list string :=
  lbs ≫= λ lb, if decide (lb_topic lb = n) then lb_out lb else [].

(** A step changes the IDs of each topic as its label says. *)
Definition follows (s : BS) (lb : label) (s' : BS) : Prop :=
  broker_inv s' ∧ ∀ n, went_out n [lb] ++ owned s' n ≡ₚ came_in n [lb] ++ owned s n.

Lemma label_one (f : label → list string) n lb :
  ([lb] ≫= λ lb, if decide (lb_topic lb = n) then f lb else []) =
  if decide (lb_topic lb = n) then f lb else [].
Proof. by rewrite bind_cons app_nil_r. Qed.

Lemma moved_follows s s' n ins outs log : moved s s' n ins outs → follows s (mkLabel n ins outs log) s'.
Proof.
  intros (Hb & Hp & Ho). split; [done|]. intros n'. unfold went_out, came_in. rewrite !label_one. simpl.
  case_decide as E; [by subst|]. by rewrite (Ho n').
Qed.

Lemma quiet_follows s s' :
  broker_inv s' → (∀ n, owned s' n ≡ₚ owned s n) → follows s quiet s'.
Proof.
  intros Hb Ho. split; [done|]. intros n. unfold went_out, came_in. rewrite !label_one.
  case_decide; simpl; apply Ho.
Qed.

Lemma moved_quiet s s' n : moved s s' n [] [] → follows s quiet s'.
Proof.
  intros (Hb & Hp & Ho). apply quiet_follows; [done|]. intros n'.
  destruct (decide (n' = n)) as [->|Hne]; [exact Hp|by rewrite Ho].
Qed.

(** The channel operations leave topics, messages and the log alone. *)
Definition chan_call (s s' : BS) : Prop :=
  (∃ ch payload order k, Broadcast ch payload order s = Ret k s') ∨
  (∃ ch c, SubscribeChannel ch s = Ret c s') ∨ (∃ ch c, UnsubscribeChannel ch c s = Ret tt s') ∨
  (∃ c x, Receive c s = Ret x s').

Lemma chan_call_frame s s' :
  chan_call s s' → s'.1 = s.1 ∧ b_topics s'.2 = b_topics s.2 ∧ b_wal s'.2 = b_wal s.2.
Proof.
  intros [(ch & p & o & k & E)|[(ch & c & E)|[(ch & c & E)|(c & x & E)]]]; revert E.
  - unfold Broadcast. glue. unfold id. destruct (_ !! _); [|by intros [= _ <-]].
    case_bool_decide; [by intros [= _ <-]|]. destruct (broadcast_loop _ _ _ _); [|done]. by intros [= _ <-].
  - unfold SubscribeChannel. glue. by intros [= _ <-].
  - unfold UnsubscribeChannel. glue. unfold id. destruct (b_channels s.2 !! ch); [|by intros [= <-]].
    destruct (b_chans s.2 !! c) as [[buf cl]|]; [|done]. destruct cl; [done|]. by intros [= <-].
  - unfold Receive. glue. unfold id. destruct (b_chans s.2 !! c) as [[buf cl]|]; [|done].
    destruct buf as [|y buf]; cbn [ch_buf ch_closed]; [|by intros [= _ <-]].
    destruct cl; [by intros [= _ <-]|done].
Qed.

Lemma chan_call_follows s s' : chan_call s s' → broker_inv s → follows s quiet s'.
Proof.
  intros (E1 & E2 & _)%chan_call_frame Hb. destruct s as [σ b], s' as [σ' b']. simpl in *. subst σ'.
  apply quiet_follows; [by apply (broker_inv_same σ b)|].
  intros n. unfold owned. simpl. by rewrite E2.
Qed.

(** A publication that returned a message. *)
Lemma publishes_published s n payload now rnd delay later l s' :
  broker_inv s → publishes n payload now rnd delay later s (inr l) s' →
  fresh_for s n [msg_ID (created n payload now rnd s.1)] → published s s' n (created n payload now rnd s.1).
Proof.
  intros Hb Hpub Hf. destruct (logged (created n payload now rnd s.1) (b_wal s.2)) as [[e|] wal|wal|] eqn:He.
  - destruct (publish_refused s n payload now rnd delay later e wal Hb He) as (s2 & E1 & E2 & E3 & _).
    destruct Hpub as [E|[E|E]]; congruence.
  - destruct (publish_done s n payload now rnd delay later Hb Hf wal He)
      as ((l1 & s1 & E1 & P1) & (l2 & s2 & E2 & P2) & (l3 & s3 & E3 & P3)).
    destruct Hpub as [E|[E|E]]; congruence.
  - destruct (publish_fails s n payload now rnd delay later Hb) with (inr l : string + loc) s' as (E1 & E2 & E3); [by rewrite He|].
    by destruct Hpub as [E|[E|E]].
  - destruct (publish_fails s n payload now rnd delay later Hb) with (inr l : string + loc) s' as (E1 & E2 & E3); [by rewrite He|].
    by destruct Hpub as [E|[E|E]].
Qed.

Lemma publishes_follows s n payload now rnd delay later l s' :
  broker_inv s → publishes n payload now rnd delay later s (inr l) s' →
  fresh_for s n [msg_ID (created n payload now rnd s.1)] →
  follows s (mkLabel n [msg_ID (created n payload now rnd s.1)] [] [LogPublish (created n payload now rnd s.1)]) s'.
Proof.
  intros Hb Hpub Hf. destruct (publishes_published s n payload now rnd delay later l s' Hb Hpub Hf) as (Hb' & Hp & Ho & _).
  by apply moved_follows.
Qed.

Lemma step_follows s lb s' : broker_inv s → broker_step s lb s' → follows s lb s'.
Proof.
  intros Hb Hs. destruct Hs as [s n payload now rnd delay later l s' Hp Hf|
    s n payload now rnd delay later e wal s' Hp He|s n payloads k s' E Hl Hf|s n timeout t0 t1 l m s' E Hm|
    s n timeout t0 t1 s' E|s n g c timeout t0 t1 now s' E|s n g mid b s' E|s n g mid reason now b s' E|
    s n mid now r s' E|s n t k s' Ht E|s n t s' Ht E|s order now failedAt s' Hex Hnd E|s n s' E|s n t g timeout s' Ht E|s ch payload order k s' E|
    s ch c s' E|s ch c s' E|s c x s' E].
  - by eapply publishes_follows.
  - destruct (publish_refused s n payload now rnd delay later e wal Hb He) as (s2 & E1 & E2 & E3 & Hr).
    assert (s' = s2) as -> by (destruct Hp as [E|[E|E]]; congruence).
    destruct Hr as (Hb2 & Ho & _). by apply moved_follows, moved_none.
  - destruct (PublishBatch_returned s n payloads k s' Hb Hf Hl E) as (_ & Hb2 & Hp2 & Ho2 & _). by apply moved_follows.
  - destruct (Consume_outcome s n timeout t0 t1 Hb) as [(s2 & [E'|E'] & _)|(l2 & m2 & s2 & E' & Hm2 & Hmv)];
      rewrite E in E'; simplify_eq. by apply moved_follows.
  - destruct (Consume_outcome s n timeout t0 t1 Hb) as [(s2 & E' & Hmv)|(l2 & m2 & s2 & E' & _)].
    + assert (s' = s2) as -> by (destruct E as [E|E], E' as [E'|E']; congruence). by eapply moved_quiet.
    + destruct E; congruence.
  - destruct (ConsumeGroup_outcome s n g c timeout t0 t1 now Hb) as (s2 & E' & Hmv).
    assert (s' = s2) as -> by (destruct E as [[r E]|E], E' as [[r' E']|E']; congruence).
    by eapply moved_quiet.
  - by apply moved_follows, (Ack_returned s n g).
  - destruct (Nack_outcome s n g mid reason now Hb) as (b' & s2 & E' & Hmv). rewrite E in E'.
    injection E' as <- <-. by eapply moved_quiet.
  - destruct (ReplayDLQ_outcome s n mid now Hb) as (r' & s2 & E' & Hmv). rewrite E in E'.
    injection E' as <- <-. by eapply moved_quiet.
  - destruct (purge_outcome s n t Hb Ht) as (s2 & E' & Hmv & _). rewrite E in E'.
    injection E' as _ <-. by apply moved_follows.
  - destruct (tick_outcome s n t Hb Ht) as (s2 & E' & Hmv). rewrite E in E'.
    injection E' as <-. by eapply moved_quiet.
  - destruct (sweepAll_outcome order now failedAt s Hb Hex Hnd) as (s2 & E' & Hb2 & Ho). rewrite E in E'.
    injection E' as <-. by apply quiet_follows.
  - destruct (GetOrCreate_moved s n Hb) as (s2 & t & E' & _ & _ & _ & Hmv & _). rewrite E in E'.
    injection E' as <-. by eapply moved_quiet.
  - destruct (create_group_outcome s n t g timeout Hb Ht) as (s2 & E' & Hmv). rewrite E in E'.
    injection E' as <-. by eapply moved_quiet.
  - apply chan_call_follows; [unfold chan_call; eauto 8|done].
  - apply chan_call_follows; [unfold chan_call; eauto 8|done].
  - apply chan_call_follows; [unfold chan_call; eauto 8|done].
  - apply chan_call_follows; [unfold chan_call; eauto 8|done].
Qed.

Lemma trace_follows s lbs s' :
  broker_trace s lbs s' → broker_inv s →
  broker_inv s' ∧ ∀ n, went_out n lbs ++ owned s' n ≡ₚ came_in n lbs ++ owned s n.
Proof.
  induction 1 as [s|s lb s1 lbs s2 Hs _ IH]; intros Hb; [done|].
  destruct (step_follows s lb s1 Hb Hs) as [Hb1 H1]. destruct (IH Hb1) as [Hb2 H2].
  split; [done|]. intros n. specialize (H1 n). specialize (H2 n).
  unfold went_out, came_in in *. rewrite (label_one lb_out) (label_one lb_in) in H1. rewrite !bind_cons.
  rewrite -!app_assoc H2 (Permutation_app_swap_app (if decide _ then lb_out lb else [])) H1.
  by rewrite Permutation_app_swap_app.
Qed.

(** ** Channels *)

(** A channel that can take one more value without blocking. *)
Definition has_room (cs : gmap chan_id gochan) (ch : chan_id) : bool :=
  match cs !! ch with Some c => Z.of_nat (length (ch_buf c)) <? chan_cap | None => false end.

(** What a subscriber's channel is after a broadcast reached it. *)
Definition delivered (payload : bytes) (c : gochan) : gochan :=
  if Z.of_nat (length (ch_buf c)) <? chan_cap then mkChan (ch_buf c ++ [payload]) (ch_closed c) else c.

Definition is_open (cs : gmap chan_id gochan) (ch : chan_id) : Prop :=
  ∃ c, cs !! ch = Some c ∧ ch_closed c = false.

Lemma has_room_ne cs ch ch' c : ch ≠ ch' → has_room (<[ch := c]> cs) ch' = has_room cs ch'.
Proof. intros. unfold has_room. by rewrite lookup_insert_ne. Qed.

Lemma filter_room_ext cs cs' order :
  (∀ ch, ch ∈ order → has_room cs' ch = has_room cs ch) →
  length (filter (λ ch, has_room cs' ch = true) order) =
  length (filter (λ ch, has_room cs ch = true) order).
Proof.
  induction order as [|ch o IH]; intros Hext; [done|]. rewrite !filter_cons Hext; [by left|].
  case_decide; simpl; rewrite IH //; intros x Hx; apply Hext; by right.
Qed.

Lemma broadcast_loop_spec payload order : ∀ cs k,
  NoDup order → (∀ ch, ch ∈ order → is_open cs ch) →
  ∃ cs', broadcast_loop order payload cs k =
           Some (k + Z.of_nat (length (filter (λ ch, has_room cs ch = true) order)), cs') ∧
    ∀ ch, cs' !! ch = if decide (ch ∈ order) then delivered payload <$> cs !! ch else cs !! ch.
Proof.
  induction order as [|ch order IH]; intros cs k Hnd Hop.
  { exists cs. split; [simpl; by rewrite Z.add_0_r|]. intros ch. case_decide as Hin; [by apply elem_of_nil in Hin|done]. }
  apply NoDup_cons in Hnd as [Hni Hnd]. destruct (Hop ch ltac:(by left)) as (c & Hc & Hcl).
  cbn [broadcast_loop]. rewrite Hc. cbn [mbind option_bind]. rewrite Hcl.
  assert (has_room cs ch = (Z.of_nat (length (ch_buf c)) <? chan_cap)) as Hroom by (unfold has_room; by rewrite Hc).
  rewrite filter_cons. destruct (Z.of_nat (length (ch_buf c)) <? chan_cap) eqn:Hr.
  - set (cs1 := <[ch := _]> cs). destruct (IH cs1 (k + 1) Hnd) as (cs' & E & Hcs').
    { intros x Hx. destruct (Hop x ltac:(by right)) as (cx & Hcx & ?). exists cx. unfold cs1.
      rewrite lookup_insert_ne //. by intros ->. }
    exists cs'. rewrite decide_True // E. split.
    + do 2 f_equal. rewrite (filter_room_ext cs cs1); [|simpl; lia].
      intros x Hx. apply has_room_ne. by intros ->.
    + intros x. rewrite Hcs'. unfold cs1. destruct (decide (x = ch)) as [->|Hne].
      * rewrite decide_False // decide_True; [by left|]. rewrite lookup_insert_eq Hc /=.
        unfold delivered. by rewrite Hr Hcl.
      * rewrite lookup_insert_ne //. apply decide_ext. rewrite elem_of_cons. naive_solver.
  - destruct (IH cs k Hnd) as (cs' & E & Hcs').
    { intros x Hx. apply Hop. by right. }
    exists cs'. rewrite decide_False; [by rewrite Hroom|]. split; [done|].
    intros x. rewrite Hcs'. destruct (decide (x = ch)) as [->|Hne].
    + rewrite decide_False // decide_True; [by left|]. rewrite Hc /=. unfold delivered. by rewrite Hr.
    + apply decide_ext. rewrite elem_of_cons. naive_solver.
Qed.

(** ** Properties *)

(** C2: the broker loses and duplicates nothing, topic by topic.  Take a new broker with
    any log and any sequence of completed calls on it while it is open, with the topics'
    tickers and the sweeper interleaved anywhere; publications have IDs that no topic
    holds and go to topics that hold fewer than the 50000 of their dead letter queue
    ([fresh_for]).  For every topic name, the IDs published under it are exactly, with
    multiplicity, the IDs consumed, acknowledged or purged from it together with those it
    still holds; and no ID is ever held by two topics. *)
Theorem broker_conserves_messages σ wal lbs s'
  (Htr : broker_trace (σ, NewBroker wal) lbs s') :
  (∀ n, came_in n lbs ≡ₚ went_out n lbs ++ owned s' n) ∧
  (∀ n1 n2 x, n1 ≠ n2 → x ∈ owned s' n1 → x ∉ owned s' n2).
Proof.
  destruct (trace_follows _ _ _ Htr (NewBroker_inv σ wal)) as [Hb H1].
  split; [|apply Hb]. intros n. by rewrite H1 app_nil_r.
Qed.

(** C9: write-ahead publication.  If the log refuses the record, all three publish calls
    return its error, no topic receives the message and nothing is counted.  If it
    accepts, the call returns the message, exactly that topic holds its ID from then on,
    and the log is the one that accepted the record.  Topics other than the one named are
    not touched in either case.  If the log panics, no call returns. *)
Theorem publish_write_ahead s n payload now rnd delay later (Hb : broker_inv s)
  (Hf : fresh_for s n [msg_ID (created n payload now rnd s.1)]) :
  let m := created n payload now rnd s.1 in
  match logged m (b_wal s.2) with
  | Ret (Some e) _ => ∃ s', Broker.Publish n payload now rnd s = Ret (inl e) s' ∧
      Broker.PublishFront n payload now rnd s = Ret (inl e) s' ∧
      Broker.PublishDelayed n payload delay now later rnd s = Ret (inl e) s' ∧ refused s s' n m e
  | Ret None _ =>
      (∃ l s', Broker.Publish n payload now rnd s = Ret (inr l) s' ∧ published s s' n m) ∧
      (∃ l s', Broker.PublishFront n payload now rnd s = Ret (inr l) s' ∧ published s s' n m) ∧
      (∃ l s', Broker.PublishDelayed n payload delay now later rnd s = Ret (inr l) s' ∧
               published s s' n m)
  | _ => ∀ r s', Broker.Publish n payload now rnd s ≠ Ret r s' ∧ Broker.PublishFront n payload now rnd s ≠ Ret r s' ∧
      Broker.PublishDelayed n payload delay now later rnd s ≠ Ret r s'
  end.
Proof.
  intros m. destruct (logged m (b_wal s.2)) as [[e|] wal|wal|] eqn:He.
  - by eapply publish_refused.
  - by eapply publish_done.
  - apply publish_fails; [done|]. fold m. by rewrite He.
  - apply publish_fails; [done|]. fold m. by rewrite He.
Qed.

(** A batch does not wait for the log.  Whatever error the log answers to each
    of its records, [PublishBatch] enqueues every payload, in the topic named
    only, and reports the full count. *)
Theorem batch_ignores_log s n payloads (Hb : broker_inv s)
  (Hf : fresh_for s n (batch_ids payloads (globalSeq s.1)))
  (Hlen : Z.of_nat (length payloads) < 2 ^ 63)
  (Hlog : Forall answered (LogPublish <$> batch_messages n payloads s.1)) :
  ∃ s', PublishBatch n payloads s = Ret (Z.of_nat (length payloads)) s' ∧
    owned s' n ≡ₚ batch_ids payloads (globalSeq s.1) ++ owned s n ∧
    (∀ n', n' ≠ n → owned s' n' = owned s n').
Proof.
  pose proof (PublishBatch_run s n payloads Hb Hf Hlen) as Hr. unfold batch_outcome in Hr.
  destruct (run_log_answered _ Hlog (b_wal s.2)) as (errs & wal & E). rewrite E in Hr.
  destruct Hr as (s' & E' & _ & Hp & Ho & _). eauto.
Qed.

(** A broadcast reaches every subscriber with room in its buffer exactly
    once and nobody else, in any order of the subscriber set; it never blocks:
    a full buffer is skipped, and the count returned is the number of
    subscribers reached. *)
Theorem broadcast_exact (s : BS) channel payload subs order
  (Hsub : b_channels s.2 !! channel = Some subs) (Hord : order ≡ₚ elements subs)
  (Hopen : ∀ ch, ch ∈ subs → is_open (b_chans s.2) ch) :
  ∃ s', Broadcast channel payload order s =
      Ret (Z.of_nat (length (filter (λ ch, has_room (b_chans s.2) ch = true) order))) s' ∧
    s'.1 = s.1 ∧ b_topics s'.2 = b_topics s.2 ∧ b_channels s'.2 = b_channels s.2 ∧
    ∀ ch, b_chans s'.2 !! ch =
      if decide (ch ∈ subs) then delivered payload <$> b_chans s.2 !! ch else b_chans s.2 !! ch.
Proof.
  assert (∀ ch, ch ∈ order ↔ ch ∈ subs) as Hin by (intros ch; by rewrite Hord elem_of_elements).
  assert (NoDup order) as Hnd by (rewrite Hord; apply NoDup_elements).
  unfold Broadcast. glue. unfold id. rewrite Hsub. case_bool_decide as He.
  - subst subs. rewrite elements_empty in Hord. apply Permutation_nil_r in Hord as ->.
    exists s. split_and!; [done..|]. intros ch. case_decide as Hc; [by apply elem_of_empty in Hc|done].
  - destruct (broadcast_loop_spec payload order (b_chans s.2) 0 Hnd) as (cs' & E & Hcs').
    { intros ch Hch. by apply Hopen, Hin. }
    rewrite E Z.add_0_l. eexists. split_and!; [reflexivity|done|done|done|].
    intros ch. cbn. rewrite Hcs'. by apply decide_ext.
Qed.

(** A channel may be detached once.  Detaching a subscriber closes its
    channel; while another subscriber keeps the channel name alive, detaching
    the same subscriber again closes a closed channel, which is a panic. *)
Theorem unsubscribe_twice_panics (s : BS) channel subs ch ch'
  (Hsub : b_channels s.2 !! channel = Some subs) (Hin : ch ∈ subs) (Hin' : ch' ∈ subs)
  (Hne : ch' ≠ ch) (Hopen : is_open (b_chans s.2) ch) :
  ∃ s', UnsubscribeChannel channel ch s = Ret tt s' ∧
    b_channels s'.2 !! channel = Some (subs ∖ {[ch]}) ∧ ¬ is_open (b_chans s'.2) ch ∧
    UnsubscribeChannel channel ch s' = Panic.
Proof.
  destruct Hopen as (c & Hc & Hcl).
  assert (subs ∖ {[ch]} ≠ ∅) as He.
  { intros E. apply (not_elem_of_empty (C := gset chan_id) ch'). rewrite -E.
    apply elem_of_difference. by rewrite elem_of_singleton. }
  eexists. split_and!.
  - unfold UnsubscribeChannel. glue. unfold id. rewrite Hsub Hc Hcl bool_decide_false //.
  - apply lookup_insert_eq.
  - intros (c' & Hc' & Hcl'). cbn in Hc'. rewrite lookup_insert_eq in Hc'. by injection Hc' as <-.
  - unfold UnsubscribeChannel. glue. unfold id. cbn. by rewrite !lookup_insert_eq.
Qed.

(** [Close] does not stop publication.  A broker that was closed still
    accepts messages for names it has no topic for: it creates an open topic
    for them. *)
Theorem closed_broker_accepts (σ : Store) n payload now rnd :
  ∃ s1 l s2, Broker.Close [] (σ, @NewBroker W None) = Ret None s1 ∧ b_closed s1.2 = true ∧
    Broker.Publish n payload now rnd s1 = Ret (inr l) s2 ∧
    owned s2 n ≡ₚ [message_id now (u64 (globalSeq σ + 1)) rnd].
Proof.
  set (s1 := (σ, @set_stopped W (NewBroker None))).
  assert (broker_inv s1) as Hb by (by apply (broker_inv_same σ (NewBroker None)), NewBroker_inv).
  destruct (publish_done s1 n payload now rnd 0 0 Hb) with (@None W) as ((l & s2 & E & _ & Hp & _) & _); [|done|].
  { split_and!; [apply NoDup_singleton| |done]. intros n' x _. apply not_elem_of_nil. }
  exists s1, l, s2. by split_and!.
Qed.
End broker.

Abbreviation logged m := (run_call (LogPublish m)).

(** ** Witnesses *)

(** A log that keeps the IDs it was given, and refuses them when [true]. *)
Definition demo_wal_write (m : Message) : prog (bool * list string) error := λ w,
  if w.1 then Ret (Some "disk full") w else Ret None (false, w.2 ++ [msg_ID m]).

Global Instance demo_wal : BrokerWAL (bool * list string) := {|
  WritePublish := demo_wal_write;
  WriteAck := λ _ _ _, mret None;
  wal_Close := mret None
|}.

Lemma demo_answered c : answered (W := bool * list string) c.
Proof.
  intros [[r ids]|]; [|by eexists _, _]. destruct c as [m|t g mid]; [|by eexists _, _].
  unfold run_call, on_wal. cbn. unfold demo_wal_write. cbn. destruct r; by eexists _, _.
Qed.

Definition demo_broker (refuse : bool) : Store * Broker (bool * list string) :=
  (mkStore ∅ 0, NewBroker (Some (refuse, []))).

Lemma demo_fresh refuse ids : NoDup ids → Z.of_nat (length ids) ≤ 50000 → fresh_for (demo_broker refuse) "orders" ids.
Proof.
  intros Hnd Hl. split_and!; [done|intros n' x _; apply not_elem_of_nil|].
  change (owned (demo_broker refuse) "orders") with (@nil string).
  change (b_topics (demo_broker refuse).2 !! "orders") with (@None Topic). simpl length. lia.
Qed.

Definition demo_label : label :=
  mkLabel "orders" ["0-1-"] [] [LogPublish (created "orders" None 0 [] (mkStore ∅ 0))].

Lemma broker_conserves_messages_witness :
  ∃ l s', broker_trace (demo_broker false) [demo_label] s' ∧
    Broker.Publish "orders" None 0 [] (demo_broker false) = Ret (inr l) s' ∧
    came_in "orders" [demo_label] ≡ₚ
    went_out "orders" [demo_label] ++ owned s' "orders".
Proof.
  assert (fresh_for (demo_broker false) "orders" ["0-1-"]) as Hf by (apply demo_fresh; [apply NoDup_singleton|simpl; lia]).
  destruct (publish_done (demo_broker false) "orders" None 0 [] 0 0 (NewBroker_inv _ _) Hf (Some (false, ["0-1-"])) ltac:(by vm_compute))
    as ((l & s' & E & _) & _).
  assert (broker_trace (demo_broker false) [demo_label] s') as Htr.
  { eapply bt_cons; [|apply bt_nil]. exact (bs_publish (demo_broker false) "orders" None 0 [] 0 0 l s' (or_introl E) Hf). }
  exists l, s'. split_and!; [done|done|].
  exact (proj1 (broker_conserves_messages (mkStore ∅ 0) (Some (false, [])) _ _ Htr) "orders").
Defined.

Lemma publish_write_ahead_witness :
  (∃ s', Broker.Publish "orders" None 0 [] (demo_broker true) = Ret (inl "disk full") s') ∧
  (∃ l s', Broker.Publish "orders" None 0 [] (demo_broker false) = Ret (inr l) s' ∧
           b_wal s'.2 = Some (false, ["0-1-"])).
Proof.
  assert (∀ r, fresh_for (demo_broker r) "orders" ["0-1-"]) as Hf
    by (intros r; apply demo_fresh; [apply NoDup_singleton|simpl; lia]).
  split.
  - destruct (publish_write_ahead (demo_broker true) "orders" None 0 [] 0 0 (NewBroker_inv _ _) (Hf true))
      as (s' & E & _). eauto.
  - destruct (publish_write_ahead (demo_broker false) "orders" None 0 [] 0 0 (NewBroker_inv _ _) (Hf false))
      as ((l & s' & E & _ & _ & _ & _ & Hw & _) & _). injection Hw as Hw. exists l, s'. split; [exact E|done].
Defined.

Lemma batch_ignores_log_witness :
  ∃ s', PublishBatch "orders" [(None, 0, []); (None, 1, [])] (demo_broker true) = Ret 2 s' ∧
        owned s' "orders" ≡ₚ ["0-1-"; "0-2-"].
Proof.
  destruct (batch_ignores_log (demo_broker true) "orders" [(None, 0, []); (None, 1, [])])
    as (s' & E & Hp & _).
  - apply NewBroker_inv.
  - apply demo_fresh; [|simpl; lia]. apply (bool_decide_unpack (NoDup _)). by vm_compute.
  - simpl. lia.
  - repeat constructor; apply demo_answered.
  - exists s'. split; [exact E|exact Hp].
Defined.

Definition demo_channels : Store * Broker (bool * list string) :=
  (mkStore ∅ 0, set_chans {["news" := {[1%positive; 2%positive]}]}
     (<[1%positive := mkChan [] false]> {[2%positive := mkChan [[x61]] false]}) (NewBroker None)).

Lemma demo_channels_open ch : ch ∈ ({[1%positive; 2%positive]} : gset positive) →
  is_open (b_chans demo_channels.2) ch.
Proof.
  rewrite elem_of_union !elem_of_singleton. unfold is_open.
  intros [->| ->]; eexists; by (split; [vm_compute; reflexivity|]).
Qed.

Lemma broadcast_exact_witness :
  ∃ s', Broadcast "news" [x62] [2%positive; 1%positive] demo_channels = Ret 2 s' ∧
        b_chans s'.2 !! 2%positive = Some (mkChan [[x61]; [x62]] false).
Proof.
  destruct (broadcast_exact demo_channels "news" [x62] {[1%positive; 2%positive]} [2%positive; 1%positive])
    as (s' & E & _ & _ & _ & Hc).
  - by vm_compute.
  - apply (bool_decide_unpack (_ ≡ₚ _)). by vm_compute.
  - apply demo_channels_open.
  - exists s'. split; [rewrite E; by vm_compute|rewrite Hc; by vm_compute].
Defined.

Lemma unsubscribe_twice_panics_witness :
  ∃ s', UnsubscribeChannel "news" 1 demo_channels = Ret tt s' ∧ UnsubscribeChannel "news" 1 s' = Panic.
Proof.
  destruct (unsubscribe_twice_panics demo_channels "news" {[1%positive; 2%positive]} 1 2)
    as (s' & E & _ & _ & E').
  - by vm_compute.
  - by apply elem_of_union_l, elem_of_singleton.
  - by apply elem_of_union_r, elem_of_singleton.
  - done.
  - apply demo_channels_open. by apply elem_of_union_l, elem_of_singleton.
  - exists s'. split; [exact E|exact E'].
Defined.
