(* ===== verification/Journal.v ===== *)
(** * The log and the channels behind the broker

    The calls of [src/internal/queue/broker.go] reach three things besides the
    topics: the log, the channels and the counters.  Which call touches which is
    said by frames: a part of the broker that neither the topics nor the counters
    are in ([Aside]) is left alone by every call that does not write it, by
    composition along the program ([within]).

    With that, the labels of a trace say what the log was given ([trace_logged]):
    whatever sequence of calls a broker served, its log is the one that got exactly
    the calls of the labels, in their order, and if it refused none the messages
    that came into the topics are those it was given. *)

From S2P Require Import Prelude GoText Message RingBuffer TimingWheel DeadLetter ConsumerGroup.
From S2P Require Import Topic Custody TopicSafety Broker BrokerSafety.

Section frames.
Context {W : Type} `{BrokerWAL W}.

Abbreviation BS := (Store * Broker W)%type.

(** A part of the broker apart from topics and counters, and from the log. *)
Class Aside {X} (f : Broker W → X) : Prop := {
  aside_topics : ∀ ts b, f (set_topics ts b) = f b;
  aside_count : ∀ p c a n b, f (count p c a n b) = f b
}.

Class OffLog {X} (f : Broker W → X) : Prop := off_log : ∀ wal b, f (with_wal wal b) = f b.

Global Instance channels_aside : Aside b_channels.
Proof. by split. Qed.

Global Instance channels_off_log : OffLog b_channels.
Proof. by intros w b. Qed.

Global Instance wal_aside : Aside b_wal.
Proof. by split. Qed.

Section calls.
Context {X : Type} (f : Broker W → X) `{Hf : !Aside f}.

(** A program that leaves [f] alone. *)
Abbreviation spares m := (within (on (λ s : BS, f s.2) eq) m).

Lemma spares_topic {A} n (m : prog TS A) : spares (zoom (lens_topic n) m).
Proof using Hf.
  apply (within_zoom _ _ (λ _ _, True)); [|apply within_true]. intros s t _. unfold on. simpl. by rewrite aside_topics.
Qed.

Lemma spares_store {A} (m : prog Store A) : spares (zoom lens_fst m).
Proof. by apply (within_zoom _ _ (λ _ _, True)); [|apply within_true]. Qed.

Lemma spares_count p c a n : spares (modify lens_snd (count p c a n)).
Proof using Hf. apply within_modify. intros s. unfold on. simpl. by rewrite aside_count. Qed.

Lemma spares_topics g : spares (modify lens_snd (λ b, set_topics (g b) b)).
Proof using Hf. apply within_modify. intros s. unfold on. simpl. by rewrite aside_topics. Qed.

Hint Resolve spares_topic spares_store spares_count : within.

Lemma spares_GetOrCreateTopic n : spares (GetOrCreateTopic n).
Proof using Hf.
  unfold GetOrCreateTopic. repeat within_step. by apply (spares_topics (λ _, _)).
Qed.

Hint Resolve spares_GetOrCreateTopic : within.

Lemma spares_Consume n timeout t0 t1 : spares (Broker.Consume n timeout t0 t1).
Proof using Hf. unfold Broker.Consume, GetTopic. repeat within_step. Qed.

Lemma spares_ConsumeGroup n g c timeout t0 t1 now : spares (Broker.ConsumeGroup n g c timeout t0 t1 now).
Proof using Hf. unfold Broker.ConsumeGroup. repeat within_step. Qed.

Lemma spares_Nack n g mid reason now : spares (Broker.Nack n g mid reason now).
Proof using Hf. unfold Broker.Nack, GetTopic. repeat within_step. Qed.

Lemma spares_ReplayDLQ n mid now : spares (ReplayDLQ n mid now).
Proof using Hf. unfold ReplayDLQ, GetTopic. repeat within_step. Qed.

Lemma spares_sweepAll order now failedAt : spares (sweepAllTimeouts order now failedAt).
Proof using Hf. induction order as [|[n gs] order IH]; cbn [sweepAllTimeouts]; repeat within_step. Qed.

Lemma spares_Stats order uptime : spares (Broker.Stats order uptime).
Proof using Hf.
  unfold Broker.Stats. apply within_bind; [exact _| |intros; repeat within_step].
  generalize (@nil TopicStats) 0. induction order as [|n order IH]; intros acc k; cbn [stats_loop]; repeat within_step.
Qed.

(** The calls that write the log. *)
Section logging.
Context `{Hw : !OffLog f}.

Lemma spares_wal {A} (p : prog (option W) A) : spares (zoom lens_wal p).
Proof using Hw.
  apply (within_zoom _ _ (λ _ _, True)); [|apply within_true]. intros s wal _. unfold on. simpl. by rewrite off_log.
Qed.

Hint Resolve spares_wal : within.

Lemma spares_log_publish msg : spares (log_publish msg).
Proof using Hf Hw. unfold log_publish. repeat within_step. Qed.

Hint Resolve spares_log_publish : within.

Lemma spares_Publish n payload now rnd : spares (Broker.Publish n payload now rnd).
Proof using Hf Hw. unfold Broker.Publish. repeat within_step. Qed.

Lemma spares_PublishFront n payload now rnd : spares (Broker.PublishFront n payload now rnd).
Proof using Hf Hw. unfold Broker.PublishFront. repeat within_step. Qed.

Lemma spares_PublishDelayed n payload delay now later rnd :
  spares (Broker.PublishDelayed n payload delay now later rnd).
Proof using Hf Hw. unfold Broker.PublishDelayed. repeat within_step. Qed.

Lemma spares_PublishBatch n payloads : spares (PublishBatch n payloads).
Proof using Hf Hw.
  assert (∀ ps k, spares (publish_batch n ps k)) as Hb.
  { induction ps as [|[[payload now] rnd] ps IH]; intros k; cbn [publish_batch]; repeat within_step. }
  unfold PublishBatch. repeat within_step.
Qed.

Lemma spares_Ack n g mid : spares (Broker.Ack n g mid).
Proof using Hf Hw. unfold Broker.Ack, GetTopic. repeat within_step. Qed.
End logging.
End calls.

(** [Broadcast] writes the buffers of the channels, not who is subscribed. *)
Lemma spares_Broadcast ch payload order : within (on (λ s : BS, b_channels s.2) eq) (Broadcast ch payload order).
Proof.
  intros s. unfold Broadcast. glue. unfold id, on. destruct (_ !! _); [|done]. case_bool_decide; [done|].
  by destruct (broadcast_loop _ _ _ _).
Qed.
End frames.

#[export] Hint Resolve spares_topic spares_store spares_count spares_GetOrCreateTopic spares_Consume
  spares_ConsumeGroup spares_Nack spares_ReplayDLQ spares_sweepAll spares_Stats spares_wal
  spares_log_publish spares_Publish spares_PublishFront spares_PublishDelayed spares_PublishBatch
  spares_Ack spares_Broadcast : within.

(** ** What the log is given *)

Definition log_messages (calls : list log_call) : list Message :=
  omap (λ c, match c with LogPublish m => Some m | LogAck _ _ _ => None end) calls.

Definition logs (lbs : list label) : list log_call := lbs ≫= lb_log.

Lemma went_out_app n lbs1 lbs2 : went_out n (lbs1 ++ lbs2) = went_out n lbs1 ++ went_out n lbs2.
Proof. apply bind_app. Qed.

Lemma came_in_app n lbs1 lbs2 : came_in n (lbs1 ++ lbs2) = came_in n lbs1 ++ came_in n lbs2.
Proof. apply bind_app. Qed.

Lemma log_messages_publish ms : log_messages (LogPublish <$> ms) = ms.
Proof. unfold log_messages. induction ms as [|m ms IH]; csimpl; [done|by rewrite IH]. Qed.

Section journal.
Context {W : Type} `{BrokerWAL W}.

Abbreviation BS := (Store * Broker W)%type.

Lemma Ack_logged n g mid (s : BS) b s' :
  Broker.Ack n g mid s = Ret b s' →
  ∃ errs, run_log (if b then [LogAck n g mid] else []) (b_wal s.2) = Ret errs (b_wal s'.2).
Proof.
  unfold Broker.Ack. rewrite (bind_ret _ _ _ _ _ (GetTopic_run s n)).
  case_bool_decide; cbn [negb]; [|intros [= <- <-]; by exists []]. unfold mbind at 1, prog_bind at 1, zoom at 1.
  destruct (Topic.Ack g mid (view (lens_topic n) s)) as [[] t|t|]; [|intros [= <- <-]; by exists []|done|done].
  cbn [run_log]. unfold run_call. unfold modify, zoom, mbind, prog_bind. cbn.
  destruct (on_wal (WriteAck n g mid) (b_wal s.2)) as [e wal|wal|] eqn:E; [|done|done]. intros [= <- <-].
  exists [e]. cbn. unfold mbind, prog_bind, run_call. by rewrite E.
Qed.

(** What a step gives to the log: its messages go to one topic, and enter it unless
    the log refuses. *)
Definition logs_step (s : BS) (lb : label) (s' : BS) : Prop :=
  Forall (λ m, retryable m ∧ msg_Topic m = lb_topic lb) (log_messages (lb_log lb)) ∧
  ∃ errs, run_log (lb_log lb) (b_wal s.2) = Ret errs (b_wal s'.2) ∧
    (Forall (eq None) errs → lb_in lb = msg_ID <$> log_messages (lb_log lb)).

Lemma silent_logged (s s' : BS) n outs : b_wal s'.2 = b_wal s.2 → logs_step s (mkLabel n [] outs []) s'.
Proof. intros E. split; [by constructor|]. exists []. by rewrite -E. Qed.

(** A call that leaves the log alone. *)
Lemma spares_logged {A} (m : prog BS A) s s' n outs :
  within (on (λ s : BS, b_wal s.2) eq) m → (∃ a, m s = Ret a s') ∨ m s = Block s' → logs_step s (mkLabel n [] outs []) s'.
Proof.
  intros Hm [[a E]|E]; apply silent_logged; symmetry.
  - exact (within_returned _ _ _ _ _ Hm E).
  - exact (within_parked _ _ _ _ Hm E).
Qed.

Lemma published_logged (s : BS) n payload now rnd delay later r s' ins :
  publishes n payload now rnd delay later s r s' → ∀ err,
  logged (created n payload now rnd s.1) (b_wal s.2) = Ret err (b_wal s'.2) →
  (err = None → ins = [msg_ID (created n payload now rnd s.1)]) →
  logs_step s (mkLabel n ins [] [LogPublish (created n payload now rnd s.1)]) s'.
Proof.
  intros Hp err He Hins. split.
  - constructor; [split; [unfold retryable; simpl; lia|done]|done].
  - exists [err]. split; [|intros [Hn _]%Forall_cons; by apply Hins].
    cbn [lb_log run_log]. by rewrite (bind_ret _ _ _ _ _ He).
Qed.

Lemma batch_messages_facts n payloads : ∀ σ,
  Forall (λ m, retryable m ∧ msg_Topic m = n) (batch_messages n payloads σ).
Proof.
  induction payloads as [|[[payload now] rnd] ps IH]; intros σ; cbn [batch_messages]; constructor; [|done].
  split; [unfold retryable; simpl; lia|done].
Qed.

Lemma step_logged s lb s' : broker_inv s → broker_step s lb s' → logs_step s lb s'.
Proof.
  intros Hb Hs. destruct Hs as [s n payload now rnd delay later l s' Hp Hf|
    s n payload now rnd delay later e wal s' Hp He|s n payloads k s' E Hl Hf|s n timeout t0 t1 l m s' E Hm|
    s n timeout t0 t1 s' E|s n g c timeout t0 t1 now s' E|s n g mid b s' E|s n g mid reason now b s' E|
    s n mid now r s' E|s n t k s' Ht E|s n t s' Ht E|s order now failedAt s' Hex Hnd E|s n s' E|s n t g timeout s' Ht E|s ch payload order k s' E|
    s ch c s' E|s ch c s' E|s c x s' E].
  - destruct (publishes_published _ _ _ _ _ _ _ _ _ Hb Hp Hf) as (_ & _ & _ & _ & Hw & _).
    by apply (published_logged _ _ _ _ _ _ _ _ _ _ Hp None).
  - destruct (publish_refused s n payload now rnd delay later e wal Hb He) as (s2 & E1 & E2 & E3 & Hr).
    assert (s' = s2) as -> by (destruct Hp as [E|[E|E]]; congruence). destruct Hr as (_ & _ & _ & Hw & _).
    by apply (published_logged _ _ _ _ _ _ _ _ _ _ Hp (Some e)).
  - destruct (PublishBatch_returned s n payloads k s' Hb Hf Hl E) as (_ & _ & _ & _ & errs & Hw).
    split; cbn [lb_log lb_topic lb_in]; rewrite log_messages_publish; [apply batch_messages_facts|].
    exists errs. by rewrite batch_messages_ids.
  - eapply spares_logged; [|by eauto]. eauto with within typeclass_instances.
  - eapply spares_logged; [|destruct E; eauto]. eauto with within typeclass_instances.
  - eapply spares_logged; [|exact E]. eauto with within typeclass_instances.
  - destruct (Ack_logged _ _ _ _ _ _ E) as [errs Hw]. split; [by destruct b; constructor|].
    exists errs. by destruct b.
  - eapply spares_logged; [|by eauto]. eauto with within typeclass_instances.
  - eapply spares_logged; [|by eauto]. eauto with within typeclass_instances.
  - eapply spares_logged; [|by eauto]. eauto with within typeclass_instances.
  - eapply spares_logged; [|by eauto]. eauto with within typeclass_instances.
  - eapply spares_logged; [|by eauto]. eauto with within typeclass_instances.
  - eapply spares_logged; [|by eauto]. eauto with within typeclass_instances.
  - eapply spares_logged; [|by eauto]. eauto with within typeclass_instances.
  - eapply silent_logged, chan_call_frame. unfold chan_call. eauto 8.
  - eapply silent_logged, chan_call_frame. unfold chan_call. eauto 8.
  - eapply silent_logged, chan_call_frame. unfold chan_call. eauto 8.
  - eapply silent_logged, chan_call_frame. unfold chan_call. eauto 8.
Qed.

Lemma run_log_app calls1 calls2 (wal : option W) errs1 wal1 errs2 wal2 :
  run_log calls1 wal = Ret errs1 wal1 → run_log calls2 wal1 = Ret errs2 wal2 →
  run_log (calls1 ++ calls2) wal = Ret (errs1 ++ errs2) wal2.
Proof.
  revert wal errs1 wal1. induction calls1 as [|c calls1 IH]; intros wal errs1 wal1 E1 E2; [by injection E1 as <- <-|].
  cbn [run_log app] in *. unfold mbind, prog_bind in *. destruct (run_call c wal) as [e w|w|]; [|done|done].
  destruct (run_log calls1 w) as [es w1|w1|] eqn:E; [|done|done]. injection E1 as <- <-. by rewrite (IH _ _ _ E E2).
Qed.

(** The IDs of the messages of topic [n] given to the log. *)
Abbreviation logged_ids n calls := (msg_ID <$> filter (λ m, msg_Topic m = n) (log_messages calls)).

Lemma label_ids lb n :
  Forall (λ m, retryable m ∧ msg_Topic m = lb_topic lb) (log_messages (lb_log lb)) →
  lb_in lb = msg_ID <$> log_messages (lb_log lb) →
  (if decide (lb_topic lb = n) then lb_in lb else []) = logged_ids n (lb_log lb).
Proof.
  intros Htop ->. case_decide as Hn.
  - induction Htop as [|m ms [_ Hm] _ IH]; [done|]. rewrite filter_cons_True; [by rewrite Hm|]. cbn [fmap list_fmap]. by f_equal.
  - induction Htop as [|m ms [_ Hm] _ IH]; [done|]. by rewrite filter_cons_False; [rewrite Hm|].
Qed.

(** The log of a broker after any calls is the one that got the calls of the labels;
    a log that refused nothing was given exactly the messages that came in. *)
Lemma trace_logged s lbs s' :
  broker_trace s lbs s' → broker_inv s →
  Forall retryable (log_messages (logs lbs)) ∧
  ∃ errs, run_log (logs lbs) (b_wal s.2) = Ret errs (b_wal s'.2) ∧
    (Forall (eq None) errs → ∀ n, came_in n lbs = logged_ids n (logs lbs)).
Proof.
  induction 1 as [s|s lb s1 lbs s2 Hs _ IH]; intros Hb; [by split; [constructor|exists []]|].
  destruct (step_logged s lb s1 Hb Hs) as (Htop & errs1 & E1 & Hin1).
  destruct (IH (proj1 (step_follows s lb s1 Hb Hs))) as (Hret2 & errs2 & E2 & Hin2). unfold logs, log_messages in *.
  rewrite bind_cons omap_app. split; [apply Forall_app; split; [|done]|].
  - eapply Forall_impl; [exact Htop|]. by intros m [? _].
  - exists (errs1 ++ errs2). split; [by eapply run_log_app|]. intros [H1 H2]%Forall_app n.
    unfold came_in. rewrite bind_cons filter_app fmap_app. rewrite (label_ids lb n Htop (Hin1 H1)). f_equal. by apply Hin2.
Qed.
End journal.
