(* ===== verification/Encoding.v ===== *)
(** * Text encodings of the Go standard library

    What [encoding/json] uses of [unicode/utf8] and [encoding/base64]: the
    length of a UTF-8 sequence, its replacement when it is invalid, the
    encoding of a code point; base64 with the standard alphabet and padding. *)

From S2P Require Import Prelude GoText.

(** ** UTF-8 *)

Definition between (lo hi : Z) (b : byte) : bool := (lo <=? byteZ b) && (byteZ b <=? hi).

(** [utf8.DecodeRune]: the length of the sequence [s] starts with, [None] for
    [(RuneError, 1)]. *)
Definition rune_len (s : bytes) : option nat :=
  match s with
  | [] => None
  | a :: s1 =>
      if byteZ a <? 0x80 then Some 1%nat else
      match s1 with
      | [] => None
      | b :: s2 =>
          if between 0xC2 0xDF a then if between 0x80 0xBF b then Some 2%nat else None else
          match s2 with
          | [] => None
          | c :: s3 =>
              if between 0xE0 0xEF a then
                let lo := if byteZ a =? 0xE0 then 0xA0 else 0x80 in
                let hi := if byteZ a =? 0xED then 0x9F else 0xBF in
                if between lo hi b && between 0x80 0xBF c then Some 3%nat else None
              else
              match s3 with
              | [] => None
              | d :: _ =>
                  let lo := if byteZ a =? 0xF0 then 0x90 else 0x80 in
                  let hi := if byteZ a =? 0xF4 then 0x8F else 0xBF in
                  if between 0xF0 0xF4 a && between lo hi b && between 0x80 0xBF c && between 0x80 0xBF d
                  then Some 4%nat else None
              end
          end
      end
  end.

(** U+FFFD. *)
Definition replacement : bytes := [xef; xbf; xbd].

(** [strings.ToValidUTF8] with U+FFFD for every invalid byte: what a string is
    after it went through JSON. *)
Fixpoint to_valid (fuel : nat) (s : bytes) : bytes :=
  match fuel, s with
  | S f, _ :: _ =>
      match rune_len s with
      | Some n => take n s ++ to_valid f (drop n s)
      | None => replacement ++ to_valid f (drop 1 s)
      end
  | _, _ => []
  end.

Definition sanitize (s : bytes) : bytes := to_valid (length s) s.

Definition valid_utf8 (s : bytes) : Prop := sanitize s = s.

Global Instance valid_utf8_dec s : Decision (valid_utf8 s) := _.

(** [utf8.AppendRune] *)
Definition encode_rune (r : Z) : bytes :=
  let cont k := byte_of_Z (0x80 + r / k mod 64) in
  if r <? 0x80 then [byte_of_Z r] else
  if r <? 0x800 then [byte_of_Z (0xC0 + r / 64); cont 1] else
  if ((0xD800 <=? r) && (r <=? 0xDFFF)) || (0x10FFFF <? r) then replacement else
  if r <? 0x10000 then [byte_of_Z (0xE0 + r / 4096); cont 64; cont 1] else
  [byte_of_Z (0xF0 + r / 262144); cont 4096; cont 64; cont 1].

Lemma rune_len_bound s n : rune_len s = Some n → (1 ≤ n ≤ length s)%nat.
Proof.
  unfold rune_len. intros H. repeat (case_match; try done); simplify_eq; simpl; lia.
Qed.

Lemma rune_len_take s n t : rune_len s = Some n → rune_len (take n s ++ t) = Some n.
Proof.
  intros H. destruct s as [|a s1]; [done|]. cbn [rune_len] in H.
  destruct (byteZ a <? 0x80) eqn:E0; [injection H as <-; simpl; by rewrite E0|].
  destruct s1 as [|b s2]; [done|]. destruct (between 0xC2 0xDF a) eqn:E1.
  { destruct (between 0x80 0xBF b) eqn:E2; [|done]. injection H as <-. simpl. by rewrite E0 E1 E2. }
  destruct s2 as [|c s3]; [done|]. destruct (between 0xE0 0xEF a) eqn:E2.
  { destruct (_ && _) eqn:E3 in H; [|done]. injection H as <-. cbn [take app rune_len]. by rewrite E0 E1 E2 E3. }
  destruct s3 as [|d s4]; [done|]. destruct (_ && _) eqn:E3 in H; [|done]. injection H as <-.
  cbn [take app rune_len]. by rewrite E0 E1 E2 E3.
Qed.

Lemma rune_len_ascii a s : byteZ a < 0x80 → rune_len (a :: s) = Some 1%nat.
Proof. intros H. simpl. by rewrite (proj2 (Z.ltb_lt _ _)). Qed.

Lemma to_valid_more f : ∀ s k, (length s ≤ f)%nat → to_valid (f + k) s = to_valid f s.
Proof.
  induction f as [|f IH]; intros s k Hs.
  { destruct s; [by destruct k|simpl in Hs; lia]. }
  destruct s as [|c s]; [done|]. cbn [to_valid Nat.add].
  destruct (rune_len (c :: s)) as [n|] eqn:E.
  - apply rune_len_bound in E. f_equal. apply IH. rewrite length_drop. cbn [length] in *. lia.
  - f_equal. apply IH. rewrite length_drop. cbn [length] in *. lia.
Qed.

(** One step of [sanitize]. *)
Lemma sanitize_cons c s :
  sanitize (c :: s) =
    match rune_len (c :: s) with
    | Some n => take n (c :: s) ++ sanitize (drop n (c :: s))
    | None => replacement ++ sanitize s
    end.
Proof.
  unfold sanitize at 1. cbn [length to_valid]. destruct (rune_len (c :: s)) as [n|] eqn:E; [|done].
  apply rune_len_bound in E. f_equal. unfold sanitize.
  replace (length s) with (length (drop n (c :: s)) + (n - 1))%nat by (rewrite length_drop; cbn [length] in *; lia).
  by apply to_valid_more.
Qed.

(** ** Base64 *)

Definition base64_alphabet : bytes :=
  str "ABCDEFGHIJKLMNOPQRSTUVWXYZabcdefghijklmnopqrstuvwxyz0123456789+/".

Definition b64_char (d : Z) : byte := nth (Z.to_nat d) base64_alphabet x00.

Definition b64_digit (c : byte) : option Z :=
  if between 65 90 c then Some (byteZ c - 65) else
  if between 97 122 c then Some (byteZ c - 71) else
  if between 48 57 c then Some (byteZ c + 4) else
  if byteZ c =? 43 then Some 62 else
  if byteZ c =? 47 then Some 63 else None.

Definition pad : byte := "="%byte.

Fixpoint b64_encode (p : bytes) : bytes :=
  match p with
  | a :: b :: c :: p' =>
      let v := byteZ a * 65536 + byteZ b * 256 + byteZ c in
      [b64_char (v / 262144); b64_char (v / 4096 mod 64); b64_char (v / 64 mod 64); b64_char (v mod 64)]
        ++ b64_encode p'
  | [a; b] =>
      let v := byteZ a * 65536 + byteZ b * 256 in
      [b64_char (v / 262144); b64_char (v / 4096 mod 64); b64_char (v / 64 mod 64); pad]
  | [a] =>
      let v := byteZ a * 65536 in [b64_char (v / 262144); b64_char (v / 4096 mod 64); pad; pad]
  | [] => []
  end.

(** The quantums of the decoder, line ends already dropped. *)
Fixpoint b64_quads (s : bytes) : option bytes :=
  match s with
  | [] => Some []
  | a :: b :: c :: d :: s' =>
      x ← b64_digit a;
      y ← b64_digit b;
      if decide (c = pad) then
        if decide (d = pad ∧ s' = []) then Some [byte_of_Z (x * 4 + y / 16)] else None
      else
        z ← b64_digit c;
        if decide (d = pad) then
          if decide (s' = []) then Some [byte_of_Z (x * 4 + y / 16); byte_of_Z (y * 16 + z / 4)] else None
        else
          w ← b64_digit d;
          rest ← b64_quads s';
          Some (byte_of_Z (x * 4 + y / 16) :: byte_of_Z (y * 16 + z / 4) :: byte_of_Z (z * 64 + w) :: rest)
  | _ => None
  end.

(** [base64.StdEncoding.Decode]: carriage returns and newlines are ignored. *)
Definition b64_decode (s : bytes) : option bytes :=
  b64_quads (filter (λ c, c ≠ x0d ∧ c ≠ x0a) s).

Lemma b64_digit_char d :
  0 ≤ d < 64 → b64_digit (b64_char d) = Some d ∧ b64_char d ≠ pad ∧ b64_char d ≠ x0d ∧ b64_char d ≠ x0a.
Proof.
  intros Hd.
  assert (∀ k, (k < 64)%nat → b64_digit (b64_char (Z.of_nat k)) = Some (Z.of_nat k) ∧
    b64_char (Z.of_nat k) ≠ pad ∧ b64_char (Z.of_nat k) ≠ x0d ∧ b64_char (Z.of_nat k) ≠ x0a) as Hall.
  { intros k Hk. do 64 (destruct k as [|k]; [by vm_compute|]). lia. }
  specialize (Hall (Z.to_nat d)). rewrite Z2Nat.id in Hall; [lia|]. apply Hall. lia.
Qed.

Lemma byte_of_Z_eq z b : z mod 256 = byteZ b → byte_of_Z z = b.
Proof. intros H. apply byteZ_inj. by rewrite byteZ_byte_of_Z. Qed.

(** Induction on three bytes at a time. *)
Lemma triples_ind (P : bytes → Prop) :
  P [] → (∀ a, P [a]) → (∀ a b, P [a; b]) → (∀ a b c p, P p → P (a :: b :: c :: p)) → ∀ p, P p.
Proof.
  intros H0 H1 H2 H3. fix IH 1. intros [|a [|b [|c p]]]; [done|apply H1|apply H2|apply H3, IH].
Qed.

Lemma b64_quads_encode p : b64_quads (b64_encode p) = Some p.
Proof.
  induction p as [|a|a b|a b c p IH] using triples_ind; [done|..];
    pose proof (byteZ_range a); try pose proof (byteZ_range b); try pose proof (byteZ_range c); cbn [b64_encode app b64_quads].
  - set (v := byteZ a * 65536).
    destruct (b64_digit_char (v / 262144)) as (-> & _); [unfold v; Z.div_mod_to_equations; lia|].
    destruct (b64_digit_char (v / 4096 mod 64)) as (-> & _); [Z.div_mod_to_equations; lia|].
    cbn [mbind option_bind]. destruct (decide (pad = pad)) as [_|[]]; [|done].
    destruct (decide _) as [_|[]]; [|done].
    do 2 f_equal. apply byte_of_Z_eq. unfold v. Z.div_mod_to_equations. lia.
  - set (v := byteZ a * 65536 + byteZ b * 256).
    destruct (b64_digit_char (v / 262144)) as (-> & _); [unfold v; Z.div_mod_to_equations; lia|].
    destruct (b64_digit_char (v / 4096 mod 64)) as (-> & _); [Z.div_mod_to_equations; lia|].
    destruct (b64_digit_char (v / 64 mod 64)) as (-> & Hp & _); [Z.div_mod_to_equations; lia|].
    cbn [mbind option_bind]. destruct (decide _) as [?|_]; [done|].
    destruct (decide (pad = pad)) as [_|[]]; [|done]. destruct (decide _) as [_|[]]; [|done].
    do 2 f_equal; [|f_equal]; apply byte_of_Z_eq; unfold v; Z.div_mod_to_equations; lia.
  - set (v := byteZ a * 65536 + byteZ b * 256 + byteZ c).
    destruct (b64_digit_char (v / 262144)) as (-> & _); [unfold v; Z.div_mod_to_equations; lia|].
    destruct (b64_digit_char (v / 4096 mod 64)) as (-> & _); [Z.div_mod_to_equations; lia|].
    destruct (b64_digit_char (v / 64 mod 64)) as (-> & Hp & _); [Z.div_mod_to_equations; lia|].
    destruct (b64_digit_char (v mod 64)) as (-> & Hp' & _); [Z.div_mod_to_equations; lia|].
    cbn [mbind option_bind]. destruct (decide _) as [?|_]; [done|]. destruct (decide _) as [?|_]; [done|].
    rewrite IH. cbn [mbind option_bind].
    do 2 f_equal; [|f_equal; [|f_equal]]; apply byte_of_Z_eq; unfold v; Z.div_mod_to_equations; lia.
Qed.

Lemma filter_Forall {A} (P : A → Prop) `{∀ x, Decision (P x)} l : Forall P l → filter P l = l.
Proof. induction 1 as [|x l Hx _ IH]; [done|]. by rewrite filter_cons_True // IH. Qed.

(** The encoder writes no line ends. *)
Lemma b64_encode_lines p : Forall (λ c, c ≠ x0d ∧ c ≠ x0a) (b64_encode p).
Proof.
  assert (∀ d, 0 ≤ d < 64 → b64_char d ≠ x0d ∧ b64_char d ≠ x0a) as Hc by (intros; by apply b64_digit_char).
  assert (pad ≠ x0d ∧ pad ≠ x0a) as Hpad by done.
  induction p as [|a|a b|a b c p IH] using triples_ind; cbn [b64_encode app]; [constructor|..];
    pose proof (byteZ_range a); try pose proof (byteZ_range b); try pose proof (byteZ_range c);
    repeat (apply Forall_cons; split); try exact Hpad; try exact IH; try apply Forall_nil; try done;
    apply Hc; Z.div_mod_to_equations; lia.
Qed.

Lemma b64_roundtrip p : b64_decode (b64_encode p) = Some p.
Proof. unfold b64_decode. rewrite filter_Forall; [apply b64_encode_lines|apply b64_quads_encode]. Qed.

(** The alphabet is ASCII. *)
Lemma b64_encode_ascii p : Forall (λ c, byteZ c < 0x80) (b64_encode p).
Proof.
  assert (∀ d, 0 ≤ d < 64 → byteZ (b64_char d) < 0x80) as Hc.
  { intros d Hd. assert (∀ k, (k < 64)%nat → byteZ (b64_char (Z.of_nat k)) < 0x80) as Hall.
    { intros k Hk. do 64 (destruct k as [|k]; [by vm_compute|]). lia. }
    specialize (Hall (Z.to_nat d)). rewrite Z2Nat.id in Hall; [lia|]. apply Hall. lia. }
  assert (byteZ pad < 0x80) as Hpad by by vm_compute.
  induction p as [|a|a b|a b c p IH] using triples_ind; cbn [b64_encode app]; [by apply Forall_nil|..];
    pose proof (byteZ_range a); try pose proof (byteZ_range b); try pose proof (byteZ_range c);
    repeat (apply Forall_cons; split); try exact Hpad; try exact IH; try apply Forall_nil; try done;
    apply Hc; Z.div_mod_to_equations; lia.
Qed.

Lemma sanitize_ascii s : Forall (λ c, byteZ c < 0x80) s → sanitize s = s.
Proof.
  induction 1 as [|c s Hc _ IH]; [done|]. rewrite sanitize_cons rune_len_ascii //. simpl. by rewrite IH.
Qed.

Lemma sanitize_rune s n t : rune_len s = Some n → sanitize (take n s ++ t) = take n s ++ sanitize t.
Proof.
  intros Hn. pose proof (rune_len_bound _ _ Hn) as Hb. pose proof (rune_len_take _ _ t Hn) as Ht.
  destruct (take n s ++ t) as [|c r] eqn:E.
  { apply app_eq_nil in E as [E _]. apply (f_equal length) in E. rewrite length_take in E. simpl in E. lia. }
  rewrite sanitize_cons Ht -E. rewrite take_app_length'; [rewrite length_take; lia|].
  by rewrite drop_app_length'; [rewrite length_take; lia|].
Qed.

(** The result is valid. *)
Lemma sanitize_valid s : valid_utf8 (sanitize s).
Proof.
  unfold valid_utf8. remember (length s) as k eqn:Hk. revert s Hk.
  induction k as [k IH] using lt_wf_ind. intros [|c s] Hk; [done|]. rewrite sanitize_cons.
  destruct (rune_len (c :: s)) as [n|] eqn:E.
  - rewrite (sanitize_rune _ _ _ E). f_equal. apply rune_len_bound in E.
    eapply IH; [|reflexivity]. rewrite length_drop. simpl in *. lia.
  - change replacement with (take 3 replacement) at 1. rewrite (sanitize_rune replacement 3); [done|].
    change (take 3 replacement) with replacement. f_equal. eapply IH; [|reflexivity]. simpl in *. lia.
Qed.

Lemma sanitize_nil s : sanitize s = [] ↔ s = [].
Proof.
  split; [|by intros ->]. destruct s as [|c s]; [done|]. rewrite sanitize_cons.
  destruct (rune_len (c :: s)) as [n|] eqn:E; [|done]. apply rune_len_bound in E. destruct n; [lia|done].
Qed.
