(* ===== verification/Json.v ===== *)
(** * JSON as [encoding/json] writes and reads it

    A value is a tree.  [print_json] is the compact output of [json.Marshal]
    (with its HTML escapes); [parse_json] accepts what [json.Unmarshal]
    accepts: white space, escapes, surrogate pairs, invalid UTF-8 replaced,
    numbers by the grammar, at most 10000 levels of nesting.  Strings are kept
    unquoted in the tree and numbers as their literal. *)

From S2P Require Import Prelude GoText Encoding.

#[local] Set Warnings "-register-all".

Inductive json : Type :=
| JNull
| JBool (b : bool)
| JNum (literal : bytes)
| JStr (s : bytes)
| JArr (elements : list json)
| JObj (members : list (bytes * json)).

(** ** Printing *)

(** The escapes of an ASCII byte; the safe ones stand for themselves. *)
Definition quote_byte (c : byte) : bytes :=
  if decide (c = x22) then str "\" ++ [x22] else
  if decide (c = x5c) then str "\\" else
  if decide (c = x08) then str "\b" else
  if decide (c = x0c) then str "\f" else
  if decide (c = x0a) then str "\n" else
  if decide (c = x0d) then str "\r" else
  if decide (c = x09) then str "\t" else
  if (byteZ c <? 0x20) || bool_decide (c ∈ str "<>&") then
    str "\u00" ++ [hex_digit (byteZ c / 16); hex_digit (byteZ c mod 16)]
  else [c].

Fixpoint quote_go (fuel : nat) (s : bytes) : bytes :=
  match fuel, s with
  | S f, c :: s' =>
      if byteZ c <? 0x80 then quote_byte c ++ quote_go f s' else
      match rune_len s with
      | None => str "\ufffd" ++ quote_go f s'
      | Some n =>
          let r := take n s in
          (if decide (r = [xe2; x80; xa8]) then str "\u2028" else
           if decide (r = [xe2; x80; xa9]) then str "\u2029" else r) ++ quote_go f (drop n s)
      end
  | _, _ => []
  end.

Definition quote (s : bytes) : bytes := x22 :: quote_go (length s) s ++ [x22].

Fixpoint sep_by (parts : list bytes) : bytes :=
  match parts with
  | [] => []
  | [x] => x
  | x :: parts' => x ++ ","%byte :: sep_by parts'
  end.

Fixpoint print_json (v : json) : bytes :=
  match v with
  | JNull => str "null"
  | JBool true => str "true"
  | JBool false => str "false"
  | JNum lit => lit
  | JStr s => quote s
  | JArr vs => "["%byte :: sep_by (map print_json vs) ++ ["]"%byte]
  | JObj ms =>
      "{"%byte :: sep_by (map (λ kv, quote kv.1 ++ ":"%byte :: print_json kv.2) ms) ++ ["}"%byte]
  end.

(** ** Parsing *)

Definition is_ws (c : byte) : bool := bool_decide (c ∈ [x20; x09; x0d; x0a]).

Fixpoint skip_ws (s : bytes) : bytes :=
  match s with
  | c :: s' => if is_ws c then skip_ws s' else s
  | [] => []
  end.

Definition hex_value (c : byte) : option Z :=
  if between 48 57 c then Some (byteZ c - 48) else
  if between 97 102 c then Some (byteZ c - 87) else
  if between 65 70 c then Some (byteZ c - 55) else None.

(** The four digits after [\u]. *)
Definition hex4 (s : bytes) : option (Z * bytes) :=
  match s with
  | a :: b :: c :: d :: s' =>
      w ← hex_value a; x ← hex_value b; y ← hex_value c; z ← hex_value d;
      Some (w * 4096 + x * 256 + y * 16 + z, s')
  | _ => None
  end.

Definition is_surrogate (r : Z) : bool := (0xD800 <=? r) && (r <? 0xE000).

(** [utf16.DecodeRune] of a valid pair. *)
Definition surrogate_pair (r1 r2 : Z) : option Z :=
  if (0xD800 <=? r1) && (r1 <? 0xDC00) && (0xDC00 <=? r2) && (r2 <? 0xE000)
  then Some ((r1 - 0xD800) * 1024 + (r2 - 0xDC00) + 0x10000) else None.

(** The code points of a [\u] escape: what it stands for and what follows. *)
Definition unicode_escape (s : bytes) : option (bytes * bytes) :=
  r ← hex4 s;
  if is_surrogate r.1 then
    match r.2 with
    | c1 :: c2 :: s2 =>
        if decide (c1 = x5c ∧ c2 = "u"%byte) then
          match hex4 s2 with
          | Some (r2, s3) =>
              match surrogate_pair r.1 r2 with
              | Some p => Some (encode_rune p, s3)
              | None => Some (replacement, r.2)
              end
          | None => Some (replacement, r.2)
          end
        else Some (replacement, r.2)
    | _ => Some (replacement, r.2)
    end
  else Some (encode_rune r.1, r.2).

Definition escape_char (c : byte) : option byte :=
  if decide (c = x22) then Some x22 else
  if decide (c = x5c) then Some x5c else
  if decide (c = "/"%byte) then Some "/"%byte else
  if decide (c = "b"%byte) then Some x08 else
  if decide (c = "f"%byte) then Some x0c else
  if decide (c = "n"%byte) then Some x0a else
  if decide (c = "r"%byte) then Some x0d else
  if decide (c = "t"%byte) then Some x09 else None.

(** The rest of a string literal after its opening quote: its value and what
    follows the closing quote. *)
Fixpoint unquote (fuel : nat) (s : bytes) : option (bytes * bytes) :=
  match fuel with
  | O => None
  | S f =>
      let cont (head rest : bytes) :=
        match unquote f rest with Some (t, r) => Some (head ++ t, r) | None => None end in
      match s with
      | [] => None
      | c :: s1 =>
          if decide (c = x22) then Some ([], s1) else
          if decide (c = x5c) then
            match s1 with
            | [] => None
            | e :: s2 =>
                if decide (e = "u"%byte) then
                  match unicode_escape s2 with Some (h, s3) => cont h s3 | None => None end
                else match escape_char e with Some x => cont [x] s2 | None => None end
            end
          else if byteZ c <? 0x20 then None else
          match rune_len s with
          | Some n => cont (take n s) (drop n s)
          | None => cont replacement s1
          end
      end
  end.

Definition parse_string (s : bytes) : option (bytes * bytes) := unquote (S (length s)) s.

Definition digitb (c : byte) : bool := between 48 57 c.

Fixpoint span_digits (s : bytes) : bytes * bytes :=
  match s with
  | c :: s' => if digitb c then let '(ds, r) := span_digits s' in (c :: ds, r) else ([], s)
  | [] => ([], [])
  end.

(** At least one digit. *)
Definition digits1 (s : bytes) : option (bytes * bytes) :=
  match span_digits s with ([], _) => None | r => Some r end.

Definition int_part (s : bytes) : option (bytes * bytes) :=
  match s with
  | c :: s' => if decide (c = "0"%byte) then Some ([c], s') else digits1 s
  | [] => None
  end.

Definition frac_part (s : bytes) : option (bytes * bytes) :=
  match s with
  | c :: s' => if decide (c = "."%byte) then r ← digits1 s'; Some (c :: r.1, r.2) else Some ([], s)
  | [] => Some ([], s)
  end.

Definition exp_part (s : bytes) : option (bytes * bytes) :=
  match s with
  | c :: s' =>
      if decide (c = "e"%byte ∨ c = "E"%byte) then
        match s' with
        | g :: s'' =>
            if decide (g = "+"%byte ∨ g = "-"%byte) then r ← digits1 s''; Some (c :: g :: r.1, r.2)
            else r ← digits1 s'; Some (c :: r.1, r.2)
        | [] => None
        end
      else Some ([], s)
  | [] => Some ([], s)
  end.

Definition parse_number (s : bytes) : option (bytes * bytes) :=
  let '(sign, s0) :=
    match s with c :: s' => if decide (c = "-"%byte) then ([c], s') else ([], s) | [] => ([], s) end in
  i ← int_part s0;
  fr ← frac_part i.2;
  ex ← exp_part fr.2;
  Some (sign ++ i.1 ++ fr.1 ++ ex.1, ex.2).

Definition maxNestingDepth : Z := 10000.

(** [keyword w] reads the word [w]. *)
Definition keyword (w : bytes) (v : json) (s : bytes) : option (json * bytes) :=
  if decide (take (length w) s = w) then Some (v, drop (length w) s) else None.

Fixpoint parse_value (fuel : nat) (depth : Z) (s : bytes) {struct fuel} : option (json * bytes) :=
  match fuel with
  | O => None
  | S f =>
      match skip_ws s with
      | [] => None
      | c :: s1 =>
          if decide (c = x22) then r ← parse_string s1; Some (JStr r.1, r.2) else
          if decide (c = "{"%byte) then
            if maxNestingDepth <=? depth then None else
            match skip_ws s1 with
            | c2 :: s2 =>
                if decide (c2 = "}"%byte) then Some (JObj [], s2)
                else r ← parse_members f (depth + 1) s1; Some (JObj r.1, r.2)
            | [] => None
            end
          else if decide (c = "["%byte) then
            if maxNestingDepth <=? depth then None else
            match skip_ws s1 with
            | c2 :: s2 =>
                if decide (c2 = "]"%byte) then Some (JArr [], s2)
                else r ← parse_elements f (depth + 1) s1; Some (JArr r.1, r.2)
            | [] => None
            end
          else if decide (c = "n"%byte) then keyword (str "null") JNull (c :: s1)
          else if decide (c = "t"%byte) then keyword (str "true") (JBool true) (c :: s1)
          else if decide (c = "f"%byte) then keyword (str "false") (JBool false) (c :: s1)
          else r ← parse_number (c :: s1); Some (JNum r.1, r.2)
      end
  end
with parse_elements (fuel : nat) (depth : Z) (s : bytes) {struct fuel} : option (list json * bytes) :=
  match fuel with
  | O => None
  | S f =>
      v ← parse_value f depth s;
      match skip_ws v.2 with
      | c :: s2 =>
          if decide (c = ","%byte) then r ← parse_elements f depth s2; Some (v.1 :: r.1, r.2) else
          if decide (c = "]"%byte) then Some ([v.1], s2) else None
      | [] => None
      end
  end
with parse_members (fuel : nat) (depth : Z) (s : bytes) {struct fuel}
  : option (list (bytes * json) * bytes) :=
  match fuel with
  | O => None
  | S f =>
      match skip_ws s with
      | q :: s1 =>
          if decide (q = x22) then
            k ← parse_string s1;
            match skip_ws k.2 with
            | c :: s2 =>
                if decide (c = ":"%byte) then
                  v ← parse_value f depth s2;
                  match skip_ws v.2 with
                  | c3 :: s3 =>
                      if decide (c3 = ","%byte) then
                        r ← parse_members f depth s3; Some ((k.1, v.1) :: r.1, r.2) else
                      if decide (c3 = "}"%byte) then Some ([(k.1, v.1)], s3) else None
                  | [] => None
                  end
                else None
            | [] => None
            end
          else None
      | [] => None
      end
  end.

(** The whole input is one value.  Two rounds per byte are enough: of two nested
    calls at least one consumes a byte. *)
Definition parse_json (s : bytes) : option json :=
  match parse_value (S (2 * length s)) 0 s with
  | Some (v, r) => match skip_ws r with [] => Some v | _ => None end
  | None => None
  end.

(** ** Strings survive *)

Lemma quote_byte_spec c rest f :
  byteZ c < 0x80 →
  unquote (S f) (quote_byte c ++ rest) =
    match unquote f rest with Some (t, r) => Some (c :: t, r) | None => None end.
Proof. intros Hc. destruct c; try reflexivity; vm_compute in Hc; discriminate Hc. Qed.

Lemma high_byte c : 0x80 ≤ byteZ c → c ≠ x22 ∧ c ≠ x5c ∧ (byteZ c <? 0x20) = false.
Proof. intros Hc. split_and!; [by intros ->|by intros ->|]. lia. Qed.

(** A rune that is copied. *)
Lemma unquote_rune s n rest f c s' :
  s = c :: s' → 0x80 ≤ byteZ c → rune_len s = Some n →
  unquote (S f) (take n s ++ rest) =
    match unquote f rest with Some (t, r) => Some (take n s ++ t, r) | None => None end.
Proof.
  intros Hs Hc Hn. pose proof (rune_len_bound _ _ Hn) as Hb. pose proof (rune_len_take _ _ rest Hn) as Ht.
  destruct (high_byte c Hc) as (H1 & H2 & H3).
  assert (take n s ++ rest = c :: take (n - 1) s' ++ rest) as E.
  { rewrite Hs. destruct n; [lia|]. simpl. by rewrite Nat.sub_0_r. }
  cbn [unquote]. rewrite E in Ht |- *. rewrite decide_False // decide_False // H3 Ht -E.
  rewrite take_app_length'; [rewrite length_take; lia|]. rewrite drop_app_length'; [rewrite length_take; lia|]. done.
Qed.

Lemma unquote_quote n : ∀ s f rest,
  (length s ≤ n)%nat → (n < f)%nat → unquote f (quote_go n s ++ x22 :: rest) = Some (sanitize s, rest).
Proof.
  induction n as [|n IH]; intros s f rest Hs Hf; (destruct f as [|f]; [lia|]).
  { destruct s; [done|simpl in Hs; lia]. }
  destruct s as [|c s]; [done|]. cbn [quote_go]. rewrite sanitize_cons.
  destruct (Z.ltb_spec (byteZ c) 0x80) as [Hc|Hc].
  - rewrite -app_assoc quote_byte_spec // rune_len_ascii //. rewrite IH; [simpl in Hs; lia|lia|]. done.
  - destruct (rune_len (c :: s)) as [k|] eqn:Hk.
    + pose proof (rune_len_bound _ _ Hk) as Hb.
      assert (length (drop k (c :: s)) ≤ n)%nat as Hd by (rewrite length_drop; simpl in *; lia).
      destruct (decide (take k (c :: s) = [xe2; x80; xa8])) as [->|_].
      { change (unquote (S f) ((str "\u2028" ++ quote_go n (drop k (c :: s))) ++ x22 :: rest)) with
          (match unquote f (quote_go n (drop k (c :: s)) ++ x22 :: rest) with
           | Some (t, r) => Some ([xe2; x80; xa8] ++ t, r) | None => None end).
        rewrite IH //. lia. }
      destruct (decide (take k (c :: s) = [xe2; x80; xa9])) as [->|_].
      { change (unquote (S f) ((str "\u2029" ++ quote_go n (drop k (c :: s))) ++ x22 :: rest)) with
          (match unquote f (quote_go n (drop k (c :: s)) ++ x22 :: rest) with
           | Some (t, r) => Some ([xe2; x80; xa9] ++ t, r) | None => None end).
        rewrite IH //. lia. }
      rewrite -app_assoc (unquote_rune _ k _ _ c s) //. rewrite IH //. lia.
    + change (unquote (S f) ((str "\ufffd" ++ quote_go n s) ++ x22 :: rest)) with
        (match unquote f (quote_go n s ++ x22 :: rest) with
         | Some (t, r) => Some (replacement ++ t, r) | None => None end).
      rewrite IH //; [simpl in Hs; lia|lia].
Qed.

Lemma quote_byte_length c : (1 ≤ length (quote_byte c))%nat.
Proof. unfold quote_byte. repeat (case_match; simpl; try lia). Qed.

Lemma quote_go_length n : ∀ s, (length s ≤ n)%nat → (length s ≤ length (quote_go n s))%nat.
Proof.
  induction n as [|n IH]; intros s Hs; [simpl; lia|]. destruct s as [|c s]; [done|]. cbn [quote_go].
  destruct (byteZ c <? 0x80).
  - rewrite length_app. pose proof (quote_byte_length c). specialize (IH s ltac:(simpl in Hs; lia)). simpl. lia.
  - destruct (rune_len (c :: s)) as [k|] eqn:Hk.
    + pose proof (rune_len_bound _ _ Hk) as Hb.
      assert (length (drop k (c :: s)) ≤ n)%nat as Hd by (rewrite length_drop; cbn [length] in *; lia).
      specialize (IH _ Hd). rewrite length_app. rewrite length_drop in IH.
      assert (k ≤ length (if decide (take k (c :: s) = [xe2; x80; xa8]) then str "\u2028" else
        if decide (take k (c :: s) = [xe2; x80; xa9]) then str "\u2029" else take k (c :: s)))%nat as Hl.
      { case_decide as E; [apply (f_equal length) in E; rewrite length_take in E; simpl in *; lia|].
        case_decide as E'; [apply (f_equal length) in E'; rewrite length_take in E'; simpl in *; lia|].
        rewrite length_take. lia. }
      cbn [length] in *. lia.
    + rewrite length_app. specialize (IH s ltac:(simpl in Hs; lia)). simpl. lia.
Qed.

(** A quoted string is read back, with its invalid bytes replaced. *)
Lemma parse_quote s rest :
  parse_string (quote_go (length s) s ++ x22 :: rest) = Some (sanitize s, rest).
Proof.
  unfold parse_string. apply unquote_quote; [done|]. rewrite length_app.
  pose proof (quote_go_length (length s) s ltac:(done)). lia.
Qed.

(** ** Integers survive *)

(** No leading zero. *)
Lemma dec_go_head f : ∀ n acc, 0 < n → n < 2 ^ Z.of_nat f →
  ∃ d ds, dec_go f n acc = d :: ds ∧ 49 ≤ byteZ d ≤ 57.
Proof.
  induction f as [|f IH]; intros n acc Hn Hf; [simpl in Hf; lia|]. cbn [dec_go].
  destruct (Z.eqb_spec (n / 10) 0) as [Hz|Hz].
  - eexists _, _. split; [done|]. pose proof (Z.mod_pos_bound n 10 ltac:(lia)).
    rewrite byteZ_digit; [lia|]. assert (n mod 10 = n); [|lia]. Z.div_mod_to_equations. lia.
  - apply IH; [Z.div_mod_to_equations; lia|]. rewrite Nat2Z.inj_succ Z.pow_succ_r in Hf; [lia|].
    apply Z.div_lt_upper_bound; lia.
Qed.

Lemma FormatUint_head n : 0 < n → ∃ d ds, FormatUint n = d :: ds ∧ 49 ≤ byteZ d ≤ 57.
Proof.
  intros Hn. apply dec_go_head; [done|]. rewrite Nat2Z.inj_succ Z2Nat.id; [apply Z.log2_nonneg|].
  by apply Z.log2_spec.
Qed.

(** What may follow a number without being part of it. *)
Definition ends_number (rest : bytes) : Prop :=
  match rest with
  | [] => True
  | c :: _ => digitb c = false ∧ c ≠ "."%byte ∧ c ≠ "e"%byte ∧ c ≠ "E"%byte
  end.

Lemma span_digits_app ds rest :
  Forall is_digit ds → ends_number rest → span_digits (ds ++ rest) = (ds, rest).
Proof.
  induction 1 as [|c ds Hc _ IH]; intros Hr; simpl.
  - destruct rest as [|c rest]; [done|]. simpl. by destruct Hr as [-> _].
  - unfold digitb, between. unfold is_digit in Hc. rewrite !(proj2 (Z.leb_le _ _)); [lia|lia|].
    simpl. by rewrite IH.
Qed.

Lemma number_tail rest : ends_number rest → frac_part rest = Some ([], rest) ∧ exp_part rest = Some ([], rest).
Proof.
  destruct rest as [|c rest]; [done|]. intros (_ & H1 & H2 & H3). unfold frac_part, exp_part.
  destruct (decide (c = "."%byte)); [done|]. destruct (decide _) as [[?|?]|_]; [done|done|]. done.
Qed.

Lemma int_part_Format n rest : 0 ≤ n → ends_number rest → int_part (FormatUint n ++ rest) = Some (FormatUint n, rest).
Proof.
  intros Hn Hr. destruct (decide (n = 0)) as [->|Hnz]; [done|].
  destruct (FormatUint_head n ltac:(lia)) as (d & ds & E & Hd). destruct (FormatUint_spec n Hn) as (Hf & _ & _).
  unfold int_part. rewrite {1}E. cbn [app]. destruct (decide (d = "0"%byte)) as [->|_].
  { change (byteZ "0"%byte) with 48 in Hd. lia. }
  unfold digits1. rewrite span_digits_app //. by rewrite E.
Qed.

Lemma FormatUint_first n : 0 ≤ n → ∃ d ds, FormatUint n = d :: ds ∧ 48 ≤ byteZ d ≤ 57.
Proof.
  intros Hn. destruct (FormatUint_spec n Hn) as (Hf & Hne & _). destruct (FormatUint n) as [|d ds]; [done|].
  apply Forall_cons in Hf as [Hd _]. eauto.
Qed.

Lemma parse_number_Format z rest : ends_number rest → parse_number (FormatInt z ++ rest) = Some (FormatInt z, rest).
Proof.
  intros Hr. destruct (number_tail rest Hr) as [Hfr Hex]. unfold parse_number, FormatInt.
  destruct (Z.ltb_spec z 0) as [Hz|Hz].
  - cbn [app]. destruct (decide _) as [_|[]]; [|done]. rewrite int_part_Format; [lia|done|]. cbn [mbind option_bind fst snd].
    rewrite Hfr. cbn [mbind option_bind fst snd]. rewrite Hex. cbn [mbind option_bind fst snd]. by rewrite !app_nil_r.
  - destruct (FormatUint_first z Hz) as (d & ds & E & Hd).
    assert ((match FormatUint z ++ rest with
      | c :: s' => if decide (c = "-"%byte) then ([c], s') else ([], FormatUint z ++ rest)
      | [] => ([], FormatUint z ++ rest) end) = ([], FormatUint z ++ rest)) as ->.
    { rewrite E. cbn [app]. destruct (decide _) as [->|_]; [change (byteZ "-"%byte) with 45 in Hd; lia|done]. }
    rewrite int_part_Format //. cbn [mbind option_bind fst snd].
    rewrite Hfr. cbn [mbind option_bind fst snd]. rewrite Hex. cbn [mbind option_bind fst snd]. by rewrite !app_nil_r.
Qed.

(** ** Values survive *)

(** Values whose numbers are integers. *)
Fixpoint well_formed (v : json) : Prop :=
  match v with
  | JNull | JBool _ | JStr _ => True
  | JNum lit => ∃ z, lit = FormatInt z
  | JArr vs => foldr (λ v P, well_formed v ∧ P) True vs
  | JObj ms => foldr (λ kv P, well_formed kv.2 ∧ P) True ms
  end.

(** The value with every string made valid UTF-8. *)
Fixpoint clean (v : json) : json :=
  match v with
  | JStr s => JStr (sanitize s)
  | JArr vs => JArr (map clean vs)
  | JObj ms => JObj (map (λ kv, (sanitize kv.1, clean kv.2)) ms)
  | _ => v
  end.

Definition clean_member (kv : bytes * json) : bytes * json := (sanitize kv.1, clean kv.2).

Fixpoint nesting (v : json) : Z :=
  match v with
  | JArr vs => 1 + foldr (λ v d, Z.max (nesting v) d) 0 vs
  | JObj ms => 1 + foldr (λ kv d, Z.max (nesting kv.2) d) 0 ms
  | _ => 0
  end.

(** A printed value starts with a byte that is neither white space nor a
    closing bracket. *)
Definition starts_value (c : byte) : Prop :=
  is_ws c = false ∧ c ≠ "]"%byte ∧ c ≠ "}"%byte.

Lemma print_starts v : well_formed v → ∃ c s, print_json v = c :: s ∧ starts_value c.
Proof.
  unfold starts_value. destruct v as [|b|lit|s|vs|ms]; simpl.
  - intros _. by eexists _, _.
  - intros _. destruct b; by eexists _, _.
  - intros [z ->]. unfold FormatInt. destruct (Z.ltb_spec z 0); [by eexists _, _|].
    destruct (FormatUint_first z ltac:(done)) as (d & ds & -> & Hd). eexists _, _. split; [done|].
    destruct d; try done; exfalso; vm_compute in Hd; by destruct Hd.
  - intros _. by eexists _, _.
  - intros _. by eexists _, _.
  - intros _. by eexists _, _.
Qed.

Lemma skip_ws_start c s : is_ws c = false → skip_ws (c :: s) = c :: s.
Proof. intros H. simpl. by rewrite H. Qed.

Lemma json_nested_ind (P : json → Prop) :
  P JNull → (∀ b, P (JBool b)) → (∀ lit, P (JNum lit)) → (∀ s, P (JStr s)) →
  (∀ vs, Forall P vs → P (JArr vs)) → (∀ ms, Forall (λ kv, P kv.2) ms → P (JObj ms)) → ∀ v, P v.
Proof.
  intros H1 H2 H3 H4 H5 H6. fix IH 1. intros [|b|lit|s|vs|ms]; [done|done|done|done|apply H5|apply H6].
  - induction vs as [|v vs IHvs]; constructor; [apply IH|exact IHvs].
  - induction ms as [|[k v] ms IHms]; constructor; [apply IH|exact IHms].
Qed.

(** What is shown of a value, for any input that may follow it. *)
Definition survives (v : json) : Prop := ∀ fuel d rest,
  well_formed v → d + nesting v ≤ maxNestingDepth → (2 * length (print_json v) < fuel)%nat →
  ends_number rest → parse_value fuel d (print_json v ++ rest) = Some (clean v, rest).

Definition print_member (kv : bytes * json) : bytes := quote kv.1 ++ ":"%byte :: print_json kv.2.

Definition element_ok (d : Z) (v : json) : Prop := well_formed v ∧ d + nesting v ≤ maxNestingDepth.

Lemma closing_ends rest : ends_number ("]"%byte :: rest) ∧ ends_number ("}"%byte :: rest) ∧ ends_number (","%byte :: rest).
Proof. by split_and!. Qed.

Lemma parse_elements_print vs : ∀ fuel d rest,
  vs ≠ [] → Forall survives vs → Forall (element_ok d) vs →
  (2 * length (sep_by (map print_json vs)) + 1 < fuel)%nat →
  parse_elements fuel d (sep_by (map print_json vs) ++ "]"%byte :: rest) = Some (map clean vs, rest).
Proof.
  induction vs as [|v vs IH]; intros fuel d rest Hne Hs Hok Hf; [done|].
  apply Forall_cons in Hs as [Hv Hs]. apply Forall_cons in Hok as [[Hw Hd] Hok].
  destruct fuel as [|f]; [lia|]. cbn [parse_elements]. destruct vs as [|v2 vs].
  - cbn [map sep_by] in Hf |- *. rewrite Hv //. lia.
  - change (sep_by (map print_json (v :: v2 :: vs))) with
      (print_json v ++ ","%byte :: sep_by (map print_json (v2 :: vs))) in Hf |- *.
    rewrite length_app in Hf. cbn [length] in Hf. rewrite -app_assoc. rewrite Hv //; [lia|].
    cbn [mbind option_bind fst snd app]. rewrite skip_ws_start //.
    destruct (decide (","%byte = ","%byte)) as [_|[]]; [|done]. rewrite IH //. lia.
Qed.

Lemma parse_members_print ms : ∀ fuel d rest,
  ms ≠ [] → Forall (λ kv, survives kv.2) ms → Forall (λ kv, element_ok d kv.2) ms →
  (2 * length (sep_by (map print_member ms)) < fuel)%nat →
  parse_members fuel d (sep_by (map print_member ms) ++ "}"%byte :: rest) = Some (map clean_member ms, rest).
Proof.
  induction ms as [|[k v] ms IH]; intros fuel d rest Hne Hs Hok Hf; [done|].
  apply Forall_cons in Hs as [Hv Hs]. apply Forall_cons in Hok as [(Hw & Hd) Hok].
  destruct fuel as [|f]; [lia|]. cbn [fst snd] in *.
  assert (∀ tail, ends_number tail → (2 * length (print_member (k, v)) < S f)%nat →
    parse_members (S f) d (print_member (k, v) ++ tail) =
      match skip_ws tail with
      | c3 :: s3 => if decide (c3 = ","%byte) then r ← parse_members f d s3; Some (clean_member (k, v) :: r.1, r.2) else
                    if decide (c3 = "}"%byte) then Some ([clean_member (k, v)], s3) else None
      | [] => None
      end) as Hstep.
  { intros tail Ht Hl. unfold print_member, quote in Hl |- *. cbn [fst snd app length] in Hl |- *.
    rewrite !length_app in Hl. cbn [length] in Hl. cbn [parse_members]. rewrite skip_ws_start //.
    destruct (decide (x22 = x22)) as [_|[]]; [|done]. rewrite -!app_assoc. cbn [app].
    rewrite parse_quote. cbn [mbind option_bind fst snd]. rewrite skip_ws_start //.
    destruct (decide (":"%byte = ":"%byte)) as [_|[]]; [|done]. rewrite Hv //; lia. }
  destruct ms as [|kv2 ms].
  - cbn [map sep_by] in Hf |- *. rewrite Hstep //.
  - change (sep_by (map print_member ((k, v) :: kv2 :: ms))) with
      (print_member (k, v) ++ ","%byte :: sep_by (map print_member (kv2 :: ms))) in Hf |- *.
    rewrite length_app in Hf. cbn [length] in Hf. rewrite -app_assoc. rewrite Hstep //; [lia|].
    cbn [app]. rewrite skip_ws_start //. destruct (decide (","%byte = ","%byte)) as [_|[]]; [|done].
    rewrite IH //. lia.
Qed.

Lemma elements_ok d vs :
  foldr (λ v P, well_formed v ∧ P) True vs → d + foldr (λ v k, Z.max (nesting v) k) 0 vs ≤ maxNestingDepth →
  Forall (element_ok d) vs.
Proof.
  induction vs as [|v vs IH]; intros Hw Hd; [done|]. simpl in *. destruct Hw as [Hv Hw].
  apply Forall_cons. split; [split; [done|lia]|apply IH; [done|lia]].
Qed.

Lemma members_ok d ms :
  foldr (λ kv P, well_formed kv.2 ∧ P) True ms →
  d + foldr (λ kv k, Z.max (nesting kv.2) k) 0 ms ≤ maxNestingDepth →
  Forall (λ kv : bytes * json, element_ok d kv.2) ms.
Proof.
  induction ms as [|kv ms IH]; intros Hw Hd; [by apply Forall_nil|]. simpl in *. destruct Hw as [Hv Hw].
  apply Forall_cons. split; [split; [done|lia]|apply IH; [done|lia]].
Qed.

Lemma sep_by_start (p : bytes → Prop) x parts tail : p x → (∀ y, p y → ∃ c s, y = c :: s ∧ starts_value c) →
  ∃ c s, sep_by (x :: parts) ++ tail = c :: s ∧ starts_value c.
Proof.
  intros Hx Hp. destruct (Hp x Hx) as (c & s & -> & Hc). destruct parts as [|y parts]; eexists _, _; split; done.
Qed.

Lemma foldr_max_nonneg {A} (f : A → Z) l : 0 ≤ foldr (λ v d, Z.max (f v) d) 0 l.
Proof. induction l; simpl; lia. Qed.

Lemma parse_scalar v c s fuel d rest :
  print_json v = c :: s → match v with JArr _ | JObj _ => False | _ => True end →
  well_formed v → ends_number rest → (0 < fuel)%nat →
  parse_value fuel d (print_json v ++ rest) = Some (clean v, rest).
Proof.
  intros Hp Hv Hw Hr Hf. destruct fuel as [|f]; [lia|]. destruct v as [|b|lit|x|vs|ms]; [..|done|done].
  - done.
  - by destruct b.
  - destruct Hw as [z ->]. destruct (print_starts (JNum (FormatInt z))) as (c' & s' & E & Hc & _); [by exists z|].
    cbn [print_json] in E |- *. cbn [parse_value].
    assert (skip_ws (FormatInt z ++ rest) = FormatInt z ++ rest) as -> by (rewrite E; by apply skip_ws_start).
    pose proof (parse_number_Format z rest Hr) as En.
    assert (c' = "-"%byte ∨ 48 ≤ byteZ c' ≤ 57) as Hd.
    { unfold FormatInt in E. destruct (Z.ltb_spec z 0); [left; by injection E|right].
      destruct (FormatUint_first z ltac:(done)) as (d' & ds & E' & Hd). rewrite E' in E. by injection E as -> _. }
    rewrite E in En |- *. cbn [app] in En |- *.
    assert (c' ≠ x22 ∧ c' ≠ "{"%byte ∧ c' ≠ "["%byte ∧ c' ≠ "n"%byte ∧ c' ≠ "t"%byte ∧ c' ≠ "f"%byte) as (?&?&?&?&?&?).
    { split_and!; intros ->; destruct Hd as [Hd|Hd]; try done; vm_compute in Hd; by destruct Hd. }
    rewrite !decide_False // En. done.
  - cbn [print_json] in *. unfold quote. cbn [app parse_value]. rewrite skip_ws_start //.
    destruct (decide (x22 = x22)) as [_|[]]; [|done]. rewrite -app_assoc. cbn [app]. by rewrite parse_quote.
Qed.

Lemma json_survives v : survives v.
Proof.
  induction v as [|b|lit|s|vs IH|ms IH] using json_nested_ind;
    intros fuel d rest Hw Hd Hf Hr; try (eapply parse_scalar; [|done|done|done|lia]; fail).
  - by eapply parse_scalar; [|done|done|done|lia].
  - destruct b; by eapply parse_scalar; [|done|done|done|lia].
  - destruct (print_starts _ Hw) as (c & s & E & _). eapply parse_scalar; [exact E|done|done|done|lia].
  - by eapply parse_scalar; [|done|done|done|lia].
  - cbn [print_json nesting well_formed length] in *. rewrite length_app in Hf. cbn [length] in Hf.
    pose proof (foldr_max_nonneg nesting vs). destruct fuel as [|f]; [lia|]. cbn [app parse_value].
    rewrite skip_ws_start //. cbn [decide]. rewrite (proj2 (Z.leb_gt _ _)); [lia|]. rewrite -app_assoc. cbn [app].
    pose proof (elements_ok (d + 1) vs Hw ltac:(lia)) as Hok. destruct vs as [|v vs].
    + done.
    + assert (∃ c s, sep_by (map print_json (v :: vs)) ++ "]"%byte :: rest = c :: s ∧ starts_value c) as (c & s & E & Hc & Hc1 & _).
      { apply (sep_by_start (λ y, y = print_json v)); [done|]. intros y ->. apply print_starts. by destruct Hw. }
      rewrite E skip_ws_start //. rewrite -E.
      destruct (decide (c = "]"%byte)) as [?|_]; [done|]. rewrite parse_elements_print //. lia.
  - cbn [print_json nesting well_formed length] in *.
    change (map (λ kv, quote kv.1 ++ ":"%byte :: print_json kv.2) ms) with (map print_member ms) in Hf |- *.
    rewrite length_app in Hf. cbn [length] in Hf.
    pose proof (foldr_max_nonneg (λ kv : bytes * json, nesting kv.2) ms). destruct fuel as [|f]; [lia|]. cbn [app parse_value].
    rewrite skip_ws_start //. cbn [decide]. rewrite (proj2 (Z.leb_gt _ _)); [lia|]. rewrite -app_assoc. cbn [app].
    pose proof (members_ok (d + 1) ms Hw ltac:(lia)) as Hok. destruct ms as [|kv ms].
    + done.
    + assert (∃ c s, sep_by (map print_member (kv :: ms)) ++ "}"%byte :: rest = c :: s ∧ starts_value c) as (c & s & E & Hc & _ & Hc1).
      { apply (sep_by_start (λ y, y = print_member kv)); [done|]. intros y ->. by eexists _, _. }
      rewrite E skip_ws_start //. rewrite -E.
      destruct (decide (c = "}"%byte)) as [?|_]; [done|]. rewrite parse_members_print //. lia.
Qed.

(** What [json.Marshal] prints, [json.Unmarshal] reads back, with invalid UTF-8
    replaced; white space after it does not matter. *)
Lemma parse_print v ws :
  well_formed v → nesting v ≤ maxNestingDepth → skip_ws ws = [] → parse_json (print_json v ++ ws) = Some (clean v).
Proof.
  intros Hw Hn Hws. assert (ends_number ws) as He.
  { destruct ws as [|c ws]; [done|]. simpl in Hws. destruct (is_ws c) eqn:Hc; [|done]. destruct c; done. }
  unfold parse_json. rewrite (json_survives v (S (2 * length (print_json v ++ ws))) 0 ws Hw Hn); [|done|by rewrite Hws].
  rewrite length_app. lia.
Qed.
