(* ===== verification/GoFloat.v ===== *)
(** * Numbers of JSON values of unknown type

    A JSON number decoded into an [any] is a [float64], and is printed again
    as one.  [ParseFloat] rounds the decimal literal to the nearest double
    (ties to even, an error beyond the largest); [json_float] prints the
    shortest decimal that reads back as the same double, in the notation
    [encoding/json] chooses.  A positive double is a pair [(m, e)] for
    [m * 2 ^ e], with [2 ^ 52 <= m < 2 ^ 53] unless [e] is the least exponent.
    Shown: whole numbers below [2 ^ 53] are printed as they were written
    ([float_text_whole]), and the next odd one is not ([float_text_rounds]). *)

From S2P Require Import Prelude GoText Encoding Json.

Abbreviation double := (Z * Z)%type.

(** [n / d] rounded to an integer, ties to even. *)
Definition round_even (n d : Z) : Z :=
  let q := n / d in
  let r := 2 * (n mod d) in
  if (r <? d) || ((r =? d) && Z.even q) then q else q + 1.

(** The double nearest to [n / d > 0]; [None] beyond the range. *)
Definition round_double (n d : Z) : option double :=
  let q := Z.log2 n - Z.log2 d in
  let below := if 0 <=? q then n <? d * 2 ^ q else n * 2 ^ (- q) <? d in
  let e := Z.max (-1074) (if below then q - 53 else q - 52) in
  let m := if 0 <=? e then round_even n (d * 2 ^ e) else round_even (n * 2 ^ (- e)) d in
  let '(m, e) := if m =? 2 ^ 53 then (2 ^ 52, e + 1) else (m, e) in
  if 971 <? e then None else Some (m, e).

(** [c * 10 ^ x] *)
Definition round_decimal (c x : Z) : option double :=
  if 0 <=? x then round_double (c * 10 ^ x) 1 else round_double c (10 ^ (- x)).

(** The parts of a literal: sign, digits as an integer, decimal exponent.  The
    reader of exponents stops accumulating at 10000. *)
Definition exponent_value (ds : bytes) : Z :=
  fold_left (λ a c, if a <? 10000 then a * 10 + (byteZ c - 48) else a) ds 0.

Definition literal_parts (lit : bytes) : bool * Z * Z :=
  let '(neg, s) :=
    match lit with c :: s' => if decide (c = "-"%byte) then (true, s') else (false, lit) | [] => (false, lit) end in
  let '(ip, s1) := span_digits s in
  let '(fp, s2) :=
    match s1 with c :: s' => if decide (c = "."%byte) then span_digits s' else ([], s1) | [] => ([], s1) end in
  let ex :=
    match s2 with
    | _ :: g :: ds =>
        if decide (g = "-"%byte) then - exponent_value ds else
        if decide (g = "+"%byte) then exponent_value ds else exponent_value (g :: ds)
    | _ => 0
    end in
  (neg, dec_value (ip ++ fp), ex - Z.of_nat (length fp)).

(** [strconv.ParseFloat(lit, 64)] on a JSON number: the sign and the absolute
    value, [(0, 0)] for zero; [None] is a range error. *)
Definition ParseFloat (lit : bytes) : option (bool * double) :=
  let '(neg, c, x) := literal_parts lit in
  if c =? 0 then Some (neg, (0, 0)) else
  d ← round_decimal c x; Some (neg, d).

(** ** Printing *)

(** [floor (m * 2 ^ e / 10 ^ x)] *)
Definition scaled (f : double) (x : Z) : Z :=
  let '(m, e) := f in
  let n := if 0 <=? e then m * 2 ^ e else m in
  let d := if 0 <=? e then 1 else 2 ^ (- e) in
  if 0 <=? x then n / (d * 10 ^ x) else n * 10 ^ (- x) / d.

(** [2 * m * 2 ^ e <> (2 * c + 1) * 10 ^ x]: which side of the middle. *)
Definition above_middle (f : double) (c x : Z) : comparison :=
  let '(m, e) := f in
  let l := 2 * m * 2 ^ Z.max 0 e * 10 ^ Z.max 0 (- x) in
  let r := (2 * c + 1) * 10 ^ Z.max 0 x * 2 ^ Z.max 0 (- e) in
  l ?= r.

(** The decimal exponent: [10 ^ k <= f < 10 ^ (k + 1)], searched from an
    estimate at most two too high. *)
Definition decimal_exponent (f : double) : Z :=
  let k := (Z.log2 f.1 + f.2) * 1233 / 4096 + 2 in
  if 0 <? scaled f k then k else if 0 <? scaled f (k - 1) then k - 1 else
  if 0 <? scaled f (k - 2) then k - 2 else if 0 <? scaled f (k - 3) then k - 3 else k - 4.

(** The shortest decimal [c * 10 ^ x] that rounds to [f]: the digits of [f] cut
    or rounded up after [n] of them, for the first [n] for which one of the two
    reads back; the nearer when both do. *)
Fixpoint shortest (fuel : nat) (f : double) (x : Z) : Z * Z :=
  let c := scaled f x in
  match fuel with
  | O => (c, x)
  | S fuel' =>
      let down := bool_decide (round_decimal c x = Some f) in
      let up := bool_decide (round_decimal (c + 1) x = Some f) in
      if down && up then
        match above_middle f c x with
        | Lt => (c, x)
        | Eq => if Z.even c then (c, x) else (c + 1, x)
        | Gt => (c + 1, x)
        end
      else if down then (c, x) else if up then (c + 1, x)
      else shortest fuel' f (x - 1)
  end.

(** Without trailing zeros. *)
Fixpoint strip_zeros (fuel : nat) (c x : Z) : Z * Z :=
  match fuel with
  | S f => if (c mod 10 =? 0) && negb (c =? 0) then strip_zeros f (c / 10) (x + 1) else (c, x)
  | O => (c, x)
  end.

Definition shortest_digits (f : double) : Z * Z :=
  let '(c, x) := shortest 17 f (decimal_exponent f) in strip_zeros 20 c x.

Definition zeros (n : Z) : bytes := replicate (Z.to_nat n) "0"%byte.

(** Format ['f'] with the fewest digits. *)
Definition format_f (c x : Z) : bytes :=
  let ds := FormatUint c in
  let dp := Z.of_nat (length ds) + x in
  if 0 <=? x then ds ++ zeros x
  else if 0 <? dp then take (Z.to_nat dp) ds ++ "."%byte :: drop (Z.to_nat dp) ds
  else str "0." ++ zeros (- dp) ++ ds.

(** Format ['e'] with the fewest digits, [e-09] cleaned up to [e-9]. *)
Definition format_e (c x : Z) : bytes :=
  let ds := FormatUint c in
  let ex := Z.of_nat (length ds) + x - 1 in
  take 1 ds ++ (if decide (drop 1 ds = []) then [] else "."%byte :: drop 1 ds) ++
  "e"%byte :: (if ex <? 0 then "-"%byte else "+"%byte) :: FormatUint (Z.abs ex).

(** [f < g] on positive doubles. *)
Definition double_lt (f g : double) : bool := f.1 * 2 ^ (f.2 + 1074) <? g.1 * 2 ^ (g.2 + 1074).

Definition json_float (f : bool * double) : bytes :=
  (if f.1 then str "-" else []) ++
  if f.2.1 =? 0 then str "0" else
  let '(c, x) := shortest_digits f.2 in
  let small := match round_decimal 1 (-6) with Some g => double_lt f.2 g | None => false end in
  let large := match round_decimal 1 21 with Some g => negb (double_lt f.2 g) | None => false end in
  if small || large then format_e c x else format_f c x.

(** A number literal read into an [any] and printed again. *)
Definition float_text (lit : bytes) : option bytes := json_float <$> ParseFloat lit.

(** ** Whole numbers survive

    Below [2 ^ 53] every whole number is a double, and no other whole number
    rounds to it. *)

(** The double of a whole number [0 < n < 2 ^ 53]. *)
Definition whole (n : Z) : double := (n * 2 ^ (52 - Z.log2 n), Z.log2 n - 52).

Lemma log2_small n : 0 < n < 2 ^ 53 → 0 ≤ Z.log2 n ≤ 52.
Proof.
  intros Hn. split; [apply Z.log2_nonneg|]. assert (Z.log2 n < 53); [|lia]. apply Z.log2_lt_pow2; lia.
Qed.

Lemma round_even_1 n : round_even n 1 = n.
Proof. unfold round_even. rewrite Z.mod_1_r Z.div_1_r. done. Qed.

Lemma round_double_whole n : 0 < n < 2 ^ 53 → round_double n 1 = Some (whole n).
Proof.
  intros Hn. pose proof (log2_small n Hn) as Hq. pose proof (Z.log2_spec n ltac:(lia)) as Hs.
  unfold round_double. rewrite (_ : Z.log2 1 = 0) // Z.sub_0_r (proj2 (Z.leb_le 0 (Z.log2 n))); [lia|].
  rewrite Z.mul_1_l (proj2 (Z.ltb_ge n _)); [lia|]. rewrite Z.max_r; [lia|].
  assert ((if 0 <=? Z.log2 n - 52 then round_even n (1 * 2 ^ (Z.log2 n - 52))
           else round_even (n * 2 ^ (- (Z.log2 n - 52))) 1) = n * 2 ^ (52 - Z.log2 n)) as ->.
  { destruct (Z.leb_spec 0 (Z.log2 n - 52)).
    - replace (Z.log2 n) with 52 by lia. change (2 ^ (52 - 52)) with 1. rewrite !Z.mul_1_r. apply round_even_1.
    - rewrite round_even_1. f_equal. f_equal. lia. }
  assert (n * 2 ^ (52 - Z.log2 n) < 2 ^ 53) as Hlt.
  { replace 53 with (Z.succ (Z.log2 n) + (52 - Z.log2 n)) by lia. rewrite Z.pow_add_r; [lia..|].
    apply Z.mul_lt_mono_pos_r; [apply Z.pow_pos_nonneg; lia|lia]. }
  rewrite (proj2 (Z.eqb_neq _ _)); [lia|]. rewrite (proj2 (Z.ltb_ge _ _)); [lia|done].
Qed.

Lemma whole_inj n k : 0 < n < 2 ^ 53 → 0 < k < 2 ^ 53 → whole n = whole k → n = k.
Proof.
  unfold whole. intros Hn Hk [= E1 E2]. assert (Z.log2 n = Z.log2 k) as El by lia. rewrite El in E1.
  pose proof (log2_small k Hk). apply Z.mul_reg_r in E1; [done|]. apply Z.pow_nonzero; lia.
Qed.

(** A larger one rounds to a double with a positive exponent. *)
Lemma round_double_large n f : 2 ^ 53 ≤ n → round_double n 1 = Some f → 0 < f.2.
Proof.
  intros Hn. assert (53 ≤ Z.log2 n) as Hq by (apply Z.log2_le_pow2; lia).
  pose proof (Z.log2_spec n ltac:(lia)) as Hs.
  unfold round_double. rewrite (_ : Z.log2 1 = 0) // Z.sub_0_r (proj2 (Z.leb_le 0 (Z.log2 n))); [lia|].
  rewrite Z.mul_1_l (proj2 (Z.ltb_ge n _)); [lia|]. rewrite Z.max_r; [lia|].
  destruct (_ =? 2 ^ 53); destruct (971 <? _); intros [= <-]; cbn [snd]; lia.
Qed.

Lemma round_double_whole_iff n k : 0 < n < 2 ^ 53 → 0 < k → round_double k 1 = Some (whole n) ↔ k = n.
Proof.
  intros Hn Hk. split; [|intros ->; by apply round_double_whole]. intros E.
  destruct (Z.lt_ge_cases k (2 ^ 53)) as [Hlt|Hge].
  - rewrite round_double_whole in E; [lia|]. apply (inj Some) in E. apply whole_inj; [lia|lia|done].
  - apply round_double_large in E; [|lia]. pose proof (log2_small n Hn). unfold whole in E. simpl in E. lia.
Qed.

(** A decimal with a non-negative exponent rounds to [whole n] when it is [n]. *)
Lemma round_decimal_whole n c x : 0 < n < 2 ^ 53 → 0 ≤ x → 0 < c →
  round_decimal c x = Some (whole n) ↔ c * 10 ^ x = n.
Proof.
  intros Hn Hx Hc. unfold round_decimal. rewrite (proj2 (Z.leb_le _ _)) //. apply round_double_whole_iff; [done|].
  apply Z.mul_pos_pos; [done|]. by apply Z.pow_pos_nonneg.
Qed.

Lemma scaled_whole n x : 0 < n < 2 ^ 53 → 0 ≤ x → scaled (whole n) x = n / 10 ^ x.
Proof.
  intros Hn Hx. pose proof (log2_small n Hn) as Hq. unfold scaled, whole. rewrite (proj2 (Z.leb_le 0 x)) //.
  destruct (Z.leb_spec 0 (Z.log2 n - 52)).
  - replace (Z.log2 n) with 52 by lia. by rewrite !Z.mul_1_r Z.mul_1_l.
  - replace (- (Z.log2 n - 52)) with (52 - Z.log2 n) by lia. rewrite (Z.mul_comm (2 ^ _)).
    apply Z.div_mul_cancel_r; [apply Z.pow_nonzero; lia|apply Z.pow_nonzero; lia].
Qed.

(** The digits found are those of [n]: [shortest] stops at the first power of ten
    that divides it. *)
Lemma shortest_whole n fuel : ∀ x, 0 < n < 2 ^ 53 → 0 ≤ x ≤ Z.of_nat fuel → 10 ^ x ≤ n →
  ∃ c y, shortest fuel (whole n) x = (c, y) ∧ 0 ≤ y ∧ c * 10 ^ y = n.
Proof.
  induction fuel as [|fuel IH]; intros x Hn Hx Hpow; cbn [shortest]; rewrite scaled_whole; try lia.
  { replace x with 0 in * by lia. exists n, 0. rewrite Z.div_1_r Z.mul_1_r. done. }
  pose proof (Z.pow_pos_nonneg 10 x ltac:(lia) ltac:(lia)) as Hp.
  pose proof (Z.div_mod n (10 ^ x) ltac:(lia)) as Hd. pose proof (Z.mod_pos_bound n (10 ^ x) Hp) as Hm.
  assert (0 < n / 10 ^ x) as Hc by (apply Z.div_str_pos; lia).
  rewrite (bool_decide_false (round_decimal (n / 10 ^ x + 1) x = _)).
  { intros E. apply round_decimal_whole in E; [lia|done|lia|lia]. }
  destruct (bool_decide_reflect (round_decimal (n / 10 ^ x) x = Some (whole n))) as [Hr|Hr]; cbn [andb].
  - apply round_decimal_whole in Hr; [|done|lia|done]. exists (n / 10 ^ x), x. split_and!; [done|lia|done].
  - assert (x ≠ 0) as Hx0.
    { intros ->. apply Hr, round_decimal_whole; [done|lia|done|]. by rewrite Z.div_1_r Z.mul_1_r. }
    apply IH; [done|lia|]. etrans; [|exact Hpow]. apply Z.pow_le_mono_r; lia.
Qed.

Lemma strip_zeros_value fuel : ∀ c x, 0 ≤ x → let '(c', x') := strip_zeros fuel c x in
  0 ≤ x' ∧ c' * 10 ^ x' = c * 10 ^ x.
Proof.
  induction fuel as [|fuel IH]; intros c x Hx; cbn [strip_zeros]; [done|].
  destruct (Z.eqb_spec (c mod 10) 0) as [Hz|]; cbn [andb]; [|done]. destruct (negb _); [|done].
  specialize (IH (c / 10) (x + 1) ltac:(lia)). destruct (strip_zeros _ _ _) as [c' x']. destruct IH as [Hx' ->].
  split; [done|]. rewrite Z.pow_add_r //. pose proof (Z.div_mod c 10 ltac:(lia)) as Hc. rewrite Hz in Hc. lia.
Qed.

Lemma estimate_ok q : 0 ≤ q ≤ 52 → 10 ^ (q * 1233 / 4096) ≤ 2 ^ q.
Proof.
  intros Hq. assert (forallb (λ q, 10 ^ (q * 1233 / 4096) <=? 2 ^ q) (seqZ 0 53) = true) as Hall by by vm_compute.
  rewrite forallb_forall in Hall. apply Z.leb_le, Hall, list_elem_of_In, elem_of_seqZ. lia.
Qed.

(** The estimate of the decimal exponent of a whole number. *)
Lemma decimal_exponent_whole n : 0 < n < 2 ^ 53 →
  0 ≤ decimal_exponent (whole n) ≤ 17 ∧ 10 ^ decimal_exponent (whole n) ≤ n.
Proof.
  intros Hn. pose proof (log2_small n Hn) as Hq. pose proof (Z.log2_spec n ltac:(lia)) as Hs.
  unfold decimal_exponent. set (k := (Z.log2 (whole n).1 + (whole n).2) * 1233 / 4096).
  assert (k = Z.log2 n * 1233 / 4096) as Hk.
  { unfold k, whole. cbn [fst snd]. rewrite Z.log2_mul_pow2; [lia|lia|]. do 2 f_equal. lia. }
  assert (10 ^ k ≤ 2 ^ Z.log2 n) as Hpow.
  { rewrite Hk. apply estimate_ok; lia. }
  assert (0 ≤ k ≤ 15) as Hk0 by (rewrite Hk; Z.div_mod_to_equations; lia).
  assert (∀ x, 0 ≤ x → 0 < scaled (whole n) x → 10 ^ x ≤ n) as Hpos.
  { intros x Hx. rewrite scaled_whole //. intros Hd. destruct (Z.le_gt_cases (10 ^ x) n) as [?|Hgt]; [done|].
    rewrite Z.div_small in Hd; lia. }
  destruct (Z.ltb_spec 0 (scaled (whole n) (k + 2))); [split; [lia|apply Hpos; lia]|].
  destruct (Z.ltb_spec 0 (scaled (whole n) (k + 2 - 1))); [split; [lia|apply Hpos; lia]|].
  destruct (Z.ltb_spec 0 (scaled (whole n) (k + 2 - 2))) as [?|Hz]; [split; [lia|apply Hpos; lia]|].
  rewrite scaled_whole in Hz; [done|lia|]. replace (k + 2 - 2) with k in Hz by lia.
  assert (0 < n / 10 ^ k) as Hc; [|lia]. apply Z.div_str_pos. split; [apply Z.pow_pos_nonneg; lia|lia].
Qed.

(** *** The digits of [10 * n] *)

Lemma dec_go_acc fuel : ∀ n acc, dec_go fuel n acc = dec_go fuel n [] ++ acc.
Proof.
  induction fuel as [|fuel IH]; intros n acc; simpl; [done|]. destruct (n / 10 =? 0); [done|].
  rewrite IH (IH _ [_]) -app_assoc. done.
Qed.

Lemma dec_go_fuel f : ∀ f' n acc, 0 ≤ n → n < 2 ^ Z.of_nat f → n < 2 ^ Z.of_nat f' → (0 < f)%nat → (0 < f')%nat →
  dec_go f n acc = dec_go f' n acc.
Proof.
  induction f as [|f IH]; intros [|f'] n acc H0 H1 H2 Hf Hf'; [lia..|]. cbn [dec_go].
  destruct (Z.eqb_spec (n / 10) 0) as [|Hz]; [done|].
  assert (n / 10 < 2 ^ Z.of_nat f ∧ n / 10 < 2 ^ Z.of_nat f') as [H3 H4].
  { rewrite Nat2Z.inj_succ Z.pow_succ_r in H1; [lia|]. rewrite Nat2Z.inj_succ Z.pow_succ_r in H2; [lia|].
    split; apply Z.div_lt_upper_bound; lia. }
  assert (0 ≤ n / 10) by (apply Z.div_pos; lia).
  apply IH; [done|done|done|..]; (destruct f, f'; [simpl in *; lia..|lia]).
Qed.

Lemma FormatUint_ten n : 0 < n → FormatUint (n * 10) = FormatUint n ++ str "0".
Proof.
  intros Hn. unfold FormatUint. set (f := S (Z.to_nat (Z.log2 n))). cbn [dec_go]. rewrite Z.mod_mul // Z.div_mul //.
  rewrite (proj2 (Z.eqb_neq _ _)); [lia|]. rewrite dec_go_acc. f_equal.
  pose proof (Z.log2_nonneg n) as H0. pose proof (Z.log2_spec n Hn) as Hs.
  assert (Z.succ (Z.log2 n) ≤ Z.log2 (n * 10)) as Hl.
  { rewrite -Z.log2_double //. apply Z.log2_le_mono. lia. }
  apply dec_go_fuel; [lia| | |lia|unfold f; lia].
  - rewrite Z2Nat.id; [lia|]. eapply Z.lt_le_trans; [apply Hs|]. apply Z.pow_le_mono_r; lia.
  - unfold f. rewrite Nat2Z.inj_succ Z2Nat.id; [lia|apply Hs].
Qed.

Lemma format_f_value c x : 0 ≤ x → 0 < c → format_f c x = FormatUint (c * 10 ^ x).
Proof.
  intros Hx Hc. unfold format_f. rewrite (proj2 (Z.leb_le 0 x)) //. unfold zeros.
  rewrite -{2}(Z2Nat.id x Hx). generalize (Z.to_nat x). intros k. clear x Hx. induction k as [|k IH].
  { by rewrite /= app_nil_r Z.mul_1_r. }
  rewrite Nat2Z.inj_succ Z.pow_succ_r; [lia|]. rewrite replicate_S_end app_assoc IH (Z.mul_comm 10) Z.mul_assoc.
  rewrite FormatUint_ten //. apply Z.mul_pos_pos; [done|]. apply Z.pow_pos_nonneg; lia.
Qed.

(** *** Reading and printing *)

(** The doubles at which the notation changes are outside the range. *)
Lemma exponent_bounds : ∃ g1 g2, round_decimal 1 (-6) = Some g1 ∧ round_decimal 1 21 = Some g2 ∧
  g1.1 * 2 ^ (g1.2 + 1074) ≤ 2 ^ 1074 ∧ 2 ^ 53 * 2 ^ 1074 ≤ g2.1 * 2 ^ (g2.2 + 1074).
Proof. do 2 eexists. split_and!; [by vm_compute|by vm_compute|by vm_compute|by vm_compute]. Qed.

Lemma json_float_whole neg n : 0 < n < 2 ^ 53 →
  json_float (neg, whole n) = (if neg then str "-" else []) ++ FormatUint n.
Proof.
  intros Hn. unfold json_float. cbn [fst snd]. f_equal. pose proof (log2_small n Hn) as Hq.
  assert (0 < (whole n).1) as Hpos by (apply Z.mul_pos_pos; [lia|apply Z.pow_pos_nonneg; lia]).
  rewrite (proj2 (Z.eqb_neq _ _)); [lia|].
  assert ((whole n).1 * 2 ^ ((whole n).2 + 1074) = n * 2 ^ 1074) as Hv.
  { unfold whole. cbn [fst snd]. rewrite -Z.mul_assoc -Z.pow_add_r; [lia|lia|]. do 2 f_equal. lia. }
  destruct (decimal_exponent_whole n Hn) as [Hk Hpow]. unfold shortest_digits.
  destruct (shortest_whole n 17 (decimal_exponent (whole n)) Hn ltac:(lia) Hpow) as (c & y & -> & Hy & Hc).
  pose proof (strip_zeros_value 20 c y Hy) as Hs. destruct (strip_zeros 20 c y) as [c' x']. destruct Hs as [Hx' Hs].
  assert (0 < 10 ^ x') as Hp by (apply Z.pow_pos_nonneg; lia).
  rewrite format_f_value; [lia|nia|]. rewrite Hs Hc.
  destruct exponent_bounds as (g1 & g2 & -> & -> & H1 & H2). unfold double_lt. rewrite Hv.
  rewrite (proj2 (Z.ltb_ge _ _)); [nia|]. by rewrite (proj2 (Z.ltb_lt _ _)); [nia|].
Qed.

Lemma literal_parts_Format z : literal_parts (FormatInt z) = (z <? 0, Z.abs z, 0).
Proof.
  assert (∀ n, 0 ≤ n → span_digits (FormatUint n) = (FormatUint n, [])) as Hspan.
  { intros n Hn. destruct (FormatUint_spec n Hn) as (Hd & _ & _).
    rewrite -{1}(app_nil_r (FormatUint n)). by apply span_digits_app. }
  assert (∀ n, 0 ≤ n → dec_value (FormatUint n ++ []) = n) as Hval.
  { intros n Hn. rewrite app_nil_r. by apply FormatUint_spec. }
  unfold literal_parts, FormatInt. destruct (Z.ltb_spec z 0) as [Hz|Hz].
  - destruct (decide _) as [_|[]]; [|done]. rewrite Hspan; [lia|]. cbn [length]. rewrite Hval; [lia|]. do 2 f_equal. lia.
  - destruct (FormatUint_spec z Hz) as (Hd & Hne & _). pose proof (Hspan z Hz) as Hs. pose proof (Hval z Hz) as Hv.
    destruct (FormatUint z) as [|c ds]; [done|]. apply Forall_cons in Hd as [Hc _].
    destruct (decide (c = "-"%byte)) as [->|_]; [exfalso; vm_compute in Hc; by destruct Hc|].
    rewrite Hs Hv Z.abs_eq //.
Qed.

(** A whole number below [2 ^ 53] is printed as it was written. *)
Lemma float_text_whole z : Z.abs z < 2 ^ 53 → float_text (FormatInt z) = Some (FormatInt z).
Proof.
  intros Hz. unfold float_text, ParseFloat. rewrite literal_parts_Format.
  destruct (Z.eqb_spec (Z.abs z) 0) as [E|Hne]; [by replace z with 0 by lia|].
  rewrite (proj2 (round_decimal_whole (Z.abs z) (Z.abs z) 0 _ _ _)); [lia|lia|lia|lia|].
  cbn [mbind option_bind fmap option_fmap option_map]. rewrite json_float_whole; [lia|]. unfold FormatInt.
  destruct (Z.ltb_spec z 0); [rewrite Z.abs_neq //; lia|rewrite Z.abs_eq //].
Qed.

(** The next one is not. *)
Example float_text_rounds : float_text (str "9007199254740993") = Some (str "9007199254740992").
Proof. by vm_compute. Qed.
