(* ===== verification/MessageJson.v ===== *)
(** * The JSON forms of the broker's data

    What [encoding/json] makes of the types the sources marshal: [Message]
    (the records of the log), [map[string]string] (the payload of [XADD]),
    [BrokerStats] and [TopicStats] (the reply of [VMQ.STATS]), with the field
    names, the order and the [omitempty] options of their declarations; and
    [json.Unmarshal] into a [Message]. *)

From stdpp Require Import sorting.
From S2P Require Import Prelude GoText Encoding Json Message Topic Broker.

Definition json_string (s : string) : json := JStr (str s).

Definition json_int (z : Z) : json := JNum (FormatInt z).

(** A [[]byte] is base64 text; [nil] is [null]. *)
Definition json_bytes (b : byte_slice) : json :=
  match b with None => JNull | Some p => JStr (b64_encode p) end.

(** Map keys are sorted. *)
Definition key_le (a b : string * string) : Prop := String.leb a.1 b.1 = true.

Global Instance key_le_dec : RelDecision key_le := λ a b, decide (String.leb a.1 b.1 = true).

Definition json_map (m : gmap string string) : json :=
  JObj ((λ kv, (str kv.1, json_string kv.2)) <$> merge_sort key_le (map_to_list m)).

Definition marshal_map (m : gmap string string) : bytes := print_json (json_map m).

(** A member that is left out when its value is the zero value. *)
Definition omitempty (empty : bool) (key : string) (v : json) : list (bytes * json) :=
  if empty then [] else [(str key, v)].

Definition message_members (m : Message) : list (bytes * json) :=
  [(str "id", json_string (msg_ID m))] ++
  [(str "topic", json_string (msg_Topic m))] ++
  [(str "payload", json_bytes (msg_Payload m))] ++
  omitempty (bool_decide (msg_Headers m = ∅)) "headers" (json_map (msg_Headers m)) ++
  [(str "priority", json_int (msg_Priority m))] ++
  [(str "timestamp", json_int (msg_Timestamp m))] ++
  omitempty (msg_DeliverAt m =? 0) "deliver_at" (json_int (msg_DeliverAt m)) ++
  [(str "retry_count", json_int (msg_RetryCount m))] ++
  [(str "max_retries", json_int (msg_MaxRetries m))] ++
  omitempty (bool_decide (msg_ConsumerID m = "")) "consumer_id" (json_string (msg_ConsumerID m)) ++
  omitempty (msg_AckDeadline m =? 0) "ack_deadline" (json_int (msg_AckDeadline m)) ++
  omitempty (bool_decide (msg_FailureCause m = "")) "failure_cause" (json_string (msg_FailureCause m)).

(** [json.Marshal(msg)]; it has no error for this type. *)
Definition Marshal (m : Message) : bytes := print_json (JObj (message_members m)).

Definition topic_stats_json (t : TopicStats) : json :=
  JObj [(str "name", json_string (ts_Name t)); (str "length", json_int (ts_Length t));
        (str "capacity", json_int (ts_Capacity t)); (str "published", json_int (ts_Published t));
        (str "consumed", json_int (ts_Consumed t)); (str "acked", json_int (ts_Acked t));
        (str "nacked", json_int (ts_Nacked t)); (str "dead_lettered", json_int (ts_DeadLettered t));
        (str "bytes_published", json_int (ts_BytesPublished t));
        (str "bytes_consumed", json_int (ts_BytesConsumed t));
        (str "consumer_groups", json_int (ts_ConsumerGroups t));
        (str "dead_letter_count", json_int (ts_DeadLetterCount t))].

Definition broker_stats_json (b : BrokerStats) : json :=
  JObj [(str "uptime_seconds", json_int (bs_UptimeSeconds b));
        (str "total_topics", json_int (bs_TotalTopics b));
        (str "total_published", json_int (bs_TotalPublished b));
        (str "total_consumed", json_int (bs_TotalConsumed b));
        (str "total_acked", json_int (bs_TotalAcked b));
        (str "total_nacked", json_int (bs_TotalNacked b));
        (str "total_dlq", json_int (bs_TotalDLQ b));
        (str "topics", JArr (topic_stats_json <$> bs_Topics b));
        (str "allocated_memory_bytes", json_int (bs_AllocatedMemory b))].

Definition marshal_stats (b : BrokerStats) : bytes := print_json (broker_stats_json b).

(** ** Reading a message *)

Definition fold_byte (c : byte) : byte := if between 97 122 c then byte_of_Z (byteZ c - 32) else c.

(** Keys match field names up to case; U+017F and U+212A fold to S and K. *)
Fixpoint fold_name (k : bytes) : bytes :=
  match k with
  | [] => []
  | c :: k1 =>
      match k1 with
      | [] => [fold_byte c]
      | b :: k2 =>
          if decide (c = xc5 ∧ b = xbf) then "S"%byte :: fold_name k2 else
          match k2 with
          | d :: k3 =>
              if decide (c = xe2 ∧ b = x84 ∧ d = xaa) then "K"%byte :: fold_name k3
              else fold_byte c :: fold_name k1
          | [] => fold_byte c :: fold_name k1
          end
      end
  end.

Definition get_string (old : string) (v : json) : option string :=
  match v with JStr s => Some (gostring s) | JNull => Some old | _ => None end.

(** [strconv.ParseInt] of a number literal: an integer literal in range. *)
Definition int_literal (signed : bool) (lit : bytes) : option Z :=
  match lit with
  | [] => None
  | c :: ds =>
      if signed && bool_decide (c = "-"%byte) then
        if decide (ds ≠ [] ∧ Forall is_digit ds) then Some (- dec_value ds) else None
      else if decide (Forall is_digit lit) then Some (dec_value lit) else None
  end.

Definition get_int (signed : bool) (lo hi : Z) (old : Z) (v : json) : option Z :=
  match v with
  | JNum lit =>
      z ← int_literal signed lit; if (lo <=? z) && (z <=? hi) then Some z else None
  | JNull => Some old
  | _ => None
  end.

Definition get_int64 : Z → json → option Z := get_int true (- 2 ^ 63) (2 ^ 63 - 1).

Definition get_uint8 : Z → json → option Z := get_int false 0 255.

(** Base64 text, [null], or an array of numbers below 256. *)
Definition get_bytes (v : json) : option byte_slice :=
  match v with
  | JStr s => p ← b64_decode s; Some (Some p)
  | JNull => Some None
  | JArr vs => p ← mapM (get_uint8 0) vs; Some (Some (byte_of_Z <$> p))
  | _ => None
  end.

(** The members are added to the map the field already has. *)
Fixpoint get_members (ms : list (bytes * json)) (old : gmap string string) : option (gmap string string) :=
  match ms with
  | [] => Some old
  | (k, v) :: ms' => s ← get_string "" v; get_members ms' (<[gostring k := s]> old)
  end.

Definition get_map (old : gmap string string) (v : json) : option (gmap string string) :=
  match v with JObj ms => get_members ms old | JNull => Some ∅ | _ => None end.

(** One member of the object; an unknown key is ignored. *)
Definition assign (m : Message) (key : bytes) (v : json) : option Message :=
  let '(mkMessage id topic payload headers prio ts at_ retries maxr consumer ack cause) := m in
  let k := gostring (fold_name key) in
  if decide (k = "ID") then
    x ← get_string id v; Some (mkMessage x topic payload headers prio ts at_ retries maxr consumer ack cause) else
  if decide (k = "TOPIC") then
    x ← get_string topic v; Some (mkMessage id x payload headers prio ts at_ retries maxr consumer ack cause) else
  if decide (k = "PAYLOAD") then
    x ← get_bytes v; Some (mkMessage id topic x headers prio ts at_ retries maxr consumer ack cause) else
  if decide (k = "HEADERS") then
    x ← get_map headers v; Some (mkMessage id topic payload x prio ts at_ retries maxr consumer ack cause) else
  if decide (k = "PRIORITY") then
    x ← get_uint8 prio v; Some (mkMessage id topic payload headers x ts at_ retries maxr consumer ack cause) else
  if decide (k = "TIMESTAMP") then
    x ← get_int64 ts v; Some (mkMessage id topic payload headers prio x at_ retries maxr consumer ack cause) else
  if decide (k = "DELIVER_AT") then
    x ← get_int64 at_ v; Some (mkMessage id topic payload headers prio ts x retries maxr consumer ack cause) else
  if decide (k = "RETRY_COUNT") then
    x ← get_int64 retries v; Some (mkMessage id topic payload headers prio ts at_ x maxr consumer ack cause) else
  if decide (k = "MAX_RETRIES") then
    x ← get_int64 maxr v; Some (mkMessage id topic payload headers prio ts at_ retries x consumer ack cause) else
  if decide (k = "CONSUMER_ID") then
    x ← get_string consumer v; Some (mkMessage id topic payload headers prio ts at_ retries maxr x ack cause) else
  if decide (k = "ACK_DEADLINE") then
    x ← get_int64 ack v; Some (mkMessage id topic payload headers prio ts at_ retries maxr consumer x cause) else
  if decide (k = "FAILURE_CAUSE") then
    x ← get_string cause v; Some (mkMessage id topic payload headers prio ts at_ retries maxr consumer ack x) else
  Some m.

Fixpoint assign_all (m : Message) (ms : list (bytes * json)) : option Message :=
  match ms with
  | [] => Some m
  | (k, v) :: ms' => m' ← assign m k v; assign_all m' ms'
  end.

Definition zero_message : Message := mkMessage "" "" None ∅ 0 0 0 0 0 "" 0 "".

(** [var msg Message; err := json.Unmarshal(data, &msg)]; [None] is an error. *)
Definition Unmarshal (data : bytes) : option Message :=
  v ← parse_json data;
  match v with
  | JObj ms => assign_all zero_message ms
  | JNull => Some zero_message
  | _ => None
  end.

(** ** Round trip *)

(** Numbers in the range of their field. *)
Record in_range (m : Message) : Prop := mkInRange {
  ir_priority : 0 ≤ msg_Priority m ≤ 255;
  ir_timestamp : is_i64 (msg_Timestamp m);
  ir_deliver : is_i64 (msg_DeliverAt m);
  ir_retries : is_i64 (msg_RetryCount m);
  ir_max : is_i64 (msg_MaxRetries m);
  ir_ack : is_i64 (msg_AckDeadline m)
}.

(** Header keys and values that are valid UTF-8. *)
Definition headers_valid (m : Message) : Prop :=
  map_Forall (λ k v, valid_utf8 (str k) ∧ valid_utf8 (str v)) (msg_Headers m).

(** What JSON keeps: the rest of the text is valid UTF-8, too. *)
Record valid_message (m : Message) : Prop := mkValidMessage {
  vm_range : in_range m;
  vm_headers : headers_valid m;
  vm_id : valid_utf8 (str (msg_ID m));
  vm_topic : valid_utf8 (str (msg_Topic m));
  vm_consumer : valid_utf8 (str (msg_ConsumerID m));
  vm_cause : valid_utf8 (str (msg_FailureCause m))
}.

Lemma int_literal_Format (signed : bool) z : (0 ≤ z ∨ signed = true) → int_literal signed (FormatInt z) = Some z.
Proof.
  intros Hz. unfold int_literal, FormatInt. destruct (Z.ltb_spec z 0) as [Hn|Hn].
  - destruct Hz as [?| ->]; [lia|]. rewrite bool_decide_true //. simpl.
    destruct (FormatUint_spec (- z)) as (Hf & Hne & Hv); [lia|]. destruct (decide _) as [_|[]]; [|done]. rewrite Hv. f_equal. lia.
  - destruct (FormatUint_spec z Hn) as (Hf & Hne & Hv). destruct (FormatUint_first z Hn) as (d & ds & E & Hd).
    rewrite E. rewrite bool_decide_false; [intros ->; change (byteZ "-"%byte) with 45 in Hd; lia|].
    rewrite andb_false_r. rewrite -E. destruct (decide _) as [_|[]]; [|done]. by rewrite Hv.
Qed.

Lemma get_int64_json old z : is_i64 z → get_int64 old (json_int z) = Some z.
Proof.
  intros Hz. unfold is_i64 in Hz. unfold get_int64, get_int, json_int. rewrite int_literal_Format; [by right|].
  cbn [mbind option_bind]. by rewrite !(proj2 (Z.leb_le _ _)); [lia|lia|].
Qed.

Lemma get_uint8_json old z : 0 ≤ z ≤ 255 → get_uint8 old (json_int z) = Some z.
Proof.
  intros Hz. unfold get_uint8, get_int, json_int. rewrite int_literal_Format; [left; lia|].
  cbn [mbind option_bind]. by rewrite !(proj2 (Z.leb_le _ _)); [lia|lia|].
Qed.

Lemma get_string_json old s : get_string old (json_string s) = Some s.
Proof. unfold get_string, json_string. by rewrite gostring_str. Qed.

Lemma get_bytes_json b : get_bytes (json_bytes b) = Some b.
Proof. destruct b as [p|]; [|done]. unfold get_bytes, json_bytes. by rewrite b64_roundtrip. Qed.

Lemma get_members_pairs l : ∀ old,
  get_members ((λ kv, (str kv.1, json_string kv.2)) <$> l) old =
    Some (foldl (λ m kv, <[kv.1 := kv.2]> m) old l).
Proof.
  induction l as [|[k v] l IH]; intros old; [done|]. cbn [fmap list_fmap get_members foldl fst snd].
  rewrite get_string_json. cbn [mbind option_bind]. by rewrite gostring_str IH.
Qed.

Lemma foldl_insert (l : list (string * string)) : ∀ old,
  NoDup l.*1 → foldl (λ m kv, <[kv.1 := kv.2]> m) old l = list_to_map l ∪ (old : gmap string string).
Proof.
  induction l as [|[k v] l IH]; intros old Hnd; [by rewrite left_id_L|]. simpl in *.
  apply NoDup_cons in Hnd as [Hk Hnd]. rewrite IH //. rewrite -insert_union_r.
  { by apply not_elem_of_list_to_map. }
  by rewrite insert_union_l.
Qed.

Lemma sorted_pairs (m : gmap string string) : merge_sort key_le (map_to_list m) ≡ₚ map_to_list m.
Proof. apply merge_sort_Permutation. Qed.

Lemma get_map_json m : get_map ∅ (json_map m) = Some m.
Proof.
  unfold get_map, json_map. rewrite get_members_pairs foldl_insert.
  { rewrite sorted_pairs. apply NoDup_fst_map_to_list. }
  rewrite right_id_L. f_equal. rewrite (list_to_map_proper _ (map_to_list m)).
  - rewrite sorted_pairs. apply NoDup_fst_map_to_list.
  - apply sorted_pairs.
  - apply list_to_map_to_list.
Qed.

(** ** The message as a whole *)

Lemma assign_all_app m m1 ms1 ms2 :
  assign_all m ms1 = Some m1 → assign_all m (ms1 ++ ms2) = assign_all m1 ms2.
Proof.
  revert m. induction ms1 as [|[k v] ms1 IH]; intros m; simpl; [by intros [= ->]|].
  destruct (assign m k v) as [m'|]; [|done]. apply IH.
Qed.

(** Reading back a member that may have been left out. *)
Lemma assign_omitted m m1 (empty : bool) key v :
  (empty = true → m1 = m) → (empty = false → assign m (str key) v = Some m1) →
  assign_all m (omitempty empty key v) = Some m1.
Proof.
  unfold omitempty. destruct empty; intros H1 H2; [by rewrite H1|]. simpl. by rewrite H2.
Qed.

Lemma assign_one m m1 key v : assign m (str key) v = Some m1 → assign_all m [(str key, v)] = Some m1.
Proof. intros E. simpl. by rewrite E. Qed.

(** [assign] at a known key. *)
Ltac at_key lem :=
  unfold assign;
  match goal with
  | |- context [gostring (fold_name (str ?k))] =>
      let n := eval vm_compute in (gostring (fold_name (str k))) in
      change (gostring (fold_name (str k))) with n; cbv zeta
  end;
  repeat match goal with
  | |- context [decide (?a = ?b)] =>
      destruct (decide (a = b)) as [Hd|Hd]; [try discriminate Hd|try (exfalso; by apply Hd)]; clear Hd
  end;
  rewrite lem; done.

Ltac known_key lem := apply assign_one; at_key lem.

Lemma assign_members m : in_range m → assign_all zero_message (message_members m) = Some m.
Proof.
  intros Hv. destruct m as [id topic payload headers prio ts at_ retries maxr consumer ack cause].
  destruct Hv. unfold message_members, zero_message. cbn [msg_ID msg_Topic
    msg_Payload msg_Headers msg_Priority msg_Timestamp msg_DeliverAt msg_RetryCount msg_MaxRetries msg_ConsumerID
    msg_AckDeadline msg_FailureCause] in *.
  rewrite (assign_all_app _ (mkMessage id "" None ∅ 0 0 0 0 0 "" 0 "")); [known_key get_string_json|].
  rewrite (assign_all_app _ (mkMessage id topic None ∅ 0 0 0 0 0 "" 0 "")); [known_key get_string_json|].
  rewrite (assign_all_app _ (mkMessage id topic payload ∅ 0 0 0 0 0 "" 0 "")); [known_key get_bytes_json|].
  rewrite (assign_all_app _ (mkMessage id topic payload headers 0 0 0 0 0 "" 0 "")).
  { apply assign_omitted; [by intros ->%bool_decide_eq_true|intros _; at_key get_map_json]. }
  rewrite (assign_all_app _ (mkMessage id topic payload headers prio 0 0 0 0 "" 0 "")); [known_key get_uint8_json|].
  rewrite (assign_all_app _ (mkMessage id topic payload headers prio ts 0 0 0 "" 0 "")); [known_key get_int64_json|].
  rewrite (assign_all_app _ (mkMessage id topic payload headers prio ts at_ 0 0 "" 0 "")).
  { apply assign_omitted; [by intros ->%Z.eqb_eq|intros _; at_key get_int64_json]. }
  rewrite (assign_all_app _ (mkMessage id topic payload headers prio ts at_ retries 0 "" 0 "")); [known_key get_int64_json|].
  rewrite (assign_all_app _ (mkMessage id topic payload headers prio ts at_ retries maxr "" 0 "")); [known_key get_int64_json|].
  rewrite (assign_all_app _ (mkMessage id topic payload headers prio ts at_ retries maxr consumer 0 "")).
  { apply assign_omitted; [by intros ->%bool_decide_eq_true|intros _; at_key get_string_json]. }
  rewrite (assign_all_app _ (mkMessage id topic payload headers prio ts at_ retries maxr consumer ack "")).
  { apply assign_omitted; [by intros ->%Z.eqb_eq|intros _; at_key get_int64_json]. }
  apply assign_omitted; [by intros ->%bool_decide_eq_true|intros _; at_key get_string_json].
Qed.

Lemma valid_ascii (s : string) : forallb (λ c, byteZ c <? 0x80) (str s) = true → valid_utf8 (str s).
Proof.
  intros H. apply sanitize_ascii, Forall_forall. intros c Hc. rewrite forallb_forall in H.
  specialize (H c ltac:(by apply list_elem_of_In)). lia.
Qed.

(** A member of an object nested at most [d] deep that survives printing. *)
Definition member_ok (d : Z) (kv : bytes * json) : Prop := well_formed kv.2 ∧ nesting kv.2 ≤ d.

Lemma object_ok d ms : 0 ≤ d → Forall (member_ok d) ms → well_formed (JObj ms) ∧ nesting (JObj ms) ≤ d + 1.
Proof.
  intros Hd. cbn [well_formed nesting]. induction 1 as [|kv ms [Hw Hn] _ [IHw IHn]]; cbn [foldr]; [split; [done|lia]|].
  split; [by split|lia].
Qed.

Lemma array_ok d vs : 0 ≤ d → Forall (λ v, well_formed v ∧ nesting v ≤ d) vs →
  well_formed (JArr vs) ∧ nesting (JArr vs) ≤ d + 1.
Proof.
  intros Hd. cbn [well_formed nesting]. induction 1 as [|v vs [Hw Hn] _ [IHw IHn]]; cbn [foldr]; [split; [done|lia]|].
  split; [by split|lia].
Qed.

Lemma json_string_ok d key s : 0 ≤ d → member_ok d (key, json_string s).
Proof. done. Qed.

Lemma json_int_ok d key z : 0 ≤ d → member_ok d (key, json_int z).
Proof. intros ?. split; [by exists z|done]. Qed.

Lemma json_bytes_ok d key b : 0 ≤ d → member_ok d (key, json_bytes b).
Proof. by destruct b. Qed.

Lemma json_map_ok d key m : 1 ≤ d → member_ok d (key, json_map m).
Proof.
  intros Hd. destruct (object_ok 0 ((λ kv, (str kv.1, json_string kv.2)) <$> merge_sort key_le (map_to_list m)))
    as [Hw Hn]; [done| |by split; [|unfold json_map; cbn [snd]; lia]].
  rewrite Forall_fmap Forall_forall. intros [k v] _. by apply json_string_ok.
Qed.

Lemma omitempty_ok d empty key v : member_ok d (str key, v) → Forall (member_ok d) (omitempty empty key v).
Proof. intros H. unfold omitempty. destruct empty; [done|by apply Forall_singleton]. Qed.

#[export] Hint Resolve json_string_ok json_int_ok json_bytes_ok json_map_ok omitempty_ok : go.

Lemma message_members_ok m : Forall (member_ok 1) (message_members m).
Proof.
  unfold message_members. rewrite !Forall_app !Forall_singleton. split_and!; auto with go lia.
Qed.

Lemma message_ok m : well_formed (JObj (message_members m)) ∧ nesting (JObj (message_members m)) ≤ 2.
Proof. apply (object_ok 1); [lia|apply message_members_ok]. Qed.

(** *** Invalid text *)

Definition sanitize_string (s : string) : string := gostring (sanitize (str s)).

(** The message after its text was made valid UTF-8.  Header names could become
    equal, so headers are left out: they are assumed valid where this is used. *)
Definition sanitize_message (m : Message) : Message :=
  mkMessage (sanitize_string (msg_ID m)) (sanitize_string (msg_Topic m)) (msg_Payload m) (msg_Headers m)
    (msg_Priority m) (msg_Timestamp m) (msg_DeliverAt m) (msg_RetryCount m) (msg_MaxRetries m)
    (sanitize_string (msg_ConsumerID m)) (msg_AckDeadline m) (sanitize_string (msg_FailureCause m)).

Lemma str_sanitize s : str (sanitize_string s) = sanitize (str s).
Proof. apply str_gostring. Qed.

Lemma sanitize_string_valid s : valid_utf8 (str s) → sanitize_string s = s.
Proof. unfold valid_utf8, sanitize_string. intros ->. apply gostring_str. Qed.

Lemma sanitize_string_empty s : sanitize_string s = "" ↔ s = "".
Proof.
  split; [|by intros ->]. intros E. apply (f_equal str) in E. rewrite str_sanitize in E.
  apply (proj1 (sanitize_nil _)) in E. by destruct s.
Qed.

Lemma clean_string s : clean (json_string s) = json_string (sanitize_string s).
Proof. unfold json_string. cbn [clean]. by rewrite str_sanitize. Qed.

Lemma clean_int z : clean (json_int z) = json_int z.
Proof. done. Qed.

Lemma clean_bytes b : clean (json_bytes b) = json_bytes b.
Proof. destruct b as [p|]; [|done]. cbn. by rewrite (sanitize_ascii _ (b64_encode_ascii p)). Qed.

Lemma clean_map m : map_Forall (λ k v, valid_utf8 (str k) ∧ valid_utf8 (str v)) m → clean (json_map m) = json_map m.
Proof.
  intros Hm. unfold json_map. cbn [clean]. f_equal. rewrite map_map. apply map_ext_in. intros [k v] Hkv.
  apply list_elem_of_In in Hkv. rewrite sorted_pairs elem_of_map_to_list in Hkv. destruct (Hm k v Hkv) as [Hk Hv].
  cbn [fst snd]. rewrite clean_string sanitize_string_valid //. by rewrite Hk.
Qed.

Lemma clean_omitempty (e e' : bool) key v v' :
  e = e' → clean v = v' → sanitize (str key) = str key →
  map clean_member (omitempty e key v) = omitempty e' key v'.
Proof. intros <- <- Hk. unfold omitempty. destruct e; [done|]. unfold clean_member. cbn [map fst snd]. by rewrite Hk. Qed.

Lemma clean_one key v v' :
  clean v = v' → sanitize (str key) = str key → map clean_member [(str key, v)] = [(str key, v')].
Proof. intros <- Hk. unfold clean_member. cbn [map fst snd]. by rewrite Hk. Qed.

Lemma clean_members m : headers_valid m → map clean_member (message_members m) = message_members (sanitize_message m).
Proof.
  intros Hh. unfold message_members. rewrite !map_app. cbn [msg_ID msg_Topic msg_Payload msg_Headers msg_Priority
    msg_Timestamp msg_DeliverAt msg_RetryCount msg_MaxRetries msg_ConsumerID msg_AckDeadline msg_FailureCause sanitize_message].
  assert (∀ s, bool_decide (s = "") = bool_decide (sanitize_string s = "")) as He.
  { intros s. apply bool_decide_ext. by rewrite sanitize_string_empty. }
  repeat f_equal;
    repeat first [apply clean_string | apply clean_int | apply clean_bytes | apply (clean_map _ Hh) | apply He
                 | apply clean_omitempty; [| |by vm_compute] | apply clean_one; [|by vm_compute] | reflexivity].
Qed.

(** What the log makes of a message. *)
Lemma Unmarshal_sanitized m ws :
  in_range m → headers_valid m → skip_ws ws = [] → Unmarshal (Marshal m ++ ws) = Some (sanitize_message m).
Proof.
  intros Hr Hh Hws. destruct (message_ok m) as [Hw Hn]. unfold Unmarshal, Marshal.
  rewrite parse_print //; [unfold maxNestingDepth; lia|]. cbn [mbind option_bind clean].
  change (λ kv, (sanitize kv.1, clean kv.2)) with clean_member. rewrite clean_members //.
  apply assign_members. by destruct Hr.
Qed.

Lemma sanitize_message_valid m : valid_message m → sanitize_message m = m.
Proof.
  intros []. unfold sanitize_message. rewrite !sanitize_string_valid //. by destruct m.
Qed.

Lemma Unmarshal_Marshal m : valid_message m → Unmarshal (Marshal m) = Some m.
Proof.
  intros Hv. rewrite -{1}(app_nil_r (Marshal m)) Unmarshal_sanitized //; [apply Hv|apply Hv|]. by rewrite sanitize_message_valid.
Qed.

(** IDs are ASCII. *)
Definition ascii (s : bytes) : Prop := Forall (λ c, byteZ c < 0x80) s.

Lemma FormatUint_ascii n : 0 ≤ n → ascii (FormatUint n).
Proof.
  intros Hn. destruct (FormatUint_spec n Hn) as (Hd & _). eapply Forall_impl; [exact Hd|].
  unfold is_digit. intros. lia.
Qed.

Lemma FormatInt_ascii n : ascii (FormatInt n).
Proof.
  unfold FormatInt. destruct (Z.ltb_spec n 0); [|by apply FormatUint_ascii].
  apply Forall_cons. split; [by vm_compute|]. apply FormatUint_ascii. lia.
Qed.

Lemma hex_digit_ascii d : 0 ≤ d < 16 → byteZ (hex_digit d) < 0x80.
Proof.
  intros Hd. unfold hex_digit. destruct (Z.ltb_spec d 10); rewrite byteZ_byte_of_Z Z.mod_small; lia.
Qed.

Lemma EncodeToString_ascii b : ascii (EncodeToString b).
Proof.
  unfold EncodeToString, ascii. induction b as [|c b IH]; [by apply Forall_nil|].
  cbn [map concat app]. pose proof (byteZ_range c). repeat (apply Forall_cons; split); [..|exact IH];
    apply hex_digit_ascii; Z.div_mod_to_equations; lia.
Qed.

Lemma message_id_valid now seq rnd : valid_utf8 (str (message_id now seq rnd)).
Proof.
  unfold message_id. rewrite str_gostring. apply sanitize_ascii. apply Forall_app. split; [apply FormatInt_ascii|].
  apply Forall_cons. split; [by vm_compute|]. apply Forall_app. split; [apply FormatInt_ascii|].
  apply Forall_cons. split; [by vm_compute|apply EncodeToString_ascii].
Qed.

(** ** Properties *)

(** C21: messages survive their text form.  A message whose numbers are in the range of
    their fields and whose headers (keys and values; the program itself never sets any)
    are valid UTF-8 is read back from its JSON with the rest of its text made valid UTF-8
    and everything else, the payload included, unchanged; it is read back exactly if and
    only if its ID, topic, consumer and failure cause are valid UTF-8. *)
Theorem message_json_roundtrip m (Hr : in_range m) (Hh : headers_valid m) :
  Unmarshal (Marshal m) = Some (sanitize_message m) ∧
  (Unmarshal (Marshal m) = Some m ↔
     valid_utf8 (str (msg_ID m)) ∧ valid_utf8 (str (msg_Topic m)) ∧
     valid_utf8 (str (msg_ConsumerID m)) ∧ valid_utf8 (str (msg_FailureCause m))).
Proof.
  assert (Unmarshal (Marshal m) = Some (sanitize_message m)) as E.
  { rewrite -(app_nil_r (Marshal m)). by apply Unmarshal_sanitized. }
  split; [done|]. rewrite E. split.
  - assert (∀ s, sanitize_string s = s → valid_utf8 (str s)) as Hs.
    { intros s Es. unfold valid_utf8. by rewrite -str_sanitize Es. }
    destruct m. unfold sanitize_message. cbn. intros [=]. split_and!; by apply Hs.
  - intros (H1 & H2 & H3 & H4). by rewrite sanitize_message_valid.
Qed.

(** A message with a payload that is not text and a topic that is not UTF-8. *)
Definition demo_bad : Message :=
  mkMessage "1-1-" (gostring [x61; xff]) (Some [x00; xff]) ∅ 0 7 7 0 3 "" 0 "".

Lemma message_json_roundtrip_witness :
  Unmarshal (Marshal demo_bad) =
    Some (mkMessage "1-1-" (gostring [x61; xef; xbf; xbd]) (Some [x00; xff]) ∅ 0 7 7 0 3 "" 0 "").
Proof.
  destruct (message_json_roundtrip demo_bad) as [E _].
  - split; unfold is_i64; by vm_compute.
  - by apply map_Forall_empty.
  - rewrite E. by vm_compute.
Defined.
