(* ===== verification/Checksum.v ===== *)
(** * Checksums and fixed-width integers

    What the write-ahead log uses of [hash/crc32] and [encoding/binary]: the
    IEEE CRC-32, streamed byte by byte, and big-endian 32-bit integers.  The
    lemmas at the end are what makes the checksum useful: the running value is
    determined by the next one and the byte, so two inputs of the same length
    that differ in one byte never have the same checksum. *)

From S2P Require Import Prelude GoText.

(** ** CRC-32 (IEEE, reflected) *)

Definition crc_poly : Z := 0xEDB88320.

(** One bit: shift right, and subtract the polynomial if the bit shifted out
    was set. *)
Definition crc_bit (c : Z) : Z :=
  if Z.odd c then Z.lxor (Z.shiftr c 1) crc_poly else Z.shiftr c 1.

Definition crc_byte (c : Z) (b : byte) : Z := Nat.iter 8 crc_bit (Z.lxor c (byteZ b)).

(** [crc.Write(p)] on the running value. *)
Definition crc_write (c : Z) (p : bytes) : Z := fold_left crc_byte p c.

Definition crc_init : Z := 0xFFFFFFFF.

(** [crc.Sum32()] *)
Definition crc_sum (c : Z) : Z := Z.lxor c 0xFFFFFFFF.

Definition ChecksumIEEE (p : bytes) : Z := crc_sum (crc_write crc_init p).

(** ** [binary.BigEndian] *)

Definition PutUint32 (v : Z) : bytes :=
  [byte_of_Z (Z.shiftr v 24); byte_of_Z (Z.shiftr v 16); byte_of_Z (Z.shiftr v 8); byte_of_Z v].

(** [Uint32] of a slice of four bytes. *)
Definition Uint32 (b : bytes) : Z := fold_left (λ a c, a * 256 + byteZ c) (take 4 b) 0.

(** ** Lemmas *)

Definition is_u32 (z : Z) : Prop := 0 ≤ z < 2 ^ 32.

Global Instance is_u32_dec z : Decision (is_u32 z) := _.

Lemma PutUint32_length v : length (PutUint32 v) = 4%nat.
Proof. done. Qed.

Lemma Uint32_PutUint32 v rest : is_u32 v → Uint32 (PutUint32 v ++ rest) = v.
Proof.
  intros Hv. unfold is_u32 in Hv. unfold Uint32, PutUint32. simpl.
  rewrite !byteZ_byte_of_Z !Z.shiftr_div_pow2; [lia..|].
  change (2 ^ 24) with 16777216. change (2 ^ 16) with 65536. change (2 ^ 8) with 256.
  pose proof (Z.div_mod v 256 ltac:(lia)). pose proof (Z.div_mod (v / 256) 256 ltac:(lia)).
  pose proof (Z.div_mod (v / 65536) 256 ltac:(lia)).
  rewrite (_ : v / 65536 = v / 256 / 256) in H1 |- *; [by rewrite Z.div_div|].
  rewrite (_ : v / 16777216 = v / 256 / 256 / 256); [by rewrite !Z.div_div|].
  rewrite (Z.mod_small (v / 256 / 256 / 256)); [|lia].
  rewrite !Z.div_div //. split; [apply Z.div_pos; lia|apply Z.div_lt_upper_bound; lia].
Qed.

Lemma PutUint32_Uint32 b : length b = 4%nat → PutUint32 (Uint32 b) = b.
Proof.
  destruct b as [|b0 [|b1 [|b2 [|b3 [|b4 b]]]]]; try done. intros _. unfold Uint32, PutUint32. simpl.
  pose proof (byteZ_range b0). pose proof (byteZ_range b1). pose proof (byteZ_range b2).
  pose proof (byteZ_range b3).
  assert (∀ x y z, byteZ x = z mod 256 → y = byte_of_Z z → y = x) as Hb.
  { intros x y z Hx ->. apply byteZ_inj. by rewrite byteZ_byte_of_Z. }
  set (v := _ + byteZ b3). rewrite !Z.shiftr_div_pow2; [lia..|].
  change (2 ^ 24) with 16777216. change (2 ^ 16) with 65536. change (2 ^ 8) with 256.
  repeat f_equal; eapply Hb; [|reflexivity| |reflexivity| |reflexivity| |reflexivity];
    unfold v; Z.to_euclidean_division_equations; lia.
Qed.

Lemma Uint32_range b : is_u32 (Uint32 b).
Proof.
  unfold Uint32, is_u32. destruct b as [|b0 [|b1 [|b2 [|b3 b]]]]; simpl;
    repeat match goal with |- context [byteZ ?x] => pose proof (byteZ_range x); generalize dependent (byteZ x); intros end; lia.
Qed.

Lemma lxor_u32 a b : is_u32 a → is_u32 b → is_u32 (Z.lxor a b).
Proof.
  intros Ha Hb. unfold is_u32 in *. assert (0 ≤ Z.lxor a b) as Hp by (apply Z.lxor_nonneg; lia).
  split; [done|]. destruct (Z.eq_dec (Z.lxor a b) 0) as [->|Hn]; [lia|].
  apply Z.log2_lt_pow2; [lia|]. eapply Z.le_lt_trans; [apply Z.log2_lxor; lia|].
  apply Z.max_lub_lt.
  - destruct (Z.eq_dec a 0) as [->|]; [done|]. apply Z.log2_lt_pow2; lia.
  - destruct (Z.eq_dec b 0) as [->|]; [done|]. apply Z.log2_lt_pow2; lia.
Qed.

Lemma lxor_cancel a b c : Z.lxor a c = Z.lxor b c → a = b.
Proof. intros H. by rewrite -(Z.lxor_0_r a) -(Z.lxor_nilpotent c) -Z.lxor_assoc H Z.lxor_assoc Z.lxor_nilpotent Z.lxor_0_r. Qed.

Lemma crc_bit_u32 c : is_u32 c → is_u32 (crc_bit c).
Proof.
  intros Hc. assert (is_u32 (Z.shiftr c 1)) as Hs.
  { unfold is_u32 in *. rewrite Z.shiftr_div_pow2; [lia|]. change (2 ^ 1) with 2.
    pose proof (Z.div_mod c 2 ltac:(lia)). pose proof (Z.mod_pos_bound c 2 ltac:(lia)). lia. }
  unfold crc_bit. destruct (Z.odd c); [|done]. by apply lxor_u32.
Qed.

(** The top bit of the result tells whether the polynomial was subtracted. *)
Lemma crc_bit_top c : is_u32 c → Z.testbit (crc_bit c) 31 = Z.odd c.
Proof.
  intros Hc. assert (Z.testbit (Z.shiftr c 1) 31 = false) as Ht.
  { rewrite Z.shiftr_spec; [lia|]. unfold is_u32 in Hc.
    destruct (Z.eq_dec c 0) as [->|Hn]; [done|]. apply Z.bits_above_log2; [lia|].
    apply Z.log2_lt_pow2; lia. }
  unfold crc_bit. destruct (Z.odd c); [|done]. by rewrite Z.lxor_spec Ht.
Qed.

Lemma crc_bit_inj c1 c2 : is_u32 c1 → is_u32 c2 → crc_bit c1 = crc_bit c2 → c1 = c2.
Proof.
  intros H1 H2 E. assert (Z.odd c1 = Z.odd c2) as Ho by by rewrite -crc_bit_top // E crc_bit_top.
  assert (Z.shiftr c1 1 = Z.shiftr c2 1) as Es.
  { unfold crc_bit in E. rewrite Ho in E. destruct (Z.odd c2); [by eapply lxor_cancel|done]. }
  rewrite !Z.shiftr_div_pow2 in Es; [lia..|]. change (2 ^ 1) with 2 in Es.
  pose proof (Z.div_mod c1 2 ltac:(lia)) as D1. pose proof (Z.div_mod c2 2 ltac:(lia)) as D2.
  rewrite !Zmod_odd Ho in D1 D2. lia.
Qed.

Lemma crc_bits_u32 n c : is_u32 c → is_u32 (Nat.iter n crc_bit c).
Proof. intros Hc. induction n as [|n IH]; simpl; [done|]. by apply crc_bit_u32. Qed.

Lemma crc_bits_inj n c1 c2 :
  is_u32 c1 → is_u32 c2 → Nat.iter n crc_bit c1 = Nat.iter n crc_bit c2 → c1 = c2.
Proof.
  intros H1 H2. induction n as [|n IH]; simpl; [done|]. intros E. apply IH.
  by apply crc_bit_inj; [apply crc_bits_u32..|].
Qed.

Lemma byteZ_u32 b : is_u32 (byteZ b).
Proof. unfold is_u32. pose proof (byteZ_range b). lia. Qed.

Lemma crc_byte_u32 c b : is_u32 c → is_u32 (crc_byte c b).
Proof. intros. apply crc_bits_u32, lxor_u32; [done|apply byteZ_u32]. Qed.

Lemma crc_byte_inj_state c1 c2 b :
  is_u32 c1 → is_u32 c2 → crc_byte c1 b = crc_byte c2 b → c1 = c2.
Proof.
  intros H1 H2 E. apply crc_bits_inj in E; [|by apply lxor_u32; [|apply byteZ_u32]..].
  by eapply lxor_cancel.
Qed.

Lemma crc_byte_inj_byte c b1 b2 : is_u32 c → crc_byte c b1 = crc_byte c b2 → b1 = b2.
Proof.
  intros H1 E. apply crc_bits_inj in E; [|by apply lxor_u32; [|apply byteZ_u32]..].
  apply byteZ_inj. rewrite (Z.lxor_comm c) (Z.lxor_comm c (byteZ b2)) in E. by eapply lxor_cancel.
Qed.

Lemma crc_write_u32 p : ∀ c, is_u32 c → is_u32 (crc_write c p).
Proof. induction p as [|b p IH]; intros c Hc; simpl; [done|]. by apply IH, crc_byte_u32. Qed.

Lemma crc_write_app c p1 p2 : crc_write c (p1 ++ p2) = crc_write (crc_write c p1) p2.
Proof. apply fold_left_app. Qed.

Lemma crc_write_inj p : ∀ c1 c2, is_u32 c1 → is_u32 c2 → crc_write c1 p = crc_write c2 p → c1 = c2.
Proof.
  induction p as [|b p IH]; intros c1 c2 H1 H2; simpl; [done|]. intros E.
  apply IH in E; [|by apply crc_byte_u32..]. by eapply crc_byte_inj_state.
Qed.

Lemma ChecksumIEEE_u32 p : is_u32 (ChecksumIEEE p).
Proof. apply lxor_u32; [by apply crc_write_u32|done]. Qed.

(** One changed byte always changes the checksum. *)
Lemma ChecksumIEEE_one_byte p b1 b2 r :
  ChecksumIEEE (p ++ b1 :: r) = ChecksumIEEE (p ++ b2 :: r) → b1 = b2.
Proof.
  unfold ChecksumIEEE, crc_sum. intros E%lxor_cancel. rewrite !crc_write_app in E. simpl in E.
  assert (is_u32 (crc_write crc_init p)) by by apply crc_write_u32.
  apply crc_write_inj in E; [|by apply crc_byte_u32..]. by eapply crc_byte_inj_byte.
Qed.

(** The check value of the CRC-32/ISO-HDLC standard. *)
Lemma ChecksumIEEE_check : ChecksumIEEE (str "123456789") = 0xCBF43926.
Proof. by vm_compute. Qed.
