(* ===== verification/Wal.v ===== *)
(** * The write-ahead log

    Models [src/internal/wal/wal.go]: the record format, the buffered writer
    with its fsync policies, segment rotation, replay.

    The disk is a map from segment numbers to files.  A file has the bytes the
    kernel holds, which survive the death of the process, and the bytes of its
    last fsync, which survive the death of the machine.  Every system call may
    fail: [d_faults] lists the outcomes of the next calls ([Some n] is a
    failure, after [n] bytes for a write; the list's end means success), so a
    statement about every list of faults is a statement about every behaviour
    of the disk.  [vortexmq_%06d.wal] sorts as the number does up to 999999
    segments, so replay visits segments in numeric order.

    Messages are written and read as JSON, by [MessageJson.Marshal] and
    [MessageJson.Unmarshal]. *)

From stdpp Require Import sorting.
From S2P Require Import Prelude GoText Checksum Message Broker MessageJson.

(** ** Records *)

Definition OpPublish : byte := x01.

Definition OpAck : byte := x02.

Definition OpNack : byte := x03.

Definition OpDLQ : byte := x04.

Inductive FsyncPolicy : Type := FsyncEverySec | FsyncAlways | FsyncNone.

Global Instance FsyncPolicy_eq_dec : EqDecision FsyncPolicy.
Proof. solve_decision. Defined.

(** An operation code and its payload. *)
Abbreviation record := (byte * bytes)%type.

(** The buffer of [writeRecord]: the length and the slice bounds are those of
    [uint32] arithmetic; [None] is the panic of an index out of range. *)
Definition encode_record (op : byte) (payload : bytes) : option bytes :=
  let payloadLen := u32 (Z.of_nat (length payload)) in
  let totalLen := u32 (9 + payloadLen) in
  if totalLen <? 9 then None else
  let checksum := crc_sum (crc_write (crc_write crc_init [op]) payload) in
  Some (PutUint32 totalLen ++ PutUint32 checksum ++ op :: take (Z.to_nat (totalLen - 9)) payload).

(** The loop of [Replay] over one file: the records it accepts, in order.  Each
    round consumes at least nine bytes, so [length f] rounds are enough. *)
Fixpoint scan_loop (fuel : nat) (f : bytes) : list record :=
  match fuel with
  | O => []
  | S fuel' =>
      if Z.of_nat (length f) <? 8 then [] else
      let header := take 8 f in
      let rest := drop 8 f in
      let totalLen := Uint32 (take 4 header) in
      let expectedCRC := Uint32 (drop 4 header) in
      if totalLen <? 9 then [] else
      let payloadLen := u32 (totalLen - 8) in
      if Z.of_nat (length rest) <? payloadLen then [] else
      let body := take (Z.to_nat payloadLen) rest in
      if negb (ChecksumIEEE body =? expectedCRC) then [] else
      match body with
      | [] => []
      | op :: recordData => (op, recordData) :: scan_loop fuel' (drop (Z.to_nat payloadLen) rest)
      end
  end.

Definition scan (f : bytes) : list record := scan_loop (S (length f)) f.

(** ** The disk *)

Record File : Type := mkFile { f_data : bytes; f_durable : bytes }.

Record Disk : Type := mkDisk { d_segs : gmap Z File; d_faults : list (option Z) }.

Definition syscall : prog Disk (option Z) := λ d,
  match d_faults d with
  | [] => Ret None d
  | f :: fs => Ret f (mkDisk (d_segs d) fs)
  end.

Definition seg_file (seg : Z) (d : Disk) : File := default (mkFile [] []) (d_segs d !! seg).

Definition put_file (seg : Z) (f : File) (d : Disk) : Disk :=
  mkDisk (<[seg := f]> (d_segs d)) (d_faults d).

(** [write(2)] in append mode: the count written and whether it succeeded. *)
Definition os_write (seg : Z) (p : bytes) : prog Disk (Z * bool) :=
  r ← syscall;
  d ← get;
  let f := seg_file seg d in
  let n := match r with None => length p | Some k => Nat.min (Z.to_nat k) (length p) end in
  put (put_file seg (mkFile (f_data f ++ take n p) (f_durable f)) d);;
  mret (Z.of_nat n, bool_decide (r = None)).

Definition os_fsync (seg : Z) : prog Disk unit :=
  r ← syscall;
  match r with
  | Some _ => mret tt
  | None => d ← get; let f := seg_file seg d in put (put_file seg (mkFile (f_data f) (f_data f)) d)
  end.

(** [os.OpenFile(path, O_CREATE|O_APPEND|O_WRONLY, 0644)] *)
Definition os_open (seg : Z) : prog Disk bool :=
  r ← syscall;
  match r with
  | Some _ => mret false
  | None => d ← get; put (put_file seg (seg_file seg d) d);; mret true
  end.

(** ** The log *)

(** [bufio.Writer]: the buffered bytes and the sticky error. *)
Record bufWriter : Type := mkBuf { bw_buf : bytes; bw_err : bool }.

Definition bufSize : Z := 256 * 1024.

Record WAL : Type := mkWAL {
  w_policy : FsyncPolicy;
  w_file : option Z;
  w_bw : bufWriter;
  w_segmentID : Z;
  w_maxSegSize : Z;
  w_currentSize : Z;
  w_closed : bool
}.

Abbreviation WS := (WAL * Disk)%type.

Definition set_bw (b : bufWriter) (w : WAL) : WAL :=
  mkWAL (w_policy w) (w_file w) b (w_segmentID w) (w_maxSegSize w) (w_currentSize w) (w_closed w).

Definition set_size (n : Z) (w : WAL) : WAL :=
  mkWAL (w_policy w) (w_file w) (w_bw w) (w_segmentID w) (w_maxSegSize w) n (w_closed w).

(** [f.Write(p)], [f.Sync()] of the active file; a closed file refuses. *)
Definition file_write (p : bytes) : prog WS (Z * bool) :=
  w ← gets lens_fst id;
  match w_file w with
  | Some seg => zoom lens_snd (os_write seg p)
  | None => mret (0, false)
  end.

Definition file_sync : prog WS unit :=
  w ← gets lens_fst id;
  match w_file w with
  | Some seg => zoom lens_snd (os_fsync seg)
  | None => mret tt
  end.

(** [bufWriter.Flush()]; [true] for no error. *)
Definition Flush : prog WS bool :=
  w ← gets lens_fst id;
  if bw_err (w_bw w) then mret false else
  match bw_buf (w_bw w) with
  | [] => mret true
  | p =>
      r ← file_write p;
      modify lens_fst (set_bw (mkBuf (drop (Z.to_nat r.1) p) (negb r.2)));;
      mret r.2
  end.

(** [bufWriter.Write(p)]: the loop, with the count so far.  Two rounds are
    enough: the first may fill and flush the buffer, the second writes what is
    left past an empty buffer. *)
Fixpoint buf_loop (fuel : nat) (p : bytes) (nn : Z) : prog WS (Z * bool) :=
  w ← gets lens_fst id;
  let b := w_bw w in
  let avail := bufSize - Z.of_nat (length (bw_buf b)) in
  if (avail <? Z.of_nat (length p)) && negb (bw_err b) then
    match fuel with
    | O => park
    | S fuel' =>
        match bw_buf b with
        | [] =>
            r ← file_write p;
            modify lens_fst (set_bw (mkBuf [] (negb r.2)));;
            buf_loop fuel' (drop (Z.to_nat r.1) p) (nn + r.1)
        | _ =>
            modify lens_fst (set_bw (mkBuf (bw_buf b ++ take (Z.to_nat avail) p) false));;
            Flush;;
            buf_loop fuel' (drop (Z.to_nat avail) p) (nn + avail)
        end
    end
  else if bw_err b then mret (nn, false)
  else modify lens_fst (set_bw (mkBuf (bw_buf b ++ p) false));; mret (nn + Z.of_nat (length p), true).

Definition buf_Write (p : bytes) : prog WS (Z * bool) := buf_loop 2 p 0.

Definition rotateSegment : prog WS unit :=
  Flush;;
  file_sync;;
  modify lens_fst (λ w, mkWAL (w_policy w) None (w_bw w) (w_segmentID w + 1) (w_maxSegSize w)
                           (w_currentSize w) (w_closed w));;
  w ← gets lens_fst id;
  ok ← zoom lens_snd (os_open (w_segmentID w));
  if (ok : bool) then
    modify lens_fst (λ w, mkWAL (w_policy w) (Some (w_segmentID w)) (mkBuf [] false)
                             (w_segmentID w) (w_maxSegSize w) 0 (w_closed w))
  else mret tt.

Definition writeRecord (op : byte) (payload : bytes) : prog WS error :=
  closed ← gets lens_fst w_closed;
  if (closed : bool) then mret (Some "wal is closed") else
  buf ← must (encode_record op payload);
  r ← buf_Write buf;
  if negb r.2 then mret (Some "write error") else
  modify lens_fst (λ w, set_size (i64 (w_currentSize w + r.1)) w);;
  w ← gets lens_fst id;
  (if bool_decide (w_policy w = FsyncAlways) then Flush;; file_sync
   else if 128 * 1024 <=? Z.of_nat (length (bw_buf (w_bw w))) then Flush;; mret tt
   else mret tt);;
  w ← gets lens_fst id;
  (if w_maxSegSize w <=? w_currentSize w then rotateSegment else mret tt);;
  mret None.

Definition Sync : prog WS unit :=
  closed ← gets lens_fst w_closed;
  if (closed : bool) then mret tt else Flush;; file_sync.

Definition Close : prog WS error :=
  w ← gets lens_fst id;
  if w_closed w then mret None else
  modify lens_fst (λ w, mkWAL (w_policy w) (w_file w) (w_bw w) (w_segmentID w) (w_maxSegSize w)
                           (w_currentSize w) true);;
  Flush;;
  file_sync;;
  w ← gets lens_fst id;
  modify lens_fst (λ w, mkWAL (w_policy w) None (w_bw w) (w_segmentID w) (w_maxSegSize w)
                           (w_currentSize w) (w_closed w));;
  mret (match w_file w with Some _ => None | None => Some "file already closed" end).

(** [f.Stat()], for the size of the segment. *)
Definition os_stat (seg : Z) : prog Disk (option Z) :=
  r ← syscall;
  match r with
  | Some _ => mret None
  | None => d ← get; mret (Some (Z.of_nat (length (f_data (seg_file seg d)))))
  end.

(** [OpenWAL] on the disk it finds; [None] if the directory cannot be created or the
    segment cannot be opened. *)
Definition OpenWAL (policy : FsyncPolicy) : prog Disk (option WAL) :=
  mkdir ← syscall;
  match mkdir with
  | Some _ => mret None
  | None =>
      ok ← os_open 1;
      if (ok : bool) then
        stat ← os_stat 1;
        mret (Some (mkWAL policy (Some 1) (mkBuf [] false) 1 (64 * 1024 * 1024) (default 0 stat) false))
      else mret None
  end.

(** ** Messages in the log *)

Definition WritePublish (msg : Message) : prog WS error := writeRecord OpPublish (Marshal msg).

(** [fmt.Sprintf("%s:%s:%s", topic, group, msgID)] *)
Definition WriteAck (topic group msgID : string) : prog WS error :=
  writeRecord OpAck (str topic ++ str ":" ++ str group ++ str ":" ++ str msgID).

(** What [Replay] makes of a record: the message to hand to [onPublish]. *)
Definition replay_record (r : record) : option Message :=
  if bool_decide (r.1 = OpPublish) then Unmarshal r.2 else None.

(** The files in the order of [filepath.Glob]; a file that cannot be opened is
    skipped. *)
Definition Replay {S} (files : list (option bytes)) (onPublish : Message → prog S unit) : prog S Z :=
  let msgs := omap replay_record (files ≫= λ f, scan (default [] f)) in
  forM msgs onPublish;; mret (Z.of_nat (length msgs)).

(** The contract of the broker. *)
Definition wal_contract : BrokerWAL WS := {|
  Broker.WritePublish := WritePublish;
  Broker.WriteAck := WriteAck;
  wal_Close := Close
|}.

(** The files of a disk in segment order, after the death of the process and
    after the death of the machine. *)
Definition segment_ids (d : Disk) : list Z := merge_sort Z.le (map_to_list (d_segs d)).*1.

Definition files_of (view : File → bytes) (d : Disk) : list (option bytes) :=
  (λ id, Some (view (seg_file id d))) <$> segment_ids d.

(** ** Lemmas on records *)

(** A record whose length fits the format. *)
Definition record_ok (r : record) : Prop := Z.of_nat (length r.2) < 2 ^ 32 - 9.

Global Instance record_ok_dec r : Decision (record_ok r) := _.

Definition enc (r : record) : bytes :=
  PutUint32 (9 + Z.of_nat (length r.2)) ++ PutUint32 (ChecksumIEEE (r.1 :: r.2)) ++ r.1 :: r.2.

Definition encs (rs : list record) : bytes := rs ≫= enc.

Global Arguments enc : simpl never.
Global Arguments encs : simpl never.

Lemma encode_ok r : record_ok r → encode_record r.1 r.2 = Some (enc r).
Proof.
  unfold record_ok, encode_record, enc, u32. intros Hr.
  rewrite (Z.mod_small (Z.of_nat (length r.2))); [lia|].
  rewrite (Z.mod_small (9 + Z.of_nat (length r.2))); [lia|].
  rewrite (proj2 (Z.ltb_ge _ _)); [lia|].
  rewrite take_ge; [lia|]. do 3 f_equal.
Qed.

Lemma enc_length r : length (enc r) = (9 + length r.2)%nat.
Proof. unfold enc. rewrite !length_app !PutUint32_length. simpl. lia. Qed.

Lemma encs_cons r rs : encs (r :: rs) = enc r ++ encs rs.
Proof. apply bind_cons. Qed.

Lemma encs_one r rs : encs (take 1 (r :: rs)) = enc r.
Proof. change (take 1 (r :: rs)) with [r]. by rewrite encs_cons app_nil_r. Qed.

Lemma encs_app rs1 rs2 : encs (rs1 ++ rs2) = encs rs1 ++ encs rs2.
Proof. apply bind_app. Qed.

(** ** Lemmas on scanning *)

(** One round on a file whose first four bytes encode [total] and whose next
    four encode [crc]. *)
Lemma scan_round fuel total c f :
  is_u32 total → is_u32 c → 9 ≤ total →
  scan_loop (S fuel) (PutUint32 total ++ PutUint32 c ++ f) =
    if Z.of_nat (length f) <? total - 8 then [] else
    if negb (ChecksumIEEE (take (Z.to_nat (total - 8)) f) =? c) then [] else
    match take (Z.to_nat (total - 8)) f with
    | [] => []
    | op :: data => (op, data) :: scan_loop fuel (drop (Z.to_nat (total - 8)) f)
    end.
Proof.
  intros Ht Hc H9. unfold is_u32 in Ht. cbn [scan_loop].
  rewrite !length_app !PutUint32_length (proj2 (Z.ltb_ge _ 8)); [lia|].
  rewrite app_assoc take_app_length' // drop_app_length' //.
  rewrite take_app_length' // drop_app_length' //.
  rewrite -{1}(app_nil_r (PutUint32 total)) -{1}(app_nil_r (PutUint32 c)) !Uint32_PutUint32 //.
  rewrite (proj2 (Z.ltb_ge _ 9)) //. unfold u32. rewrite Z.mod_small; [lia|]. done.
Qed.

Lemma scan_enc fuel r f : record_ok r → scan_loop (S fuel) (enc r ++ f) = r :: scan_loop fuel f.
Proof.
  intros Hr. unfold record_ok in Hr. unfold enc. rewrite -!app_assoc.
  rewrite scan_round; [unfold is_u32; lia|apply ChecksumIEEE_u32|lia|].
  set (n := Z.to_nat (9 + Z.of_nat (length r.2) - 8)).
  assert (n = length (r.1 :: r.2)) as Hn by (unfold n; simpl; lia).
  rewrite (proj2 (Z.ltb_ge _ _)); [rewrite length_app; simpl; lia|].
  rewrite take_app_length' // drop_app_length' // Z.eqb_refl. simpl. by destruct r.
Qed.

(** The fuel of [scan] is enough: more makes no difference. *)
Lemma scan_loop_fuel n : ∀ fuel f,
  (length f ≤ n)%nat → (length f < fuel)%nat → scan_loop fuel f = scan f.
Proof.
  induction n as [n IH] using lt_wf_ind. intros fuel f Hn Hf. unfold scan.
  destruct fuel as [|fuel]; [lia|]. cbn [scan_loop].
  destruct (Z.ltb_spec (Z.of_nat (length f)) 8); [done|].
  destruct (_ <? 9); [done|]. destruct (_ <? _); [done|]. destruct (negb _); [done|].
  destruct (take _ _) as [|op data] eqn:E; [done|]. f_equal.
  set (rest := drop _ (drop 8 f)).
  assert (length rest < length f)%nat as Hl.
  { unfold rest. rewrite !length_drop. destruct (length f); lia. }
  rewrite (IH (length rest)); [lia|lia|lia|]. by rewrite (IH (length rest)); [lia|lia|lia|].
Qed.

Lemma scan_cons r f : record_ok r → scan (enc r ++ f) = r :: scan f.
Proof.
  intros Hr. unfold scan at 1. rewrite scan_enc //. f_equal.
  apply (scan_loop_fuel (length f)); [done|]. rewrite length_app enc_length. lia.
Qed.

Lemma scan_encs rs f : Forall record_ok rs → scan (encs rs ++ f) = rs ++ scan f.
Proof.
  induction 1 as [|r rs Hr _ IH]; [done|]. by rewrite encs_cons -app_assoc scan_cons // IH.
Qed.

Lemma scan_whole rs : Forall record_ok rs → scan (encs rs) = rs.
Proof. intros Hok. by rewrite -{1}(app_nil_r (encs rs)) scan_encs // app_nil_r. Qed.

(** A record cut short is not read. *)
Lemma scan_torn r p : record_ok r → p `prefix_of` enc r → (length p < length (enc r))%nat → scan p = [].
Proof.
  intros Hr [s Hs] Hl. unfold record_ok in Hr.
  destruct (Nat.lt_ge_cases (length p) 8) as [H8|H8].
  { unfold scan. cbn [scan_loop]. by rewrite (proj2 (Z.ltb_lt _ _)); [lia|]. }
  set (h := PutUint32 (9 + Z.of_nat (length r.2)) ++ PutUint32 (ChecksumIEEE (r.1 :: r.2))).
  assert (p = h ++ drop 8 p) as Hp.
  { rewrite -{1}(take_drop 8 p). f_equal. rewrite -(take_app_le p s 8) // -Hs /enc app_assoc.
    by rewrite take_app_length'. }
  rewrite Hp /h -app_assoc /scan scan_round; [unfold is_u32; lia|apply ChecksumIEEE_u32|lia|].
  rewrite (proj2 (Z.ltb_lt _ _)) //. rewrite length_drop. rewrite enc_length in Hl. lia.
Qed.

(** The records of a prefix of a log. *)
Lemma scan_prefix rs : ∀ p, Forall record_ok rs → p `prefix_of` encs rs →
  ∃ k, scan p = take k rs ∧ encs (take k rs) `prefix_of` p ∧
    (k = length rs ∨ (length p < length (encs (take (S k) rs)))%nat) ∧ (k ≤ length rs)%nat.
Proof.
  induction rs as [|r rs IH]; intros p Hok Hp.
  { exists 0%nat. apply prefix_nil_inv in Hp as ->. split_and!; [done|done|by left|done]. }
  apply Forall_cons in Hok as [Hr Hok]. rewrite encs_cons in Hp.
  destruct (Nat.lt_ge_cases (length p) (length (enc r))) as [Hlt|Hge].
  - exists 0%nat. split_and!; [|by exists p|right; by rewrite encs_one|simpl; lia].
    apply (scan_torn r p Hr); [|done]. destruct Hp as [s Hs].
    exists (drop (length p) (enc r)). rewrite -{1}(take_drop (length p) (enc r)). f_equal.
    rewrite -(take_app_le (enc r) (encs rs)); [lia|]. by rewrite Hs take_app_length.
  - destruct Hp as [s Hs]. assert (p = enc r ++ drop (length (enc r)) p) as Ep.
    { rewrite -{1}(take_drop (length (enc r)) p). f_equal.
      rewrite -(take_app_le p s) // -Hs. by rewrite take_app_length. }
    set (p' := drop (length (enc r)) p) in *.
    destruct (IH p' Hok) as (k & E & [t Ht] & Hk & Hkl).
    { exists s. rewrite Ep -app_assoc in Hs. by apply app_inv_head in Hs. }
    exists (S k). rewrite Ep scan_cons // E. split_and!; [done| | |simpl; lia].
    + exists t. change (take (S k) (r :: rs)) with (r :: take k rs).
      rewrite encs_cons -app_assoc. by rewrite -Ht.
    + destruct Hk as [->|Hk]; [by left|right].
      change (take (S (S k)) (r :: rs)) with (r :: take (S k) rs). rewrite encs_cons !length_app. lia.
Qed.

(** A record with one damaged byte in its checksum or its body is not read. *)
Lemma scan_damaged r i b f :
  record_ok r → (4 ≤ i < length (enc r))%nat → enc r !! i ≠ Some b → scan (<[i := b]> (enc r) ++ f) = [].
Proof.
  intros Hr Hi Hb. pose proof Hr as Hlen. unfold record_ok in Hlen. rewrite enc_length in Hi.
  set (T := PutUint32 (9 + Z.of_nat (length r.2))). set (C := PutUint32 (ChecksumIEEE (r.1 :: r.2))).
  assert (is_u32 (9 + Z.of_nat (length r.2))) as HT by (unfold is_u32; lia).
  assert (enc r = T ++ C ++ r.1 :: r.2) as Ee by done. rewrite Ee in Hb |- *.
  rewrite insert_app_r_alt; [rewrite PutUint32_length; lia|]. rewrite lookup_app_r in Hb; [rewrite PutUint32_length; lia|].
  rewrite PutUint32_length in Hb |- *.
  set (n := Z.to_nat (9 + Z.of_nat (length r.2) - 8)).
  assert (n = length (r.1 :: r.2)) as Hn by (unfold n; simpl; lia).
  assert (∀ c body, length c = 4%nat → length body = n → ChecksumIEEE body ≠ Uint32 c →
    scan (T ++ c ++ body ++ f) = []) as Hbad.
  { intros c body Hc Hbody Hne. rewrite -(PutUint32_Uint32 c Hc) /scan scan_round //;
      [apply Uint32_range|lia|]. rewrite (proj2 (Z.ltb_ge _ _)); [rewrite length_app Hbody; lia|].
    rewrite take_app_length' // (proj2 (Z.eqb_neq _ _)) //. }
  destruct (Nat.lt_ge_cases i 8) as [Hc|Hc].
  - rewrite insert_app_l; [simpl; lia|]. rewrite lookup_app_l in Hb; [simpl; lia|].
    rewrite -!app_assoc. apply Hbad; [by rewrite length_insert|by rewrite Hn|].
    intros E. apply Hb. assert (<[(i - 4)%nat := b]> C = C) as Ec.
    { rewrite -(PutUint32_Uint32 (<[(i - 4)%nat := b]> C)); [by rewrite length_insert|]. by rewrite -E. }
    rewrite -Ec. apply list_lookup_insert_eq. simpl. lia.
  - rewrite insert_app_r_alt; [simpl; lia|]. rewrite lookup_app_r in Hb; [simpl; lia|].
    rewrite PutUint32_length in Hb |- *. set (j := (i - 4 - 4)%nat) in *.
    assert (j < length (r.1 :: r.2))%nat as Hj by (unfold j; simpl; lia).
    destruct (lookup_lt_is_Some_2 _ _ Hj) as [x Hx]. rewrite -!app_assoc.
    apply Hbad; [done|by rewrite length_insert Hn|].
    rewrite -{1}(app_nil_r C) Uint32_PutUint32; [apply ChecksumIEEE_u32|].
    rewrite insert_take_drop //. intros E. rewrite -[r.1 :: r.2 in RHS](take_drop_middle _ _ _ Hx) in E.
    apply ChecksumIEEE_one_byte in E. subst. by rewrite Hx in Hb.
Qed.

(** ** Properties *)

(** C23: a torn log.  Cut the log at any byte, as a crash in the middle of a
    write does: replay returns exactly the records that are complete, in order,
    and stops without reading anything else. *)
Theorem wal_torn_tail rs p (Hok : Forall record_ok rs) (Hp : p `prefix_of` encs rs) :
  ∃ k, scan p = take k rs ∧ encs (take k rs) `prefix_of` p ∧
    (k = length rs ∨ (length p < length (encs (take (S k) rs)))%nat).
Proof. destruct (scan_prefix rs p Hok Hp) as (k & ? & ? & ? & _). eauto. Qed.

(** C25: damage is detected.  Change any one byte of a record's checksum,
    operation code or payload: replay returns the records before it, exactly,
    and neither the damaged record nor anything after it in that segment. *)
Theorem wal_damage_detected rs r i b rest (Hok : Forall record_ok rs) (Hr : record_ok r)
  (Hi : (4 ≤ i < length (enc r))%nat) (Hb : enc r !! i ≠ Some b) :
  scan (encs rs ++ <[i := b]> (enc r) ++ rest) = rs.
Proof. by rewrite scan_encs // scan_damaged // app_nil_r. Qed.

Lemma wal_torn_tail_witness :
  ∃ k, scan (take 15 (encs [(OpPublish, str "a"); (OpAck, str "b")])) =
       take k [(OpPublish, str "a"); (OpAck, str "b")] ∧ k = 1%nat.
Proof.
  destruct (wal_torn_tail [(OpPublish, str "a"); (OpAck, str "b")]
    (take 15 (encs [(OpPublish, str "a"); (OpAck, str "b")]))) as (k & E & Hp & Hk).
  - by repeat constructor.
  - apply prefix_take.
  - exists k. split; [done|]. destruct k as [|[|k]]; [|done|].
    + destruct Hk as [Hk|Hk]; [done|]. vm_compute in Hk. lia.
    + apply prefix_length in Hp. rewrite (take_ge _ (S (S k))) in Hp; [simpl; lia|]. vm_compute in Hp. lia.
Defined.

Lemma wal_damage_detected_witness :
  scan (encs [(OpPublish, str "a")] ++ <[9%nat := x00]> (enc (OpPublish, str "b")) ++ str "tail") =
    [(OpPublish, str "a")].
Proof.
  apply (wal_damage_detected [(OpPublish, str "a")] (OpPublish, str "b") 9 x00 (str "tail")).
  - by repeat constructor.
  - done.
  - rewrite enc_length. simpl. lia.
  - by vm_compute.
Defined.
