(* ===== verification/WalDurable.v ===== *)
(** * Durability of the write-ahead log

    The invariant [log_rep s old cur]: the log in state [s], on a disk whose
    calls succeed, holds the segments [old] (complete, on stable storage) and
    is appending to the segment [cur], part of which may still be in the
    writer's buffer.  Every operation of the log is run once against it; the
    theorems follow: what replay returns after a crash, what each fsync policy
    guarantees, and what is lost when a call fails. *)

From stdpp Require Import sorting.
From S2P Require Import Prelude GoText Checksum Message.
From S2P Require Import Topic Custody TopicSafety Broker MessageJson Wal.

(** ** The active segment *)

(** The active file followed by the buffer is [X]; nothing has failed. *)
Record act_rep (s : WS) (X : bytes) : Prop := mkAct {
  ar_closed : w_closed s.1 = false;
  ar_file : w_file s.1 = Some (w_segmentID s.1);
  ar_err : bw_err (w_bw s.1) = false;
  ar_buf : Z.of_nat (length (bw_buf (w_bw s.1))) ≤ bufSize;
  ar_faults : d_faults s.2 = [];
  ar_data : ∃ f, d_segs s.2 !! w_segmentID s.1 = Some f ∧ f_data f ++ bw_buf (w_bw s.1) = X ∧
                 f_durable f `prefix_of` f_data f
}.

(** What an operation on the active segment leaves alone. *)
Record framed (s s' : WS) : Prop := mkFramed {
  fr_policy : w_policy s'.1 = w_policy s.1;
  fr_seg : w_segmentID s'.1 = w_segmentID s.1;
  fr_max : w_maxSegSize s'.1 = w_maxSegSize s.1;
  fr_size : w_currentSize s'.1 = w_currentSize s.1;
  fr_others : ∀ id, id ≠ w_segmentID s.1 → d_segs s'.2 !! id = d_segs s.2 !! id
}.

Lemma framed_refl s : framed s s.
Proof. by split. Qed.

Lemma framed_trans s1 s2 s3 : framed s1 s2 → framed s2 s3 → framed s1 s3.
Proof.
  intros [H1 H2 H3 H4 H5] [G1 G2 G3 G4 G5]. split; try congruence.
  intros id Hid. rewrite G5; [by rewrite H2|by apply H5].
Qed.

(** [write(2)] of [p] to the active file, with an empty buffer left behind. *)
Lemma file_write_run s f p :
  w_file s.1 = Some (w_segmentID s.1) → d_faults s.2 = [] → d_segs s.2 !! w_segmentID s.1 = Some f →
  file_write p s = Ret (Z.of_nat (length p), true)
    (s.1, put_file (w_segmentID s.1) (mkFile (f_data f ++ p) (f_durable f)) s.2).
Proof.
  intros Hf Hn Hs. unfold file_write. glue. unfold id. rewrite Hf. unfold zoom, os_write, syscall. run.
  rewrite Hn. unfold seg_file. rewrite Hs /= take_ge //.
Qed.

(** The state after the active file became [data] and the buffer [buf]. *)
Definition advanced (s : WS) (f : File) (data buf : bytes) : WS :=
  (set_bw (mkBuf buf false) s.1, put_file (w_segmentID s.1) (mkFile data (f_durable f)) s.2).

Lemma advanced_rep s X f data buf :
  act_rep s X → d_segs s.2 !! w_segmentID s.1 = Some f → f_data f `prefix_of` data →
  Z.of_nat (length buf) ≤ bufSize →
  act_rep (advanced s f data buf) (data ++ buf) ∧ framed s (advanced s f data buf).
Proof.
  intros [H1 H2 H3 H4 H5 (f0 & Hf0 & _ & Hd)] Hf Hp Hb. rewrite Hf in Hf0. injection Hf0 as <-.
  split; split; try done.
  - exists (mkFile data (f_durable f)). simpl. rewrite lookup_insert_eq. split_and!; [done|done|].
    by etrans.
  - intros id Hid. simpl. by rewrite lookup_insert_ne.
Qed.

Lemma Flush_run s X :
  act_rep s X →
  ∃ s', Flush s = Ret true s' ∧ act_rep s' X ∧ framed s s' ∧ bw_buf (w_bw s'.1) = [].
Proof.
  intros Hr. pose proof Hr as [H1 H2 H3 H4 H5 (f & Hf & HX & Hd)].
  unfold Flush. glue. unfold id. rewrite H3. destruct (bw_buf (w_bw s.1)) as [|b buf] eqn:Hbuf.
  { exists s. split_and!; [done|done|apply framed_refl|done]. }
  rewrite (file_write_run s f (b :: buf) H2 H5 Hf).
  destruct (advanced_rep s X f (f_data f ++ b :: buf) [] Hr Hf) as [Hr' Hfr].
  { by eexists. }
  { done. }
  rewrite app_nil_r HX in Hr'. exists (advanced s f (f_data f ++ b :: buf) []).
  split_and!; [|by rewrite HX|done|done].
  cbn [fst snd]. rewrite Nat2Z.id drop_all. done.
Qed.

Lemma file_sync_run s X :
  act_rep s X → bw_buf (w_bw s.1) = [] →
  ∃ s', file_sync s = Ret tt s' ∧ act_rep s' X ∧ framed s s' ∧ bw_buf (w_bw s'.1) = [] ∧
    d_segs s'.2 !! w_segmentID s'.1 = Some (mkFile X X).
Proof.
  intros [H1 H2 H3 H4 H5 (f & Hf & HX & Hd)] Hb. rewrite Hb app_nil_r in HX. subst X.
  exists (s.1, put_file (w_segmentID s.1) (mkFile (f_data f) (f_data f)) s.2).
  split_and!; [| |split; try done|done|apply lookup_insert_eq].
  - unfold file_sync. glue. unfold id. rewrite H2. unfold zoom, os_fsync, syscall. run.
    rewrite H5. unfold seg_file. by rewrite Hf.
  - split; try done. exists (mkFile (f_data f) (f_data f)). simpl. rewrite lookup_insert_eq Hb app_nil_r.
    by split_and!.
  - intros id Hid. simpl. by rewrite lookup_insert_ne.
Qed.

(** ** The buffered write *)

(** The last rounds of the write: the buffer is empty or the bytes fit. *)
Lemma buf_loop_end fuel s X p nn :
  act_rep s X → bw_buf (w_bw s.1) = [] ∨ Z.of_nat (length (bw_buf (w_bw s.1)) + length p) ≤ bufSize →
  ∃ s', buf_loop (S fuel) p nn s = Ret (nn + Z.of_nat (length p), true) s' ∧ act_rep s' (X ++ p) ∧ framed s s'.
Proof.
  intros Hr Hcase. pose proof Hr as [H1 H2 H3 H4 H5 (f & Hf & HX & Hd)].
  cbn [buf_loop]. glue. unfold id. rewrite H3. cbn [negb]. rewrite andb_true_r.
  destruct (Z.ltb_spec (bufSize - Z.of_nat (length (bw_buf (w_bw s.1)))) (Z.of_nat (length p))) as [Hlt|Hge].
  - assert (bw_buf (w_bw s.1) = []) as Hb by (destruct Hcase as [?|?]; [done|lia]).
    rewrite Hb in HX |- *. rewrite app_nil_r in HX.
    rewrite (file_write_run s f p H2 H5 Hf). cbn [fst snd negb]. rewrite Nat2Z.id drop_all.
    destruct (advanced_rep s X f (f_data f ++ p) [] Hr Hf) as [Hr' Hfr]; [by eexists|done|].
    rewrite app_nil_r HX in Hr'. exists (advanced s f (f_data f ++ p) []).
    split_and!; [|by rewrite HX|done]. destruct fuel; cbn; by rewrite Z.add_0_r.
  - destruct (advanced_rep s X f (f_data f) (bw_buf (w_bw s.1) ++ p) Hr Hf) as [Hr' Hfr]; [done| |].
    { rewrite length_app. lia. }
    rewrite app_assoc HX in Hr'.
    assert (advanced s f (f_data f) (bw_buf (w_bw s.1) ++ p) =
            (set_bw (mkBuf (bw_buf (w_bw s.1) ++ p) false) s.1, s.2)) as Ea.
    { unfold advanced, put_file. f_equal. destruct s as [w [segs fs]]. simpl in *. f_equal.
      apply insert_id. rewrite Hf. by destruct f. }
    rewrite Ea in Hr' Hfr. eexists. by split_and!.
Qed.

Lemma buf_Write_run s X p :
  act_rep s X →
  ∃ s', buf_Write p s = Ret (Z.of_nat (length p), true) s' ∧ act_rep s' (X ++ p) ∧ framed s s'.
Proof.
  intros Hr. unfold buf_Write.
  destruct (decide (bw_buf (w_bw s.1) = [] ∨ Z.of_nat (length (bw_buf (w_bw s.1)) + length p) ≤ bufSize))
    as [Hc|Hc]; [by apply (buf_loop_end 1 s X p 0)|].
  pose proof Hr as [H1 H2 H3 H4 H5 (f & Hf & HX & Hd)].
  destruct (bw_buf (w_bw s.1)) as [|b0 buf0] eqn:Hbuf; [exfalso; apply Hc; by left|].
  rewrite -Hbuf in Hc H4 HX. set (buf := bw_buf (w_bw s.1)) in *.
  set (avail := bufSize - Z.of_nat (length buf)).
  assert (avail < Z.of_nat (length p)) as Hav.
  { unfold avail. destruct (Z.lt_ge_cases (bufSize - Z.of_nat (length buf)) (Z.of_nat (length p))); [done|].
    exfalso. apply Hc. right. lia. }
  assert (0 ≤ avail) as Hav0 by (unfold avail; lia).
  set (p1 := take (Z.to_nat avail) p). set (p2 := drop (Z.to_nat avail) p).
  destruct (advanced_rep s X f (f_data f) (buf ++ p1) Hr Hf) as [Hr1 Hfr1]; [done| |].
  { rewrite length_app length_take. unfold avail in *. lia. }
  assert (advanced s f (f_data f) (buf ++ p1) = (set_bw (mkBuf (buf ++ p1) false) s.1, s.2)) as Ea.
  { unfold advanced, put_file. f_equal. destruct s as [w [segs fs]]. simpl in *. f_equal.
    apply insert_id. rewrite Hf. by destruct f. }
  rewrite app_assoc HX Ea in Hr1. rewrite Ea in Hfr1.
  destruct (Flush_run _ _ Hr1) as (s2 & E2 & Hr2 & Hfr2 & Hb2).
  destruct (buf_loop_end 0 s2 (X ++ p1) p2 avail Hr2) as (s3 & E3 & Hr3 & Hfr3); [by left|].
  exists s3. split_and!.
  - change (buf_loop 2 p 0) with (buf_loop (S 1) p 0). remember 1%nat as k eqn:Ek in E3 |- *.
    cbn [buf_loop]. glue. unfold id. rewrite H3.
    fold buf avail. rewrite (proj2 (Z.ltb_lt _ _)) //. cbn [andb negb].
    rewrite {1}Hbuf. fold p1 p2. rewrite E2.
    change (0 + avail) with avail. rewrite E3. f_equal. f_equal. unfold p2. rewrite length_drop. lia.
  - by rewrite -app_assoc take_drop in Hr3.
  - by eapply framed_trans, framed_trans.
Qed.

(** ** The whole log *)

Record log_rep (s : WS) (old : list (list record)) (cur : list record) : Prop := mkLog {
  lr_act : act_rep s (encs cur);
  lr_id : w_segmentID s.1 = Z.of_nat (length old) + 1;
  lr_old : ∀ i rs, old !! i = Some rs →
    d_segs s.2 !! (Z.of_nat i + 1) = Some (mkFile (encs rs) (encs rs));
  lr_dom : ∀ id, is_Some (d_segs s.2 !! id) → 1 ≤ id ≤ w_segmentID s.1;
  lr_ok : Forall (Forall record_ok) (old ++ [cur])
}.

Lemma log_framed s s' old cur cur' :
  log_rep s old cur → act_rep s' (encs cur') → framed s s' → Forall record_ok cur' →
  log_rep s' old cur'.
Proof.
  intros [Ha Hid Hold Hdom Hok] Ha' [_ Hseg _ _ Hoth] Hcur. split; [done|by rewrite Hseg| | |].
  - intros i rs Hi. rewrite Hoth; [apply lookup_lt_Some in Hi; lia|by apply Hold].
  - intros id Hs. destruct (decide (id = w_segmentID s.1)) as [->|Hne]; [rewrite Hseg; lia|].
    rewrite Hseg. apply Hdom. by rewrite -Hoth.
  - apply Forall_app in Hok as [Hok _]. apply Forall_app. split; [done|]. by constructor.
Qed.

Lemma log_cur_ok s old cur : log_rep s old cur → Forall record_ok cur.
Proof. intros [_ _ _ _ Hok]. apply Forall_app in Hok as [_ Hok]. by inversion Hok. Qed.

(** Counting bytes is not part of the invariant. *)
Lemma log_size s old cur n : log_rep s old cur → log_rep (set_size n s.1, s.2) old cur.
Proof. intros [[? ? ? ? ? ?] ? ? ? ?]. by split; [split|..]. Qed.

(** The active segment is on stable storage. *)
Definition synced (s : WS) (cur : list record) : Prop :=
  bw_buf (w_bw s.1) = [] ∧ d_segs s.2 !! w_segmentID s.1 = Some (mkFile (encs cur) (encs cur)).

Lemma flush_sync_run s old cur :
  log_rep s old cur →
  ∃ s', (Flush;; file_sync) s = Ret tt s' ∧ log_rep s' old cur ∧ framed s s' ∧ synced s' cur.
Proof.
  intros Hl. pose proof (log_cur_ok _ _ _ Hl) as Hok.
  destruct (Flush_run s _ (lr_act _ _ _ Hl)) as (s1 & E1 & Ha1 & Hf1 & Hb1).
  destruct (file_sync_run s1 _ Ha1 Hb1) as (s2 & E2 & Ha2 & Hf2 & Hb2 & Hd2).
  exists s2. split_and!; [by rewrite (bind_ret _ _ _ _ _ E1)| |by eapply framed_trans|done].
  eapply log_framed; [exact Hl|done|by eapply framed_trans|done].
Qed.

Lemma rotate_run s old cur :
  log_rep s old cur →
  ∃ s', rotateSegment s = Ret tt s' ∧ log_rep s' (old ++ [cur]) [] ∧
    w_policy s'.1 = w_policy s.1 ∧ w_maxSegSize s'.1 = w_maxSegSize s.1 ∧ w_currentSize s'.1 = 0 ∧
    d_segs s'.2 !! w_segmentID s'.1 = Some (mkFile [] []).
Proof.
  intros Hl. destruct (flush_sync_run s old cur Hl) as (s1 & E1 & Hl1 & Hf1 & Hb1 & Hd1).
  pose proof Hl1 as [Ha Hid Hold Hdom Hok]. pose proof Ha as [H1 H2 H3 H4 H5 _].
  set (n := w_segmentID s1.1) in *.
  assert (d_segs s1.2 !! (n + 1) = None) as Hnew.
  { destruct (d_segs s1.2 !! (n + 1)) eqn:E; [|done]. specialize (Hdom (n + 1)). rewrite E in Hdom.
    destruct Hdom; [by eexists|lia]. }
  set (w' := mkWAL (w_policy s1.1) (Some (n + 1)) (mkBuf [] false) (n + 1) (w_maxSegSize s1.1) 0
               (w_closed s1.1)).
  set (d' := put_file (n + 1) (mkFile [] []) s1.2).
  exists (w', d'). split_and!; [| |apply Hf1|apply Hf1|done|apply lookup_insert_eq].
  - unfold rotateSegment. unfold mbind, prog_bind in E1 |- *.
    destruct (Flush s) as [b s0|s0|] eqn:EF; try done. rewrite E1.
    run. unfold id, os_open, syscall. run. cbn [w_segmentID]. fold n. rewrite H5.
    unfold seg_file. by rewrite Hnew.
  - split.
    + split; try done. exists (mkFile [] []). split_and!; [apply lookup_insert_eq|done|done].
    + simpl. rewrite length_app. simpl. fold n in Hid. lia.
    + intros i rs Hi. simpl. rewrite lookup_insert_ne.
      { apply lookup_lt_Some in Hi. rewrite length_app in Hi. simpl in Hi. lia. }
      apply lookup_app_Some in Hi as [Hi|[Hge Hi]]; [by apply Hold|].
      apply list_lookup_singleton_Some in Hi as [Hi <-].
      replace (Z.of_nat i + 1) with n by lia. done.
    + intros id. simpl. rewrite lookup_insert. case_decide; [lia|]. intros Hs.
      specialize (Hdom id Hs). lia.
    + apply Forall_app. split; [done|]. by constructor.
Qed.

(** A write, up to the test for rotation. *)
Lemma writeRecord_act s cur op payload :
  act_rep s (encs cur) → record_ok (op, payload) →
  let r := (op, payload) in
  let size := i64 (w_currentSize s.1 + Z.of_nat (length (enc r))) in
  ∃ s', writeRecord op payload s =
      ((if w_maxSegSize s'.1 <=? w_currentSize s'.1 then rotateSegment else mret tt);; mret None) s' ∧
    act_rep s' (encs (cur ++ [r])) ∧ framed (set_size size s.1, s.2) s' ∧
    (w_policy s.1 = FsyncAlways → synced s' (cur ++ [r])).
Proof.
  intros Ha Hr r size.
  assert (encode_record op payload = Some (enc r)) as Ee by apply (encode_ok r Hr).
  destruct (buf_Write_run s _ (enc r) Ha) as (s1 & E1 & Ha1 & Hf1).
  assert (encs cur ++ enc r = encs (cur ++ [r])) as Ec by by rewrite encs_app encs_cons app_nil_r.
  rewrite Ec in Ha1. pose proof Hf1 as [Hp1 Hs1 Hm1 Hz1 Ho1].
  set (s2 := (set_size size s1.1, s1.2)).
  assert (act_rep s2 (encs (cur ++ [r]))) as Ha2 by (destruct Ha1; by split).
  assert (framed (set_size size s.1, s.2) s2) as Hf2 by by split.
  assert (w_policy s2.1 = w_policy s.1) as Hp by done.
  assert (∃ s3, (if bool_decide (w_policy s2.1 = FsyncAlways) then Flush;; file_sync
     else if 128 * 1024 <=? Z.of_nat (length (bw_buf (w_bw s2.1))) then Flush;; mret tt else mret tt) s2
      = Ret tt s3 ∧ act_rep s3 (encs (cur ++ [r])) ∧ framed s2 s3 ∧
      (w_policy s.1 = FsyncAlways → synced s3 (cur ++ [r]))) as (s3 & E3 & Ha3 & Hf3 & Hsy).
  { destruct (Flush_run s2 _ Ha2) as (s3 & E & Ha3 & Hf3 & Hb3). case_bool_decide as Hpol.
    - destruct (file_sync_run s3 _ Ha3 Hb3) as (s4 & E4 & Ha4 & Hf4 & Hb4 & Hd4). exists s4.
      split_and!; [by rewrite (bind_ret _ _ _ _ _ E)|done|by eapply framed_trans|done].
    - destruct (_ <=? _).
      + exists s3. split_and!; [by rewrite (bind_ret _ _ _ _ _ E)|done|done|congruence].
      + exists s2. split_and!; [done|done|apply framed_refl|congruence]. }
  exists s3. split_and!; [|done|by eapply framed_trans|done].
  unfold writeRecord. glue. rewrite (ar_closed _ _ Ha) Ee E1. cbn [fst snd negb]. unfold id.
  change (set_size _ s1.1, s1.2) with (set_size (i64 (w_currentSize s1.1 + Z.of_nat (length (enc r)))) s1.1, s1.2).
  rewrite Hz1. fold size s2. by rewrite E3.
Qed.

Lemma writeRecord_run s old cur op payload :
  log_rep s old cur → record_ok (op, payload) →
  ∃ s' old' cur', writeRecord op payload s = Ret None s' ∧ log_rep s' old' cur' ∧
    concat old' ++ cur' = concat old ++ cur ++ [(op, payload)] ∧
    w_policy s'.1 = w_policy s.1 ∧ (w_policy s.1 = FsyncAlways → synced s' cur').
Proof.
  intros Hl Hr. pose proof (log_cur_ok _ _ _ Hl) as Hok. set (r := (op, payload)).
  destruct (writeRecord_act s cur op payload (lr_act _ _ _ Hl) Hr) as (s3 & Ew & Ha3 & Hf3 & Hsy).
  assert (Forall record_ok (cur ++ [r])) as Hok' by (apply Forall_app; split; [done|by constructor]).
  pose proof (log_framed _ s3 old cur _ (log_size _ _ _ _ Hl) Ha3 Hf3 Hok') as Hl3.
  assert (w_policy s3.1 = w_policy s.1) as Hp3 by apply Hf3.
  rewrite Ew. destruct (w_maxSegSize s3.1 <=? w_currentSize s3.1).
  - destruct (rotate_run s3 _ _ Hl3) as (s4 & E4 & Hl4 & Hp4 & _ & _ & Hd4).
    exists s4, (old ++ [cur ++ [r]]), []. split_and!; [|done| |congruence|].
    + by rewrite (bind_ret _ _ _ _ _ E4).
    + by rewrite concat_app /= !app_nil_r.
    + intros _. split; [|done]. pose proof (lr_act _ _ _ Hl4) as [_ _ _ _ _ (f & Hf & HX & _)].
      rewrite Hd4 in Hf. injection Hf as <-. done.
  - exists s3, old, (cur ++ [r]). by split_and!.
Qed.

Lemma Sync_run s old cur :
  log_rep s old cur →
  ∃ s', Sync s = Ret tt s' ∧ log_rep s' old cur ∧ synced s' cur ∧ w_policy s'.1 = w_policy s.1.
Proof.
  intros Hl. destruct (flush_sync_run s old cur Hl) as (s' & E & Hl' & Hf & Hs).
  exists s'. split_and!; [|done|done|apply Hf]. unfold Sync. glue.
  by rewrite (ar_closed _ _ (lr_act _ _ _ Hl)).
Qed.

(** ** What replay reads *)

(** The records [Replay] accepts on a disk seen through [view]. *)
Definition recovered (view : File → bytes) (d : Disk) : list record :=
  files_of view d ≫= λ f, scan (default [] f).

Lemma seqZ_sorted n : ∀ m, StronglySorted Z.le (seqZ m (Z.of_nat n)).
Proof.
  induction n as [|n IH]; intros m; [constructor|]. rewrite seqZ_cons; [lia|].
  replace (Z.pred (Z.of_nat (S n))) with (Z.of_nat n) by lia. constructor; [apply IH|].
  apply Forall_forall. intros x Hx%elem_of_seqZ. lia.
Qed.

Lemma bind_seqZ {A} (F : Z → list A) (ls : list (list A)) : ∀ m,
  (∀ i l, ls !! i = Some l → F (m + Z.of_nat i) = l) → seqZ m (Z.of_nat (length ls)) ≫= F = concat ls.
Proof.
  induction ls as [|l ls IH]; intros m HF; [done|].
  rewrite seqZ_cons; [simpl; lia|]. rewrite bind_cons. simpl concat. f_equal.
  - specialize (HF 0%nat l eq_refl). by rewrite Z.add_0_r in HF.
  - replace (Z.pred (Z.of_nat (length (l :: ls)))) with (Z.of_nat (length ls)) by (simpl; lia).
    apply IH. intros i l' Hi. replace (Z.succ m + Z.of_nat i) with (m + Z.of_nat (S i)) by lia. by apply HF.
Qed.

(** The glob visits the segments 1, 2, ..., the active one last. *)
Lemma segment_ids_rep s old cur :
  log_rep s old cur → segment_ids s.2 = seqZ 1 (Z.of_nat (length old)) ++ [w_segmentID s.1].
Proof.
  intros [Ha Hid Hold Hdom _].
  transitivity (seqZ 1 (Z.of_nat (S (length old)))).
  - apply (StronglySorted_unique Z.le); [apply (StronglySorted_merge_sort Z.le)|apply seqZ_sorted|].
    unfold segment_ids. rewrite merge_sort_Permutation. apply NoDup_Permutation.
    + apply NoDup_fst_map_to_list.
    + apply NoDup_seqZ.
    + intros id. rewrite elem_of_seqZ list_elem_of_fmap. split.
      * intros ([id' f] & -> & Hin%elem_of_map_to_list). specialize (Hdom id' ltac:(by eexists)). simpl. lia.
      * intros Hr. destruct (decide (id = w_segmentID s.1)) as [->|Hne].
        -- destruct (ar_data _ _ Ha) as (f & Hf & _). exists (w_segmentID s.1, f).
           split; [done|by apply elem_of_map_to_list].
        -- destruct (lookup_lt_is_Some_2 old (Z.to_nat (id - 1))) as [rs Hrs]; [lia|].
           specialize (Hold _ _ Hrs). replace (Z.of_nat (Z.to_nat (id - 1)) + 1) with id in Hold by lia.
           eexists (id, _). split; [done|by apply elem_of_map_to_list].
  - replace (Z.of_nat (S (length old))) with (Z.of_nat (length old) + 1) by lia.
    rewrite seqZ_app; [lia|lia|]. rewrite Hid. f_equal. replace (1 + Z.of_nat (length old)) with (Z.of_nat (length old) + 1) by lia.
    rewrite seqZ_cons; [lia|done].
Qed.

Lemma recovered_rep s old cur view :
  log_rep s old cur → (view = f_data ∨ view = f_durable) →
  recovered view s.2 = concat old ++ scan (view (seg_file (w_segmentID s.1) s.2)).
Proof.
  intros Hl Hv. unfold recovered, files_of. rewrite (segment_ids_rep _ _ _ Hl) fmap_app bind_app. f_equal.
  - transitivity (seqZ 1 (Z.of_nat (length old)) ≫= λ id, scan (view (seg_file id s.2))).
    { generalize (seqZ 1 (Z.of_nat (length old))). intros l. induction l as [|x l IH]; [done|].
      rewrite fmap_cons !bind_cons IH. done. }
    apply bind_seqZ. intros i rs Hi. unfold seg_file. rewrite Z.add_comm (lr_old _ _ _ Hl i rs Hi).
    assert (Forall record_ok rs) as Hok.
    { pose proof (lr_ok _ _ _ Hl) as H. apply Forall_app in H as [H _].
      by eapply Forall_lookup_1 in H. }
    destruct Hv as [-> | ->]; by apply scan_whole.
  - rewrite fmap_cons bind_cons app_nil_r. done.
Qed.

(** A synced log is recovered whole. *)
Lemma recovered_synced s old cur view :
  log_rep s old cur → synced s cur → (view = f_data ∨ view = f_durable) →
  recovered view s.2 = concat old ++ cur.
Proof.
  intros Hl [_ Hd] Hv. rewrite (recovered_rep _ _ _ _ Hl Hv). unfold seg_file. rewrite Hd.
  f_equal. destruct Hv as [-> | ->]; apply scan_whole; by eapply log_cur_ok.
Qed.

(** Any log is recovered up to some record. *)
Lemma recovered_prefix s old cur view :
  log_rep s old cur → (view = f_data ∨ view = f_durable) →
  recovered view s.2 `prefix_of` concat old ++ cur.
Proof.
  intros Hl Hv. rewrite (recovered_rep _ _ _ _ Hl Hv). apply prefix_app.
  destruct (ar_data _ _ (lr_act _ _ _ Hl)) as (f & Hf & HX & Hd). unfold seg_file. rewrite Hf.
  change (default _ (Some f)) with f. destruct (scan_prefix cur (view f)) as (k & -> & _).
  - by eapply log_cur_ok.
  - assert (f_data f `prefix_of` encs cur) as Hp by (rewrite -HX; by eexists).
    destruct Hv as [-> | ->]; [done|by etrans].
  - apply prefix_take.
Qed.

(** ** Sequences of calls *)

Inductive wal_cmd : Type :=
| CWrite (op : byte) (payload : bytes)
| CSync.

Definition run_cmd (c : wal_cmd) : prog WS error :=
  match c with
  | CWrite op payload => writeRecord op payload
  | CSync => Sync;; mret None
  end.

(** The calls in order, with the error of each. *)
Fixpoint run_cmds (cs : list wal_cmd) : prog WS (list error) :=
  match cs with
  | [] => mret []
  | c :: cs' => e ← run_cmd c; es ← run_cmds cs'; mret (e :: es)
  end.

Definition written (cs : list wal_cmd) : list record :=
  omap (λ c, match c with CWrite op payload => Some (op, payload) | CSync => None end) cs.

Definition empty_disk : Disk := mkDisk ∅ [].

Lemma run_cmds_rep cs : ∀ s old cur,
  log_rep s old cur → Forall record_ok (written cs) →
  ∃ s' old' cur', run_cmds cs s = Ret (replicate (length cs) None) s' ∧ log_rep s' old' cur' ∧
    concat old' ++ cur' = concat old ++ cur ++ written cs ∧ w_policy s'.1 = w_policy s.1 ∧
    (w_policy s.1 = FsyncAlways → synced s cur → synced s' cur').
Proof.
  induction cs as [|c cs IH]; intros s old cur Hl Hok.
  { exists s, old, cur. split_and!; [done|done|by rewrite app_nil_r|done|done]. }
  assert (∃ s1 old1 cur1, run_cmd c s = Ret None s1 ∧ log_rep s1 old1 cur1 ∧
    concat old1 ++ cur1 ++ written cs = concat old ++ cur ++ written (c :: cs) ∧
    w_policy s1.1 = w_policy s.1 ∧ (w_policy s.1 = FsyncAlways → synced s cur → synced s1 cur1) ∧
    Forall record_ok (written cs)) as (s1 & old1 & cur1 & E1 & Hl1 & Hc1 & Hp1 & Hs1 & Hok1).
  { destruct c as [op payload|].
    - change (written (CWrite op payload :: cs)) with ((op, payload) :: written cs) in Hok |- *.
      apply Forall_cons in Hok as [Hr Hok].
      destruct (writeRecord_run s old cur op payload Hl Hr) as (s1 & old1 & cur1 & E & Hl1 & Hc & Hp & Hs).
      exists s1, old1, cur1. split_and!; [done|done| |done|auto|done].
      rewrite app_assoc Hc -!app_assoc. done.
    - destruct (Sync_run s old cur Hl) as (s1 & E & Hl1 & Hs & Hp). exists s1, old, cur.
      split_and!; [|done|done|done|done|done]. simpl. by rewrite (bind_ret _ _ _ _ _ E). }
  destruct (IH s1 old1 cur1 Hl1 Hok1) as (s2 & old2 & cur2 & E2 & Hl2 & Hc2 & Hp2 & Hs2).
  exists s2, old2, cur2. split_and!; [|done|by rewrite Hc2|congruence|].
  - cbn [run_cmds]. rewrite (bind_ret _ _ _ _ _ E1) (bind_ret _ _ _ _ _ E2). done.
  - intros Hp Hs. apply Hs2; [congruence|auto].
Qed.

(** The log [OpenWAL] creates in an empty directory. *)
Definition new_wal (policy : FsyncPolicy) : WS :=
  (mkWAL policy (Some 1) (mkBuf [] false) 1 (64 * 1024 * 1024) 0 false,
   mkDisk {[1 := mkFile [] []]} []).

Lemma OpenWAL_empty policy : OpenWAL policy empty_disk = Ret (Some (new_wal policy).1) (new_wal policy).2.
Proof. done. Qed.

Lemma new_wal_rep policy : log_rep (new_wal policy) [] [] ∧ synced (new_wal policy) [].
Proof.
  split; [|by split]. split; simpl.
  - split; try done. exists (mkFile [] []). split_and!; [by apply lookup_singleton_Some|done|done].
  - done.
  - done.
  - intros id [f Hf]. apply lookup_singleton_Some in Hf as [<- _]. lia.
  - by constructor.
Qed.

Lemma wal_Close_run s old cur :
  log_rep s old cur →
  ∃ s', Wal.Close s = Ret None s' ∧ recovered f_durable s'.2 = concat old ++ cur.
Proof.
  intros Hl. set (s0 := (mkWAL (w_policy s.1) (w_file s.1) (w_bw s.1) (w_segmentID s.1)
    (w_maxSegSize s.1) (w_currentSize s.1) true, s.2)).
  destruct (flush_sync_run s old cur Hl) as (s1 & E & Hl1 & Hf & Hs).
  assert (∃ s2, (Flush;; file_sync) s0 = Ret tt s2 ∧ s2.2 = s1.2 ∧ w_file s2.1 = w_file s1.1) as (s2 & E2 & Hd & Hw).
  { revert E. clear. unfold s0. destruct s as [[p fl [buf err] sg mx sz cl] d].
    unfold Flush, file_sync, file_write. run. unfold id. cbn [w_file w_bw bw_err bw_buf set_bw].
    destruct err; [destruct fl as [seg|]; simpl|destruct buf as [|b buf]].
    - destruct (os_fsync seg d); try done. intros [=]; subst. eexists; split; [reflexivity|done].
    - intros [=]; subst. eexists; split; [reflexivity|done].
    - destruct fl as [seg|]; simpl; [|intros [=]; subst; eexists; split; [reflexivity|done]].
      destruct (os_fsync seg d); try done. intros [=]; subst. eexists; split; [reflexivity|done].
    - destruct fl as [seg|]; simpl; [|intros [=]; subst; eexists; split; [reflexivity|done]].
      destruct (os_write seg (b :: buf) d) as [[n ok] d'|d'|]; try done. simpl.
      destruct (os_fsync seg d'); try done. intros [=]; subst. eexists; split; [reflexivity|done]. }
  pose proof (lr_act _ _ _ Hl) as Ha.
  exists (mkWAL (w_policy s2.1) None (w_bw s2.1) (w_segmentID s2.1) (w_maxSegSize s2.1)
            (w_currentSize s2.1) (w_closed s2.1), s2.2). split.
  - unfold Wal.Close. glue. unfold id. rewrite (ar_closed _ _ Ha). fold s0.
    unfold mbind, prog_bind in E2. destruct (Flush s0) as [b s3|s3|]; try done. rewrite E2.
    by rewrite Hw (ar_file _ _ (lr_act _ _ _ Hl1)).
  - simpl. rewrite Hd. apply (recovered_synced s1); auto.
Qed.

Lemma segment_ids_two d :
  (∀ id, is_Some (d_segs d !! id) ↔ id = 1 ∨ id = 2) → segment_ids d = [1; 2].
Proof.
  intros Hd. apply (StronglySorted_unique Z.le); [apply (StronglySorted_merge_sort Z.le)|by apply (seqZ_sorted 2 1)|].
  unfold segment_ids. rewrite merge_sort_Permutation. apply NoDup_Permutation.
  - apply NoDup_fst_map_to_list.
  - apply (NoDup_seqZ 1 2).
  - intros id. rewrite !elem_of_cons elem_of_nil list_elem_of_fmap. split.
    + intros ([id' f] & -> & Hin%elem_of_map_to_list). destruct (proj1 (Hd id') ltac:(by eexists)); auto.
    + intros Hid. destruct (proj2 (Hd id)) as [f Hf]; [naive_solver|].
      exists (id, f). split; [done|by apply elem_of_map_to_list].
Qed.

(** ** Calls that return

    Whatever the disk does, a call of the log returns, unless the length of the record
    wraps around to less than its header ([encode_record] is [None]). *)

Lemma syscall_total : total syscall.
Proof. intros d. unfold syscall. destruct (d_faults d); by eexists _, _. Qed.

Lemma os_fsync_total seg : total (os_fsync seg).
Proof.
  apply total_bind; [apply syscall_total|]. intros [k|]; [apply total_ret|]. intros d. unfold get, put. run. by eexists _, _.
Qed.

Lemma os_open_total seg : total (os_open seg).
Proof.
  apply total_bind; [apply syscall_total|]. intros [k|]; [apply total_ret|]. intros d. unfold get, put. run. by eexists _, _.
Qed.

(** A write that succeeds wrote everything. *)
Lemma file_write_outcome p (s : WS) :
  ∃ n ok s', file_write p s = Ret (n, ok) s' ∧ s'.1 = s.1 ∧ (ok = true → n = Z.of_nat (length p)).
Proof.
  unfold file_write. glue. unfold id. destruct (w_file s.1) as [seg|]; [|by exists 0, false, s].
  unfold zoom, os_write. destruct (syscall_total s.2) as (r & d & E). cbn. rewrite (bind_ret _ _ _ _ _ E).
  eexists _, _, _. split; [reflexivity|]. split; [done|]. intros Hr%bool_decide_eq_true. by rewrite Hr.
Qed.

Lemma file_write_total p : total (file_write p).
Proof. intros s. destruct (file_write_outcome p s) as (n & ok & s' & E & _). eauto. Qed.

Lemma file_sync_total : total file_sync.
Proof.
  unfold file_sync. apply total_bind; [apply total_gets|]. intros w.
  destruct (w_file w); [apply total_zoom, os_fsync_total|apply total_ret].
Qed.

#[local] Hint Resolve os_open_total file_write_total file_sync_total : total.

Lemma Flush_outcome (s : WS) :
  ∃ ok s', Flush s = Ret ok s' ∧ (bw_err (w_bw s'.1) = true ∨ bw_buf (w_bw s'.1) = []).
Proof.
  unfold Flush. glue. unfold id. destruct (bw_err (w_bw s.1)) eqn:He; [exists false, s; auto|].
  destruct (bw_buf (w_bw s.1)) as [|b buf] eqn:Hb; [exists true, s; auto|].
  destruct (file_write_outcome (b :: buf) s) as (n & ok & s1 & E & Es & Hn). rewrite E. cbn [fst snd].
  eexists _, _. split; [reflexivity|]. cbn. destruct ok; [|by left]. right. rewrite (Hn eq_refl) Nat2Z.id. apply drop_all.
Qed.

Lemma Flush_total : total Flush.
Proof. intros s. destruct (Flush_outcome s) as (ok & s' & E & _). eauto. Qed.

#[local] Hint Resolve Flush_total : total.

Lemma buf_loop_err fuel p nn (s : WS) : bw_err (w_bw s.1) = true → ∃ r, buf_loop fuel p nn s = Ret r s.
Proof. intros He. destruct fuel; cbn [buf_loop]; glue; unfold id; rewrite He andb_false_r; by eexists. Qed.

Lemma buf_loop_empty fuel p nn (s : WS) :
  bw_buf (w_bw s.1) = [] → ∃ r s', buf_loop (S fuel) p nn s = Ret r s'.
Proof.
  intros Hb. destruct (bw_err (w_bw s.1)) eqn:He; [destruct (buf_loop_err (S fuel) p nn s He) as [r ->]; eauto|].
  cbn [buf_loop]. glue. unfold id. rewrite Hb He. destruct (_ <? _); [|by eexists _, _]. cbn [andb negb].
  destruct (file_write_outcome p s) as (n & ok & s1 & E & Es & Hn). rewrite E. cbn [fst snd].
  set (s2 := (set_bw (mkBuf [] (negb ok)) s1.1, s1.2)). destruct ok.
  - rewrite (Hn eq_refl) Nat2Z.id drop_all. destruct fuel; cbn [buf_loop]; by eexists _, _.
  - destruct (buf_loop_err fuel (drop (Z.to_nat n) p) (nn + n) s2 eq_refl) as [r E2].
    exists r, s2. exact E2.
Qed.

Lemma buf_Write_total p : total (buf_Write p).
Proof.
  intros s. unfold buf_Write. destruct (bw_err (w_bw s.1)) eqn:He; [destruct (buf_loop_err 2 p 0 s He) as [r ->]; eauto|].
  destruct (bw_buf (w_bw s.1)) as [|b buf] eqn:Hb; [by apply buf_loop_empty|].
  cbn [buf_loop]. glue. unfold id. rewrite Hb He. destruct (_ <? _); [|by eexists _, _]. cbn [andb negb].
  set (s1 := (set_bw _ s.1, s.2)). destruct (Flush_outcome s1) as (ok & s2 & E & Hor). rewrite E.
  destruct Hor as [He2|Hb2].
  - set (q := drop _ p). set (k := 0 + _). destruct (buf_loop_err 1 q k s2 He2) as [r E2]. exists r, s2. exact E2.
  - set (q := drop _ p). set (k := 0 + _). exact (buf_loop_empty 0 q k s2 Hb2).
Qed.

Lemma rotateSegment_total : total rotateSegment.
Proof. unfold rotateSegment. repeat total_step. Qed.

#[local] Hint Resolve buf_Write_total rotateSegment_total : total.

Lemma writeRecord_total op payload : is_Some (encode_record op payload) → total (writeRecord op payload).
Proof. intros [buf E]. unfold writeRecord. rewrite E. repeat total_step. Qed.

Lemma encode_fits op payload : record_ok (op, payload) → is_Some (encode_record op payload).
Proof. intros Hr. rewrite (encode_ok (op, payload) Hr). by eexists. Qed.

(** A record whose length wraps around brings the process down. *)
Lemma writeRecord_panics op payload (s : WS) :
  w_closed s.1 = false → encode_record op payload = None → writeRecord op payload s = Panic.
Proof. intros Hc E. unfold writeRecord. glue. by rewrite Hc E. Qed.

(** A payload whose length is within nine of a multiple of [2 ^ 32] from below brings the
    process down: the length of the record wraps around to less than its header. *)
Theorem oversized_record_panics op payload (s : WS) (Hc : w_closed s.1 = false)
  (Hlen : 2 ^ 32 - 9 ≤ Z.of_nat (length payload) mod 2 ^ 32) : writeRecord op payload s = Panic.
Proof.
  apply writeRecord_panics; [done|]. unfold encode_record, u32 in *.
  pose proof (Z.mod_pos_bound (Z.of_nat (length payload)) (2 ^ 32) ltac:(lia)).
  rewrite (proj2 (Z.ltb_lt _ _)) //. set (k := _ mod _) in *. replace (9 + k) with (k - (2 ^ 32 - 9) + 1 * 2 ^ 32) by lia.
  rewrite Z_mod_plus_full Z.mod_small; lia.
Qed.

(** ** Properties *)

(** C5: durability, for every fsync policy.  Open the log in an empty
    directory, on a disk that does not fail, and make any sequence of writes
    and syncs, across any number of segment rotations.  Every call returns
    [nil]; after a crash of the process or of the machine, replay returns a
    prefix of the records written, in order; under [FsyncAlways], or after one
    more [Sync], or after [Close], it returns all of them. *)
Theorem wal_durability policy cs (Hok : Forall record_ok (written cs)) :
  ∃ w d s, OpenWAL policy empty_disk = Ret (Some w) d ∧
    run_cmds cs (w, d) = Ret (replicate (length cs) None) s ∧
    recovered f_data s.2 `prefix_of` written cs ∧
    recovered f_durable s.2 `prefix_of` written cs ∧
    (policy = FsyncAlways → recovered f_durable s.2 = written cs) ∧
    (∃ s1, Sync s = Ret tt s1 ∧ recovered f_durable s1.2 = written cs) ∧
    (∃ s2, Wal.Close s = Ret None s2 ∧ recovered f_durable s2.2 = written cs).
Proof.
  destruct (new_wal_rep policy) as [Hl Hs].
  destruct (run_cmds_rep cs _ _ _ Hl Hok) as (s & old & cur & E & Hl' & Hc & Hp & Hs'). simpl in Hc.
  destruct (Sync_run s old cur Hl') as (s1 & E1 & Hl1 & Hs1 & _).
  destruct (wal_Close_run s old cur Hl') as (s2 & E2 & H2).
  exists (new_wal policy).1, (new_wal policy).2, s. rewrite -Hc. split_and!.
  - apply OpenWAL_empty.
  - exact E.
  - apply recovered_prefix; auto.
  - apply recovered_prefix; auto.
  - intros ->. apply recovered_synced; auto.
  - exists s1. split; [done|]. apply recovered_synced; auto.
  - eauto.
Qed.

(** A failed flush is not reported.  Under [FsyncAlways], if the write
    system call fails, the log still answers [nil] for the record, and a crash
    loses it; only the next call sees the error. *)
Theorem flush_error_swallowed :
  ∃ s1 s2, writeRecord OpPublish (str "m") ((new_wal FsyncAlways).1,
             mkDisk {[1 := mkFile [] []]} [Some 0]) = Ret None s1 ∧
    recovered f_data s1.2 = [] ∧
    writeRecord OpPublish (str "n") s1 = Ret (Some "write error") s2.
Proof. do 2 eexists. split_and!; by vm_compute. Qed.

(** A torn tail hides later records.  After a crash in the middle of a
    record, [OpenWAL] appends to the same segment without removing the torn
    bytes; records it then writes and syncs successfully are never replayed,
    because the torn record swallows them. *)
Theorem torn_tail_hides_later_records :
  ∃ w d s, OpenWAL FsyncAlways (mkDisk {[1 :=
        let torn := enc (OpPublish, str "a") ++ take 12 (enc (OpPublish, str "bcdef")) in
        mkFile torn torn]} []) = Ret (Some w) d ∧
    writeRecord OpPublish (str "new") (w, d) = Ret None s ∧
    recovered f_durable s.2 = [(OpPublish, str "a")].
Proof. do 3 eexists. split_and!; by vm_compute. Qed.

(** Restarts break the order.  [OpenWAL] always continues segment 1; on a
    directory that already has a second segment, a new record is replayed
    before the older records of segment 2. *)
Theorem reopened_log_misorders rs1 rs2 op payload (Hok1 : Forall record_ok rs1)
  (Hok2 : Forall record_ok rs2) (Hr : record_ok (op, payload))
  (Hsize : Z.of_nat (length (encs rs1)) + Z.of_nat (length (enc (op, payload))) < 64 * 1024 * 1024) :
  let d := mkDisk (<[1 := mkFile (encs rs1) (encs rs1)]> {[2 := mkFile (encs rs2) (encs rs2)]}) [] in
  ∃ w d' s, OpenWAL FsyncAlways d = Ret (Some w) d' ∧ writeRecord op payload (w, d') = Ret None s ∧
    recovered f_durable s.2 = rs1 ++ [(op, payload)] ++ rs2.
Proof.
  intros d. set (r := (op, payload)).
  set (w := mkWAL FsyncAlways (Some 1) (mkBuf [] false) 1 (64 * 1024 * 1024)
              (Z.of_nat (length (encs rs1))) false).
  assert (seg_file 1 d = mkFile (encs rs1) (encs rs1)) as Hs1 by done.
  assert (put_file 1 (seg_file 1 d) d = d) as Hd.
  { unfold put_file. rewrite Hs1. unfold d. simpl. by rewrite insert_insert_eq. }
  assert (act_rep (w, d) (encs rs1)) as Ha.
  { split; try done. exists (mkFile (encs rs1) (encs rs1)). split_and!; [apply lookup_insert_eq|apply app_nil_r|done]. }
  destruct (writeRecord_act (w, d) rs1 op payload Ha Hr) as (s & E & Ha' & [_ Hseg Hmax Hsz Hoth] & Hsy).
  destruct (Hsy eq_refl) as [_ Hdur]. fold r in E, Hdur, Hsz, Hsize. simpl in Hseg, Hmax, Hoth.
  change (w_currentSize s.1 = i64 (Z.of_nat (length (encs rs1)) + Z.of_nat (length (enc r)))) in Hsz.
  rewrite i64_small in Hsz; [unfold is_i64; lia|].
  exists w, d, s. split_and!.
  - assert (os_open 1 d = Ret true d) as Eo.
    { unfold os_open, syscall. run. change (d_faults d) with (@nil (option Z)). cbv beta iota. by rewrite Hd. }
    unfold OpenWAL. rewrite (bind_ret syscall _ d None d) // (bind_ret _ _ _ _ _ Eo).
  - rewrite E Hmax Hsz (proj2 (Z.leb_gt _ _)) //.
  - rewrite Hseg in Hdur. assert (d_segs s.2 !! 2 = Some (mkFile (encs rs2) (encs rs2))) as H2 by by rewrite Hoth.
    unfold recovered, files_of. rewrite segment_ids_two.
    { intros id. destruct (decide (id = 1)) as [->|Hne]; [rewrite Hdur; naive_solver|].
      rewrite Hoth // /d /= lookup_insert_ne // lookup_singleton. case_decide; naive_solver. }
    unfold seg_file. simpl. rewrite Hdur H2 /= app_nil_r.
    rewrite !scan_whole //; [by apply Forall_app; split; [|constructor]|]. by rewrite -app_assoc.
Qed.

(** ** Witnesses *)

Lemma wal_durability_witness :
  ∃ w d s, OpenWAL FsyncEverySec empty_disk = Ret (Some w) d ∧
    run_cmds [CWrite OpPublish (str "a"); CSync; CWrite OpAck (str "b")] (w, d) = Ret [None; None; None] s ∧
    recovered f_durable s.2 `prefix_of` [(OpPublish, str "a"); (OpAck, str "b")].
Proof.
  destruct (wal_durability FsyncEverySec [CWrite OpPublish (str "a"); CSync; CWrite OpAck (str "b")])
    as (w & d & s & E1 & E2 & _ & Hp & _).
  - by repeat constructor.
  - by exists w, d, s.
Defined.

Lemma reopened_log_misorders_witness :
  ∃ d s, writeRecord OpPublish (str "new") d = Ret None s ∧
    recovered f_durable s.2 = [(OpPublish, str "a"); (OpPublish, str "new"); (OpPublish, str "b")].
Proof.
  destruct (reopened_log_misorders [(OpPublish, str "a")] [(OpPublish, str "b")] OpPublish (str "new"))
    as (w & d & s & _ & E & Hr).
  - by repeat constructor.
  - by repeat constructor.
  - done.
  - by vm_compute.
  - by exists (w, d), s.
Defined.
