(* ===== verification/WalWindow.v ===== *)
(** * What the periodic fsync guarantees

    [periodicFsync] of [src/internal/wal/wal.go] calls [Sync] once a second until
    it is told to quit.  What is on stable storage stays there, whatever the log
    does and whichever calls fail ([durable_grows]); so under any policy a machine
    crash loses at most the records written since the last tick of the loop
    ([periodic_window]). *)

From S2P Require Import Prelude GoText Checksum Message.
From S2P Require Import Topic Custody TopicSafety Broker MessageJson Wal WalDurable.

(** The loop of the goroutine, for the events it selects. *)
Definition periodicFsync (events : list (option unit)) : prog WS bool := ticker_loop (λ _, Sync) events.

(** ** Stable storage grows *)

Definition disk_ok (d : Disk) : Prop := ∀ id, f_durable (seg_file id d) `prefix_of` f_data (seg_file id d).

Definition grows (d d' : Disk) : Prop := disk_ok d →
  disk_ok d' ∧ ∀ id, f_durable (seg_file id d) `prefix_of` f_durable (seg_file id d') ∧
    (is_Some (d_segs d !! id) → is_Some (d_segs d' !! id)).

Global Instance grows_preorder : PreOrder grows.
Proof.
  split; [by intros d Hd|]. intros d1 d2 d3 H12 H23 H1. destruct (H12 H1) as [H2 Hg]. destruct (H23 H2) as [H3 Hg'].
  split; [done|]. intros id. destruct (Hg id), (Hg' id). split; [by etrans|auto].
Qed.

(** A program after which stable storage holds at least what it held. *)
Abbreviation keeps disk := (within (on disk grows)).

Lemma keeps_modify (f : WAL → WAL) : keeps snd (modify (S := WS) lens_fst f).
Proof. by intros s. Qed.

Lemma keeps_zoom {A} (m : prog Disk A) : within grows m → keeps snd (zoom (S := WS) lens_snd m).
Proof. by apply within_zoom. Qed.

(** A file rewritten with at least its stable part. *)
Lemma put_grows d seg f :
  f_durable (seg_file seg d) `prefix_of` f_durable f → (disk_ok d → f_durable f `prefix_of` f_data f) →
  grows d (put_file seg f d).
Proof.
  intros Hp Hf Hd. assert (∀ id, seg_file id (put_file seg f d) = if decide (id = seg) then f else seg_file id d) as Hs.
  { intros id. unfold seg_file, put_file. simpl. case_decide as E; [subst; by rewrite lookup_insert_eq|].
    by rewrite lookup_insert_ne. }
  split; [intros id; rewrite Hs; case_decide; auto|]. intros id. rewrite Hs. split; [case_decide as E; [by subst|done]|].
  intros Hid. simpl. destruct (decide (id = seg)) as [->|Hne]; [rewrite lookup_insert_eq; by eexists|].
  by rewrite lookup_insert_ne.
Qed.

Lemma syscall_keeps : within grows syscall.
Proof. intros d. unfold syscall. by destruct (d_faults d). Qed.

Lemma os_write_keeps seg p : within grows (os_write seg p).
Proof.
  apply within_bind; [exact _|apply syscall_keeps|]. intros r d. apply put_grows; [done|].
  intros Hd. cbn. etrans; [apply Hd|]. by eexists.
Qed.

Lemma os_fsync_keeps seg : within grows (os_fsync seg).
Proof.
  apply within_bind; [exact _|apply syscall_keeps|]. intros [k|]; [by apply within_ret; exact _|]. intros d Hd.
  apply put_grows; [apply Hd|done|done].
Qed.

Lemma os_open_keeps seg : within grows (os_open seg).
Proof.
  apply within_bind; [exact _|apply syscall_keeps|]. intros [k|]; [by apply within_ret; exact _|]. intros d.
  apply put_grows; [done|]. intros Hd. apply Hd.
Qed.

#[export] Hint Resolve keeps_modify keeps_zoom os_write_keeps os_fsync_keeps os_open_keeps : within.

Lemma file_write_keeps p : keeps snd (file_write p).
Proof. unfold file_write. repeat within_step. Qed.

Lemma file_sync_keeps : keeps snd file_sync.
Proof. unfold file_sync. repeat within_step. Qed.

#[export] Hint Resolve file_write_keeps file_sync_keeps : within.

Lemma Flush_keeps : keeps snd Flush.
Proof. unfold Flush. repeat within_step. Qed.

#[export] Hint Resolve Flush_keeps : within.

Lemma buf_loop_keeps fuel : ∀ p nn, keeps snd (buf_loop fuel p nn).
Proof. induction fuel as [|fuel IH]; intros p nn; cbn [buf_loop]; repeat within_step. Qed.

Lemma rotateSegment_keeps : keeps snd rotateSegment.
Proof. unfold rotateSegment. repeat within_step. Qed.

#[export] Hint Resolve buf_loop_keeps rotateSegment_keeps : within.

Lemma writeRecord_keeps op payload : keeps snd (writeRecord op payload).
Proof. unfold writeRecord, buf_Write. repeat within_step. Qed.

Lemma Sync_keeps : keeps snd Sync.
Proof. unfold Sync. repeat within_step. Qed.

#[export] Hint Resolve writeRecord_keeps Sync_keeps : within.

(** Whatever calls are made, and whichever of them fail, nothing leaves stable
    storage. *)
Lemma durable_grows cs : keeps snd (run_cmds cs).
Proof. induction cs as [|[op payload|] cs IH]; cbn [run_cmds run_cmd]; repeat within_step. Qed.

(** ** Counting what is recovered *)

Lemma bind_length_le {A B} (f g : A → list B) l :
  (∀ x, x ∈ l → (length (f x) ≤ length (g x))%nat) → (length (l ≫= f) ≤ length (l ≫= g))%nat.
Proof.
  induction l as [|x l IH]; intros Hfg; [done|]. rewrite !bind_cons !length_app.
  specialize (Hfg x ltac:(by left)) as Hx. specialize (IH ltac:(intros; apply Hfg; by right)). lia.
Qed.

Lemma recovered_segments view d : recovered view d = segment_ids d ≫= λ id, scan (view (seg_file id d)).
Proof.
  unfold recovered, files_of. generalize (segment_ids d). intros l.
  induction l as [|x l IH]; [done|]. rewrite fmap_cons !bind_cons IH. done.
Qed.

Lemma segment_ids_seq s old cur :
  log_rep s old cur → segment_ids s.2 = seqZ 1 (w_segmentID s.1).
Proof.
  intros Hl. rewrite (segment_ids_rep _ _ _ Hl) (lr_id _ _ _ Hl) seqZ_app; [lia|lia|]. f_equal.
  rewrite Z.add_comm. by rewrite seqZ_cons.
Qed.

(** The segments of a synced log hold whole records. *)
Lemma synced_segments s old cur id :
  log_rep s old cur → synced s cur → id ∈ segment_ids s.2 →
  ∃ rs, Forall record_ok rs ∧ f_durable (seg_file id s.2) = encs rs.
Proof.
  intros Hl [_ Hcur] Hin. rewrite (segment_ids_rep _ _ _ Hl) elem_of_app list_elem_of_singleton in Hin.
  unfold seg_file. destruct Hin as [Hin| ->].
  - apply elem_of_seqZ in Hin. destruct (lookup_lt_is_Some_2 old (Z.to_nat (id - 1))) as [rs Hrs]; [lia|].
    pose proof (lr_old _ _ _ Hl _ _ Hrs) as Hf. replace (Z.of_nat (Z.to_nat (id - 1)) + 1) with id in Hf by lia.
    rewrite Hf. exists rs. split; [|done]. pose proof (lr_ok _ _ _ Hl) as Hok. apply Forall_app in Hok as [Hok _].
    by eapply Forall_lookup_1 in Hok.
  - rewrite Hcur. exists cur. split; [by eapply log_cur_ok|done].
Qed.

(** A log whose stable storage has grown returns at least as many records. *)
Lemma recovered_grows s1 old1 cur1 s2 old2 cur2 :
  log_rep s1 old1 cur1 → synced s1 cur1 → log_rep s2 old2 cur2 → grows s1.2 s2.2 → disk_ok s1.2 →
  (length (recovered f_durable s1.2) ≤ length (recovered f_durable s2.2))%nat.
Proof.
  intros H1 Hs1 H2 Hg Hd. destruct (Hg Hd) as [_ Hgr].
  assert (w_segmentID s1.1 ≤ w_segmentID s2.1) as Hid.
  { apply (lr_dom _ _ _ H2), Hgr. destruct (ar_data _ _ (lr_act _ _ _ H1)) as (f & Hf & _). by eexists. }
  pose proof (lr_id _ _ _ H1) as Hn. rewrite !recovered_segments (segment_ids_seq _ _ _ H1) (segment_ids_seq _ _ _ H2).
  replace (w_segmentID s2.1) with (w_segmentID s1.1 + (w_segmentID s2.1 - w_segmentID s1.1)) by lia.
  rewrite seqZ_app; [lia|lia|]. rewrite bind_app length_app. etrans; [|apply Nat.le_add_r].
  apply bind_length_le. intros id Hin. rewrite -(segment_ids_seq _ _ _ H1) in Hin.
  destruct (synced_segments _ _ _ id H1 Hs1 Hin) as (rs & Hok & E). rewrite E scan_whole //.
  destruct (proj1 (Hgr id)) as [tail ->]. rewrite E scan_encs // length_app. lia.
Qed.

Lemma log_disk_ok s old cur : log_rep s old cur → disk_ok s.2.
Proof.
  intros Hl id. unfold seg_file. destruct (d_segs s.2 !! id) as [f|] eqn:Hf; [|done]. simpl.
  destruct (decide (id = w_segmentID s.1)) as [->|Hne].
  - destruct (ar_data _ _ (lr_act _ _ _ Hl)) as (f' & Hf' & _ & Hd). rewrite Hf in Hf'. by injection Hf' as <-.
  - pose proof (lr_dom _ _ _ Hl id ltac:(by eexists)) as Hr. pose proof (lr_id _ _ _ Hl) as Hn.
    destruct (lookup_lt_is_Some_2 old (Z.to_nat (id - 1))) as [rs Hrs]; [lia|].
    pose proof (lr_old _ _ _ Hl _ _ Hrs) as Hf'. replace (Z.of_nat (Z.to_nat (id - 1)) + 1) with id in Hf' by lia.
    rewrite Hf in Hf'. by injection Hf' as ->.
Qed.

(** The loop at a tick, and when it is told to quit. *)
Lemma periodicFsync_run s old cur rest :
  log_rep s old cur →
  ∃ s1, Sync s = Ret tt s1 ∧ log_rep s1 old cur ∧ synced s1 cur ∧
    periodicFsync (Some tt :: rest) s = periodicFsync rest s1.
Proof.
  intros Hl. destruct (Sync_run s old cur Hl) as (s1 & E & Hl1 & Hs1 & _). exists s1. split_and!; [done|done|done|].
  unfold periodicFsync. cbn [ticker_loop]. by rewrite (bind_ret _ _ _ _ _ E).
Qed.

(** What was synced is still found after any further calls. *)
Lemma synced_kept s1 old1 cur1 cs s2 es :
  log_rep s1 old1 cur1 → synced s1 cur1 → Forall record_ok (written cs) → run_cmds cs s1 = Ret es s2 →
  concat old1 ++ cur1 `prefix_of` recovered f_durable s2.2.
Proof.
  intros Hl1 Hs1 Hok E. destruct (run_cmds_rep cs s1 old1 cur1 Hl1 Hok) as (s2' & old2 & cur2 & E2 & Hl2 & Hc2 & _).
  rewrite E in E2. injection E2 as _ <-.
  pose proof (recovered_synced s1 old1 cur1 f_durable Hl1 Hs1 ltac:(auto)) as Hr1.
  assert (grows s1.2 s2.2) as Hg by exact (within_returned _ _ _ _ _ (durable_grows cs) E).
  pose proof (recovered_grows _ _ _ _ _ _ Hl1 Hs1 Hl2 Hg (log_disk_ok _ _ _ Hl1)) as Hlen. rewrite Hr1 in Hlen.
  destruct (recovered_prefix s2 old2 cur2 f_durable Hl2 ltac:(auto)) as [t Ht]. rewrite Hc2 app_assoc in Ht.
  destruct (app_eq_inv _ _ _ _ Ht) as [(k & Ek & _)|(k & Ek & _)]; [|by exists k].
  rewrite Ek length_app in Hlen. rewrite (nil_length_inv k) in Ek; [lia|]. exists []. by rewrite Ek !app_nil_r.
Qed.

(** C24: with the periodic fsync, a crash of the machine loses at most what was written
    since the last tick.  Open the log in an empty directory of a disk that does not
    fail, under any policy; write [cs1]; let the loop run for one tick; make any further
    calls [cs2], across segment rotations, all with records that fit the format.  Then
    what replay finds on stable storage is, in order, all records of [cs1] and a prefix of
    those of [cs2].  Once told to quit the loop returns and touches nothing. *)
Theorem periodic_window policy cs1 cs2 (H1 : Forall record_ok (written cs1)) (H2 : Forall record_ok (written cs2)) :
  ∃ w d s1 s2 s3, OpenWAL policy empty_disk = Ret (Some w) d ∧
    run_cmds cs1 (w, d) = Ret (replicate (length cs1) None) s1 ∧
    periodicFsync [Some tt] s1 = Ret false s2 ∧
    run_cmds cs2 s2 = Ret (replicate (length cs2) None) s3 ∧
    written cs1 `prefix_of` recovered f_durable s3.2 ∧
    recovered f_durable s3.2 `prefix_of` written cs1 ++ written cs2 ∧
    (∀ rest, periodicFsync (None :: rest) s3 = Ret true s3).
Proof.
  destruct (new_wal_rep policy) as [Hl0 _].
  destruct (run_cmds_rep cs1 _ _ _ Hl0 H1) as (s1 & old1 & cur1 & E1 & Hl1 & Hc1 & _). simpl in Hc1.
  destruct (periodicFsync_run s1 old1 cur1 [] Hl1) as (s2 & _ & Hl2 & Hs2 & E2).
  destruct (run_cmds_rep cs2 s2 old1 cur1 Hl2 H2) as (s3 & old3 & cur3 & E3 & Hl3 & Hc3 & _).
  exists (new_wal policy).1, (new_wal policy).2, s1, s2, s3.
  split_and!; [apply OpenWAL_empty|exact E1|by rewrite E2|exact E3|rewrite -Hc1; by eapply synced_kept| |done].
  rewrite -Hc1 -app_assoc -Hc3. apply recovered_prefix; auto.
Qed.

Lemma periodic_window_witness :
  ∃ s1 s2 s3, run_cmds [CWrite OpPublish (str "a")] (new_wal FsyncEverySec) = Ret [None] s1 ∧
    periodicFsync [Some tt] s1 = Ret false s2 ∧
    run_cmds [CWrite OpPublish (str "b")] s2 = Ret [None] s3 ∧
    [(OpPublish, str "a")] `prefix_of` recovered f_durable s3.2.
Proof.
  destruct (periodic_window FsyncEverySec [CWrite OpPublish (str "a")] [CWrite OpPublish (str "b")])
    as (w & d & s1 & s2 & s3 & E0 & E1 & E2 & E3 & Hp & _).
  - by repeat constructor.
  - by repeat constructor.
  - rewrite OpenWAL_empty in E0. injection E0 as <- <-.
    exists s1, s2, s3. split_and!; [exact E1|exact E2|exact E3|exact Hp].
Defined.
