(* ===== verification/Recovery.v ===== *)
(** * Persistence and recovery, end to end

    The broker running on the write-ahead log, and the recovery that
    [src/cmd/vortexmq/main.go] performs at start-up: replay every segment, and
    hand each published message to its topic.  A message survives
    the log when JSON keeps it ([valid_message] of [MessageJson]). *)

From S2P Require Import Prelude GoText Message RingBuffer TimingWheel DeadLetter ConsumerGroup.
From S2P Require Import Topic Custody TopicSafety Broker BrokerSafety Encoding Json MessageJson Checksum Wal WalDurable.

Section recovery.
Context {W : Type} `{BrokerWAL W}.

Abbreviation BS := (Store * Broker W)%type.

(** The callback of [main]: [t := broker.GetOrCreateTopic(msg.Topic);
    t.Publish(msg)], on a message in a cell of its own. *)
Definition restore (m : Message) : prog BS unit :=
  msg ← zoom lens_fst (alloc m);
  GetOrCreateTopic (msg_Topic m);;
  zoom (lens_topic (msg_Topic m)) (Topic.Publish msg);;
  mret tt.

(** Every topic has the room of a new one. *)
Definition roomy (s : BS) : Prop := ∀ n t, b_topics s.2 !! n = Some t → topic_room t = 50000.

Lemma restore_run s m :
  broker_inv s → roomy s → retryable m → (∀ n, msg_ID m ∉ owned s n) →
  Z.of_nat (length (owned s (msg_Topic m))) < 50000 →
  ∃ s', restore m s = Ret tt s' ∧ roomy s' ∧ moved s s' (msg_Topic m) [msg_ID m] [].
Proof.
  intros Hb Hroomy Hret Hno Hlen. set (n := msg_Topic m) in *. set (l := fresh (dom (heap s.1))).
  destruct (broker_alloc s m (globalSeq s.1) Hb) as [Hb1 Ho1]. set (s1 := (mkStore _ _, s.2)) in *.
  destruct (GetOrCreateTopic_run s1 n Hb1) as (ts & t & E & Ht & Hb2 & Hor & Hoth & Ho2).
  set (s2 := (s1.1, set_topics ts s1.2)) in *.
  assert (∀ n', owned s2 n' = owned s n') as Hown by (intros n'; by rewrite Ho2 Ho1).
  assert (topic_room t = 50000) as Hr.
  { destruct Hor as [Ht'|[_ Hn]]; [by eapply Hroomy|].
    destruct (NewTopic_inv n 131072 s.1) as (t' & E' & _ & _ & _ & _ & Hr'); [lia|].
    rewrite Hn in E'. by injection E' as <-. }
  assert (heap s2.1 !! l = Some m) as Hl by apply lookup_insert_eq.
  pose proof (bi_topics _ Hb2 n t Ht) as Hi. pose proof (owned_some s2 n t Ht) as Hos.
  destruct (publishable_inv (s2.1, t) _ l m Hi) as (Hi1 & _ & _ & Hno1).
  { split_and!; [done|done|rewrite -Hos Hown; apply Hno|rewrite -Hos Hown; simpl; lia]. }
  destruct (Publish_run 0 (s2.1, t) _ l m Hi1 Hl Hret Hno1) as (rb' & Ep & _ & _ & Hrm).
  set (t' := ((s2.1, t).1, add_published _ _)) in Ep, Hrm.
  destruct (accept_topic s2 n t l m t' 0 0 Hb2 Ht Hl Hret) as (Hb3 & Ho3 & Hoth3).
  { intros n'. rewrite Hown. apply Hno. }
  { rewrite Hown. lia. }
  { left. exact Ep. }
  exists (replaced s2 n t'). split_and!.
  - unfold restore. etrans; [apply (bind_ret (zoom lens_fst (alloc m)) _ s l s1); reflexivity|].
    etrans; [apply (bind_ret _ _ _ _ _ E)|]. fold s2 n.
    rewrite (bind_ret (zoom (lens_topic n) (Topic.Publish l)) _ s2 true (replaced s2 n t')); [|done].
    apply (zoom_ret (lens_topic n)). simpl. rewrite Ht. exact Ep.
  - intros n' x. destruct (decide (n' = n)) as [->|Hne].
    + unfold replaced. simpl. rewrite lookup_insert_eq. intros [= <-]. by rewrite Hrm.
    + rewrite replaced_other //. change (b_topics s2.2) with ts. rewrite Hoth //. apply Hroomy.
  - split_and!; [done|by rewrite Ho3 Hown|]. intros n' Hne. rewrite Hoth3 //.
Qed.

(** The IDs of the messages of a topic. *)
Definition ids_of (n : string) (msgs : list Message) : list string :=
  msg_ID <$> filter (λ m, msg_Topic m = n) msgs.

Lemma ids_of_length n msgs : (length (ids_of n msgs) ≤ length msgs)%nat.
Proof. unfold ids_of. rewrite length_fmap. apply length_filter. Qed.

Lemma ids_of_elem n msgs x : x ∈ ids_of n msgs → x ∈ msg_ID <$> msgs.
Proof.
  unfold ids_of. rewrite !list_elem_of_fmap. intros (m & -> & [_ Hm]%list_elem_of_filter). eauto.
Qed.

Lemma restore_all msgs : ∀ s,
  broker_inv s → roomy s → Forall retryable msgs → NoDup (msg_ID <$> msgs) →
  (∀ n m, m ∈ msgs → msg_ID m ∉ owned s n) →
  (∀ n, Z.of_nat (length (owned s n) + length (ids_of n msgs)) ≤ 50000) →
  ∃ s', forM msgs restore s = Ret tt s' ∧ broker_inv s' ∧ roomy s' ∧
    ∀ n, owned s' n ≡ₚ ids_of n msgs ++ owned s n.
Proof.
  induction msgs as [|m msgs IH]; intros s Hb Hroomy Hret Hnd Hno Hlen; [by exists s|].
  apply Forall_cons in Hret as [Hm Hret]. rewrite fmap_cons in Hnd. apply NoDup_cons in Hnd as [Hni Hnd].
  assert (∀ n, ids_of n (m :: msgs) = (if decide (msg_Topic m = n) then [msg_ID m] else []) ++ ids_of n msgs) as Hc.
  { intros n. unfold ids_of. rewrite filter_cons. by case_decide. }
  destruct (restore_run s m Hb Hroomy Hm) as (s1 & E1 & Hroomy1 & Hb1 & Hp1 & Ho1).
  { intros n. apply Hno. by left. }
  { specialize (Hlen (msg_Topic m)). rewrite Hc decide_True // in Hlen. simpl in Hlen. lia. }
  simpl in Hp1.
  assert (∀ n, owned s1 n ≡ₚ (if decide (msg_Topic m = n) then [msg_ID m] else []) ++ owned s n) as Hown.
  { intros n. case_decide as Hn; [by rewrite -Hn|]. by rewrite (Ho1 n). }
  destruct (IH s1 Hb1 Hroomy1 Hret Hnd) as (s2 & E2 & Hb2 & Hroomy2 & Ho2).
  { intros n m' Hm'. rewrite Hown elem_of_app. intros [Hx|Hx].
    - case_decide; [|by apply elem_of_nil in Hx]. apply list_elem_of_singleton in Hx.
      apply Hni. rewrite -Hx. by apply list_elem_of_fmap_2.
    - apply (Hno n m'); [by right|done]. }
  { intros n. specialize (Hlen n). rewrite Hc in Hlen. rewrite Hown. rewrite !length_app in Hlen |- *. lia. }
  exists s2. split_and!; [|done|done|].
  - cbn [forM]. by rewrite (bind_ret _ _ _ _ _ E1).
  - intros n. rewrite Ho2 Hown Hc. by rewrite (Permutation_app_comm _ (ids_of n msgs)) -app_assoc.
Qed.
End recovery.

Section persistence.
Local Existing Instance wal_contract.

Abbreviation PS := (Store * Broker WS)%type.

(** The messages replay finds on the disk after the machine died. *)
Definition surviving (d : Disk) : list Message :=
  omap (replay_record) (recovered f_durable d).

Definition fits_record (m : Message) : Prop := record_ok (OpPublish, Marshal m).

Lemma replay_publish m : valid_message m → replay_record (OpPublish, Marshal m) = Some m.
Proof. intros Hv. unfold replay_record. simpl. by apply Unmarshal_Marshal. Qed.

(** The log's answer to a publication under [FsyncAlways]. *)
Lemma logged_durable m ws old cur :
  log_rep ws old cur → w_policy ws.1 = FsyncAlways → synced ws cur → valid_message m → fits_record m →
  ∃ ws' old' cur', logged m (Some ws) = Ret None (Some ws') ∧ log_rep ws' old' cur' ∧
    w_policy ws'.1 = FsyncAlways ∧ synced ws' cur' ∧ surviving ws'.2 = surviving ws.2 ++ [m].
Proof.
  intros Hl Hp Hs Hv Hf. destruct (writeRecord_run ws old cur OpPublish (Marshal m) Hl Hf)
    as (ws' & old' & cur' & E & Hl' & Hc & Hp' & Hs').
  exists ws', old', cur'. split_and!; [|done|congruence|auto|].
  - unfold run_call, on_wal. cbn. unfold WritePublish. by rewrite E.
  - unfold surviving. rewrite (recovered_synced ws' _ _ _ Hl'); [auto|auto|].
    rewrite (recovered_synced ws _ _ _ Hl); [auto|auto|]. rewrite Hc app_assoc omap_app. f_equal.
    csimpl. by rewrite replay_publish.
Qed.

(** A message as [NewMessage] makes it survives if its topic is valid UTF-8. *)
Lemma created_valid n payload now rnd σ :
  valid_utf8 (str n) → is_i64 now → valid_message (created n payload now rnd σ).
Proof.
  intros Hn Hnow. split; [split|..]; cbn [created msg_ID msg_Topic msg_Headers msg_Priority msg_Timestamp
    msg_DeliverAt msg_RetryCount msg_MaxRetries msg_ConsumerID msg_AckDeadline msg_FailureCause]; try done.
  apply message_id_valid.
Qed.

(** An accepted message survives a crash.  With the log under
    [FsyncAlways] on a working disk, a publication to a topic whose name is valid
    UTF-8 returns a message and has put its record on stable storage: whatever
    happens to the machine afterwards, replay finds the messages it would have
    found before, in the same order, followed by this one. *)
Lemma accepted_message_survives (s : PS) ws old cur n payload now rnd
  (Hb : broker_inv s) (Hw : b_wal s.2 = Some ws) (Hl : log_rep ws old cur)
  (Hpol : w_policy ws.1 = FsyncAlways) (Hsy : synced ws cur)
  (Hn : valid_utf8 (str n)) (Hnow : is_i64 now) (Hfit : fits_record (created n payload now rnd s.1))
  (Hf : fresh_for s n [msg_ID (created n payload now rnd s.1)]) :
  ∃ l s' ws' old' cur', Broker.Publish n payload now rnd s = Ret (inr l) s' ∧
    b_wal s'.2 = Some ws' ∧ log_rep ws' old' cur' ∧ synced ws' cur' ∧
    surviving ws'.2 = surviving ws.2 ++ [created n payload now rnd s.1].
Proof.
  set (m := created n payload now rnd s.1) in *.
  destruct (logged_durable m ws old cur Hl Hpol Hsy (created_valid n payload now rnd _ Hn Hnow) Hfit) as (ws' & old' & cur' & Elog & Hl' & _ & Hs' & Hsv).
  destruct (publish_done s n payload now rnd 0 0 Hb Hf (Some ws')) as ((l & s' & E & _ & _ & _ & _ & Hw' & _) & _).
  { fold m. by rewrite Hw Elog. }
  fold m in Hw'. rewrite Hw Elog in Hw'. injection Hw' as Hw'. exists l, s', ws', old', cur'. by split_and!.
Qed.

(** Recovery rebuilds the topics, whatever files it is given. *)
Lemma replay_rebuilds σ wal files :
  let msgs := omap replay_record (files ≫= λ f, scan (default [] f)) in
  Forall retryable msgs → NoDup (msg_ID <$> msgs) → (∀ n, Z.of_nat (length (ids_of n msgs)) ≤ 50000) →
  ∃ s', Replay files restore (σ, @NewBroker WS wal) = Ret (Z.of_nat (length msgs)) s' ∧ broker_inv s' ∧
    ∀ n, owned s' n ≡ₚ ids_of n msgs.
Proof.
  intros msgs Hret Hnd Hlen.
  destruct (restore_all msgs (σ, NewBroker wal) (NewBroker_inv σ wal)) as (s' & E & Hb & _ & Ho);
    [done|done|done|intros n m _; apply not_elem_of_nil|intros n; apply Hlen|].
  exists s'. split_and!; [|done|intros n; by rewrite Ho app_nil_r].
  unfold Replay. fold msgs. by rewrite (bind_ret _ _ _ _ _ E).
Qed.

(** ** Properties *)

(** Acknowledged messages come back.  An acknowledgement is logged, but
    replay does not read it: the messages found after the acknowledgement are
    those found before it, the acknowledged one included. *)
Theorem acknowledged_message_replayed ws old cur t g mid
  (Hl : log_rep ws old cur) (Hpol : w_policy ws.1 = FsyncAlways) (Hsy : synced ws cur)
  (Hfit : record_ok (OpAck, str t ++ str ":" ++ str g ++ str ":" ++ str mid)) :
  ∃ ws', Broker.WriteAck t g mid ws = Ret None ws' ∧ surviving ws'.2 = surviving ws.2.
Proof.
  destruct (writeRecord_run ws old cur OpAck _ Hl Hfit) as (ws' & old' & cur' & E & Hl' & Hc & Hp' & Hs').
  exists ws'. split.
  - exact E.
  - unfold surviving. rewrite (recovered_synced ws' _ _ _ Hl'); [auto|auto|].
    rewrite (recovered_synced ws _ _ _ Hl); [auto|auto|]. rewrite Hc app_assoc omap_app.
    csimpl. by rewrite app_nil_r.
Qed.
End persistence.

(** ** Witnesses *)

(** A new broker on a new log. *)
Definition demo_state : Store * Broker WS := (mkStore ∅ 0, NewBroker (Some (new_wal FsyncAlways))).

Lemma demo_state_fresh ids : NoDup ids → Z.of_nat (length ids) ≤ 50000 → fresh_for demo_state "t" ids.
Proof.
  intros Hnd Hl. split_and!; [done|intros n x _; apply not_elem_of_nil|].
  change (owned demo_state "t") with (@nil string).
  change (b_topics demo_state.2 !! "t") with (@None Topic). simpl length. lia.
Qed.

(** Two messages of different topics on a disk of two segments. *)
Definition demo_messages : list Message :=
  [mkMessage "1-1-" "a" None ∅ 0 0 0 0 3 "" 0 ""; mkMessage "1-2-" "b" None ∅ 0 0 0 0 3 "" 0 ""].

Definition demo_files (i : nat) : bytes :=
  encs ((λ m, (OpPublish, Marshal m)) <$> take 1 (drop i demo_messages)).

Definition demo_disk : Disk :=
  mkDisk (<[1 := mkFile (demo_files 0) (demo_files 0)]> {[2 := mkFile (demo_files 1) (demo_files 1)]}) [].

Lemma demo_surviving : surviving demo_disk = demo_messages.
Proof.
  unfold surviving, recovered, files_of. rewrite segment_ids_two.
  { intros id. unfold demo_disk. simpl. rewrite lookup_insert. case_decide; [naive_solver|].
    rewrite lookup_singleton. case_decide; naive_solver. }
  by vm_compute.
Qed.

Lemma acknowledged_message_replayed_witness :
  ∃ ws', @Broker.WriteAck WS wal_contract "t" "g" "m" (new_wal FsyncAlways) = Ret None ws' ∧
    surviving ws'.2 = [].
Proof.
  destruct (new_wal_rep FsyncAlways) as [Hl Hs].
  destruct (acknowledged_message_replayed (new_wal FsyncAlways) [] [] "t" "g" "m")
    as (ws' & E & Hsv); [exact Hl|done|exact Hs|by vm_compute|].
  exists ws'. split; [exact E|]. rewrite Hsv. by vm_compute.
Defined.
