(* ===== verification/Resp.v ===== *)
(** * The RESP codec

    Models [src/internal/protocol/resp.go]: the reader, over the bytes a
    connection delivers up to its end, and the writer, as the bytes it appends
    to its buffer.  [bufio.Reader.ReadLine] is modelled with its 64 KiB buffer:
    a longer line comes in chunks, which [readLine] joins.

    The upper-casing and field splitting of text that is not ASCII follow the
    Unicode tables of the Go library; they are the parameters
    [unicode_ToUpper] and [unicode_Fields]. *)

From S2P Require Import Prelude GoText.

Record Command : Type := mkCommand { cmd_Name : string; cmd_Args : list byte_slice }.

Inductive RespError : Type :=
| EOF
| EmptyCommandLine
| EmptyInlineCommand
| EmptyInteger
| InvalidInteger
| InvalidArrayLength
| ArrayTooLong
| ExpectedBulk
| InvalidBulkLength
| BulkTooLong
| EmptyArguments.

(** A read from the stream: an error, or a value and the bytes that follow. *)
Definition reader (A : Type) : Type := bytes → RespError + A * bytes.

Global Instance reader_ret : MRet reader := λ A a s, inr (a, s).

Global Instance reader_bind : MBind reader := λ A B k m s,
  match m s with inl e => inl e | inr (a, s') => k a s' end.

Definition fail {A} (e : RespError) : reader A := λ _, inl e.

Definition CR : byte := x0d.

Definition LF : byte := x0a.

Definition CRLF : bytes := [CR; LF].

(** ** The reader *)

Definition readerSize : nat := Z.to_nat 65536.

(** [line] and [rest] around the first newline. *)
Fixpoint split_line (s : bytes) : option (bytes * bytes) :=
  match s with
  | [] => None
  | c :: s' =>
      if decide (c = LF) then Some ([], s')
      else match split_line s' with Some (l, r) => Some (c :: l, r) | None => None end
  end.

Definition drop_cr (l : bytes) : bytes :=
  match last l with
  | Some c => if decide (c = CR) then removelast l else l
  | None => l
  end.

(** [bufio.Reader.ReadLine] with a buffer of [size] bytes: the line, whether
    more of it follows, the rest. *)
Definition buffered_line (size : nat) : reader (bytes * bool) := λ s,
  match split_line (take size s) with
  | Some (l, _) => inr (drop_cr l, false, drop (S (length l)) s)
  | None =>
      if Z.of_nat (length s) <? Z.of_nat size then
        match s with [] => inl EOF | _ => inr (s, false, []) end
      else
        let l := drop_cr (take size s) in inr (l, true, drop (length l) s)
  end.

Definition ReadLine : reader (bytes * bool) := buffered_line readerSize.

(** The loop that joins the chunks. *)
Fixpoint read_chunks (fuel : nat) (fullLine : bytes) (isPrefix : bool) : reader bytes :=
  if isPrefix then
    match fuel with
    | O => fail EOF
    | S fuel' => r ← ReadLine; read_chunks fuel' (fullLine ++ r.1) r.2
    end
  else mret fullLine.

Definition readLine : reader bytes := λ s,
  (r ← ReadLine; read_chunks (length s) r.1 r.2) s.

(** [io.ReadFull(r.rd, buf)] with [len(buf) = n]. *)
Definition ReadFull (n : Z) : reader bytes := λ s,
  if Z.of_nat (length s) <? n then inl EOF else inr (take (Z.to_nat n) s, drop (Z.to_nat n) s).

(** The digits loop: [n = n*10 + int(c-'0')] in 64 bits. *)
Fixpoint parse_digits (b : bytes) (n : Z) : RespError + Z :=
  match b with
  | [] => inr n
  | c :: b' =>
      if (byteZ c <? 48) || (57 <? byteZ c) then inl InvalidInteger
      else parse_digits b' (i64 (i64 (n * 10) + (byteZ c - 48)))
  end.

Definition parseUintBytes (b : bytes) : RespError + Z :=
  match b with [] => inl EmptyInteger | _ => parse_digits b 0 end.

Definition parseIntBytes (b : bytes) : RespError + Z :=
  match b with
  | [] => inl EmptyInteger
  | c :: b' =>
      if decide (c = "-"%byte) then
        match parseUintBytes b' with inl e => inl e | inr n => inr (i64 (- n)) end
      else parseUintBytes b
  end.

Definition maxBulkLength : Z := 64 * 1024 * 1024.

Definition maxCommandArgs : Z := 65536.

(** One round of the argument loop. *)
Definition read_arg : reader byte_slice :=
  argLine ← readLine;
  match argLine with
  | [] => fail ExpectedBulk
  | c :: digits =>
      if decide (c ≠ "$"%byte) then fail ExpectedBulk else
      match parseIntBytes digits with
      | inl _ => fail InvalidBulkLength
      | inr bulkLen =>
          if maxBulkLength <? bulkLen then fail BulkTooLong else
          if bulkLen <? 0 then mret None else
          buf ← ReadFull (bulkLen + 2);
          mret (Some (take (Z.to_nat bulkLen) buf))
      end
  end.

Fixpoint read_args (n : nat) : reader (list byte_slice) :=
  match n with
  | O => mret []
  | S n' => a ← read_arg; args ← read_args n'; mret (a :: args)
  end.

(** [bytes.ToUpper] and [bytes.Fields] on ASCII text. *)
Definition is_ascii (l : bytes) : bool := forallb (λ c, byteZ c <? 128) l.

Definition upper_byte (c : byte) : byte :=
  if (97 <=? byteZ c) && (byteZ c <=? 122) then byte_of_Z (byteZ c - 32) else c.

Definition is_space (c : byte) : bool := (byteZ c =? 32) || ((9 <=? byteZ c) && (byteZ c <=? 13)).

Fixpoint fields_go (l acc : bytes) : list bytes :=
  match l with
  | [] => match acc with [] => [] | _ => [reverse acc] end
  | c :: l' =>
      if is_space c then match acc with [] => fields_go l' [] | _ => reverse acc :: fields_go l' [] end
      else fields_go l' (c :: acc)
  end.

Section resp.
Context (unicode_ToUpper : bytes → bytes) (unicode_Fields : bytes → list bytes).

Definition ToUpper (l : bytes) : bytes := if is_ascii l then upper_byte <$> l else unicode_ToUpper l.

Definition Fields (l : bytes) : list bytes := if is_ascii l then fields_go l [] else unicode_Fields l.

Definition ReadCommand : reader Command :=
  line ← readLine;
  match line with
  | [] => fail EmptyCommandLine
  | c :: digits =>
      if decide (c ≠ "*"%byte) then
        match Fields line with
        | [] => fail EmptyInlineCommand
        | name :: args => mret (mkCommand (gostring (ToUpper name)) (Some <$> args))
        end
      else
        match parseUintBytes digits with
        | inl _ => fail InvalidArrayLength
        | inr count =>
            if count <=? 0 then fail InvalidArrayLength else
            if maxCommandArgs <? count then fail ArrayTooLong else
            args ← read_args (Z.to_nat count);
            match args with
            | [] => fail EmptyArguments
            | name :: args' => mret (mkCommand (gostring (ToUpper (default [] name))) args')
            end
        end
  end.
End resp.

(** ** The writer *)

Definition WriteSimpleString (s : string) : bytes :=
  if decide (s = "OK") then str "+OK" ++ CRLF else
  if decide (s = "PONG") then str "+PONG" ++ CRLF else
  "+"%byte :: str s ++ CRLF.

Definition WriteError (msg : string) : bytes := str "-ERR " ++ str msg ++ CRLF.

Definition WriteInteger (n : Z) : bytes := ":"%byte :: FormatInt n ++ CRLF.

Definition WriteBulkString (b : byte_slice) : bytes :=
  match b with
  | None => str "$-1" ++ CRLF
  | Some b => "$"%byte :: FormatInt (Z.of_nat (length b)) ++ CRLF ++ b ++ CRLF
  end.

(** [None] is the [nil] slice. *)
Definition WriteArray (elements : option (list byte_slice)) : bytes :=
  match elements with
  | None => str "*0" ++ CRLF
  | Some els => "*"%byte :: FormatInt (Z.of_nat (length els)) ++ CRLF ++ (els ≫= WriteBulkString)
  end.

Definition WriteRaw (data : bytes) : bytes := data.

(** ** Lemmas on lines *)

Lemma split_line_app l r : LF ∉ l → split_line (l ++ LF :: r) = Some (l, r).
Proof.
  induction l as [|c l IH]; intros Hl; simpl; [done|].
  apply not_elem_of_cons in Hl as [Hc Hl]. rewrite decide_False; [congruence|]. by rewrite IH.
Qed.

Lemma split_line_none l : LF ∉ l → split_line l = None.
Proof.
  induction l as [|c l IH]; intros Hl; simpl; [done|].
  apply not_elem_of_cons in Hl as [Hc Hl]. rewrite decide_False; [congruence|]. by rewrite IH.
Qed.

Lemma drop_cr_snoc l : drop_cr (l ++ [CR]) = l.
Proof. unfold drop_cr. rewrite last_snoc. case_decide; [apply removelast_last|done]. Qed.

Lemma drop_cr_cases l : drop_cr l = l ∨ ∃ l', l = l' ++ [CR] ∧ drop_cr l = l'.
Proof.
  destruct l as [|c l _] using rev_ind; [by left|]. destruct (decide (c = CR)) as [->|Hne].
  - right. exists l. split; [done|apply drop_cr_snoc].
  - left. unfold drop_cr. rewrite last_snoc. by case_decide.
Qed.

(** A line that fits the buffer with its terminator. *)
Lemma buffered_short size l r :
  LF ∉ l → (length l + 2 ≤ size)%nat → buffered_line size (l ++ CRLF ++ r) = inr (l, false, r).
Proof.
  intros Hl Hlen. unfold buffered_line, CRLF. simpl.
  assert (take size (l ++ CR :: LF :: r) = (l ++ [CR]) ++ LF :: take (size - length l - 2) r) as Et.
  { rewrite take_app take_ge; [lia|]. rewrite -app_assoc. f_equal.
    destruct (size - length l)%nat as [|[|k]] eqn:E; [lia|lia|]. simpl. do 3 f_equal. lia. }
  rewrite Et split_line_app.
  { rewrite not_elem_of_app list_elem_of_singleton. split; [done|by intros [=]]. }
  rewrite drop_cr_snoc. do 2 f_equal. rewrite length_app /=.
  rewrite drop_app_ge; [lia|]. by replace (S (length l + 1) - length l)%nat with 2%nat by lia.
Qed.

(** A longer one comes in a proper chunk. *)
Lemma buffered_long size l r :
  LF ∉ l → (size < length l + 2)%nat → (2 ≤ size)%nat →
  ∃ l1 l2, l = l1 ++ l2 ∧ l1 ≠ [] ∧ buffered_line size (l ++ CRLF ++ r) = inr (l1, true, l2 ++ CRLF ++ r).
Proof.
  intros Hl Hlen H2. set (s := l ++ CRLF ++ r).
  assert (LF ∉ take size s ∧ ∃ x, take size s `prefix_of` l ++ [CR] ∧
    length (take size s) = size ∧ x = take size s) as (Hno & _ & Hpre & Hlt & _).
  { assert (take size s `prefix_of` l ++ [CR]) as Hp.
    { unfold s, CRLF. change ([CR; LF] ++ r) with ([CR] ++ LF :: r). rewrite app_assoc.
      rewrite take_app_le; [rewrite length_app; simpl; lia|]. apply prefix_take. }
    split.
    - intros Hin. destruct Hp as [k Hk]. assert (LF ∈ l ++ [CR]) as Hin' by (rewrite Hk elem_of_app; by left).
      apply elem_of_app in Hin' as [Hx|Hx%list_elem_of_singleton]; [exact (Hl Hx)|discriminate Hx].
    - eexists. split_and!; [exact Hp| |reflexivity]. rewrite length_take. unfold s. rewrite !length_app. simpl. lia. }
  assert (drop_cr (take size s) `prefix_of` l ∧ drop_cr (take size s) ≠ []) as [[l2 Hl2] Hne].
  { destruct (drop_cr_cases (take size s)) as [E|(l' & E & E')].
    - rewrite E. split.
      + destruct Hpre as [k Hk]. destruct k as [|c k _] using rev_ind.
        * rewrite app_nil_r in Hk. exfalso. rewrite -Hk drop_cr_snoc in E.
          apply (f_equal length) in E. rewrite length_app in E. simpl in E. lia.
        * rewrite app_assoc in Hk. apply app_inj_tail in Hk as [Hk _]. by exists k.
      + intros E0. rewrite E0 in Hlt. simpl in Hlt. lia.
    - rewrite E'. split.
      + destruct Hpre as [k Hk]. rewrite E -app_assoc in Hk. destruct k as [|c k _] using rev_ind.
        * apply app_inj_tail in Hk as [-> _]. done.
        * rewrite !app_assoc in Hk. apply app_inj_tail in Hk as [Hk _]. rewrite -app_assoc in Hk. by eexists.
      + intros E0. rewrite E E0 in Hlt. simpl in Hlt. lia. }
  exists (drop_cr (take size s)), l2. split_and!; [done|done|].
  unfold buffered_line. fold s. rewrite split_line_none //. rewrite (proj2 (Z.ltb_ge _ _)).
  { unfold s. rewrite length_app. simpl. lia. }
  do 2 f_equal. unfold s at 2. rewrite {1}Hl2 -app_assoc. by rewrite drop_app_length.
Qed.

Lemma readerSize_2 : (2 ≤ readerSize)%nat.
Proof. unfold readerSize. lia. Qed.

#[global] Opaque readerSize.

Lemma read_chunks_line n : ∀ fuel l r acc,
  (length l ≤ n)%nat → (length l < fuel)%nat → LF ∉ l →
  read_chunks fuel acc true (l ++ CRLF ++ r) = inr (acc ++ l, r).
Proof.
  induction n as [n IH] using lt_wf_ind. intros fuel l r acc Hn Hf Hl. destruct fuel as [|fuel]; [lia|].
  cbn [read_chunks]. unfold mbind, reader_bind.
  unfold ReadLine. generalize readerSize_2. generalize readerSize. intros size H2.
  destruct (Nat.le_gt_cases (length l + 2) size) as [Hs|Hs].
  - rewrite buffered_short //. by destruct fuel.
  - destruct (buffered_long size l r Hl Hs H2) as (l1 & l2 & -> & Hne & ->). cbn [fst snd].
    rewrite length_app in Hn, Hf. assert (0 < length l1)%nat by (destruct l1; [done|simpl; lia]).
    rewrite (IH (length l2)); [lia|lia|lia| |by rewrite -app_assoc].
    intros Hin. apply Hl, elem_of_app. by right.
Qed.

(** [readLine] returns a line of any length. *)
Lemma readLine_line l r : LF ∉ l → readLine (l ++ CRLF ++ r) = inr (l, r).
Proof.
  intros Hl. unfold readLine. assert (length l < length (l ++ CRLF ++ r))%nat as Hf by (rewrite !length_app; simpl; lia).
  revert Hf. generalize (length (l ++ CRLF ++ r)). intros fuel Hf. unfold mbind, reader_bind.
  unfold ReadLine. generalize readerSize_2. generalize readerSize. intros size H2.
  destruct (Nat.le_gt_cases (length l + 2) size) as [Hs|Hs].
  - rewrite buffered_short //. by destruct fuel.
  - destruct (buffered_long size l r Hl Hs H2) as (l1 & l2 & -> & Hne & ->). cbn [fst snd].
    rewrite length_app in Hf. simpl in Hf. rewrite (read_chunks_line (length l2)); [lia|lia| |done].
    intros Hin. apply Hl, elem_of_app. by right.
Qed.

(** ** Lemmas on numbers *)

Lemma i64_mul_add v d : i64 (i64 (i64 v * 10) + d) = i64 (v * 10 + d).
Proof. unfold i64. Z.div_mod_to_equations. lia. Qed.

Lemma digits_fold_ge ds : ∀ n, Forall is_digit ds → 0 ≤ n →
  n ≤ fold_left (λ a c, a * 10 + (byteZ c - 48)) ds n.
Proof.
  induction ds as [|c ds IH]; intros n Hds Hn; simpl; [lia|].
  apply Forall_cons in Hds as [Hc Hds]. unfold is_digit in Hc. etrans; [|apply IH; [done|lia]]. lia.
Qed.

Lemma parse_digits_value ds : ∀ n, Forall is_digit ds → 0 ≤ n →
  fold_left (λ a c, a * 10 + (byteZ c - 48)) ds n < 2 ^ 63 →
  parse_digits ds n = inr (fold_left (λ a c, a * 10 + (byteZ c - 48)) ds n).
Proof.
  induction ds as [|c ds IH]; intros n Hds Hn Hlt; [done|]. apply Forall_cons in Hds as [Hc Hds].
  unfold is_digit in Hc. simpl in *. rewrite (proj2 (Z.ltb_ge _ _)); [lia|]. rewrite (proj2 (Z.ltb_ge _ _)); [lia|].
  pose proof (digits_fold_ge ds (n * 10 + (byteZ c - 48)) Hds ltac:(lia)) as Hge. simpl.
  rewrite (i64_small (n * 10)); [unfold is_i64; lia|]. rewrite i64_small; [unfold is_i64; lia|].
  apply IH; [done|lia|done].
Qed.

Lemma parseUintBytes_Format n : 0 ≤ n < 2 ^ 63 → parseUintBytes (FormatUint n) = inr n.
Proof.
  intros Hn. destruct (FormatUint_spec n ltac:(lia)) as (Hd & Hne & Hv). unfold parseUintBytes, dec_value in *.
  destruct (FormatUint n) as [|c ds] eqn:E; [done|]. rewrite parse_digits_value //; rewrite Hv; [lia|done].
Qed.

Lemma FormatInt_nat n : 0 ≤ n → FormatInt n = FormatUint n.
Proof. intros. unfold FormatInt. by rewrite (proj2 (Z.ltb_ge _ _)). Qed.

Lemma parseIntBytes_Format n : 0 ≤ n < 2 ^ 63 → parseIntBytes (FormatInt n) = inr n.
Proof.
  intros Hn. rewrite FormatInt_nat; [lia|]. destruct (FormatUint_spec n ltac:(lia)) as (Hd & Hne & _).
  pose proof (parseUintBytes_Format n Hn) as Hp. destruct (FormatUint n) as [|c ds]; [done|].
  unfold parseIntBytes. rewrite decide_False; [|exact Hp].
  intros ->. apply Forall_cons in Hd as [Hc _]. unfold is_digit in Hc. by vm_compute in Hc.
Qed.

Lemma number_line_no_lf c n : c ≠ LF → 0 ≤ n → LF ∉ c :: FormatInt n.
Proof.
  intros Hc Hn. rewrite FormatInt_nat // not_elem_of_cons. split; [congruence|].
  apply digits_no_sep; [by intros [? _]|]. by apply FormatUint_spec.
Qed.

(** ** Lemmas on commands *)

Definition arg_ok (b : byte_slice) : Prop := len_slice b ≤ maxBulkLength.

Lemma read_arg_bulk b r : arg_ok b → read_arg (WriteBulkString b ++ r) = inr (b, r).
Proof.
  unfold arg_ok, len_slice, maxBulkLength. intros Hb. unfold read_arg, mbind, reader_bind. destruct b as [b|].
  - simpl in Hb. cbn [WriteBulkString]. rewrite app_comm_cons -!app_assoc readLine_line.
    { apply number_line_no_lf; [by intros [=]|lia]. }
    destruct (decide _) as [Hc|_]; [by destruct Hc|]. rewrite parseIntBytes_Format; [lia|].
    unfold maxBulkLength. rewrite (proj2 (Z.ltb_ge _ _)); [lia|]. rewrite (proj2 (Z.ltb_ge _ _)); [lia|].
    unfold ReadFull. rewrite !length_app (proj2 (Z.ltb_ge _ _)); [simpl; lia|].
    set (k := Z.to_nat (Z.of_nat (length b) + 2)).
    assert (take k (b ++ CRLF ++ r) = b ++ CRLF) as Et.
    { rewrite app_assoc take_app_length' //. rewrite length_app. simpl. lia. }
    assert (drop k (b ++ CRLF ++ r) = r) as Ed.
    { rewrite app_assoc drop_app_length' //. rewrite length_app. simpl. lia. }
    rewrite Et Ed Nat2Z.id take_app_length. done.
  - change (WriteBulkString None ++ r) with (str "$-1" ++ CRLF ++ r). rewrite readLine_line; [|done].
    apply (bool_decide_unpack (LF ∉ _)). by vm_compute.
Qed.

Lemma read_args_bulks args r :
  Forall arg_ok args → read_args (length args) ((args ≫= WriteBulkString) ++ r) = inr (args, r).
Proof.
  induction 1 as [|b args Hb _ IH]; [done|]. rewrite bind_cons -app_assoc.
  cbn [length read_args]. unfold mbind, reader_bind. rewrite read_arg_bulk //. by rewrite IH.
Qed.

Lemma ReadCommand_array ut uf name args r :
  Forall arg_ok (name :: args) → Z.of_nat (length (name :: args)) ≤ maxCommandArgs →
  ReadCommand ut uf (WriteArray (Some (name :: args)) ++ r) =
    inr (mkCommand (gostring (ToUpper ut (default [] name))) args, r).
Proof.
  intros Hok Hlen. unfold maxCommandArgs in Hlen. pose proof (read_args_bulks (name :: args) r Hok) as E.
  cbn [WriteArray]. revert E. generalize ((name :: args) ≫= WriteBulkString). intros bulks E.
  unfold ReadCommand, mbind, reader_bind.
  rewrite app_comm_cons -!app_assoc readLine_line.
  { apply number_line_no_lf; [by intros [=]|lia]. }
  destruct (decide _) as [Hc|_]; [by destruct Hc|]. rewrite FormatInt_nat; [lia|].
  rewrite parseUintBytes_Format; [lia|]. rewrite (proj2 (Z.leb_gt _ _)); [simpl; lia|].
  unfold maxCommandArgs. rewrite (proj2 (Z.ltb_ge _ _)); [lia|]. rewrite Nat2Z.id.
  by rewrite E.
Qed.

(** ** Progress *)

(** A successful read leaves a proper suffix of its input. *)
Definition consumes {A} (m : reader A) : Prop := ∀ s a r,
  m s = inr (a, r) → r `suffix_of` s ∧ (length r < length s)%nat.

Lemma suffix_drop k (s : bytes) : drop k s `suffix_of` s.
Proof. exists (take k s). by rewrite take_drop. Qed.

Lemma buffered_consumes size : (2 ≤ size)%nat → consumes (buffered_line size).
Proof.
  intros H2 s [l more] r. unfold buffered_line.
  destruct (split_line (take size s)) as [[l' r']|] eqn:E.
  - intros [= _ _ <-]. split; [apply suffix_drop|]. rewrite length_drop.
    destruct s; [by rewrite take_nil in E|simpl; lia].
  - case_match eqn:El; [destruct s; [done|]|]; intros [= _ _ <-].
    + split; [apply suffix_nil|simpl; lia].
    + split; [apply suffix_drop|]. rewrite length_drop. apply Z.ltb_ge in El.
      assert (length (take size s) = size) as Hl by (rewrite length_take; lia).
      destruct (drop_cr_cases (take size s)) as [->|(l' & E' & ->)]; [lia|].
      rewrite E' length_app /= in Hl. lia.
Qed.

Lemma ReadLine_consumes : consumes ReadLine.
Proof. apply buffered_consumes, readerSize_2. Qed.

Lemma read_chunks_suffix fuel : ∀ acc b s l r, read_chunks fuel acc b s = inr (l, r) → r `suffix_of` s.
Proof.
  induction fuel as [|fuel IH]; intros acc [|] s l r; cbn [read_chunks]; try done; try by intros [= _ ->].
  unfold mbind, reader_bind. destruct (ReadLine s) as [|[[c b] s1]] eqn:E; [done|].
  intros Hr%IH. etrans; [exact Hr|]. by apply (ReadLine_consumes s (c, b)).
Qed.

Lemma read_chunks_prefix fuel : ∀ acc b s l r, read_chunks fuel acc b s = inr (l, r) → acc `prefix_of` l.
Proof.
  induction fuel as [|fuel IH]; intros acc [|] s l r; cbn [read_chunks]; try done; try by intros [= -> _].
  unfold mbind, reader_bind. destruct (ReadLine s) as [|[[c b] s1]] eqn:E; [done|].
  intros Hr%IH. etrans; [|exact Hr]. by apply prefix_app_r.
Qed.

Lemma readLine_consumes : consumes readLine.
Proof.
  intros s l r. unfold readLine, mbind, reader_bind.
  destruct (ReadLine s) as [|[[c b] s1]] eqn:E; [done|]. intros Hr%read_chunks_suffix.
  destruct (ReadLine_consumes _ _ _ E) as [Hs Hl]. split; [by etrans|].
  apply suffix_length in Hr. lia.
Qed.

(** The fuel of the joining loop never runs out: a chunk is not empty. *)
Lemma read_chunks_more fuel : ∀ k acc b s,
  (length s ≤ fuel)%nat → read_chunks (fuel + k) acc b s = read_chunks fuel acc b s.
Proof.
  induction fuel as [|fuel IH]; intros k acc b s Hs.
  - destruct b; [|by destruct k]. destruct s; [|simpl in Hs; lia]. by destruct k.
  - destruct b; [|done]. cbn [Nat.add read_chunks]. unfold mbind, reader_bind.
    destruct (ReadLine s) as [|[[c b] s1]] eqn:E; [done|]. apply IH.
    destruct (ReadLine_consumes _ _ _ E). lia.
Qed.

Lemma read_arg_spec s a r : read_arg s = inr (a, r) →
  r `suffix_of` s ∧ (length r < length s)%nat ∧ arg_ok a.
Proof.
  unfold read_arg, mbind, reader_bind. destruct (readLine s) as [|[l s1]] eqn:E; [done|].
  destruct (readLine_consumes _ _ _ E) as [Hs Hl]. destruct l as [|c digits]; [done|].
  destruct (decide _) as [_|_]; [done|]. destruct (parseIntBytes digits) as [|n]; [done|].
  destruct (maxBulkLength <? n) eqn:Hmax; [done|]. destruct (n <? 0) eqn:Hneg.
  { intros [= <- <-]. split_and!; [done|done|]. unfold arg_ok, len_slice, maxBulkLength. simpl. lia. }
  unfold ReadFull. destruct (Z.of_nat (length s1) <? n + 2) eqn:Hf; [done|]. intros [= <- <-].
  split_and!; [etrans; [apply suffix_drop|done]|rewrite length_drop; lia|].
  unfold arg_ok, len_slice. cbn [default]. rewrite !length_take. lia.
Qed.

Lemma read_args_spec n : ∀ s args r, read_args n s = inr (args, r) →
  r `suffix_of` s ∧ length args = n ∧ Forall arg_ok args.
Proof.
  induction n as [|n IH]; intros s args r; cbn [read_args].
  { intros [= <- <-]. done. }
  unfold mbind, reader_bind. destruct (read_arg s) as [|[a s1]] eqn:E; [done|].
  apply read_arg_spec in E as (Hs & _ & Ha). destruct (read_args n s1) as [|[args' s2]] eqn:E'; [done|].
  apply IH in E' as (Hs' & Hn & Hargs). intros [= <- <-].
  split_and!; [by etrans|by rewrite /= Hn|by constructor].
Qed.

(** The first byte of a line is the first byte read. *)
Lemma split_line_head s l r c : split_line s = Some (c :: l, r) → head s = Some c.
Proof.
  destruct s as [|c' s]; [done|]. simpl. case_decide; [done|].
  destruct (split_line s) as [[??]|]; [|done]. by intros [= -> _ _].
Qed.

Lemma drop_cr_head l c l' : drop_cr l = c :: l' → head l = Some c.
Proof. destruct (drop_cr_cases l) as [->|(l1 & -> & ->)]; by intros ->. Qed.

Lemma head_take n (s : bytes) c : head (take n s) = Some c → head s = Some c.
Proof. by destruct n, s. Qed.

Lemma readLine_head s l r : readLine s = inr (l, r) → ∀ c l', l = c :: l' → head s = Some c.
Proof.
  intros Hr c l' ->. revert Hr. unfold readLine, mbind, reader_bind.
  assert (∀ l1 b s1, ReadLine s = inr (l1, b, s1) → (b = true → l1 ≠ []) ∧ ∀ c l', l1 = c :: l' → head s = Some c) as Hh.
  { unfold ReadLine. generalize readerSize_2. generalize readerSize. intros size H2 l1 b s1. unfold buffered_line.
    destruct (split_line (take size s)) as [[l2 r2]|] eqn:E.
    - intros [= <- <- _]. split; [done|]. intros c' l3 Hd%drop_cr_head. destruct l2 as [|c2 l2]; [done|].
      injection Hd as ->. by eapply head_take, split_line_head.
    - case_match eqn:El; [destruct s; [done|]|]; intros [= <- <- _].
      + split; [done|]. by intros ?? [= -> _].
      + split; [|intros c' l3 Hd%drop_cr_head; by eapply head_take].
        intros _ E0. apply Z.ltb_ge in El.
        assert (length (take size s) = size) as Hl by (rewrite length_take; lia).
        destruct (drop_cr_cases (take size s)) as [E1|(l3 & E1 & E2)].
        * rewrite E1 in E0. rewrite E0 in Hl. simpl in Hl. lia.
        * rewrite E1 -E2 E0 in Hl. simpl in Hl. lia. }
  destruct (ReadLine s) as [|[[l1 b] s1]]; [done|]. destruct (Hh _ _ _ eq_refl) as [Hne Hhd]. cbn [fst snd].
  destruct b; [|destruct (length s); intros [= -> _]; by eapply Hhd].
  intros Hr. destruct l1 as [|c1 l1]; [by destruct Hne|]. rewrite (Hhd c1 l1 eq_refl). f_equal.
  apply read_chunks_prefix in Hr as [k Hk]. by injection Hk.
Qed.

(** The digits loop on any bytes. *)
Lemma parse_digits_exact b : ∀ n v, n = i64 v →
  parse_digits b n =
    if decide (Forall is_digit b) then inr (i64 (fold_left (λ a c, a * 10 + (byteZ c - 48)) b v))
    else inl InvalidInteger.
Proof.
  induction b as [|c b IH]; intros n v ->; [by destruct (decide (Forall is_digit [])) as [_|[]]|].
  cbn [parse_digits fold_left].
  destruct (decide (is_digit c)) as [Hd|Hd]; unfold is_digit in Hd.
  - rewrite (proj2 (Z.ltb_ge _ _)); [lia|]. rewrite (proj2 (Z.ltb_ge _ _)); [lia|].
    simpl. rewrite (IH _ (v * 10 + (byteZ c - 48))); [by rewrite i64_mul_add|].
    destruct (decide (Forall is_digit b)), (decide (Forall is_digit (c :: b))) as [Hf|Hf];
      rewrite Forall_cons in Hf; unfold is_digit at 1 in Hf; done || tauto.
  - destruct (decide (Forall is_digit (c :: b))) as [Hf|_]; [by apply Forall_cons in Hf as [? _]|].
    destruct (byteZ c <? 48) eqn:E1; [done|]. by destruct (57 <? byteZ c) eqn:E2; [|lia].
Qed.

(** ** The theorems *)

(** The commands read from a connection, at most [n] of them. *)
Fixpoint ReadCommands (ut : bytes → bytes) (uf : bytes → list bytes) (n : nat) : reader (list Command) :=
  match n with
  | O => mret []
  | S n' => c ← ReadCommand ut uf; cs ← ReadCommands ut uf n'; mret (c :: cs)
  end.

(** A command as a client writes it: a name and its arguments. *)
Definition sent : Type := byte_slice * list byte_slice.

Definition sent_ok (c : sent) : Prop :=
  Forall arg_ok (c.1 :: c.2) ∧ Z.of_nat (length (c.1 :: c.2)) ≤ maxCommandArgs.

Definition wire (c : sent) : bytes := WriteArray (Some (c.1 :: c.2)).

(** C26: whatever the payloads contain (line ends and zero bytes included), the commands
    that [WriteArray] puts on a connection one after the other, of fewer than 65536
    arguments of at most 64 MB each, are read back one by one, each with its arguments and
    the upper-case of its name, and the bytes that follow are left for the next read. *)
Theorem commands_roundtrip ut uf cs rest (Hcs : Forall sent_ok cs) :
  ReadCommands ut uf (length cs) ((cs ≫= wire) ++ rest) =
    inr ((λ c, mkCommand (gostring (ToUpper ut (default [] c.1))) c.2) <$> cs, rest).
Proof.
  induction Hcs as [|[name args] cs [Hok Hlen] _ IH]; [done|].
  rewrite bind_cons -app_assoc. cbn [length ReadCommands]. unfold mbind at 1, reader_bind at 1.
  unfold wire at 1. rewrite ReadCommand_array //. unfold mbind at 1, reader_bind at 1. by rewrite IH.
Qed.

(** C27: [ReadCommand] on any bytes: a command that is returned was taken from
    the front of the stream, at least one byte of it; a command sent as an
    array has fewer than 65536 arguments, each of at most 64 MB. *)
Theorem ReadCommand_bounded ut uf s cmd r (Hr : ReadCommand ut uf s = inr (cmd, r)) :
  r `suffix_of` s ∧ (length r < length s)%nat ∧
  (head s = Some "*"%byte →
   Z.of_nat (length (cmd_Args cmd)) < maxCommandArgs ∧ Forall arg_ok (cmd_Args cmd)).
Proof.
  unfold ReadCommand, mbind, reader_bind in Hr. destruct (readLine s) as [|[l s1]] eqn:E; [done|].
  destruct (readLine_consumes _ _ _ E) as [Hs Hl]. pose proof (readLine_head _ _ _ E) as Hh.
  destruct l as [|c digits]; [done|]. destruct (decide _) as [Hc|_] in Hr.
  { destruct (Fields uf (c :: digits)); [done|]. injection Hr as <- <-. split_and!; [done|done|].
    intros Hstar. rewrite (Hh c digits eq_refl) in Hstar. congruence. }
  destruct (parseUintBytes digits) as [|count]; [done|].
  destruct (count <=? 0) eqn:Hpos; [done|]. destruct (maxCommandArgs <? count) eqn:Hmax; [done|].
  destruct (read_args (Z.to_nat count) s1) as [|[args s2]] eqn:Ea; [done|].
  apply read_args_spec in Ea as (Hs' & Hn & Hargs). destruct args as [|name args]; [done|].
  injection Hr as <- <-. split_and!; [by etrans|apply suffix_length in Hs'; lia|].
  intros _. apply Forall_cons in Hargs as [_ Hargs]. simpl in *. split; [lia|done].
Qed.

(** The joining loop of [readLine] ends: with any more fuel it gives the
    same result, on every stream. *)
Theorem readLine_total s k : (r ← ReadLine; read_chunks (length s + k) r.1 r.2) s = readLine s.
Proof.
  unfold readLine, mbind, reader_bind. destruct (ReadLine s) as [|[[c b] s1]] eqn:E; [done|].
  destruct (ReadLine_consumes _ _ _ E).
  replace (length s) with (length s1 + (length s - length s1))%nat by lia.
  rewrite -Nat.add_assoc !read_chunks_more //.
Qed.

(** [parseUintBytes] on every input: it fails on an empty slice and on a
    byte that is not a digit, and otherwise returns the number modulo 2^64 as a
    signed 64-bit integer, without an overflow check. *)
Theorem parseUintBytes_exact b :
  parseUintBytes b =
    match b with
    | [] => inl EmptyInteger
    | _ => if decide (Forall is_digit b) then inr (i64 (dec_value b)) else inl InvalidInteger
    end.
Proof.
  destruct b as [|c b]; [done|]. unfold parseUintBytes, dec_value.
  rewrite (parse_digits_exact (c :: b) 0 0); [done|]. done.
Qed.

(** ** Witnesses *)

Definition demo_sent : list sent :=
  [(Some (str "vmq.publish"), [Some (str "orders"); Some (str "a" ++ CRLF ++ str "b")]);
   (Some (str "PING"), []);
   (Some (str "ECHO"), [None])].

Lemma demo_sent_ok : Forall sent_ok demo_sent.
Proof.
  unfold demo_sent, sent_ok, arg_ok. rewrite !Forall_cons !Forall_nil. by vm_compute.
Qed.

Lemma commands_roundtrip_witness :
  ReadCommands id (λ _, []) 3 ((demo_sent ≫= wire) ++ str "tail") =
    inr ([mkCommand "VMQ.PUBLISH" [Some (str "orders"); Some (str "a" ++ CRLF ++ str "b")];
          mkCommand "PING" []; mkCommand "ECHO" [None]], str "tail").
Proof. exact (commands_roundtrip id (λ _, []) demo_sent (str "tail") demo_sent_ok). Defined.

Lemma ReadCommand_bounded_witness :
  Z.of_nat (length (cmd_Args (mkCommand "ECHO" [Some (str "hi")]))) < maxCommandArgs.
Proof.
  refine (proj1 (proj2 (proj2 (ReadCommand_bounded id (λ _, [])
    (str "*2" ++ CRLF ++ str "$4" ++ CRLF ++ str "echo" ++ CRLF ++ str "$2" ++ CRLF ++ str "hi" ++ CRLF)
    (mkCommand "ECHO" [Some (str "hi")]) [] _)) _)); by vm_compute.
Defined.
