(* ===== verification/BufReader.v ===== *)
(** * The buffered reader under the RESP codec

    [Resp] reads the stream of bytes a connection delivers.  The code reads it
    through [bufio.Reader]: a buffer of 64 KiB, refilled by whatever a read of the
    socket returns, whose [ReadLine] returns a slice of that buffer.  Here
    [resp.go] is modelled over this buffer, with the packets the socket delivers
    in any division, and with its results as slices.

    Shown: the division into packets is invisible and the reader is the one of
    [Resp] ([buffered_reader_refines]); the arguments of a command in array form
    are memory of their own ([array_args_stable]); those of an inline command
    share the buffer, and the next command changes them
    ([inline_args_overwritten]).

    A read of a socket returns at least one byte, or the end of the stream without
    bytes; so an error that [bufio.Reader] remembers is reported by the call that
    met it, and is not part of the state. *)

From S2P Require Import Prelude GoText Resp.

(** [buf], the indices [r] and [w], and the reads to come from the socket. *)
Record Reader : Type := mkReader {
  rd_buf : bytes;
  rd_r : nat;
  rd_w : nat;
  rd_conn : list bytes
}.

Definition NewReader (conn : list bytes) : Reader := mkReader (replicate readerSize x00) 0 0 conn.

Definition Buffered (b : Reader) : nat := rd_w b - rd_r b.

(** [b.buf[o:o+n]] *)
Definition sub (o n : nat) (l : bytes) : bytes := take n (drop o l).

(** [b.buf[b.r:b.w]] *)
Definition window (b : Reader) : bytes := sub (rd_r b) (Buffered b) (rd_buf b).

Definition skip (n : nat) (b : Reader) : Reader :=
  mkReader (rd_buf b) (rd_r b + n) (rd_w b) (rd_conn b).

(** [copy(buf[o:], data)] *)
Definition buf_copy (buf : bytes) (o : nat) (data : bytes) : bytes :=
  take o buf ++ data ++ drop (o + length data) buf.

(** [rd.Read(p)] with [len(p) = n] on a socket; [None] is the end. *)
Definition conn_Read (n : nat) (conn : list bytes) : option (bytes * list bytes) :=
  match conn with
  | [] => None
  | p :: conn' => Some (take n p, if (length p <=? n)%nat then conn' else drop n p :: conn')
  end.

(** [b.fill()]: slide, then read; and whether it met the end. *)
Definition fill (b : Reader) : Reader * bool :=
  let buf := buf_copy (rd_buf b) 0 (window b) in
  let w := Buffered b in
  match conn_Read (length buf - w) (rd_conn b) with
  | None => (mkReader buf 0 w [], true)
  | Some (p, conn) => (mkReader (buf_copy buf w p) 0 (w + length p) conn, false)
  end.

(** How [ReadSlice('\n')] ends. *)
Inductive ending : Type := Delimiter | AtEnd | BufferFull.

(** Its result is a slice of the buffer, as an offset and a length. *)
Fixpoint slice_loop (fuel : nat) (b : Reader) : (nat * nat) * ending * Reader :=
  match split_line (window b) with
  | Some (l, _) => ((rd_r b, S (length l)), Delimiter, skip (S (length l)) b)
  | None =>
      if (length (rd_buf b) <=? Buffered b)%nat then ((0, length (rd_buf b))%nat, BufferFull, skip (Buffered b) b)
      else
        let (b', eof) := fill b in
        if eof then ((rd_r b', Buffered b'), AtEnd, skip (Buffered b') b')
        else match fuel with
             | O => ((rd_r b', 0)%nat, AtEnd, b')
             | S fuel' => slice_loop fuel' b'
             end
  end.

Definition ReadSlice (b : Reader) : (nat * nat) * ending * Reader :=
  slice_loop (length (concat (rd_conn b))) b.

(** A byte slice the codec returns: part of the buffer, or memory of its own. *)
Inductive slice : Type :=
| InBuf (o n : nat)
| Own (data : bytes).

(** The bytes a slice has when the reader is [b]. *)
Definition contents (b : Reader) (s : slice) : bytes :=
  match s with InBuf o n => sub o n (rd_buf b) | Own data => data end.

(** [s[o:o+n]] *)
Definition subslice (s : slice) (p : nat * nat) : slice :=
  match s with
  | InBuf o _ => InBuf (o + p.1) p.2
  | Own data => Own (sub p.1 p.2 data)
  end.

(** A call on the reader: an error or a value, and the reader after it. *)
Definition breader (A : Type) : Type := Reader → RespError * Reader + A * Reader.

Global Instance breader_ret : MRet breader := λ A a b, inr (a, b).

Global Instance breader_bind : MBind breader := λ A B k m b,
  match m b with inl e => inl e | inr (a, b') => k a b' end.

Definition raise {A} (e : RespError) : breader A := λ b, inl (e, b).

(** Looks at the bytes of a slice. *)
Definition load (s : slice) : breader bytes := λ b, inr (contents b s, b).

Definition ReadLine : breader (slice * bool) := λ b,
  let '((o, n), how, b') := ReadSlice b in
  match how with
  | BufferFull =>
      if decide (last (sub o n (rd_buf b')) = Some CR)
      then inr (InBuf o (n - 1), true, mkReader (rd_buf b') (rd_r b' - 1) (rd_w b') (rd_conn b'))
      else inr (InBuf o n, true, b')
  | AtEnd => if decide (n = 0%nat) then inl (EOF, b') else inr (InBuf o n, false, b')
  | Delimiter =>
      let l := sub o (n - 1) (rd_buf b') in
      inr (InBuf o (length (drop_cr l)), false, b')
  end.

(** The loop of [readLine]: [append] copies the chunks. *)
Fixpoint read_chunks (fuel : nat) (fullLine : bytes) (isPrefix : bool) : breader bytes :=
  if isPrefix then
    match fuel with
    | O => raise EOF
    | S fuel' => r ← ReadLine; chunk ← load r.1; read_chunks fuel' (fullLine ++ chunk) r.2
    end
  else mret fullLine.

(** The bytes that can still be read. *)
Definition pending (b : Reader) : bytes := window b ++ concat (rd_conn b).

Definition readLine : breader slice := λ b,
  (r ← ReadLine;
   if r.2 : bool then
     line ← load r.1; fullLine ← read_chunks (length (pending b)) line true; mret (Own fullLine)
   else mret r.1) b.

(** [b.Read(p)] with [len(p) = n], [n] positive. *)
Definition buf_Read (n : nat) : breader bytes := λ b,
  if decide (rd_r b = rd_w b) then
    if (length (rd_buf b) <=? n)%nat then
      match conn_Read n (rd_conn b) with
      | None => inl (EOF, b)
      | Some (p, conn) => inr (p, mkReader (rd_buf b) (rd_r b) (rd_w b) conn)
      end
    else
      match conn_Read (length (rd_buf b)) (rd_conn b) with
      | None => inl (EOF, mkReader (rd_buf b) 0 0 (rd_conn b))
      | Some (p, conn) =>
          let b' := mkReader (buf_copy (rd_buf b) 0 p) 0 (length p) conn in
          inr (take n (window b'), skip (Nat.min n (length p)) b')
      end
  else inr (take n (window b), skip (Nat.min n (Buffered b)) b).

(** [io.ReadFull(b, p)] with [len(p) - len(got) = n]. *)
Fixpoint full_loop (fuel : nat) (n : nat) (got : bytes) : breader bytes :=
  if decide (n = 0%nat) then mret got else
  match fuel with
  | O => raise EOF
  | S fuel' => p ← buf_Read n; full_loop fuel' (n - length p) (got ++ p)
  end.

Definition ReadFull (n : Z) : breader bytes := λ b, full_loop (S (length (pending b))) (Z.to_nat n) [] b.

(** One round of the argument loop; [buf] is allocated in it. *)
Definition read_arg : breader byte_slice :=
  s ← readLine;
  argLine ← load s;
  match argLine with
  | [] => raise ExpectedBulk
  | c :: digits =>
      if decide (c ≠ "$"%byte) then raise ExpectedBulk else
      match parseIntBytes digits with
      | inl _ => raise InvalidBulkLength
      | inr bulkLen =>
          if maxBulkLength <? bulkLen then raise BulkTooLong else
          if bulkLen <? 0 then mret None else
          buf ← ReadFull (bulkLen + 2);
          mret (Some (take (Z.to_nat bulkLen) buf))
      end
  end.

Fixpoint read_args (n : nat) : breader (list byte_slice) :=
  match n with
  | O => mret []
  | S n' => a ← read_arg; args ← read_args n'; mret (a :: args)
  end.

(** The fields of a text as offsets and lengths; [n] counts the open field. *)
Fixpoint spans_go (l : bytes) (pos n : nat) : list (nat * nat) :=
  match l with
  | [] => if decide (n = 0%nat) then [] else [((pos - n)%nat, n)]
  | c :: l' =>
      if is_space c then
        if decide (n = 0%nat) then spans_go l' (S pos) 0 else ((pos - n)%nat, n) :: spans_go l' (S pos) 0
      else spans_go l' (S pos) (S n)
  end.

(** A command whose arguments are slices; [None] is [nil]. *)
Record SliceCommand : Type := mkSliceCommand { sc_Name : string; sc_Args : list (option slice) }.

(** The command a reader's memory holds for it. *)
Definition view_command (b : Reader) (c : SliceCommand) : Command :=
  mkCommand (sc_Name c) (fmap (M := option) (contents b) <$> sc_Args c).

Section command.
Context (unicode_ToUpper : bytes → bytes) (unicode_spans : bytes → list (nat * nat)).

(** [bytes.Fields] as subslices: outside ASCII, by the Unicode tables. *)
Definition field_spans (l : bytes) : list (nat * nat) :=
  if is_ascii l then spans_go l 0 0 else unicode_spans l.

Definition ReadCommand : breader SliceCommand :=
  s ← readLine;
  line ← load s;
  match line with
  | [] => raise EmptyCommandLine
  | c :: digits =>
      if decide (c ≠ "*"%byte) then
        match subslice s <$> field_spans line with
        | [] => raise EmptyInlineCommand
        | name :: args =>
            nm ← load name;
            mret (mkSliceCommand (gostring (ToUpper unicode_ToUpper nm)) (Some <$> args))
        end
      else
        match parseUintBytes digits with
        | inl _ => raise InvalidArrayLength
        | inr count =>
            if count <=? 0 then raise InvalidArrayLength else
            if maxCommandArgs <? count then raise ArrayTooLong else
            args ← read_args (Z.to_nat count);
            match args with
            | [] => raise EmptyArguments
            | name :: args' =>
                mret (mkSliceCommand (gostring (ToUpper unicode_ToUpper (default [] name)))
                                     (fmap (M := option) Own <$> args'))
            end
        end
  end.

(** The texts of the fields, as [Resp] takes them. *)
Definition unicode_fields (l : bytes) : list bytes := (λ p, sub p.1 p.2 l) <$> unicode_spans l.
End command.

(** ** The buffer *)

Definition reader_ok (b : Reader) : Prop :=
  length (rd_buf b) = readerSize ∧ (rd_r b ≤ rd_w b ≤ readerSize)%nat ∧ Forall (λ p, p ≠ []) (rd_conn b).

Lemma NewReader_ok conn : Forall (λ p, p ≠ []) conn → reader_ok (NewReader conn).
Proof. intros Hc. split_and!; simpl; [apply length_replicate|lia|lia|done]. Qed.

Lemma length_sub o n l : (o + n ≤ length l)%nat → length (sub o n l) = n.
Proof. intros H. unfold sub. rewrite length_take length_drop. lia. Qed.

Lemma length_window b : reader_ok b → length (window b) = Buffered b.
Proof. intros (Hl & Hw & _). apply length_sub. unfold Buffered. lia. Qed.

Lemma length_buf_copy buf o data :
  (o + length data ≤ length buf)%nat → length (buf_copy buf o data) = length buf.
Proof. intros H. unfold buf_copy. rewrite !length_app length_take length_drop. lia. Qed.

(** A copy at the end of a known prefix extends it. *)
Lemma sub_buf_copy buf data1 data2 :
  sub 0 (length data1 + length data2) (buf_copy (buf_copy buf 0 data1) (length data1) data2) = data1 ++ data2.
Proof.
  unfold sub, buf_copy. rewrite drop_0 take_0 /= take_app_length app_assoc -length_app. by rewrite take_app_length.
Qed.

Lemma sub_buf_copy0 buf data : sub 0 (length data) (buf_copy buf 0 data) = data.
Proof. unfold sub, buf_copy. by rewrite drop_0 take_0 /= take_app_length. Qed.

Lemma take_of_sub o n (l : bytes) k : (k ≤ n)%nat → take k (sub o n l) = sub o k l.
Proof. intros H. unfold sub. rewrite take_take. f_equal. lia. Qed.

Lemma drop_of_sub o n (l : bytes) k : drop k (sub o n l) = sub (o + k) (n - k) l.
Proof. unfold sub. by rewrite skipn_firstn_comm drop_drop. Qed.

Lemma window_skip b n : window (skip n b) = drop n (window b).
Proof. unfold window, Buffered. rewrite drop_of_sub /=. f_equal. lia. Qed.

Lemma skip_ok b n : reader_ok b → (n ≤ Buffered b)%nat → reader_ok (skip n b).
Proof. intros (Hl & Hw & Hc) Hn. unfold Buffered in Hn. split_and!; simpl; [done|lia|lia|done]. Qed.

Lemma pending_skip b n :
  reader_ok b → (n ≤ Buffered b)%nat → pending (skip n b) = drop n (pending b).
Proof.
  intros Hb Hn. unfold pending. rewrite window_skip /= drop_app_le; [rewrite length_window //|]. done.
Qed.

Lemma conn_Read_spec n conn p conn' :
  conn_Read n conn = Some (p, conn') → (0 < n)%nat → Forall (λ p, p ≠ []) conn →
  p ≠ [] ∧ (length p ≤ n)%nat ∧ concat conn = p ++ concat conn' ∧ Forall (λ p, p ≠ []) conn'.
Proof.
  destruct conn as [|q conn]; simpl; [done|]. intros [= <- <-] Hn [Hq Hc]%Forall_cons.
  split_and!; [|rewrite length_take; lia|..].
  - destruct q, n; [done..|lia|done].
  - destruct (Nat.leb_spec (length q) n); [by rewrite take_ge|]. cbn [concat]. by rewrite app_assoc take_drop.
  - destruct (Nat.leb_spec (length q) n); [done|]. constructor; [|done].
    intros E. apply (f_equal length) in E. rewrite length_drop in E. simpl in E. lia.
Qed.

Lemma window_start buf w conn : window (mkReader buf 0 w conn) = sub 0 w buf.
Proof. unfold window, Buffered. simpl. by rewrite Nat.sub_0_r. Qed.

Lemma fill_spec b b' eof :
  fill b = (b', eof) → reader_ok b → (Buffered b < readerSize)%nat →
  reader_ok b' ∧ pending b' = pending b ∧
  if eof then window b' = window b ∧ rd_conn b = [] ∧ rd_conn b' = []
  else (length (concat (rd_conn b')) < length (concat (rd_conn b)))%nat.
Proof.
  intros E Hb Hn. pose proof (length_window b Hb) as Hw. pose proof Hb as (Hl & Hr & Hc). unfold fill in E.
  rewrite length_buf_copy in E; [rewrite Hw Hl; lia|]. rewrite Hl in E.
  destruct (conn_Read _ _) as [[p conn]|] eqn:Er; injection E as <- <-.
  - destruct (conn_Read_spec _ _ _ _ Er ltac:(lia) Hc) as (Hp & Hpl & Ec & Hc').
    assert (length (buf_copy (rd_buf b) 0 (window b)) = readerSize) as Hl1
      by (rewrite length_buf_copy; rewrite ?Hw ?Hl; lia).
    split_and!.
    + split_and!; simpl; [rewrite length_buf_copy ?Hl1 //; lia|lia|lia|done].
    + unfold pending at 1. rewrite window_start -Hw sub_buf_copy /= -app_assoc -Ec. done.
    + simpl. rewrite Ec length_app. destruct p; [done|simpl; lia].
  - destruct (rd_conn b) as [|q conn] eqn:Ecn; [|done].
    assert (window (mkReader (buf_copy (rd_buf b) 0 (window b)) 0 (Buffered b) []) = window b) as Ew.
    { rewrite window_start -Hw. apply sub_buf_copy0. }
    split_and!; [..|done|done|done].
    + split_and!; simpl; [rewrite length_buf_copy; rewrite ?Hw ?Hl; lia|lia|lia|done].
    + unfold pending. by rewrite Ew Ecn.
Qed.

(** ** Lines *)

Lemma split_line_mono s t l r : split_line s = Some (l, r) → split_line (s ++ t) = Some (l, r ++ t).
Proof.
  revert l r. induction s as [|c s IH]; intros l r; simpl; [done|]. case_decide; [by intros [= <- <-]|].
  destruct (split_line s) as [[l' r']|]; [|done]. intros [= <- <-]. by rewrite (IH l' r').
Qed.

Lemma split_line_length s l r : split_line s = Some (l, r) → s = l ++ LF :: r.
Proof.
  revert l r. induction s as [|c s IH]; intros l r; simpl; [done|].
  case_decide as Hc; [intros [= <- <-]; by rewrite Hc|].
  destruct (split_line s) as [[l' r']|]; [|done]. intros [= <- <-]. by rewrite (IH l' r').
Qed.

(** The window is what [ReadSlice] sees of the stream. *)
Lemma take_pending b : reader_ok b →
  ∃ rest, take readerSize (pending b) = window b ++ rest ∧
    (rd_conn b = [] ∨ Buffered b = readerSize → rest = []).
Proof.
  intros Hb. pose proof (length_window b Hb) as Hw. destruct Hb as (Hl & Hr & Hc). unfold pending.
  assert (Buffered b ≤ readerSize)%nat as Hle by (unfold Buffered; lia).
  exists (take (readerSize - Buffered b) (concat (rd_conn b))). split.
  - rewrite take_app Hw take_ge; [rewrite Hw; lia|done].
  - intros [->| ->]; [apply take_nil|]. by rewrite Nat.sub_diag.
Qed.

(** What [ReadSlice] returns, by what the stream holds. *)
Definition slice_result (s : bytes) (o n : nat) (how : ending) (b' : Reader) : Prop :=
  match how with
  | Delimiter => ∃ l r, split_line (take readerSize s) = Some (l, r) ∧ n = S (length l) ∧
      sub o (length l) (rd_buf b') = l ∧ pending b' = drop n s
  | BufferFull => split_line (take readerSize s) = None ∧ (readerSize ≤ length s)%nat ∧
      n = readerSize ∧ sub o n (rd_buf b') = take readerSize s ∧ pending b' = drop n s ∧
      o = 0%nat ∧ rd_r b' = readerSize ∧ rd_w b' = readerSize
  | AtEnd => split_line (take readerSize s) = None ∧ (length s < readerSize)%nat ∧
      n = length s ∧ sub o n (rd_buf b') = s ∧ pending b' = []
  end.

Lemma slice_delimiter b l r : reader_ok b → split_line (window b) = Some (l, r) →
  reader_ok (skip (S (length l)) b) ∧
  slice_result (pending b) (rd_r b) (S (length l)) Delimiter (skip (S (length l)) b).
Proof.
  intros Hb Es. pose proof (length_window b Hb) as Hw. pose proof (split_line_length _ _ _ Es) as El.
  assert (S (length l) ≤ Buffered b)%nat as Hn by (rewrite -Hw El length_app /=; lia).
  split; [by apply skip_ok|]. destruct (take_pending b Hb) as (rest & Et & _).
  exists l, (r ++ rest). split_and!; [rewrite Et; by apply split_line_mono|done| |by apply pending_skip].
  etrans; [symmetry; apply (take_of_sub _ (Buffered b)); lia|].
  change (take (length l) (window b) = l). by rewrite El take_app_length.
Qed.

Lemma slice_full b : reader_ok b → split_line (window b) = None → (readerSize ≤ Buffered b)%nat →
  reader_ok (skip (Buffered b) b) ∧
  slice_result (pending b) 0 readerSize BufferFull (skip (Buffered b) b).
Proof.
  intros Hb Es Hfull. pose proof (length_window b Hb) as Hw. pose proof Hb as (Hl & Hr & Hc).
  assert (rd_r b = 0%nat ∧ rd_w b = readerSize) as [E0 E1] by (unfold Buffered in Hfull; lia).
  assert (Buffered b = readerSize) as EB by (unfold Buffered; lia).
  destruct (take_pending b Hb) as (rest & Et & Hrest). rewrite (Hrest (or_intror EB)) app_nil_r in Et.
  split; [by apply skip_ok|]. split_and!; [by rewrite Et|unfold pending; rewrite length_app; lia|done|..|done| |done].
  - rewrite Et. unfold window. by rewrite E0 EB.
  - rewrite pending_skip //. by rewrite EB.
  - simpl. lia.
Qed.

Lemma slice_end b b1 : reader_ok b → split_line (window b) = None → (Buffered b < readerSize)%nat →
  fill b = (b1, true) →
  reader_ok (skip (Buffered b1) b1) ∧
  slice_result (pending b) (rd_r b1) (Buffered b1) AtEnd (skip (Buffered b1) b1).
Proof.
  intros Hb Es Hspace Ef. destruct (fill_spec _ _ _ Ef Hb Hspace) as (Hb1 & Ep & Ew & Ec & Ec1).
  pose proof (length_window b1 Hb1) as Hw1. pose proof (length_window b Hb) as Hw.
  assert (pending b = window b) as Epw by (unfold pending; by rewrite Ec app_nil_r).
  destruct (take_pending b Hb) as (rest & Et & Hrest). rewrite (Hrest (or_introl Ec)) app_nil_r in Et.
  split; [by apply skip_ok|]. split_and!; [by rewrite Et|rewrite Epw; lia|rewrite Epw -Ew; lia|by rewrite Epw -Ew|].
  rewrite pending_skip // Ep Epw drop_ge //. rewrite -Ew. lia.
Qed.

Lemma slice_loop_spec fuel : ∀ b o n how b',
  reader_ok b → (length (concat (rd_conn b)) ≤ fuel)%nat →
  slice_loop fuel b = (o, n, how, b') → reader_ok b' ∧ slice_result (pending b) o n how b'.
Proof.
  induction fuel as [|fuel IH]; intros b o n how b' Hb Hf; cbn [slice_loop];
    (destruct (split_line (window b)) as [[l r]|] eqn:Es; [intros [= <- <- <- <-]; by eapply slice_delimiter|]);
    rewrite (proj1 Hb);
    (destruct (Nat.leb_spec readerSize (Buffered b)) as [Hfull|Hspace];
      [intros [= <- <- <- <-]; by apply slice_full|]);
    destruct (fill b) as [b1 []] eqn:Ef; try (intros [= <- <- <- <-]; by apply slice_end);
    destruct (fill_spec _ _ _ Ef Hb Hspace) as (Hb1 & Ep & Hm); [lia|].
  intros E. rewrite -Ep. eapply IH; [done| |done]. lia.
Qed.

(** ** Refinement

    A call on the buffer and a read of the stream that agree: the same error, or
    values that agree in the memory after the call, and the same bytes left. *)
Definition agree {A B} (v : Reader → A → B) (x : RespError * Reader + A * Reader) (y : RespError + B * bytes) : Prop :=
  match x, y with
  | inl (e, _), inl e' => e = e'
  | inr (a, b'), inr (w, s') => reader_ok b' ∧ w = v b' a ∧ s' = pending b'
  | _, _ => False
  end.

Lemma agree_bind {A B C D} (v : Reader → A → B) (v' : Reader → C → D) (m : breader A) (f : reader B) k g b s :
  agree v (m b) (f s) → (∀ a b', reader_ok b' → agree v' (k a b') (g (v b' a) (pending b'))) →
  agree v' ((m ≫= k) b) ((f ≫= g) s).
Proof.
  intros H Hk. unfold mbind, breader_bind, reader_bind.
  destruct (m b) as [[e b0]|[a b']], (f s) as [e'|[w s']]; simpl in H; try done.
  destruct H as (Hb' & -> & ->). by apply Hk.
Qed.

(** Looking at a slice is not a step of the stream. *)
Lemma agree_load {C D} (v' : Reader → C → D) s (k : bytes → breader C) (y : RespError + D * bytes) b :
  agree v' (k (contents b s) b) y → agree v' ((load s ≫= k) b) y.
Proof. done. Qed.

Lemma drop_cr_other l : last l ≠ Some CR → drop_cr l = l.
Proof. unfold drop_cr. destruct (last l); [|done]. intros H. rewrite decide_False; [|done]. congruence. Qed.

Lemma ReadLine_agree b : reader_ok b →
  agree (λ b' r, (contents b' r.1, r.2)) (ReadLine b) (Resp.ReadLine (pending b)).
Proof.
  intros Hb. unfold ReadLine, ReadSlice. destruct (slice_loop _ b) as [[[o n] how] b'] eqn:E.
  apply slice_loop_spec in E as [Hb' Hs]; [|done|done].
  unfold Resp.ReadLine, buffered_line. destruct how; simpl in Hs.
  - destruct Hs as (l & r & -> & -> & El & Ep). replace (S (length l) - 1)%nat with (length l) by lia.
    rewrite El. split_and!; [done| |done]. simpl. f_equal.
    destruct (drop_cr_cases l) as [Ed|(l' & El' & Ed)]; rewrite Ed; [done|].
    rewrite -(take_of_sub _ (length l)); [rewrite El' length_app; lia|]. by rewrite El El' take_app_length.
  - destruct Hs as (-> & Hlen & -> & El & Ep). rewrite (proj2 (Z.ltb_lt _ _)); [lia|].
    destruct (pending b) as [|c s] eqn:Es; [by destruct (decide _) as [_|[]]|].
    destruct (decide _) as [?|_]; [done|]. split_and!; [done|by rewrite /= El|done].
  - destruct Hs as (-> & Hlen & -> & El & Ep & -> & Er & Ew). rewrite (proj2 (Z.ltb_ge _ _)); [lia|].
    assert (pending b' = drop readerSize (pending b)) as Ep' by done.
    destruct (decide _) as [Hcr|Hcr]; rewrite El in Hcr.
    + apply last_Some in Hcr as [l Hl]. rewrite Hl drop_cr_snoc.
      assert (readerSize = S (length l)) as Hsz.
      { pose proof (f_equal length Hl) as Hl'. rewrite length_take length_app /= in Hl'. lia. }
      pose proof readerSize_2. pose proof Hb' as (Hbl & Hbr & Hbc).
      split_and!; [split_and!; simpl; [done|lia|lia|done]| |].
      * simpl. f_equal. rewrite -(take_of_sub _ readerSize); [lia|]. rewrite El Hl.
        replace (readerSize - 1)%nat with (length l) by lia. by rewrite take_app_length.
      * rewrite -{1}(take_drop readerSize (pending b)) Hl -app_assoc drop_app_length -Ep'.
        unfold pending, window, Buffered. rewrite /= Er Ew Nat.sub_diag /=.
        replace (readerSize - (readerSize - 1))%nat with 1%nat by lia.
        pose proof (drop_of_sub 0 readerSize (rd_buf b') (length l)) as Ed. rewrite El Hl drop_app_length in Ed.
        rewrite (_ : sub (readerSize - 1) 1 (rd_buf b') = [CR]) //. rewrite Ed. f_equal; lia.
    + rewrite drop_cr_other //. split_and!; [done|by rewrite /= El|].
      rewrite length_take. by replace (readerSize `min` length (pending b))%nat with readerSize by lia.
Qed.

Lemma read_chunks_agree fuel : ∀ acc isPrefix b, reader_ok b →
  agree (λ _, id) (read_chunks fuel acc isPrefix b) (Resp.read_chunks fuel acc isPrefix (pending b)).
Proof.
  induction fuel as [|fuel IH]; intros acc [] b Hb; [done..| |done]. cbn [read_chunks Resp.read_chunks].
  eapply agree_bind; [by apply ReadLine_agree|]. intros r b' Hb'. apply agree_load, IH, Hb'.
Qed.

Lemma readLine_agree b : reader_ok b → agree contents (readLine b) (Resp.readLine (pending b)).
Proof.
  intros Hb. unfold readLine, Resp.readLine. generalize (length (pending b)). intros fuel.
  eapply agree_bind; [by apply ReadLine_agree|]. intros [s []] b' Hb'; cbn [fst snd].
  - apply agree_load. pose proof (read_chunks_agree fuel (contents b' s) true b' Hb') as H.
    unfold mbind, breader_bind, mret, breader_ret.
    destruct (read_chunks _ _ _ b') as [[e b2]|[l b2]], (Resp.read_chunks _ _ _ _) as [e'|[l' s']]; done.
  - by destruct fuel.
Qed.

(** ** Bulk strings *)

(** Copying out of a window that is not empty. *)
Lemma copy_out n b1 : reader_ok b1 → (0 < n)%nat → (0 < Buffered b1)%nat →
  let b' := skip (Nat.min n (Buffered b1)) b1 in
  reader_ok b' ∧ take n (window b1) ≠ [] ∧ (length (take n (window b1)) ≤ n)%nat ∧
  pending b1 = take n (window b1) ++ pending b'.
Proof.
  intros Hb1 Hn Hpos b'. pose proof (length_window b1 Hb1) as Hw1. split_and!.
  - apply skip_ok; [done|lia].
  - intros E. apply (f_equal length) in E. rewrite length_take /= in E. lia.
  - rewrite length_take. lia.
  - unfold b'. rewrite pending_skip //; [lia|]. rewrite -{1}(take_drop (Nat.min n (Buffered b1)) (pending b1)).
    f_equal. unfold pending. rewrite take_app_le; [lia|]. rewrite -take_take (take_ge (window b1)) //. lia.
Qed.

Lemma buf_Read_spec n b : reader_ok b → (0 < n)%nat →
  match buf_Read n b with
  | inl (e, _) => e = EOF ∧ pending b = []
  | inr (p, b') => reader_ok b' ∧ p ≠ [] ∧ (length p ≤ n)%nat ∧ pending b = p ++ pending b'
  end.
Proof.
  intros Hb Hn. pose proof (length_window b Hb) as Hw. pose proof Hb as (Hl & Hr & Hc). unfold buf_Read.
  destruct (decide (rd_r b = rd_w b)) as [Heq|Hne].
  - assert (Buffered b = 0%nat) as EB by (unfold Buffered; lia).
    assert (pending b = concat (rd_conn b)) as Ep.
    { unfold pending. rewrite (nil_length_inv (window b)) //. lia. }
    rewrite Hl. destruct (Nat.leb_spec readerSize n) as [Hbig|Hsmall].
    + destruct (conn_Read n (rd_conn b)) as [[p conn]|] eqn:Er.
      * destruct (conn_Read_spec _ _ _ _ Er Hn Hc) as (Hp & Hpl & Ec & Hc').
        assert (reader_ok (mkReader (rd_buf b) (rd_r b) (rd_w b) conn)) by (split; [done|split; done]).
        split; [done|]. split_and!; [done|done|].
        rewrite Ep Ec. f_equal. unfold pending. simpl. rewrite (nil_length_inv (window _)) //.
        change (length (window b) = 0%nat). lia.
      * split; [done|]. rewrite Ep. by destruct (rd_conn b).
    + pose proof readerSize_2. destruct (conn_Read readerSize (rd_conn b)) as [[p conn]|] eqn:Er.
      * destruct (conn_Read_spec _ _ _ _ Er ltac:(lia) Hc) as (Hp & Hpl & Ec & Hc').
        set (b1 := mkReader (buf_copy (rd_buf b) 0 p) 0 (length p) conn).
        assert (Buffered b1 = length p) as EB1 by (unfold Buffered, b1; simpl; lia). rewrite -EB1.
        replace (pending b) with (pending b1)
          by (unfold pending at 1, b1; by rewrite window_start sub_buf_copy0 Ep Ec).
        apply copy_out; [|done|rewrite EB1; destruct p; [done|simpl; lia]].
        split_and!; simpl; [rewrite length_buf_copy; rewrite ?Hl; lia|lia|lia|done].
      * split; [done|]. rewrite Ep. by destruct (rd_conn b).
  - apply copy_out; [done|done|]. unfold Buffered. lia.
Qed.

Lemma full_loop_agree fuel : ∀ n got b, reader_ok b → (length (pending b) < fuel)%nat →
  agree (λ _, id) (full_loop fuel n got b)
    (if (length (pending b) <? n)%nat then inl EOF else inr (got ++ take n (pending b), drop n (pending b))).
Proof.
  induction fuel as [|fuel IH]; intros n got b Hb Hf; [lia|]. cbn [full_loop].
  destruct (decide (n = 0%nat)) as [->|Hn].
  { rewrite take_0 drop_0 app_nil_r (proj2 (Nat.ltb_ge _ _)); [lia|]. by split_and!. }
  pose proof (buf_Read_spec n b Hb ltac:(lia)) as Hr. unfold mbind, breader_bind.
  destruct (buf_Read n b) as [[e b']|[p b']].
  - destruct Hr as [-> ->]. rewrite (proj2 (Nat.ltb_lt _ _)); [simpl; lia|done].
  - destruct Hr as (Hb' & Hp & Hlen & Ep). assert (0 < length p)%nat by (destruct p; [done|simpl; lia]).
    rewrite Ep length_app in Hf. specialize (IH (n - length p)%nat (got ++ p) b' Hb' ltac:(lia)).
    rewrite Ep length_app take_app take_ge // drop_app drop_ge // app_assoc.
    destruct (Nat.ltb_spec (length (pending b')) (n - length p)) as [Hlt|Hge].
    + rewrite (proj2 (Nat.ltb_lt _ _)); [lia|done].
    + rewrite (proj2 (Nat.ltb_ge _ _)); [lia|done].
Qed.

Lemma ReadFull_agree n b : 0 ≤ n → reader_ok b → agree (λ _, id) (ReadFull n b) (Resp.ReadFull n (pending b)).
Proof.
  intros Hn Hb. unfold ReadFull, Resp.ReadFull.
  pose proof (full_loop_agree (S (length (pending b))) (Z.to_nat n) [] b Hb ltac:(lia)) as H.
  destruct (Z.ltb_spec (Z.of_nat (length (pending b))) n) as [Hlt|Hge].
  - rewrite (proj2 (Nat.ltb_lt _ _)) in H; [lia|done].
  - rewrite (proj2 (Nat.ltb_ge _ _)) in H; [lia|done].
Qed.

Lemma read_arg_agree b : reader_ok b → agree (λ _, id) (read_arg b) (Resp.read_arg (pending b)).
Proof.
  intros Hb. unfold read_arg, Resp.read_arg. eapply agree_bind; [by apply readLine_agree|].
  intros s b1 Hb1. apply agree_load. destruct (contents b1 s) as [|c digits]; [done|].
  destruct (decide (c ≠ _)); [done|]. destruct (parseIntBytes digits) as [e|bulkLen]; [done|].
  destruct (maxBulkLength <? bulkLen); [done|]. destruct (Z.ltb_spec bulkLen 0) as [?|Hnn]; [done|].
  eapply agree_bind; [apply ReadFull_agree; [lia|done]|]. by intros buf b2 Hb2.
Qed.

Lemma read_args_agree n : ∀ b, reader_ok b → agree (λ _, id) (read_args n b) (Resp.read_args n (pending b)).
Proof.
  induction n as [|n IH]; intros b Hb; [done|]. cbn [read_args Resp.read_args].
  eapply agree_bind; [by apply read_arg_agree|]. intros a b1 Hb1.
  eapply agree_bind; [by apply IH|]. by intros args b2 Hb2.
Qed.

(** ** Fields *)

Lemma sub_tail (pre l : bytes) n :
  (n ≤ length pre)%nat → sub (length pre - n) n (pre ++ l) = drop (length pre - n) pre.
Proof.
  intros Hn. unfold sub. rewrite drop_app_le; [lia|]. rewrite take_app_le; [rewrite length_drop; lia|].
  rewrite take_ge //. rewrite length_drop. lia.
Qed.

(** The open field is read backwards by [fields_go], and is empty when [n] is 0. *)
Lemma open_field (pre : bytes) n : (n ≤ length pre)%nat →
  (n = 0%nat → drop (length pre - n) pre = []) ∧
  (n ≠ 0%nat → ∃ c acc, reverse (drop (length pre - n) pre) = c :: acc).
Proof.
  intros Hn. split; [intros ->; apply drop_ge; lia|]. intros Hn0.
  destruct (reverse (drop (length pre - n) pre)) as [|c acc] eqn:E; [|by eauto].
  apply (f_equal length) in E. rewrite length_reverse length_drop /= in E. lia.
Qed.

(** [spans_go] finds the fields of [fields_go]: [pre] is what was read, and its
    last [n] bytes are the open field. *)
Lemma spans_fields l : ∀ pre n, (n ≤ length pre)%nat →
  (λ p, sub p.1 p.2 (pre ++ l)) <$> spans_go l (length pre) n =
  fields_go l (reverse (drop (length pre - n) pre)).
Proof.
  induction l as [|c l IH]; intros pre n Hn; destruct (open_field pre n Hn) as [H0 H1];
    cbn [spans_go fields_go].
  - destruct (decide (n = 0%nat)) as [E0|Hn0]; [by rewrite H0|].
    destruct (H1 Hn0) as (c & acc & E). rewrite E -E reverse_involutive fmap_cons /=. by rewrite sub_tail.
  - assert (∀ k, (k ≤ S (length pre))%nat →
      (λ p, sub p.1 p.2 (pre ++ c :: l)) <$> spans_go l (S (length pre)) k =
      fields_go l (reverse (drop (S (length pre) - k) (pre ++ [c])))) as IHc.
    { intros k Hk. specialize (IH (pre ++ [c]) k). rewrite length_app -app_assoc /= Nat.add_1_r in IH. by apply IH. }
    destruct (is_space c).
    + specialize (IHc 0%nat ltac:(lia)). rewrite (drop_ge (pre ++ [c])) in IHc; [rewrite length_app /=; lia|].
      destruct (decide (n = 0%nat)) as [E0|Hn0]; [by rewrite H0|].
      destruct (H1 Hn0) as (c' & acc & E). rewrite E -E reverse_involutive fmap_cons /= IHc. by rewrite sub_tail.
    + rewrite IHc; [lia|]. f_equal. replace (S (length pre) - S n)%nat with (length pre - n)%nat by lia.
      rewrite drop_app_le; [lia|]. by rewrite reverse_app.
Qed.

Lemma field_spans_fields us l :
  (λ p, sub p.1 p.2 l) <$> field_spans us l = Fields (unicode_fields us) l.
Proof. unfold field_spans, Fields. destruct (is_ascii l); [|done]. apply (spans_fields l [] 0). simpl. lia. Qed.

(** A field of a slice has the bytes of the field. *)
Lemma contents_subslice b s p : (p.1 + p.2 ≤ length (contents b s))%nat →
  contents b (subslice s p) = sub p.1 p.2 (contents b s).
Proof.
  destruct s as [o n|data]; simpl; [|done]. intros Hp. unfold sub. rewrite length_take in Hp.
  rewrite skipn_firstn_comm take_take drop_drop. f_equal. lia.
Qed.

(** The fields of a text lie inside it. *)
Definition spans_inside (spans : bytes → list (nat * nat)) : Prop :=
  ∀ l, Forall (λ p, p.1 + p.2 ≤ length l)%nat (spans l).

Lemma spans_go_inside l : ∀ pos n, (n ≤ pos)%nat →
  Forall (λ p, p.1 + p.2 ≤ pos + length l)%nat (spans_go l pos n).
Proof.
  induction l as [|c l IH]; intros pos n Hn; cbn [spans_go length].
  - destruct (decide _); repeat constructor. simpl. lia.
  - rewrite -Nat.add_succ_comm. destruct (is_space c); [|apply IH; lia].
    destruct (decide _); [apply IH; lia|]. constructor; [simpl; lia|]. apply IH. lia.
Qed.

Section refinement.
Context (unicode_ToUpper : bytes → bytes) (unicode_spans : bytes → list (nat * nat)).
Context (Hspans : spans_inside unicode_spans).

Lemma field_spans_inside : spans_inside (field_spans unicode_spans).
Proof. intros l. unfold field_spans. destruct (is_ascii l); [by apply (spans_go_inside l 0 0)|apply Hspans]. Qed.

(** The subslices of a line hold its fields. *)
Lemma fields_contents b s :
  contents b <$> (subslice s <$> field_spans unicode_spans (contents b s)) =
  Fields (unicode_fields unicode_spans) (contents b s).
Proof.
  rewrite -field_spans_fields -list_fmap_compose. apply list_fmap_ext. intros i p Hp. simpl.
  apply contents_subslice. pose proof (field_spans_inside (contents b s)) as H. rewrite Forall_lookup in H. by eapply H.
Qed.

Lemma ReadCommand_agree b : reader_ok b →
  agree view_command (ReadCommand unicode_ToUpper unicode_spans b)
    (Resp.ReadCommand unicode_ToUpper (unicode_fields unicode_spans) (pending b)).
Proof.
  intros Hb. unfold ReadCommand, Resp.ReadCommand. eapply agree_bind; [by apply readLine_agree|].
  intros s b1 Hb1. apply agree_load. pose proof (fields_contents b1 s) as Hf.
  destruct (contents b1 s) as [|c digits]; [done|]. destruct (decide (c ≠ _)).
  - destruct (subslice s <$> _) as [|name args]; rewrite -Hf; [done|]. apply agree_load.
    split_and!; [done| |done]. unfold view_command. simpl. f_equal. by rewrite -!list_fmap_compose.
  - destruct (parseUintBytes digits) as [e|count]; [done|].
    destruct (count <=? 0); [done|]. destruct (maxCommandArgs <? count); [done|].
    eapply agree_bind; [by apply read_args_agree|]. intros [|name args] b2 Hb2; [done|].
    split_and!; [done| |done]. unfold view_command. simpl. f_equal.
    rewrite -list_fmap_compose -{1}(list_fmap_id args). apply list_fmap_ext. by intros i [a|] Ha.
Qed.
End refinement.

(** C28: reading a command through the 64 KiB
    buffer, however the network divides the bytes into packets, is reading it from
    the stream of bytes: the same error, or the same command (as the memory holds
    it when the call returns) with the same bytes left to read. *)
Theorem buffered_reader_refines ut us b (Hus : spans_inside us) (Hb : reader_ok b) :
  match ReadCommand ut us b with
  | inl (e, _) => Resp.ReadCommand ut (unicode_fields us) (pending b) = inl e
  | inr (c, b') => reader_ok b' ∧
      Resp.ReadCommand ut (unicode_fields us) (pending b) = inr (view_command b' c, pending b')
  end.
Proof.
  pose proof (ReadCommand_agree ut us Hus b Hb) as H. unfold agree in H.
  destruct (ReadCommand ut us b) as [[e b']|[c b']], (Resp.ReadCommand _ _ _) as [e'|[c' s']]; try done.
  - by rewrite H.
  - by destruct H as (Hb' & -> & ->).
Qed.

(** A command whose first byte is a star has arguments of its own. *)
Lemma array_args_own ut us b c b' : reader_ok b → head (pending b) = Some "*"%byte →
  ReadCommand ut us b = inr (c, b') → ∃ args : list byte_slice, sc_Args c = fmap (M := option) Own <$> args.
Proof.
  intros Hb Hh E. pose proof (readLine_agree b Hb) as Ha. unfold ReadCommand, mbind, breader_bind in E.
  destruct (readLine b) as [e|[s b1]]; [done|].
  destruct (Resp.readLine (pending b)) as [e|[l r]] eqn:El; [done|]. destruct Ha as (Hb1 & -> & ->).
  unfold load in E. destruct (contents b1 s) as [|c0 digits] eqn:Ec; [done|].
  pose proof (readLine_head _ _ _ El c0 digits eq_refl) as Hc. rewrite Hh in Hc. injection Hc as <-.
  destruct (decide _) as [[]|_]; [done|]. destruct (parseUintBytes digits) as [e|count]; [done|].
  destruct (count <=? 0); [done|]. destruct (maxCommandArgs <? count); [done|].
  destruct (read_args _ b1) as [e|[[|name args] b2]]; [done|done|]. injection E as <- <-. by exists args.
Qed.

(** The arguments of a command in array form,
    which is what client libraries send, do not depend on the reader's buffer:
    whatever is read later, they keep the bytes they had when the command was
    read. *)
Theorem array_args_stable ut us b c b' (Hb : reader_ok b) (Hstar : head (pending b) = Some "*"%byte)
  (Hr : ReadCommand ut us b = inr (c, b')) later : view_command later c = view_command b' c.
Proof.
  destruct (array_args_own _ _ _ _ _ Hb Hstar Hr) as [args E]. unfold view_command. rewrite E. f_equal.
  rewrite -!list_fmap_compose. apply list_fmap_ext. by intros i [a|] _.
Qed.

(** ** Inline commands *)

Lemma slice_loop_line fuel b l r : split_line (window b) = Some (l, r) →
  slice_loop fuel b = (rd_r b, S (length l), Delimiter, skip (S (length l)) b).
Proof. intros E. destruct fuel; cbn [slice_loop]; by rewrite E. Qed.

(** A packet that arrives when everything before it was read, and its first line. *)
Lemma ReadSlice_packet b p rest l r :
  rd_r b = rd_w b → rd_conn b = p :: rest → split_line p = Some (l, r) → (length p ≤ length (rd_buf b))%nat →
  ∃ buf, ReadSlice b = (0%nat, S (length l), Delimiter, skip (S (length l)) (mkReader buf 0 (length p) rest)) ∧
    sub 0 (length p) buf = p ∧ length buf = length (rd_buf b).
Proof.
  intros Hrw Hc Hs Hlen. pose proof (split_line_length _ _ _ Hs) as Ep.
  assert (Buffered b = 0%nat) as EB by (unfold Buffered; lia).
  assert (window b = []) as Ew by (unfold window, sub; rewrite EB; apply take_0).
  assert (length p = S (length l + length r)) as Hpl by (rewrite Ep length_app /=; lia).
  set (buf := buf_copy (buf_copy (rd_buf b) 0 []) 0 p).
  assert (length (buf_copy (rd_buf b) 0 []) = length (rd_buf b)) as Hcl by (rewrite length_buf_copy /=; lia).
  assert (sub 0 (length p) buf = p) as Hbuf by apply sub_buf_copy0.
  exists buf. split_and!; [|done|unfold buf; rewrite length_buf_copy; lia].
  unfold ReadSlice. rewrite Hc. cbn [concat]. rewrite length_app Hpl. cbn [Nat.add slice_loop].
  rewrite Ew EB (proj2 (Nat.leb_gt _ _)) /=; [lia|]. unfold fill. rewrite Ew EB Hcl Hc. cbn [conn_Read].
  rewrite take_ge; [lia|]. rewrite (proj2 (Nat.leb_le _ _)); [lia|]. fold buf. rewrite Nat.add_0_l -Hpl.
  by rewrite (slice_loop_line _ _ l r); [rewrite window_start Hbuf|].
Qed.

(** A line that arrives as one packet when everything before it was read. *)
Lemma readLine_packet b l rest :
  reader_ok b → rd_r b = rd_w b → rd_conn b = (l ++ CRLF) :: rest → LF ∉ l → (length l + 2 ≤ readerSize)%nat →
  ∃ buf, readLine b = inr (InBuf 0 (length l), mkReader buf (length l + 2) (length l + 2) rest) ∧
    sub 0 (length l) buf = l ∧ length buf = readerSize.
Proof.
  intros Hb Hrw Hc Hl Hlen. assert (length (l ++ CRLF) = length l + 2)%nat as Hp by (by rewrite length_app).
  assert (l ++ CRLF = (l ++ [CR]) ++ [LF]) as Ep by (by rewrite -app_assoc).
  destruct (ReadSlice_packet b (l ++ CRLF) rest (l ++ [CR]) []) as (buf & E & Hbuf & Hbl); [done|done| |rewrite (proj1 Hb); lia|].
  { rewrite Ep. apply split_line_app. rewrite not_elem_of_app list_elem_of_singleton. split; [done|by intros [=]]. }
  rewrite Hp in Hbuf, E. rewrite length_app /= in E.
  exists buf. split_and!; [| |by rewrite Hbl (proj1 Hb)].
  - unfold readLine, ReadLine, mbind, breader_bind. rewrite E. cbn -[sub drop_cr]. rewrite Nat.sub_0_r.
    rewrite (_ : sub 0 (length l + 1) buf = l ++ [CR]).
    { rewrite -(take_of_sub _ (length l + 2)); [lia|]. rewrite Hbuf Ep. apply take_app_length'. by rewrite length_app. }
    rewrite drop_cr_snoc. unfold skip, mret, breader_ret. cbn [rd_buf rd_r rd_w rd_conn].
    by replace (0 + S (length l + 1))%nat with (length l + 2)%nat by lia.
  - rewrite -(take_of_sub _ (length l + 2)); [lia|]. by rewrite Hbuf take_app_length.
Qed.

(** An inline command: a line of the form the first branch of [ReadCommand] takes. *)
Definition inline (us : bytes → list (nat * nat)) (l : bytes) : Prop :=
  LF ∉ l ∧ (length l + 2 ≤ readerSize)%nat ∧ head l ≠ Some "*"%byte ∧ field_spans us l ≠ [].

(** Its arguments are the parts of the buffer where its fields lie. *)
Lemma ReadCommand_packet ut us b l rest :
  spans_inside us → reader_ok b → rd_r b = rd_w b → rd_conn b = (l ++ CRLF) :: rest → inline us l →
  ∃ name b', ReadCommand ut us b = inr (mkSliceCommand name (Some ∘ subslice (InBuf 0 (length l)) <$> tail (field_spans us l)), b') ∧
    rd_r b' = rd_w b' ∧ rd_conn b' = rest ∧ sub 0 (length l) (rd_buf b') = l.
Proof.
  intros Hus Hb Hrw Hc (Hl & Hlen & Hstar & Hne).
  destruct (readLine_packet b l rest Hb Hrw Hc Hl Hlen) as (buf & E & Hbuf & _).
  unfold ReadCommand, mbind, breader_bind, load. rewrite E. cbn [contents rd_buf]. rewrite Hbuf.
  destruct (field_spans us l) as [|p ps] eqn:Ef; [done|]. destruct l as [|c digits].
  { unfold field_spans in Ef. simpl in Ef. done. }
  destruct (decide _) as [_|Hc0]; [|destruct Hc0; intros ->; done].
  rewrite fmap_cons. do 2 eexists. split; [unfold mret, breader_ret; by rewrite -list_fmap_compose|].
  by cbn [rd_r rd_w rd_conn rd_buf].
Qed.

(** C40: the arguments of an inline command are parts of the reader's buffer.  When two
    inline commands arrive one after the other, each in a packet of its own on a drained
    buffer, with fields at the same places, then after the second was read the arguments
    of the first, which a queued message may hold as its payload, have the bytes of the
    second. *)
Theorem inline_args_overwritten ut us b l1 l2 rest (Hus : spans_inside us) (Hb : reader_ok b)
  (Hdrained : rd_r b = rd_w b) (Hconn : rd_conn b = (l1 ++ CRLF) :: (l2 ++ CRLF) :: rest)
  (H1 : inline us l1) (H2 : inline us l2) (Hplaces : field_spans us l1 = field_spans us l2) :
  ∃ c1 b1 c2 b2, ReadCommand ut us b = inr (c1, b1) ∧ ReadCommand ut us b1 = inr (c2, b2) ∧
    cmd_Args (view_command b1 c1) = Some <$> tail (Fields (unicode_fields us) l1) ∧
    cmd_Args (view_command b2 c1) = Some <$> tail (Fields (unicode_fields us) l2).
Proof.
  destruct (ReadCommand_packet ut us b l1 _ Hus Hb Hdrained Hconn H1) as (n1 & b1 & E1 & Hd1 & Hc1 & Hbuf1).
  pose proof (ReadCommand_agree ut us Hus b Hb) as Ha. rewrite E1 in Ha.
  assert (reader_ok b1) as Hb1 by (destruct (Resp.ReadCommand _ _ _) as [?|[? ?]]; by destruct Ha).
  destruct (ReadCommand_packet ut us b1 l2 _ Hus Hb1 Hd1 Hc1 H2) as (n2 & b2 & E2 & Hd2 & Hc2 & Hbuf2).
  assert (∀ b l, sub 0 (length l) (rd_buf b) = l →
    fmap (M := option) (contents b) <$> (Some ∘ subslice (InBuf 0 (length l1)) <$> tail (field_spans us l)) =
    Some <$> tail (Fields (unicode_fields us) l)) as Hview.
  { intros b0 l Hl. pose proof (fields_contents us Hus b0 (InBuf 0 (length l))) as Hf. cbn [contents] in Hf.
    rewrite Hl in Hf. rewrite -Hf. destruct (field_spans us l) as [|p ps]; [done|].
    cbn [tail fmap list_fmap]. by rewrite -!list_fmap_compose. }
  do 4 eexists. split_and!; [exact E1|exact E2|by apply Hview|]. unfold view_command. cbn [cmd_Args sc_Args].
  rewrite Hplaces. by apply Hview.
Qed.

(** ** Examples *)

Definition demo_packets : list bytes := [str "LPUSH jobs hello" ++ CRLF; str "LPUSH jobs world" ++ CRLF].

Definition demo_upper : bytes → bytes := id.

Definition demo_spans : bytes → list (nat * nat) := λ _, [].

Lemma demo_spans_inside : spans_inside demo_spans.
Proof. intros l. constructor. Qed.

Lemma demo_fits : (16 + 2 ≤ readerSize)%nat.
Proof. with_strategy transparent [readerSize] (unfold readerSize; lia). Qed.

Lemma buffered_reader_refines_witness :
  match ReadCommand demo_upper demo_spans (NewReader [str "LPUSH jo"; str "bs hello" ++ [CR]; [LF]]) with
  | inl (e, _) => Resp.ReadCommand demo_upper (unicode_fields demo_spans) (str "LPUSH jobs hello" ++ CRLF) = inl e
  | inr (c, b') => reader_ok b' ∧
      Resp.ReadCommand demo_upper (unicode_fields demo_spans) (str "LPUSH jobs hello" ++ CRLF) =
        inr (view_command b' c, pending b')
  end.
Proof.
  apply (buffered_reader_refines demo_upper demo_spans (NewReader [str "LPUSH jo"; str "bs hello" ++ [CR]; [LF]])).
  - apply demo_spans_inside.
  - apply NewReader_ok. by repeat constructor.
Defined.

Lemma array_args_stable_witness :
  match ReadCommand demo_upper demo_spans (NewReader [WriteArray (Some [Some (str "PING"); Some (str "hi")])]) with
  | inl _ => False
  | inr (c, b') => view_command (NewReader []) c = view_command b' c
  end.
Proof.
  assert (match ReadCommand demo_upper demo_spans
    (NewReader [WriteArray (Some [Some (str "PING"); Some (str "hi")])]) with inl _ => false | _ => true end = true)
    as Hr by (vm_compute; reflexivity).
  destruct (ReadCommand demo_upper demo_spans _) as [e|[c b']] eqn:E; [discriminate Hr|].
  eapply (array_args_stable demo_upper demo_spans _ c b' _ _ E (NewReader [])).
  Unshelve.
  - apply NewReader_ok. by repeat constructor.
  - reflexivity.
Defined.

(** Two publications over one connection: the first message's payload becomes the
    second's. *)
Lemma inline_args_overwritten_witness :
  ∃ c1 b1 c2 b2,
    ReadCommand demo_upper demo_spans (NewReader demo_packets) = inr (c1, b1) ∧
    ReadCommand demo_upper demo_spans b1 = inr (c2, b2) ∧
    cmd_Args (view_command b1 c1) = [Some (str "jobs"); Some (str "hello")] ∧
    cmd_Args (view_command b2 c1) = [Some (str "jobs"); Some (str "world")].
Proof.
  apply (inline_args_overwritten demo_upper demo_spans (NewReader demo_packets)
    (str "LPUSH jobs hello") (str "LPUSH jobs world") []).
  - apply demo_spans_inside.
  - apply NewReader_ok. by repeat constructor.
  - reflexivity.
  - reflexivity.
  - split_and!; [by apply (bool_decide_unpack (LF ∉ _))|apply demo_fits|done|done].
  - split_and!; [by apply (bool_decide_unpack (LF ∉ _))|apply demo_fits|done|done].
  - reflexivity.
Defined.
