(* ===== verification/Server.v ===== *)
(** * The network server

    Models [handleConnection] of [src/internal/network/server.go]: the loop that
    reads a command, checks the authentication, runs the command on the broker
    and writes its reply.

    What the outside world supplies to one command is the record [readings]: the
    clock readings and random bytes of the messages it creates, the order in
    which the runtime iterates the maps it ranges over, and whether the reader
    has more buffered input when the reply is written.  The state of a connection
    records the bytes written to the buffered writer and how many of them an
    explicit [Flush] has sent (the writer may send earlier, when its 64 KiB are
    full).  Arguments of commands are values here: [BufReader] shows where this is
    the memory of the program, and where it is not. *)

From S2P Require Import Prelude GoText Message RingBuffer TimingWheel DeadLetter ConsumerGroup.
From S2P Require Import Topic Custody TopicSafety Broker BrokerSafety MessageJson Resp.

Record ServerConfig : Type := mkServerConfig { cfg_Addr : string; cfg_Password : string; cfg_MaxClients : Z }.

Record readings : Type := mkReadings {
  rd_now : nat → Z;
  rd_rand : nat → bytes;
  rd_later : Z;
  rd_t0 : Z;
  rd_t1 : Z;
  rd_topics : list string;
  rd_subs : list chan_id;
  rd_uptime : Z;
  rd_idle : bool
}.

(** How a case of the switch ends: falls to the flush at the end of the round,
    [continue]s past it, or returns from the handler. *)
Inductive control : Type := Done | Continue | Return.

Definition arg (args : list byte_slice) (i : nat) : bytes := default [] (default None (args !! i)).

Definition arg_string (args : list byte_slice) (i : nat) : string := gostring (arg args i).

Definition PONG : bytes := str "+PONG" ++ CRLF.

Definition OK : bytes := str "+OK" ++ CRLF.

Definition NullBulk : bytes := str "$-1" ++ CRLF.

Definition EmptyArray : bytes := str "*0" ++ CRLF.

(** The pairs of [XADD]. *)
Fixpoint payload_map (args : list byte_slice) (m : gmap string string) : gmap string string :=
  match args with
  | k :: v :: args' => payload_map args' (<[string_of_slice k := string_of_slice v]> m)
  | _ => m
  end.

Section server.
Context {W : Type} `{BrokerWAL W}.
Context (unicode_ToUpper : bytes → bytes) (unicode_Fields : bytes → list bytes).

Abbreviation BS := (Store * Broker W)%type.

Abbreviation upper b := (gostring (ToUpper unicode_ToUpper b)).

(** The loop over the arguments of [XREADGROUP]: group, consumer, topic and
    block time. *)
Fixpoint readgroup_args (args : list byte_slice) (group consumer : string) (block : Z)
  : string * string * string * Z :=
  match args with
  | [] => (group, consumer, "", block)
  | a :: args1 =>
      let word := upper (default [] a) in
      match args1 with
      | b :: args2 =>
          if decide (word = "GROUP") then
            match args2 with
            | c :: args3 => readgroup_args args3 (string_of_slice b) (string_of_slice c) block
            | [] => readgroup_args args1 group consumer block
            end
          else if decide (word = "BLOCK") then
            readgroup_args args2 group consumer (Atoi (default [] b)).1
          else if decide (word = "STREAMS") then (group, consumer, string_of_slice b, block)
          else readgroup_args args1 group consumer block
      | [] => readgroup_args args1 group consumer block
      end
  end.

(** ** The cases of the switch *)

Abbreviation handler := (list byte_slice → readings → prog BS (bytes * control)).

Definition reply (b : bytes) : prog BS (bytes * control) := mret (b, Done).

Definition reply_skip (b : bytes) : prog BS (bytes * control) := mret (b, Continue).

Definition nargs (args : list byte_slice) : Z := Z.of_nat (length args).

Definition case_PING : handler := λ args _,
  if 0 <? nargs args then reply (WriteBulkString (default None (args !! 0%nat))) else reply (WriteRaw PONG).

Definition case_ECHO : handler := λ args _,
  if 0 <? nargs args then reply (WriteBulkString (default None (args !! 0%nat)))
  else reply (WriteError "wrong number of arguments for 'echo'").

Definition info_string (st : BrokerStats) : bytes :=
  str "# VortexMQ Telemetry" ++ CRLF ++
  str "version:1.0.0" ++ CRLF ++
  str "uptime_seconds:" ++ FormatInt (bs_UptimeSeconds st) ++ CRLF ++
  str "total_topics:" ++ FormatInt (bs_TotalTopics st) ++ CRLF ++
  str "total_published:" ++ FormatUint (bs_TotalPublished st) ++ CRLF ++
  str "total_consumed:" ++ FormatUint (bs_TotalConsumed st) ++ CRLF ++
  str "total_acked:" ++ FormatUint (bs_TotalAcked st) ++ CRLF ++
  str "total_nacked:" ++ FormatUint (bs_TotalNacked st) ++ CRLF ++
  str "total_dlq:" ++ FormatUint (bs_TotalDLQ st) ++ CRLF.

Definition case_INFO : handler := λ _ r,
  stats ← Broker.Stats (rd_topics r) (rd_uptime r);
  reply (WriteBulkString (Some (info_string stats))).

(** The loops of [LPUSH] and [RPUSH]; an error of a publication is skipped. *)
Fixpoint push_all (front : bool) (topicName : string) (vals : list byte_slice) (i : nat) (r : readings)
  : prog BS unit :=
  match vals with
  | [] => mret tt
  | val :: vals' =>
      (if front then Broker.PublishFront topicName val (rd_now r i) (rd_rand r i)
       else Broker.Publish topicName val (rd_now r i) (rd_rand r i));;
      push_all front topicName vals' (S i) r
  end.

(** [t, ok := GetTopic(name)] and [t.Stats().Length]; a nil [t] is dereferenced. *)
Definition topic_length (topicName : string) : prog BS Z :=
  ok ← GetTopic topicName;
  if negb ok then panic else
  st ← zoom (lens_topic topicName) Topic.Stats;
  mret (ts_Length st).

Definition case_PUSH (front : bool) : handler := λ args r,
  if nargs args <? 2 then
    reply (WriteError (if front then "wrong number of arguments for 'lpush'"
                       else "wrong number of arguments for 'rpush'"))
  else
    let topicName := arg_string args 0 in
    push_all front topicName (drop 1 args) 0 r;;
    n ← topic_length topicName;
    reply (WriteInteger n).

(** The payload of a consumed message, or [None]. *)
Definition consumed_payload (msg : option loc * bool) : prog BS (option byte_slice) :=
  match msg with
  | (Some l, true) => m ← zoom lens_fst (load l); mret (Some (msg_Payload m))
  | _ => mret None
  end.

(** [LPOP] and [RPOP] have the same body but for the name in the error. *)
Definition case_POP (name : string) : handler := λ args r,
  if nargs args <? 1 then
    reply (WriteError ("wrong number of arguments for '" +:+ name +:+ "'"))
  else
    msg ← Broker.Consume (arg_string args 0) 0 (rd_t0 r) (rd_t1 r);
    p ← consumed_payload msg;
    reply (WriteBulkString (default None p)).

Definition case_BPOP : handler := λ args r,
  if nargs args <? 2 then reply (WriteError "wrong number of arguments for blocking pop") else
  let topicName := arg_string args 0 in
  let timeoutSec := (Atoi (arg args (length args - 1))).1 in
  let timeout := i64 (timeoutSec * second) in
  msg ← Broker.Consume topicName timeout (rd_t0 r) (rd_t1 r);
  p ← consumed_payload msg;
  match p with
  | None => reply (WriteRaw NullBulk)
  | Some payload => reply (WriteArray (Some [Some (str topicName); payload]))
  end.

Definition case_LLEN : handler := λ args _,
  if negb (nargs args =? 1) then reply (WriteError "wrong number of arguments for 'llen'") else
  let topicName := arg_string args 0 in
  ok ← GetTopic topicName;
  if (ok : bool) then
    st ← zoom (lens_topic topicName) Topic.Stats; reply (WriteInteger (ts_Length st))
  else reply (WriteInteger 0).

(** The reply to a publication: the error or the ID. *)
Definition reply_published (res : string + loc) : prog BS (bytes * control) :=
  match res with
  | inl e => reply (WriteError e)
  | inr l => m ← zoom lens_fst (load l); reply (WriteBulkString (Some (str (msg_ID m))))
  end.

Definition case_XADD : handler := λ args r,
  if nargs args <? 3 then reply_skip (WriteError "wrong number of arguments for 'xadd'") else
  let payloadBytes := marshal_map (payload_map (drop 2 args) ∅) in
  res ← Broker.Publish (arg_string args 0) (Some payloadBytes) (rd_now r 0) (rd_rand r 0);
  reply_published res.

Definition case_XGROUP : handler := λ args _,
  if (4 <=? nargs args) && bool_decide (upper (arg args 0) = "CREATE") then
    let topicName := arg_string args 1 in
    GetOrCreateTopic topicName;;
    zoom (lens_topic topicName) (GetOrCreateGroup (arg_string args 2) (30 * second));;
    reply (WriteRaw OK)
  else reply (WriteError "unsupported xgroup subcommand").

Definition case_XREADGROUP : handler := λ args r,
  let '(groupName, consumerID, topicName, blockMs) := readgroup_args args "" "" 0 in
  if bool_decide (topicName = "") || bool_decide (groupName = "") then
    reply_skip (WriteError "invalid xreadgroup arguments")
  else
    let timeout := i64 (blockMs * millisecond) in
    msg ← Broker.ConsumeGroup topicName groupName consumerID timeout (rd_t0 r) (rd_t1 r) (rd_now r 0);
    match msg with
    | (Some l, true) =>
        m ← zoom lens_fst (load l);
        reply (WriteArray (Some [Some (str (msg_ID m)); msg_Payload m]))
    | _ => reply (WriteRaw NullBulk)
    end.

(** The loop of [XACK]. *)
Fixpoint ack_all (topicName groupName : string) (ids : list byte_slice) (ackedCount : Z) : prog BS Z :=
  match ids with
  | [] => mret ackedCount
  | id :: ids' =>
      ok ← Broker.Ack topicName groupName (string_of_slice id);
      ack_all topicName groupName ids' (if (ok : bool) then i64 (ackedCount + 1) else ackedCount)
  end.

Definition case_XACK : handler := λ args _,
  if nargs args <? 3 then reply_skip (WriteError "wrong number of arguments for 'xack'") else
  n ← ack_all (arg_string args 0) (arg_string args 1) (drop 2 args) 0;
  reply (WriteInteger n).

Definition publish_delay (args : list byte_slice) : Z :=
  if 3 <=? nargs args then
    let '(ms, ok) := Atoi (arg args 2) in
    if ok && (0 <? ms) then i64 (ms * millisecond) else 0
  else 0.

Definition case_VMQ_PUBLISH : handler := λ args r,
  if nargs args <? 2 then reply_skip (WriteError "wrong number of arguments for 'vmq.publish'") else
  let topicName := arg_string args 0 in
  let payload := default None (args !! 1%nat) in
  let delay := publish_delay args in
  res ← (if 0 <? delay then
           Broker.PublishDelayed topicName payload delay (rd_now r 0) (rd_later r) (rd_rand r 0)
         else Broker.Publish topicName payload (rd_now r 0) (rd_rand r 0));
  reply_published res.

Definition consume_timeout (args : list byte_slice) : Z :=
  if 2 <=? nargs args then
    let '(ms, ok) := Atoi (arg args 1) in if (ok : bool) then i64 (ms * millisecond) else 0
  else 0.

Definition case_VMQ_CONSUME : handler := λ args r,
  if nargs args <? 1 then reply_skip (WriteError "wrong number of arguments for 'vmq.consume'") else
  msg ← Broker.Consume (arg_string args 0) (consume_timeout args) (rd_t0 r) (rd_t1 r);
  p ← consumed_payload msg;
  match p with
  | None => reply (WriteRaw NullBulk)
  | Some payload => reply (WriteBulkString payload)
  end.

Definition case_VMQ_ACK : handler := λ args _,
  if negb (nargs args =? 3) then reply_skip (WriteError "usage: VMQ.ACK <topic> <group> <msg_id>") else
  ok ← Broker.Ack (arg_string args 0) (arg_string args 1) (arg_string args 2);
  if (ok : bool) then reply (WriteRaw OK)
  else reply (WriteError "ACK rejected: message not found in pending list").

Definition case_VMQ_NACK : handler := λ args r,
  if nargs args <? 3 then
    reply_skip (WriteError "usage: VMQ.NACK <topic> <group> <msg_id> [reason]")
  else
    let reason := if 4 <=? nargs args then arg_string args 3 else "processing failed" in
    ok ← Broker.Nack (arg_string args 0) (arg_string args 1) (arg_string args 2) reason (rd_now r 0);
    if (ok : bool) then reply (WriteRaw OK)
    else reply (WriteError "NACK rejected: message not found in pending list").

Definition case_VMQ_REPLAY : handler := λ args r,
  if negb (nargs args =? 2) then reply_skip (WriteError "usage: VMQ.REPLAY <topic> <msg_id>") else
  res ← ReplayDLQ (arg_string args 0) (arg_string args 1) (rd_now r 0);
  if (res.2 : bool) then reply (WriteRaw OK)
  else reply (WriteError "message not found in dead letter queue").

(** The payloads of a batch with the readings of their messages. *)
Definition batch_payloads (payloads : list byte_slice) (r : readings) : list (byte_slice * Z * bytes) :=
  imap (λ i p, (p, rd_now r i, rd_rand r i)) payloads.

Definition case_VMQ_PUBLISH_BATCH : handler := λ args r,
  if nargs args <? 2 then
    reply (WriteError "usage: VMQ.PUBLISH_BATCH <topic> <payload1> [payload2...]")
  else
    n ← PublishBatch (arg_string args 0) (batch_payloads (drop 1 args) r);
    reply (WriteInteger n).

Definition case_VMQ_BROADCAST : handler := λ args r,
  if negb (nargs args =? 2) then reply (WriteError "usage: VMQ.BROADCAST <channel> <message>") else
  receivers ← Broadcast (arg_string args 0) (arg args 1) (rd_subs r);
  reply (WriteInteger receivers).

Definition case_VMQ_STATS : handler := λ _ r,
  stats ← Broker.Stats (rd_topics r) (rd_uptime r);
  reply (WriteBulkString (Some (marshal_stats stats))).

(** ** The switch *)

Definition switch (name : string) : handler :=
  if decide (name = "PING") then case_PING else
  if decide (name = "ECHO") then case_ECHO else
  if decide (name = "COMMAND") then (λ _ _, reply (WriteRaw EmptyArray)) else
  if decide (name = "INFO") then case_INFO else
  if decide (name = "LPUSH") then case_PUSH true else
  if decide (name = "RPUSH") then case_PUSH false else
  if decide (name = "LPOP") then case_POP "lpop" else
  if decide (name = "RPOP") then case_POP "rpop" else
  if decide (name = "BRPOP") then case_BPOP else
  if decide (name = "BLPOP") then case_BPOP else
  if decide (name = "LLEN") then case_LLEN else
  if decide (name = "XADD") then case_XADD else
  if decide (name = "XGROUP") then case_XGROUP else
  if decide (name = "XREADGROUP") then case_XREADGROUP else
  if decide (name = "XACK") then case_XACK else
  if decide (name = "VMQ.PUBLISH") then case_VMQ_PUBLISH else
  if decide (name = "VMQ.CONSUME") then case_VMQ_CONSUME else
  if decide (name = "VMQ.ACK") then case_VMQ_ACK else
  if decide (name = "VMQ.NACK") then case_VMQ_NACK else
  if decide (name = "VMQ.REPLAY") then case_VMQ_REPLAY else
  if decide (name = "VMQ.PUBLISH_BATCH") then case_VMQ_PUBLISH_BATCH else
  if decide (name = "VMQ.BROADCAST") then case_VMQ_BROADCAST else
  if decide (name = "VMQ.STATS") then case_VMQ_STATS else
  if decide (name = "QUIT") then (λ _ _, mret (WriteRaw OK, Return)) else
  λ _ _, reply (WriteError ("unknown command '" +:+ name +:+ "'")).

(** ** A connection *)

Record Conn : Type := mkConn {
  c_authenticated : bool;
  c_out : bytes;
  c_flushed : nat;
  c_open : bool
}.

Definition write (b : bytes) (c : Conn) : Conn :=
  mkConn (c_authenticated c) (c_out c ++ b) (c_flushed c) (c_open c).

Definition flush (c : Conn) : Conn :=
  mkConn (c_authenticated c) (c_out c) (length (c_out c)) (c_open c).

Definition flush_if_idle (r : readings) (c : Conn) : Conn := if rd_idle r then flush c else c.

(** The deferred function of the handler. *)
Definition hang_up (c : Conn) : Conn := mkConn (c_authenticated c) (c_out c) (length (c_out c)) false.

Definition authenticate (c : Conn) : Conn := mkConn true (c_out c) (c_flushed c) (c_open c).

Definition new_conn (cfg : ServerConfig) : Conn := mkConn (bool_decide (cfg_Password cfg = "")) [] 0 true.

Definition case_AUTH (cfg : ServerConfig) (args : list byte_slice) (c : Conn) : Conn :=
  if negb (nargs args =? 1) then write (WriteError "wrong number of arguments for 'auth'") c else
  if bool_decide (cfg_Password cfg ≠ "") && bool_decide (arg_string args 0 = cfg_Password cfg) then
    write (WriteRaw OK) (authenticate c)
  else if bool_decide (cfg_Password cfg = "") then write (WriteRaw OK) (authenticate c)
  else write (WriteError "ERR invalid password") c.

(** One round of the loop, after [ReadCommand]. *)
Definition serve (cfg : ServerConfig) (cmd : Command) (r : readings) (c : Conn) : prog BS Conn :=
  let name := cmd_Name cmd in
  if negb (c_authenticated c) && negb (bool_decide (name = "AUTH")) && negb (bool_decide (name = "QUIT"))
  then mret (flush_if_idle r (write (WriteError "NOAUTH Authentication required.") c))
  else if decide (name = "AUTH") then mret (flush_if_idle r (case_AUTH cfg (cmd_Args cmd) c))
  else
    res ← switch name (cmd_Args cmd) r;
    let c' := write res.1 c in
    match res.2 with
    | Done => mret (flush_if_idle r c')
    | Continue => mret c'
    | Return => mret (hang_up c')
    end.

(** The loop, for as many rounds as there are readings. *)
Fixpoint handleConnection (cfg : ServerConfig) (rs : list readings) (input : bytes) (c : Conn)
  : prog BS Conn :=
  match rs with
  | [] => mret c
  | r :: rs' =>
      match ReadCommand unicode_ToUpper unicode_Fields input with
      | inl _ => mret (hang_up c)
      | inr (cmd, input') =>
          c' ← serve cfg cmd r c;
          if c_open c' then handleConnection cfg rs' input' c' else mret c'
      end
  end.
End server.

(** ** The listener and the set of connections *)

(** [pending] is the connection that [Accept] returned and the loop has not yet
    registered; [sockets] are the connections that are not closed. *)
Record Server : Type := mkServer {
  sv_cfg : ServerConfig;
  sv_listening : bool;
  sv_pending : option positive;
  sv_sockets : gset positive;
  sv_conns : gset positive;
  sv_closed : bool
}.

Definition NewServer (cfg : ServerConfig) : Server :=
  mkServer (if decide (cfg_Addr cfg = "") then mkServerConfig ":8379" (cfg_Password cfg) (cfg_MaxClients cfg) else cfg)
    false None ∅ ∅ false.

(** [net.Listen] succeeded. *)
Definition Start (sv : Server) : Server :=
  mkServer (sv_cfg sv) true (sv_pending sv) (sv_sockets sv) (sv_conns sv) (sv_closed sv).

(** [Accept] returns [conn]. *)
Definition accepted_conn (conn : positive) (sv : Server) : Server :=
  mkServer (sv_cfg sv) (sv_listening sv) (Some conn) ({[conn]} ∪ sv_sockets sv) (sv_conns sv) (sv_closed sv).

(** The rest of the round: the limit, or the registration. *)
Definition register (conn : positive) (sv : Server) : Server :=
  let max := cfg_MaxClients (sv_cfg sv) in
  if (0 <? max) && (max <=? Z.of_nat (size (sv_conns sv))) then
    mkServer (sv_cfg sv) (sv_listening sv) None (sv_sockets sv ∖ {[conn]}) (sv_conns sv) (sv_closed sv)
  else
    mkServer (sv_cfg sv) (sv_listening sv) None (sv_sockets sv) ({[conn]} ∪ sv_conns sv) (sv_closed sv).

(** The deferred function of [handleConnection]. *)
Definition disconnect (conn : positive) (sv : Server) : Server :=
  mkServer (sv_cfg sv) (sv_listening sv) (sv_pending sv) (sv_sockets sv ∖ {[conn]}) (sv_conns sv ∖ {[conn]})
    (sv_closed sv).

(** [Stop] up to [s.wg.Wait()]. *)
Definition server_Stop (sv : Server) : Server :=
  if sv_closed sv then sv else
  mkServer (sv_cfg sv) false (sv_pending sv) (sv_sockets sv ∖ sv_conns sv) (sv_conns sv) true.

(** The interleavings of the accept loop, the handlers and [Stop]. *)
Inductive server_step : Server → Server → Prop :=
| ss_accept sv conn : sv_listening sv = true → sv_pending sv = None → conn ∉ sv_sockets sv → conn ∉ sv_conns sv →
    server_step sv (accepted_conn conn sv)
| ss_register sv conn : sv_pending sv = Some conn → server_step sv (register conn sv)
| ss_disconnect sv conn : conn ∈ sv_conns sv → server_step sv (disconnect conn sv)
| ss_stop sv : server_step sv (server_Stop sv).
