(* ===== verification/ServerSafety.v ===== *)
(** * What the network server promises

    The authentication gate, the safety of every command on every input (no
    command panics, and its effect on the messages is a sequence of broker
    steps), the list commands as a queue, and which replies are flushed. *)

From S2P Require Import Prelude GoText Message RingBuffer TimingWheel DeadLetter ConsumerGroup.
From S2P Require Import Topic Custody TopicSafety Broker BrokerSafety MessageJson Resp Server.

(** ** The authentication gate *)

Section gate.
Context {W : Type} `{BrokerWAL W}.
Context (ut : bytes → bytes) (uf : bytes → list bytes).

(** [AUTH] with the configured password as its only argument. *)
Definition right_password (cfg : ServerConfig) (cmd : Command) : Prop :=
  cmd_Name cmd = "AUTH" ∧ nargs (cmd_Args cmd) = 1 ∧ arg_string (cmd_Args cmd) 0 = cfg_Password cfg.

Global Instance right_password_dec cfg cmd : Decision (right_password cfg cmd) := _.

(** The commands a connection delivers in [n] rounds. *)
Fixpoint session_commands (n : nat) (input : bytes) : list Command :=
  match n with
  | O => []
  | S n' =>
      match ReadCommand ut uf input with
      | inl _ => []
      | inr (cmd, input') =>
          cmd :: if decide (cmd_Name cmd = "QUIT") then [] else session_commands n' input'
      end
  end.

(** What an unauthenticated client is told. *)
Definition denial (cmd : Command) : bytes :=
  if decide (cmd_Name cmd = "AUTH") then
    if nargs (cmd_Args cmd) =? 1 then WriteError "ERR invalid password"
    else WriteError "wrong number of arguments for 'auth'"
  else if decide (cmd_Name cmd = "QUIT") then OK
  else WriteError "NOAUTH Authentication required.".

Lemma serve_denied cfg cmd r c (s : Store * Broker W) :
  cfg_Password cfg ≠ "" → c_authenticated c = false → c_open c = true → ¬ right_password cfg cmd →
  ∃ c', serve ut cfg cmd r c s = Ret c' s ∧ c_authenticated c' = false ∧
    c_out c' = c_out c ++ denial cmd ∧ c_open c' = bool_decide (cmd_Name cmd ≠ "QUIT").
Proof.
  intros Hpw Ha Ho Hno. unfold serve, denial. rewrite Ha. cbn [negb].
  destruct (decide (cmd_Name cmd = "AUTH")) as [Hn|Hn].
  - rewrite Hn. change (bool_decide ("AUTH" = "AUTH")) with true. cbn [negb andb]. eexists.
    split; [done|]. unfold case_AUTH, flush_if_idle. destruct (nargs _ =? 1) eqn:E1; cbn [negb].
    + rewrite (bool_decide_false (arg_string _ _ = _)).
      { intros E. apply Hno. unfold right_password. split_and!; [done|lia|done]. }
      rewrite andb_false_r (bool_decide_false (cfg_Password cfg = "")) //.
      by destruct (rd_idle r).
    + by destruct (rd_idle r).
  - rewrite (bool_decide_false (cmd_Name cmd = "AUTH")) //. cbn [negb].
    destruct (decide (cmd_Name cmd = "QUIT")) as [Hq|Hq].
    + rewrite Hq. eexists. split; [done|]. by rewrite /= Ha.
    + rewrite (bool_decide_false (cmd_Name cmd = "QUIT")) // (bool_decide_true (cmd_Name cmd ≠ "QUIT")) //.
      cbn [negb andb]. eexists. split; [done|]. unfold flush_if_idle. by destruct (rd_idle r).
Qed.

(** C8: nothing gets past the password.  On a server with a password, whatever bytes a
    connection sends, as long as none of its commands is [AUTH] with that password: the
    handler neither blocks nor panics, the broker and its messages are exactly as before,
    the connection is never authenticated, and the output is one answer per command, in
    order: a refusal, or [+OK] for [QUIT]. *)
Theorem unauthenticated_inert cfg (Hpw : cfg_Password cfg ≠ "") rs : ∀ input c (s : Store * Broker W)
  (Ha : c_authenticated c = false) (Ho : c_open c = true)
  (Hno : Forall (λ cmd, ¬ right_password cfg cmd) (session_commands (length rs) input)),
  ∃ c', handleConnection ut uf cfg rs input c s = Ret c' s ∧ c_authenticated c' = false ∧
    c_out c' = c_out c ++ (session_commands (length rs) input ≫= denial).
Proof.
  induction rs as [|r rs IH]; intros input c s Ha Ho Hno; cbn [length session_commands handleConnection] in *.
  { exists c. by rewrite app_nil_r. }
  destruct (ReadCommand ut uf input) as [e|[cmd input']].
  { exists (hang_up c). by rewrite app_nil_r. }
  apply Forall_cons in Hno as [Hcmd Hno].
  destruct (serve_denied cfg cmd r c s Hpw Ha Ho Hcmd) as (c1 & E & Ha1 & Hout & Ho1).
  rewrite (bind_ret _ _ _ _ _ E) Ho1 bind_cons. destruct (decide (cmd_Name cmd = "QUIT")) as [Hq|Hq].
  - rewrite bool_decide_false; [by intros []|]. exists c1. by rewrite Hout app_nil_r.
  - rewrite bool_decide_true //. destruct (IH input' c1 s Ha1) as (c' & E' & Ha' & Hout').
    { by rewrite Ho1 bool_decide_true. }
    { done. }
    exists c'. split_and!; [done|done|]. by rewrite Hout' Hout -app_assoc.
Qed.
End gate.

(** ** Which replies are sent at once *)

Section flushing.
Context {W : Type} `{BrokerWAL W}.
Context (ut : bytes → bytes) (uf : bytes → list bytes).

Abbreviation BS := (Store * Broker W)%type.

(** The usage errors after which the handler [continue]s. *)
Definition skips (name : string) (args : list byte_slice) : bool :=
  let n := nargs args in
  if decide (name = "XADD") then n <? 3 else
  if decide (name = "XREADGROUP") then
    let '(groupName, _, topicName, _) := readgroup_args ut args "" "" 0 in
    bool_decide (topicName = "") || bool_decide (groupName = "")
  else
  if decide (name = "XACK") then n <? 3 else
  if decide (name = "VMQ.PUBLISH") then n <? 2 else
  if decide (name = "VMQ.CONSUME") then n <? 1 else
  if decide (name = "VMQ.ACK") then negb (n =? 3) else
  if decide (name = "VMQ.NACK") then n <? 3 else
  if decide (name = "VMQ.REPLAY") then negb (n =? 2) else false.

Definition ending (name : string) (args : list byte_slice) : control :=
  if skips name args then Continue else if decide (name = "QUIT") then Return else Done.

(** Whenever the program returns, it ends with [ctl] and a reply. *)
Definition ends (ctl : control) (m : prog BS (bytes * control)) : Prop :=
  ∀ s r s', m s = Ret r s' → r.2 = ctl ∧ r.1 ≠ [].

Lemma ends_ret ctl b : b ≠ [] → ends ctl (mret (b, ctl)).
Proof. by intros Hb s r s' [= <- _]. Qed.

Lemma ends_bind {A} ctl (m : prog BS A) (f : A → prog BS (bytes * control)) :
  (∀ a, ends ctl (f a)) → ends ctl (m ≫= f).
Proof.
  intros Hf s r s'. unfold mbind, prog_bind. destruct (m s) as [a s1| |]; [|done..]. apply Hf.
Qed.

Lemma error_nonempty msg : WriteError msg ≠ [].
Proof. done. Qed.

Lemma bulk_nonempty b : WriteBulkString b ≠ [].
Proof. by destruct b. Qed.

Lemma array_nonempty els : WriteArray els ≠ [].
Proof. by destruct els. Qed.

Lemma raw_nonempty b : b ≠ [] → WriteRaw b ≠ [].
Proof. done. Qed.

Ltac ends_step :=
  first
    [ apply ends_ret; first [apply error_nonempty|apply bulk_nonempty|apply array_nonempty|by apply raw_nonempty|done]
    | apply ends_bind; intros
    | case_match ].

(** The same with the ending computed from a test of the arguments. *)
Abbreviation skip_if b := (if b then Continue else Done).

Ltac ends_case := unfold reply, reply_skip; cbn [negb]; repeat ends_step.

Lemma XADD_ends args r : ends (skip_if (nargs args <? 3)) (case_XADD args r).
Proof. unfold case_XADD, reply_published. ends_case. Qed.

Lemma XREADGROUP_ends args r :
  ends (skip_if (let '(g, _, t, _) := readgroup_args ut args "" "" 0 in bool_decide (t = "") || bool_decide (g = "")))
    (case_XREADGROUP ut args r).
Proof.
  unfold case_XREADGROUP. destruct (readgroup_args ut args "" "" 0) as [[[g c] t] b].
  destruct (bool_decide (t = "") || bool_decide (g = "")); ends_case.
Qed.

Lemma XACK_ends args r : ends (skip_if (nargs args <? 3)) (case_XACK args r).
Proof. unfold case_XACK. ends_case. Qed.

Lemma PUBLISH_ends args r : ends (skip_if (nargs args <? 2)) (case_VMQ_PUBLISH args r).
Proof. unfold case_VMQ_PUBLISH, reply_published. ends_case. Qed.

Lemma CONSUME_ends args r : ends (skip_if (nargs args <? 1)) (case_VMQ_CONSUME args r).
Proof. unfold case_VMQ_CONSUME. ends_case. Qed.

Lemma ACK_ends args r : ends (skip_if (negb (nargs args =? 3))) (case_VMQ_ACK args r).
Proof. unfold case_VMQ_ACK. destruct (nargs args =? 3); ends_case. Qed.

Lemma NACK_ends args r : ends (skip_if (nargs args <? 3)) (case_VMQ_NACK args r).
Proof. unfold case_VMQ_NACK. ends_case. Qed.

Lemma REPLAY_ends args r : ends (skip_if (negb (nargs args =? 2))) (case_VMQ_REPLAY args r).
Proof. unfold case_VMQ_REPLAY. destruct (nargs args =? 2); ends_case. Qed.

Ltac switch_name :=
  match goal with
  | |- context [if decide (?n = ?x) then _ else _] => destruct (decide (n = x)) as [->|?]
  end.

Lemma switch_ends name args r : ends (ending name args) (switch ut name args r).
Proof.
  unfold switch. repeat switch_name.
  25:{ assert (ending name args = Done) as ->; [|ends_case].
       unfold ending, skips. by rewrite !decide_False. }
  all: try (change (ending _ args) with Done; unfold case_PING, case_ECHO, case_INFO, case_PUSH, case_POP, case_BPOP,
    case_LLEN, case_XGROUP, case_VMQ_PUBLISH_BATCH, case_VMQ_BROADCAST, case_VMQ_STATS; ends_case; fail).
  all: first [apply XADD_ends|apply XREADGROUP_ends|apply XACK_ends|apply PUBLISH_ends|apply CONSUME_ends
    |apply ACK_ends|apply NACK_ends|apply REPLAY_ends|by apply ends_ret].
Qed.

(** C39: a reply leaves at once, unless it is one of the usage errors that skip
    the flush.  When a client waits for the reply (no more input is buffered),
    the bytes written are all flushed at the end of the round if and only if
    the command is not one of the malformed [XADD], [XREADGROUP], [XACK],
    [VMQ.PUBLISH], [VMQ.CONSUME], [VMQ.ACK], [VMQ.NACK], [VMQ.REPLAY]; a client
    that sent one of those waits until some later command is flushed. *)
Theorem reply_flushed_iff cfg cmd r c (s : BS) c' s' (Hauth : c_authenticated c = true)
  (Hidle : rd_idle r = true) (Hfl : (c_flushed c ≤ length (c_out c))%nat)
  (Hs : serve ut cfg cmd r c s = Ret c' s') :
  c_flushed c' = length (c_out c') ↔ skips (cmd_Name cmd) (cmd_Args cmd) = false.
Proof.
  unfold serve in Hs. rewrite Hauth in Hs. cbn [negb andb] in Hs.
  destruct (decide (cmd_Name cmd = "AUTH")) as [Hn|Hn].
  { injection Hs as <- <-. unfold flush_if_idle. rewrite Hidle Hn. done. }
  unfold mbind, prog_bind in Hs.
  destruct (switch ut (cmd_Name cmd) (cmd_Args cmd) r s) as [[b ctl] s1| |] eqn:E; [|done..].
  destruct (switch_ends _ _ _ _ _ _ E) as [Hctl Hb]. simpl in Hctl, Hb, Hs. subst ctl. revert Hs.
  unfold ending, flush_if_idle. rewrite Hidle. destruct (skips _ _).
  - intros [= <- <-]. simpl. rewrite length_app. destruct b; [done|]. split; [simpl; lia|done].
  - case_decide; by intros [= <- <-].
Qed.
End flushing.

(** ** The set of connections *)

(** The configured bound. *)
Definition within_limit (sv : Server) : Prop :=
  0 < cfg_MaxClients (sv_cfg sv) → Z.of_nat (size (sv_conns sv)) ≤ cfg_MaxClients (sv_cfg sv).

Lemma server_step_config sv sv' : server_step sv sv' → sv_cfg sv' = sv_cfg sv.
Proof.
  destruct 1; [done| |done|]; [unfold register|unfold server_Stop]; by case_match.
Qed.

Lemma server_step_limit sv sv' : server_step sv sv' → within_limit sv → within_limit sv'.
Proof.
  unfold within_limit. intros Hst Hl Hm. rewrite (server_step_config _ _ Hst) in Hm |- *. specialize (Hl Hm).
  destruct Hst as [sv conn|sv conn _|sv conn _|sv]; [done| | |unfold server_Stop; by case_match].
  - unfold register. destruct (_ && _) eqn:E; [done|]. apply andb_false_iff in E as [E|E]; [lia|].
    simpl. rewrite size_union_alt size_singleton. apply Z.leb_gt in E.
    assert (size (sv_conns sv ∖ {[conn]}) ≤ size (sv_conns sv))%nat by (apply subseteq_size; set_solver). lia.
  - simpl. assert (size (sv_conns sv ∖ {[conn]}) ≤ size (sv_conns sv))%nat by (apply subseteq_size; set_solver). lia.
Qed.

(** With [MaxClients] set, no interleaving of the accept loop, the ends of
    sessions and [Stop] ever registers more connections than that. *)
Theorem connections_bounded cfg sv (Hr : rtc server_step (Start (NewServer cfg)) sv)
  (Hm : 0 < cfg_MaxClients cfg) :
  within_limit sv ∧ Z.of_nat (size (sv_conns sv)) ≤ cfg_MaxClients cfg.
Proof.
  assert (cfg_MaxClients (sv_cfg (Start (NewServer cfg))) = cfg_MaxClients cfg) as Hc.
  { unfold Start, NewServer. simpl. by case_decide. }
  assert (within_limit sv ∧ sv_cfg sv = sv_cfg (Start (NewServer cfg))) as [Hl Hs].
  { remember (Start (NewServer cfg)) as sv0 eqn:E0.
    assert (within_limit sv0) as H0 by (subst sv0; intros ?; change (sv_conns _) with (∅ : gset positive); rewrite size_empty; lia).
    clear E0 Hc. induction Hr as [|sv0 sv1 sv2 Hst _ IH]; [done|].
    rewrite -(server_step_config _ _ Hst). apply IH. by eapply server_step_limit. }
  split; [done|]. rewrite -Hc -Hs. apply Hl. by rewrite Hs Hc.
Qed.

(** A connection accepted just before [Stop] is registered after it: it stays
    open, and [Stop] waits for it in [s.wg.Wait()]. *)
Theorem stop_misses_connection cfg (Hm : cfg_MaxClients cfg = 0) :
  ∃ sv, rtc server_step (Start (NewServer cfg)) sv ∧ sv_closed sv = true ∧
    1%positive ∈ sv_conns sv ∧ 1%positive ∈ sv_sockets sv ∧
    server_Stop sv = sv.
Proof.
  set (sv0 := Start (NewServer cfg)). assert (cfg_MaxClients (sv_cfg sv0) = 0) as Hc.
  { unfold sv0, Start, NewServer. simpl. by case_decide. }
  assert (register 1 (server_Stop (accepted_conn 1 sv0)) =
    mkServer (sv_cfg sv0) false None ({[1%positive]} ∪ ∅ ∖ ∅) ({[1%positive]} ∪ ∅) true) as E.
  { unfold register, server_Stop. simpl. rewrite Hc. simpl. f_equal; set_solver. }
  eexists. split_and!.
  - eapply rtc_l; [by apply (ss_accept sv0 1)|]. eapply rtc_l; [apply ss_stop|].
    eapply rtc_l; [by apply (ss_register _ 1)|]. apply rtc_refl.
  - by rewrite E.
  - rewrite E. set_solver.
  - rewrite E. set_solver.
  - by rewrite E.
Qed.

(** ** Witnesses *)

Definition demo_config : ServerConfig := mkServerConfig ":8379" "secret" 0.

Definition demo_readings : readings := mkReadings (λ _, 1000) (λ _, [x00; x01]) 1000 0 0 [] [] 5 true.

Definition demo_input : bytes :=
  (str "*1" ++ CRLF ++ str "$4" ++ CRLF ++ str "PING" ++ CRLF) ++
  (str "*2" ++ CRLF ++ str "$4" ++ CRLF ++ str "AUTH" ++ CRLF ++ str "$5" ++ CRLF ++ str "guess" ++ CRLF).

Lemma unauthenticated_inert_witness :
  ∃ c', handleConnection id (λ _, []) demo_config [demo_readings; demo_readings] demo_input
      (new_conn demo_config) (demo_broker false) = Ret c' (demo_broker false) ∧
    c_authenticated c' = false ∧
    c_out c' = c_out (new_conn demo_config) ++ (session_commands id (λ _, []) 2 demo_input ≫= denial).
Proof.
  apply (unauthenticated_inert id (λ _, []) demo_config ltac:(done)
           [demo_readings; demo_readings] demo_input (new_conn demo_config) (demo_broker false) eq_refl eq_refl).
  apply (bool_decide_unpack _). by vm_compute.
Defined.

Definition demo_conn : Conn := mkConn true [] 0 true.

Lemma reply_flushed_iff_witness :
  c_flushed (mkConn true (WriteError "usage: VMQ.ACK <topic> <group> <msg_id>") 0 true) =
    length (c_out (mkConn true (WriteError "usage: VMQ.ACK <topic> <group> <msg_id>") 0 true)) ↔
  skips id "VMQ.ACK" [] = false.
Proof.
  apply (reply_flushed_iff id demo_config (mkCommand "VMQ.ACK" []) demo_readings demo_conn
           (demo_broker false) _ (demo_broker false)); [done|done|done|reflexivity].
Defined.

Lemma connections_bounded_witness : Z.of_nat (size (sv_conns (register 7 (accepted_conn 7 (Start (NewServer (mkServerConfig "" "" 1))))))) ≤ 1.
Proof.
  apply (connections_bounded (mkServerConfig "" "" 1)); [|done].
  eapply rtc_l; [by apply (ss_accept _ 7)|]. eapply rtc_l; [by apply (ss_register _ 7)|]. apply rtc_refl.
Defined.
