(* ===== verification/CommandSafety.v ===== *)
(** * Every command is safe

    Each case of the server's switch, run on a broker that satisfies its
    invariant, with any arguments: it returns a reply or parks in a blocking
    pop, it never panics, and what it did to the messages is a sequence of
    broker steps.  The list commands are then shown to be operations of an
    abstract queue of payloads. *)

From S2P Require Import Prelude GoText Message RingBuffer TimingWheel DeadLetter ConsumerGroup.
From S2P Require Import Topic Custody TopicSafety Broker BrokerSafety MessageJson Resp Server Wal WalDurable.

Section commands.
Context {W : Type} `{BrokerWAL W}.

Abbreviation BS := (Store * Broker W)%type.

(** ** Publications in detail *)

Definition room_of (s : BS) (n : string) : Z :=
  match b_topics s.2 !! n with Some t => topic_room t | None => 50000 end.

(** The queued messages of a topic, head first. *)
Definition queue_locs (s : BS) (n : string) : list loc :=
  match b_topics s.2 !! n with Some t => ring_contents (t_ring t) | None => [] end.

Definition new_store (m : Message) (σ : Store) : Store :=
  mkStore (<[fresh (dom (heap σ)) := m]> (heap σ)) (u64 (globalSeq σ + 1)).

Lemma ring_of_inv k s q : topic_inv k s q → ring_contents (t_ring s.2) = q.
Proof. intros Hi. apply ring_contents_rep, (ti_core _ _ _ Hi). Qed.

Lemma new_topic_facts (s : BS) n t :
  b_topics s.2 !! n = Some t ∨ b_topics s.2 !! n = None ∧ NewTopic n 131072 = Some t →
  topic_room t = room_of s n ∧ ring_contents (t_ring t) = queue_locs s n.
Proof.
  unfold room_of, queue_locs. intros [->|[-> E]]; [done|].
  destruct (NewTopic_inv n 131072 s.1) as (t' & E' & Hi & _ & _ & _ & Hr); [lia|].
  rewrite E in E'. injection E' as <-. split; [done|]. exact (ring_of_inv _ _ _ Hi).
Qed.

Lemma fresh_rest (s s' : BS) n x ids t' :
  fresh_for s n (x :: ids) → b_topics s'.2 !! n = Some t' → topic_room t' = room_of s n →
  owned s' n ≡ₚ x :: owned s n ∨ owned s' n = owned s n → (∀ n', n' ≠ n → owned s' n' = owned s n') →
  fresh_for s' n ids.
Proof.
  intros (Hnd & Hno & Hr) Ht' Hroom Ho Hoth. apply NoDup_cons in Hnd as [Hx Hnd].
  split_and!; [done| |].
  - intros n' y Hy. destruct (decide (n' = n)) as [->|Hne]; [|rewrite Hoth //; apply Hno; by right].
    assert (y ∉ owned s n) by (apply Hno; by right).
    destruct Ho as [->| ->]; [|done]. rewrite elem_of_cons. by intros [->|?].
  - rewrite Ht' Hroom. unfold room_of. destruct Ho as [->| ->]; simpl in *; lia.
Qed.

(** The topic's part of [Publish] and [PublishFront]. *)
Lemma topic_push_run (front : bool) s q l m :
  topic_inv 1 s q → heap s.1 !! l = Some m → retryable m → msg_ID m ∉ held s q →
  ∃ rb', let t1 := add_published (len_slice (msg_Payload m)) (set_ring rb' s.2) in
    (if front then Topic.PublishFront l else Topic.Publish l) s = Ret true (s.1, t1) ∧
    topic_room t1 = topic_room s.2 ∧ ring_contents rb' = if front then l :: q else q ++ [l].
Proof.
  intros Hi Hl Hret Hno. destruct front.
  - destruct (PublishFront_run 0 s q l m Hi Hl Hret Hno) as (rb' & E & Hi' & _ & Hr).
    exists rb'. split_and!; [exact E|exact Hr|exact (ring_of_inv _ _ _ Hi')].
  - destruct (Publish_run 0 s q l m Hi Hl Hret Hno) as (rb' & E & Hi' & _ & Hr).
    exists rb'. split_and!; [exact E|exact Hr|exact (ring_of_inv _ _ _ Hi')].
Qed.

Lemma fresh_one (s : BS) n x ids : fresh_for s n (x :: ids) → fresh_for s n [x].
Proof.
  intros (Hnd & Hno & Hr). split_and!; [apply NoDup_singleton| |simpl in *; lia].
  intros n' y ->%list_elem_of_singleton. apply Hno. by left.
Qed.

Abbreviation push_op front n payload now rnd :=
  (if (front : bool) then Broker.PublishFront n payload now rnd else Broker.Publish n payload now rnd).

(** [Publish] and [PublishFront], with the store, the topic and the room they
    leave behind. *)
Lemma push_outcome (front : bool) (s : BS) n payload now rnd ids err wal :
  broker_inv s →
  let m := created n payload now rnd s.1 in
  let l := fresh (dom (heap s.1)) in
  fresh_for s n (msg_ID m :: ids) → logged m (b_wal s.2) = Ret err wal →
  ∃ res s' t' lb, push_op front n payload now rnd s = Ret res s' ∧ broker_step s lb s' ∧ broker_inv s' ∧
    s'.1 = new_store m s.1 ∧ b_wal s'.2 = wal ∧ b_topics s'.2 !! n = Some t' ∧ fresh_for s' n ids ∧
    match err with
    | None => res = inr l ∧ queue_locs s' n = if front then l :: queue_locs s n else queue_locs s n ++ [l]
    | Some e => res = inl e ∧ queue_locs s' n = queue_locs s n
    end.
Proof.
  intros Hb m l Hf He.
  destruct (prepare_run s n payload now rnd _ _ Hb He) as (ts & t & Hk & Ht & Hl & Hb' & Hor & Hot & Hown).
  fold m in Hk, Ht, Hl, Hb', Hot, Hown. fold l in Hk, Ht, Hl, Hb', Hot, Hown.
  destruct (new_topic_facts s n t Hor) as [Hroom Hq].
  set (s0 := (mkStore _ _, _)) in *.
  destruct err as [e|].
  { assert (push_op front n payload now rnd s = Ret (inl e) s0) as E
      by (destruct front; (etrans; [apply Hk|done])).
    assert (broker_step s (mkLabel n [] [] [LogPublish m]) s0) as Hst.
    { apply (bs_publish_error s n payload now rnd 0 0 e wal); [|exact He].
      unfold publishes. destruct front; [right; left|left]; exact E. }
    exists (inl e), s0, t. eexists. split_and!; [done|exact Hst|done|done|done|done| |done|].
    - eapply (fresh_rest s s0 n (msg_ID m) ids t); [done|done|done|right; apply Hown|intros; apply Hown].
    - unfold queue_locs at 1. rewrite Ht. exact Hq. }
  pose proof (fresh_one _ _ _ _ Hf) as Hf1.
  assert (retryable m) as Hret by (unfold retryable; simpl; lia).
  destruct (fresh_publishable s s0 n t l m Hb' Ht Hl Hret Hf1 Hown Hor) as (Hno & Hlt & Hi1 & Hno1).
  destruct (topic_push_run front (s0.1, t) _ l m Hi1 Hl Hret Hno1) as (rb' & E1 & Hr1 & Hq1).
  set (t1 := add_published _ _) in *.
  set (s2 := replaced s0 n (s0.1, t1)). set (s' := (s2.1, count 1 0 0 0 s2.2)).
  assert (push_op front n payload now rnd s = Ret (inr l) s') as E.
  { destruct front; (etrans; [apply Hk|]; cbv beta iota;
      rewrite (bind_ret _ _ _ _ _ (zoom_ret (lens_topic n) _ s0 _ _
        ltac:(unfold view, lens_topic; rewrite Ht; exact E1))); done). }
  assert (broker_step s (mkLabel n [msg_ID m] [] [LogPublish m]) s') as Hst.
  { apply (bs_publish s n payload now rnd 0 0 l); [|exact Hf1].
    unfold publishes. destruct front; [right; left|left]; exact E. }
  assert (b_topics s'.2 !! n = Some t1) as Ht1 by apply lookup_insert_eq.
  destruct (accept_topic s0 n t l m (s0.1, t1) 0 0 Hb' Ht Hl Hret Hno Hlt) as (_ & Ho2 & Ho3).
  { unfold accepted. destruct front; [right; left|left]; exact E1. }
  exists (inr l), s', t1. eexists. split_and!; [done|exact Hst| |done|done|done| |done|].
  - by apply (step_follows s _ s' Hb Hst).
  - eapply (fresh_rest s s' n (msg_ID m) ids t1); [done|done|by rewrite Hr1| |].
    + left. change (owned s' n) with (owned s2 n). unfold s2. by rewrite Ho2 Hown.
    + intros n' Hne. change (owned s' n') with (owned s2 n'). unfold s2. by rewrite Ho3 // Hown.
  - unfold queue_locs at 1. rewrite Ht1. change (t_ring t1) with rb'. rewrite Hq1 Hq. by destruct front.
Qed.

(** A delayed publication. *)
Lemma delayed_outcome (s : BS) n payload delay now later rnd err wal :
  broker_inv s → fresh_for s n [msg_ID (created n payload now rnd s.1)] →
  logged (created n payload now rnd s.1) (b_wal s.2) = Ret err wal →
  ∃ res s' lb, Broker.PublishDelayed n payload delay now later rnd s = Ret res s' ∧
    broker_step s lb s' ∧ ∀ l, res = inr l → is_Some (heap s'.1 !! l).
Proof.
  intros Hb Hf He. set (m := created n payload now rnd s.1) in *.
  destruct (prepare_run s n payload now rnd _ _ Hb He) as (ts & t & Hk & Ht & Hl & Hb' & Hor & Hot & Hown).
  fold m in Hk, Ht, Hl, Hb', Hot, Hown. set (s0 := (mkStore _ _, _)) in *. set (l := fresh _) in *.
  destruct err as [e|].
  { assert (Broker.PublishDelayed n payload delay now later rnd s = Ret (inl e) s0) as E
      by (etrans; [apply Hk|done]).
    exists (inl e), s0, (mkLabel n [] [] [LogPublish m]). split_and!; [done| |done].
    apply (bs_publish_error s n payload now rnd delay later e wal); [|exact He]. right. by right. }
  assert (retryable m) as Hret by (unfold retryable; simpl; lia).
  destruct (fresh_publishable s s0 n t l m Hb' Ht Hl Hret Hf Hown Hor) as (_ & _ & Hi1 & Hno1).
  destruct (PublishDelayed_run 0 (s0.1, t) _ l m delay later Hi1 Hl Hret Hno1) as (s1 & E1 & _ & _ & Hl1 & _).
  set (s2 := replaced s0 n s1).
  assert (Broker.PublishDelayed n payload delay now later rnd s = Ret (inr l) (s2.1, count 1 0 0 0 s2.2)) as E.
  { etrans; [apply Hk|]. cbv beta iota.
    rewrite (bind_ret _ _ _ _ _ (zoom_ret (lens_topic n) _ s0 _ _
      ltac:(unfold view, lens_topic; rewrite Ht; exact E1))). done. }
  eexists _, _, _. split_and!; [exact E|eapply (bs_publish s n payload now rnd delay later l); [|exact Hf]|].
  - right. by right.
  - intros l' [= <-]. by eexists.
Qed.

(** ** Running a command *)

Lemma trace_app (s : BS) lbs1 s1 lbs2 s2 :
  broker_trace s lbs1 s1 → broker_trace s1 lbs2 s2 → broker_trace s (lbs1 ++ lbs2) s2.
Proof. induction 1; [done|]. intros. econstructor; eauto. Qed.

Lemma trace_one (s : BS) lb s1 : broker_step s lb s1 → broker_trace s [lb] s1.
Proof. intros. econstructor; [done|constructor]. Qed.

(** The program returns or parks, by broker steps. *)
Definition safe {A} (m : prog BS A) (s : BS) : Prop :=
  ∃ s' lbs, ((∃ a, m s = Ret a s') ∨ m s = Block s') ∧ broker_trace s lbs s'.

Lemma safe_ret {A} (m : prog BS A) s a : m s = Ret a s → safe m s.
Proof. intros E. exists s, []. split; [left; by exists a|constructor]. Qed.

Lemma safe_bind {A B} (m : prog BS A) (f : A → prog BS B) s a s1 lbs :
  m s = Ret a s1 → broker_trace s lbs s1 → safe (f a) s1 → safe (m ≫= f) s.
Proof.
  intros E Htr (s' & lbs' & Hr & Htr'). exists s', (lbs ++ lbs'). split; [|by eapply trace_app].
  by rewrite (bind_ret _ _ _ _ _ E).
Qed.

Lemma safe_step {A B} (m : prog BS A) (f : A → prog BS B) s a s1 lb :
  m s = Ret a s1 → broker_step s lb s1 → safe (f a) s1 → safe (m ≫= f) s.
Proof. intros E Hst. eapply safe_bind; [exact E|by apply trace_one]. Qed.

Lemma safe_pure {A B} (m : prog BS A) (f : A → prog BS B) s a :
  m s = Ret a s → safe (f a) s → safe (m ≫= f) s.
Proof. intros E. eapply safe_bind; [exact E|constructor]. Qed.

Lemma safe_park {A B} (m : prog BS A) (f : A → prog BS B) s s1 lb :
  m s = Block s1 → broker_step s lb s1 → safe (m ≫= f) s.
Proof. intros E Hst. exists s1, [lb]. split; [right; by apply bind_block|by apply trace_one]. Qed.

Lemma load_safe (s : BS) l : is_Some (heap s.1 !! l) → ∃ m, zoom lens_fst (load l) s = Ret m s.
Proof. intros [m Hm]. exists m. unfold zoom, load. simpl. rewrite Hm. by destruct s. Qed.

(** ** The calls, one by one *)

(** The statistics of a topic leave it as it is. *)
Lemma Stats_run (s : BS) n t :
  broker_inv s → b_topics s.2 !! n = Some t →
  ∃ st, zoom (lens_topic n) Topic.Stats s = Ret st s ∧ ts_Length st = Z.of_nat (length (queue_locs s n)).
Proof.
  intros Hb Ht. destruct (Stats_topic_run 0 (s.1, t) _ (bi_topics _ Hb n t Ht)) as (st & E & Hlen).
  exists st. unfold queue_locs. rewrite Ht. split; [|exact Hlen].
  rewrite (zoom_ret (lens_topic n) _ s st (s.1, t)); [by simpl; rewrite Ht|]. f_equal.
  destruct s as [σ b]. unfold set_topics. simpl. rewrite insert_id //. by destruct b.
Qed.

Lemma stats_loop_run (s : BS) order : ∀ acc d,
  broker_inv s → (∀ n, n ∈ order → is_Some (b_topics s.2 !! n)) →
  ∃ r, stats_loop order acc d s = Ret r s.
Proof.
  induction order as [|n order IH]; intros acc d Hb Hin; [by eexists|]. cbn [stats_loop].
  destruct (Hin n ltac:(by left)) as [t Ht]. destruct (Stats_run s n t Hb Ht) as (st & E & _).
  rewrite (bind_ret _ _ _ _ _ E). apply IH; [done|]. intros. apply Hin. by right.
Qed.

Lemma Broker_Stats_run (s : BS) order uptime :
  broker_inv s → (∀ n, n ∈ order → is_Some (b_topics s.2 !! n)) →
  ∃ st, Broker.Stats order uptime s = Ret st s.
Proof.
  intros Hb Hin. destruct (stats_loop_run s order [] 0 Hb Hin) as [r E].
  unfold Broker.Stats. rewrite (bind_ret _ _ _ _ _ E). by eexists.
Qed.

(** A consuming call: the head of the queue, or nothing yet. *)
Lemma Consume_detail (s : BS) n timeout t0 t1 :
  broker_inv s →
  match queue_locs s n with
  | [] => ∃ s', (Broker.Consume n timeout t0 t1 s = Ret (None, false) s' ∨
                 Broker.Consume n timeout t0 t1 s = Block s') ∧ broker_step s quiet s'
  | l :: q => ∃ s' m, Broker.Consume n timeout t0 t1 s = Ret (Some l, true) s' ∧
      broker_step s (mkLabel n [] [msg_ID m] []) s' ∧ broker_inv s' ∧ s'.1 = s.1 ∧
      heap s.1 !! l = Some m ∧ queue_locs s' n = q
  end.
Proof.
  intros Hb. destruct (b_topics s.2 !! n) as [t|] eqn:Ht; unfold queue_locs at 1; rewrite Ht.
  2:{ exists s. assert (Broker.Consume n timeout t0 t1 s = Ret (None, false) s) as E.
      { unfold Broker.Consume. rewrite (bind_ret _ _ _ _ _ (GetTopic_run s n)) Ht. done. }
      split; [by left|]. eapply bs_consume_none. by left. }
  pose proof (bi_topics _ Hb n t Ht) as Hi.
  pose proof (ConsumeWait_run 0 (s.1, t) _ timeout t0 t1 Hi) as Hr.
  destruct (ring_contents (t_ring t)) as [|l q] eqn:Hq.
  { destruct (Consume_outcome s n timeout t0 t1 Hb) as [(s' & E & _)|(l & m & s' & E & _)].
    - exists s'. split; [done|]. by eapply bs_consume_none.
    - exfalso. unfold Broker.Consume in E. rewrite (bind_ret _ _ _ _ _ (GetTopic_run s n)) Ht in E.
      rewrite bool_decide_true in E; [by eexists|]. unfold mbind, prog_bind, zoom in E. cbn [negb view lens_topic] in E.
      rewrite Ht in E. simpl in E. destruct Hr as [Er|Er]; rewrite Er in E; discriminate E. }
  destruct Hr as (s1 & m & E1 & Hs1 & Hm & Hi1 & _).
  set (s2 := replaced s n s1). exists (s2.1, count 0 1 0 0 s2.2), m.
  assert (Broker.Consume n timeout t0 t1 s = Ret (Some l, true) (s2.1, count 0 1 0 0 s2.2)) as E.
  { unfold Broker.Consume. rewrite (bind_ret _ _ _ _ _ (GetTopic_run s n)) Ht.
    rewrite bool_decide_true; [by eexists|]. cbn [negb].
    rewrite (bind_ret _ _ _ _ _ (zoom_ret (lens_topic n) _ s _ _
      ltac:(unfold view, lens_topic; rewrite Ht; exact E1))). done. }
  assert (broker_step s (mkLabel n [] [msg_ID m] []) (s2.1, count 0 1 0 0 s2.2)) as Hst by by eapply bs_consume.
  split_and!; [done|done|by apply (step_follows _ _ _ Hb Hst)|exact Hs1|done|].
  unfold queue_locs. simpl. rewrite lookup_insert_eq. exact (ring_of_inv _ _ _ Hi1).
Qed.

(** A group's consuming call: a message that exists, nothing, or a wait. *)
Lemma ConsumeGroup_detail (s : BS) n g c timeout t0 t1 now :
  broker_inv s →
  ∃ s', broker_step s quiet s' ∧
    (Broker.ConsumeGroup n g c timeout t0 t1 now s = Block s' ∨
     ∃ r, Broker.ConsumeGroup n g c timeout t0 t1 now s = Ret r s' ∧
       ∀ l, r = (Some l, true) → is_Some (heap s'.1 !! l)).
Proof.
  intros Hb. destruct (GetOrCreate_moved s n Hb) as (s0 & t & E0 & _ & Ht & Hb0 & _ & _).
  pose proof (bi_topics _ Hb0 n t Ht) as Hi.
  assert (∀ r s1, Topic.ConsumeGroup g c timeout t0 t1 now (s0.1, t) = Ret r s1 →
    ∃ s', Broker.ConsumeGroup n g c timeout t0 t1 now s = Ret r s' ∧ s'.1 = s1.1) as Hret.
  { intros r s1 E. unfold Broker.ConsumeGroup. rewrite (bind_ret _ _ _ _ _ E0).
    rewrite (bind_ret _ _ _ _ _ (zoom_ret (lens_topic n) _ s0 _ _
      ltac:(unfold view, lens_topic; rewrite Ht; exact E))).
    destruct (r.2); by eexists. }
  destruct (ConsumeGroup_outcome s n g c timeout t0 t1 now Hb) as (s' & E & _).
  exists s'. split; [by eapply bs_consume_group|]. destruct E as [[r E]|E]; [right|by left].
  exists r. split; [done|]. intros l ->.
  destruct (ring_contents (t_ring t)) as [|l' q].
  - destruct (ConsumeGroup_empty 0 _ g c timeout t0 t1 now Hi) as (s1 & [E1|E1] & _).
    + destruct (Hret _ _ E1) as (s2 & E2 & _). rewrite E in E2. discriminate E2.
    + exfalso. unfold Broker.ConsumeGroup in E. rewrite (bind_ret _ _ _ _ _ E0) in E.
      unfold mbind, prog_bind, zoom in E. cbn [view lens_topic] in E. rewrite Ht /= E1 in E. done.
  - destruct (ConsumeGroup_run 0 _ l' q g c timeout t0 t1 now Hi) as (s1 & m & E1 & Hi1 & _ & _ & _ & cg & Hg & Hp).
    destruct (Hret _ _ E1) as (s2 & E2 & Hs2). rewrite E in E2. injection E2 as -> ->. rewrite Hs2.
    destruct (core_pending _ _ _ _ _ _ (ti_core _ _ _ Hi1) _ _ _ _ Hg Hp) as (m' & Hm' & _). by exists m'.
Qed.

(** A consume without a timeout waits. *)
Lemma Consume_parks (s : BS) n t t0 t1 :
  broker_inv s → b_topics s.2 !! n = Some t → queue_locs s n = [] → Broker.Consume n 0 t0 t1 s = Block s.
Proof.
  intros Hb Ht Hq. unfold queue_locs in Hq. rewrite Ht in Hq. pose proof (bi_topics _ Hb n t Ht) as Hi. rewrite Hq in Hi.
  unfold Broker.Consume. rewrite (bind_ret _ _ _ _ _ (GetTopic_run s n)) Ht.
  rewrite bool_decide_true; [by eexists|]. cbn [negb]. apply bind_block.
  unfold zoom. cbn [view lens_topic]. rewrite Ht. cbn [default from_option id].
  rewrite (ConsumeWait_forever 0 (s.1, t) _ _ Hi). cbn.
  destruct s as [σ b]. unfold set_topics. cbn. rewrite insert_id //. by destruct b.
Qed.

(** The IDs a command creates with the readings from the [i]-th on. *)
Fixpoint reading_ids (r : readings) (i k : nat) (seq : Z) : list string :=
  match k with
  | O => []
  | S k' => message_id (rd_now r i) (u64 (seq + 1)) (rd_rand r i) :: reading_ids r (S i) k' (u64 (seq + 1))
  end.

(** The values with the readings of their messages, from the [i]-th on. *)
Definition readings_of (r : readings) (i : nat) (vals : list byte_slice) : list (byte_slice * Z * bytes) :=
  imap (λ j p, (p, rd_now r (i + j)%nat, rd_rand r (i + j)%nat)) vals.

Lemma readings_of_cons r i v vals :
  readings_of r i (v :: vals) = (v, rd_now r i, rd_rand r i) :: readings_of r (S i) vals.
Proof.
  unfold readings_of. cbn [imap]. rewrite Nat.add_0_r. f_equal. apply imap_ext. intros j x _. simpl.
  by rewrite Nat.add_succ_r.
Qed.

Lemma batch_reading_ids r payloads : ∀ i seq,
  batch_ids (readings_of r i payloads) seq = reading_ids r i (length payloads) seq.
Proof.
  induction payloads as [|p ps IH]; intros i seq; [done|]. rewrite readings_of_cons. cbn [batch_ids length reading_ids].
  by rewrite IH.
Qed.

(** The values whose message the log accepted. *)
Definition accepted_vals (errs : list error) (vals : list byte_slice) : list byte_slice :=
  snd <$> filter (λ p : error * byte_slice, p.1 = None) (zip errs vals).

Lemma accepted_all (vals : list byte_slice) : accepted_vals (replicate (length vals) None) vals = vals.
Proof.
  unfold accepted_vals. induction vals as [|v vals IH]; [done|]. cbn [length replicate zip zip_with].
  by rewrite filter_cons_True // fmap_cons IH.
Qed.

(** The queue after the values were pushed. *)
Definition pushed (front : bool) (vals q : list byte_slice) : list byte_slice :=
  if front then reverse vals ++ q else q ++ vals.

(** The payloads queued under a name, head first. *)
Definition payload_of (σ : Store) (l : loc) : byte_slice :=
  match heap σ !! l with Some m => msg_Payload m | None => None end.

Definition queue (s : BS) (n : string) : list byte_slice := payload_of s.1 <$> queue_locs s n.

Lemma queue_locs_allocated (s : BS) n l : broker_inv s → l ∈ queue_locs s n → is_Some (heap s.1 !! l).
Proof.
  unfold queue_locs. intros Hb. destruct (b_topics s.2 !! n) as [t|] eqn:Ht; [|by intros ?%elem_of_nil].
  intros Hl. destruct (core_queued _ _ _ _ _ _ (ti_core _ _ _ (bi_topics _ Hb n t Ht)) l) as (m & Hm & _).
  { apply elem_of_app. by left. }
  by exists m.
Qed.

Lemma payload_new_store (s : BS) m n :
  broker_inv s → payload_of (new_store m s.1) <$> queue_locs s n = queue s n.
Proof.
  intros Hb. apply list_fmap_ext. intros i l Hl. apply list_elem_of_lookup_2 in Hl.
  destruct (queue_locs_allocated s n l Hb Hl) as [m' Hm']. unfold payload_of, new_store. simpl.
  rewrite lookup_insert_ne //. intros E. pose proof (alloc_fresh s.1) as Hf. by rewrite E Hm' in Hf.
Qed.

Lemma push_all_run (front : bool) n r vals : ∀ i (s : BS) errs wal,
  broker_inv s → fresh_for s n (reading_ids r i (length vals) (globalSeq s.1)) →
  (vals ≠ [] ∨ is_Some (b_topics s.2 !! n)) →
  run_log (LogPublish <$> batch_messages n (readings_of r i vals) s.1) (b_wal s.2) = Ret errs wal →
  ∃ s' lbs, push_all front n vals i r s = Ret tt s' ∧ broker_trace s lbs s' ∧ broker_inv s' ∧
    is_Some (b_topics s'.2 !! n) ∧ queue s' n = pushed front (accepted_vals errs vals) (queue s n).
Proof.
  induction vals as [|v vals IH]; intros i s errs wal Hb Hf Hex Hlog.
  { destruct Hex as [|Hex]; [done|]. injection Hlog as <- <-. exists s, []. split_and!; [done|constructor|done|done|].
    unfold pushed. destruct front; by rewrite ?app_nil_r. }
  cbn [length reading_ids] in Hf. cbn [push_all]. rewrite readings_of_cons in Hlog.
  cbn [batch_messages fmap list_fmap run_log] in Hlog. set (m := created _ _ _ _ _) in *.
  unfold mbind, prog_bind in Hlog. destruct (logged m (b_wal s.2)) as [err wal1|wal1|] eqn:El; [|done|done].
  destruct (run_log _ wal1) as [errs' wal2|wal2|] eqn:Els; [|done|done]. injection Hlog as <- <-.
  destruct (push_outcome front s n v (rd_now r i) (rd_rand r i) _ err wal1 Hb Hf El)
    as (res & s1 & t1 & lb & E & Hst & Hb1 & Hs1 & Hw1 & Ht1 & Hf1 & Hres). fold m in Hs1.
  destruct (IH (S i) s1 errs' wal2 Hb1) as (s' & lbs & E' & Htr & Hb' & Hex' & Hq').
  { by rewrite Hs1. }
  { right. by exists t1. }
  { rewrite Hw1 (batch_messages_seq n _ s1.1 (mkStore (heap s.1) (u64 (globalSeq s.1 + 1)))) //. by rewrite Hs1. }
  exists s', (lb :: lbs). split_and!; [|by econstructor|done|done|].
  { destruct front; by rewrite (bind_ret _ _ _ _ _ E). }
  rewrite Hq'. unfold accepted_vals. cbn [zip zip_with]. destruct err as [e|].
  { rewrite filter_cons_False //. f_equal. destruct Hres as [_ Hq]. unfold queue at 1. rewrite Hq Hs1.
    by apply payload_new_store. }
  rewrite filter_cons_True //. cbn [fmap list_fmap snd]. destruct Hres as [_ Hq].
  assert (payload_of (new_store m s.1) (fresh (dom (heap s.1))) = v) as Hv.
  { unfold payload_of, new_store. simpl. by rewrite lookup_insert_eq. }
  unfold queue at 1. rewrite Hq Hs1. unfold pushed. destruct front.
  - rewrite fmap_cons Hv payload_new_store // reverse_cons -app_assoc. done.
  - rewrite fmap_app payload_new_store // fmap_cons Hv -app_assoc. done.
Qed.

Lemma ack_all_run n g ids : ∀ k (s : BS),
  broker_inv s → Forall (λ x, answered (LogAck n g (string_of_slice x))) ids →
  ∃ k' s' lbs, ack_all n g ids k s = Ret k' s' ∧ broker_trace s lbs s'.
Proof.
  induction ids as [|x ids IH]; intros k s Hb Hlog; [exists k, s, []; split; [done|constructor]|]. cbn [ack_all].
  apply Forall_cons in Hlog as [Hx Hlog]. destruct (Ack_answered s n g (string_of_slice x) Hb Hx) as (b & s1 & E).
  destruct (Ack_returned _ _ _ _ _ _ Hb E) as [Hb1 _].
  rewrite (bind_ret _ _ _ _ _ E). destruct (IH (if b then i64 (k + 1) else k) s1 Hb1 Hlog) as (k' & s' & lbs & E' & Htr).
  exists k', s'. eexists. split; [done|]. econstructor; [by eapply bs_ack|done].
Qed.

(** Subscribed channels are open. *)
Definition chans_open (s : BS) : Prop := ∀ channel subs ch,
  b_channels s.2 !! channel = Some subs → ch ∈ subs → is_open (b_chans s.2) ch.

Lemma Broadcast_run (s : BS) channel payload order :
  chans_open s → order ≡ₚ elements (default ∅ (b_channels s.2 !! channel)) →
  ∃ k s', Broadcast channel payload order s = Ret k s'.
Proof.
  intros Hop Hord. unfold Broadcast. glue. unfold id.
  destruct (b_channels s.2 !! channel) as [subs|] eqn:Hs; [|by eexists _, _].
  case_bool_decide; [by eexists _, _|]. simpl in Hord.
  destruct (broadcast_loop_spec payload order (b_chans s.2) 0) as (cs' & E & _).
  - rewrite Hord. apply NoDup_elements.
  - intros ch. rewrite Hord elem_of_elements. by apply (Hop channel).
  - rewrite E. by eexists _, _.
Qed.

(** ** The cases *)

Context (ut : bytes → bytes) (uf : bytes → list bytes).

Lemma safe_then {A B} (m : prog BS A) (f : A → prog BS B) s :
  safe m s → (∀ a s', safe (f a) s') → safe (m ≫= f) s.
Proof.
  intros (s' & lbs & [[a E]|E] & Htr) Hf.
  - by eapply safe_bind.
  - exists s', lbs. split; [right; by apply bind_block|done].
Qed.

Lemma reply_safe b ctl (s : BS) : safe (mret (b, ctl) : prog BS (bytes * control)) s.
Proof. by eapply safe_ret. Qed.

(** How many messages a command creates. *)
Definition publications (name : string) (args : list byte_slice) : nat :=
  if decide (name = "LPUSH" ∨ name = "RPUSH" ∨ name = "VMQ.PUBLISH_BATCH") then (length args - 1)%nat
  else if decide (name = "XADD" ∨ name = "VMQ.PUBLISH") then 1%nat else 0%nat.

(** The calls of the log that a command may make. *)
Definition command_calls (name : string) (args : list byte_slice) (r : readings) (σ : Store) : list log_call :=
  let topic := arg_string args 0 in
  if decide (name = "LPUSH" ∨ name = "RPUSH" ∨ name = "VMQ.PUBLISH_BATCH") then
    LogPublish <$> batch_messages topic (readings_of r 0 (drop 1 args)) σ
  else if decide (name = "XADD") then
    [LogPublish (created topic (Some (marshal_map (payload_map (drop 2 args) ∅))) (rd_now r 0) (rd_rand r 0) σ)]
  else if decide (name = "VMQ.PUBLISH") then
    [LogPublish (created topic (default None (args !! 1%nat)) (rd_now r 0) (rd_rand r 0) σ)]
  else if decide (name = "XACK") then
    (λ x, LogAck topic (arg_string args 1) (string_of_slice x)) <$> drop 2 args
  else if decide (name = "VMQ.ACK") then [LogAck topic (arg_string args 1) (arg_string args 2)]
  else [].

(** What is assumed of a command and its readings: the topics and the subscribers it
    iterates over are those of the broker; the IDs it creates are new, and the topic
    has room for them below its 50000; the log answers its records, with an error or
    not. *)
Record ready (name : string) (args : list byte_slice) (r : readings) (s : BS) : Prop := mkReady {
  rdy_topics : ∀ n, n ∈ rd_topics r → is_Some (b_topics s.2 !! n);
  rdy_subs : name = "VMQ.BROADCAST" →
    rd_subs r ≡ₚ elements (default ∅ (b_channels s.2 !! arg_string args 0));
  rdy_ids : fresh_for s (arg_string args 0) (reading_ids r 0 (publications name args) (globalSeq s.1));
  rdy_len : nargs args < 2 ^ 63;
  rdy_log : Forall answered (command_calls name args r s.1)
}.

Lemma case_INFO_safe args r s :
  broker_inv s → ready "INFO" args r s → safe (case_INFO args r) s.
Proof.
  intros Hb Hr. destruct (Broker_Stats_run s (rd_topics r) (rd_uptime r) Hb (rdy_topics _ _ _ _ Hr)) as [st E].
  eapply safe_pure; [exact E|apply reply_safe].
Qed.

Lemma case_STATS_safe args r s :
  broker_inv s → ready "VMQ.STATS" args r s → safe (case_VMQ_STATS args r) s.
Proof.
  intros Hb Hr. destruct (Broker_Stats_run s (rd_topics r) (rd_uptime r) Hb (rdy_topics _ _ _ _ Hr)) as [st E].
  eapply safe_pure; [exact E|apply reply_safe].
Qed.

Lemma topic_length_run (s : BS) n :
  broker_inv s → is_Some (b_topics s.2 !! n) →
  topic_length n s = Ret (Z.of_nat (length (queue s n))) s.
Proof.
  intros Hb [t Ht]. unfold topic_length. rewrite (bind_ret _ _ _ _ _ (GetTopic_run s n)) Ht.
  rewrite bool_decide_true; [by eexists|]. cbn [negb]. destruct (Stats_run s n t Hb Ht) as (st & E & Hl).
  rewrite (bind_ret _ _ _ _ _ E). unfold queue. rewrite length_fmap -Hl. done.
Qed.

Lemma case_PUSH_safe (front : bool) args r s :
  broker_inv s → ready (if front then "LPUSH" else "RPUSH") args r s → safe (case_PUSH front args r) s.
Proof.
  intros Hb Hr. unfold case_PUSH. destruct (Z.ltb_spec (nargs args) 2) as [_|Hlen]; [apply reply_safe|].
  pose proof (rdy_ids _ _ _ _ Hr) as Hf.
  assert (publications (if front then "LPUSH" else "RPUSH") args = length (drop 1 args)) as Hp.
  { rewrite length_drop. by destruct front. }
  rewrite Hp in Hf.
  assert (Forall answered (LogPublish <$> batch_messages (arg_string args 0) (readings_of r 0 (drop 1 args)) s.1)) as Hlog.
  { pose proof (rdy_log _ _ _ _ Hr) as Hlog. by destruct front. }
  destruct (run_log_answered _ Hlog (b_wal s.2)) as (errs & wal & El).
  destruct (push_all_run front (arg_string args 0) r (drop 1 args) 0 s errs wal Hb Hf) as (s' & lbs & E & Htr & Hb' & Hex & _).
  { left. unfold nargs in Hlen. destruct args as [|? [|??]]; simpl in *; [lia|lia|done]. }
  { exact El. }
  eapply safe_bind; [exact E|exact Htr|]. eapply safe_pure; [by apply topic_length_run|apply reply_safe].
Qed.

(** The consuming commands share their first two calls. *)
Lemma consume_safe {B} n timeout t0 t1 (f : option byte_slice → prog BS B) s :
  broker_inv s → (∀ p s', safe (f p) s') →
  safe (msg ← Broker.Consume n timeout t0 t1; p ← consumed_payload msg; f p) s.
Proof.
  intros Hb Hf. pose proof (Consume_detail s n timeout t0 t1 Hb) as Hc.
  destruct (queue_locs s n) as [|l q].
  - destruct Hc as (s' & [E|E] & Hst); [|by eapply safe_park].
    eapply safe_step; [exact E|exact Hst|]. by eapply safe_pure.
  - destruct Hc as (s' & m & E & Hst & _ & Hs & Hm & _). eapply safe_step; [exact E|exact Hst|].
    destruct (load_safe s' l) as [m' E'].
    { rewrite Hs. by exists m. }
    eapply safe_pure; [|apply Hf]. unfold consumed_payload. by rewrite (bind_ret _ _ _ _ _ E').
Qed.

Lemma case_POP_safe name args r s : broker_inv s → safe (case_POP name args r) s.
Proof.
  intros Hb. unfold case_POP. destruct (nargs args <? 1); [apply reply_safe|].
  apply consume_safe; [done|]. intros. apply reply_safe.
Qed.

Lemma case_BPOP_safe args r s : broker_inv s → safe (case_BPOP args r) s.
Proof.
  intros Hb. unfold case_BPOP. destruct (nargs args <? 2); [apply reply_safe|].
  apply consume_safe; [done|]. intros [p|] s'; apply reply_safe.
Qed.

Lemma case_CONSUME_safe args r s : broker_inv s → safe (case_VMQ_CONSUME args r) s.
Proof.
  intros Hb. unfold case_VMQ_CONSUME. destruct (nargs args <? 1); [apply reply_safe|].
  apply consume_safe; [done|]. intros [p|] s'; apply reply_safe.
Qed.

Lemma case_LLEN_safe args r s : broker_inv s → safe (case_LLEN args r) s.
Proof.
  intros Hb. unfold case_LLEN. destruct (negb _); [apply reply_safe|].
  set (n := arg_string args 0). eapply safe_pure; [apply GetTopic_run|]. case_bool_decide as Hex; [|apply reply_safe].
  destruct Hex as [t Ht]. destruct (Stats_run s n t Hb Ht) as (st & E & _).
  eapply safe_pure; [exact E|apply reply_safe].
Qed.

(** A publication, delayed or not. *)
Lemma publication_outcome (delayed : bool) (s : BS) n payload delay now later rnd :
  broker_inv s → fresh_for s n [msg_ID (created n payload now rnd s.1)] →
  answered (LogPublish (created n payload now rnd s.1)) →
  ∃ res s' lb, (if delayed then Broker.PublishDelayed n payload delay now later rnd
                else Broker.Publish n payload now rnd) s = Ret res s' ∧ broker_step s lb s' ∧
    ∀ l, res = inr l → is_Some (heap s'.1 !! l).
Proof.
  intros Hb Hf Hlog. destruct (Hlog (b_wal s.2)) as (err & wal & El). destruct delayed; [by eapply delayed_outcome|].
  destruct (push_outcome false s n payload now rnd [] err wal Hb Hf El) as (res & s' & t' & lb & E & Hst & _ & Hs & _ & _ & _ & Hres).
  exists res, s', lb. split_and!; [done|done|]. intros l ->. destruct err; [by destruct Hres|].
  destruct Hres as [[= ->] _]. rewrite Hs. eexists. apply lookup_insert_eq.
Qed.

(** Publishing one message and replying with its ID. *)
Lemma publish_one_safe (s : BS) n payload delay r :
  broker_inv s → fresh_for s n (reading_ids r 0 1 (globalSeq s.1)) →
  answered (LogPublish (created n payload (rd_now r 0) (rd_rand r 0) s.1)) →
  safe (res ← (if 0 <? delay then Broker.PublishDelayed n payload delay (rd_now r 0) (rd_later r) (rd_rand r 0)
               else Broker.Publish n payload (rd_now r 0) (rd_rand r 0)); reply_published res) s.
Proof.
  intros Hb Hf Hlog. destruct (publication_outcome (0 <? delay) s n payload delay _ (rd_later r) _ Hb Hf Hlog) as (res & s' & lb & E & Hst & Hl).
  eapply safe_step; [exact E|exact Hst|]. destruct res as [e|l]; [apply reply_safe|].
  destruct (load_safe s' l (Hl l eq_refl)) as [m Em]. eapply safe_pure; [exact Em|apply reply_safe].
Qed.

Lemma case_XADD_safe args r s :
  broker_inv s → ready "XADD" args r s → safe (case_XADD args r) s.
Proof.
  intros Hb Hr. unfold case_XADD. destruct (nargs args <? 3); [apply reply_safe|].
  apply (publish_one_safe s _ _ 0 r Hb); [apply (rdy_ids _ _ _ _ Hr)|]. by destruct (Forall_cons_1 _ _ _ (rdy_log _ _ _ _ Hr)).
Qed.

Lemma case_PUBLISH_safe args r s :
  broker_inv s → ready "VMQ.PUBLISH" args r s → safe (case_VMQ_PUBLISH args r) s.
Proof.
  intros Hb Hr. unfold case_VMQ_PUBLISH. destruct (nargs args <? 2); [apply reply_safe|].
  apply (publish_one_safe s _ _ _ r Hb); [apply (rdy_ids _ _ _ _ Hr)|]. by destruct (Forall_cons_1 _ _ _ (rdy_log _ _ _ _ Hr)).
Qed.

Lemma case_XGROUP_safe args r s : broker_inv s → safe (case_XGROUP ut args r) s.
Proof.
  intros Hb. unfold case_XGROUP. destruct (_ && _); [|apply reply_safe].
  destruct (GetOrCreate_moved s (arg_string args 1) Hb) as (s1 & t & E & _ & Ht & Hb1 & _).
  eapply safe_step; [exact E|by eapply bs_create_topic|].
  destruct (create_group_outcome s1 _ t (arg_string args 2) (30 * second) Hb1 Ht) as (s2 & E2 & _).
  eapply safe_step; [exact E2|by eapply bs_create_group|apply reply_safe].
Qed.

Lemma case_XREADGROUP_safe args r s : broker_inv s → safe (case_XREADGROUP ut args r) s.
Proof.
  intros Hb. unfold case_XREADGROUP. destruct (readgroup_args ut args "" "" 0) as [[[g c] n] ms].
  destruct (_ || _); [apply reply_safe|].
  destruct (ConsumeGroup_detail s n g c (i64 (ms * millisecond)) (rd_t0 r) (rd_t1 r) (rd_now r 0) Hb)
    as (s' & Hst & [E|([o b] & E & Hl)]).
  - by eapply safe_park.
  - eapply safe_step; [exact E|exact Hst|]. destruct o as [l|], b; try apply reply_safe.
    destruct (load_safe s' l (Hl l eq_refl)) as [m Em]. eapply safe_pure; [exact Em|apply reply_safe].
Qed.

Lemma case_XACK_safe args r s : broker_inv s → ready "XACK" args r s → safe (case_XACK args r) s.
Proof.
  intros Hb Hr. unfold case_XACK. destruct (nargs args <? 3); [apply reply_safe|].
  destruct (ack_all_run (arg_string args 0) (arg_string args 1) (drop 2 args) 0 s Hb) as (k & s' & lbs & E & Htr).
  { pose proof (rdy_log _ _ _ _ Hr) as Hlog. unfold command_calls in Hlog. cbn in Hlog. by rewrite Forall_fmap in Hlog. }
  eapply safe_bind; [exact E|exact Htr|apply reply_safe].
Qed.

Lemma case_ACK_safe args r s : broker_inv s → ready "VMQ.ACK" args r s → safe (case_VMQ_ACK args r) s.
Proof.
  intros Hb Hr. unfold case_VMQ_ACK. destruct (negb _); [apply reply_safe|].
  pose proof (rdy_log _ _ _ _ Hr) as [Hlog _]%Forall_cons.
  destruct (Ack_answered s (arg_string args 0) (arg_string args 1) (arg_string args 2) Hb Hlog) as (b & s' & E).
  eapply safe_step; [exact E|by eapply bs_ack|]. destruct b; apply reply_safe.
Qed.

Lemma case_NACK_safe args r s : broker_inv s → safe (case_VMQ_NACK args r) s.
Proof.
  intros Hb. unfold case_VMQ_NACK. destruct (nargs args <? 3); [apply reply_safe|].
  destruct (Nack_outcome s (arg_string args 0) (arg_string args 1) (arg_string args 2)
    (if 4 <=? nargs args then arg_string args 3 else "processing failed") (rd_now r 0) Hb) as (b & s' & E & _).
  eapply safe_step; [exact E|by eapply bs_nack|]. destruct b; apply reply_safe.
Qed.

Lemma case_REPLAY_safe args r s : broker_inv s → safe (case_VMQ_REPLAY args r) s.
Proof.
  intros Hb. unfold case_VMQ_REPLAY. destruct (negb _); [apply reply_safe|].
  destruct (ReplayDLQ_outcome s (arg_string args 0) (arg_string args 1) (rd_now r 0) Hb) as (res & s' & E & _).
  eapply safe_step; [exact E|by eapply bs_replay|]. destruct (res.2); apply reply_safe.
Qed.

Lemma case_BATCH_safe args r s :
  broker_inv s → ready "VMQ.PUBLISH_BATCH" args r s → safe (case_VMQ_PUBLISH_BATCH args r) s.
Proof.
  intros Hb Hr. unfold case_VMQ_PUBLISH_BATCH. destruct (nargs args <? 2); [apply reply_safe|].
  pose proof (rdy_len _ _ _ _ Hr) as Hlen. unfold nargs in Hlen.
  set (ps := batch_payloads (drop 1 args) r).
  assert (length ps = (length args - 1)%nat) as Hps by (unfold ps, batch_payloads; by rewrite length_imap length_drop).
  assert (fresh_for s (arg_string args 0) (batch_ids ps (globalSeq s.1))) as Hf.
  { change ps with (readings_of r 0 (drop 1 args)). rewrite batch_reading_ids length_drop. apply (rdy_ids _ _ _ _ Hr). }
  destruct (run_log_answered _ (rdy_log _ _ _ _ Hr) (b_wal s.2)) as (errs & wal & El).
  pose proof (PublishBatch_run s (arg_string args 0) ps Hb Hf ltac:(lia)) as Ho. unfold batch_outcome in Ho.
  change (LogPublish <$> batch_messages _ _ _) with (command_calls "VMQ.PUBLISH_BATCH" args r s.1) in Ho.
  rewrite El in Ho. destruct Ho as (s' & E & _).
  eapply safe_step; [exact E|eapply bs_batch; [exact E|lia|exact Hf]|apply reply_safe].
Qed.

Lemma case_BROADCAST_safe args r s :
  chans_open s → ready "VMQ.BROADCAST" args r s → safe (case_VMQ_BROADCAST args r) s.
Proof.
  intros Hop Hr. unfold case_VMQ_BROADCAST. destruct (negb _); [apply reply_safe|].
  destruct (Broadcast_run s (arg_string args 0) (arg args 1) (rd_subs r) Hop) as (k & s' & E).
  { by apply (rdy_subs _ _ _ _ Hr). }
  eapply safe_step; [exact E|by eapply bs_broadcast|apply reply_safe].
Qed.

Ltac switch_name :=
  match goal with
  | |- context [if decide (?n = ?x) then _ else _] => destruct (decide (n = x)) as [->|?]
  end.

Lemma switch_safe name args r s :
  broker_inv s → chans_open s → ready name args r s → safe (switch ut name args r) s.
Proof.
  intros Hb Hop Hr. unfold switch.
  switch_name; [unfold case_PING; destruct (0 <? nargs args); apply reply_safe|].
  switch_name; [unfold case_ECHO; destruct (0 <? nargs args); apply reply_safe|].
  switch_name; [apply reply_safe|].
  switch_name; [by apply case_INFO_safe|].
  switch_name; [by apply (case_PUSH_safe true)|].
  switch_name; [by apply (case_PUSH_safe false)|].
  switch_name; [by apply case_POP_safe|].
  switch_name; [by apply case_POP_safe|].
  switch_name; [by apply case_BPOP_safe|].
  switch_name; [by apply case_BPOP_safe|].
  switch_name; [by apply case_LLEN_safe|].
  switch_name; [by apply case_XADD_safe|].
  switch_name; [by apply case_XGROUP_safe|].
  switch_name; [by apply case_XREADGROUP_safe|].
  switch_name; [by apply case_XACK_safe|].
  switch_name; [by apply case_PUBLISH_safe|].
  switch_name; [by apply case_CONSUME_safe|].
  switch_name; [by apply case_ACK_safe|].
  switch_name; [by apply case_NACK_safe|].
  switch_name; [by apply case_REPLAY_safe|].
  switch_name; [by apply case_BATCH_safe|].
  switch_name; [by apply case_BROADCAST_safe|].
  switch_name; [by apply case_STATS_safe|].
  switch_name; [apply reply_safe|].
  apply reply_safe.
Qed.

Lemma serve_safe cfg cmd r c s :
  broker_inv s → chans_open s → ready (cmd_Name cmd) (cmd_Args cmd) r s → safe (serve ut cfg cmd r c) s.
Proof.
  intros Hb Hop Hr. unfold serve. destruct (_ && _); [by eapply safe_ret|].
  destruct (decide (cmd_Name cmd = "AUTH")); [by eapply safe_ret|].
  apply safe_then; [by apply switch_safe|]. intros [b ctl] s'. destruct ctl; by eapply safe_ret.
Qed.

(** C7: no command crashes the server or corrupts its messages.  Whatever the command and
    its arguments, on a broker that satisfies its invariant the handler returns a reply or
    waits in a blocking pop; it never panics; the effect on the messages is a sequence of
    broker steps, to which the conservation theorem applies; the invariant holds
    afterwards.  It is assumed that the IDs of the messages it publishes are new, that
    the topic has room for them below its 50000, and that the log answers the records of
    the command with an error or without one ([ready]); the log panics on a record whose
    length wraps around 32 bits, and the command with it. *)
Theorem command_safe cfg cmd r c s (Hb : broker_inv s) (Hop : chans_open s)
  (Hr : ready (cmd_Name cmd) (cmd_Args cmd) r s) :
  ∃ s' lbs, ((∃ c', serve ut cfg cmd r c s = Ret c' s') ∨
             serve ut cfg cmd r c s = Block s') ∧
    broker_trace s lbs s' ∧ broker_inv s'.
Proof.
  destruct (serve_safe cfg cmd r c s Hb Hop Hr) as (s' & lbs & E & Htr). exists s', lbs. split_and!; [done|done|]. by apply (trace_follows s lbs s' Htr).
Qed.

(** ** The list commands *)

Lemma first_arg name args : arg_string (Some (str name) :: args) 0 = name.
Proof. unfold arg_string, arg. simpl. apply String.string_of_list_byte_of_string. Qed.

Lemma case_PUSH_run front name vals r (s : BS) errs wal :
  broker_inv s → vals ≠ [] → fresh_for s name (reading_ids r 0 (length vals) (globalSeq s.1)) →
  run_log (LogPublish <$> batch_messages name (readings_of r 0 vals) s.1) (b_wal s.2) = Ret errs wal →
  ∃ s', case_PUSH front (Some (str name) :: vals) r s =
      Ret (WriteInteger (Z.of_nat (length (queue s' name))), Done) s' ∧
    broker_inv s' ∧ queue s' name = pushed front (accepted_vals errs vals) (queue s name).
Proof.
  intros Hb Hv Hf Hlog. unfold case_PUSH. rewrite first_arg. cbn [drop].
  rewrite (proj2 (Z.ltb_ge _ _)); [unfold nargs; destruct vals; [done|simpl; lia]|].
  destruct (push_all_run front name r vals 0 s errs wal Hb Hf (or_introl Hv) Hlog) as (s' & lbs & E & _ & Hb' & Hex & Hq).
  exists s'. split_and!; [|done|done]. rewrite (bind_ret _ _ _ _ _ E).
  by rewrite (bind_ret _ _ _ _ _ (topic_length_run s' name Hb' Hex)).
Qed.

Lemma case_POP_run cmd name v q r (s : BS) :
  broker_inv s → queue s name = v :: q →
  ∃ s', case_POP cmd [Some (str name)] r s = Ret (WriteBulkString v, Done) s' ∧ broker_inv s' ∧ queue s' name = q.
Proof.
  intros Hb Hv. pose proof (Consume_detail s name 0 (rd_t0 r) (rd_t1 r) Hb) as Hc. unfold queue in Hv.
  destruct (queue_locs s name) as [|l q']; [done|]. injection Hv as <- <-.
  destruct Hc as (s' & m & E & _ & Hb' & Hs & Hm & Hq). exists s'. split_and!; [|done|by rewrite /queue Hq Hs].
  unfold case_POP. rewrite first_arg. change (nargs [_] <? 1) with false. cbv iota.
  rewrite (bind_ret _ _ _ _ _ E). unfold consumed_payload, zoom, load. glue.
  rewrite Hs Hm. simpl. unfold payload_of. rewrite Hm -Hs. by destruct s'.
Qed.

(** A pop from an empty queue: the null bulk string if there is no topic of that
    name, a wait if there is one. *)
Lemma case_POP_empty cmd name r (s : BS) :
  broker_inv s → queue s name = [] →
  case_POP cmd [Some (str name)] r s =
    if b_topics s.2 !! name is Some _ then Block s else Ret (WriteBulkString None, Done) s.
Proof.
  intros Hb Hq. unfold case_POP. rewrite first_arg. change (nargs [_] <? 1) with false. cbv iota.
  destruct (b_topics s.2 !! name) as [t|] eqn:Ht.
  - by apply bind_block, (Consume_parks s name t); [| |apply fmap_nil_inv in Hq].
  - rewrite (bind_ret _ _ s (None, false) s) //. unfold Broker.Consume. by rewrite (bind_ret _ _ _ _ _ (GetTopic_run s name)) Ht.
Qed.

(** C16: the list commands implement a queue of payloads.  [RPUSH] appends its
    values and [LPUSH] puts them in front, one by one, except those whose message
    the log refuses ([errs] are the answers of the log, which must not panic), and both
    reply with the new length; [LPOP] and [RPOP] reply with the first payload and
    remove it (both take the head), on an empty queue they wait, and without a topic
    they reply the null bulk string; [LLEN] replies with the length and changes
    nothing.  The IDs of the messages must be new and the topic must have room for
    them below its 50000. *)
Theorem list_commands_queue (s : BS) name vals r errs wal (Hb : broker_inv s) (Hv : vals ≠ [])
  (Hf : fresh_for s name (reading_ids r 0 (length vals) (globalSeq s.1)))
  (Hlog : run_log (LogPublish <$> batch_messages name (readings_of r 0 vals) s.1) (b_wal s.2) = Ret errs wal) :
  (∀ front : bool, ∃ s', case_PUSH front (Some (str name) :: vals) r s =
       Ret (WriteInteger (Z.of_nat (length (queue s' name))), Done) s' ∧
     broker_inv s' ∧ queue s' name = pushed front (accepted_vals errs vals) (queue s name)) ∧
  (∀ cmd, match queue s name with
   | [] => case_POP cmd [Some (str name)] r s =
       if b_topics s.2 !! name is Some _ then Block s else Ret (WriteBulkString None, Done) s
   | v :: q => ∃ s', case_POP cmd [Some (str name)] r s = Ret (WriteBulkString v, Done) s' ∧
       broker_inv s' ∧ queue s' name = q
   end) ∧
  case_LLEN [Some (str name)] r s = Ret (WriteInteger (Z.of_nat (length (queue s name))), Done) s.
Proof.
  split_and!; [intros front; by eapply case_PUSH_run| |].
  - intros cmd. destruct (queue s name) as [|v q] eqn:Hq; [by apply case_POP_empty|by apply case_POP_run].
  - unfold case_LLEN. rewrite first_arg. change (nargs [_] =? 1) with true. cbn [negb].
    rewrite (bind_ret _ _ _ _ _ (GetTopic_run s name)). case_bool_decide as Hex.
    + destruct Hex as [t Ht]. destruct (Stats_run s name t Hb Ht) as (st & E & Hl).
      rewrite (bind_ret _ _ _ _ _ E) Hl. unfold queue. by rewrite length_fmap.
    + unfold queue, queue_locs. destruct (b_topics s.2 !! name); [by destruct Hex|done].
Qed.

(** [LPOP] and [RPOP] do not answer on an empty queue.  On a topic that
    exists and has nothing queued the handler parks, without a timeout, instead
    of replying with the null bulk string; the state is unchanged. *)
Theorem empty_pop_parks (s : BS) name t r cmd (Hb : broker_inv s) (Ht : b_topics s.2 !! name = Some t)
  (Hq : queue s name = []) : case_POP cmd [Some (str name)] r s = Block s.
Proof.
  unfold case_POP. change (nargs [_] <? 1) with false. cbv iota.
  assert (arg_string [Some (str name)] 0 = name) as -> by apply gostring_str.
  apply bind_block, (Consume_parks s name t); [done|done|by apply fmap_nil_inv in Hq].
Qed.
End commands.

(** ** Witnesses *)

Definition push_readings : readings := mkReadings (λ i, 1000 + Z.of_nat i) (λ _, [x00; x01]) 1000 0 0 [] [] 5 true.

Lemma command_safe_witness :
  ∃ s' lbs, ((∃ c', serve id (mkServerConfig "" "" 0)
                      (mkCommand "RPUSH" [Some (str "orders"); Some (str "a"); Some (str "b")]) push_readings
                      (mkConn true [] 0 true) (demo_broker false) = Ret c' s') ∨
             serve id (mkServerConfig "" "" 0)
               (mkCommand "RPUSH" [Some (str "orders"); Some (str "a"); Some (str "b")]) push_readings
               (mkConn true [] 0 true) (demo_broker false) = Block s') ∧
    broker_trace (demo_broker false) lbs s' ∧ broker_inv s'.
Proof.
  apply (command_safe id).
  - apply NewBroker_inv.
  - by intros ? ? ?.
  - split; [|done| |done|].
    + by intros ? ?%elem_of_nil.
    + apply demo_fresh; [apply (bool_decide_unpack _); by vm_compute|by vm_compute].
    + repeat constructor; apply demo_answered.
Defined.

(** A log that accepts everything. *)
Definition null_wal : BrokerWAL unit :=
  {| Broker.WritePublish := λ _, mret None; Broker.WriteAck := λ _ _ _, mret None; wal_Close := mret None |}.

(** The broker of a daemon that has just started on an empty directory, and what its
    log is after two publications. *)
Definition logged_broker : Store * Broker WS := (mkStore ∅ 0, NewBroker (Some (new_wal FsyncAlways))).

Definition two_values : list byte_slice := [Some (str "a"); Some (str "b")].

Definition log_after : result (option WS) (list error) :=
  run_log (H := wal_contract) (LogPublish <$> batch_messages "jobs" (readings_of push_readings 0 two_values) (mkStore ∅ 0))
    (Some (new_wal FsyncAlways)).

Lemma list_commands_queue_witness :
  ∃ s', case_PUSH (H := wal_contract) false (Some (str "jobs") :: two_values) push_readings logged_broker =
      Ret (WriteInteger (Z.of_nat (length (queue s' "jobs"))), Done) s' ∧
    broker_inv s' ∧ queue s' "jobs" = two_values.
Proof.
  destruct (list_commands_queue (H := wal_contract) logged_broker "jobs" two_values push_readings
    [None; None] (if log_after is Ret _ wal then wal else None)) as [Hpush _].
  - apply NewBroker_inv.
  - done.
  - split_and!; [apply (bool_decide_unpack _); by vm_compute| |by vm_compute].
    intros n x _. apply not_elem_of_nil.
  - by vm_compute.
  - exact (Hpush false).
Defined.

Definition empty_jobs : Store * Broker (bool * list string) :=
  match GetOrCreateTopic "jobs" (demo_broker false) with Ret _ s => s | _ => demo_broker false end.

Lemma empty_pop_parks_witness : case_POP "lpop" [Some (str "jobs")] push_readings empty_jobs = Block empty_jobs.
Proof.
  destruct (GetOrCreate_moved (demo_broker false) "jobs" (NewBroker_inv _ _)) as (s' & t & E & _ & Ht & Hb & _).
  assert (empty_jobs = s') as Es by (unfold empty_jobs; by rewrite E).
  rewrite Es. apply (empty_pop_parks s' "jobs" t push_readings "lpop" Hb Ht).
  rewrite -Es. by vm_compute.
Defined.
