(* ===== verification/Session.v ===== *)
(** * Sessions: from packets to replies

    [Server] serves commands that are values read from a stream.  Here the loop
    of [handleConnection] in [src/internal/network/server.go] runs over the
    buffered reader of [BufReader]: commands come out of the packets of the
    network, their arguments are slices of memory, whether a reply is flushed
    depends on what the buffer holds, and a message that was created from an
    argument keeps the slice ([NewMessage] does not copy its payload).

    Shown: for commands in array form, in whatever packets they arrive, the loop
    is the one of [Server] and serves the commands one after the other
    ([wire_session]); pushing values and popping them over one connection yields
    the values, byte for byte ([wire_queue]); for inline commands it yields other
    bytes ([inline_session_corrupts]).

    One connection is modelled: the messages of others are not in its buffer.
    The payload of [VMQ.BROADCAST] is not followed into the channels. *)

From S2P Require Import BufReader.
From S2P Require Import Prelude GoText Message RingBuffer TimingWheel DeadLetter ConsumerGroup.
From S2P Require Import Topic Custody TopicSafety Broker BrokerSafety MessageJson Resp.
From S2P Require Import Server ServerSafety CommandSafety Wal WalDurable.

(** ** Payloads that share the buffer *)

(** The slices of the buffer that messages hold, by the ID of the message; a
    clone has the ID and the payload slice of its original. *)
Abbreviation aliases := (gmap string BufReader.slice).

Definition set_Payload (p : byte_slice) (m : Message) : Message :=
  mkMessage (msg_ID m) (msg_Topic m) p (msg_Headers m) (msg_Priority m)
    (msg_Timestamp m) (msg_DeliverAt m) (msg_RetryCount m) (msg_MaxRetries m) (msg_ConsumerID m)
    (msg_AckDeadline m) (msg_FailureCause m).

(** What the program sees of a message when the buffer is that of [b]. *)
Definition seen (b : BufReader.Reader) (al : aliases) (m : Message) : Message :=
  match al !! msg_ID m with Some sl => set_Payload (Some (contents b sl)) m | None => m end.

Definition refresh (b : BufReader.Reader) (al : aliases) (σ : Store) : Store :=
  mkStore (seen b al <$> heap σ) (globalSeq σ).

(** The arguments that the cases of the switch hand to [NewMessage]. *)
Definition kept (cmd : SliceCommand) : list (option BufReader.slice) :=
  if decide (sc_Name cmd ∈ ["LPUSH"; "RPUSH"; "VMQ.PUBLISH_BATCH"]) then drop 1 (sc_Args cmd) else
  if decide (sc_Name cmd = "VMQ.PUBLISH") then take 1 (drop 1 (sc_Args cmd)) else [].

(** Those that lie in the buffer, with the IDs of their messages. *)
Definition held (cmd : SliceCommand) (r : readings) (seq : Z) : list (string * BufReader.slice) :=
  omap (λ p : string * option BufReader.slice, match p.2 with Some (InBuf o n) => Some (p.1, InBuf o n) | _ => None end)
    (zip (reading_ids r 0 (length (kept cmd)) seq) (kept cmd)).

Definition set_idle (idle : bool) (r : readings) : readings :=
  mkReadings (rd_now r) (rd_rand r) (rd_later r) (rd_t0 r) (rd_t1 r) (rd_topics r) (rd_subs r) (rd_uptime r) idle.

(** [reader.Buffered() == 0] *)
Definition with_idle (b : BufReader.Reader) : readings → readings := set_idle (BufReader.Buffered b =? 0)%nat.

Record session : Type := mkSession {
  se_reader : BufReader.Reader;
  se_conn : Conn;
  se_aliases : aliases
}.

Section sessions.
Context {W : Type} `{BrokerWAL W}.
Context (ut : bytes → bytes) (us : bytes → list (nat * nat)).

Abbreviation BS := (Store * Broker W)%type.

(** The loop, for as many rounds as there are readings. *)
Fixpoint session_loop (cfg : ServerConfig) (rs : list readings) (se : session) : prog BS session :=
  match rs with
  | [] => mret se
  | r :: rs' =>
      match BufReader.ReadCommand ut us (se_reader se) with
      | inl (_, b) =>
          modify lens_fst (refresh b (se_aliases se));;
          mret (mkSession b (hang_up (se_conn se)) (se_aliases se))
      | inr (cmd, b) =>
          modify lens_fst (refresh b (se_aliases se));;
          seq ← gets lens_fst globalSeq;
          c ← serve ut cfg (view_command b cmd) (with_idle b r) (se_conn se);
          let al := if c_authenticated (se_conn se)
                    then list_to_map (held cmd r seq) ∪ se_aliases se else se_aliases se in
          if c_open c then session_loop cfg rs' (mkSession b c al) else mret (mkSession b c al)
      end
  end.

(** ** Commands served one after the other *)

Fixpoint serve_all (cfg : ServerConfig) (rs : list readings) (cmds : list Command) (c : Conn) : prog BS Conn :=
  match rs with
  | [] => mret c
  | r :: rs' =>
      match cmds with
      | [] => mret (hang_up c)
      | cmd :: cmds' =>
          c' ← serve ut cfg cmd r c;
          if c_open c' then serve_all cfg rs' cmds' c' else mret c'
      end
  end.

(** ** Nothing is shared by commands in array form *)

Lemma refresh_nothing b σ : refresh b ∅ σ = σ.
Proof.
  unfold refresh. destruct σ as [h seq]. f_equal. rewrite -{2}(map_fmap_id h). apply map_fmap_ext.
  intros l m _. unfold seen. by rewrite lookup_empty.
Qed.

Lemma held_own cmd r seq (args : list byte_slice) : sc_Args cmd = fmap (M := option) Own <$> args → held cmd r seq = [].
Proof.
  intros Ha. unfold held. assert (Forall (λ a, ∀ o n, a ≠ Some (InBuf o n)) (kept cmd)) as Hk.
  { assert (Forall (λ a, ∀ o n, a ≠ Some (InBuf o n)) (sc_Args cmd)) as Hall.
    { rewrite Ha Forall_fmap. apply Forall_true. by intros [a|]. }
    unfold kept. repeat case_decide; [by apply Forall_drop|by apply Forall_take, Forall_drop|done]. }
  generalize (reading_ids r 0 (length (kept cmd)) seq). induction Hk as [|a k Hn _ IH]; intros ids; [by destruct ids|].
  destruct ids as [|i ids]; [done|]. cbn [zip zip_with omap list_omap snd fst].
  destruct a as [[o n|d]|]; [by destruct (Hn o n)|apply IH|apply IH].
Qed.

(** Readings that differ in what the buffer decides. *)
Definition like (r r' : readings) : Prop := r' = set_idle (rd_idle r') r.

Lemma like_refl r : like r r.
Proof. by destruct r. Qed.

Lemma likes_refl rs : Forall2 like rs rs.
Proof. induction rs; constructor; [apply like_refl|done]. Qed.

Lemma refresh_step b (s : BS) : modify lens_fst (refresh b ∅) s = Ret tt s.
Proof. destruct s as [σ br]. unfold modify, lens_fst. cbn [view over fst snd]. by rewrite refresh_nothing. Qed.

(** A stream all of whose commands are in array form. *)
Fixpoint array_form (n : nat) (input : bytes) : Prop :=
  match n with
  | O => True
  | S n' => match Resp.ReadCommand ut (unicode_fields us) input with
            | inl _ => True
            | inr (_, input') => head input = Some "*"%byte ∧ array_form n' input'
            end
  end.

(** A result of the loop over the buffer that is one of the loop of [Server]. *)
Definition same_end (x : result BS session) (y : result BS Conn) : Prop :=
  match x, y with
  | Ret se s, Ret c s' => se_conn se = c ∧ se_aliases se = ∅ ∧ s = s'
  | Block s, Block s' => s = s'
  | Panic, Panic => True
  | _, _ => False
  end.

Lemma session_loop_array cfg : spans_inside us → ∀ rs b c (s : BS),
  reader_ok b → array_form (length rs) (pending b) →
  ∃ rs', Forall2 like rs rs' ∧
    same_end (session_loop cfg rs (mkSession b c ∅) s)
             (handleConnection ut (unicode_fields us) cfg rs' (pending b) c s).
Proof.
  intros Hus. induction rs as [|r rs IH]; intros b c s Hb Ha; [by exists []|]. cbn [length array_form] in Ha.
  cbn [session_loop se_reader se_conn se_aliases handleConnection].
  pose proof (ReadCommand_agree ut us Hus b Hb) as Hag.
  pose proof (λ c0 b0, array_args_own ut us b c0 b0 Hb) as Hown.
  destruct (BufReader.ReadCommand ut us b) as [[e b']|[cmd b']];
    destruct (Resp.ReadCommand ut (unicode_fields us) (pending b)) as [e'|[cmd' input']] eqn:Er; try done.
  { exists (r :: rs). split; [apply likes_refl|].
    cbn [handleConnection]. rewrite Er (bind_ret _ _ _ _ _ (refresh_step b' s)). done. }
  destruct Hag as (Hb' & -> & ->). destruct Ha as [Hstar Ha].
  destruct (Hown cmd b' Hstar eq_refl) as [args Hargs].
  rewrite (bind_ret _ _ _ _ _ (refresh_step b' s)) (bind_ret (gets lens_fst globalSeq) _ s (globalSeq s.1) s) //.
  rewrite (held_own _ _ _ args Hargs). cbn [list_to_map foldr].
  assert ((if c_authenticated c then (∅ : aliases) ∪ ∅ else ∅) = ∅) as Eal.
  { destruct (c_authenticated c); [apply map_empty_union|done]. }
  destruct (serve ut cfg (view_command b' cmd) (with_idle b' r) c s) as [c' s'|s'|] eqn:Es.
  - destruct (IH b' c' s' Hb' Ha) as (rs' & Hl & Hend). exists (with_idle b' r :: rs').
    split; [by constructor|]. cbn [handleConnection]. rewrite Er !(bind_ret _ _ _ _ _ Es) Eal.
    by destruct (c_open c').
  - exists (with_idle b' r :: rs). split; [by constructor; [|apply likes_refl]|].
    cbn [handleConnection]. by rewrite Er !(bind_block _ _ _ _ Es).
  - exists (with_idle b' r :: rs). split; [by constructor; [|apply likes_refl]|].
    cbn [handleConnection]. rewrite Er. unfold mbind, prog_bind. by rewrite Es.
Qed.

(** ** Commands on the wire *)

Definition as_command (c : sent) : Command := mkCommand (gostring (ToUpper ut (default [] c.1))) c.2.

Lemma ReadCommand_wire uf c rest : sent_ok c → Resp.ReadCommand ut uf (wire c ++ rest) = inr (as_command c, rest).
Proof. destruct c as [name args]. intros [Hok Hlen]. by apply ReadCommand_array. Qed.

Lemma array_form_wire cs : Forall sent_ok cs → ∀ n, array_form n (cs ≫= wire).
Proof.
  induction 1 as [|c cs Hc _ IH]; intros [|n]; [done|done|done|]. cbn [array_form].
  by rewrite bind_cons ReadCommand_wire.
Qed.

(** The loop of [Server] on them serves them in order, until the input ends. *)
Lemma handleConnection_wire uf cfg cs : Forall sent_ok cs → ∀ rs c (s : BS),
  handleConnection ut uf cfg rs (cs ≫= wire) c s = serve_all cfg rs (as_command <$> cs) c s.
Proof.
  induction 1 as [|cmd cs Hc _ IH]; intros [|r rs] c s; [done|done|done|].
  rewrite bind_cons. cbn [handleConnection serve_all fmap list_fmap]. rewrite ReadCommand_wire //.
  unfold mbind, prog_bind. destruct (serve ut cfg (as_command cmd) r c s) as [c' s'|s'|]; [|done|done].
  destruct (c_open c'); [apply IH|done].
Qed.

(** ** Pushing and popping *)

Lemma serve_done cfg name args r c (s : BS) b s' :
  c_authenticated c = true → name ≠ "AUTH" → switch ut name args r s = Ret (b, Done) s' →
  ∃ c', serve ut cfg (mkCommand name args) r c s = Ret c' s' ∧ c_out c' = c_out c ++ b ∧
    c_authenticated c' = true ∧ c_open c' = c_open c.
Proof.
  intros Ha Hn E. unfold serve. rewrite Ha. cbn [negb andb cmd_Name cmd_Args].
  destruct (decide (name = "AUTH")); [done|]. rewrite (bind_ret _ _ _ _ _ E).
  eexists. split; [done|]. unfold flush_if_idle. destruct (rd_idle r); by cbn.
Qed.

Definition push_command (name : string) (vals : list byte_slice) : sent := (Some (str "RPUSH"), Some (str name) :: vals).

Definition pop_command (name : string) : sent := (Some (str "LPOP"), [Some (str name)]).

Lemma serve_pops cfg name q : ∀ rs c (s : BS),
  broker_inv s → queue s name = q → c_authenticated c = true → c_open c = true → length rs = S (length q) →
  ∃ c' s', serve_all cfg rs (as_command <$> replicate (length q) (pop_command name)) c s = Ret c' s' ∧
    c_out c' = c_out c ++ (q ≫= WriteBulkString) ∧ c_flushed c' = length (c_out c') ∧
    broker_inv s' ∧ queue s' name = [].
Proof.
  induction q as [|v q IH]; intros [|r rs] c s Hb Hq Ha Ho Hl; [done| |done|].
  { exists (hang_up c), s. by rewrite /= app_nil_r. }
  injection Hl as Hl. cbn [length replicate fmap list_fmap serve_all].
  destruct (case_POP_run "lpop" name v q r s Hb Hq) as (s1 & E & Hb1 & Hq1).
  destruct (serve_done cfg "LPOP" [Some (str name)] r c s _ s1 Ha ltac:(done) E) as (c1 & E1 & Hout & Ha1 & Ho1).
  rewrite (bind_ret _ _ _ _ _ E1) Ho1 Ho. destruct (IH rs c1 s1 Hb1 Hq1 Ha1) as (c' & s' & E' & Hout' & Hrest).
  - by rewrite Ho1.
  - done.
  - exists c', s'. split_and!; [done| |apply Hrest..]. by rewrite Hout' Hout bind_cons app_assoc.
Qed.

Lemma like_ids r r' k : like r r' → ∀ i seq, reading_ids r' i k seq = reading_ids r i k seq.
Proof. intros ->. induction k as [|k IH]; intros i seq; [done|]. cbn [reading_ids]. by rewrite IH. Qed.

Lemma like_readings r r' vals : like r r' → readings_of r' 0 vals = readings_of r 0 vals.
Proof. by intros ->. Qed.

Lemma packets_served cfg cs packets rs c (s : BS) :
  spans_inside us → Forall sent_ok cs → Forall (λ p, p ≠ []) packets → concat packets = cs ≫= wire →
  ∃ rs', Forall2 like rs rs' ∧
    same_end (session_loop cfg rs (mkSession (BufReader.NewReader packets) c ∅) s)
             (serve_all cfg rs' (as_command <$> cs) c s).
Proof.
  intros Hus Hcs Hp Hbytes.
  assert (pending (BufReader.NewReader packets) = cs ≫= wire) as Epend.
  { rewrite -Hbytes. unfold pending. by rewrite (nil_length_inv (window _)); [rewrite length_window //; by apply NewReader_ok|]. }
  destruct (session_loop_array cfg Hus rs (BufReader.NewReader packets) c s) as (rs' & Hl & Hend).
  - by apply NewReader_ok.
  - rewrite Epend. by apply array_form_wire.
  - exists rs'. split; [done|]. by rewrite Epend handleConnection_wire in Hend.
Qed.
(** C17: however the network divides them into packets, commands in array form are
    served one after the other.  A client sends any commands [cs] and closes its
    side; the bytes arrive in any packets.  The loop over the buffered reader
    performs exactly the calls on the broker, and writes exactly the replies, of
    serving the commands in order (until one of them ends the session, blocks or
    the input ends); when a reply is flushed may depend on the packets ([like]),
    nothing else does.  No message holds a slice of the buffer. *)
Theorem wire_session cfg cs packets rs c (s : BS) (Hus : spans_inside us) (Hcs : Forall sent_ok cs)
  (Hp : Forall (λ p, p ≠ []) packets) (Hbytes : concat packets = cs ≫= wire) :
  ∃ rs', Forall2 like rs rs' ∧
    same_end (session_loop cfg rs (mkSession (BufReader.NewReader packets) c ∅) s)
             (serve_all cfg rs' (as_command <$> cs) c s).
Proof. by apply packets_served. Qed.

(** C18: a queue over the wire.  An authenticated client pushes values, whatever bytes
    they contain (within the limits of the protocol), to a topic with nothing queued,
    with IDs that are new and room for them below the 50000 of the topic, and pops as
    many as the log accepted ([errs] are the answers of the log; it must not panic),
    over one connection, in any packets.  Then everything the client is sent, all of it
    flushed, is the number of accepted values followed by these values in their order,
    each byte for byte; and the topic is empty again. *)
Theorem wire_queue cfg name vals packets r rs c (s : BS) errs wal (Hus : spans_inside us) (Hb : broker_inv s)
  (Hlog : run_log (LogPublish <$> batch_messages name (readings_of r 0 vals) s.1) (b_wal s.2) = Ret errs wal)
  (Hq : queue s name = []) (Hv : vals ≠ [])
  (Hf : fresh_for s name (reading_ids r 0 (length vals) (globalSeq s.1)))
  (Ha : c_authenticated c = true) (Ho : c_open c = true) (Hok : sent_ok (push_command name vals))
  (Hrs : length rs = S (length (accepted_vals errs vals))) (Hp : Forall (λ p, p ≠ []) packets)
  (Hbytes : concat packets =
    (push_command name vals :: replicate (length (accepted_vals errs vals)) (pop_command name)) ≫= wire) :
  ∃ se s', session_loop cfg (r :: rs) (mkSession (BufReader.NewReader packets) c ∅) s = Ret se s' ∧
    c_out (se_conn se) = c_out c ++ WriteInteger (Z.of_nat (length (accepted_vals errs vals))) ++
      (accepted_vals errs vals ≫= WriteBulkString) ∧
    c_flushed (se_conn se) = length (c_out (se_conn se)) ∧ broker_inv s' ∧ queue s' name = [].
Proof.
  set (acc := accepted_vals errs vals) in *.
  set (cs := push_command name vals :: replicate (length acc) (pop_command name)) in *.
  assert (sent_ok (pop_command name)) as Hpop.
  { destruct Hok as [Hargs _]. apply Forall_cons in Hargs as [_ Hargs]. apply Forall_cons in Hargs as [Hn _].
    split; [|by vm_compute]. by repeat constructor. }
  destruct (packets_served cfg cs packets (r :: rs) c s Hus) as (rs' & Hl & Hend); [|done|done|].
  { constructor; [done|]. by apply Forall_replicate. }
  apply Forall2_cons_inv_l in Hl as (r' & rs1 & Hr & Hl & ->). apply Forall2_length in Hl.
  destruct (case_PUSH_run false name vals r' s errs wal Hb Hv) as (s1 & E & Hb1 & Hq1);
    [by rewrite (like_ids r r')|by rewrite (like_readings r r')|].
  rewrite Hq /= -/acc in Hq1. rewrite Hq1 in E.
  destruct (serve_done cfg "RPUSH" (Some (str name) :: vals) r' c s _ s1 Ha ltac:(done) E) as (c1 & E1 & Hout & Ha1 & Ho1).
  destruct (serve_pops cfg name acc rs1 c1 s1 Hb1 Hq1 Ha1) as (c2 & s2 & E2 & Hout2 & Hfl & Hb2 & Hq2);
    [by rewrite Ho1|lia|].
  cbn [cs fmap list_fmap serve_all] in Hend. unfold cs in Hend. cbn [fmap list_fmap serve_all] in Hend.
  rewrite (bind_ret _ _ _ _ _ E1) Ho1 Ho E2 in Hend.
  destruct (session_loop cfg (r :: rs) _ s) as [se s'|?|]; [|done|done]. destruct Hend as (<- & _ & ->).
  exists se, s2. split_and!; [done| |done|done|done]. by rewrite Hout2 Hout -app_assoc.
Qed.

End sessions.

(** ** Inline commands *)

Definition inline_lines : list bytes :=
  (λ l, str l ++ CRLF) <$> ["LPUSH jobs hello"; "LPUSH jobs world"; "LPOP jobs"; "LPOP jobs"].

Definition empty_broker : Store * Broker unit := (mkStore ∅ 0, NewBroker (Some tt)).

Definition open_conn : Conn := mkConn true [] 0 true.

(** Everything a session wrote. *)
Definition written {A} (out : A → Conn) (r : result (Store * Broker unit) A) : option bytes :=
  match r with Ret a _ => Some (c_out (out a)) | _ => None end.

(** A message pushed with an inline command does not keep its payload.  Two
    values are pushed and both are popped again, in inline form, each command in a
    packet of its own: the client gets the second value twice and the first never,
    because the payload of the first message is a slice of the reader's buffer.  With
    values instead of slices it would get both. *)
Theorem inline_session_corrupts :
  written se_conn (session_loop (H := null_wal) demo_upper demo_spans (mkServerConfig "" "" 0)
      (replicate 4 push_readings) (mkSession (BufReader.NewReader inline_lines) open_conn ∅) empty_broker) =
    Some (WriteInteger 1 ++ WriteInteger 2 ++ WriteBulkString (Some (str "world")) ++ WriteBulkString (Some (str "world"))) ∧
  written id (handleConnection (H := null_wal) demo_upper (unicode_fields demo_spans) (mkServerConfig "" "" 0)
      (replicate 4 push_readings) (concat inline_lines) open_conn empty_broker) =
    Some (WriteInteger 1 ++ WriteInteger 2 ++ WriteBulkString (Some (str "world")) ++ WriteBulkString (Some (str "hello"))).
Proof. split; vm_compute; reflexivity. Qed.

(** ** Witnesses *)

(** The same in array form, cut in the middle of a bulk string. *)
Definition array_bytes : bytes :=
  (push_command "jobs" [Some (str "a"); Some (str "b")] :: replicate 2 (pop_command "jobs")) ≫= wire.

Definition array_packets : list bytes := [take 29 array_bytes; drop 29 array_bytes].

Lemma wire_session_witness :
  ∃ rs', Forall2 like [push_readings] rs' ∧
    same_end (session_loop (H := null_wal) demo_upper demo_spans (mkServerConfig "" "" 0) [push_readings]
        (mkSession (BufReader.NewReader array_packets) open_conn ∅) empty_broker)
      (serve_all (H := null_wal) demo_upper (mkServerConfig "" "" 0) rs'
        (as_command demo_upper <$> push_command "jobs" [Some (str "a"); Some (str "b")] :: replicate 2 (pop_command "jobs"))
        open_conn empty_broker).
Proof.
  apply (wire_session (H := null_wal)).
  - apply demo_spans_inside.
  - repeat constructor; by vm_compute.
  - by repeat constructor.
  - by vm_compute.
Defined.

Lemma wire_queue_witness :
  ∃ se s', session_loop (H := wal_contract) demo_upper demo_spans (mkServerConfig "" "" 0)
      (push_readings :: replicate 3 push_readings)
      (mkSession (BufReader.NewReader array_packets) open_conn ∅) logged_broker = Ret se s' ∧
    c_out (se_conn se) = WriteInteger 2 ++ WriteBulkString (Some (str "a")) ++ WriteBulkString (Some (str "b")).
Proof.
  destruct (wire_queue (H := wal_contract) demo_upper demo_spans (mkServerConfig "" "" 0) "jobs"
    two_values array_packets push_readings (replicate 3 push_readings) open_conn logged_broker [None; None]
    (if log_after is Ret _ wal then wal else None)) as (se & s' & E & Hout & _).
  - apply demo_spans_inside.
  - apply NewBroker_inv.
  - by vm_compute.
  - by vm_compute.
  - done.
  - split_and!; [apply (bool_decide_unpack _); by vm_compute| |by vm_compute].
    intros n x _. apply not_elem_of_nil.
  - done.
  - done.
  - repeat constructor; by vm_compute.
  - done.
  - by repeat constructor.
  - by vm_compute.
  - exists se, s'. split; [exact E|exact Hout].
Defined.
