(* ===== verification/Api.v ===== *)
(** * The HTTP API

    Models [src/internal/api/server.go]: the routes, the CORS middleware and
    the handlers, each from the request to the response and the calls it makes
    on the broker.

    A [Request] is what [net/http] hands to a handler: the method, the decoded
    path, the parsed query, and the body with whether reading it failed.  What
    the outside world supplies to one request is the record [http_env]: the
    clock, the random bytes and the order in which the runtime iterates over
    the topics.  Responses made by [net/http] itself, the files of the studio
    and the redirection of a path that is not in its clean form, are parameters
    of the model: they do not reach the broker. *)

From stdpp Require Import sorting.
From S2P Require Import Prelude GoText Message RingBuffer TimingWheel DeadLetter ConsumerGroup.
From S2P Require Import Topic Custody TopicSafety Broker Encoding Json GoFloat MessageJson.

Record ServerConfig : Type := mkServerConfig { cfg_Addr : string }.

(** [httpServer] is the listener's address once [Start] was called. *)
Record Server : Type := mkServer { sv_cfg : ServerConfig; sv_httpServer : option string }.

Definition NewServer (cfg : ServerConfig) : Server :=
  mkServer (if decide (cfg_Addr cfg = "") then mkServerConfig ":8380" else cfg) None.

Definition Start (sv : Server) : Server := mkServer (sv_cfg sv) (Some (cfg_Addr (sv_cfg sv))).

(** [Stop]; what [Shutdown] returns depends on the context it is given. *)
Definition Stop (Shutdown : string → error) (sv : Server) : error :=
  match sv_httpServer sv with Some addr => Shutdown addr | None => None end.

Record Request : Type := mkRequest {
  rq_Method : string;
  rq_Path : bytes;
  rq_Query : list (string * string);
  rq_Body : bytes;
  rq_BodyErr : bool
}.

(** [r.URL.Query().Get(key)]: the first value, or the empty string. *)
Definition Query_Get (key : string) (r : Request) : string :=
  match filter (λ kv, kv.1 = key) (rq_Query r) with
  | kv :: _ => kv.2
  | [] => ""
  end.

Record Response : Type := mkResponse {
  rp_Status : Z;
  rp_Header : gmap string string;
  rp_Body : bytes
}.

Record http_env : Type := mkEnv {
  env_now : Z;
  env_rand : bytes;
  env_later : Z;
  env_t0 : Z;
  env_t1 : Z;
  env_topics : list string;
  env_uptime : Z
}.

(** ** Responses *)

Definition StatusOK : Z := 200.

Definition StatusNoContent : Z := 204.

Definition StatusBadRequest : Z := 400.

Definition StatusNotFound : Z := 404.

Definition StatusMethodNotAllowed : Z := 405.

Definition StatusInternalServerError : Z := 500.

Definition newline : bytes := [x0a].

(** [w.Header().Set("Content-Type", "application/json")] and
    [json.NewEncoder(w).Encode(v)]. *)
Definition Encode (v : json) : Response :=
  mkResponse StatusOK {["Content-Type" := "application/json"]} (print_json v ++ newline).

(** [http.Error(w, msg, code)] *)
Definition http_Error (msg : bytes) (code : Z) : Response :=
  mkResponse code
    (<["Content-Type" := "text/plain; charset=utf-8"]> {["X-Content-Type-Options" := "nosniff"]})
    (msg ++ newline).

(** A JSON object with one member, as the handlers spell it. *)
Definition error_text (msg : string) : bytes :=
  "{"%byte :: x22 :: str "error" ++ x22 :: ":"%byte :: x22 :: str msg ++ x22 :: ["}"%byte].

Definition json_strings (l : list string) : json := JArr (json_string <$> l).

Definition cors_headers : gmap string string :=
  <["Access-Control-Allow-Origin" := "*"]>
  (<["Access-Control-Allow-Methods" := "GET, POST, PUT, DELETE, OPTIONS"]>
   {["Access-Control-Allow-Headers" := "Content-Type, Authorization"]}).

(** ** Paths *)

(** [strings.Split(s, "/")]: at least one part. *)
Fixpoint split_slash (s : bytes) : list bytes :=
  match s with
  | [] => [[]]
  | c :: s' =>
      if decide (c = "/"%byte) then [] :: split_slash s'
      else match split_slash s' with
           | p :: ps => (c :: p) :: ps
           | [] => [[c]]
           end
  end.

Definition TrimPrefix (prefix s : bytes) : bytes :=
  if decide (take (length prefix) s = prefix) then drop (length prefix) s else s.

Definition HasPrefix (prefix s : bytes) : bool := bool_decide (take (length prefix) s = prefix).

(** [path.Clean] of a rooted path, as the stack of its segments. *)
Fixpoint clean_segments (segs stack : list bytes) : list bytes :=
  match segs with
  | [] => reverse stack
  | p :: segs' =>
      if decide (p = [] ∨ p = str ".") then clean_segments segs' stack else
      if decide (p = str "..") then clean_segments segs' (list.tail stack) else
      clean_segments segs' (p :: stack)
  end.

(** [cleanPath] of [net/http]: a trailing slash is kept. *)
Definition cleanPath (p : bytes) : bytes :=
  let p := match p with
           | [] => str "/"
           | c :: _ => if decide (c = "/"%byte) then p else "/"%byte :: p
           end in
  let segs := clean_segments (split_slash p) [] in
  let np := concat (map (cons "/"%byte) segs) in
  if decide (segs = []) then str "/"
  else if decide (last p = Some "/"%byte) then np ++ str "/" else np.

Inductive endpoint : Type :=
| Stats_ | Topics_ | TopicAction_ | DLQ_ | DLQReplay_ | DLQPurge_ | Studio_.

Definition topics_prefix : bytes := str "/api/v1/topics/".

(** The patterns of [Start]; the longest one that matches wins. *)
Definition route (path : bytes) : endpoint :=
  if decide (path = str "/api/v1/stats") then Stats_ else
  if decide (path = str "/api/v1/topics") then Topics_ else
  if HasPrefix topics_prefix path then TopicAction_ else
  if decide (path = str "/api/v1/dlq") then DLQ_ else
  if decide (path = str "/api/v1/dlq/replay") then DLQReplay_ else
  if decide (path = str "/api/v1/dlq/purge") then DLQPurge_ else Studio_.

(** ** Values of unknown type *)

Definition member_le (a b : string * json) : Prop := String.leb a.1 b.1 = true.

Global Instance member_le_dec : RelDecision member_le := λ a b, decide (String.leb a.1 b.1 = true).

(** A JSON object as a [map[string]any]: of equal keys the last one stays; it is
    printed in the order of its keys. *)
Definition as_map (ms : list (string * json)) : list (string * json) :=
  merge_sort member_le (map_to_list (list_to_map (reverse ms) : gmap string json)).

(** A value decoded into an [any] and marshalled again; [None] when a number is
    out of range. *)
Fixpoint decode_any (v : json) : option json :=
  match v with
  | JNum lit => JNum <$> float_text lit
  | JArr vs => JArr <$> mapM decode_any vs
  | JObj ms =>
      ms' ← mapM (λ kv, (λ w, (gostring kv.1, w)) <$> decode_any kv.2) ms;
      Some (JObj ((λ kv, (str kv.1, kv.2)) <$> as_map ms'))
  | _ => Some v
  end.

(** ** The body of a publication *)

Record publish_req : Type := mkPublishReq { pr_Payload : option json; pr_DelayMs : Z }.

(** One member of the body; the flag is cleared by a value of the wrong type,
    after which decoding goes on. *)
Definition publish_member (st : publish_req * bool) (kv : bytes * json) : publish_req * bool :=
  let '(req, ok) := st in
  let k := gostring (fold_name kv.1) in
  if decide (k = "PAYLOAD") then
    match kv.2 with
    | JNull => (mkPublishReq None (pr_DelayMs req), ok)
    | v => match decode_any v with
           | Some p => (mkPublishReq (Some p) (pr_DelayMs req), ok)
           | None => (req, false)
           end
    end
  else if decide (k = "DELAY_MS") then
    match get_int64 (pr_DelayMs req) kv.2 with
    | Some d => (mkPublishReq (pr_Payload req) d, ok)
    | None => (req, false)
    end
  else (req, ok).

(** [json.Unmarshal(body, &req)]: the struct and whether the error is [nil]. *)
Definition decode_publish (body : bytes) : publish_req * bool :=
  let zero := mkPublishReq None 0 in
  match parse_json body with
  | None => (zero, false)
  | Some (JObj ms) => fold_left publish_member ms (zero, true)
  | Some JNull => (zero, true)
  | Some _ => (zero, false)
  end.

(** The payload that is published: the string itself, the JSON text of another
    value, or the body as it is. *)
Definition publish_payload (body : bytes) : bytes :=
  match decode_publish body with
  | (mkPublishReq (Some (JStr s)) _, true) => s
  | (mkPublishReq (Some v) _, true) => print_json v
  | _ => body
  end.

Definition publish_delay_ms (body : bytes) : Z := pr_DelayMs (decode_publish body).1.

(** ** The body of a replay *)

(** [json.NewDecoder(r.Body).Decode(&req)]: the first value of the body; what
    follows it is not read. *)
Fixpoint replay_members (ms : list (bytes * json)) (topic id : string) : option (string * string) :=
  match ms with
  | [] => Some (topic, id)
  | (key, v) :: ms' =>
      let k := gostring (fold_name key) in
      if decide (k = "TOPIC") then t ← get_string topic v; replay_members ms' t id else
      if decide (k = "ID") then i ← get_string id v; replay_members ms' topic i else
      replay_members ms' topic id
  end.

Definition decode_replay (body : bytes) : option (string * string) :=
  match parse_value (S (2 * length body)) 0 body with
  | Some (JObj ms, _) => replay_members ms "" ""
  | Some (JNull, _) => Some ("", "")
  | _ => None
  end.

Definition millisecond : Z := 1000000.

(** ** The handlers *)

Section api.
Context {W : Type} `{BrokerWAL W}.
Context (studio redirect : Request → Response).

Abbreviation BS := (Store * Broker W)%type.

Abbreviation handler := (Request → http_env → prog BS Response).

Definition handleStats : handler := λ _ env,
  stats ← Broker.Stats (env_topics env) (env_uptime env);
  mret (Encode (broker_stats_json stats)).

Definition handleTopics : handler := λ _ env,
  topics ← TopicsList (env_topics env);
  mret (Encode (JObj [(str "count", json_int (Z.of_nat (length topics))); (str "topics", json_strings topics)])).

(** The parts of the path: the topic and the action. *)
Definition action_parts (path : bytes) : option (string * string) :=
  match split_slash (TrimPrefix topics_prefix path) with
  | [] => None
  | topic :: rest =>
      if decide (topic = []) then None
      else Some (gostring topic, match rest with action :: _ => gostring action | [] => "" end)
  end.

Definition publish_action (topicName : string) : handler := λ r env,
  if rq_BodyErr r then mret (http_Error (error_text "failed to read request body") StatusBadRequest) else
  let payload := publish_payload (rq_Body r) in
  let delay := publish_delay_ms (rq_Body r) in
  res ← (if 0 <? delay
         then Broker.PublishDelayed topicName (Some payload) (i64 (delay * millisecond)) (env_now env)
                (env_later env) (env_rand env)
         else Broker.Publish topicName (Some payload) (env_now env) (env_rand env));
  match res with
  | inl err => mret (http_Error (error_text err) StatusInternalServerError)
  | inr msg =>
      m ← zoom lens_fst (load msg);
      mret (Encode (JObj [(str "id", json_string (msg_ID m)); (str "status", json_string "published");
                          (str "topic", json_string topicName)]))
  end.

Definition consume_action (topicName : string) : handler := λ r env,
  let timeoutMs := (Atoi (str (Query_Get "timeout_ms" r))).1 in
  res ← Broker.Consume topicName (i64 (timeoutMs * millisecond)) (env_t0 env) (env_t1 env);
  match res with
  | (Some msg, true) =>
      m ← zoom lens_fst (load msg);
      mret (Encode (JObj (message_members m)))
  | _ => mret (mkResponse StatusNoContent ∅ [])
  end.

Definition handleTopicAction : handler := λ r env,
  match action_parts (rq_Path r) with
  | None => mret (http_Error (error_text "missing topic name") StatusBadRequest)
  | Some (topicName, action) =>
      if decide (action = "publish" ∧ rq_Method r = "POST") then publish_action topicName r env else
      if decide (action = "consume" ∧ rq_Method r = "GET") then consume_action topicName r env else
      mret (http_Error (error_text "unsupported topic action") StatusNotFound)
  end.

(** The entries of a dead letter queue as JSON, with the messages they point to. *)
Fixpoint load_entries (es : list DeadLetterEntry) : prog BS (list json) :=
  match es with
  | [] => mret []
  | e :: es' =>
      m ← zoom lens_fst (load (dle_Message e));
      rest ← load_entries es';
      mret (JObj [(str "message", JObj (message_members m)); (str "failed_at", json_int (dle_FailedAt e));
                  (str "failure_cause", json_string (dle_FailureCause e));
                  (str "attempts", json_int (dle_Attempts e))] :: rest)
  end.

(** [entries = append(entries, t.DLQ().List(0, n)...)] for each topic. *)
Fixpoint list_topics (names : list string) (n : Z) (entries : list DeadLetterEntry)
  : prog BS (list DeadLetterEntry) :=
  match names with
  | [] => mret entries
  | name :: names' =>
      ok ← GetTopic name;
      if (ok : bool) then
        es ← zoom (lens_topic name) (DLQ (List_ 0 n));
        list_topics names' n (entries ++ default [] es)
      else list_topics names' n entries
  end.

(** The entries of one topic, or of all; [None] is [nil]. *)
Definition dead_letters (topicName : string) (env : http_env) : prog BS (option (list DeadLetterEntry)) :=
  if decide (topicName = "") then
    names ← TopicsList (env_topics env);
    entries ← list_topics names 50 [];
    mret (if decide (entries = []) then None else Some entries)
  else
    ok ← GetTopic topicName;
    if (ok : bool) then zoom (lens_topic topicName) (DLQ (List_ 0 100)) else mret None.

Definition handleDLQ : handler := λ r env,
  entries ← dead_letters (Query_Get "topic" r) env;
  js ← load_entries (default [] entries);
  mret (Encode (match entries with None => JNull | Some _ => JArr js end)).

Definition handleDLQReplay : handler := λ r env,
  if negb (bool_decide (rq_Method r = "POST"))
  then mret (http_Error (error_text "method not allowed") StatusMethodNotAllowed) else
  match decode_replay (rq_Body r) with
  | Some (topic, id) =>
      if decide (topic = "" ∨ id = "")
      then mret (http_Error (error_text "topic and id required") StatusBadRequest) else
      res ← ReplayDLQ topic id (env_now env);
      match res with
      | (Some msg, true) =>
          m ← zoom lens_fst (load msg);
          mret (Encode (JObj [(str "id", json_string (msg_ID m)); (str "status", json_string "replayed");
                              (str "topic", json_string topic)]))
      | _ => mret (http_Error (error_text "failed to replay message") StatusNotFound)
      end
  | None => mret (http_Error (error_text "topic and id required") StatusBadRequest)
  end.

Fixpoint purge_topics (names : list string) (count : Z) : prog BS Z :=
  match names with
  | [] => mret count
  | name :: names' =>
      ok ← GetTopic name;
      if (ok : bool) then
        n ← zoom (lens_topic name) (DLQ Purge);
        purge_topics names' (i64 (count + n))
      else purge_topics names' count
  end.

Definition handleDLQPurge : handler := λ r env,
  let topicName := Query_Get "topic" r in
  count ← (if decide (topicName = "") then names ← TopicsList (env_topics env); purge_topics names 0
           else purge_topics [topicName] 0);
  mret (Encode (JObj [(str "count", json_int count); (str "status", json_string "purged")])).

(** [mux.ServeHTTP] *)
Definition mux : handler := λ r env,
  if decide (cleanPath (rq_Path r) ≠ rq_Path r ∧ rq_Method r ≠ "CONNECT") then mret (redirect r) else
  match route (rq_Path r) with
  | Stats_ => handleStats r env
  | Topics_ => handleTopics r env
  | TopicAction_ => handleTopicAction r env
  | DLQ_ => handleDLQ r env
  | DLQReplay_ => handleDLQReplay r env
  | DLQPurge_ => handleDLQPurge r env
  | Studio_ => mret (studio r)
  end.

Definition corsMiddleware (next : handler) : handler := λ r env,
  if decide (rq_Method r = "OPTIONS") then mret (mkResponse StatusOK cors_headers []) else
  resp ← next r env;
  mret (mkResponse (rp_Status resp) (rp_Header resp ∪ cors_headers) (rp_Body resp)).

(** [s.httpServer.Handler] *)
Definition Handler : handler := corsMiddleware mux.
End api.
