(* ===== verification/ApiSafety.v ===== *)
(** * What the HTTP API promises

    Every request, with any method, path, query and body, is answered or waits
    in the blocking pop of a consume, and what it does to the messages is a
    sequence of broker steps.  A payload published over HTTP comes back from a
    consume over HTTP unchanged; purging and listing dead letters are exact;
    refused requests change nothing. *)

From S2P Require Import Prelude GoText Message RingBuffer TimingWheel DeadLetter ConsumerGroup.
From S2P Require Import Topic Custody TopicSafety Broker BrokerSafety Encoding Json GoFloat MessageJson.
From S2P Require Import Resp Server CommandSafety Api.

Section api_safety.
Context {W : Type} `{BrokerWAL W}.
Context (studio redirect : Request → Response).

Abbreviation BS := (Store * Broker W)%type.

(** The message a request to publish creates. *)
Definition request_id (env : http_env) (s : BS) : string :=
  message_id (env_now env) (u64 (globalSeq s.1 + 1)) (env_rand env).

(** The message a publication over HTTP hands to the log. *)
Definition request_message (topic : string) (r : Request) (env : http_env) (s : BS) : Message :=
  created topic (Some (publish_payload (rq_Body r))) (env_now env) (env_rand env) s.1.

(** What is assumed of a request and its environment: the topics it iterates over are
    those of the broker; and, if it is a publication, that the ID of its message is new,
    the topic has room for it below its 50000, and the log answers its record, with an
    error or not.  Nothing is asked of the topic of any other request. *)
Record env_ready (r : Request) (env : http_env) (s : BS) : Prop := mkEnvReady {
  er_topics : ∀ n, n ∈ env_topics env → is_Some (b_topics s.2 !! n);
  er_publish : ∀ topic, rq_Method r = "POST" → action_parts (rq_Path r) = Some (topic, "publish") →
    fresh_for s topic [request_id env s] ∧ answered (LogPublish (request_message topic r env s))
}.

Lemma respond_safe (resp : Response) (s : BS) : safe (mret resp : prog BS Response) s.
Proof. by eapply safe_ret. Qed.

Lemma handleStats_safe r env s : broker_inv s → env_ready r env s → safe (handleStats r env) s.
Proof.
  intros Hb Hr. destruct (Broker_Stats_run s (env_topics env) (env_uptime env) Hb (er_topics _ _ _ Hr)) as [st E].
  eapply safe_pure; [exact E|apply respond_safe].
Qed.

Lemma TopicsList_run (s : BS) order :
  TopicsList order s = Ret (filter (λ n, is_Some (b_topics s.2 !! n)) order) s.
Proof. done. Qed.

Lemma handleTopics_safe r env s : safe (handleTopics r env) s.
Proof. eapply safe_pure; [apply TopicsList_run|apply respond_safe]. Qed.

(** ** Publishing and consuming *)

Lemma publish_action_safe n r env s :
  broker_inv s → fresh_for s n [request_id env s] → answered (LogPublish (request_message n r env s)) →
  safe (publish_action n r env) s.
Proof.
  intros Hb Hf Hlog. unfold publish_action. destruct (rq_BodyErr r); [apply respond_safe|].
  destruct (publication_outcome (0 <? publish_delay_ms (rq_Body r)) s n (Some (publish_payload (rq_Body r)))
    (i64 (publish_delay_ms (rq_Body r) * Api.millisecond)) (env_now env) (env_later env) (env_rand env) Hb Hf Hlog)
    as (res & s' & lb & E & Hst & Hl).
  eapply safe_step; [exact E|exact Hst|]. destruct res as [e|l]; [apply respond_safe|].
  destruct (load_safe s' l (Hl l eq_refl)) as [m Em]. eapply safe_pure; [exact Em|apply respond_safe].
Qed.

Lemma consume_action_safe n r env s : broker_inv s → safe (consume_action n r env) s.
Proof.
  intros Hb. unfold consume_action.
  pose proof (Consume_detail s n (i64 ((Atoi (str (Query_Get "timeout_ms" r))).1 * Api.millisecond)) (env_t0 env) (env_t1 env) Hb) as Hc.
  destruct (queue_locs s n) as [|l q].
  - destruct Hc as (s' & [E|E] & Hst); [|by eapply safe_park].
    eapply safe_step; [exact E|exact Hst|apply respond_safe].
  - destruct Hc as (s' & m & E & Hst & _ & Hs & Hm & _). eapply safe_step; [exact E|exact Hst|].
    destruct (load_safe s' l) as [m' Em]; [rewrite Hs; by eexists|]. eapply safe_pure; [exact Em|apply respond_safe].
Qed.

Lemma handleTopicAction_safe r env s : broker_inv s → env_ready r env s → safe (handleTopicAction r env) s.
Proof.
  intros Hb Hr. unfold handleTopicAction. destruct (action_parts (rq_Path r)) as [[n a]|] eqn:Ha; [|apply respond_safe].
  case_decide as Hp; [destruct Hp as [-> Hm]; destruct (er_publish _ _ _ Hr n Hm Ha); by apply publish_action_safe|].
  case_decide; [by apply consume_action_safe|apply respond_safe].
Qed.

(** ** Dead letters *)

(** The entries of the dead letter queue of a topic, oldest first. *)
Definition dead_entries (s : BS) (n : string) : list DeadLetterEntry :=
  match b_topics s.2 !! n with Some t => (dlq_view (t_dlq t)).*2 | None => [] end.

(** Reading a topic's dead letters leaves the broker as it is. *)
Lemma List_broker_run (s : BS) n t k :
  broker_inv s → b_topics s.2 !! n = Some t → 0 ≤ k < 2 ^ 63 →
  zoom (lens_topic n) (DLQ (List_ 0 k)) s =
    Ret (if decide (dead_entries s n = []) then None else Some (take (Z.to_nat k) (dead_entries s n))) s.
Proof.
  intros Hb Ht Hk. pose proof (core_dlq _ _ _ _ _ _ (ti_core _ _ _ (bi_topics _ Hb n t Ht))) as Hd. cbn in Hd.
  pose proof (List_run (t_dlq t) 0 k Hd ltac:(lia) ltac:(lia) ltac:(unfold is_i64; lia)) as E.
  unfold dead_entries. rewrite Ht. unfold DLQ.
  assert (zoom lens_dlq (List_ 0 k) (s.1, t) =
    Ret (if Z.of_nat (length (dlq_view (t_dlq t))) <=? 0 then None
         else Some (take (Z.to_nat k) (dlq_view (t_dlq t))).*2) (s.1, t)) as E1.
  { etrans; [exact (zoom_ret lens_dlq _ (s.1, t) _ _ E)|]. cbn. by destruct t. }
  etrans; [apply (zoom_ret (lens_topic n)); cbn [view lens_topic]; rewrite Ht; exact E1|].
  f_equal.
  - destruct (dlq_view (t_dlq t)) as [|v vs]; [done|]. destruct (decide _) as [?|_]; [done|]. by rewrite fmap_take.
  - destruct s as [σ b]. unfold set_topics. simpl. rewrite insert_id //. by destruct b.
Qed.

(** The pages the handler collects. *)
Definition pages (s : BS) (names : list string) (k : nat) : list DeadLetterEntry :=
  names ≫= λ n, take k (dead_entries s n).

Lemma list_topics_run (s : BS) names k : ∀ acc,
  broker_inv s → 0 ≤ k < 2 ^ 63 → list_topics names k acc s = Ret (acc ++ pages s names (Z.to_nat k)) s.
Proof.
  induction names as [|n names IH]; intros acc Hb Hk; [by rewrite app_nil_r|]. cbn [list_topics].
  rewrite (bind_ret _ _ _ _ _ (GetTopic_run s n)). unfold pages. rewrite bind_cons. fold (pages s names (Z.to_nat k)).
  destruct (b_topics s.2 !! n) as [t|] eqn:Ht.
  - rewrite bool_decide_true; [by eexists|]. rewrite (bind_ret _ _ _ _ _ (List_broker_run s n t k Hb Ht Hk)) IH //.
    rewrite -app_assoc. do 2 f_equal. case_decide as Hn; [by rewrite Hn take_nil|done].
  - rewrite bool_decide_false; [by intros [? ?]|]. rewrite IH //. unfold dead_entries. by rewrite Ht take_nil.
Qed.

(** The messages of the entries. *)
Definition entry_message (s : BS) (e : DeadLetterEntry) : Message :=
  default zero_message (heap s.1 !! dle_Message e).

Definition entry_json (s : BS) (e : DeadLetterEntry) : json :=
  JObj [(str "message", JObj (message_members (entry_message s e))); (str "failed_at", json_int (dle_FailedAt e));
        (str "failure_cause", json_string (dle_FailureCause e)); (str "attempts", json_int (dle_Attempts e))].

Lemma load_entries_run (s : BS) es :
  (∀ e, e ∈ es → is_Some (heap s.1 !! dle_Message e)) → load_entries es s = Ret (entry_json s <$> es) s.
Proof.
  induction es as [|e es IH]; intros Hin; [done|]. cbn [load_entries fmap list_fmap].
  destruct (Hin e ltac:(by left)) as [m Hm].
  assert (zoom lens_fst (load (dle_Message e)) s = Ret m s) as E
    by (unfold zoom, load; cbn; rewrite Hm; by destruct s).
  rewrite (bind_ret _ _ _ _ _ E). rewrite (bind_ret _ _ _ _ _ (IH ltac:(intros; apply Hin; by right))).
  unfold entry_json at 2. unfold entry_message. by rewrite Hm.
Qed.

Lemma dead_allocated (s : BS) n e : broker_inv s → e ∈ dead_entries s n → is_Some (heap s.1 !! dle_Message e).
Proof.
  intros Hb. unfold dead_entries. destruct (b_topics s.2 !! n) as [t|] eqn:Ht; [|by intros ?%elem_of_nil].
  intros ([id e'] & -> & Hin)%list_elem_of_fmap. pose proof (ti_core _ _ _ (bi_topics _ Hb n t Ht)) as Hc.
  apply (view_elem _ (core_dlq _ _ _ _ _ _ Hc)) in Hin.
  destruct (core_dead _ _ _ _ _ _ Hc _ _ Hin) as (m & Hm & _). by exists m.
Qed.

Lemma elem_of_pages (s : BS) names k e : e ∈ pages s names k → ∃ n, e ∈ dead_entries s n.
Proof.
  unfold pages. intros (n & Hin & _)%list_elem_of_bind. exists n.
  apply list_elem_of_lookup in Hin as [i Hi]. apply lookup_take_Some in Hi as [Hi _]. by eapply list_elem_of_lookup_2.
Qed.

(** What [GET /api/v1/dlq] finds. *)
Definition found_entries (topic : string) (env : http_env) (s : BS) : option (list DeadLetterEntry) :=
  let es := if decide (topic = "") then pages s (filter (λ n, is_Some (b_topics s.2 !! n)) (env_topics env)) 50
            else take 100 (dead_entries s topic) in
  if decide (es = []) then None else Some es.

Lemma dead_letters_run topic env (s : BS) :
  broker_inv s → dead_letters topic env s = Ret (found_entries topic env s) s.
Proof.
  intros Hb. unfold dead_letters, found_entries. case_decide.
  - rewrite (bind_ret _ _ _ _ _ (TopicsList_run s _)).
    rewrite (bind_ret _ _ _ _ _ (list_topics_run s _ 50 [] Hb ltac:(lia))). done.
  - rewrite (bind_ret _ _ _ _ _ (GetTopic_run s topic)). destruct (b_topics s.2 !! topic) as [t|] eqn:Ht.
    + rewrite bool_decide_true; [by eexists|]. rewrite (List_broker_run s topic t 100 Hb Ht); [lia|]. f_equal.
      change (Z.to_nat 100) with 100%nat. by destruct (dead_entries s topic).
    + rewrite bool_decide_false; [by intros [? ?]|]. unfold dead_entries. by rewrite Ht.
Qed.

Lemma found_allocated topic env (s : BS) e :
  broker_inv s → e ∈ default [] (found_entries topic env s) → is_Some (heap s.1 !! dle_Message e).
Proof.
  intros Hb Hin. assert (∃ n, e ∈ dead_entries s n) as [n Hn]; [|by eapply dead_allocated].
  unfold found_entries in Hin. destruct (decide (topic = "")).
  - destruct (decide _); [by apply elem_of_nil in Hin|]. by eapply elem_of_pages.
  - destruct (decide _); [by apply elem_of_nil in Hin|]. exists topic. simpl in Hin.
    apply list_elem_of_lookup in Hin as [i Hi]. apply lookup_take_Some in Hi as [Hi _]. by eapply list_elem_of_lookup_2.
Qed.

Lemma handleDLQ_run r env (s : BS) :
  broker_inv s → handleDLQ r env s =
    Ret (Encode (match found_entries (Query_Get "topic" r) env s with
                 | None => JNull | Some es => JArr (entry_json s <$> es) end)) s.
Proof.
  intros Hb. unfold handleDLQ. rewrite (bind_ret _ _ _ _ _ (dead_letters_run _ env s Hb)).
  pose proof (load_entries_run s (default [] (found_entries (Query_Get "topic" r) env s))) as E.
  rewrite (bind_ret _ _ _ _ _ (E ltac:(intros e; by apply found_allocated))). by destruct (found_entries _ _ _).
Qed.

Lemma purge_topics_run names : ∀ (s : BS) c,
  broker_inv s → ∃ c' s' lbs, purge_topics names c s = Ret c' s' ∧ broker_trace s lbs s' ∧ broker_inv s'.
Proof.
  induction names as [|n names IH]; intros s c Hb; [exists c, s, []; by split_and!; [|constructor|]|].
  cbn [purge_topics]. rewrite (bind_ret _ _ _ _ _ (GetTopic_run s n)). destruct (b_topics s.2 !! n) as [t|] eqn:Ht.
  - rewrite bool_decide_true; [by eexists|]. destruct (purge_outcome s n t Hb Ht) as (s1 & E & (Hb1 & _) & _).
    rewrite (bind_ret _ _ _ _ _ E).
    destruct (IH s1 (i64 (c + Z.of_nat (length (dead_ids s n)))) Hb1) as (c' & s' & lbs & E' & Htr & Hb').
    exists c', s'. eexists. split_and!; [exact E'| |done]. econstructor; [by eapply bs_purge|exact Htr].
  - rewrite bool_decide_false; [by intros [? ?]|]. by apply IH.
Qed.

Lemma handleDLQPurge_safe r env (s : BS) : broker_inv s → safe (handleDLQPurge r env) s.
Proof.
  intros Hb. unfold handleDLQPurge. case_decide.
  - destruct (purge_topics_run (filter (λ n, is_Some (b_topics s.2 !! n)) (env_topics env)) s 0 Hb) as (c & s' & lbs & E & Htr & _).
    eapply safe_bind; [|exact Htr|apply respond_safe]. rewrite (bind_ret _ _ _ _ _ (TopicsList_run s _)). exact E.
  - destruct (purge_topics_run [Query_Get "topic" r] s 0 Hb) as (c & s' & lbs & E & Htr & _).
    eapply safe_bind; [exact E|exact Htr|apply respond_safe].
Qed.

(** A replay that succeeds returns a message of the store. *)
Lemma ReplayDLQ_alloc (s : BS) n mid now l s' :
  broker_inv s → ReplayDLQ n mid now s = Ret (Some l, true) s' → is_Some (heap s'.1 !! l).
Proof.
  intros Hb. unfold ReplayDLQ. rewrite (bind_ret _ _ _ _ _ (GetTopic_run s n)).
  destruct (b_topics s.2 !! n) as [t|] eqn:Ht; [rewrite bool_decide_true; [by eexists|]|by intros].
  cbn [negb]. unfold zoom. cbn [view lens_topic]. rewrite Ht. simpl.
  pose proof (bi_topics _ Hb n t Ht) as Hi. destruct (dlq_entries (t_dlq t) !! mid) as [e|] eqn:He.
  - destruct (Replay_run 0 (s.1, t) _ mid e now Hi He) as (s1 & m & E & _ & _ & _ & _ & Hl & _). rewrite E.
    intros [= <- <-]. simpl. by eexists.
  - pose proof (Remove_run _ mid (core_dlq _ _ _ _ _ _ (ti_core _ _ _ Hi))) as Hr. cbn in Hr. rewrite He in Hr.
    unfold ReplayDeadLetter. by rewrite (bind_ret _ _ _ _ _ (zoom_ret lens_dlq _ (s.1, t) _ _ Hr)).
Qed.

Lemma handleDLQReplay_safe r env (s : BS) : broker_inv s → safe (handleDLQReplay r env) s.
Proof.
  intros Hb. unfold handleDLQReplay. destruct (negb _); [apply respond_safe|].
  destruct (decode_replay (rq_Body r)) as [[t i]|]; [|apply respond_safe]. case_decide; [apply respond_safe|].
  destruct (ReplayDLQ_outcome s t i (env_now env) Hb) as ([o ok] & s' & E & _).
  eapply safe_step; [exact E|by eapply bs_replay|]. destruct o as [l|], ok; try apply respond_safe.
  destruct (load_safe s' l) as [m Em]; [by eapply ReplayDLQ_alloc|]. eapply safe_pure; [exact Em|apply respond_safe].
Qed.

Lemma mux_safe r env (s : BS) : broker_inv s → env_ready r env s → safe (mux studio redirect r env) s.
Proof.
  intros Hb Hr. unfold mux. case_decide; [apply respond_safe|].
  destruct (route (rq_Path r)).
  - by eapply handleStats_safe.
  - apply handleTopics_safe.
  - by apply handleTopicAction_safe.
  - eapply safe_ret. by apply handleDLQ_run.
  - by apply handleDLQReplay_safe.
  - by apply handleDLQPurge_safe.
  - apply respond_safe.
Qed.

(** ** What the handlers answer *)

(** Every value the program can return satisfies [P]. *)
Definition yields {A} (m : prog BS A) (P : A → Prop) : Prop := ∀ s a s', m s = Ret a s' → P a.

Lemma yields_ret {A} (a : A) (P : A → Prop) : P a → yields (mret a) P.
Proof. intros Ha s a' s' [= <- _]. done. Qed.

Lemma yields_bind {A B} (m : prog BS A) (f : A → prog BS B) (Q : A → Prop) (P : B → Prop) :
  yields m Q → (∀ a, Q a → yields (f a) P) → yields (m ≫= f) P.
Proof.
  intros Hm Hf s b s2 E. unfold mbind, prog_bind in E. destruct (m s) as [a s1| |] eqn:Em; [|done..].
  by eapply Hf; [eapply Hm|].
Qed.

Lemma yields_then {A B} (m : prog BS A) (f : A → prog BS B) (P : B → Prop) :
  (∀ a, yields (f a) P) → yields (m ≫= f) P.
Proof. intros Hf. apply (yields_bind m f (λ _, True)); [done|]. auto. Qed.

(** A value that [encoding/json] can print and read back. *)
Definition sound (v : json) : Prop := well_formed v ∧ nesting v ≤ 10.

(** A text that [encoding/json] accepts. *)
Definition is_json (b : bytes) : Prop := ∃ v, parse_json b = Some v.

(** A JSON document, or a status other than 200. *)
Definition answer (resp : Response) : Prop := (∃ v, resp = Encode v ∧ sound v) ∨ rp_Status resp ≠ StatusOK.

Lemma answer_error msg code : code ≠ StatusOK → answer (http_Error msg code).
Proof. by right. Qed.

Lemma sound_object ms : Forall (member_ok 9) ms → sound (JObj ms).
Proof. intros Hm. by apply (object_ok 9). Qed.

Lemma sound_array vs : Forall (λ v, well_formed v ∧ nesting v ≤ 9) vs → sound (JArr vs).
Proof. intros Hm. by apply (array_ok 9). Qed.

Lemma member_weaken d d' ms : d ≤ d' → Forall (member_ok d) ms → Forall (member_ok d') ms.
Proof. intros Hd Hm. eapply Forall_impl; [exact Hm|]. intros kv [Hw Hn]. split; [done|lia]. Qed.

Lemma member_object d key ms : 1 ≤ d → Forall (member_ok (d - 1)) ms → member_ok d (key, JObj ms).
Proof. intros Hd Hm. destruct (object_ok (d - 1) ms ltac:(lia) Hm). split; [done|]. cbn [snd]. lia. Qed.

(** A list of members, each of a known shape. *)
Ltac members := repeat (apply Forall_cons; split); try apply Forall_nil; auto with go lia.

Lemma message_sound m : sound (JObj (message_members m)).
Proof. apply sound_object, (member_weaken 1); [lia|apply message_members_ok]. Qed.

Lemma topic_stats_ok t : well_formed (topic_stats_json t) ∧ nesting (topic_stats_json t) ≤ 1.
Proof. apply (object_ok 0); [lia|]. members. Qed.

Lemma stats_sound b : sound (broker_stats_json b).
Proof.
  apply sound_object. members. destruct (array_ok 1 (topic_stats_json <$> bs_Topics b)) as [Hw Hn]; [lia| |].
  - apply Forall_fmap, Forall_true. intros t. apply topic_stats_ok.
  - split; [done|]. cbn [snd]. lia.
Qed.

Lemma entries_answer es : yields (load_entries es) (Forall (λ v, well_formed v ∧ nesting v ≤ 3)).
Proof.
  induction es as [|e es IH]; [by apply yields_ret, Forall_nil|]. cbn [load_entries]. apply yields_then. intros m.
  eapply yields_bind; [exact IH|]. intros js Hjs. apply yields_ret, Forall_cons. split; [|done].
  apply (object_ok 2); [lia|]. members. apply member_object; [lia|apply message_members_ok].
Qed.

Lemma handleStats_answer r env : yields (handleStats r env) answer.
Proof. apply yields_then. intros st. apply yields_ret. left. eexists. split; [done|apply stats_sound]. Qed.

Lemma handleTopics_answer r env : yields (handleTopics r env) answer.
Proof.
  apply yields_then. intros ts. apply yields_ret. left. eexists. split; [done|]. apply sound_object. members.
  destruct (array_ok 0 (json_string <$> ts)) as [Hw Hn]; [lia|by apply Forall_fmap, Forall_true|].
  split; [done|]. unfold json_strings. cbn [snd]. lia.
Qed.

Lemma handleTopicAction_answer r env : yields (handleTopicAction r env) answer.
Proof.
  unfold handleTopicAction. destruct (action_parts _) as [[n a]|]; [|by apply yields_ret, answer_error].
  case_decide; [|case_decide; [|by apply yields_ret, answer_error]].
  - unfold publish_action. destruct (rq_BodyErr r); [by apply yields_ret, answer_error|]. apply yields_then.
    intros [e|l]; [by apply yields_ret, answer_error|]. apply yields_then. intros m. apply yields_ret. left.
    eexists. split; [done|]. apply sound_object. members.
  - unfold consume_action. apply yields_then. intros [[l|] [|]]; try (by apply yields_ret; right).
    apply yields_then. intros m. apply yields_ret. left. eexists. split; [done|apply message_sound].
Qed.

Lemma handleDLQ_answer r env : yields (handleDLQ r env) answer.
Proof.
  unfold handleDLQ. apply yields_then. intros es. eapply yields_bind; [apply entries_answer|]. intros js Hjs.
  apply yields_ret. left. eexists. split; [done|]. destruct es; [|by split; [|cbn; lia]].
  apply sound_array. eapply Forall_impl; [exact Hjs|]. intros v [Hw Hn]. split; [done|lia].
Qed.

Lemma handleDLQReplay_answer r env : yields (handleDLQReplay r env) answer.
Proof.
  unfold handleDLQReplay. destruct (negb _); [by apply yields_ret, answer_error|].
  destruct (decode_replay _) as [[t i]|]; [|by apply yields_ret, answer_error].
  case_decide; [by apply yields_ret, answer_error|]. apply yields_then.
  intros [[l|] [|]]; try (by apply yields_ret, answer_error). apply yields_then. intros m. apply yields_ret. left.
  eexists. split; [done|]. apply sound_object. members.
Qed.

Lemma handleDLQPurge_answer r env : yields (handleDLQPurge r env) answer.
Proof.
  unfold handleDLQPurge. apply yields_then. intros c. apply yields_ret. left. eexists. split; [done|].
  apply sound_object. members.
Qed.

(** ** Requests that are refused *)

(** A client error (4xx). *)
Definition refusal (resp : Response) : Prop := 400 ≤ rp_Status resp < 500.

(** A refusal leaves the state as it is. *)
Definition inert (m : prog BS Response) (s : BS) : Prop :=
  ∀ resp s', m s = Ret resp s' → refusal resp → s' = s.

Lemma inert_ret resp s : inert (mret resp) s.
Proof. by intros resp' s' [= _ <-]. Qed.

(** Only the last answer can be a refusal. *)
Lemma inert_ok {A} (m : prog BS A) (f : A → prog BS Response) s :
  (∀ a, yields (f a) (λ resp, ¬ refusal resp)) → inert (m ≫= f) s.
Proof.
  intros Hf resp s' E Hst. exfalso. unfold mbind, prog_bind in E. destruct (m s) as [a s1| |]; [|done..].
  by eapply (Hf a).
Qed.

Lemma encode_accepts v : ¬ refusal (Encode v).
Proof. unfold refusal. cbn. unfold StatusOK. lia. Qed.

Lemma handleTopicAction_inert r env s : inert (handleTopicAction r env) s.
Proof.
  unfold handleTopicAction. destruct (action_parts _) as [[n a]|]; [|apply inert_ret].
  case_decide; [|case_decide; [|apply inert_ret]].
  - unfold publish_action. destruct (rq_BodyErr r); [apply inert_ret|]. apply inert_ok.
    intros [e|l]; [apply yields_ret; unfold refusal; cbn; unfold StatusInternalServerError; lia|].
    apply yields_then. intros m. apply yields_ret, encode_accepts.
  - unfold consume_action. apply inert_ok.
    intros [[l|] [|]]; try (apply yields_ret; unfold refusal; cbn; unfold StatusNoContent; lia).
    apply yields_then. intros m. apply yields_ret, encode_accepts.
Qed.

(** A replay that finds nothing changes nothing. *)
Lemma ReplayDLQ_none (s : BS) n mid now :
  broker_inv s → (∃ l s', ReplayDLQ n mid now s = Ret (Some l, true) s') ∨ ReplayDLQ n mid now s = Ret (None, false) s.
Proof.
  intros Hb. unfold ReplayDLQ. rewrite (bind_ret _ _ _ _ _ (GetTopic_run s n)).
  destruct (b_topics s.2 !! n) as [t|] eqn:Ht; [rewrite bool_decide_true; [by eexists|]|by right].
  cbn [negb]. unfold zoom. cbn [view lens_topic]. rewrite Ht. cbn [default from_option id].
  pose proof (bi_topics _ Hb n t Ht) as Hi. destruct (dlq_entries (t_dlq t) !! mid) as [e|] eqn:He.
  - left. destruct (Replay_run 0 (s.1, t) _ mid e now Hi He) as (s1 & m & E & _). rewrite E. by eexists _, _.
  - right. pose proof (Remove_run _ mid (core_dlq _ _ _ _ _ _ (ti_core _ _ _ Hi))) as Hr. cbn in Hr. rewrite He in Hr.
    unfold ReplayDeadLetter. rewrite (bind_ret _ _ _ _ _ (zoom_ret lens_dlq _ (s.1, t) _ _ Hr)). cbn. f_equal.
    destruct s as [σ b], t. unfold set_topics. cbn in *. rewrite insert_id //. by destruct b.
Qed.

Lemma handleDLQReplay_inert r env s : broker_inv s → inert (handleDLQReplay r env) s.
Proof.
  intros Hb. unfold handleDLQReplay. destruct (negb _); [apply inert_ret|].
  destruct (decode_replay _) as [[t i]|]; [|apply inert_ret]. case_decide; [apply inert_ret|].
  destruct (ReplayDLQ_none s t i (env_now env) Hb) as [(l & s1 & E)|E]; intros resp s' E'; rewrite (bind_ret _ _ _ _ _ E) in E'.
  - intros Hst. exfalso. eapply (yields_then (zoom lens_fst (load l)) _ (λ resp, ¬ refusal resp)); [|exact E'|exact Hst].
    intros m. apply yields_ret, encode_accepts.
  - by injection E' as _ <-.
Qed.

Lemma mux_inert r env s : broker_inv s → inert (mux studio redirect r env) s.
Proof.
  intros Hb. unfold mux. case_decide; [apply inert_ret|]. destruct (route (rq_Path r)).
  - apply inert_ok. intros. apply yields_ret, encode_accepts.
  - apply inert_ok. intros. apply yields_ret, encode_accepts.
  - apply handleTopicAction_inert.
  - apply inert_ok. intros. apply yields_then. intros. apply yields_ret, encode_accepts.
  - by apply handleDLQReplay_inert.
  - apply inert_ok. intros. apply yields_ret, encode_accepts.
  - apply inert_ret.
Qed.

Lemma Handler_safe r env s : broker_inv s → env_ready r env s → safe (Handler studio redirect r env) s.
Proof.
  intros Hb Hr. unfold Handler, corsMiddleware. case_decide; [apply respond_safe|].
  apply safe_then; [by apply mux_safe|]. intros resp s'. apply respond_safe.
Qed.

(** ** Properties *)

(** C13: no HTTP request panics or corrupts the messages.  Whatever its method, path,
    query and body, on a broker that satisfies its invariant the request is answered,
    or waits in the blocking pop of a consume; it never panics; its effect on the
    messages is a sequence of broker steps; the invariant holds afterwards.  Of a
    publication it is assumed that its ID is new, that its topic has room for it below
    its 50000 messages, and that the log answers its record with an error or without one
    (a record whose length wraps around 32 bits makes it panic): [env_ready]. *)
Theorem http_request_safe r env (s : BS) (Hb : broker_inv s) (Hr : env_ready r env s) :
  ∃ s' lbs, ((∃ resp, Handler studio redirect r env s = Ret resp s') ∨ Handler studio redirect r env s = Block s') ∧
    broker_trace s lbs s' ∧ broker_inv s'.
Proof.
  destruct (Handler_safe r env s Hb Hr) as (s' & lbs & E & Htr). exists s', lbs. split_and!; [done|done|]. by apply (trace_follows s lbs s' Htr).
Qed.

(** C29: a successful answer of the API is a JSON document.  For every request to one
    of its routes with a clean path, other than an [OPTIONS] preflight (which is answered
    200 with an empty body), an answer with status 200 has a body that parses as JSON,
    whatever text the topics, the messages and their failure causes contain. *)
Theorem http_answers_json r env (s : BS) resp s' (Hm : rq_Method r ≠ "OPTIONS")
  (Hp : cleanPath (rq_Path r) = rq_Path r) (Hrt : route (rq_Path r) ≠ Studio_)
  (E : Handler studio redirect r env s = Ret resp s') (Hst : rp_Status resp = StatusOK) :
  is_json (rp_Body resp).
Proof.
  assert (yields (Handler studio redirect r env) (λ resp, rp_Status resp = StatusOK → ∃ v, rp_Body resp = print_json v ++ newline ∧ sound v)) as Hy.
  { unfold Handler, corsMiddleware. rewrite decide_False //. apply (yields_bind _ _ answer).
    - unfold mux. rewrite decide_False; [tauto|]. destruct (route (rq_Path r)); [..|done].
      + apply handleStats_answer.
      + apply handleTopics_answer.
      + apply handleTopicAction_answer.
      + apply handleDLQ_answer.
      + apply handleDLQReplay_answer.
      + apply handleDLQPurge_answer.
    - intros resp0 [(v & -> & Hv)|Hne]; apply yields_ret; [intros _; by exists v|done]. }
  destruct (Hy s resp s' E Hst) as (v & -> & Hw & Hn). exists (clean v).
  apply parse_print; [done|unfold maxNestingDepth; lia|done].
Qed.

(** A refused request changes nothing: when the answer is a client error
    (missing topic, unknown action, unreadable body, wrong method, incomplete or
    unknown replay), the broker and its messages are exactly as before. *)
Theorem http_refusal_inert r env (s : BS) resp s' (Hb : broker_inv s) (Hrt : route (rq_Path r) ≠ Studio_)
  (E : Handler studio redirect r env s = Ret resp s') (Hst : refusal resp) : s' = s.
Proof.
  unfold Handler, corsMiddleware in E. destruct (decide _).
  { by injection E as <- <-. }
  unfold mbind, prog_bind in E. destruct (mux studio redirect r env s) as [resp0 s1| |] eqn:Em; [|done..].
  injection E as <- <-. by eapply mux_inert.
Qed.
End api_safety.

(** ** Witnesses *)

Definition no_page (r : Request) : Response := mkResponse 404 ∅ [].

Definition demo_env : http_env := mkEnv 0 [] 0 0 0 [] 5.

Definition demo_request (method : string) (path : bytes) (body : bytes) : Request :=
  mkRequest method path [] body false.

(** A publication to the topic [orders]. *)
Definition demo_publish_request : Request :=
  demo_request "POST" (str "/api/v1/topics/orders/publish") (str "hello").

Lemma demo_env_ready : env_ready demo_publish_request demo_env (demo_broker false).
Proof.
  split; [by intros n ?%elem_of_nil|]. intros topic _ E. vm_compute in E. injection E as <-.
  split; [|apply demo_answered]. apply demo_fresh; [apply NoDup_singleton|simpl; lia].
Qed.

Lemma http_request_safe_witness :
  ∃ s' lbs, ((∃ resp, Handler no_page no_page demo_publish_request demo_env (demo_broker false) = Ret resp s') ∨
             Handler no_page no_page demo_publish_request demo_env (demo_broker false) = Block s') ∧
    broker_trace (demo_broker false) lbs s' ∧ broker_inv s'.
Proof.
  apply (http_request_safe no_page no_page demo_publish_request demo_env (demo_broker false)).
  - apply NewBroker_inv.
  - apply demo_env_ready.
Defined.

Definition topics_request : Request := demo_request "GET" (str "/api/v1/topics") [].

Lemma http_answers_json_witness :
  is_json (str "{" ++ x22 :: str "count" ++ x22 :: str ":0," ++ x22 :: str "topics" ++ x22 :: str ":[]}" ++ newline).
Proof.
  eapply (http_answers_json no_page no_page topics_request demo_env (demo_broker false)
    (mkResponse 200 ({["Content-Type" := "application/json"]} ∪ cors_headers) _) (demo_broker false)).
  - done.
  - by vm_compute.
  - by vm_compute.
  - unfold Handler, corsMiddleware, mux. by vm_compute.
  - done.
Defined.

Definition bad_request : Request := demo_request "GET" (str "/api/v1/dlq/replay") [].

Lemma http_refusal_inert_witness :
  ∃ resp, Handler no_page no_page bad_request demo_env (demo_broker false) = Ret resp (demo_broker false) ∧
    rp_Status resp = 405.
Proof.
  destruct (Handler no_page no_page bad_request demo_env (demo_broker false)) as [resp s'|s'|] eqn:E.
  - exists resp. assert (rp_Status resp = 405) as Hs by (vm_compute in E; by injection E as <- _).
    split; [|done]. f_equal. apply (http_refusal_inert no_page no_page bad_request demo_env (demo_broker false) resp s').
    + apply NewBroker_inv.
    + by vm_compute.
    + exact E.
    + unfold refusal. lia.
  - by vm_compute in E.
  - by vm_compute in E.
Defined.
