(* ===== verification/ApiSpec.v ===== *)
(** * What the routes of the HTTP API do

    The path of a topic action is taken apart as its pattern says; a payload
    published over HTTP comes back from a consume unchanged; HTTP, [VMQ.PUBLISH]
    and [RPUSH] are the same publication; purging empties the dead letter queues
    and reports their number; listing returns the first entries of each queue. *)

From S2P Require Import Prelude GoText Message RingBuffer TimingWheel DeadLetter ConsumerGroup.
From S2P Require Import Topic Custody TopicSafety Broker BrokerSafety Encoding Json GoFloat MessageJson.
From S2P Require Import Resp Server CommandSafety Api ApiSafety.

(** ** Paths *)

(** A topic name that is one segment of a clean path. *)
Definition path_segment (n : string) : Prop :=
  str n ≠ [] ∧ "/"%byte ∉ str n ∧ str n ≠ str "." ∧ str n ≠ str "..".

Global Instance path_segment_dec n : Decision (path_segment n) := _.

Definition action_path (n action : string) : bytes := topics_prefix ++ str n ++ "/"%byte :: str action.

Lemma split_slash_app a b : "/"%byte ∉ a → split_slash (a ++ "/"%byte :: b) = a :: split_slash b.
Proof.
  induction a as [|c a IH]; intros Hn.
  - cbn [app split_slash]. by destruct (decide ("/"%byte = "/"%byte)) as [_|[]].
  - apply not_elem_of_cons in Hn as [Hc Hn]. cbn [app split_slash].
    destruct (decide (c = "/"%byte)) as [?|_]; [congruence|]. by rewrite IH.
Qed.

Lemma split_slash_one a : "/"%byte ∉ a → split_slash a = [a].
Proof.
  induction a as [|c a IH]; intros Hn; [done|]. apply not_elem_of_cons in Hn as [Hc Hn]. cbn [split_slash].
  destruct (decide (c = "/"%byte)) as [?|_]; [congruence|]. by rewrite IH.
Qed.

Lemma TrimPrefix_app p s : TrimPrefix p (p ++ s) = s.
Proof.
  unfold TrimPrefix. rewrite take_app_length drop_app_length. by destruct (decide (p = p)) as [_|[]].
Qed.

Lemma action_parts_path n action :
  path_segment n → "/"%byte ∉ str action → action_parts (action_path n action) = Some (n, action).
Proof.
  intros (Hne & Hs & _) Ha. unfold action_parts, action_path. rewrite TrimPrefix_app split_slash_app // split_slash_one //.
  destruct (decide (str n = [])) as [?|_]; [done|]. by rewrite !gostring_str.
Qed.

Lemma last_cons_ne {A} (x : A) l : l ≠ [] → last (x :: l) = last l.
Proof. by destruct l. Qed.

Lemma clean_action_path n action :
  path_segment n → "/"%byte ∉ str action → str action ≠ [] → str action ≠ str "." → str action ≠ str ".." →
  cleanPath (action_path n action) = action_path n action.
Proof.
  intros (Hne & Hs & Hd & Hdd) Ha Ha0 Ha1 Ha2. unfold cleanPath.
  change (action_path n action) with ("/"%byte :: str "api/v1/topics/" ++ str n ++ "/"%byte :: str action).
  cbv iota. destruct (decide ("/"%byte = "/"%byte)) as [_|[]]; [|done].
  assert (split_slash ("/"%byte :: str "api/v1/topics/" ++ str n ++ "/"%byte :: str action) =
    [[]; str "api"; str "v1"; str "topics"; str n; str action]) as ->.
  { rewrite (split_slash_app []); [by apply not_elem_of_nil|].
    change (str "api/v1/topics/" ++ ?x) with (str "api" ++ "/"%byte :: str "v1" ++ "/"%byte :: str "topics" ++ "/"%byte :: x).
    rewrite !split_slash_app ?split_slash_one //; apply (bool_decide_unpack _); by vm_compute. }
  assert (∀ p st segs, p ≠ [] → p ≠ str "." → p ≠ str ".." → clean_segments (p :: segs) st = clean_segments segs (p :: st)) as Hstep.
  { intros p st segs ???. cbn [clean_segments]. destruct (decide _) as [[?|?]|_]; [done..|].
    by destruct (decide _) as [?|_]. }
  assert (clean_segments [[]; str "api"; str "v1"; str "topics"; str n; str action] [] =
    [str "api"; str "v1"; str "topics"; str n; str action]) as ->.
  { change (clean_segments ([] :: ?l) []) with (clean_segments l []). by rewrite !Hstep. }
  destruct (decide (_ = [])) as [?|_]; [done|]. destruct (decide _) as [Hl|_].
  { exfalso. apply Ha. rewrite app_comm_cons app_assoc last_app_cons (last_cons_ne _ (str action)) // in Hl.
    by apply last_Some_elem_of. }
  cbn [map concat]. by rewrite app_nil_r.
Qed.

Lemma route_action n action : route (action_path n action) = TopicAction_.
Proof.
  unfold route. destruct (decide _) as [E|_].
  { apply (f_equal (take 13)) in E. by vm_compute in E. }
  destruct (decide _) as [E|_]; [by apply (f_equal (drop 14)) in E|].
  unfold HasPrefix, action_path. by rewrite take_app_length bool_decide_true.
Qed.

(** ** Requests *)

Section requests.
Context {W : Type} `{BrokerWAL W}.
Context (studio redirect : Request → Response).

Abbreviation BS := (Store * Broker W)%type.

(** The headers the middleware adds. *)
Definition with_cors (resp : Response) : Response :=
  mkResponse (rp_Status resp) (rp_Header resp ∪ cors_headers) (rp_Body resp).

(** A request for a topic action reaches its handler. *)
Lemma action_reaches (r : Request) env (s : BS) n action :
  rq_Path r = action_path n action → rq_Method r ≠ "OPTIONS" → path_segment n → action = "publish" ∨ action = "consume" →
  Handler studio redirect r env s = (resp ← handleTopicAction r env; mret (with_cors resp)) s ∧
  action_parts (rq_Path r) = Some (n, action).
Proof.
  intros Hp Hm Hn Ha. assert ("/"%byte ∉ str action ∧ str action ≠ [] ∧ str action ≠ str "." ∧ str action ≠ str "..") as (H1 & H2 & H3 & H4).
  { destruct Ha as [->| ->]; split_and!; try done; apply (bool_decide_unpack _); by vm_compute. }
  split; [|rewrite Hp; by apply action_parts_path].
  unfold Handler, corsMiddleware. destruct (decide _) as [?|_]; [done|]. unfold mux. rewrite Hp clean_action_path //.
  destruct (decide _) as [[[] _]|_]; [done|]. by rewrite route_action.
Qed.

(** The body [{"payload": <text>}]. *)
Definition payload_body (p : bytes) : bytes := print_json (JObj [(str "payload", JStr p)]).

Lemma decode_payload_body p : decode_publish (payload_body p) = (mkPublishReq (Some (JStr (sanitize p))) 0, true).
Proof.
  unfold decode_publish, payload_body. rewrite -(app_nil_r (print_json _)) parse_print; [by cbn|by vm_compute|done|].
  cbn [clean map fold_left fst snd]. unfold publish_member.
  change (gostring (fold_name _)) with "PAYLOAD". by destruct (decide ("PAYLOAD" = "PAYLOAD")) as [_|[]].
Qed.

Definition post_request (n : string) (body : bytes) : Request :=
  mkRequest "POST" (action_path n "publish") [] body false.

Definition publish_request (n : string) (p : bytes) : Request := post_request n (payload_body p).

Definition consume_request (n : string) (query : list (string * string)) : Request :=
  mkRequest "GET" (action_path n "consume") query [] false.

(** What a publication does and answers. *)
Definition publish_answer (n : string) (p : bytes) (env : http_env) : prog BS Response :=
  res ← Broker.Publish n (Some p) (env_now env) (env_rand env);
  match res with
  | inl err => mret (with_cors (http_Error (error_text err) StatusInternalServerError))
  | inr msg =>
      m ← zoom lens_fst (load msg);
      mret (with_cors (Encode (JObj [(str "id", json_string (msg_ID m)); (str "status", json_string "published");
                                     (str "topic", json_string n)])))
  end.

(** A publication without delay is one of the payload its body decodes to. *)
Lemma post_request_run n body env (s : BS) :
  path_segment n → publish_delay_ms body = 0 →
  Handler studio redirect (post_request n body) env s = publish_answer n (publish_payload body) env s.
Proof.
  intros Hn Hd. destruct (action_reaches (post_request n body) env s n "publish") as [-> Ha]; [done|done|done|by left|].
  unfold handleTopicAction. rewrite Ha. unfold mbind at 1, prog_bind at 1.
  destruct (decide _) as [_|[]]; [|done]. unfold publish_action.
  cbn [post_request rq_BodyErr rq_Body]. rewrite Hd. change (0 <? 0) with false. cbv iota beta.
  unfold publish_answer. generalize (publish_payload body). intros p. unfold mbind, prog_bind.
  destruct (Broker.Publish n (Some p) (env_now env) (env_rand env) s) as [[e|l] s1| |]; [done| |done|done].
  by destruct (zoom lens_fst (load l) s1).
Qed.

(** A publication of a text is a publication of its bytes. *)
Lemma publish_request_run n p env (s : BS) :
  path_segment n → valid_utf8 p →
  Handler studio redirect (publish_request n p) env s = publish_answer n p env s.
Proof.
  intros Hn Hv. unfold publish_request. rewrite post_request_run //.
  - by rewrite /publish_delay_ms decode_payload_body.
  - by rewrite /publish_payload decode_payload_body Hv.
Qed.

Lemma consume_request_run n query env (s : BS) :
  path_segment n →
  Handler studio redirect (consume_request n query) env s =
    (resp ← consume_action n (consume_request n query) env; mret (with_cors resp)) s.
Proof.
  intros Hn. destruct (action_reaches (consume_request n query) env s n "consume") as [-> Ha]; [done|done|done|by right|].
  unfold handleTopicAction. rewrite Ha. destruct (decide _) as [[? _]|_]; [done|].
  by destruct (decide _) as [_|[]].
Qed.

Lemma load_allocated (s : BS) l m : heap s.1 !! l = Some m → zoom lens_fst (load l) s = Ret m s.
Proof. intros Hm. unfold zoom, load. cbn. rewrite Hm. by destruct s. Qed.

(** A publication the log accepts. *)
Lemma publish_accepted n p now rnd (s : BS) wal :
  broker_inv s → fresh_for s n [msg_ID (created n (Some p) now rnd s.1)] →
  logged (created n (Some p) now rnd s.1) (b_wal s.2) = Ret None wal →
  ∃ l s', Broker.Publish n (Some p) now rnd s = Ret (inr l) s' ∧ broker_inv s' ∧
    heap s'.1 !! l = Some (created n (Some p) now rnd s.1) ∧ queue_locs s' n = queue_locs s n ++ [l].
Proof.
  intros Hb Hf Hlog. destruct (push_outcome false s n (Some p) now rnd [] None wal Hb Hf Hlog)
    as (res & s' & t' & lb & E & _ & Hb' & Hs' & _ & _ & _ & Hl). destruct Hl as [-> Hq].
  eexists _, s'. split_and!; [exact E|done| |exact Hq]. rewrite Hs'. apply lookup_insert_eq.
Qed.

(** The three ways to publish the same bytes. *)
Lemma publications_agree n p env r (s : BS) :
  broker_inv s → rd_now r 0 = env_now env → rd_rand r 0 = env_rand env → fresh_for s n [request_id env s] →
  answered (LogPublish (created n (Some p) (env_now env) (env_rand env) s.1)) →
  ∃ s' resp rep1 rep2,
    publish_answer n p env s = Ret resp s' ∧
    case_VMQ_PUBLISH [Some (str n); Some p] r s = Ret (rep1, Done) s' ∧
    case_PUSH false [Some (str n); Some p] r s = Ret (rep2, Done) s'.
Proof.
  intros Hb Hnow Hrnd Hf Hans. destruct (Hans (b_wal s.2)) as (err & wal & El).
  assert (arg_string [Some (str n); Some p] 0 = n) as Hname by apply gostring_str.
  destruct (push_outcome false s n (Some p) (env_now env) (env_rand env) [] err wal Hb Hf El)
    as (res & s' & t' & lb & E & _ & Hb' & Hs' & _ & Ht' & _ & Hlog).
  assert (∀ l, res = inr l → ∃ m, zoom lens_fst (load l) s' = Ret m s') as Hload.
  { intros l ->. apply load_safe. destruct err; destruct Hlog as [Hl _]; [done|]. injection Hl as ->.
    rewrite Hs'. eexists. apply lookup_insert_eq. }
  assert (∃ resp, publish_answer n p env s = Ret resp s') as [resp E1].
  { unfold publish_answer. rewrite (bind_ret _ _ _ _ _ E). destruct res as [e|l]; [by eexists|].
    destruct (Hload l eq_refl) as [m Em]. rewrite (bind_ret _ _ _ _ _ Em). by eexists. }
  assert (∃ rep, case_VMQ_PUBLISH [Some (str n); Some p] r s = Ret (rep, Done) s') as [rep1 E2].
  { unfold case_VMQ_PUBLISH. change (nargs _ <? 2) with false. cbv iota. rewrite Hname Hnow Hrnd.
    change (0 <? publish_delay _) with false. cbv iota. change (default None _) with (Some p).
    rewrite (bind_ret _ _ _ _ _ E). unfold reply_published. destruct res as [e|l]; [by eexists|].
    destruct (Hload l eq_refl) as [m Em]. rewrite (bind_ret _ _ _ _ _ Em). by eexists. }
  exists s', resp, rep1. eexists. split_and!; [exact E1|exact E2|].
  unfold case_PUSH. change (nargs _ <? 2) with false. cbv iota. rewrite Hname.
  rewrite (bind_ret (push_all false n (drop 1 [Some (str n); Some p]) 0 r) _ s tt s').
  { cbn [drop push_all]. rewrite Hnow Hrnd. by rewrite (bind_ret _ _ _ _ _ E). }
  rewrite (bind_ret _ _ _ _ _ (topic_length_run s' n Hb' ltac:(by eexists))). done.
Qed.

(** ** Properties *)

(** C14: what is published over HTTP is consumed over HTTP.  Publish any text to a
    topic with nothing queued, whose name is valid UTF-8 and one segment of the path; the
    ID is new, the topic has room below its 50000, and the log accepts the message.  The
    answer is 200 with the ID of the message, and a consume of that topic, with any
    timeout, then answers 200 with a JSON message that reads back with that ID, that topic
    and exactly that payload; the topic's queue is empty again. *)
Theorem http_publish_consume n p env env' query (s : BS) wal (Hb : broker_inv s) (Hn : path_segment n)
  (Hu : valid_utf8 (str n)) (Hp : valid_utf8 p) (Hnow : is_i64 (env_now env)) (Hq : queue_locs s n = [])
  (Hf : fresh_for s n [request_id env s])
  (Hlog : logged (created n (Some p) (env_now env) (env_rand env) s.1) (b_wal s.2) = Ret None wal) :
  ∃ s1 s2 resp1 resp2 m,
    Handler studio redirect (publish_request n p) env s = Ret resp1 s1 ∧
    rp_Status resp1 = 200 ∧
    rp_Body resp1 = print_json (JObj [(str "id", json_string (request_id env s)); (str "status", json_string "published");
                                      (str "topic", json_string n)]) ++ newline ∧
    Handler studio redirect (consume_request n query) env' s1 = Ret resp2 s2 ∧
    rp_Status resp2 = 200 ∧ Unmarshal (rp_Body resp2) = Some m ∧
    msg_ID m = request_id env s ∧ msg_Topic m = n ∧ msg_Payload m = Some p ∧ queue_locs s2 n = [].
Proof.
  set (m := created n (Some p) (env_now env) (env_rand env) s.1) in *.
  destruct (publish_accepted n p (env_now env) (env_rand env) s wal Hb Hf Hlog) as (l & s1 & E1 & Hb1 & Hl & Hq1).
  fold m in Hl. rewrite Hq in Hq1. cbn [app] in Hq1.
  pose proof (Consume_detail s1 n (i64 ((Atoi (str (Query_Get "timeout_ms" (consume_request n query)))).1 * Api.millisecond))
    (env_t0 env') (env_t1 env') Hb1) as Hc. rewrite Hq1 in Hc. destruct Hc as (s2 & m' & E2 & _ & _ & Hs2 & Hm' & Hq2).
  rewrite Hl in Hm'. injection Hm' as <-.
  eexists s1, s2, _, _, m. split_and!.
  - rewrite publish_request_run //. unfold publish_answer. rewrite (bind_ret _ _ _ _ _ E1). by rewrite (bind_ret _ _ _ _ _ (load_allocated s1 l m Hl)).
  - done.
  - done.
  - rewrite consume_request_run //. unfold consume_action. unfold mbind at 1, prog_bind at 1.
    rewrite (bind_ret _ _ _ _ _ E2). by rewrite (bind_ret _ _ _ _ _ (load_allocated s2 l m ltac:(by rewrite Hs2))).
  - done.
  - cbn [rp_Body with_cors Encode]. change (print_json (JObj (message_members m))) with (Marshal m).
    assert (in_range m) as Hr by done. assert (headers_valid m) as Hh by by apply map_Forall_empty.
    rewrite Unmarshal_sanitized // sanitize_message_valid //. split; [done|done|apply message_id_valid|done|done|done].
  - done.
  - done.
  - done.
  - done.
Qed.

(** Three ways to publish are one.  A text sent with [POST .../publish], with
    [VMQ.PUBLISH] or as the value of an [RPUSH], at the same moment and with the
    same random bytes, leaves the broker in exactly the same state, whatever the
    log answers (it must not panic). *)
Theorem front_ends_agree n p env r (s : BS) (Hb : broker_inv s) (Hn : path_segment n) (Hp : valid_utf8 p)
  (Hnow : rd_now r 0 = env_now env) (Hrnd : rd_rand r 0 = env_rand env) (Hf : fresh_for s n [request_id env s])
  (Hlog : answered (LogPublish (created n (Some p) (env_now env) (env_rand env) s.1))) :
  ∃ s' resp rep1 rep2,
    Handler studio redirect (publish_request n p) env s = Ret resp s' ∧
    case_VMQ_PUBLISH [Some (str n); Some p] r s = Ret (rep1, Done) s' ∧
    case_PUSH false [Some (str n); Some p] r s = Ret (rep2, Done) s'.
Proof. rewrite publish_request_run //. by apply publications_agree. Qed.

(** A consume without a timeout hangs.  [GET .../consume] with no
    [timeout_ms], or with 0, on a topic that exists and has nothing queued is not
    answered: the handler waits without a deadline. *)
Theorem http_consume_parks n t env query (s : BS) (Hb : broker_inv s) (Hn : path_segment n)
  (Ht : b_topics s.2 !! n = Some t) (Hq : queue_locs s n = [])
  (Hz : (Atoi (str (Query_Get "timeout_ms" (consume_request n query)))).1 = 0) :
  Handler studio redirect (consume_request n query) env s = Block s.
Proof.
  rewrite consume_request_run //. apply bind_block. unfold consume_action. rewrite Hz.
  apply bind_block. by apply (Consume_parks s n t).
Qed.

(** *** Dead letters *)

Definition total_dead (s : BS) (names : list string) : Z :=
  foldr (λ n c, Z.of_nat (length (dead_ids s n)) + c) 0 names.

Lemma total_dead_ext (s s' : BS) names :
  (∀ n, n ∈ names → dead_ids s' n = dead_ids s n) → total_dead s' names = total_dead s names.
Proof.
  induction names as [|n names IH]; intros Hext; [done|]. cbn. rewrite Hext; [by left|]. f_equal.
  apply IH. intros. apply Hext. by right.
Qed.

Lemma total_dead_nonneg (s : BS) names : 0 ≤ total_dead s names.
Proof. unfold total_dead. induction names; simpl; lia. Qed.

(** The loop over the topics empties each of them. *)
Lemma purge_topics_exact names : ∀ (s : BS) c,
  broker_inv s → NoDup names → (∀ n, n ∈ names → is_Some (b_topics s.2 !! n)) → 0 ≤ c →
  c + total_dead s names < 2 ^ 63 →
  ∃ s', purge_topics names c s = Ret (c + total_dead s names) s' ∧ broker_inv s' ∧
    ∀ n, dead_ids s' n = (if decide (n ∈ names) then [] else dead_ids s n) ∧
         owned s n ≡ₚ (if decide (n ∈ names) then dead_ids s n else []) ++ owned s' n.
Proof.
  induction names as [|n names IH]; intros s c Hb Hnd Hex Hc Hlt.
  { exists s. cbn in *. rewrite Z.add_0_r. split_and!; [done|done|]. intros n.
    destruct (decide _) as [Hin|_]; [by apply elem_of_nil in Hin|done]. }
  apply NoDup_cons in Hnd as [Hni Hnd]. destruct (Hex n ltac:(by left)) as [t Ht]. 
  change (total_dead s (n :: names)) with (Z.of_nat (length (dead_ids s n)) + total_dead s names) in Hlt |- *.
  pose proof (total_dead_nonneg s names).
  destruct (purge_outcome s n t Hb Ht) as (s1 & E & (Hb1 & Hp1 & Ho1) & Hd1 & _ & Hoth).
  assert (∀ n', n' ≠ n → dead_ids s1 n' = dead_ids s n') as Hd by (intros n' Hne; unfold dead_ids; by rewrite Hoth).
  assert (total_dead s1 names = total_dead s names) as Htot.
  { apply total_dead_ext. intros n' Hn'. apply Hd. by intros ->. }
  destruct (IH s1 (c + Z.of_nat (length (dead_ids s n))) Hb1 Hnd) as (s' & E' & Hb' & Hs').
  { intros n' Hn'. rewrite Hoth; [by intros ->|]. apply Hex. by right. }
  { lia. }
  { lia. }
  exists s'. split_and!; [|done|].
  - cbn [purge_topics]. rewrite (bind_ret _ _ _ _ _ (GetTopic_run s n)) Ht. rewrite bool_decide_true; [by eexists|].
    rewrite (bind_ret _ _ _ _ _ E) i64_small; [unfold is_i64; lia|]. rewrite E'. f_equal. lia.
  - intros n'. destruct (Hs' n') as [H1 H2]. destruct (decide (n' = n)) as [->|Hne].
    + destruct (decide (n ∈ n :: names)) as [_|[]]; [|by left]. destruct (decide (n ∈ names)) as [?|_]; [done|].
      rewrite H1 Hd1. split; [done|]. cbn [app] in H2. rewrite -H2. symmetry. exact Hp1.
    + assert ((n' ∈ n :: names) ↔ (n' ∈ names)) as Hiff by (rewrite elem_of_cons; naive_solver).
      rewrite (decide_ext _ _ _ _ Hiff) (decide_ext _ _ _ _ Hiff). rewrite -(Hd n' Hne) -(Ho1 n' Hne). done.
Qed.

(** Purging is exact, by any method.  A request for [/api/v1/dlq/purge]
    without a topic, [GET] included, empties the dead letter queue of every
    topic and answers with the number of entries; of each topic exactly the
    dead letters are gone. *)
Theorem http_purge_exact r env (s : BS) (Hb : broker_inv s) (Hm : rq_Method r ≠ "OPTIONS")
  (Hp : rq_Path r = str "/api/v1/dlq/purge") (Hq : Query_Get "topic" r = "")
  (Ht : env_topics env ≡ₚ (map_to_list (b_topics s.2)).*1) (Hsum : total_dead s (env_topics env) < 2 ^ 63) :
  ∃ s', Handler studio redirect r env s =
      Ret (with_cors (Encode (JObj [(str "count", json_int (total_dead s (env_topics env)));
                                    (str "status", json_string "purged")]))) s' ∧
    broker_inv s' ∧ (∀ n, dead_ids s' n = []) ∧ ∀ n, owned s n ≡ₚ dead_ids s n ++ owned s' n.
Proof.
  assert (∀ n, n ∈ env_topics env ↔ is_Some (b_topics s.2 !! n)) as Hin.
  { intros n. rewrite Ht list_elem_of_fmap. split.
    - intros ([n' t] & -> & Hl%elem_of_map_to_list). by eexists.
    - intros [t Hl]. exists (n, t). split; [done|by apply elem_of_map_to_list]. }
  destruct (purge_topics_exact (env_topics env) s 0 Hb) as (s' & E & Hb' & Hs').
  { rewrite Ht. apply NoDup_fst_map_to_list. }
  { intros n. apply Hin. }
  { done. }
  { done. }
  exists s'. split_and!; [|done| |].
  - unfold Handler, corsMiddleware. destruct (decide _) as [?|_]; [done|].
    unfold mux. rewrite Hp. change (cleanPath _) with (str "/api/v1/dlq/purge"). change (route _) with DLQPurge_.
    destruct (decide _) as [[[] _]|_]; [done|]. unfold handleDLQPurge. rewrite Hq.
    destruct (decide (_ = _)) as [_|[]]; [|done]. unfold mbind at 1, prog_bind at 1. unfold mbind at 1, prog_bind at 1.
    rewrite (bind_ret _ _ _ _ _ (TopicsList_run s (env_topics env))).
    rewrite filter_Forall; [by apply Forall_forall; intros n ?; apply Hin|]. by rewrite E.
  - intros n. destruct (Hs' n) as [-> _]. destruct (decide _) as [?|Hn]; [done|]. unfold dead_ids.
    destruct (b_topics s.2 !! n) eqn:E'; [|done]. exfalso. apply Hn, Hin. by eexists.
  - intros n. destruct (Hs' n) as [_ Hown]. rewrite Hown. destruct (decide _) as [?|Hn]; [done|]. unfold dead_ids.
    destruct (b_topics s.2 !! n) eqn:E'; [|done]. exfalso. apply Hn, Hin. by eexists.
Qed.

(** The list of dead letters.  [GET /api/v1/dlq] answers, without changing
    anything, with the first 100 entries of the topic named in the query, or the
    first 50 of every topic, oldest first, each with its message; with [null]
    when there are none. *)
Theorem http_dlq_lists r env (s : BS) (Hb : broker_inv s) (Hm : rq_Method r ≠ "OPTIONS")
  (Hp : rq_Path r = str "/api/v1/dlq") :
  Handler studio redirect r env s =
    Ret (with_cors (Encode (match found_entries (Query_Get "topic" r) env s with
                            | None => JNull | Some es => JArr (entry_json s <$> es) end))) s.
Proof.
  unfold Handler, corsMiddleware. destruct (decide _) as [?|_]; [done|].
  unfold mux. rewrite Hp. change (cleanPath _) with (str "/api/v1/dlq"). change (route _) with DLQ_.
  destruct (decide _) as [[[] _]|_]; [done|]. by rewrite (bind_ret _ _ _ _ _ (handleDLQ_run r env s Hb)).
Qed.
End requests.

(** ** Witnesses *)

Lemma orders_segment : path_segment "orders".
Proof. apply (bool_decide_unpack _). by vm_compute. Qed.

Lemma demo_request_fresh : fresh_for (demo_broker false) "orders" [request_id demo_env (demo_broker false)].
Proof. apply demo_fresh; [apply NoDup_singleton|simpl; lia]. Qed.

Lemma http_publish_consume_witness :
  ∃ s1 s2 resp1 resp2 m,
    Handler no_page no_page (publish_request "orders" (str "hello")) demo_env (demo_broker false) = Ret resp1 s1 ∧
    Handler no_page no_page (consume_request "orders" []) demo_env s1 = Ret resp2 s2 ∧
    Unmarshal (rp_Body resp2) = Some m ∧ msg_Payload m = Some (str "hello").
Proof.
  destruct (http_publish_consume no_page no_page "orders" (str "hello") demo_env demo_env [] (demo_broker false)
    (Some (false, ["0-1-"]))) as (s1 & s2 & resp1 & resp2 & m & E1 & _ & _ & E2 & _ & Eu & _ & _ & Hp & _).
  - apply NewBroker_inv.
  - apply orders_segment.
  - by vm_compute.
  - by vm_compute.
  - done.
  - done.
  - apply demo_request_fresh.
  - done.
  - exists s1, s2, resp1, resp2, m. by split_and!.
Defined.

Definition demo_push : readings := mkReadings (λ _, 0) (λ _, []) 0 0 0 [] [] 5 true.

Lemma front_ends_agree_witness :
  ∃ s' resp rep1 rep2,
    Handler no_page no_page (publish_request "orders" (str "a")) demo_env (demo_broker true) = Ret resp s' ∧
    case_VMQ_PUBLISH [Some (str "orders"); Some (str "a")] demo_push (demo_broker true) = Ret (rep1, Done) s' ∧
    case_PUSH false [Some (str "orders"); Some (str "a")] demo_push (demo_broker true) = Ret (rep2, Done) s'.
Proof.
  apply (front_ends_agree no_page no_page "orders" (str "a") demo_env demo_push (demo_broker true)).
  - apply NewBroker_inv.
  - apply orders_segment.
  - by vm_compute.
  - done.
  - done.
  - apply demo_fresh; [apply NoDup_singleton|simpl; lia].
  - apply demo_answered.
Defined.

(** A broker with the empty topic [orders]. *)
Definition empty_orders : Store * Broker (bool * list string) :=
  match GetOrCreateTopic "orders" (demo_broker false) with Ret _ s => s | _ => demo_broker false end.

Lemma empty_orders_inv :
  ∃ t, broker_inv empty_orders ∧ b_topics empty_orders.2 !! "orders" = Some t ∧ queue_locs empty_orders "orders" = [] ∧
    dead_ids empty_orders "orders" = [].
Proof.
  destruct (GetOrCreateTopic_run (demo_broker false) "orders" (NewBroker_inv _ _)) as (ts & t & E & Ht & Hb & Hor & _ & Ho).
  exists t. unfold empty_orders. rewrite E. split_and!; [done|done| |].
  - destruct Hor as [?|Hn]; [done|]. destruct (new_topic_facts (demo_broker false) "orders" t (or_intror Hn)) as [_ Hq].
    unfold queue_locs. simpl. rewrite Ht. exact Hq.
  - unfold dead_ids. simpl. rewrite Ht. destruct Hor as [?|[_ Hn]]; [done|]. vm_compute in Hn. by injection Hn as <-.
Qed.

Lemma http_consume_parks_witness :
  Handler no_page no_page (consume_request "orders" []) demo_env empty_orders = Block empty_orders.
Proof.
  destruct empty_orders_inv as (t & Hb & Ht & Hq & _).
  apply (http_consume_parks no_page no_page "orders" t demo_env [] empty_orders).
  - exact Hb.
  - apply orders_segment.
  - exact Ht.
  - exact Hq.
  - by vm_compute.
Defined.

Definition purge_request : Request := demo_request "GET" (str "/api/v1/dlq/purge") [].

Lemma http_purge_exact_witness :
  ∃ s', Handler no_page no_page purge_request demo_env (demo_broker false) =
    Ret (with_cors (Encode (JObj [(str "count", json_int 0); (str "status", json_string "purged")]))) s'.
Proof.
  destruct (http_purge_exact no_page no_page purge_request demo_env (demo_broker false)) as (s' & E & _).
  - apply NewBroker_inv.
  - done.
  - done.
  - done.
  - by vm_compute.
  - by vm_compute.
  - exists s'. exact E.
Defined.

Lemma http_dlq_lists_witness :
  Handler no_page no_page (demo_request "GET" (str "/api/v1/dlq") []) demo_env (demo_broker false) =
    Ret (with_cors (Encode JNull)) (demo_broker false).
Proof.
  rewrite (http_dlq_lists no_page no_page (demo_request "GET" (str "/api/v1/dlq") []) demo_env (demo_broker false)).
  - apply NewBroker_inv.
  - done.
  - done.
  - done.
Defined.
