(* ===== verification/ApiJson.v ===== *)
(** * JSON values as payloads

    The HTTP API decodes a payload into an [any] and publishes the JSON text of
    what it decoded.  Values in normal form (members in the order of their keys,
    each key once, whole numbers below [2 ^ 53]) are published as they are; every
    value with such numbers is published in normal form.  A JSON value sent over
    HTTP is then the same publication as its text sent with [VMQ.PUBLISH]. *)

From stdpp Require Import sorting.
From S2P Require Import Prelude GoText Message RingBuffer TimingWheel DeadLetter ConsumerGroup.
From S2P Require Import Topic Custody TopicSafety Broker BrokerSafety Encoding Json GoFloat MessageJson.
From S2P Require Import Resp Server CommandSafety Api ApiSafety ApiSpec.

(** ** Maps in the order of their keys *)

Global Instance member_le_trans : Transitive member_le.
Proof.
  intros a b c Hab Hbc. apply Is_true_true. etrans; apply Is_true_true; [exact Hab|exact Hbc].
Qed.

Global Instance member_le_total : Total member_le.
Proof. intros a b. apply String.leb_total. Qed.

(** [as_map] sorts, and keeps the last of equal keys. *)
Lemma as_map_spec ms :
  Sorted member_le (as_map ms) ∧ NoDup (as_map ms).*1 ∧
  (list_to_map (as_map ms) : gmap string json) = list_to_map (reverse ms).
Proof.
  unfold as_map. split_and!.
  - apply Sorted_merge_sort, _.
  - rewrite merge_sort_Permutation. apply NoDup_fst_map_to_list.
  - etrans; [apply list_to_map_proper, merge_sort_Permutation|apply list_to_map_to_list].
    rewrite merge_sort_Permutation. apply NoDup_fst_map_to_list.
Qed.

(** A sorted list without duplicates is the list of a map. *)
Lemma as_map_sorted ms : Sorted member_le ms → NoDup ms.*1 → as_map ms = ms.
Proof.
  intros Hs Hnd. assert (as_map ms ≡ₚ ms) as Hp.
  { unfold as_map. rewrite merge_sort_Permutation map_to_list_to_map; [|apply reverse_Permutation].
    rewrite fmap_reverse. by rewrite reverse_Permutation. }
  apply (Sorted_unique_strong member_le); [|apply as_map_spec|done|done].
  intros [k1 v1] [k2 v2] H1 H2 H12 H21. rewrite Hp in H1.
  assert (k1 = k2) as <- by (by apply String.leb_antisym).
  apply list_elem_of_lookup in H1 as [i Hi]. apply list_elem_of_lookup in H2 as [j Hj].
  assert (i = j) as <-; [|congruence]. eapply NoDup_lookup; [exact Hnd|..]; rewrite list_lookup_fmap.
  - by rewrite Hi.
  - by rewrite Hj.
Qed.

(** ** Normal forms *)

Definition named (ms : list (bytes * json)) : list (string * json) := (λ kv, (gostring kv.1, kv.2)) <$> ms.

Definition whole_number (lit : bytes) : Prop := ∃ z, lit = FormatInt z ∧ Z.abs z < 2 ^ 53.

(** Values that come out of the parser, with whole numbers. *)
Fixpoint regular (v : json) : Prop :=
  match v with
  | JNull | JBool _ => True
  | JNum lit => whole_number lit
  | JStr s => valid_utf8 s
  | JArr vs => foldr (λ v P, regular v ∧ P) True vs
  | JObj ms => foldr (λ kv P, (valid_utf8 kv.1 ∧ regular kv.2) ∧ P) True ms
  end.

(** The members of every object in order, each key once. *)
Fixpoint ordered (v : json) : Prop :=
  match v with
  | JArr vs => foldr (λ v P, ordered v ∧ P) True vs
  | JObj ms => Sorted member_le (named ms) ∧ NoDup (named ms).*1 ∧ foldr (λ kv P, ordered kv.2 ∧ P) True ms
  | _ => True
  end.

Lemma foldr_conj {A} (P : A → Prop) l : foldr (λ x Q, P x ∧ Q) True l ↔ Forall P l.
Proof. induction l as [|x l IH]; simpl; [done|]. by rewrite Forall_cons IH. Qed.

Lemma str_named ms : (λ kv : string * json, (str kv.1, kv.2)) <$> named ms = ms.
Proof.
  unfold named. rewrite -list_fmap_compose -{2}(list_fmap_id ms). apply list_fmap_ext.
  intros i [k v] _. simpl. by rewrite str_gostring.
Qed.

(** A value in normal form is decoded to itself. *)
Lemma decode_any_normal v : regular v → ordered v → decode_any v = Some v.
Proof.
  induction v as [|b|lit|s|vs IH|ms IH] using json_nested_ind; intros Hr Ho; [done|done| |done|..].
  - destruct Hr as (z & -> & Hz). simpl. by rewrite float_text_whole.
  - cbn [regular ordered] in Hr, Ho. rewrite foldr_conj in Hr. rewrite foldr_conj in Ho. cbn [decode_any].
    rewrite (mapM_Some_2 _ _ vs) //. apply Forall2_same_length_lookup_2; [done|]. intros i x y Hx Hy.
    rewrite Hx in Hy. injection Hy as <-. rewrite !Forall_lookup in IH Hr Ho. eauto.
  - destruct Ho as (Hs & Hnd & Ho). cbn [regular] in Hr. rewrite foldr_conj in Hr. rewrite foldr_conj in Ho.
    cbn [decode_any]. rewrite (mapM_Some_2 _ _ (named ms)).
    2: { cbn [mbind option_bind]. by rewrite as_map_sorted // str_named. }
    apply Forall2_fmap_r, Forall2_same_length_lookup_2; [done|]. intros i x y Hx Hy.
    rewrite Hx in Hy. injection Hy as <-. rewrite !Forall_lookup in IH Hr Ho.
    rewrite (IH i x Hx) //; [by eapply Hr|by eapply Ho].
Qed.

(** Every regular value is decoded to a normal form. *)
Lemma decode_any_regular v : regular v → ∃ w, decode_any v = Some w ∧ regular w ∧ ordered w.
Proof.
  induction v as [|b|lit|s|vs IH|ms IH] using json_nested_ind; intros Hr; [by eexists|by eexists| |by eexists|..].
  - exists (JNum lit). split; [by apply decode_any_normal|done].
  - cbn [regular] in Hr. rewrite foldr_conj in Hr.
    assert (∃ ws, mapM decode_any vs = Some ws ∧ Forall (λ w, regular w ∧ ordered w) ws) as (ws & E & Hws).
    { induction vs as [|v vs IHvs]; [by exists []|]. apply Forall_cons in IH as [Hv IH]. apply Forall_cons in Hr as [Hrv Hr].
      destruct (Hv Hrv) as (w & Ew & Hw). destruct (IHvs IH Hr) as (ws & Ews & Hws). exists (w :: ws).
      split; [|by constructor]. cbn [mapM]. by rewrite Ew Ews. }
    exists (JArr ws). cbn [decode_any regular ordered]. rewrite E !foldr_conj -Forall_and. done.
  - cbn [regular] in Hr. rewrite foldr_conj in Hr.
    assert (∃ ws, mapM (λ kv : bytes * json, (λ w, (gostring kv.1, w)) <$> decode_any kv.2) ms = Some ws ∧
      Forall (λ kw : string * json, valid_utf8 (str kw.1) ∧ regular kw.2 ∧ ordered kw.2) ws) as (ws & E & Hws).
    { induction ms as [|[k v] ms IHms]; [by exists []|]. apply Forall_cons in IH as [Hv IH].
      apply Forall_cons in Hr as [[Hk Hrv] Hr].
      destruct (Hv Hrv) as (w & Ew & Hw). destruct (IHms IH Hr) as (ws & Ews & Hws). exists ((gostring k, w) :: ws).
      split; [|by constructor; [rewrite /= str_gostring|]]. cbn [mapM fst snd] in *. by rewrite Ew Ews. }
    eexists. cbn [decode_any]. rewrite E. split; [done|].
    destruct (as_map_spec ws) as (Hs & Hnd & Em).
    assert (Forall (λ kw : string * json, valid_utf8 (str kw.1) ∧ regular kw.2 ∧ ordered kw.2) (as_map ws)) as Ha.
    { apply Forall_forall. intros [k w] Hin. apply (elem_of_list_to_map_1 (M := gmap string)) in Hin; [|done].
      rewrite Em in Hin. apply elem_of_list_to_map_2 in Hin. rewrite elem_of_reverse in Hin.
      rewrite Forall_forall in Hws. by apply (Hws (k, w)). }
    assert (named ((λ kv : string * json, (str kv.1, kv.2)) <$> as_map ws) = as_map ws) as En.
    { unfold named. rewrite -list_fmap_compose -{2}(list_fmap_id (as_map ws)). apply list_fmap_ext.
      intros i [k v] _. simpl. by rewrite gostring_str. }
    cbn [regular ordered]. rewrite En !foldr_conj !Forall_fmap.
    split; [|split_and!; [done|done|]]; (eapply Forall_impl; [exact Ha|]); by intros [k w] (? & ? & ?).
Qed.

Lemma map_fixed {A} (f : A → A) l : Forall (λ x, f x = x) l → map f l = l.
Proof. induction 1 as [|x l Hx _ IH]; [done|]. simpl. by rewrite Hx IH. Qed.

(** The parser returns a regular value as it was. *)
Lemma regular_parses v : regular v → well_formed v ∧ clean v = v.
Proof.
  induction v as [|b|lit|s|vs IH|ms IH] using json_nested_ind; intros Hr; [done|done| |..].
  - destruct Hr as (z & -> & _). split; [by exists z|done].
  - split; [done|]. cbn [clean]. by rewrite Hr.
  - cbn [regular well_formed clean] in *. rewrite foldr_conj in Hr. rewrite foldr_conj.
    assert (Forall (λ v, well_formed v ∧ clean v = v) vs) as Hvs.
    { eapply Forall_impl; [apply Forall_and; split; [exact IH|exact Hr]|]. intros v [H1 H2]. by apply H1. }
    apply Forall_and in Hvs as [Hw Hc]. split; [done|]. f_equal. by apply map_fixed.
  - cbn [regular well_formed clean] in *. rewrite foldr_conj in Hr. rewrite foldr_conj.
    assert (Forall (λ kv : bytes * json, well_formed kv.2 ∧ clean_member kv = kv) ms) as Hms.
    { eapply Forall_impl; [apply Forall_and; split; [exact IH|exact Hr]|]. intros [k v] [H1 [Hk H2]].
      destruct (H1 H2) as [Hw Hc]. split; [done|]. unfold clean_member. cbn [fst snd] in *. by rewrite Hk Hc. }
    apply Forall_and in Hms as [Hw Hc]. split; [done|]. f_equal. by apply (map_fixed clean_member).
Qed.

(** ** Publishing a value *)

Definition value_body (v : json) : bytes := print_json (JObj [(str "payload", v)]).

(** The bytes published for a decoded value: a string itself, else its JSON text. *)
Definition payload_text (w : json) : bytes := match w with JStr s => s | _ => print_json w end.

(** What the request with the value [v], decoded to [w], publishes: a [null] payload is
    [nil], which the handler takes for no payload, and the body is published as it is. *)
Definition published_text (v w : json) : bytes := match v with JNull => value_body v | _ => payload_text w end.

Lemma decode_value_body v w : regular v → nesting v < maxNestingDepth → decode_any v = Some w →
  publish_payload (value_body v) = published_text v w ∧ publish_delay_ms (value_body v) = 0.
Proof.
  intros Hr Hn Hd. assert (v = JNull ∨ v ≠ JNull) as [->|Hs] by (destruct v; auto); [by vm_compute|].
  assert (published_text v w = payload_text w) as -> by by destruct v. destruct (regular_parses v Hr) as [Hw Hc].
  assert (decode_publish (value_body v) = (mkPublishReq (Some w) 0, true)) as E.
  { unfold decode_publish, value_body. rewrite -(app_nil_r (print_json _)) parse_print.
    - by cbn.
    - cbn [nesting foldr snd]. unfold maxNestingDepth in *. lia.
    - done.
    - cbn [clean map fold_left fst snd]. unfold publish_member.
      change (gostring (fold_name _)) with "PAYLOAD". destruct (decide ("PAYLOAD" = "PAYLOAD")) as [_|[]]; [|done].
      cbn [snd]. rewrite Hc. destruct v; [done|..]; by rewrite Hd. }
  unfold publish_payload, publish_delay_ms. by rewrite E.
Qed.

(** C20: the front ends agree.  A payload sent over HTTP as a string, or as any other
    JSON value but [null], is published as that string, or as the JSON text of its normal
    form [w] (keys sorted, of equal keys the last); for [null] the handler publishes the
    whole body.  The value's strings and keys are valid UTF-8, its numbers are whole and
    below [2 ^ 53], and it is nested less than the 10000 levels the decoder accepts.
    [POST .../publish] of the value and [VMQ.PUBLISH] and [RPUSH] of those bytes, at the
    same moment and with the same random bytes, leave the broker in exactly the same
    state, whatever the log answers (it must not panic), if the ID is new and the topic
    has room for it.  A value in normal form is its own normal form, so publishing a
    consumed payload again changes nothing in it. *)
Theorem json_front_ends_agree {W : Type} `{BrokerWAL W} studio redirect n v env r (s : Store * Broker W)
  (Hb : broker_inv s) (Hn : path_segment n) (Hv : regular v) (Hd : nesting v < maxNestingDepth)
  (Hnow : rd_now r 0 = env_now env) (Hrnd : rd_rand r 0 = env_rand env) (Hf : fresh_for s n [request_id env s])
  (Hlog : ∀ w, decode_any v = Some w →
    answered (LogPublish (created n (Some (published_text v w)) (env_now env) (env_rand env) s.1))) :
  ∃ w s' resp rep1 rep2,
    decode_any v = Some w ∧ (ordered v → w = v) ∧ ordered w ∧
    Handler studio redirect (post_request n (value_body v)) env s = Ret resp s' ∧
    case_VMQ_PUBLISH [Some (str n); Some (published_text v w)] r s = Ret (rep1, Done) s' ∧
    case_PUSH false [Some (str n); Some (published_text v w)] r s = Ret (rep2, Done) s'.
Proof.
  destruct (decode_any_regular v Hv) as (w & Ew & _ & Ho). destruct (decode_value_body v w Hv Hd Ew) as [Ep Edel].
  destruct (publications_agree n (published_text v w) env r s Hb Hnow Hrnd Hf (Hlog w Ew)) as (s' & resp & rep1 & rep2 & E1 & E2 & E3).
  exists w, s', resp, rep1, rep2. split_and!; [done| |done| |done|done].
  - intros Hov. rewrite decode_any_normal // in Ew. by injection Ew.
  - by rewrite post_request_run // Ep.
Qed.

Definition demo_value : json := JObj [(str "qty", JNum (str "3")); (str "item", JStr (str "book"))].

Lemma demo_value_regular : regular demo_value.
Proof. split; [split; [by vm_compute|by exists 3]|]. split; [split; by vm_compute|done]. Qed.

Lemma json_front_ends_agree_witness :
  ∃ w s' resp rep1 rep2,
    decode_any demo_value = Some w ∧ (ordered demo_value → w = demo_value) ∧ ordered w ∧
    Handler no_page no_page (post_request "orders" (value_body demo_value)) demo_env (demo_broker true) = Ret resp s' ∧
    case_VMQ_PUBLISH [Some (str "orders"); Some (published_text demo_value w)] demo_push (demo_broker true) = Ret (rep1, Done) s' ∧
    case_PUSH false [Some (str "orders"); Some (published_text demo_value w)] demo_push (demo_broker true) = Ret (rep2, Done) s'.
Proof.
  apply (json_front_ends_agree no_page no_page "orders" demo_value demo_env demo_push (demo_broker true)).
  - apply NewBroker_inv.
  - apply orders_segment.
  - apply demo_value_regular.
  - by vm_compute.
  - done.
  - done.
  - apply demo_fresh; [apply NoDup_singleton|simpl; lia].
  - intros w _. apply demo_answered.
Defined.
