(* ===== verification/Daemon.v ===== *)
(** * Start-up and shutdown

    Models [main] of [src/cmd/vortexmq/main.go]: the flags, the choice of the
    fsync policy, the start of the broker on the log it finds, the configuration
    of the two servers, and the sequence of the graceful shutdown.  Log lines,
    the banner and the listening sockets are left out.

    The theorems compose the components: a message that was accepted before the
    machine died is in its topic after the next start; a graceful shutdown
    of a server whose connections are idle leaves everything that was logged on stable
    storage.  (A shutdown while the rest of the process goes on is in [System].) *)

From stdpp Require Import sorting.
From S2P Require Import Api.
From S2P Require Import Prelude GoText Message RingBuffer TimingWheel DeadLetter ConsumerGroup.
From S2P Require Import Topic Custody TopicSafety Broker BrokerSafety Encoding Json GoFloat MessageJson.
From S2P Require Import Checksum Wal WalDurable WalWindow Recovery Resp Server ServerSafety CommandSafety.

(** ** Start-up *)

Record Flags : Type := mkFlags {
  fl_brokerPort : Z;
  fl_studioPort : Z;
  fl_dir : string;
  fl_wal : bool;
  fl_password : string;
  fl_fsync : string
}.

Definition default_flags : Flags := mkFlags 8379 8380 "./data" true "" "everysec".

(** [switch *fsyncPolicyStr]; everything else is [FsyncEverySec]. *)
Definition policy_of (s : string) : FsyncPolicy :=
  if decide (s = "always") then FsyncAlways else
  if decide (s = "none") then FsyncNone else FsyncEverySec.

(** [fmt.Sprintf(":%d", port)] *)
Definition addr_of (port : Z) : string := gostring (":"%byte :: FormatInt port).

Definition tcp_server (f : Flags) : Server.Server :=
  Server.Start (Server.NewServer (Server.mkServerConfig (addr_of (fl_brokerPort f)) (fl_password f) 0)).

Definition api_server (f : Flags) : Api.Server :=
  Api.Start (Api.NewServer (Api.mkServerConfig (addr_of (fl_studioPort f)))).

(** The outcome of the start: [log.Fatalf], or the broker after the replay with
    the number of messages it recovered. *)
Inductive outcome : Type :=
| Fatal (msg : string)
| Booted (r : result (Store * Broker WS) Z).

Local Existing Instance wal_contract.

Abbreviation PS := (Store * Broker WS)%type.

Definition startup (f : Flags) (d : Disk) : outcome :=
  if fl_wal f then
    match OpenWAL (policy_of (fl_fsync f)) d with
    | Ret (Some w) d' =>
        Booted (Replay (files_of f_data d') restore (mkStore ∅ 0, NewBroker (Some (w, d'))))
    | _ => Fatal "failed to initialize WAL"
    end
  else Booted (Ret 0 (mkStore ∅ 0, NewBroker None)).

(** ** Shutdown *)

(** Where a connection's handler is when the signal comes: reading the next
    command, which fails once [Stop] has closed its socket, or inside a pop. *)
Inductive handler_at : Type :=
| Reading
| Popping (topic : string) (timeout t0 t1 : Z).

Definition returns (h : handler_at) (s : PS) : bool :=
  match h with
  | Reading => true
  | Popping n timeout t0 t1 => match Broker.Consume n timeout t0 t1 s with Ret _ _ => true | _ => false end
  end.

(** [tcpServer.Stop()], which ends in [s.wg.Wait()]; [apiServer.Stop(ctx)], which
    gives up after five seconds; [broker.Close()].  This is the shutdown up to its first
    wait: it parks if, in the state in which the signal arrives, a handler is inside a
    pop that does not return.  Such a handler may be woken later by the goroutines that
    are still running; that is the subject of [System.shutdown_waits]. *)
Definition shutdown (handlers : list handler_at) (order : list string) : prog (Server.Server * PS) error :=
  modify lens_fst server_Stop;;
  s ← gets lens_snd id;
  (if forallb (λ h, returns h s) handlers then mret tt else park);;
  zoom lens_snd (Broker.Close order).

(** ** The disk across a crash *)

(** The machine died, or only the process: every segment is still listed, and has lost
    any number of bytes from its end that were not synced.  (That the directory entry of
    a segment survives is assumed: the code never syncs the directory.) *)
Record crashed (d d' : Disk) : Prop := mkCrashed {
  cr_faults : d_faults d' = [];
  cr_dom : ∀ id, is_Some (d_segs d' !! id) ↔ is_Some (d_segs d !! id);
  cr_data : ∀ id f f', d_segs d !! id = Some f → d_segs d' !! id = Some f' →
    f_durable f `prefix_of` f_data f' ∧ f_data f' `prefix_of` f_data f
}.

(** The worst case: only what was synced is left. *)
Definition crash (d : Disk) : Disk := mkDisk ((λ f, mkFile (f_durable f) (f_durable f)) <$> d_segs d) [].

Lemma crash_crashed d : (∀ id f, d_segs d !! id = Some f → f_durable f `prefix_of` f_data f) → crashed d (crash d).
Proof.
  intros Hp. split; [done| |].
  - intros id. unfold crash. simpl. rewrite lookup_fmap. by rewrite fmap_is_Some.
  - intros id f f' Hf. unfold crash. simpl. rewrite lookup_fmap Hf. intros [= <-]. split; [done|by eapply Hp].
Qed.

Lemma log_rep_crashed ws old cur : log_rep ws old cur → crashed ws.2 (crash ws.2).
Proof.
  intros Hl. apply crash_crashed. intros id f Hf. pose proof (log_disk_ok _ _ _ Hl id) as Hp.
  unfold seg_file in Hp. by rewrite Hf in Hp.
Qed.

(** The order of the segments depends on their numbers only. *)
Lemma segment_ids_ext d d' :
  (∀ id, is_Some (d_segs d' !! id) ↔ is_Some (d_segs d !! id)) → segment_ids d' = segment_ids d.
Proof.
  intros Hd. apply (StronglySorted_unique Z.le); [apply (StronglySorted_merge_sort Z.le)..|].
  unfold segment_ids. rewrite !merge_sort_Permutation. apply NoDup_Permutation; [apply NoDup_fst_map_to_list..|].
  assert (∀ (e : Disk) id, id ∈ (map_to_list (d_segs e)).*1 ↔ is_Some (d_segs e !! id)) as Hin.
  { intros e id. rewrite list_elem_of_fmap. split.
    - intros ([id' f] & -> & Hf%elem_of_map_to_list). by eexists.
    - intros [f Hf]. exists (id, f). split; [done|by apply elem_of_map_to_list]. }
  intros id. by rewrite !Hin.
Qed.

(** More bytes of the same records scan to more of them. *)
Lemma scan_mono rs x y :
  Forall record_ok rs → x `prefix_of` y → y `prefix_of` encs rs → scan x `prefix_of` scan y.
Proof.
  intros Hok Hxy Hy. destruct (scan_prefix rs x Hok) as (k & -> & Hk & _ & Hkl); [by etrans|].
  destruct (scan_prefix rs y Hok Hy) as (k' & -> & _ & Hor & _).
  destruct (decide (k ≤ k')%nat) as [Hle|Hgt].
  { replace (take k rs) with (take k (take k' rs)) by (rewrite take_take; f_equal; lia). apply prefix_take. }
  destruct Hor as [->|Hlt]; [lia|]. exfalso.
  assert (encs (take (S k') rs) `prefix_of` encs (take k rs)) as Hs.
  { replace k with (S k' + (k - S k'))%nat by lia. rewrite -take_take_drop encs_app. by eexists. }
  apply prefix_length in Hs, Hk, Hxy. lia.
Qed.

(** What is read after the death of the machine: at least what was synced, at most what
    was written, up to a record. *)
Lemma recovered_crashed ws old cur d' :
  log_rep ws old cur → crashed ws.2 d' →
  recovered f_durable ws.2 `prefix_of` recovered f_data d' ∧ recovered f_data d' `prefix_of` concat old ++ cur.
Proof.
  intros Hl [_ Hdom Hdata]. rewrite (recovered_rep _ _ _ f_durable Hl); [by right|].
  rewrite recovered_segments (segment_ids_ext _ _ Hdom) (segment_ids_rep _ _ _ Hl) bind_app.
  assert (∀ id f, d_segs ws.2 !! id = Some f → ∃ f', d_segs d' !! id = Some f' ∧
    f_durable f `prefix_of` f_data f' ∧ f_data f' `prefix_of` f_data f) as Hseg.
  { intros id f Hf. destruct (proj2 (Hdom id) ltac:(by eexists)) as [f' Hf']. eauto. }
  rewrite (bind_seqZ _ old).
  { intros i rs Hi. pose proof (lr_old _ _ _ Hl i rs Hi) as Hf. rewrite Z.add_comm.
    destruct (Hseg _ _ Hf) as (f' & Hf' & H1 & H2). unfold seg_file. rewrite Hf'.
    change (f_data (default _ _)) with (f_data f'). rewrite (_ : f_data f' = encs rs); [by apply (anti_symm prefix)|].
    apply scan_whole.
    pose proof (lr_ok _ _ _ Hl) as H. apply Forall_app in H as [H _]. by eapply Forall_lookup_1 in H. }
  rewrite bind_cons app_nil_r. destruct (ar_data _ _ (lr_act _ _ _ Hl)) as (f & Hf & HX & _).
  destruct (Hseg _ _ Hf) as (f' & Hf' & H1 & H2). unfold seg_file. rewrite Hf Hf'.
  change (f_data (default _ _)) with (f_data f'). change (f_durable (default _ _)) with (f_durable f).
  assert (f_data f `prefix_of` encs cur) as Hp by (rewrite -HX; by eexists).
  pose proof (log_cur_ok _ _ _ Hl) as Hok. split; apply prefix_app.
  - apply (scan_mono cur); [done|done|by etrans].
  - destruct (scan_prefix cur (f_data f') Hok) as (k & -> & _); [by etrans|apply prefix_take].
Qed.

(** Opening a log that exists changes nothing on the disk. *)
Lemma OpenWAL_existing policy d :
  d_faults d = [] → is_Some (d_segs d !! 1) → ∃ w, OpenWAL policy d = Ret (Some w) d.
Proof.
  intros Hf [f H1]. destruct d as [segs faults]. simpl in Hf, H1. subst faults. unfold OpenWAL, os_open, os_stat, syscall.
  run. eexists. f_equal. unfold put_file, seg_file. simpl. by rewrite H1 /= insert_id.
Qed.

Lemma log_rep_first ws old cur : log_rep ws old cur → is_Some (d_segs ws.2 !! 1).
Proof.
  intros Hl. destruct old as [|rs old].
  - destruct (ar_data _ _ (lr_act _ _ _ Hl)) as (f & Hf & _). rewrite (lr_id _ _ _ Hl) in Hf. by eexists.
  - pose proof (lr_old _ _ _ Hl 0%nat rs eq_refl) as H1. by eexists.
Qed.

(** The messages that replay reads from the disk as it is. *)
Definition readable (d : Disk) : list Message := omap replay_record (recovered f_data d).

Lemma omap_prefix {A B} (f : A → option B) l1 l2 : l1 `prefix_of` l2 → omap f l1 `prefix_of` omap f l2.
Proof. intros [k ->]. rewrite omap_app. by eexists. Qed.

Lemma readable_crashed ws old cur d' :
  log_rep ws old cur → crashed ws.2 d' →
  surviving ws.2 `prefix_of` readable d' ∧ readable d' `prefix_of` omap replay_record (concat old ++ cur).
Proof. intros Hl Hc. destruct (recovered_crashed _ _ _ _ Hl Hc). split; by apply omap_prefix. Qed.

Lemma readable_synced ws old cur d' :
  log_rep ws old cur → synced ws cur → crashed ws.2 d' → readable d' = surviving ws.2.
Proof.
  intros Hl Hs Hc. destruct (readable_crashed _ _ _ _ Hl Hc) as [H1 H2]. apply (anti_symm prefix); [|done].
  unfold surviving. rewrite (recovered_synced _ _ _ f_durable Hl Hs) //. by right.
Qed.

Lemma startup_run f d :
  fl_wal f = true → d_faults d = [] → is_Some (d_segs d !! 1) →
  Forall retryable (readable d) → NoDup (msg_ID <$> readable d) →
  (∀ n, Z.of_nat (length (ids_of n (readable d))) ≤ 50000) →
  ∃ s', startup f d = Booted (Ret (Z.of_nat (length (readable d))) s') ∧ broker_inv s' ∧
    ∀ n, owned s' n ≡ₚ ids_of n (readable d).
Proof.
  intros Hw Hf H1 Hret Hnd Hlen. unfold startup. rewrite Hw.
  destruct (OpenWAL_existing (policy_of (fl_fsync f)) d Hf H1) as [w ->].
  destruct (replay_rebuilds (mkStore ∅ 0) (Some (w, d)) (files_of f_data d) Hret Hnd Hlen) as (s' & E & Hb & Ho).
  exists s'. by rewrite E.
Qed.

(** ** Closing the broker *)

Lemma close_topics_run (order : list string) : ∀ s : PS,
  ∃ s', forM order (λ name, zoom (lens_topic name) Topic.Close) s = Ret tt s' ∧ b_wal s'.2 = b_wal s.2 ∧
    b_closed s'.2 = b_closed s.2.
Proof.
  induction order as [|n order IH]; intros s; [by exists s|]. cbn [forM].
  destruct (Close_returns (view (lens_topic n) s)) as (t' & E).
  rewrite (bind_ret _ _ _ _ _ (zoom_ret (lens_topic n) _ s tt t' E)).
  destruct (IH (over (lens_topic n) t' s)) as (s' & E' & Hw & Hc). exists s'. by rewrite E' Hw Hc.
Qed.

(** Closing an open broker closes its log. *)
Lemma Broker_Close_run order (s : PS) ws old cur :
  b_closed s.2 = false → b_wal s.2 = Some ws → log_rep ws old cur →
  ∃ s' ws', Broker.Close order s = Ret None s' ∧ b_closed s'.2 = true ∧ b_wal s'.2 = Some ws' ∧
    recovered f_durable ws'.2 = concat old ++ cur.
Proof.
  intros Hc Hw Hl. destruct (wal_Close_run ws old cur Hl) as (ws' & E & Hrec).
  destruct (close_topics_run order (s.1, set_stopped s.2)) as (s1 & E1 & Hw1 & Hc1). cbn in Hw1, Hc1.
  exists (s1.1, with_wal (Some ws') s1.2), ws'. split_and!; [|exact Hc1|done|done].
  unfold Broker.Close. rewrite (bind_ret (gets lens_snd b_closed) _ s false s); [by unfold gets; cbn; rewrite Hc|].
  rewrite (bind_ret (modify lens_snd set_stopped) _ s tt (s.1, set_stopped s.2)); [done|].
  rewrite (bind_ret _ _ _ _ _ E1). unfold zoom, on_wal. cbn [view over lens_wal]. rewrite Hw1 Hw. cbn. by rewrite E.
Qed.

Lemma ids_of_app n l1 l2 : ids_of n (l1 ++ l2) = ids_of n l1 ++ ids_of n l2.
Proof. unfold ids_of. by rewrite filter_app fmap_app. Qed.

(** ** Properties *)


(** C22: what the start does.  Without the log the broker starts empty.  With it, a disk
    on which the directory cannot be made or the first segment cannot be opened is fatal;
    on a working disk that has the first segment, and messages that can be read with
    distinct IDs, attempts left and at most 50000 per topic, the broker starts, under any
    fsync flag, with all of them: it reports their number and each topic holds exactly
    its own.  (Replay does not look at acknowledgements: messages that were consumed
    before come back, too.) *)
Theorem startup_recovers f d :
  (fl_wal f = false → startup f d = Booted (Ret 0 (mkStore ∅ 0, NewBroker None))) ∧
  (∀ k faults, fl_wal f = true → (d_faults d = Some k :: faults ∨ d_faults d = None :: Some k :: faults) →
     startup f d = Fatal "failed to initialize WAL") ∧
  (fl_wal f = true → d_faults d = [] → is_Some (d_segs d !! 1) →
   Forall retryable (readable d) → NoDup (msg_ID <$> readable d) →
   (∀ n, Z.of_nat (length (ids_of n (readable d))) ≤ 50000) →
   ∃ s', startup f d = Booted (Ret (Z.of_nat (length (readable d))) s') ∧ broker_inv s' ∧
     ∀ n, owned s' n ≡ₚ ids_of n (readable d)).
Proof.
  split_and!; [|intros k faults Hw Hf|by apply startup_run]; unfold startup.
  - by intros ->.
  - rewrite Hw. unfold OpenWAL, os_open, syscall. run. destruct Hf as [-> | ->]; by run.
Qed.

(** C30: a graceful shutdown loses nothing.  If every connection is idle when the signal
    comes, and the log was opened in an empty directory on a working disk ([log_rep]),
    the shutdown ends, the broker is closed, and everything the log was given, under any
    fsync policy, is on stable storage. *)
Theorem shutdown_durable sv (s : PS) handlers order ws old cur
  (Hidle : Forall (λ h, h = Reading) handlers) (Hc : b_closed s.2 = false)
  (Hw : b_wal s.2 = Some ws) (Hl : log_rep ws old cur) :
  ∃ s' ws', shutdown handlers order (sv, s) = Ret None (server_Stop sv, s') ∧ b_closed s'.2 = true ∧
    b_wal s'.2 = Some ws' ∧ recovered f_durable ws'.2 = concat old ++ cur.
Proof.
  destruct (Broker_Close_run order s ws old cur Hc Hw Hl) as (s' & ws' & E & Hc' & Hw' & Hrec).
  exists s', ws'. split_and!; [|done|done|done]. unfold shutdown.
  rewrite (bind_ret (modify lens_fst server_Stop) _ (sv, s) tt (server_Stop sv, s)); [done|].
  rewrite (bind_ret (gets lens_snd id) _ _ s (server_Stop sv, s)); [done|].
  rewrite (_ : forallb (λ h, returns h s) handlers = true).
  { apply forallb_forall. intros h Hh%list_elem_of_In. rewrite Forall_forall in Hidle. by rewrite (Hidle h Hh). }
  rewrite (bind_ret (mret tt) _ _ tt (server_Stop sv, s)); [done|].
  by rewrite (zoom_ret lens_snd _ (server_Stop sv, s) _ _ E).
Qed.

(** ** Witnesses *)


Lemma startup_recovers_witness :
  startup (mkFlags 8379 8380 "d" false "" "always") demo_disk = Booted (Ret 0 (mkStore ∅ 0, NewBroker None)) ∧
  ∃ s', startup default_flags demo_disk = Booted (Ret 2 s') ∧ owned s' "b" ≡ₚ ["1-2-"].
Proof.
  assert (readable demo_disk = demo_messages) as Hrd by exact demo_surviving.
  split.
  - by apply (startup_recovers (mkFlags 8379 8380 "d" false "" "always") demo_disk).
  - destruct (proj2 (proj2 (startup_recovers default_flags demo_disk))) as (s' & E & _ & Ho).
    + done.
    + done.
    + by eexists.
    + rewrite Hrd. by repeat constructor.
    + rewrite Hrd. apply (bool_decide_unpack (NoDup _)). by vm_compute.
    + intros n. rewrite Hrd. pose proof (ids_of_length n demo_messages). simpl in *. lia.
    + rewrite Hrd in E Ho. exists s'. split; [exact E|]. by rewrite Ho.
Defined.

Lemma shutdown_durable_witness :
  ∃ s' ws', shutdown [Reading] [] (tcp_server default_flags, demo_state) =
      Ret None (server_Stop (tcp_server default_flags), s') ∧ b_wal s'.2 = Some ws' ∧ recovered f_durable ws'.2 = [].
Proof.
  destruct (shutdown_durable (tcp_server default_flags) demo_state [Reading] [] (new_wal FsyncAlways) [] [])
    as (s' & ws' & E & _ & Hw & Hr).
  - by constructor.
  - done.
  - done.
  - apply new_wal_rep.
  - exists s', ws'. split_and!; [exact E|exact Hw|exact Hr].
Defined.
