(* ===== verification/System.v ===== *)
(** * The running daemon

    The process that [main] of [src/cmd/vortexmq/main.go] starts: the accept loop
    and the connections of [src/internal/network/server.go], the handlers of
    [src/internal/api/server.go], the goroutines of the sweeper
    ([runSweepLoop]), of the timing wheels ([run]) and of the log
    ([periodicFsync]), over one broker on one write-ahead log.  Its state is a
    [world], its steps [sys_step], in any order; what is seen of a step is an
    [event].

    Shown: from a start on any disk the invariants of the parts hold in every state,
    nothing is lost or duplicated, and whatever comes next is handled without panic
    ([system_safe]); what a restart finds after the machine died at any moment
    ([system_crash]); a shutdown waits as long as a client waits in a pop of an empty
    topic, whatever the rest of the process does meanwhile ([shutdown_waits]); broadcasts
    reach nobody, since no part of the program subscribes ([broadcast_unheard]).

    A round of a connection, a request, a sweep and a tick are one step each: calls of
    the broker that belong to different rounds are not interleaved further (what may
    interleave inside a ring is in [RingWait], calls in any order in
    [broker_trace]).  A pop that waits gives its goroutine up to the steps of the
    others and is tried again; a waiting HTTP request is one that comes again.
    The closing of the broker at the end of a shutdown is in [Daemon]. *)

From S2P Require Import Api ApiSafety.
From S2P Require Import Prelude GoText Message RingBuffer TimingWheel DeadLetter ConsumerGroup.
From S2P Require Import Topic Custody TopicSafety Broker BrokerSafety Journal Encoding Json MessageJson.
From S2P Require Import Checksum Wal WalDurable WalWindow Recovery Resp Server ServerSafety CommandSafety Daemon.

(** ** Nobody subscribes *)

Section subscribers.
Context {W : Type} `{BrokerWAL W}.
Context (ut : bytes → bytes) (studio redirect : Request → Response).

Abbreviation BS := (Store * Broker W)%type.

Abbreviation spares := (within (on (λ s : BS, b_channels s.2) eq)).

Lemma push_all_spares front n vals : ∀ i r, spares (push_all front n vals i r).
Proof. induction vals as [|v vals IH]; intros i r; cbn [push_all]; repeat within_step. Qed.

Lemma ack_all_spares n g ids : ∀ k, spares (ack_all n g ids k).
Proof. induction ids as [|x ids IH]; intros k; cbn [ack_all]; repeat within_step. Qed.

Lemma consumed_payload_spares msg : spares (consumed_payload msg).
Proof. unfold consumed_payload. repeat within_step. Qed.

Lemma reply_published_spares res : spares (reply_published res).
Proof. unfold reply_published, reply. repeat within_step. Qed.

Hint Resolve push_all_spares ack_all_spares consumed_payload_spares reply_published_spares : within.

Lemma switch_spares name args r : spares (switch ut name args r).
Proof.
  unfold switch. repeat case_decide;
    unfold case_PING, case_ECHO, case_INFO, case_PUSH, topic_length, case_POP, case_BPOP, case_LLEN, case_XADD, case_XGROUP,
      case_XREADGROUP, case_XACK, case_VMQ_PUBLISH, case_VMQ_CONSUME, case_VMQ_ACK, case_VMQ_NACK, case_VMQ_REPLAY,
      case_VMQ_PUBLISH_BATCH, case_VMQ_BROADCAST, case_VMQ_STATS, reply, reply_skip, GetTopic; repeat within_step.
Qed.

Lemma serve_spares cfg cmd r c : spares (serve ut cfg cmd r c).
Proof.
  unfold serve. repeat case_match; try by apply within_ret; exact _.
  apply within_bind; [exact _|apply switch_spares|]. intros. repeat within_step.
Qed.

Lemma load_entries_spares es : spares (load_entries es).
Proof. induction es as [|e es IH]; cbn [load_entries]; repeat within_step. Qed.

Lemma list_topics_spares names : ∀ n es, spares (list_topics names n es).
Proof. induction names as [|x names IH]; intros n es; cbn [list_topics]; unfold GetTopic; repeat within_step. Qed.

Lemma purge_topics_spares names : ∀ n, spares (purge_topics names n).
Proof. induction names as [|x names IH]; intros n; cbn [purge_topics]; unfold GetTopic; repeat within_step. Qed.

Hint Resolve load_entries_spares list_topics_spares purge_topics_spares : within.

Lemma Handler_spares r env : spares (Handler studio redirect r env).
Proof.
  unfold Handler, corsMiddleware, mux. repeat (case_match || within_step);
    unfold handleStats, handleTopics, handleTopicAction, publish_action, consume_action, handleDLQ, dead_letters,
      handleDLQReplay, handleDLQPurge, TopicsList, GetTopic; repeat within_step.
Qed.
End subscribers.

Section system.
Context (ut : bytes → bytes) (studio redirect : Request → Response).
Local Existing Instance wal_contract.

(** ** The state of the process *)

(** The goroutine of a connection: between two commands, or in the pop of a
    command that waits. *)
Inductive handler : Type :=
| Ready (c : Conn)
| Waiting (cmd : Command) (c : Conn).

Record world : Type := mkWorld {
  wd_server : Server.Server;
  wd_handlers : gmap positive handler;
  wd_state : PS
}.

(** The command a goroutine can go on with: any when it is ready, and the one whose
    pop was woken when it waits.  What precedes the pop has no effect the second
    time, since topics and groups stay once created. *)
Definition takes (h : handler) (cmd : Command) (c : Conn) : Prop := h = Ready c ∨ h = Waiting cmd c.

(** After the round: the next command, or the deferred function. *)
Definition served (conn : positive) (c : Conn) (s : PS) (w : world) : world :=
  if c_open c then mkWorld (wd_server w) (<[conn := Ready c]> (wd_handlers w)) s
  else mkWorld (disconnect conn (wd_server w)) (delete conn (wd_handlers w)) s.

Definition parked (conn : positive) (cmd : Command) (c : Conn) (s : PS) (w : world) : world :=
  mkWorld (wd_server w) (<[conn := Waiting cmd c]> (wd_handlers w)) s.

(** The rest of the accept round starts a goroutine if the connection was kept. *)
Definition admitted (conn : positive) (w : world) : world :=
  let sv := register conn (wd_server w) in
  mkWorld sv (if decide (conn ∈ sv_conns sv) then <[conn := Ready (new_conn (sv_cfg sv))]> (wd_handlers w)
              else wd_handlers w) (wd_state w).

Definition with_state (s : PS) (w : world) : world := mkWorld (wd_server w) (wd_handlers w) s.

Definition with_server (sv : Server.Server) (w : world) : world := mkWorld sv (wd_handlers w) (wd_state w).

(** What is seen of a step: broker steps, or a tick of the log's goroutine. *)
Inductive event : Type :=
| Calls (lbs : list label)
| Synced.

(** The maps in an order the sweeper can meet. *)
Definition sweepable (order : list (string * list (string * list string))) (s : PS) : Prop :=
  (∀ n gs, (n, gs) ∈ order → ∃ t, b_topics s.2 !! n = Some t ∧ ∀ g, g ∈ gs.*1 → is_Some (t_groups t !! g)) ∧
  NoDup order.*1.

(** The steps of the process: the accept loop, the connections, the HTTP requests,
    the goroutines of the sweeper, of the timing wheels and of the log, and the
    beginning of the shutdown, in any order. *)
Inductive sys_step : world → event → world → Prop :=
| sy_accept w conn :
    sv_listening (wd_server w) = true → sv_pending (wd_server w) = None →
    conn ∉ sv_sockets (wd_server w) → conn ∉ sv_conns (wd_server w) →
    sys_step w (Calls []) (with_server (accepted_conn conn (wd_server w)) w)
| sy_register w conn : sv_pending (wd_server w) = Some conn → sys_step w (Calls []) (admitted conn w)
| sy_command w conn h cmd r c c' s' lbs :
    wd_handlers w !! conn = Some h → takes h cmd c → ready (cmd_Name cmd) (cmd_Args cmd) r (wd_state w) →
    serve ut (sv_cfg (wd_server w)) cmd r c (wd_state w) = Ret c' s' → broker_trace (wd_state w) lbs s' →
    sys_step w (Calls lbs) (served conn c' s' w)
| sy_park w conn h cmd r c s' lbs :
    wd_handlers w !! conn = Some h → takes h cmd c → ready (cmd_Name cmd) (cmd_Args cmd) r (wd_state w) →
    serve ut (sv_cfg (wd_server w)) cmd r c (wd_state w) = Block s' → broker_trace (wd_state w) lbs s' →
    sys_step w (Calls lbs) (parked conn cmd c s' w)
| sy_hang_up w conn c :
    wd_handlers w !! conn = Some (Ready c) →
    sys_step w (Calls []) (served conn (hang_up c) (wd_state w) w)
| sy_http w r env s' lbs :
    env_ready r env (wd_state w) →
    (∃ resp, Handler studio redirect r env (wd_state w) = Ret resp s') ∨
      Handler studio redirect r env (wd_state w) = Block s' → broker_trace (wd_state w) lbs s' →
    sys_step w (Calls lbs) (with_state s' w)
| sy_sweep w order now failedAt s' :
    sweepable order (wd_state w) → runSweepLoop [Some (order, now, failedAt)] (wd_state w) = Ret false s' →
    sys_step w (Calls [quiet]) (with_state s' w)
| sy_tick w n t s' :
    b_topics (wd_state w).2 !! n = Some t →
    zoom (lens_topic n) (run lens_tw (Some onExpire) [Some tt]) (wd_state w) = Ret false s' →
    sys_step w (Calls [quiet]) (with_state s' w)
| sy_sync w ws ws' :
    b_wal (wd_state w).2 = Some ws → w_policy ws.1 = FsyncEverySec → periodicFsync [Some tt] ws = Ret false ws' →
    sys_step w Synced (with_state ((wd_state w).1, with_wal (Some ws') (wd_state w).2) w)
| sy_stop w : sys_step w (Calls []) (with_server (server_Stop (wd_server w)) w).

Inductive sys_trace : world → list event → world → Prop :=
| st_nil w : sys_trace w [] w
| st_cons w e w1 es w2 : sys_step w e w1 → sys_trace w1 es w2 → sys_trace w (e :: es) w2.

(** The broker steps of a trace. *)
Definition labels (es : list event) : list label :=
  es ≫= λ e, match e with Calls lbs => lbs | Synced => [] end.

(** ** Invariants *)

(** One round of a goroutine's loop. *)
Lemma ticker_one {S E} (body : E → prog S unit) (e : E) s s' :
  ticker_loop body [Some e] s = Ret false s' ↔ body e s = Ret tt s'.
Proof.
  cbn [ticker_loop]. unfold mbind, prog_bind. destruct (body e s) as [[] s1|s1|]; simpl; [|done|done].
  split; by intros [= <-].
Qed.

Lemma sweep_round order now failedAt (s s' : PS) :
  runSweepLoop [Some (order, now, failedAt)] s = Ret false s' ↔ sweepAllTimeouts order now failedAt s = Ret tt s'.
Proof. apply (ticker_one (λ e, sweepAllTimeouts e.1.1 e.1.2 e.2) (order, now, failedAt)). Qed.

Lemma wheel_round n (s s' : PS) :
  zoom (lens_topic n) (run lens_tw (Some onExpire) [Some tt]) s = Ret false s' ↔
  zoom (lens_topic n) advance_wheel s = Ret tt s'.
Proof.
  unfold zoom, advance_wheel, run. cbn [ticker_loop]. unfold mbind at 1, prog_bind at 1.
  destruct (advance _ _ _) as [[] t|t|]; simpl; [|done|done]. split; by intros [= <-].
Qed.

Lemma sync_round ws ws' : periodicFsync [Some tt] ws = Ret false ws' ↔ Sync ws = Ret tt ws'.
Proof. apply (ticker_one (λ _, Sync) tt). Qed.

(** The state of the broker along a step: broker steps, or the log alone changed. *)
Definition state_step (s : PS) (e : event) (s' : PS) : Prop :=
  match e with
  | Calls lbs => broker_trace s lbs s'
  | Synced => ∃ ws ws', b_wal s.2 = Some ws ∧ Sync ws = Ret tt ws' ∧ s' = (s.1, with_wal (Some ws') s.2)
  end.

Lemma sys_state w e w' : sys_step w e w' → state_step (wd_state w) e (wd_state w').
Proof.
  intros Hs. destruct Hs as [w conn _ _ _ _|w conn _|w conn h cmd r c c' s' lbs _ _ _ _ Htr|
    w conn h cmd r c s' lbs _ _ _ _ Htr|w conn c _|w r env s' lbs _ _ Htr|w order now failedAt s' [Hex Hnd] E|
    w n t s' Ht E|w ws ws' Hw _ E|w]; try by constructor.
  - unfold served. by destruct (c_open c').
  - exact Htr.
  - exact Htr.
  - by eapply trace_one, bs_sweep, sweep_round.
  - by eapply trace_one, bs_tick, wheel_round.
  - exists ws, ws'. split_and!; [done|by apply sync_round|done].
Qed.

Lemma state_inv s e s' :
  state_step s e s' → broker_inv s →
  broker_inv s' ∧ ∀ n, went_out n (labels [e]) ++ owned s' n ≡ₚ came_in n (labels [e]) ++ owned s n.
Proof.
  unfold labels. rewrite bind_cons app_nil_r. destruct e as [lbs|]; simpl; [by apply trace_follows|].
  intros (ws & ws' & Hw & _ & ->) Hb. destruct s as [σ b]. split; [by apply (broker_inv_same σ b)|done].
Qed.

Lemma sys_spares w e w' : sys_step w e w' → b_channels (wd_state w').2 = b_channels (wd_state w).2.
Proof.
  intros Hs. destruct Hs as [w conn _ _ _ _|w conn _|w conn h cmd r c c' s' lbs _ _ _ E _|
    w conn h cmd r c s' lbs _ _ _ E _|w conn c _|w r env s' lbs _ E _|w order now failedAt s' _ E|
    w n t s' _ E|w ws ws' _ _ _|w]; try done; symmetry.
  - unfold served. destruct (c_open c'); exact (within_returned _ _ _ _ _ (serve_spares ut _ _ _ _) E).
  - exact (within_parked _ _ _ _ (serve_spares ut _ _ _ _) E).
  - destruct E as [[resp E]|E]; [exact (within_returned _ _ _ _ _ (Handler_spares studio redirect _ _) E)|
      exact (within_parked _ _ _ _ (Handler_spares studio redirect _ _) E)].
  - apply sweep_round in E. exact (within_returned _ _ _ _ _ (spares_sweepAll _ _ _ _) E).
  - exact (within_returned _ _ _ _ _ (spares_topic _ _ _) E).
Qed.

(** The goroutines are those of the registered connections. *)
Definition tracked (w : world) : Prop := dom (wd_handlers w) = sv_conns (wd_server w).

Lemma served_tracked conn c s w : tracked w → is_Some (wd_handlers w !! conn) → tracked (served conn c s w).
Proof.
  unfold tracked, served. intros Hd Hc. destruct (c_open c); cbn [wd_handlers wd_server].
  - rewrite dom_insert_lookup_L //.
  - rewrite dom_delete_L Hd. done.
Qed.

Lemma sys_tracked w e w' : sys_step w e w' → tracked w → tracked w'.
Proof.
  intros Hs Hd. destruct Hs as [w conn _ _ _ _|w conn _|w conn h cmd r c c' s' lbs Hh _ _ _ _|
    w conn h cmd r c s' lbs Hh _ _ _ _|w conn c Hh|w r env s' lbs _ _ _|w order now failedAt s' _ _|
    w n t s' _ _|w ws ws' _ _ _|w]; try done.
  - unfold tracked, admitted. cbn [wd_handlers wd_server]. unfold register.
    destruct (_ && _); cbn [sv_conns sv_cfg].
    + case_decide as Hin; [|done]. rewrite dom_insert_L Hd. set_solver.
    + rewrite decide_True; [set_solver|]. by rewrite dom_insert_L Hd.
  - apply served_tracked; [done|by eexists].
  - unfold tracked, parked. cbn [wd_handlers wd_server]. rewrite dom_insert_lookup_L //.
  - apply served_tracked; [done|by eexists].
  - unfold tracked. cbn. rewrite Hd. unfold server_Stop. by destruct (sv_closed _).
Qed.

Lemma labels_cons e es : labels (e :: es) = labels [e] ++ labels es.
Proof. unfold labels. by rewrite !bind_cons app_nil_r. Qed.

(** The invariants of the process along any of its runs. *)
Lemma sys_trace_inv w es w' :
  sys_trace w es w' → broker_inv (wd_state w) → tracked w →
  broker_inv (wd_state w') ∧ tracked w' ∧ b_channels (wd_state w').2 = b_channels (wd_state w).2 ∧
  ∀ n, went_out n (labels es) ++ owned (wd_state w') n ≡ₚ came_in n (labels es) ++ owned (wd_state w) n.
Proof.
  induction 1 as [w|w e w1 es w2 Hs _ IH]; intros Hb Hd; [done|].
  destruct (state_inv _ _ _ (sys_state _ _ _ Hs) Hb) as [Hb1 H1].
  destruct (IH Hb1 (sys_tracked _ _ _ Hs Hd)) as (Hb2 & Hd2 & Hc2 & H2).
  split_and!; [done|done|by rewrite Hc2; eapply sys_spares|]. intros n. rewrite labels_cons.
  rewrite went_out_app came_in_app.
  rewrite -!app_assoc (H2 n) (Permutation_app_swap_app (went_out n _)) (H1 n). by rewrite Permutation_app_swap_app.
Qed.

(** ** The start *)

(** A disk the daemon starts on. *)
Definition bootable (f : Flags) (d : Disk) : Prop := fl_wal f = true →
  d_faults d = [] ∧ (is_Some (d_segs d !! 1) ∨ d = empty_disk) ∧ Forall retryable (readable d) ∧
  NoDup (msg_ID <$> readable d) ∧ ∀ n, Z.of_nat (length (ids_of n (readable d))) ≤ 50000.

(** The messages it finds there. *)
Definition boot_messages (f : Flags) (d : Disk) : list Message := if fl_wal f then readable d else [].

(** The process after the start, before its first connection. *)
Definition booted (f : Flags) (d : Disk) (w : world) : Prop :=
  ∃ k s, startup f d = Booted (Ret k s) ∧ w = mkWorld (tcp_server f) ∅ s.

Lemma startup_new f :
  fl_wal f = true →
  startup f empty_disk = Booted (Ret 0 (mkStore ∅ 0, NewBroker (Some (new_wal (policy_of (fl_fsync f)))))).
Proof. intros Hw. unfold startup. rewrite Hw OpenWAL_empty. by destruct (policy_of (fl_fsync f)). Qed.

Lemma startup_spares f d k s : startup f d = Booted (Ret k s) → b_channels s.2 = ∅.
Proof.
  unfold startup. destruct (fl_wal f); [|by intros [= _ <-]]. destruct (OpenWAL _ d) as [[w|] d'| |]; try done.
  intros [= E]. symmetry. refine (within_returned (on (λ s : PS, b_channels s.2) eq) _ _ _ _ _ E).
  unfold Replay, restore. repeat within_step.
Qed.

Lemma boot_run f d :
  bootable f d → ∃ k s, startup f d = Booted (Ret k s) ∧ broker_inv s ∧
    ∀ n, owned s n ≡ₚ ids_of n (boot_messages f d).
Proof.
  intros Hd. unfold boot_messages. destruct (fl_wal f) eqn:Hw.
  - destruct (Hd Hw) as (Hf & [H1| ->] & Hret & Hnd & Hlen).
    + destruct (startup_run f d Hw Hf H1 Hret Hnd Hlen) as (s & E & Hb & Ho). eauto.
    + rewrite startup_new //. eexists _, _. split_and!; [done|apply NewBroker_inv|done].
  - exists 0, (mkStore ∅ 0, NewBroker None). split_and!; [|apply NewBroker_inv|done]. unfold startup. by rewrite Hw.
Qed.

Lemma booted_inv f d w :
  bootable f d → booted f d w →
  broker_inv (wd_state w) ∧ tracked w ∧ b_channels (wd_state w).2 = ∅ ∧
  ∀ n, owned (wd_state w) n ≡ₚ ids_of n (boot_messages f d).
Proof.
  intros Hd (k & s & E & ->). destruct (boot_run f d Hd) as (k' & s' & E' & Hb & Ho). rewrite E in E'.
  injection E' as <- <-. split_and!; [done| |by eapply startup_spares|done].
  unfold tracked. by rewrite dom_empty_L.
Qed.

(** A run of the daemon from its start. *)
Definition daemon_run (f : Flags) (d : Disk) (es : list event) (w : world) : Prop :=
  ∃ w0, booted f d w0 ∧ sys_trace w0 es w.

Lemma daemon_inv f d es w :
  bootable f d → daemon_run f d es w →
  broker_inv (wd_state w) ∧ tracked w ∧ b_channels (wd_state w).2 = ∅ ∧
  ∀ n, went_out n (labels es) ++ owned (wd_state w) n ≡ₚ came_in n (labels es) ++ ids_of n (boot_messages f d).
Proof.
  intros Hd (w0 & H0 & Htr). destruct (booted_inv f d w0 Hd H0) as (Hb0 & Ht0 & Hc0 & Ho0).
  destruct (sys_trace_inv w0 es w Htr Hb0 Ht0) as (Hb & Ht & Hc & Ho).
  split_and!; [done|done|by rewrite Hc|]. intros n. by rewrite Ho Ho0.
Qed.

(** The log answers every record that its format holds, also on a disk that fails. *)
Lemma fitting_answered c :
  match c with
  | LogPublish m => fits_record m
  | LogAck t g mid => record_ok (OpAck, str t ++ str ":" ++ str g ++ str ":" ++ str mid)
  end → answered c.
Proof.
  intros Hc [ws|]; [|by eexists _, _]. unfold run_call, on_wal.
  destruct c as [m|t g mid]; cbn; unfold Wal.WritePublish, Wal.WriteAck;
    destruct (writeRecord_total _ _ (encode_fits _ _ Hc) ws) as (err & ws' & ->); by eexists _, _.
Qed.

Lemma nobody_open (s : PS) : b_channels s.2 = ∅ → chans_open s.
Proof. intros E ch subs c. by rewrite E lookup_empty. Qed.

(** ** The log of the process *)

Definition call_cmd (c : log_call) : wal_cmd :=
  match c with
  | LogPublish m => CWrite OpPublish (Marshal m)
  | LogAck t g mid => CWrite OpAck (str t ++ str ":" ++ str g ++ str ":" ++ str mid)
  end.

(** A call whose record the format holds; a message that JSON keeps. *)
Definition call_ok (c : log_call) : Prop :=
  match c with
  | LogPublish m => valid_message m ∧ fits_record m
  | LogAck t g mid => record_ok (OpAck, str t ++ str ":" ++ str g ++ str ":" ++ str mid)
  end.

(** What the process asked of its log. *)
Definition commands (es : list event) : list wal_cmd :=
  es ≫= λ e, match e with Calls lbs => call_cmd <$> logs lbs | Synced => [CSync] end.

(** The messages given to it. *)
Definition given (es : list event) : list Message := log_messages (logs (labels es)).

Lemma logs_app lbs1 lbs2 : logs (lbs1 ++ lbs2) = logs lbs1 ++ logs lbs2.
Proof. apply bind_app. Qed.

Lemma written_app cs1 cs2 : written (cs1 ++ cs2) = written cs1 ++ written cs2.
Proof. apply omap_app. Qed.

Lemma given_cons e es : given (e :: es) = given [e] ++ given es.
Proof. unfold given, log_messages. by rewrite labels_cons logs_app omap_app. Qed.

Lemma calls_ok_written calls : Forall call_ok calls → Forall record_ok (written (call_cmd <$> calls)).
Proof.
  induction 1 as [|c calls Hc _ IH]; [done|]. destruct c as [m|t g mid]; (constructor; [|exact IH]); [apply Hc|exact Hc].
Qed.

(** Replay reads back the messages of the calls, and nothing else. *)
Lemma calls_replayed calls :
  Forall call_ok calls → omap replay_record (written (call_cmd <$> calls)) = log_messages calls.
Proof.
  induction 1 as [|c calls Hc _ IH]; [done|]. destruct c as [m|t g mid].
  - change (written _) with ((OpPublish, Marshal m) :: written (call_cmd <$> calls)). destruct Hc as [Hv _].
    csimpl. rewrite replay_publish // IH. done.
  - change (written _) with ((OpAck, str t ++ str ":" ++ str g ++ str ":" ++ str mid) :: written (call_cmd <$> calls)).
    csimpl. exact IH.
Qed.

Lemma call_run c ws old cur :
  log_rep ws old cur → call_ok c →
  ∃ ws' old' cur', run_call c (Some ws) = Ret None (Some ws') ∧ run_cmd (call_cmd c) ws = Ret None ws' ∧
    log_rep ws' old' cur'.
Proof.
  intros Hl Hok. destruct c as [m|t g mid].
  - destruct (writeRecord_run ws old cur OpPublish (Marshal m) Hl (proj2 Hok)) as (ws' & old' & cur' & E & Hl' & _).
    exists ws', old', cur'. split_and!; [|done|done]. cbn. unfold on_wal, Wal.WritePublish. by rewrite E.
  - destruct (writeRecord_run ws old cur OpAck _ Hl Hok) as (ws' & old' & cur' & E & Hl' & _).
    exists ws', old', cur'. split_and!; [|done|done]. cbn. unfold on_wal, Wal.WriteAck. by rewrite E.
Qed.

Lemma calls_run calls : ∀ ws old cur,
  log_rep ws old cur → Forall call_ok calls →
  ∃ ws', run_log calls (Some ws) = Ret (replicate (length calls) None) (Some ws') ∧
    run_cmds (call_cmd <$> calls) ws = Ret (replicate (length calls) None) ws'.
Proof.
  induction calls as [|c calls IH]; intros ws old cur Hl Hok; [by exists ws|]. apply Forall_cons in Hok as [Hc Hok].
  destruct (call_run c ws old cur Hl Hc) as (ws1 & old1 & cur1 & E1 & E1' & Hl1).
  destruct (IH ws1 old1 cur1 Hl1 Hok) as (ws' & E2 & E2'). exists ws'. split.
  - cbn [run_log]. by rewrite (bind_ret _ _ _ _ _ E1) (bind_ret _ _ _ _ _ E2).
  - cbn [fmap list_fmap run_cmds]. rewrite (bind_ret _ _ _ _ _ E1') (bind_ret _ _ _ _ _ E2'). done.
Qed.

Lemma run_cmds_app cs1 cs2 : ∀ s es1 s1 es2 s2,
  run_cmds cs1 s = Ret es1 s1 → run_cmds cs2 s1 = Ret es2 s2 → run_cmds (cs1 ++ cs2) s = Ret (es1 ++ es2) s2.
Proof.
  induction cs1 as [|c cs1 IH]; intros s es1 s1 es2 s2 E1 E2; [by injection E1 as <- <-|].
  cbn [run_cmds app] in *. unfold mbind, prog_bind in *. destruct (run_cmd c s) as [e s'|s'|]; [|done|done].
  destruct (run_cmds cs1 s') as [es' s1'|s1'|] eqn:E; [|done|done]. injection E1 as <- <-.
  by rewrite (IH _ _ _ _ _ E E2).
Qed.

(** Along a run, the log does the commands the run asks of it, and the messages that
    come into the topics are those it is given. *)
Lemma sys_trace_log w es w' : ∀ ws old cur,
  sys_trace w es w' → broker_inv (wd_state w) → b_wal (wd_state w).2 = Some ws → log_rep ws old cur →
  Forall call_ok (logs (labels es)) →
  ∃ ws', b_wal (wd_state w').2 = Some ws' ∧
    run_cmds (commands es) ws = Ret (replicate (length (commands es)) None) ws' ∧
    (∀ n, came_in n (labels es) = ids_of n (given es)) ∧ Forall retryable (given es).
Proof.
  intros ws old cur Htr. revert ws old cur.
  induction Htr as [w|w e w1 es w2 Hs _ IH]; intros ws old cur Hb Hw Hl Hok.
  { exists ws. by split_and!; [| | |constructor]. }
  rewrite labels_cons logs_app in Hok. apply Forall_app in Hok as [Hok1 Hok2].
  pose proof (sys_state _ _ _ Hs) as Hst. pose proof (proj1 (state_inv _ _ _ Hst Hb)) as Hb1.
  assert (∃ ws1 old1 cur1, b_wal (wd_state w1).2 = Some ws1 ∧ log_rep ws1 old1 cur1 ∧
    run_cmds (commands [e]) ws = Ret (replicate (length (commands [e])) None) ws1 ∧
    (∀ n, came_in n (labels [e]) = ids_of n (given [e])) ∧ Forall retryable (given [e]))
    as (ws1 & old1 & cur1 & Hw1 & Hl1 & E1 & Hin1 & Hret1).
  { unfold given. destruct e as [lbs|].
    - rewrite (app_nil_r lbs : labels [Calls lbs] = lbs) in Hok1 |- *.
      rewrite (app_nil_r _ : commands [Calls lbs] = call_cmd <$> logs lbs).
      destruct (trace_logged _ _ _ Hst Hb) as (Hret & errs & Hw1 & Hin). rewrite Hw in Hw1.
      destruct (calls_run (logs lbs) ws old cur Hl Hok1) as (ws1 & El & Ec). rewrite El in Hw1. injection Hw1 as <- Hw1.
      destruct (run_cmds_rep _ ws old cur Hl (calls_ok_written _ Hok1)) as (ws1' & old1 & cur1 & Ec' & Hl1 & _).
      rewrite Ec in Ec'. injection Ec' as _ <-. exists ws1, old1, cur1. rewrite length_fmap.
      split_and!; [done|done|done| |done]. apply Hin. by apply Forall_replicate.
    - destruct Hst as (ws0 & ws1 & Hw0 & E & ->). rewrite Hw in Hw0. injection Hw0 as <-.
      destruct (Sync_run ws old cur Hl) as (ws1' & E' & Hl1 & _). rewrite E in E'. injection E' as <-.
      exists ws1, old, cur. split_and!; [done|done| |done|constructor]. cbn [commands mbind list_bind app run_cmds run_cmd].
      rewrite (bind_ret (Sync;; mret None) _ ws None ws1) //. by rewrite (bind_ret _ _ _ _ _ E). }
  destruct (IH ws1 old1 cur1 Hb1 Hw1 Hl1 Hok2) as (ws' & Hw' & E' & Hin' & Hret').
  exists ws'. split_and!; [done| | |].
  - rewrite (bind_app _ [e] es : commands (e :: es) = commands [e] ++ commands es) length_app replicate_add.
    by eapply run_cmds_app.
  - intros n. rewrite labels_cons given_cons came_in_app ids_of_app Hin1 Hin'. done.
  - rewrite given_cons. by apply Forall_app.
Qed.

(** ** The death of the machine *)

Lemma commands_app es1 es2 : commands (es1 ++ es2) = commands es1 ++ commands es2.
Proof. apply bind_app. Qed.

Lemma labels_app es1 es2 : labels (es1 ++ es2) = labels es1 ++ labels es2.
Proof. apply bind_app. Qed.

Lemma commands_written es : written (commands es) = written (call_cmd <$> logs (labels es)).
Proof.
  induction es as [|[lbs|] es IH]; [done| |exact IH].
  change (commands (Calls lbs :: es)) with ((call_cmd <$> logs lbs) ++ commands es).
  by rewrite labels_cons logs_app fmap_app !written_app IH (app_nil_r lbs : labels [Calls lbs] = lbs).
Qed.

(** What a restart reads after the commands of a run on a new log: a prefix of the
    messages given, all that was given before a tick, everything under
    [FsyncAlways]. *)
Lemma crash_survivors policy es ws errs d' :
  Forall call_ok (logs (labels es)) → run_cmds (commands es) (new_wal policy) = Ret errs ws → crashed ws.2 d' →
  is_Some (d_segs d' !! 1) ∧
  readable d' `prefix_of` given es ∧ (policy = FsyncAlways → readable d' = given es) ∧
  ∀ es1 es2, es = es1 ++ Synced :: es2 → given es1 `prefix_of` readable d'.
Proof.
  intros Hok E Hd. destruct (new_wal_rep policy) as [Hl0 Hs0].
  assert (∀ es', Forall call_ok (logs (labels es')) →
    Forall record_ok (written (commands es')) ∧ omap replay_record (written (commands es')) = given es') as Hcs.
  { intros es' Hok'. rewrite commands_written. split; [by apply calls_ok_written|by apply calls_replayed]. }
  destruct (Hcs es Hok) as [Hrec Hgiven].
  destruct (run_cmds_rep (commands es) _ [] [] Hl0 Hrec) as (ws' & old & cur & E' & Hl & Hc & Hpol & Hsy).
  rewrite E in E'. injection E' as _ <-. simpl in Hc.
  destruct (readable_crashed _ _ _ _ Hl Hd) as [Hlo Hhi]. rewrite Hc Hgiven in Hhi. split_and!.
  - apply (cr_dom _ _ Hd). by eapply log_rep_first.
  - done.
  - intros ->. rewrite (readable_synced _ _ _ _ Hl (Hsy eq_refl Hs0) Hd) -Hgiven -Hc. unfold surviving. f_equal.
    apply recovered_synced; auto.
  - intros es1 es2 ->. etrans; [|exact Hlo]. rewrite labels_app logs_app in Hok. apply Forall_app in Hok as [Hok1 Hok2].
    destruct (Hcs es1 Hok1) as [Hrec1 Hgiven1]. destruct (Hcs (Synced :: es2) Hok2) as [Hrec2 _].
    destruct (run_cmds_rep (commands es1) _ [] [] Hl0 Hrec1) as (s1 & old1 & cur1 & E1 & Hl1 & Hc1 & _).
    destruct (Sync_run s1 old1 cur1 Hl1) as (s2 & E2 & Hl2 & Hs2 & _).
    destruct (run_cmds_rep (commands es2) s2 old1 cur1 Hl2 Hrec2) as (s3 & _ & _ & E3 & _).
    assert (s3 = ws) as ->.
    { assert (run_cmds (commands (Synced :: es2)) s1 = Ret (None :: replicate (length (commands es2)) None) s3) as E4.
      { change (commands (Synced :: es2)) with (CSync :: commands es2). cbn [run_cmds run_cmd].
        rewrite (bind_ret (Sync;; mret None) _ s1 None s2); [by rewrite (bind_ret _ _ _ _ _ E2)|].
        by rewrite (bind_ret _ _ _ _ _ E3). }
      pose proof (run_cmds_app _ _ _ _ _ _ _ E1 E4) as E5. rewrite -commands_app E in E5. by injection E5. }
    simpl in Hc1. rewrite -Hgiven1 -Hc1. exact (omap_prefix _ _ _ (synced_kept _ _ _ (commands es2) _ _ Hl2 Hs2 Hrec2 E3)).
Qed.

Lemma ids_of_prefix n l1 l2 : l1 `prefix_of` l2 → (length (ids_of n l1) ≤ length (ids_of n l2))%nat.
Proof. intros [k ->]. rewrite ids_of_app length_app. lia. Qed.

(** ** The wait of the shutdown *)

(** The connection that [Accept] has just returned is not registered yet. *)
Definition apart (w : world) : Prop := ∀ conn, sv_pending (wd_server w) = Some conn → conn ∉ sv_conns (wd_server w).

Lemma served_apart conn c s w : apart w → apart (served conn c s w).
Proof. unfold apart, served. intros Ha x. destruct (c_open c); cbn; [apply Ha|]. intros Hx. specialize (Ha x Hx). set_solver. Qed.

Lemma sys_apart w e w' : sys_step w e w' → apart w → apart w'.
Proof.
  intros Hs Ha. destruct Hs as [w conn _ _ _ Hn|w conn _|w conn h cmd r c c' s' lbs _ _ _ _ _|
    w conn h cmd r c s' lbs _ _ _ _ _|w conn c _|w r env s' lbs _ _ _|w order now failedAt s' _ _|
    w n t s' _ _|w ws ws' _ _ _|w]; try done.
  - by intros x [= <-].
  - intros x. cbn. unfold register. by destruct (_ && _).
  - by apply served_apart.
  - by apply served_apart.
  - unfold apart. cbn. unfold server_Stop. destruct (sv_closed _); apply Ha.
Qed.

Lemma trace_apart w es w' : sys_trace w es w' → apart w → apart w'.
Proof. induction 1 as [|w e w1 es w2 Hs _ IH]; [done|]. intros Ha. by eapply IH, sys_apart. Qed.

(** A run in which every state but the last satisfies [P]. *)
Inductive along (P : world → Prop) : world → list event → world → Prop :=
| al_nil w : along P w [] w
| al_cons w e w1 es w2 : P w → sys_step w e w1 → along P w1 es w2 → along P w (e :: es) w2.

(** The topic exists (topics are never removed) and has nothing queued. *)
Definition nothing_queued (n : string) (w : world) : Prop :=
  is_Some (b_topics (wd_state w).2 !! n) ∧ queue (wd_state w) n = [].

(** The commands that pop without a timeout. *)
Definition pop_name (name : string) : Prop := name = "LPOP" ∨ name = "RPOP".

Lemma serve_pop cfg name n r c (s : PS) :
  pop_name name → c_authenticated c = true →
  serve ut cfg (mkCommand name [Some (str n)]) r c s =
    (res ← case_POP (if decide (name = "LPOP") then "lpop" else "rpop") [Some (str n)] r;
     let c' := write res.1 c in
     match res.2 with Done => mret (flush_if_idle r c') | Continue => mret c' | Return => mret (hang_up c') end) s.
Proof. intros [-> | ->] Ha; unfold serve; by rewrite Ha. Qed.

(** As long as nothing is queued, a step leaves the goroutine where it waits. *)
Lemma step_waiting w e w' conn name n c :
  sys_step w e w' → broker_inv (wd_state w) → tracked w → apart w → nothing_queued n w → pop_name name →
  c_authenticated c = true → wd_handlers w !! conn = Some (Waiting (mkCommand name [Some (str n)]) c) →
  wd_handlers w' !! conn = Some (Waiting (mkCommand name [Some (str n)]) c).
Proof.
  intros Hs Hb Ht Hap [[t Htop] Hq] Hname Ha Hw.
  assert (∀ r, serve ut (sv_cfg (wd_server w)) (mkCommand name [Some (str n)]) r c (wd_state w) = Block (wd_state w)) as Hblock.
  { intros r. rewrite serve_pop //. apply bind_block. rewrite case_POP_empty // Htop. done. }
  destruct Hs as [w conn' _ _ _ _|w conn' Hp|w conn' h cmd r c1 c' s' lbs Hh Hk _ E _|
    w conn' h cmd r c1 s' lbs Hh Hk _ E _|w conn' c1 Hh|w r env s' lbs _ _ _|w order now failedAt s' _ _|
    w n' t' s' _ _|w ws ws' _ _ _|w]; try done.
  - unfold admitted. cbn [wd_handlers]. case_decide; [|done]. rewrite lookup_insert_ne //. intros ->.
    apply (Hap conn Hp). rewrite -Ht. apply elem_of_dom. by eexists.
  - destruct (decide (conn' = conn)) as [->|Hne].
    + rewrite Hw in Hh. injection Hh as <-. destruct Hk as [[=]|[= <- <-]]. by rewrite Hblock in E.
    + unfold served. destruct (c_open c'); cbn; [by rewrite lookup_insert_ne|by rewrite lookup_delete_ne].
  - destruct (decide (conn' = conn)) as [->|Hne].
    + rewrite Hw in Hh. injection Hh as <-. destruct Hk as [[=]|[= <- <-]]. unfold parked. cbn. by rewrite lookup_insert_eq.
    + unfold parked. cbn. by rewrite lookup_insert_ne.
  - assert (conn' ≠ conn) as Hne by (intros ->; by rewrite Hw in Hh). unfold served. cbn. by rewrite lookup_delete_ne.
Qed.

Lemma along_waiting n conn name c w es w' :
  along (nothing_queued n) w es w' → broker_inv (wd_state w) → tracked w → apart w → pop_name name →
  c_authenticated c = true → wd_handlers w !! conn = Some (Waiting (mkCommand name [Some (str n)]) c) →
  broker_inv (wd_state w') ∧ wd_handlers w' !! conn = Some (Waiting (mkCommand name [Some (str n)]) c).
Proof.
  induction 1 as [w|w e w1 es w2 Hn Hs _ IH]; intros Hb Ht Hap Hname Ha Hw; [done|]. apply IH; [| | |done|done|].
  - by apply (state_inv _ _ _ (sys_state _ _ _ Hs) Hb).
  - by eapply sys_tracked.
  - by eapply sys_apart.
  - by eapply step_waiting.
Qed.

(** ** Properties *)

(** C1: the daemon as a whole.  Start it without the log, or on a working disk with an
    empty directory or with a log whose readable messages have distinct IDs, attempts
    left and at most 50000 per topic ([bootable]), and let clients connect, send
    commands, wait in pops, disconnect, send HTTP requests, with the sweeper, the timing
    wheels and the fsync of the log running, in any order.  Every publication has a new
    ID and room below the 50000 of its topic, and a record that the log answers, which
    is one whose length does not wrap around 32 bits ([ready], [env_ready],
    [fitting_answered]); on any other record the log panics.  In every state it reaches,
    the invariant of the broker holds; for every topic the IDs recovered at the start and
    published since are those taken out (consumed, acknowledged or purged) and those
    held; the goroutines are those of the registered connections; the next command of
    any connection, the next request, sweep and tick, under the same conditions, is
    handled without panic. *)
Theorem system_safe f d es w (Hd : bootable f d) (Hrun : daemon_run f d es w) :
  broker_inv (wd_state w) ∧
  (∀ n, ids_of n (boot_messages f d) ++ came_in n (labels es) ≡ₚ went_out n (labels es) ++ owned (wd_state w) n) ∧
  dom (wd_handlers w) = sv_conns (wd_server w) ∧
  (∀ conn h cmd c r, wd_handlers w !! conn = Some h → takes h cmd c →
     ready (cmd_Name cmd) (cmd_Args cmd) r (wd_state w) →
     safe (serve ut (sv_cfg (wd_server w)) cmd r c) (wd_state w)) ∧
  (∀ r env, env_ready r env (wd_state w) → safe (Handler studio redirect r env) (wd_state w)) ∧
  (∀ order now failedAt, sweepable order (wd_state w) →
     ∃ s', runSweepLoop [Some (order, now, failedAt)] (wd_state w) = Ret false s') ∧
  (∀ n, is_Some (b_topics (wd_state w).2 !! n) →
     ∃ s', zoom (lens_topic n) (run lens_tw (Some onExpire) [Some tt]) (wd_state w) = Ret false s').
Proof.
  destruct (daemon_inv f d es w Hd Hrun) as (Hb & Ht & Hc & Ho). split_and!; [done| |done|..].
  - intros n. rewrite Ho. apply Permutation_app_comm.
  - intros conn h cmd c r _ _ Hr. by apply serve_safe; [|apply nobody_open|].
  - intros r env Hr. by apply Handler_safe.
  - intros order now failedAt [Hex Hnd].
    destruct (sweepAll_outcome order now failedAt _ Hb Hex Hnd) as (s' & E & _). exists s'. by apply sweep_round.
  - intros n [t Hn]. destruct (tick_outcome _ n t Hb Hn) as (s' & E & _). exists s'. by apply wheel_round.
Qed.

(** C4: the daemon across the death of the machine.  It starts in an empty directory of a
    working disk and serves any run; the machine dies, leaving of what was not synced any
    part; it is started again, with any flags that enable the log.  If the topics named
    are valid UTF-8, the records fit, the IDs are distinct and no topic was given more
    than 50000, the second start succeeds on a prefix of all messages ever published, in
    the order of the log: each topic holds its part.  With [FsyncAlways] that is every
    one, so what the topic held and, again, what had already been consumed; with a tick
    of the fsync goroutine it is at least what was published before the tick. *)
Theorem system_crash f f' es w (Hw : fl_wal f = true) (Hw' : fl_wal f' = true)
  (Hrun : daemon_run f empty_disk es w) (Hok : Forall call_ok (logs (labels es)))
  (Hnd : NoDup (msg_ID <$> given es)) (Hlen : ∀ n, Z.of_nat (length (ids_of n (given es))) ≤ 50000) :
  ∃ ws, b_wal (wd_state w).2 = Some ws ∧ ∀ d', crashed ws.2 d' →
    ∃ kept s2, startup f' d' = Booted (Ret (Z.of_nat (length kept)) s2) ∧ broker_inv s2 ∧
      (∀ n, owned s2 n ≡ₚ ids_of n kept) ∧ kept `prefix_of` given es ∧
      (policy_of (fl_fsync f) = FsyncAlways →
       ∀ n, owned s2 n ≡ₚ went_out n (labels es) ++ owned (wd_state w) n) ∧
      (∀ es1 es2, es = es1 ++ Synced :: es2 → given es1 `prefix_of` kept).
Proof.
  destruct Hrun as (w0 & (k & s0 & E0 & ->) & Htr). rewrite startup_new // in E0. injection E0 as _ <-.
  set (s0 := (mkStore ∅ 0, NewBroker (Some (new_wal _)))) in *. destruct (new_wal_rep (policy_of (fl_fsync f))) as [Hl0 _].
  destruct (sys_trace_inv _ _ _ Htr (NewBroker_inv _ _)) as (_ & _ & _ & Ho); [by unfold tracked; rewrite dom_empty_L|].
  destruct (sys_trace_log _ _ _ _ [] [] Htr (NewBroker_inv _ _) eq_refl Hl0 Hok) as (ws & Hws & E & Hin & Hret).
  exists ws. split; [done|]. intros d' Hd'.
  destruct (crash_survivors _ _ _ _ _ Hok E Hd') as (H1 & Hpre & Hall & Htick). exists (readable d').
  destruct (startup_run f' d' Hw' (cr_faults _ _ Hd') H1) as (s2 & E2 & Hb2 & Ho2).
  - destruct Hpre as [rest Hpre]. rewrite Hpre in Hret. by apply Forall_app in Hret as [? _].
  - destruct Hpre as [rest Hpre]. rewrite Hpre fmap_app in Hnd. by apply NoDup_app in Hnd as [? _].
  - intros n. pose proof (ids_of_prefix n _ _ Hpre). specialize (Hlen n). lia.
  - exists s2. split_and!; [done|done|done|done| |done].
    intros Hp n. rewrite Ho2 (Hall Hp) -Hin Ho. by rewrite app_nil_r.
Qed.

(** C31: a waiting client keeps the shutdown waiting.  In any state the daemon reaches,
    let the goroutine of a connection wait in an [LPOP] or [RPOP] of a topic, which have no
    timeout, and let the signal come.  [tcpServer.Stop()] closes the listener and the
    connections and waits for the goroutines ([s.wg.Wait()]), while the HTTP API, the
    sweeper, the wheels and the log's goroutine go on.  However they go on, as long as
    nothing is queued in the topic the goroutine is still there and still waiting, so
    [Stop] does not return and [main] does not get to [broker.Close()], which is what
    would wake it.  Its pop ends exactly when something is queued: then its next round
    returns, otherwise it waits again. *)
Theorem shutdown_waits f d es w conn name n c es' w' (Hd : bootable f d) (Hrun : daemon_run f d es w)
  (Hname : pop_name name) (Ha : c_authenticated c = true)
  (Hw : wd_handlers w !! conn = Some (Waiting (mkCommand name [Some (str n)]) c))
  (Htr : along (nothing_queued n) (with_server (server_Stop (wd_server w)) w) es' w') :
  wd_handlers w' !! conn = Some (Waiting (mkCommand name [Some (str n)]) c) ∧ wd_handlers w' ≠ ∅ ∧
  ∀ cfg r,
    (nothing_queued n w' → serve ut cfg (mkCommand name [Some (str n)]) r c (wd_state w') = Block (wd_state w')) ∧
    (queue (wd_state w') n ≠ [] → ∃ c' s', serve ut cfg (mkCommand name [Some (str n)]) r c (wd_state w') = Ret c' s').
Proof.
  destruct (daemon_inv f d es w Hd Hrun) as (Hb & Ht & _ & _).
  assert (apart w) as Hap.
  { destruct Hrun as (w0 & (k & s & _ & ->) & Htr0). eapply trace_apart; [exact Htr0|]. by intros x. }
  destruct (along_waiting n conn name c _ es' w' Htr) as [Hb' Hw']; [done| | |done|done|done|].
  - by eapply sys_tracked; [apply sy_stop|].
  - by eapply sys_apart; [apply sy_stop|].
  - split_and!; [done|by intros E; rewrite E lookup_empty in Hw'|]. intros cfg r. rewrite serve_pop //. split.
    + intros [[t Htop] Hq]. apply bind_block. by rewrite case_POP_empty // Htop.
    + intros Hq. destruct (queue (wd_state w') n) as [|v q] eqn:E; [done|].
      destruct (case_POP_run (if decide (name = "LPOP") then "lpop" else "rpop") n v q r _ Hb' E) as (s' & E' & _).
      rewrite (bind_ret _ _ _ _ _ E'). by eexists _, _.
Qed.

(** A broadcast reaches nobody.  No part of the program calls [SubscribeChannel]: in
    every state the daemon reaches, [VMQ.BROADCAST] changes nothing and replies 0. *)
Theorem broadcast_unheard f d es w channel payload r (Hd : bootable f d) (Hrun : daemon_run f d es w) :
  switch ut "VMQ.BROADCAST" [Some channel; Some payload] r (wd_state w) =
    Ret (WriteInteger 0, Done) (wd_state w).
Proof.
  destruct (daemon_inv f d es w Hd Hrun) as (_ & _ & Hc & _).
  change (switch ut "VMQ.BROADCAST" [Some channel; Some payload] r) with
    (receivers ← Broadcast (gostring channel) payload (rd_subs r); reply (WriteInteger receivers) : prog PS _).
  rewrite (bind_ret (Broadcast (gostring channel) payload (rd_subs r)) _ (wd_state w) 0 (wd_state w)) //.
  unfold Broadcast. glue. unfold id. by rewrite Hc lookup_empty.
Qed.
End system.

(** ** Witnesses *)

(** A client connects to a new daemon and publishes one message. *)
Definition durable_flags : Flags := mkFlags 8379 8380 "./data" true "" "always".

Definition demo_page (r : Request) : Response := mkResponse StatusOK ∅ [].

Definition demo_command : Command := mkCommand "VMQ.PUBLISH" [Some (str "t"); Some (str "v")].

Definition demo_published : label :=
  mkLabel "t" ["0-1-0001"] [] [LogPublish (created "t" (Some (str "v")) 1000 [x00; x01] (mkStore ∅ 0))].

Definition demo_events : list event := [Calls []; Calls []; Calls [demo_published]].

Local Existing Instance wal_contract.

Lemma demo_served cfg c :
  c_authenticated c = true → c_open c = true →
  ∃ c' s', serve id cfg demo_command push_readings c demo_state = Ret c' s' ∧
    broker_trace demo_state [demo_published] s'.
Proof.
  intros Ha Ho. destruct (Broker.Publish "t" (Some (str "v")) 1000 [x00; x01] demo_state) as [[e|l] s1|s1|] eqn:E.
  all: assert (match Broker.Publish "t" (Some (str "v")) 1000 [x00; x01] demo_state with
               | Ret (inr l) s1 => bool_decide (is_Some (heap s1.1 !! l)) | _ => false end = true) as Hv by by vm_compute.
  all: rewrite E in Hv; try done. apply bool_decide_eq_true in Hv as [m Hm].
  exists (flush (write (WriteBulkString (Some (str (msg_ID m)))) c)), s1. split.
  - assert (zoom lens_fst (load l) s1 = Ret m s1) as El.
    { unfold zoom, load. cbn [view lens_fst]. rewrite Hm. by destruct s1. }
    assert (switch id "VMQ.PUBLISH" (cmd_Args demo_command) push_readings demo_state =
      Ret (WriteBulkString (Some (str (msg_ID m))), Done) s1) as Es.
    { change (switch id "VMQ.PUBLISH" (cmd_Args demo_command) push_readings) with
        (res ← Broker.Publish "t" (Some (str "v")) 1000 [x00; x01]; reply_published res : prog PS _).
      rewrite (bind_ret _ _ _ _ _ E). unfold reply_published. by rewrite (bind_ret _ _ _ _ _ El). }
    unfold serve. rewrite Ha. cbn [negb andb cmd_Name demo_command].
    destruct (decide ("VMQ.PUBLISH" = "AUTH")); [done|]. by rewrite (bind_ret _ _ _ _ _ Es).
  - apply trace_one, (bs_publish demo_state "t" (Some (str "v")) 1000 [x00; x01] 0 0 l); [by left|].
    apply demo_state_fresh; [apply NoDup_singleton|simpl; lia].
Qed.

Lemma demo_run : ∃ w, daemon_run id demo_page demo_page durable_flags empty_disk demo_events w.
Proof.
  destruct (demo_served (sv_cfg (tcp_server durable_flags)) (new_conn (sv_cfg (tcp_server durable_flags))) eq_refl eq_refl)
    as (c' & s' & E & Htr).
  set (w0 := mkWorld (tcp_server durable_flags) ∅ demo_state).
  set (w1 := with_server (accepted_conn 1 (wd_server w0)) w0). set (w2 := admitted 1 w1).
  exists (served 1 c' s' w2), w0. split; [by eexists _, demo_state|].
  eapply st_cons; [apply (sy_accept _ _ _ w0 1); [done|done|set_solver|set_solver]|].
  eapply st_cons; [apply (sy_register _ _ _ w1 1); done|].
  eapply st_cons; [|apply st_nil].
  apply (sy_command _ _ _ w2 1 (Ready (new_conn (sv_cfg (tcp_server durable_flags)))) demo_command push_readings
    (new_conn (sv_cfg (tcp_server durable_flags)))).
  - unfold w2, admitted. by vm_compute.
  - by left.
  - split; [by intros ? ?%elem_of_nil|done| |by vm_compute|].
    + apply demo_state_fresh; [apply NoDup_singleton|simpl; lia].
    + constructor; [|constructor]. apply fitting_answered. unfold fits_record, record_ok. by vm_compute.
  - exact E.
  - exact Htr.
Qed.

Lemma demo_bootable : bootable durable_flags empty_disk.
Proof.
  intros _. assert (readable empty_disk = []) as -> by by vm_compute.
  split_and!; [done|by right|constructor|constructor|]. intros n. simpl. lia.
Qed.

Lemma system_safe_witness :
  ∃ w, daemon_run id demo_page demo_page durable_flags empty_disk demo_events w ∧ owned (wd_state w) "t" ≡ₚ ["0-1-0001"].
Proof.
  destruct demo_run as [w Hrun]. exists w. split; [exact Hrun|].
  destruct (system_safe id demo_page demo_page durable_flags empty_disk demo_events w demo_bootable Hrun) as (_ & Ho & _).
  specialize (Ho "t"). symmetry. exact Ho.
Defined.

Lemma system_crash_witness :
  ∃ w ws, daemon_run id demo_page demo_page durable_flags empty_disk demo_events w ∧ b_wal (wd_state w).2 = Some ws ∧
    ∀ d', crashed ws.2 d' →
      ∃ k s2, startup default_flags d' = Booted (Ret k s2) ∧ owned s2 "t" ≡ₚ owned (wd_state w) "t".
Proof.
  destruct demo_run as [w Hrun].
  destruct (system_crash id demo_page demo_page durable_flags default_flags demo_events w) as (ws & Hw & Hrest).
  - done.
  - done.
  - exact Hrun.
  - constructor; [|constructor]. split; [apply created_valid; [by vm_compute|done]|unfold fits_record, record_ok; by vm_compute].
  - apply NoDup_singleton.
  - intros n. pose proof (ids_of_length n (given demo_events)). simpl in *. lia.
  - exists w, ws. split_and!; [exact Hrun|exact Hw|]. intros d' Hd'.
    destruct (Hrest d' Hd') as (kept & s2 & E & _ & _ & _ & Hall & _).
    exists (Z.of_nat (length kept)), s2. split; [exact E|exact (Hall eq_refl "t")].
Defined.

(** A client creates the empty topic [jobs] and waits in a pop of it. *)
Definition group_command : Command := mkCommand "XGROUP" [Some (str "CREATE"); Some (str "jobs"); Some (str "g"); Some (str "$")].

Definition jobs_state : PS :=
  match serve id (sv_cfg (tcp_server durable_flags)) group_command push_readings
    (new_conn (sv_cfg (tcp_server durable_flags))) demo_state with Ret _ s => s | _ => demo_state end.

Definition jobs_conn : Conn :=
  match serve id (sv_cfg (tcp_server durable_flags)) group_command push_readings
    (new_conn (sv_cfg (tcp_server durable_flags))) demo_state with Ret c _ => c | _ => new_conn (sv_cfg (tcp_server durable_flags)) end.

Lemma jobs_created : ∃ lbs,
  serve id (sv_cfg (tcp_server durable_flags)) group_command push_readings
    (new_conn (sv_cfg (tcp_server durable_flags))) demo_state = Ret jobs_conn jobs_state ∧
  ready "XGROUP" (cmd_Args group_command) push_readings demo_state ∧ broker_trace demo_state lbs jobs_state.
Proof.
  assert (ready "XGROUP" (cmd_Args group_command) push_readings demo_state) as Hr.
  { split; [by intros ? ?%elem_of_nil|done| |by vm_compute|constructor]. apply demo_state_fresh; [constructor|simpl; lia]. }
  destruct (serve_safe id (sv_cfg (tcp_server durable_flags)) group_command push_readings
    (new_conn (sv_cfg (tcp_server durable_flags))) demo_state) as (s' & lbs & E & Htr); [apply NewBroker_inv|by intros ? ? ?|done|].
  assert (match serve id (sv_cfg (tcp_server durable_flags)) group_command push_readings
    (new_conn (sv_cfg (tcp_server durable_flags))) demo_state with Ret _ _ => true | _ => false end = true) as Hv by by vm_compute.
  exists lbs. unfold jobs_conn, jobs_state. destruct E as [[c' E]|E]; rewrite E in Hv |- *; [|done]. by split_and!.
Qed.

(** The pop waits in that state, and again whenever it is tried. *)
Lemma jobs_pop_waits cfg :
  ready "LPOP" [Some (str "jobs")] push_readings jobs_state ∧
  serve id cfg (mkCommand "LPOP" [Some (str "jobs")]) push_readings jobs_conn jobs_state = Block jobs_state.
Proof.
  destruct jobs_created as (lbs & _ & _ & Htr).
  assert (broker_inv jobs_state) as Hb by (apply (trace_follows _ _ _ Htr), NewBroker_inv). split.
  - split; [by intros ? ?%elem_of_nil|done| |by vm_compute|constructor].
    split_and!; [constructor|by intros ? ? ?%elem_of_nil|]. by vm_compute.
  - rewrite serve_pop; [by left|by vm_compute|]. apply bind_block. rewrite case_POP_empty; [done|by vm_compute|by vm_compute].
Qed.

Lemma jobs_waiting : ∃ es w,
  daemon_run id demo_page demo_page durable_flags empty_disk es w ∧
  wd_handlers w !! 1%positive = Some (Waiting (mkCommand "LPOP" [Some (str "jobs")]) jobs_conn) ∧ wd_state w = jobs_state.
Proof.
  destruct jobs_created as (lbs & E & Hr & Htr).
  set (w0 := mkWorld (tcp_server durable_flags) ∅ demo_state).
  set (w1 := with_server (accepted_conn 1 (wd_server w0)) w0). set (w2 := admitted 1 w1).
  set (w3 := served 1 jobs_conn jobs_state w2).
  assert (wd_handlers w3 !! 1%positive = Some (Ready jobs_conn)) as H3 by by vm_compute.
  assert (wd_state w3 = jobs_state) as S3 by by vm_compute.
  exists [Calls []; Calls []; Calls lbs; Calls []], (parked 1 (mkCommand "LPOP" [Some (str "jobs")]) jobs_conn jobs_state w3).
  split_and!; [|by vm_compute|done]. exists w0. split; [by eexists _, demo_state|].
  eapply st_cons; [apply (sy_accept _ _ _ w0 1); [done|done|set_solver|set_solver]|].
  eapply st_cons; [apply (sy_register _ _ _ w1 1); done|].
  eapply st_cons; [apply (sy_command _ _ _ w2 1 (Ready (new_conn (sv_cfg (tcp_server durable_flags)))) group_command
    push_readings (new_conn (sv_cfg (tcp_server durable_flags)))); [by vm_compute|by left|exact Hr|exact E|exact Htr]|].
  eapply st_cons; [|apply st_nil]. destruct (jobs_pop_waits (sv_cfg (wd_server w3))) as [Hr3 E3].
  apply (sy_park _ _ _ w3 1 (Ready jobs_conn) (mkCommand "LPOP" [Some (str "jobs")]) push_readings jobs_conn); rewrite ?S3.
  - done.
  - by left.
  - exact Hr3.
  - exact E3.
  - constructor.
Qed.

(** After the signal the goroutine is woken once, finds nothing and waits again. *)
Lemma shutdown_waits_witness :
  ∃ es w w', daemon_run id demo_page demo_page durable_flags empty_disk es w ∧
    along id demo_page demo_page (nothing_queued "jobs") (with_server (server_Stop (wd_server w)) w) [Calls []] w' ∧
    wd_handlers w' ≠ ∅.
Proof.
  destruct jobs_waiting as (es & w & Hrun & Hw & Es). set (w1 := with_server (server_Stop (wd_server w)) w).
  set (w2 := parked 1 (mkCommand "LPOP" [Some (str "jobs")]) jobs_conn jobs_state w1).
  assert (along id demo_page demo_page (nothing_queued "jobs") w1 [Calls []] w2) as Htr.
  { destruct (jobs_pop_waits (sv_cfg (wd_server w1))) as [Hr E]. eapply al_cons; [| |apply al_nil].
    - unfold nothing_queued, w1. cbn [wd_state with_server]. rewrite Es. split; [|by vm_compute].
      apply (bool_decide_unpack (is_Some _)). by vm_compute.
    - apply (sy_park _ _ _ w1 1 (Waiting (mkCommand "LPOP" [Some (str "jobs")]) jobs_conn)
        (mkCommand "LPOP" [Some (str "jobs")]) push_readings jobs_conn);
        [exact Hw|by right|unfold w1; cbn [wd_state with_server]; by rewrite Es..|].
      unfold w1; cbn [wd_state with_server]; rewrite Es. constructor. }
  exists es, w, w2. split; [exact Hrun|split; [exact Htr|]].
  destruct (shutdown_waits id demo_page demo_page durable_flags empty_disk es w 1 "LPOP" "jobs" jobs_conn [Calls []] w2)
    as (_ & Hne & _).
  - exact demo_bootable.
  - exact Hrun.
  - by left.
  - by vm_compute.
  - exact Hw.
  - exact Htr.
  - exact Hne.
Defined.
