(* ===== verification/Cli.v ===== *)
(** * The command-line client

    Models [src/cmd/vortexmq-cli/main.go]: the flags, the dial, the
    authentication, the single command, and the interactive loop with its prompt
    and the way it shows replies.  Everything printed is part of the state.

    The writer is a [bufio.Writer] of 64 KiB: the pieces that [WriteArray] hands
    to it stay in its buffer until it is full or flushed.  Replies are read by a
    new [bufio.Reader] of 4096 bytes for every command, over the packets that the
    server sends; what such a reader has buffered and not used is lost with it.

    Shown: a client waits for ever for the reply to a command it has not sent
    ([cli_hangs]); replies that arrive are shown ([cli_session]).

    [bufio.Scanner] supplies the lines of the standard input (the list ends where
    [Scan] returns false); a read that finds no more packets is the end of the
    stream when the server has closed it, and waits otherwise; writes to the
    connection do not fail. *)

From S2P Require Import BufReader.
From S2P Require Import Prelude GoText Resp.

(** ** Sending *)

(** The buffered bytes and the bytes the connection has got. *)
Record Writer : Type := mkWriter { cw_buf : bytes; cw_sent : bytes }.

Definition writerSize : Z := 64 * 1024.

(** [bufio.Writer.Write]: fills the buffer and sends it while the rest does not
    fit; a rest that is larger than an empty buffer is sent directly. *)
Definition Write (w : Writer) (p : bytes) : Writer :=
  let avail := writerSize - Z.of_nat (length (cw_buf w)) in
  if Z.of_nat (length p) <=? avail then mkWriter (cw_buf w ++ p) (cw_sent w) else
  if decide (cw_buf w = []) then mkWriter [] (cw_sent w ++ p) else
  let sent := cw_sent w ++ cw_buf w ++ take (Z.to_nat avail) p in
  let rest := drop (Z.to_nat avail) p in
  if Z.of_nat (length rest) <=? writerSize then mkWriter rest sent else mkWriter [] (sent ++ rest).

(** [bufio.Writer.Flush] *)
Definition Flush (w : Writer) : Writer := mkWriter [] (cw_sent w ++ cw_buf w).

(** The pieces [WriteBulkString] and [WriteArray] write, in order. *)
Definition bulk_pieces (b : bytes) : list bytes :=
  [str "$"; FormatInt (Z.of_nat (length b)); CRLF; b; CRLF].

Definition array_pieces (args : list bytes) : list bytes :=
  [str "*"; FormatInt (Z.of_nat (length args)); CRLF] ++ (args ≫= bulk_pieces).

(** [writer.WriteArray(cmdBytes)] on the arguments of the command line. *)
Definition send (args : list bytes) (w : Writer) : Writer := fold_left Write (array_pieces args) w.

(** ** The interactive loop *)

Inductive repl_action : Type :=
| Prompt
| Leave_
| Run (args : list bytes).

(** ASCII letters fold to each other; no other rune folds to a letter of
    [exit] or [quit]. *)
Definition EqualFold (s t : bytes) : bool := bool_decide ((upper_byte <$> s) = (upper_byte <$> t)).

Fixpoint trim_left (s : bytes) : bytes :=
  match s with c :: s' => if is_space c then trim_left s' else s | [] => [] end.

Section repl.
Context (unicode_TrimSpace : bytes → bytes) (unicode_Fields : bytes → list bytes).

Definition TrimSpace (s : bytes) : bytes :=
  if is_ascii s then reverse (trim_left (reverse (trim_left s))) else unicode_TrimSpace s.

Definition repl_line (text : bytes) : repl_action :=
  let line := TrimSpace text in
  if decide (line = []) then Prompt else
  if EqualFold line (str "exit") || EqualFold line (str "quit") then Leave_ else
  Run (Fields unicode_Fields line).
End repl.

(** ** Showing a reply *)

Fixpoint leading_digits (s : bytes) : bytes :=
  match s with c :: s' => if decide (is_digit c) then c :: leading_digits s' else [] | [] => [] end.

(** [fmt.Sscanf(respLine, "$%d", &length)] after the dollar sign: 0 when there
    is no number or it does not fit. *)
Definition scan_length (s : bytes) : Z :=
  let '(neg, ds) :=
    match trim_left s with
    | c :: s' => if decide (c = "-"%byte) then (true, s') else if decide (c = "+"%byte) then (false, s') else (false, c :: s')
    | [] => (false, [])
    end in
  let digits := leading_digits ds in
  if decide (digits = []) then 0 else
  let v := if neg then - dec_value digits else dec_value digits in
  if decide (is_i64 v) then v else 0.

(** ** The client *)

Record client : Type := mkClient {
  cl_w : Writer;
  cl_conn : list bytes;
  cl_closed : bool;
  cl_stdout : bytes
}.

Definition set_conn (conn : list bytes) (c : client) : client := mkClient (cl_w c) conn (cl_closed c) (cl_stdout c).

Definition print (b : bytes) : prog client unit := λ c,
  Ret tt (mkClient (cl_w c) (cl_conn c) (cl_closed c) (cl_stdout c ++ b)).

(** [_ = writer.WriteArray(cmdBytes)] *)
Definition write_command (args : list bytes) : prog client unit := λ c,
  Ret tt (mkClient (send args (cl_w c)) (cl_conn c) (cl_closed c) (cl_stdout c)).

(** [bufio.NewReader(conn)] *)
Definition line_reader (conn : list bytes) : BufReader.Reader := mkReader (replicate (Z.to_nat 4096) x00) 0 0 conn.

(** [lineReader.ReadString('\n')]: the line with its end, or what there is. *)
Fixpoint string_loop (fuel : nat) (acc : bytes) (b : BufReader.Reader) : bytes * bool * BufReader.Reader :=
  let '((o, n), how, b') := ReadSlice b in
  let acc := acc ++ sub o n (rd_buf b') in
  match how, fuel with
  | Delimiter, _ => (acc, true, b')
  | BufferFull, S fuel' => string_loop fuel' acc b'
  | _, _ => (acc, false, b')
  end.

Definition ReadString (conn : list bytes) : bytes * bool * BufReader.Reader :=
  string_loop (length (concat conn)) [] (line_reader conn).

(** The line, whether it is complete, and the reader it came from. *)
Definition read_line : prog client (bytes * bool * BufReader.Reader) := λ c,
  let '(line, ok, b) := ReadString (cl_conn c) in
  if negb ok && negb (cl_closed c) then Block (set_conn (rd_conn b) c)
  else Ret (line, ok, b) (set_conn (rd_conn b) c).

(** [_, _ = lineReader.Read(payload)] with [len(payload) = n]: a single read. *)
Definition read_payload (n : nat) (b : BufReader.Reader) : prog client bytes := λ c,
  match buf_Read n b with
  | inr (p, b') => Ret (p ++ replicate (n - length p) x00) (set_conn (rd_conn b') c)
  | inl _ => if cl_closed c then Ret (replicate n x00) c else Block c
  end.

(** The largest slice of bytes that [make] does not refuse. *)
Definition maxAlloc : Z := 2 ^ 48.

(** What the loop prints for a line of a reply. *)
Definition show_reply (respLine : bytes) (b : BufReader.Reader) : prog client unit :=
  if decide (head respLine = Some "$"%byte) then
    let length_ := scan_length (drop 1 respLine) in
    if 0 <=? length_ then
      let n := i64 (length_ + 2) in
      if (n <? 0) || (maxAlloc <? n) then panic else
      payload ← read_payload (Z.to_nat n) b;
      print (take (Z.to_nat length_) payload ++ [LF])
    else print (str "(nil)" ++ [LF])
  else print respLine.

(** [net.JoinHostPort(host, strconv.Itoa(port))] *)
Definition JoinHostPort (host : bytes) (port : Z) : bytes :=
  if decide (":"%byte ∈ host) then "["%byte :: host ++ str "]:" ++ FormatInt port
  else host ++ ":"%byte :: FormatInt port.

Record cli_flags : Type := mkCliFlags { cf_host : bytes; cf_port : Z; cf_password : bytes }.

Definition default_cli_flags : cli_flags := mkCliFlags (str "127.0.0.1") 8379 [].

Section main.
Context (unicode_TrimSpace unicode_ToUpper : bytes → bytes) (unicode_spans : bytes → list (nat * nat)).

(** The reply to [AUTH] is read as a command, by a reader that is not used
    again; whether it is an error does not matter. *)
Definition read_auth_reply : prog client unit := λ c,
  let (e, b) := match BufReader.ReadCommand unicode_ToUpper unicode_spans (BufReader.NewReader (cl_conn c)) with
                | inl (e, b) => (Some e, b)
                | inr (_, b) => (None, b)
                end in
  let unfinished := match e with
                    | Some EOF => true
                    | _ => bool_decide (pending b = [] ∧ last (concat (cl_conn c)) ≠ Some LF)
                    end in
  if unfinished && negb (cl_closed c) then Block c else Ret tt (set_conn (rd_conn b) c).

Fixpoint repl (port : Z) (stdin : list bytes) : prog client unit :=
  print (str "vortexmq:" ++ FormatInt port ++ str "> ");;
  match stdin with
  | [] => mret tt
  | text :: stdin' =>
      match repl_line unicode_TrimSpace (unicode_fields unicode_spans) text with
      | Prompt => repl port stdin'
      | Leave_ => mret tt
      | Run args =>
          write_command args;;
          r ← read_line;
          let '(respLine, ok, b) := r in
          if negb ok then print (str "Connection closed by server: EOF" ++ [LF])
          else show_reply respLine b;; repl port stdin'
      end
  end.

(** [main]; [dial] is the error of [net.Dial], if any; the result is the exit
    code. *)
Definition main (fl : cli_flags) (dial : option bytes) (args stdin : list bytes) : prog client Z :=
  let addr := JoinHostPort (cf_host fl) (cf_port fl) in
  match dial with
  | Some err => print (str "Error: Could not connect to VortexMQ on " ++ addr ++ str ": " ++ err ++ [LF]);; mret 1
  | None =>
      (if decide (cf_password fl = []) then mret tt
       else write_command [str "AUTH"; cf_password fl];; read_auth_reply);;
      if decide (args = []) then
        print (str "Connected to VortexMQ at " ++ addr ++ [LF]);;
        print (str "Type commands (e.g. PING, LPUSH <topic> <msg>, RPOP <topic>, VMQ.STATS, QUIT):" ++ [LF]);;
        repl (cf_port fl) stdin;;
        mret 0
      else
        write_command args;;
        r ← read_line;
        print r.1.1;;
        mret 0
  end.
End main.

(** ** Lemmas *)

Lemma writes_fit ps : ∀ w,
  Z.of_nat (length (cw_buf w) + length (concat ps)) ≤ writerSize →
  fold_left Write ps w = mkWriter (cw_buf w ++ concat ps) (cw_sent w).
Proof.
  induction ps as [|p ps IH]; intros w Hfit; [destruct w; simpl; by rewrite app_nil_r|].
  cbn [fold_left concat] in *. rewrite length_app in Hfit. unfold Write at 2.
  rewrite (proj2 (Z.leb_le _ _)); [lia|]. rewrite IH; cbn [cw_buf cw_sent].
  - rewrite length_app. lia.
  - by rewrite app_assoc.
Qed.

Lemma concat_bulk b : concat (bulk_pieces b) = WriteBulkString (Some b).
Proof. unfold bulk_pieces, WriteBulkString. cbn [concat]. by rewrite app_nil_r. Qed.

Lemma concat_array args : concat (array_pieces args) = WriteArray (Some (Some <$> args)).
Proof.
  unfold array_pieces, WriteArray. rewrite concat_app length_fmap. cbn [concat]. rewrite app_nil_r.
  cbn [app]. change (str "*") with ["*"%byte]. cbn [app]. f_equal. rewrite -!app_assoc. do 2 f_equal.
  induction args as [|a args IH]; [done|]. rewrite fmap_cons !bind_cons concat_app concat_bulk. by rewrite IH.
Qed.

Lemma leading_digits_app ds c r : Forall is_digit ds → ¬ is_digit c → leading_digits (ds ++ c :: r) = ds.
Proof.
  intros Hd Hc. induction Hd as [|d ds Hd _ IH]; cbn.
  - by rewrite decide_False.
  - by rewrite decide_True // IH.
Qed.

(** A length as the server writes it is read back. *)
Lemma scan_length_line n rest : 0 ≤ n < 2 ^ 63 → scan_length (FormatInt n ++ CR :: rest) = n.
Proof.
  intros Hn. rewrite FormatInt_nat; [lia|]. destruct (FormatUint_spec n ltac:(lia)) as (Hd & Hne & Hv).
  unfold scan_length. destruct (FormatUint n) as [|d ds] eqn:E; [done|].
  assert (is_digit d) as Hdd by (by apply Forall_cons in Hd as [? _]). unfold is_digit in Hdd.
  assert (trim_left ((d :: ds) ++ CR :: rest) = (d :: ds) ++ CR :: rest) as ->.
  { cbn. assert (is_space d = false) as -> by (unfold is_space; lia). done. }
  cbn [app]. destruct (decide (d = "-"%byte)) as [->|_]; [by vm_compute in Hdd; destruct Hdd|].
  destruct (decide (d = "+"%byte)) as [->|_]; [by vm_compute in Hdd; destruct Hdd|].
  change (d :: ds ++ CR :: rest) with ((d :: ds) ++ CR :: rest). rewrite leading_digits_app //.
  { unfold is_digit. intros Hc. vm_compute in Hc. by destruct Hc. }
  destruct (decide (d :: ds = [])) as [?|_]; [done|]. rewrite Hv. destruct (decide (is_i64 n)) as [_|[]]; [done|].
  unfold is_i64. lia.
Qed.

(** No argument is longer than the encoding, nor are there more of them. *)
Lemma array_bounds (args : list bytes) :
  (length args ≤ length (WriteArray (Some (Some <$> args))))%nat ∧
  Forall (λ a, (length (default [] a) ≤ length (WriteArray (Some (Some <$> args))))%nat) (Some <$> args).
Proof.
  assert (length args ≤ length ((Some <$> args) ≫= WriteBulkString))%nat as Hn.
  { induction args as [|a args IH]; [done|]. rewrite fmap_cons bind_cons length_app. cbn. lia. }
  assert (Forall (λ a, (length (default [] a) ≤ length ((Some <$> args) ≫= WriteBulkString))%nat) (Some <$> args)) as Ha.
  { clear Hn. induction args as [|a args IH]; [by apply Forall_nil|]. rewrite fmap_cons bind_cons. apply Forall_cons. split.
    - rewrite length_app. unfold WriteBulkString at 1. change (default [] (Some a)) with a. cbn [length]. rewrite !length_app. lia.
    - eapply Forall_impl; [exact IH|]. intros x Hx. cbn beta in Hx |- *. rewrite length_app. lia. }
  unfold WriteArray. cbn [length]. rewrite !length_app. split; [lia|].
  eapply Forall_impl; [exact Ha|]. intros x Hx. cbn beta in Hx |- *. lia.
Qed.

(** ** Waiting *)

Lemma send_fits args w :
  Z.of_nat (length (cw_buf w) + length (WriteArray (Some (Some <$> args)))) ≤ writerSize →
  send args w = mkWriter (cw_buf w ++ WriteArray (Some (Some <$> args))) (cw_sent w).
Proof. intros Hfit. unfold send. rewrite -concat_array in Hfit |- *. by apply writes_fit. Qed.

(** A connection on which nothing has arrived. *)
Lemma read_line_waits c : cl_conn c = [] → cl_closed c = false → read_line c = Block c.
Proof. intros Hc Hcl. unfold read_line. rewrite Hc Hcl. destruct c. simpl in Hc. by rewrite Hc. Qed.

Lemma read_auth_waits ut us c : cl_conn c = [] → cl_closed c = false → read_auth_reply ut us c = Block c.
Proof.
  intros Hc Hcl. unfold read_auth_reply. rewrite Hc Hcl.
  assert (pending (BufReader.NewReader []) = []) as Hp.
  { apply nil_length_inv. unfold pending. rewrite app_nil_r length_window //. by apply NewReader_ok. }
  pose proof (readLine_agree (BufReader.NewReader []) (NewReader_ok [] ltac:(constructor))) as Ha. rewrite Hp in Ha.
  unfold BufReader.ReadCommand, mbind, breader_bind.
  change (Resp.readLine []) with (inl EOF : RespError + bytes * bytes) in Ha.
  destruct (BufReader.readLine _) as [[e b]|[sl b]]; [|done]. simpl in Ha. by subst e.
Qed.

(** ** Replies *)

(** The first packet holds the line that the reader looks for. *)
Lemma ReadString_packet p rest l r :
  split_line p = Some (l, r) → Z.of_nat (length p) ≤ 4096 →
  ∃ b, ReadString (p :: rest) = (l ++ [LF], true, b) ∧ window b = r ∧ rd_conn b = rest ∧ (r ≠ [] → rd_r b ≠ rd_w b).
Proof.
  intros Hs Hlen. pose proof (split_line_length _ _ _ Hs) as Ep. unfold ReadString.
  assert (length p = S (length l + length r)) as Hpl by (rewrite Ep length_app /=; lia).
  destruct (ReadSlice_packet (line_reader (p :: rest)) p rest l r) as (buf & E & Hbuf & _); [done|done|done| |].
  { unfold line_reader. cbn [rd_buf]. rewrite length_replicate. lia. }
  exists (skip (S (length l)) (mkReader buf 0 (length p) rest)).
  assert (p = (l ++ [LF]) ++ r) as Ep' by (by rewrite Ep -app_assoc).
  assert (sub 0 (S (length l)) buf = l ++ [LF]) as Hline.
  { rewrite -(take_of_sub _ (length p)); [lia|]. rewrite Hbuf Ep'. apply take_app_length'. rewrite length_app /=. lia. }
  split_and!; [| |done|].
  - destruct (length (concat (p :: rest))); cbn [string_loop]; rewrite E; cbn [rd_buf skip app]; by rewrite Hline.
  - rewrite window_skip window_start Hbuf Ep'. apply drop_app_length'. rewrite length_app /=. lia.
  - intros Hr. simpl. destruct r; [done|simpl in *; lia].
Qed.

(** The replies of the server that are not arrays. *)
Inductive answer : Type :=
| Bulk (p : bytes)
| Nil
| Line (l : bytes).

Definition answer_bytes (a : answer) : bytes :=
  match a with Bulk p => WriteBulkString (Some p) | Nil => WriteBulkString None | Line l => l ++ CRLF end.

Definition shown (a : answer) : bytes :=
  match a with Bulk p => p ++ [LF] | Nil => str "(nil)" ++ [LF] | Line l => l ++ CRLF end.

Definition answer_ok (a : answer) : Prop :=
  Z.of_nat (length (answer_bytes a)) ≤ 4096 ∧
  match a with Line l => LF ∉ l ∧ head l ≠ Some "$"%byte | _ => True end.

Lemma FormatInt_no_lf z : LF ∉ FormatInt z.
Proof.
  assert (∀ n, 0 ≤ n → LF ∉ FormatUint n) as Hu.
  { intros n Hn. apply digits_no_sep; [intros Hd; vm_compute in Hd; by destruct Hd|]. by apply FormatUint_spec. }
  unfold FormatInt. destruct (Z.ltb_spec z 0); [|by apply Hu].
  apply not_elem_of_cons. split; [by intros [=]|]. apply Hu. lia.
Qed.

Lemma split_crlf l r : LF ∉ l → split_line (l ++ CRLF ++ r) = Some (l ++ [CR], r).
Proof.
  intros Hl. change (l ++ CRLF ++ r) with (l ++ [CR] ++ LF :: r). rewrite app_assoc split_line_app //.
  rewrite elem_of_app list_elem_of_singleton. by intros [?|[=]].
Qed.

(** A reply that arrives in one packet is read and shown. *)
Lemma answer_shown a rest c : answer_ok a → cl_conn c = answer_bytes a :: rest →
  ∃ line b, read_line c = Ret (line, true, b) (set_conn rest c) ∧
    show_reply line b (set_conn rest c) =
      Ret tt (mkClient (cl_w c) rest (cl_closed c) (cl_stdout c ++ shown a)).
Proof.
  intros [Hlen Hok] Hc. unfold read_line. rewrite Hc.
  destruct a as [p| |l]; cbn [answer_bytes shown] in *.
  - destruct (ReadString_packet (WriteBulkString (Some p)) rest ("$"%byte :: FormatInt (Z.of_nat (length p)) ++ [CR]) (p ++ CRLF))
      as (b & -> & Hw & Hr & Hne); [|done|].
    { unfold WriteBulkString. rewrite app_comm_cons split_crlf //.
      apply not_elem_of_cons. split; [by intros [=]|apply FormatInt_no_lf]. }
    rewrite Hr. cbn [negb andb]. do 2 eexists. split; [done|].
    unfold show_reply. cbn [app head drop]. destruct (decide _) as [_|[]]; [|done].
    assert (Z.of_nat (length p) ≤ 4096) as Hpl.
    { unfold WriteBulkString in Hlen. cbn [length] in Hlen. rewrite !length_app in Hlen. lia. }
    rewrite -app_assoc. rewrite (scan_length_line (Z.of_nat (length p)) [LF]); [lia|].
    rewrite (proj2 (Z.leb_le _ _)); [lia|]. rewrite (_ : i64 _ = Z.of_nat (length p) + 2); [unfold i64; rewrite Z.mod_small; lia|].
    rewrite (proj2 (Z.ltb_ge _ _)); [lia|]. rewrite (proj2 (Z.ltb_ge maxAlloc _)); [unfold maxAlloc; lia|]. cbn [orb].
    unfold read_payload, mbind, prog_bind. unfold buf_Read. destruct (decide (rd_r b = rd_w b)) as [Heq|_].
    { exfalso. apply Hne; [|done]. by destruct p. }
    rewrite Hw. cbn [rd_conn skip]. rewrite Hr (take_ge (p ++ CRLF)); [rewrite length_app; change (length CRLF) with 2%nat; lia|].
    unfold print. cbn [cl_w cl_conn cl_closed cl_stdout set_conn]. do 3 f_equal. rewrite Nat2Z.id -app_assoc.
    by rewrite take_app_length.
  - destruct (ReadString_packet (WriteBulkString None) rest (str "$-1" ++ [CR]) []) as (b & -> & Hw & Hr & _);
      [by vm_compute|by vm_compute|].
    rewrite Hr. do 2 eexists. split; [done|]. done.
  - destruct Hok as [Hl Hh]. destruct (ReadString_packet (l ++ CRLF) rest (l ++ [CR]) []) as (b & -> & Hw & Hr & _);
      [by rewrite -(app_nil_r CRLF) split_crlf|done|].
    rewrite Hr. do 2 eexists. split; [done|]. unfold show_reply.
    rewrite -app_assoc. destruct (decide _) as [Hd|_]; [by destruct l|]. done.
Qed.

(** ** Properties *)

Section properties.
Context (ts ut : bytes → bytes) (us : bytes → list (nat * nat)).

(** The first command of a line of the interactive loop, unless the user leaves. *)
Fixpoint first_line (stdin : list bytes) : option (list bytes) :=
  match stdin with
  | [] => None
  | text :: stdin' =>
      match repl_line ts (unicode_fields us) text with
      | Prompt => first_line stdin'
      | Leave_ => None
      | Run args => Some args
      end
  end.

(** The first command the client has to send. *)
Definition first_command (fl : cli_flags) (args stdin : list bytes) : option (list bytes) :=
  if decide (cf_password fl = []) then if decide (args = []) then first_line stdin else Some args
  else Some [str "AUTH"; cf_password fl].

(** A client that has written [cmd], and sent nothing. *)
Definition unsent (cmd : list bytes) (r : result client Z) : Prop :=
  ∃ c, r = Block c ∧ cl_w c = mkWriter (WriteArray (Some (Some <$> cmd))) [].

(** Before the first command nothing but the screen has changed. *)
Definition pristine (c : client) : Prop := cl_w c = mkWriter [] [] ∧ cl_conn c = [] ∧ cl_closed c = false.

Definition fits (cmd : list bytes) : Prop := Z.of_nat (length (WriteArray (Some (Some <$> cmd)))) ≤ writerSize.

Lemma write_then_wait {A} cmd (k : unit → prog client A) c :
  pristine c → fits cmd →
  (∀ c', cl_conn c' = [] → cl_closed c' = false → k tt c' = Block c') →
  ∃ c', (write_command cmd ≫= k) c = Block c' ∧ cl_w c' = mkWriter (WriteArray (Some (Some <$> cmd))) [].
Proof.
  intros (Hw & Hc & Hcl) Hfit Hk. unfold mbind, prog_bind, write_command. rewrite Hk //.
  eexists. split; [done|]. cbn [cl_w]. rewrite Hw. by apply send_fits.
Qed.

Lemma repl_waits port stdin : ∀ cmd c, pristine c → first_line stdin = Some cmd → fits cmd →
  ∃ c', repl ts us port stdin c = Block c' ∧ cl_w c' = mkWriter (WriteArray (Some (Some <$> cmd))) [].
Proof.
  induction stdin as [|text stdin IH]; intros cmd c Hp Hf Hfit; [done|]. cbn [first_line repl] in *.
  unfold mbind at 1, prog_bind at 1. cbn [print].
  set (c1 := mkClient _ _ _ _). assert (pristine c1) as Hp1 by exact Hp.
  destruct (repl_line ts (unicode_fields us) text); [by apply IH|done|]. injection Hf as ->.
  apply write_then_wait; [done|done|]. intros c' H1 H2. by apply bind_block, read_line_waits.
Qed.

(** C32: the client never gets an answer.  It writes its first command ([AUTH] when
    there is a password, the command line, or the first line typed) to a buffered
    writer and waits for the reply: if the command fits the 64 KiB of the buffer,
    nothing of it has been sent, and a server that answers only what it is sent never
    answers.  The bytes are right: a flush would send exactly the encoding, which the
    server reads as that command. *)
Theorem cli_hangs fl args stdin name cargs uf out
  (Hcmd : first_command fl args stdin = Some (name :: cargs)) (Hfit : fits (name :: cargs)) :
  ∃ c, main ts ut us fl None args stdin (mkClient (mkWriter [] []) [] false out) = Block c ∧
    cw_sent (cl_w c) = [] ∧
    Resp.ReadCommand ut uf (cw_sent (Flush (cl_w c))) =
      inr (mkCommand (gostring (ToUpper ut name)) (Some <$> cargs), []).
Proof.
  assert (∃ c, main ts ut us fl None args stdin (mkClient (mkWriter [] []) [] false out) = Block c ∧
    cl_w c = mkWriter (WriteArray (Some (Some <$> name :: cargs))) []) as (c & E & Hw).
  { set (c0 := mkClient _ _ _ _). assert (pristine c0) as Hp by done. unfold main, first_command in *.
    destruct (decide (cf_password fl = [])) as [_|_].
    - unfold mbind at 1, prog_bind at 1, mret at 1, prog_ret at 1. destruct (decide (args = [])) as [_|_].
      + unfold mbind at 1, prog_bind at 1. cbn [print]. unfold mbind at 1, prog_bind at 1. cbn [print].
        set (c1 := mkClient _ _ _ _). assert (pristine c1) as Hp1 by done.
        destruct (repl_waits (cf_port fl) stdin (name :: cargs) c1 Hp1 Hcmd Hfit) as (c' & E & Hw).
        exists c'. split; [by apply bind_block|done].
      + injection Hcmd as ->. apply write_then_wait; [done|done|]. intros c' H1 H2. by apply bind_block, read_line_waits.
    - injection Hcmd as <- <-.
      destruct (write_then_wait [str "AUTH"; cf_password fl] (λ _, read_auth_reply ut us) c0 Hp Hfit) as (c' & E & Hw).
      { intros c' H1 H2. by apply read_auth_waits. }
      exists c'. split; [by apply bind_block|done]. }
  exists c. rewrite Hw. split_and!; [done|done|]. unfold Flush. cbn [cw_sent cw_buf app].
  destruct (array_bounds (name :: cargs)) as [Hn Ha]. unfold fits, writerSize in Hfit.
  set (total := length (WriteArray _)) in *. rewrite -(app_nil_r (WriteArray _)) fmap_cons ReadCommand_array //.
  - rewrite -fmap_cons. eapply Forall_impl; [exact Ha|]. intros a Hl. cbn beta in Hl. unfold arg_ok, len_slice, maxBulkLength. lia.
  - rewrite -fmap_cons length_fmap. unfold maxCommandArgs. lia.
Qed.

(** What the screen shows of a session. *)
Definition prompt (port : Z) : bytes := str "vortexmq:" ++ FormatInt port ++ str "> ".

(** C33: replies are shown.  If every command typed is answered, each reply in a
    packet that fits the 4096 bytes of the reader, the interactive loop prints after
    each prompt the payload of a bulk reply, [(nil)] for the null reply, and the line
    of any other; it leaves at the end of the input, having written all the
    commands. *)
Theorem cli_session port (session : list (bytes * list bytes * answer)) : ∀ c
  (Hlines : Forall (λ x, repl_line ts (unicode_fields us) x.1.1 = Run x.1.2) session)
  (Hok : Forall (λ x, answer_ok x.2) session)
  (Hconn : cl_conn c = (λ x, answer_bytes x.2) <$> session),
  repl ts us port ((λ x, x.1.1) <$> session) c =
    Ret tt (mkClient (fold_left (λ w x, send x.1.2 w) session (cl_w c)) [] (cl_closed c)
              (cl_stdout c ++ (session ≫= λ x, prompt port ++ shown x.2) ++ prompt port)).
Proof.
  induction session as [|[[text args] a] session IH]; intros c Hlines Hok Hconn.
  { destruct c as [w conn closed out]. cbn in Hconn. by rewrite Hconn. }
  apply Forall_cons in Hlines as [Hline Hlines]. apply Forall_cons in Hok as [Ha Hok]. cbn [fst snd] in Hline, Ha.
  cbn [fmap list_fmap fst snd repl]. rewrite Hline. unfold mbind at 1, prog_bind at 1. cbn [print].
  unfold mbind at 1, prog_bind at 1. cbn [write_command]. set (c1 := mkClient _ _ _ _).
  destruct (answer_shown a _ c1 Ha Hconn) as (line & b & E & Es).
  rewrite (bind_ret _ _ _ _ _ E). cbn [negb]. rewrite (bind_ret _ _ _ _ _ Es) IH //.
  cbn [cl_w cl_conn cl_closed cl_stdout c1 fold_left fst snd]. rewrite bind_cons. unfold prompt.
  by rewrite -!app_assoc.
Qed.
End properties.

(** ** Witnesses *)

Lemma cli_hangs_witness :
  ∃ c, main id id demo_spans default_cli_flags None [] [str " "; str "ping"] (mkClient (mkWriter [] []) [] false []) = Block c ∧
    cw_sent (cl_w c) = [].
Proof.
  destruct (cli_hangs id id demo_spans default_cli_flags [] [str " "; str "ping"] (str "ping") [] (λ _, []) [])
    as (c & E & Hs & _).
  - by vm_compute.
  - by vm_compute.
  - exists c. split; [exact E|exact Hs].
Defined.

Definition demo_session : list (bytes * list bytes * answer) :=
  [(str "LPOP jobs", [str "LPOP"; str "jobs"], Bulk (str "hi")); (str "PING", [str "PING"], Line (str "+PONG"))].

Lemma cli_session_witness :
  repl id demo_spans 8379 [str "LPOP jobs"; str "PING"]
    (mkClient (mkWriter [] []) (answer_bytes ∘ snd <$> demo_session) true []) =
  Ret tt (mkClient (fold_left (λ w x, send x.1.2 w) demo_session (mkWriter [] [])) [] true
    (str "vortexmq:8379> hi" ++ [LF] ++ str "vortexmq:8379> +PONG" ++ CRLF ++ str "vortexmq:8379> ")).
Proof.
  apply (cli_session id demo_spans 8379 demo_session
    (mkClient (mkWriter [] []) (answer_bytes ∘ snd <$> demo_session) true [])).
  - repeat constructor.
  - repeat constructor; try (by vm_compute). apply (bool_decide_unpack (LF ∉ _)). by vm_compute.
  - done.
Defined.
